(* ===== verification/_CoqProject ===== *)
-Q . S2P
Prelude.v
RustStd.v
Str.v
Resp.v
RespTheory.v
Slot.v
Storage.v
StorageTheory.v
StorageConc.v
Store.v
Calls.v
Topology.v
TopologyTheory.v
ReplState.v
ReplTheory.v
Runtime.v
Commands.v
CommandsTheory.v
Connection.v
ConnectionTheory.v
Regions.v
RegionsTheory.v
Replica.v
ReplicaTheory.v
Pipeline.v
Server.v
ServerTheory.v
System.v
SystemTheory.v
TaskTheory.v
SystemRaces.v
SystemLiveness.v
Program.v
SystemWitnesses.v
