(* ===== verification/Prelude.v ===== *)
(** * RustiCache: a verified model of the server

    RustiCache (src/src/) is a Redis-compatible cache server: it speaks RESP2
    over TCP, keeps an in-memory key-value store with expiry and a memory
    limit, replicates writes to other servers and can run as a node of a
    cluster.  This library translates its sources into executable
    definitions and proves what makes them correct.

    ** The program's parts and their models

    - protocol/resp.rs, the wire format: [Resp] (module [Resp]); theorems in
      [RespTheory].  A buffer is a list of bytes; a parser returns its result
      and the buffer after it, as [&mut BytesMut] does.
    - cluster/slot.rs, the hash slot of a key: [Slot].
    - storage/entry.rs and storage/db.rs, the sharded store: [Storage]; its
      refinement of a map in [StorageTheory], the interleavings of its locked
      regions in [StorageConc].  [Store] is the interface the commands use
      ([Store], [StoreLaws]) with the instance that shows the store keeps it;
      [Calls] is the interface of the locked regions the running server
      interleaves ([StoreRegions], [RegionLaws]), the loops of a SET, of KEYS
      and of a purge as steps over them, and the instance of the store.
    - cluster/topology.rs, the known nodes and the slot table: [Topology],
      [TopologyTheory].
    - replication/state.rs and replication/rdb.rs, role, offsets, propagation
      to replicas and the snapshot: [ReplState], [ReplTheory].
    - commands/mod.rs, reading and running commands: [Commands],
      [CommandsTheory].
    - connection.rs, the loop that serves a client: [Connection],
      [ConnectionTheory].
    - replication/replica.rs, the replica's handshake and stream: [Replica],
      [ReplicaTheory].
    - server.rs, main.rs, config.rs and storage/ttl.rs, configuration, the
      building of the server and the expiry task: [Server] (modules [Config]
      and [Server]), [ServerTheory]; [main] as a whole: [Program].
    - The running server.  [Regions] cuts [Commands.execute] and the loop of a
      connection at their accesses to what the tasks share, one lock at a
      time, and [RegionsTheory] shows that a connection that runs alone does
      what the sequential models say ([regions_refine_turn]), [TaskTheory]
      the same of the replication task ([frame_alone]).  [System]
      interleaves the accept loop, the connections, the expiry task and the
      replication task as a step relation [System.sys_step] on the state
      [System.Sys]; its invariant and safety are in [SystemTheory], a race in
      [SystemRaces], the shutdown in [SystemLiveness].  [Runtime] has tokio's
      receivers and broadcast.
    - [Pipeline] composes parser, commands, store and connection into what a
      client sees, and with [ReplicaTheory] into what its replica shows.
      [SystemWitnesses] evaluates the theorems on the running server.

    A connection reads bytes, [Resp.parse] finds a frame, [Commands.from_value]
    reads it as a command, [Connection.redirection] asks the topology whether
    this server has the key, and [Commands.execute] runs it on the store and
    sends the bytes of a write to the replicas through
    [ReplState.propagate_downstream].  A replica's task feeds the same parser
    and the same [execute].  What the tasks share is the record
    [Commands.Shared].  Definitions keep the names of the source; a name Rocq
    reserves has an underscore ([Set_], [string_]).

    ** How code is modelled

    Code that can panic returns an [outcome]; [Result] is [result].  Integers
    are [Z] with the range and wrap-around of their type written out; an
    addition or subtraction that can overflow panics or wraps as
    [overflow_checks], the Cargo profile, says.  What the source takes from
    outside is an argument:
    - [Platform]: the build profile, type sizes, the allocator, the largest
      [Instant] and the hash of [DefaultHasher], which the standard library
      does not specify;
    - the iteration order of a [HashMap] ([Storage.iter_order] with the law
      [Storage.IterOrder]: a permutation of the entries; [Topology.node_order]);
    - every reading of the clock, in the order the source makes them;
    - the socket: a list of reads or of events of [select!], and [wr i],
      whether the [i]-th write succeeds;
    - tokio's unbounded channels, broadcast and semaphore, the classes [Mpsc],
      [MpscRx], [Broadcast] and [Semaphore], whose laws ([MpscLaws] and so on)
      are what tokio documents; each has a concrete instance used by the
      witnesses;
    - clap's result, the record [Config.Cli] or none, and whether tokio builds
      the runtime.

    The steps of [System] allow at least what the program can do: each may
    find any outcome of a write and any monotonic clock, any client may send
    anything at any time, and the replication task may end at any point (an
    error of its socket).  A step holds one lock at most: the region of one
    shard (of a GET, of a round of the eviction loop of a SET, of one key of a
    DEL or EXISTS, of one shard of KEYS or of a purge), one use of the topology
    or of the senders of the replicas, one update of an atomic.  The updates of
    the memory counter inside a region are one with it; the test of the
    eviction loop, which takes no lock, may read any value of the counter
    ([lag]).  What INFO reports is read in one step.  A panic ends its own
    task, as tokio's [spawn] makes it; a failed allocation ends the process.

    ** What the theorems show

    - Protocol: [parse] returns a value exactly for the frames of the RESP2
      grammar, always ends, panics only when it reserves an array, waits for
      an incomplete frame, gives the same result however the stream is cut,
      and inverts the printer.
    - Slots: the table-driven checksum is CRC-16/XMODEM, as a shift register
      and as a polynomial remainder; the slot is in range and obeys hashtags.
    - Store: any sequence of calls refines a map with expiry; SET under a
      limit bounds the memory counter; the victim of an eviction is the least
      recently used of the sample; a purge removes expired entries only; under
      every interleaving no call panics or gets stuck and the counter stays
      exact, except for the race of the purge with SET, which is exhibited;
      with a counter that is wrong SET still returns and stores.
    - Topology: the invariant of the slot table, the exact effect of assigning
      slots, the round trip of slot specifications, and the exactness of the
      CLUSTER SLOTS and CLUSTER INFO reports.
    - Replication state: each open channel gets each propagated command once
      per registration, in order, and the offset counts the bytes.
    - Commands: commands read from the wire are well typed, every command has
      a wire form that is read back, running a command refines the map and
      propagates exactly the effective writes.
    - Connections: each turn ends, the cutting of the input into reads does
      not matter, a client without the password cannot reach the data, keys
      served elsewhere are redirected.
    - Replicas: the handshake of a replica and of a server of this program
      agree; without memory limit and SET PX, a replica that starts out with
      its master's data and is fed its stream ends with the master's data and
      offset; GETACK is answered with the offset.
    - Pipelines: a read of several commands is their sequential execution;
      outside a cluster, without expiry and memory limit, the server is, to an
      authenticated client, a finite map, and so is its replica afterwards.
    - The program: with options within bounds it starts in the states the
      other theorems assume, and [.env] only fills in variables.
    - The running server, under every interleaving of the locked regions:
      every key stays in its shard and the topology well formed (the memory
      counter need not stay exact), the connection limit is kept and permits
      are never lost, no access panics with an index out of bounds; while
      nobody has given the password and no master is replicated, nothing is
      stored and only entries that had expired are removed; a replica's channel
      gets exactly what was propagated and its connection forwards it in
      order; and after the shutdown signal, in every fair run, every connection
      is closed.  Fairness is two hypotheses on infinite runs: a connection
      that can move is scheduled (and its writes return), and [select!] does
      not pass over the pending signal for ever.  With a memory limit the
      replication task has to come to rest too: a SET evicts until the counter
      is below the limit, and writes of a master that never stops can keep it
      there.  The argument is by a lexicographic measure of all connections.

    Some theorems exhibit behaviour the authors will not have meant: a panic
    from an array header, the purge deleting a live key, PSYNC before the
    password, the overflow of a bus port, and writes that reach the replicas
    in another order than the store.

    ** Fuel

    Recursion that is not structural runs on fuel; running out is the outcome
    [NoFuel], and the theorems exclude it.  [Resp.parse] has one more
    than the length of the buffer (every element of an array and every nested
    frame takes a byte), [Connection.process_buffer] and [Replica.stream_buffer] have the
    length of the buffer (every iteration takes a byte or stops), and
    [Storage.ensure_memory_capacity] has one more than the number of entries
    (every iteration removes one or stops).

    ** Not modelled

    Logging, TCP set-up (bind, connect, nodelay and addresses are parameters
    or left out), the choice of the scheduler (every choice is covered), clap's
    parsing, the debug form of [bytes::Bytes].  Depth of recursion is not
    bounded by a stack.  That every allocation but those of arrays and shards
    succeeds is assumed, and with it that the size of an entry fits a [usize].

    ** Next

    The text of CLUSTER NODES; replies in cluster mode and with expiry at the
    level of [Pipeline]; convergence of a replica while the master's clients
    interleave. *)

Set Warnings "-clear-no-such-hyp".
From Stdlib Require Export Strings.Byte ZArith Lia.
From stdpp Require Export base gmap sets strings countable.
From stdpp Require Export list.
Open Scope Z_scope.

(** ** Bytes *)

Abbreviation byte := Corelib.Init.Byte.byte.
Abbreviation bytes := (list Corelib.Init.Byte.byte).

#[export] Instance byte_eq_decision : EqDecision Corelib.Init.Byte.byte := Byte.byte_eq_dec.

#[export] Program Instance byte_countable : Countable Corelib.Init.Byte.byte :=
  inj_countable Byte.to_N Byte.of_N _.
Next Obligation. intros x. apply Byte.of_to_N. Qed.

(** The numeric value of a byte, [b as u16] and the like. *)
Definition bZ (b : byte) : Z := Z.of_N (Byte.to_N b).

(** The byte of a number below 256. *)
Definition Zb (z : Z) : byte := default x00 (Byte.of_N (Z.to_N z)).

Declare Scope rust_scope.
Delimit Scope rust_scope with rust.

(** A byte string literal, [b"..."] or ["..."] of the source. *)
Notation "'b!' s" := (String.list_byte_of_string s%string)
  (at level 1, s at level 0) : rust_scope.
Open Scope rust_scope.

Definition CR : byte := x0d.
Definition LF : byte := x0a.
Definition crlf : bytes := [CR; LF].

Lemma bZ_range b : 0 <= bZ b < 256.
Proof.
  unfold bZ. pose proof (Byte.to_N_bounded b) as H. lia.
Qed.

Lemma bZ_inj x y : bZ x = bZ y -> x = y.
Proof.
  unfold bZ. intros H. apply N2Z.inj in H.
  pose proof (Byte.of_to_N x) as Hx. rewrite H, Byte.of_to_N in Hx. congruence.
Qed.

Lemma byte_eqb_refl b : Byte.eqb b b = true.
Proof. by destruct (Byte.eqb b b) eqn:E; [|apply Byte.eqb_false in E]. Qed.

Lemma Zb_bZ b : Zb (bZ b) = b.
Proof. unfold Zb, bZ. by rewrite N2Z.id, Byte.of_to_N. Qed.

Lemma bZ_Zb z : 0 <= z < 256 -> bZ (Zb z) = z.
Proof.
  intros Hz. unfold Zb, bZ.
  destruct (Byte.of_N (Z.to_N z)) as [b|] eqn:E; simpl.
  - apply Byte.to_of_N in E. rewrite E. lia.
  - apply Byte.of_N_None_iff in E. lia.
Qed.

(** ** Machine integers of a 64-bit target *)

Definition u16_max : Z := 65535.
Definition u64_max : Z := 18446744073709551615.
Definition usize_max : Z := u64_max.
Definition i64_min : Z := -9223372036854775808.
Definition i64_max : Z := 9223372036854775807.
Definition isize_min : Z := i64_min.
Definition isize_max : Z := i64_max.

Definition wrap_u16 (z : Z) : Z := z mod 65536.
Definition wrap_usize (z : Z) : Z := z mod 18446744073709551616.

(** ** Errors as values, panics as outcomes *)

(** [Result<A, E>]. *)
Inductive result (A E : Type) : Type :=
| Ok (a : A)
| Err (e : E).
Arguments Ok {A E} a.
Arguments Err {A E} e.

(** How a computation stops without returning. *)
Inductive panic : Type :=
| ArithmeticOverflow
| CapacityOverflow
| AllocationFailure
| IndexOutOfBounds
| InstantOverflow
| InvalidEnvironment
| TooManyPermits.

(** What running a piece of code gives: a value, a panic (an abort for
    [AllocationFailure]), or the end of the model's fuel, which the
    adequacy theorems exclude. *)
Inductive outcome (A : Type) : Type :=
| Ret (a : A)
| Panic (p : panic)
| NoFuel.
Arguments Ret {A} a.
Arguments Panic {A} p.
Arguments NoFuel {A}.

#[export] Instance outcome_ret : MRet outcome := @Ret.
#[export] Instance outcome_bind : MBind outcome := fun A B f m =>
  match m with
  | Ret a => f a
  | Panic p => Panic p
  | NoFuel => NoFuel
  end.

#[export] Instance panic_eq_dec : EqDecision panic.
Proof. solve_decision. Defined.

Lemma outcome_bind_Ret {A B} (m : outcome A) (f : A -> outcome B) b :
  (m ≫= f) = Ret b <-> exists a, m = Ret a /\ f a = Ret b.
Proof.
  destruct m; cbn; split; try congruence.
  - intros ?. by eexists.
  - by intros (? & [= ->] & ?).
  - by intros (? & ? & _).
  - by intros (? & ? & _).
Qed.

(** ** The platform

    What the source takes from its build and its target, and the standard
    library leaves unspecified: whether arithmetic overflow panics (the
    Cargo profile), the sizes of the types whose vectors it reserves, when
    the allocator succeeds, the largest [Instant], and the hash of
    [DefaultHasher], whose algorithm the standard library does not fix. *)
Class Platform := {
  overflow_checks : bool;
  sizeof_Value : Z;
  sizeof_Entry : Z;
  sizeof_Shard : Z;
  alloc_ok : Z -> bool;
  instant_max : Z;
  hash_str : bytes -> Z;
  sizeof_Value_pos : 0 < sizeof_Value;
  sizeof_Entry_pos : 0 < sizeof_Entry;
  sizeof_Shard_pos : 0 < sizeof_Shard;
  hash_str_range k : 0 <= hash_str k <= u64_max;
}.

(** A 64-bit build whose allocator serves requests up to 2^40 bytes, with a
    small hash, to evaluate the definitions on concrete inputs. *)
#[program] Definition demo_platform (checks : bool) : Platform := {|
  overflow_checks := checks;
  sizeof_Value := 32;
  sizeof_Entry := 64;
  sizeof_Shard := 56;
  alloc_ok := fun n => n <=? 2 ^ 40;
  instant_max := 2 ^ 63 * 1000000000;
  hash_str := fun k => wrap_usize (fold_left (fun h b => h * 31 + bZ b) k 7);
|}.
Next Obligation. done. Qed.
Next Obligation. done. Qed.
Next Obligation. done. Qed.
Next Obligation.
  intros _ k. unfold wrap_usize, u64_max.
  pose proof (Z.mod_pos_bound
    (fold_left (fun h b => h * 31 + bZ b) k 7) 18446744073709551616). lia.
Qed.

(** [a + b] on [u16]: checked in a build with overflow checks, wrapping in
    one without. *)
Definition add_u16 `{Platform} (a b : Z) : outcome Z :=
  if a + b <=? u16_max then Ret (a + b)
  else if overflow_checks then Panic ArithmeticOverflow
  else Ret (wrap_u16 (a + b)).

(** [a + b] on [usize]. *)
Definition add_usize `{Platform} (a b : Z) : outcome Z :=
  if a + b <=? usize_max then Ret (a + b)
  else if overflow_checks then Panic ArithmeticOverflow
  else Ret (wrap_usize (a + b)).

(** [a - b] on [usize]. *)
Definition sub_usize `{Platform} (a b : Z) : outcome Z :=
  if 0 <=? a - b then Ret (a - b)
  else if overflow_checks then Panic ArithmeticOverflow
  else Ret (wrap_usize (a - b)).

(** [n.next_power_of_two()] on [usize], [n >= 1]. *)
Definition next_power_of_two `{Platform} (n : Z) : outcome Z :=
  let p := 2 ^ Z.log2_up n in
  if p <=? usize_max then Ret p
  else if overflow_checks then Panic ArithmeticOverflow
  else Ret 0.

(** [v[i]]. *)
Definition index {A} (v : list A) (i : nat) : outcome A :=
  match v !! i with
  | Some a => Ret a
  | None => Panic IndexOutOfBounds
  end.

(** [&s[n..]]. *)
Definition slice_from {A} (n : nat) (s : list A) : outcome (list A) :=
  if (n <=? length s)%nat then Ret (drop n s) else Panic IndexOutOfBounds.

(** [BytesMut::split_to(n)]: the first [n] bytes and the buffer after them. *)
Definition split_to {A} (n : nat) (s : list A) : outcome (list A * list A) :=
  if (n <=? length s)%nat then Ret (take n s, drop n s) else Panic IndexOutOfBounds.

(** [Vec::with_capacity(n)] of elements of [size] bytes. *)
Definition vec_with_capacity `{Platform} (size n : Z) : outcome unit :=
  if n =? 0 then Ret tt
  else if isize_max <? size * n then Panic CapacityOverflow
  else if alloc_ok (size * n) then Ret tt
  else Panic AllocationFailure.

(** The reservation succeeds. *)
Definition capacity_ok `{Platform} (size n : Z) : bool :=
  match vec_with_capacity size n with
  | Ret _ => true
  | _ => false
  end.

Lemma capacity_ok_Ret `{Platform} size n :
  capacity_ok size n = true <-> vec_with_capacity size n = Ret tt.
Proof.
  unfold capacity_ok. destruct (vec_with_capacity size n) as [[]| |]; by split.
Qed.

(** ** Tactics and hints *)

Create HintDb rust discriminated.
#[export] Hint Resolve bZ_range : rust.

(** Case analysis on the scrutinee of the first match or if of the goal. *)
Ltac case_goal :=
  match goal with
  | |- context [match ?x with _ => _ end] => destruct x eqn:?
  end.

(** The same on a hypothesis. *)
Ltac case_hyp H :=
  match type of H with
  | context [match ?x with _ => _ end] => destruct x eqn:?
  end.

(** Boolean comparisons of hypotheses and goal as propositions. *)
Ltac bool_to_prop :=
  repeat match goal with
  | H : (_ && _) = true |- _ => apply andb_prop in H as [? ?]
  | H : (_ && _) = false |- _ => apply andb_false_iff in H
  | H : (_ || _) = false |- _ => apply orb_false_elim in H as [? ?]
  | H : (_ || _) = true |- _ => apply orb_prop in H
  | H : negb _ = true |- _ => apply negb_true_iff in H
  | H : negb _ = false |- _ => apply negb_false_iff in H
  | H : (_ =? _)%Z = true |- _ => apply Z.eqb_eq in H
  | H : (_ =? _)%Z = false |- _ => apply Z.eqb_neq in H
  | H : (_ <=? _)%Z = true |- _ => apply Z.leb_le in H
  | H : (_ <=? _)%Z = false |- _ => apply Z.leb_gt in H
  | H : (_ <? _)%Z = true |- _ => apply Z.ltb_lt in H
  | H : (_ <? _)%Z = false |- _ => apply Z.ltb_ge in H
  | H : Byte.eqb _ _ = true |- _ => apply Byte.byte_dec_bl in H
  | H : Byte.eqb _ _ = false |- _ => apply Byte.eqb_false in H
  end.

(** ** Lists *)

Lemma drop_length_app {A} (l k : list A) n : n = length l -> drop n (l ++ k) = k.
Proof. intros ->. apply drop_app_length. Qed.

Lemma take_length_app {A} (l k : list A) n : n = length l -> take n (l ++ k) = l.
Proof. intros ->. apply take_app_length. Qed.

(** Induction on the length of a list. *)
Lemma list_len_ind {A} (P : list A -> Prop) :
  (forall s, (forall t, (length t < length s)%nat -> P t) -> P s) -> forall s, P s.
Proof.
  intros Hs s. remember (length s) as n eqn:En. revert s En.
  induction n as [n IH] using lt_wf_ind. intros s ->. apply Hs. eauto.
Qed.

Lemma elem_of_concat {A} (x : A) (ls : list (list A)) : x ∈ concat ls <-> exists l, x ∈ l /\ l ∈ ls.
Proof.
  induction ls as [|l ls IH]; cbn.
  - split; [by intros ?%not_elem_of_nil|by intros (l & _ & ?%not_elem_of_nil)].
  - rewrite elem_of_app, IH. setoid_rewrite elem_of_cons. naive_solver.
Qed.

(** [v[i] = a]. *)
Definition set_index {A} (v : list A) (i : nat) (a : A) : outcome (list A) :=
  if (i <? length v)%nat then Ret (<[i := a]> v) else Panic IndexOutOfBounds.
