(* ===== verification/RustStd.v ===== *)
(** * Integers of Rust's standard library

    Parsing ([FromStr]) and printing ([Display], hexadecimal) of the integer
    types, with their round trip and ranges.  A [String], [&str], [Bytes] or
    [&[u8]] is a list of bytes here and in the files that follow. *)

From S2P Require Import Prelude.

(** ** Integers: [FromStr] and [Display] *)

Module Int.

(** [core::num::IntErrorKind]. *)
Inductive IntErrorKind : Type :=
| Empty
| InvalidDigit
| PosOverflow
| NegOverflow.

#[export] Instance IntErrorKind_eq_dec : EqDecision IntErrorKind.
Proof. solve_decision. Defined.

(** [ParseIntError::to_string]. *)
Definition int_error_to_string (e : IntErrorKind) : bytes :=
  match e with
  | Empty => b!"cannot parse integer from empty string"
  | InvalidDigit => b!"invalid digit found in string"
  | PosOverflow => b!"number too large to fit in target type"
  | NegOverflow => b!"number too small to fit in target type"
  end.

(** [(c as char).to_digit(10)]. *)
Definition to_digit (c : byte) : option Z :=
  let d := bZ c - 48 in
  if (0 <=? d) && (d <=? 9) then Some d else None.

Definition digit_byte (d : Z) : byte := Zb (48 + d).

(** The checked loop of [from_str_radix]: the digit is looked at before the
    overflow of the multiplication is reported. *)
Fixpoint digits_pos (hi acc : Z) (s : bytes) : result Z IntErrorKind :=
  match s with
  | [] => Ok acc
  | c :: rest =>
      match to_digit c with
      | None => Err InvalidDigit
      | Some d =>
          if hi <? acc * 10 then Err PosOverflow
          else if hi <? acc * 10 + d then Err PosOverflow
          else digits_pos hi (acc * 10 + d) rest
      end
  end.

Fixpoint digits_neg (lo acc : Z) (s : bytes) : result Z IntErrorKind :=
  match s with
  | [] => Ok acc
  | c :: rest =>
      match to_digit c with
      | None => Err InvalidDigit
      | Some d =>
          if acc * 10 <? lo then Err NegOverflow
          else if acc * 10 - d <? lo then Err NegOverflow
          else digits_neg lo (acc * 10 - d) rest
      end
  end.

(** [s.parse::<T>()] for an integer type with the range [lo..=hi]; the type
    is signed when [lo < 0]. *)
Definition parse_int (lo hi : Z) (s : bytes) : result Z IntErrorKind :=
  match s with
  | [] => Err Empty
  | [c] =>
      if Byte.eqb c "+" || Byte.eqb c "-" then Err InvalidDigit
      else digits_pos hi 0 s
  | c :: rest =>
      if Byte.eqb c "+" then digits_pos hi 0 rest
      else if Byte.eqb c "-" && (lo <? 0) then digits_neg lo 0 rest
      else digits_pos hi 0 s
  end.

Definition parse_u16 : bytes -> result Z IntErrorKind := parse_int 0 u16_max.
Definition parse_u64 : bytes -> result Z IntErrorKind := parse_int 0 u64_max.
Definition parse_usize : bytes -> result Z IntErrorKind := parse_int 0 usize_max.
Definition parse_i64 : bytes -> result Z IntErrorKind := parse_int i64_min i64_max.
Definition parse_isize : bytes -> result Z IntErrorKind := parse_int isize_min isize_max.

(** [to_string()] of an integer. *)
Fixpoint fmt_dec (fuel : nat) (n : Z) (acc : bytes) : bytes :=
  match fuel with
  | O => acc
  | S f =>
      let acc' := digit_byte (n mod 10) :: acc in
      if n <? 10 then acc' else fmt_dec f (n / 10) acc'
  end.

Definition fmt_nonneg (n : Z) : bytes := fmt_dec (S (Z.to_nat (Z.log2 n))) n [].

Definition fmt_Z (z : Z) : bytes :=
  if z <? 0 then "-"%byte :: fmt_nonneg (- z) else fmt_nonneg z.

(** [format!("{:040x}", h)] of a [u64]: forty digits, the last sixteen of
    them those of [h]. *)
Definition hex_digit (d : Z) : byte :=
  if d <? 10 then Zb (48 + d) else Zb (87 + d).

Fixpoint fmt_hex_fixed (width : nat) (n : Z) (acc : bytes) : bytes :=
  match width with
  | O => acc
  | S w => fmt_hex_fixed w (n / 16) (hex_digit (n mod 16) :: acc)
  end.

Definition fmt_040x (h : Z) : bytes := fmt_hex_fixed 40 h [].

(** *** Round trip *)

Lemma to_digit_digit_byte d : 0 <= d < 10 -> to_digit (digit_byte d) = Some d.
Proof.
  intros Hd. unfold to_digit, digit_byte. rewrite bZ_Zb by lia.
  replace (48 + d - 48) with d by lia.
  destruct (0 <=? d) eqn:E1, (d <=? 9) eqn:E2; bool_to_prop; try lia; done.
Qed.

Lemma digits_pos_app hi acc s t v :
  digits_pos hi acc s = Ok v -> digits_pos hi acc (s ++ t) = digits_pos hi v t.
Proof.
  revert acc. induction s as [|c s IH]; intros acc; simpl; [congruence|].
  repeat case_goal; try done. apply IH.
Qed.

Lemma digits_neg_app lo acc s t v :
  digits_neg lo acc s = Ok v -> digits_neg lo acc (s ++ t) = digits_neg lo v t.
Proof.
  revert acc. induction s as [|c s IH]; intros acc; simpl; [congruence|].
  repeat case_goal; try done. apply IH.
Qed.

Definition is_digit (c : byte) : bool := bool_decide (is_Some (to_digit c)).

Lemma log2_div10 n : 10 <= n -> (Z.to_nat (Z.log2 (n / 10)) < Z.to_nat (Z.log2 n))%nat.
Proof.
  intros Hn.
  assert (n / 10 <= n / 2) by (apply Z.div_le_compat_l; lia).
  assert (Hl : Z.log2 (n / 2) = Z.log2 n - 1).
  { rewrite <- Z.div2_div, Z.div2_spec, Z.log2_shiftr by lia.
    pose proof (Z.log2_le_mono 10 n ltac:(lia)) as H10.
    change (Z.log2 10) with 3 in H10. lia. }
  pose proof (Z.log2_le_mono _ _ H). pose proof (Z.log2_nonneg (n / 10)).
  pose proof (Z.log2_le_mono 10 n ltac:(lia)) as H10.
  change (Z.log2 10) with 3 in H10. lia.
Qed.

Lemma fmt_dec_spec fuel n acc :
  0 <= n -> (Z.to_nat (Z.log2 n) < fuel)%nat ->
  exists ds, fmt_dec fuel n acc = ds ++ acc /\ ds <> [] /\
    Forall (fun c => is_Some (to_digit c)) ds /\
    (forall hi, n <= hi -> digits_pos hi 0 ds = Ok n) /\
    (forall lo, lo <= - n -> digits_neg lo 0 ds = Ok (- n)).
Proof.
  revert n acc. induction fuel as [|f IH]; intros n acc Hn Hf; [lia|].
  cbn [fmt_dec].
  assert (Hd : to_digit (digit_byte (n mod 10)) = Some (n mod 10)).
  { apply to_digit_digit_byte. apply Z.mod_pos_bound. lia. }
  pose proof (Z.div_mod n 10 ltac:(lia)) as Hdm.
  pose proof (Z.mod_pos_bound n 10 ltac:(lia)) as Hm.
  destruct (Z.ltb_spec n 10) as [Hlt|Hge].
  - exists [digit_byte (n mod 10)]. rewrite (Z.mod_small n 10) in * by lia.
    split_and!; [done|done| |intros hi Hhi|intros lo Hlo].
    + constructor; [by rewrite Hd|constructor].
    + cbn [digits_pos]. rewrite Hd.
      repeat case_goal; bool_to_prop; try lia. f_equal; lia.
    + cbn [digits_neg]. rewrite Hd.
      repeat case_goal; bool_to_prop; try lia. f_equal; lia.
  - destruct (IH (n / 10) (digit_byte (n mod 10) :: acc)) as (ds & -> & Hne & Hall & Hp & Hg).
    { apply Z.div_pos; lia. }
    { pose proof (log2_div10 n Hge). lia. }
    exists (ds ++ [digit_byte (n mod 10)]). split_and!.
    + by rewrite <- app_assoc.
    + by destruct ds.
    + apply Forall_app. split; [done|]. constructor; [by rewrite Hd|constructor].
    + intros hi Hhi. rewrite (digits_pos_app _ _ _ _ _ (Hp hi ltac:(lia))).
      cbn [digits_pos]. rewrite Hd.
      repeat case_goal; bool_to_prop; try lia. f_equal; lia.
    + intros lo Hlo. rewrite (digits_neg_app _ _ _ _ _ (Hg lo ltac:(lia))).
      cbn [digits_neg]. rewrite Hd.
      repeat case_goal; bool_to_prop; try lia. f_equal; lia.
Qed.

Lemma fmt_nonneg_spec n :
  0 <= n ->
  fmt_nonneg n <> [] /\ Forall (fun c => is_Some (to_digit c)) (fmt_nonneg n) /\
  (forall hi, n <= hi -> digits_pos hi 0 (fmt_nonneg n) = Ok n) /\
  (forall lo, lo <= - n -> digits_neg lo 0 (fmt_nonneg n) = Ok (- n)).
Proof.
  intros Hn. unfold fmt_nonneg.
  destruct (fmt_dec_spec (S (Z.to_nat (Z.log2 n))) n [] Hn ltac:(lia))
    as (ds & -> & ?). by rewrite app_nil_r.
Qed.

Lemma to_digit_not_sign c : is_Some (to_digit c) -> Byte.eqb c "+" = false /\ Byte.eqb c "-" = false.
Proof. by destruct c; intros [d Hd]; try discriminate Hd. Qed.

(** Parsing a printed integer gives it back, for every integer type. *)
Lemma parse_fmt_Z lo hi z :
  lo <= z <= hi -> lo <= 0 <= hi -> parse_int lo hi (fmt_Z z) = Ok z.
Proof.
  intros Hz Hlh. unfold fmt_Z. destruct (Z.ltb_spec z 0) as [Hneg|Hpos].
  - destruct (fmt_nonneg_spec (- z) ltac:(lia)) as (Hne & _ & _ & Hg).
    destruct (fmt_nonneg (- z)) as [|c ds] eqn:E; [done|].
    unfold parse_int. change (Byte.eqb "-" "+") with false.
    change (Byte.eqb "-" "-") with true. cbn [andb].
    destruct (Z.ltb_spec lo 0); [|lia].
    rewrite Hg by lia. f_equal; lia.
  - destruct (fmt_nonneg_spec z ltac:(lia)) as (Hne & Hall & Hp & _).
    destruct (fmt_nonneg z) as [|c ds] eqn:E; [done|].
    inversion_clear Hall as [|? ? Hc _].
    apply to_digit_not_sign in Hc as [H1 H2].
    unfold parse_int. rewrite H1, H2. cbn [orb andb].
    destruct ds; apply Hp; lia.
Qed.

Lemma fmt_Z_chars z :
  Forall (fun c => is_Some (to_digit c) \/ c = "-"%byte) (fmt_Z z).
Proof.
  assert (Hd : forall n, 0 <= n ->
    Forall (fun c => is_Some (to_digit c) \/ c = "-"%byte) (fmt_nonneg n)).
  { intros n Hn. destruct (fmt_nonneg_spec n Hn) as (_ & Hall & _).
    eapply Forall_impl; [exact Hall|]. by left. }
  unfold fmt_Z. destruct (Z.ltb_spec z 0); [constructor; [by right|]|]; apply Hd; lia.
Qed.

(** The text of a number that is not negative has only digits. *)
Lemma fmt_Z_digits z : 0 <= z -> fmt_Z z <> [] /\ Forall (fun c => is_Some (to_digit c)) (fmt_Z z).
Proof.
  intros Hz. unfold fmt_Z. destruct (Z.ltb_spec z 0); [lia|].
  by destruct (fmt_nonneg_spec z Hz) as (? & ? & _).
Qed.

Lemma to_digit_byte c : is_Some (to_digit c) -> 48 <= bZ c <= 57.
Proof. intros [d Hd]. unfold to_digit in Hd. case_match eqn:E; [|done]. bool_to_prop. lia. Qed.

Lemma to_digit_range c d : to_digit c = Some d -> 0 <= d <= 9.
Proof. unfold to_digit. case_goal; intros; simplify_eq; bool_to_prop. lia. Qed.

(** The results of [parse_int] are in the type's range. *)
Lemma digits_pos_range hi acc s v :
  0 <= acc -> acc <= hi -> digits_pos hi acc s = Ok v -> acc <= v <= hi.
Proof.
  revert acc. induction s as [|c s IH]; intros acc H0 Ha; simpl.
  - intros [= <-]. lia.
  - destruct (to_digit c) eqn:E; [apply to_digit_range in E|done].
    repeat case_goal; try done; bool_to_prop.
    intros Hr. apply IH in Hr; lia.
Qed.

Lemma digits_neg_range lo acc s v :
  acc <= 0 -> lo <= acc -> digits_neg lo acc s = Ok v -> lo <= v <= acc.
Proof.
  revert acc. induction s as [|c s IH]; intros acc H0 Ha; simpl.
  - intros [= <-]. lia.
  - destruct (to_digit c) eqn:E; [apply to_digit_range in E|done].
    repeat case_goal; try done; bool_to_prop.
    intros Hr. apply IH in Hr; lia.
Qed.

Lemma parse_int_range lo hi s v :
  lo <= 0 <= hi -> parse_int lo hi s = Ok v -> lo <= v <= hi.
Proof.
  intros Hlh H. unfold parse_int in H.
  repeat case_hyp H; try done;
    first [apply digits_pos_range in H; lia | apply digits_neg_range in H; lia].
Qed.

Lemma parse_isize_range s v : parse_isize s = Ok v -> isize_min <= v <= isize_max.
Proof. by apply parse_int_range. Qed.

Lemma parse_i64_range s v : parse_i64 s = Ok v -> i64_min <= v <= i64_max.
Proof. by apply parse_int_range. Qed.

Lemma parse_u16_range s v : parse_u16 s = Ok v -> 0 <= v <= u16_max.
Proof. by apply parse_int_range. Qed.

Lemma parse_u64_range s v : parse_u64 s = Ok v -> 0 <= v <= u64_max.
Proof. by apply parse_int_range. Qed.

End Int.
