(* ===== verification/Str.v ===== *)
(** * UTF-8 validation and the string operations of the sources

    [from_utf8] follows the validation loop of [core::str]: it reports how
    far the input is valid and, for an invalid sequence, how long it is,
    which the protocol's error messages carry.  The rest are the [str]
    methods the sources call, on bytes; white space is Unicode's. *)

From S2P Require Import Prelude RustStd.

Module Utf8.

(** [core::str::Utf8Error]. *)
Record Utf8Error : Type := {
  valid_up_to : Z;
  error_len : option Z;
}.

Definition in_range (lo hi : Z) (b : byte) : bool := (lo <=? bZ b) && (bZ b <=? hi).

(** [core::str::validations::utf8_char_width] of a byte above 127. *)
Definition utf8_char_width (b : byte) : nat :=
  if in_range 194 223 b then 2
  else if in_range 224 239 b then 3
  else if in_range 240 244 b then 4
  else 0.

(** [(b as i8) < -64]. *)
Definition is_cont (b : byte) : bool := in_range 128 191 b.

(** The second byte of a three and of a four byte sequence. *)
Definition second_ok3 (b0 b1 : byte) : bool :=
  (in_range 224 224 b0 && in_range 160 191 b1)
  || (in_range 225 236 b0 && in_range 128 191 b1)
  || (in_range 237 237 b0 && in_range 128 159 b1)
  || (in_range 238 239 b0 && in_range 128 191 b1).

Definition second_ok4 (b0 b1 : byte) : bool :=
  (in_range 240 240 b0 && in_range 144 191 b1)
  || (in_range 241 243 b0 && in_range 128 191 b1)
  || (in_range 244 244 b0 && in_range 128 143 b1).

(** [run_utf8_validation] from the index [idx]; [None] is success. *)
Fixpoint utf8_check (s : bytes) (idx : Z) : option Utf8Error :=
  let err n := Some {| valid_up_to := idx; error_len := n |} in
  match s with
  | [] => None
  | b0 :: s1 =>
      if bZ b0 <? 128 then utf8_check s1 (idx + 1)
      else match utf8_char_width b0 with
      | 2%nat =>
          match s1 with
          | [] => err None
          | b1 :: s2 => if is_cont b1 then utf8_check s2 (idx + 2) else err (Some 1)
          end
      | 3%nat =>
          match s1 with
          | [] => err None
          | b1 :: s2 =>
              if second_ok3 b0 b1 then
                match s2 with
                | [] => err None
                | b2 :: s3 => if is_cont b2 then utf8_check s3 (idx + 3) else err (Some 2)
                end
              else err (Some 1)
          end
      | 4%nat =>
          match s1 with
          | [] => err None
          | b1 :: s2 =>
              if second_ok4 b0 b1 then
                match s2 with
                | [] => err None
                | b2 :: s3 =>
                    if is_cont b2 then
                      match s3 with
                      | [] => err None
                      | b3 :: s4 => if is_cont b3 then utf8_check s4 (idx + 4) else err (Some 3)
                      end
                    else err (Some 2)
                end
              else err (Some 1)
          end
      | _ => err (Some 1)
      end
  end.

(** [std::str::from_utf8]. *)
Definition from_utf8 (s : bytes) : result bytes Utf8Error :=
  match utf8_check s 0 with
  | None => Ok s
  | Some e => Err e
  end.

Definition valid (s : bytes) : bool := bool_decide (utf8_check s 0 = None).

(** [Utf8Error::to_string]. *)
Definition utf8_error_to_string (e : Utf8Error) : bytes :=
  match error_len e with
  | Some n => b!"invalid utf-8 sequence of " ++ Int.fmt_Z n
              ++ b!" bytes from index " ++ Int.fmt_Z (valid_up_to e)
  | None => b!"incomplete utf-8 byte sequence from index " ++ Int.fmt_Z (valid_up_to e)
  end.

#[export] Instance Utf8Error_eq_dec : EqDecision Utf8Error.
Proof. solve_decision. Defined.

(** *** Validity is closed under concatenation *)

(** Case analysis along the branches the validation loop took in [H]. *)
Ltac utf8_cases H :=
  repeat (match type of H with
  | context [match bZ ?b <? 128 with _ => _ end] => destruct (bZ b <? 128)
  | context [match utf8_char_width ?b with _ => _ end] =>
      destruct (utf8_char_width b) as [|[|[|[|[|?]]]]]
  | context [match is_cont ?b with _ => _ end] => destruct (is_cont b)
  | context [match second_ok3 ?b ?c with _ => _ end] => destruct (second_ok3 b c)
  | context [match second_ok4 ?b ?c with _ => _ end] => destruct (second_ok4 b c)
  | context [match ?s with [] => _ | _ :: _ => _ end] =>
      is_var s; destruct s; cbn [app length] in *
  end; try discriminate H).

(** Induction on the length, for a loop that eats up to four bytes. *)
Lemma utf8_check_app s t i :
  utf8_check s i = None -> utf8_check (s ++ t) i = utf8_check t (i + Z.of_nat (length s)).
Proof.
  revert i. induction s as [s IH] using list_len_ind; intros i.
  destruct s as [|b0 s]; [intros _; simpl; f_equal; lia|].
  assert (IHs : forall r j, (length r < length (b0 :: s))%nat -> utf8_check r j = None ->
    utf8_check (r ++ t) j = utf8_check t (j + Z.of_nat (length r))) by eauto.
  clear IH. cbn [app utf8_check]. intros H.
  utf8_cases H; rewrite IHs; cbn [length]; try done; try lia; f_equal; lia.
Qed.

Lemma utf8_check_shift s i : utf8_check s i = None -> forall j, utf8_check s j = None.
Proof.
  revert i. induction s as [s IH] using list_len_ind; intros i.
  destruct s as [|b0 s]; [done|].
  assert (IHs : forall r k, (length r < length (b0 :: s))%nat -> utf8_check r k = None ->
    forall j, utf8_check r j = None) by eauto.
  clear IH. cbn [utf8_check]. intros H j.
  utf8_cases H; (eapply IHs; [cbn [length]; lia|exact H]).
Qed.

Lemma valid_spec s : valid s = true <-> utf8_check s 0 = None.
Proof. apply bool_decide_eq_true. Qed.

Lemma valid_app s t : valid s = true -> valid t = true -> valid (s ++ t) = true.
Proof.
  rewrite !valid_spec. intros Hs Ht. rewrite utf8_check_app by done.
  by eapply utf8_check_shift.
Qed.

Lemma valid_ascii s : Forall (fun b => bZ b < 128) s -> valid s = true.
Proof.
  rewrite valid_spec. generalize 0.
  induction s as [|b s IH]; intros i Hs; [done|].
  apply Forall_cons in Hs as [Hb Hs]. simpl.
  destruct (Z.ltb_spec (bZ b) 128); [by apply IH|lia].
Qed.

Lemma from_utf8_valid s : valid s = true -> from_utf8 s = Ok s.
Proof. rewrite valid_spec. unfold from_utf8. by intros ->. Qed.

Lemma from_utf8_Ok s t : from_utf8 s = Ok t -> t = s /\ valid s = true.
Proof.
  rewrite valid_spec. unfold from_utf8. destruct (utf8_check s 0); [done|].
  by intros [= ->].
Qed.

Lemma valid_fmt_Z z : valid (Int.fmt_Z z) = true.
Proof.
  apply valid_ascii. eapply Forall_impl; [apply Int.fmt_Z_chars|].
  intros c [[d Hd]| ->]; [|done].
  unfold Int.to_digit in Hd. case_match eqn:E; [|done]. bool_to_prop. lia.
Qed.

End Utf8.

#[export] Hint Resolve Utf8.valid_app Utf8.valid_fmt_Z : rust.

(** ** [str] methods *)

Module Str.

(** [u8::to_ascii_uppercase], byte by byte. *)
Definition upper_byte (b : byte) : byte :=
  if Utf8.in_range 97 122 b then Zb (bZ b - 32) else b.

Definition to_ascii_uppercase (s : bytes) : bytes := upper_byte <$> s.

Fixpoint starts_with (p s : bytes) : bool :=
  match p, s with
  | [], _ => true
  | a :: p', b :: s' => Byte.eqb a b && starts_with p' s'
  | _ :: _, [] => false
  end.

(** [iter().position(p)]. *)
Fixpoint position (p : byte -> bool) (s : bytes) : option nat :=
  match s with
  | [] => None
  | b :: s' => if p b then Some 0%nat else S <$> position p s'
  end.

(** [split(c)]: one part more than there are separators. *)
Fixpoint split (c : byte) (s : bytes) : list bytes :=
  match s with
  | [] => [[]]
  | b :: s' =>
      if Byte.eqb b c then [] :: split c s'
      else match split c s' with
           | [] => [[b]]
           | part :: parts => (b :: part) :: parts
           end
  end.

(** [split_once(c)]. *)
Fixpoint split_once (c : byte) (s : bytes) : option (bytes * bytes) :=
  match s with
  | [] => None
  | b :: s' =>
      if Byte.eqb b c then Some ([], s')
      else prod_map (cons b) id <$> split_once c s'
  end.

(** Unicode white space, by the bytes of its encoding. *)
Definition ws1 (b : byte) : bool := Utf8.in_range 9 13 b || Byte.eqb b " ".

Definition ws2 (b0 b1 : byte) : bool :=
  Byte.eqb b0 xc2 && (Byte.eqb b1 x85 || Byte.eqb b1 xa0).

Definition ws3 (b0 b1 b2 : byte) : bool :=
  (Byte.eqb b0 xe1 && Byte.eqb b1 x9a && Byte.eqb b2 x80)
  || (Byte.eqb b0 xe2 && Byte.eqb b1 x80
      && (Utf8.in_range 128 138 b2 || Byte.eqb b2 xa8 || Byte.eqb b2 xa9 || Byte.eqb b2 xaf))
  || (Byte.eqb b0 xe2 && Byte.eqb b1 x81 && Byte.eqb b2 x9f)
  || (Byte.eqb b0 xe3 && Byte.eqb b1 x80 && Byte.eqb b2 x80).

Fixpoint trim_start (s : bytes) : bytes :=
  match s with
  | [] => []
  | b0 :: s1 =>
      if ws1 b0 then trim_start s1
      else match s1 with
      | [] => s
      | b1 :: s2 =>
          if ws2 b0 b1 then trim_start s2
          else match s2 with
          | [] => s
          | b2 :: s3 => if ws3 b0 b1 b2 then trim_start s3 else s
          end
      end
  end.

(** [trim_start] of a reversed string: a sequence's last byte comes first. *)
Fixpoint trim_start_rev (s : bytes) : bytes :=
  match s with
  | [] => []
  | b0 :: s1 =>
      if ws1 b0 then trim_start_rev s1
      else match s1 with
      | [] => s
      | b1 :: s2 =>
          if ws2 b1 b0 then trim_start_rev s2
          else match s2 with
          | [] => s
          | b2 :: s3 => if ws3 b2 b1 b0 then trim_start_rev s3 else s
          end
      end
  end.

Definition trim_end (s : bytes) : bytes := reverse (trim_start_rev (reverse s)).

(** [str::trim]. *)
Definition trim (s : bytes) : bytes := trim_end (trim_start s).

(** [split_whitespace]: the non-empty parts; [cur] is the current part,
    reversed. *)
Definition flush (cur : bytes) (parts : list bytes) : list bytes :=
  match cur with
  | [] => parts
  | _ :: _ => reverse cur :: parts
  end.

Fixpoint words (cur s : bytes) : list bytes :=
  match s with
  | [] => flush cur []
  | b0 :: s1 =>
      if ws1 b0 then flush cur (words [] s1)
      else match s1 with
      | [] => flush (b0 :: cur) []
      | b1 :: s2 =>
          if ws2 b0 b1 then flush cur (words [] s2)
          else match s2 with
          | b2 :: s3 =>
              if ws3 b0 b1 b2 then flush cur (words [] s3)
              else words (b0 :: cur) s1
          | [] => words (b0 :: cur) s1
          end
      end
  end.

Definition split_whitespace (s : bytes) : list bytes := words [] s.

(** [parts.join(sep)]. *)
Fixpoint join (sep : bytes) (parts : list bytes) : bytes :=
  match parts with
  | [] => []
  | [p] => p
  | p :: rest => p ++ sep ++ join sep rest
  end.

(** [trim_matches(c)]. *)
Fixpoint trim_char_start (c : byte) (s : bytes) : bytes :=
  match s with
  | b :: s' => if Byte.eqb b c then trim_char_start c s' else s
  | [] => []
  end.

Definition trim_matches (c : byte) (s : bytes) : bytes :=
  reverse (trim_char_start c (reverse (trim_char_start c s))).

(** [lines()]: the parts ended by LF, each without a CR before it, and a
    last part that is not ended, as it is, if it is not empty. *)
Definition strip_cr (s : bytes) : bytes :=
  match reverse s with
  | b :: s' => if Byte.eqb b CR then reverse s' else s
  | [] => []
  end.

Definition lines (s : bytes) : list bytes :=
  let parts := split LF s in
  let ended := take (length parts - 1) parts in
  (strip_cr <$> ended) ++ match last parts with Some (b :: rest) => [b :: rest] | _ => [] end.

Lemma position_Some p s i :
  position p s = Some i <->
  exists b, s !! i = Some b /\ p b = true /\ forall j c, (j < i)%nat -> s !! j = Some c -> p c = false.
Proof.
  revert i. induction s as [|b s IH]; intros i; simpl.
  - split; [done|]. intros (c & Hc & _). by rewrite lookup_nil in Hc.
  - destruct (p b) eqn:Eb.
    + split.
      * intros [= <-]. exists b. split_and!; [done|done|lia].
      * intros (c & Hc & Hpc & Hall). destruct i as [|i]; [done|].
        specialize (Hall 0%nat b ltac:(lia) eq_refl). congruence.
    + rewrite fmap_Some. split.
      * intros (k & Hk & ->). apply IH in Hk as (c & Hc & Hp & Hall).
        exists c. split_and!; [done|done|]. intros [|j] d Hj Hd; simpl in Hd; [congruence|].
        eapply (Hall j); [lia|done].
      * intros (c & Hc & Hp & Hall). destruct i as [|i]; simpl in Hc; [congruence|].
        exists i. split; [|done]. apply IH. exists c. split_and!; [done|done|].
        intros j d Hj Hd. apply (Hall (S j)); [lia|done].
Qed.

Lemma position_None p s : position p s = None <-> Forall (fun b => p b = false) s.
Proof.
  induction s as [|b s IH]; simpl; [by split|].
  rewrite Forall_cons. destruct (p b); [by split; [|intros [? _]]|].
  rewrite fmap_None, IH. split; [by intros ?|by intros [_ ?]].
Qed.

Lemma position_app p s t :
  Forall (fun b => p b = false) s ->
  position p (s ++ t) = (fun i => length s + i)%nat <$> position p t.
Proof.
  induction 1 as [|b s Hb Hs IH]; simpl.
  - by destruct (position p t).
  - rewrite Hb, IH. by destruct (position p t).
Qed.

(** Visible ASCII, which [trim] and [split_whitespace] never cut. *)
Definition visible (b : byte) : Prop := 33 <= bZ b < 128.

Lemma visible_ws1 b : visible b -> ws1 b = false.
Proof. unfold visible. destruct b; vm_compute; intros [? ?]; try done. Qed.

Lemma visible_ws2 a b : visible a \/ visible b -> ws2 a b = false.
Proof.
  unfold visible, ws2. intros Hv. apply not_true_is_false. intros E. bool_to_prop. subst.
  destruct Hv as [[_ Hv]|[_ Hv]]; [vm_compute in Hv; congruence|].
  match goal with H : _ \/ _ |- _ => destruct H end; bool_to_prop; subst; vm_compute in Hv; congruence.
Qed.

Lemma eqb_bZ a b : Byte.eqb a b = true -> bZ a = bZ b.
Proof. intros E. bool_to_prop. by subst. Qed.

Lemma ws3_bytes a b c : ws3 a b c = true -> 225 <= bZ a /\ 128 <= bZ c.
Proof.
  unfold ws3, Utf8.in_range. intros E.
  repeat match goal with
  | H : (_ && _) = true |- _ => apply andb_prop in H as [? ?]
  | H : (_ || _) = true |- _ => apply orb_prop in H as [?|?]
  | H : Byte.eqb _ _ = true |- _ => apply eqb_bZ in H
  end; bool_to_prop;
  repeat match goal with H : bZ _ = bZ ?x |- _ => let v := eval vm_compute in (bZ x) in change (bZ x) with v in H end;
  lia.
Qed.

Lemma visible_ws3 a b c : visible a \/ visible c -> ws3 a b c = false.
Proof.
  intros Hv. apply not_true_is_false. intros [? ?]%ws3_bytes. unfold visible in Hv. lia.
Qed.

Lemma trim_start_visible b s : visible b -> trim_start (b :: s) = b :: s.
Proof.
  intros Hb. destruct s as [|b1 [|b2 s]]; cbn [trim_start];
    rewrite ?visible_ws1, ?visible_ws2, ?visible_ws3 by auto; done.
Qed.

Lemma trim_start_rev_visible b s : visible b -> trim_start_rev (b :: s) = b :: s.
Proof.
  intros Hb. destruct s as [|b1 [|b2 s]]; cbn [trim_start_rev];
    rewrite ?visible_ws1, ?visible_ws2, ?visible_ws3 by auto; done.
Qed.

Lemma trim_visible s : Forall visible s -> trim s = s.
Proof.
  intros Hs. unfold trim, trim_end.
  assert (trim_start s = s) as -> by (destruct Hs; [done|by apply trim_start_visible]).
  assert (trim_start_rev (reverse s) = reverse s) as ->; [|apply reverse_involutive].
  apply Forall_reverse in Hs. destruct Hs; [done|by apply trim_start_rev_visible].
Qed.

Lemma split_none c s : c ∉ s -> split c s = [s].
Proof.
  induction s as [|b s IH]; intros Hc; [done|]. apply not_elem_of_cons in Hc as [Hb Hs]. cbn.
  rewrite IH by done. destruct (Byte.eqb b c) eqn:E; [|done]. bool_to_prop. congruence.
Qed.

Lemma split_app c s t : c ∉ s -> split c (s ++ c :: t) = s :: split c t.
Proof.
  induction s as [|b s IH]; intros Hc; cbn; [by rewrite byte_eqb_refl|].
  apply not_elem_of_cons in Hc as [Hb Hs]. rewrite IH by done.
  destruct (Byte.eqb b c) eqn:E; [|done]. bool_to_prop. congruence.
Qed.

(** [split] undoes [join] on parts without the separator. *)
Lemma split_join c parts :
  parts <> [] -> Forall (fun p => c ∉ p) parts -> split c (join [c] parts) = parts.
Proof.
  intros Hne Hp. induction Hp as [|p parts Hc Hp IH]; [done|].
  destruct parts as [|q parts]; [by apply split_none|].
  change (join [c] (p :: q :: parts)) with (p ++ c :: join [c] (q :: parts)).
  rewrite split_app by done. by rewrite IH.
Qed.

Lemma split_once_app c s t : c ∉ s -> split_once c (s ++ c :: t) = Some (s, t).
Proof.
  induction s as [|b s IH]; intros Hc; cbn; [by rewrite byte_eqb_refl|].
  apply not_elem_of_cons in Hc as [Hb Hs]. rewrite IH by done.
  destruct (Byte.eqb b c) eqn:E; [|done]. bool_to_prop. congruence.
Qed.

Lemma split_once_none c s : c ∉ s -> split_once c s = None.
Proof.
  induction s as [|b s IH]; intros Hc; [done|]. apply not_elem_of_cons in Hc as [Hb Hs]. cbn.
  rewrite IH by done. destruct (Byte.eqb b c) eqn:E; [|done]. bool_to_prop. congruence.
Qed.

End Str.
