(* ===== verification/Resp.v ===== *)
(** * The RESP2 protocol: src/protocol/resp.rs

    [Value], its printer [serialize] and its parser [parse].  The parser
    takes the receive buffer and returns the result together with the
    buffer after the bytes it consumed, as [&mut BytesMut] does; [Panic] is
    the reservation of [Vec::with_capacity] failing or an overflow of the
    length arithmetic.  Recursion on nested arrays and the element loop run
    on fuel; [RespTheory] shows that [parse] never runs out of it. *)

From S2P Require Import Prelude RustStd Str.

Set Warnings "-register-all".

Module Resp.

Inductive Value : Type :=
| SimpleString (s : bytes)
| Error (s : bytes)
| Integer (i : Z)
| BulkString (o : option bytes)
| Array (o : option (list Value)).

(** Constructors and accessors of [impl Value]. *)
Definition ok : Value := SimpleString b!"OK".
Definition pong : Value := SimpleString b!"PONG".
Definition null_bulk : Value := BulkString None.
Definition null_array : Value := Array None.
Definition error (msg : bytes) : Value := Error msg.
Definition string_ (s : bytes) : Value := BulkString (Some s).

Definition as_bytes (v : Value) : option bytes :=
  match v with
  | BulkString (Some b) => Some b
  | _ => None
  end.

Definition as_str (v : Value) : option bytes :=
  match v with
  | SimpleString s => Some s
  | BulkString (Some b) =>
      match Utf8.from_utf8 b with
      | Ok s => Some s
      | Err _ => None
      end
  | _ => None
  end.

(** [serialize(&self, buf)]: the buffer with the value's bytes appended. *)
Fixpoint serialize (v : Value) (buf : bytes) : bytes :=
  match v with
  | SimpleString s => buf ++ b!"+" ++ s ++ crlf
  | Error s => buf ++ b!"-ERR " ++ s ++ crlf
  | Integer i => buf ++ b!":" ++ Int.fmt_Z i ++ crlf
  | BulkString None => buf ++ b!"$-1" ++ crlf
  | BulkString (Some data) =>
      buf ++ b!"$" ++ Int.fmt_Z (Z.of_nat (length data)) ++ crlf ++ data ++ crlf
  | Array None => buf ++ b!"*-1" ++ crlf
  | Array (Some elements) =>
      fold_left (fun buf elem => serialize elem buf) elements
        (buf ++ b!"*" ++ Int.fmt_Z (Z.of_nat (length elements)) ++ crlf)
  end.

(** [Display for Value]; [bytes_debug] is the debug form of [bytes::Bytes]. *)
Fixpoint display (bytes_debug : bytes -> bytes) (v : Value) : bytes :=
  match v with
  | SimpleString s => [x22] ++ s ++ [x22]
  | Error s => b!"(error) " ++ s
  | Integer i => b!"(integer) " ++ Int.fmt_Z i
  | BulkString None => b!"(nil)"
  | BulkString (Some b) =>
      match Utf8.from_utf8 b with
      | Ok s => [x22] ++ s ++ [x22]
      | Err _ => bytes_debug b
      end
  | Array None => b!"(nil)"
  | Array (Some items) =>
      b!"[" ++ [LF]
      ++ (fix lines (n : Z) (items : list Value) : bytes :=
            match items with
            | [] => []
            | item :: rest =>
                b!"  " ++ Int.fmt_Z n ++ b!": " ++ display bytes_debug item ++ [LF] ++ lines (n + 1) rest
            end) 1 items
      ++ b!"]"
  end.

Inductive RespParseError : Type :=
| UnknownPrefix (b : byte)
| InvalidInteger
| Protocol (msg : bytes).

(** [RespParseError::to_string]. *)
Definition error_to_string (e : RespParseError) : bytes :=
  match e with
  | UnknownPrefix b => b!"Unknown RESP prefix byte: " ++ Int.fmt_Z (bZ b)
  | InvalidInteger => b!"Invalid integer in protocol"
  | Protocol msg => b!"Protocol error: " ++ msg
  end.

(** The index of the first CRLF. *)
Fixpoint find_crlf (src : bytes) : option nat :=
  match src with
  | a :: (b :: _) as rest =>
      if Byte.eqb a CR && Byte.eqb b LF then Some 0%nat else S <$> find_crlf rest
  | _ => None
  end.

Definition get_line (src : bytes) : option (bytes * nat) :=
  match find_crlf src with
  | Some i => Some (take i src, (i + 2)%nat)
  | None => None
  end.

(** A parser's result and the buffer it leaves. *)
Abbreviation presult := (outcome (result (option Value) RespParseError * bytes)).

Definition parse_simple_string (src : bytes) : presult :=
  match get_line src with
  | Some (line, consumed) =>
      body ← slice_from 1 line;
      match Utf8.from_utf8 body with
      | Err e => Ret (Err (Protocol (Utf8.utf8_error_to_string e)), src)
      | Ok content => Ret (Ok (Some (SimpleString content)), drop consumed src)
      end
  | None => Ret (Ok None, src)
  end.

Definition parse_error (src : bytes) : presult :=
  match get_line src with
  | Some (line, consumed) =>
      body ← slice_from 1 line;
      match Utf8.from_utf8 body with
      | Err e => Ret (Err (Protocol (Utf8.utf8_error_to_string e)), src)
      | Ok content => Ret (Ok (Some (Error content)), drop consumed src)
      end
  | None => Ret (Ok None, src)
  end.

Definition parse_integer (src : bytes) : presult :=
  match get_line src with
  | Some (line, consumed) =>
      body ← slice_from 1 line;
      match Utf8.from_utf8 body with
      | Err e => Ret (Err (Protocol (Utf8.utf8_error_to_string e)), src)
      | Ok s =>
          match Int.parse_i64 s with
          | Err _ => Ret (Err InvalidInteger, src)
          | Ok int_val => Ret (Ok (Some (Integer int_val)), drop consumed src)
          end
      end
  | None => Ret (Ok None, src)
  end.

Section Parser.
Context `{Platform}.

Definition parse_bulk_string (src : bytes) : presult :=
  match get_line src with
  | None => Ret (Ok None, src)
  | Some (line, line_len) =>
      body ← slice_from 1 line;
      match Utf8.from_utf8 body with
      | Err e => Ret (Err (Protocol (Utf8.utf8_error_to_string e)), src)
      | Ok s =>
          match Int.parse_isize s with
          | Err _ => Ret (Err InvalidInteger, src)
          | Ok len =>
              if len =? -1 then Ret (Ok (Some (BulkString None)), drop line_len src)
              else if len <? 0 then
                Ret (Err (Protocol b!"Negative bulk string length other than -1"), src)
              else
                header_payload ← add_usize (Z.of_nat line_len) len;
                total_required ← add_usize header_payload 2;
                if Z.of_nat (length src) <? total_required then Ret (Ok None, src)
                else
                  '(data, src2) ← split_to (Z.to_nat len) (drop line_len src);
                  match src2 with
                  | a :: b :: src3 =>
                      if Byte.eqb a CR && Byte.eqb b LF
                      then Ret (Ok (Some (BulkString (Some data))), src3)
                      else Ret (Err (Protocol b!"Expected CRLF after bulk string data"), src2)
                  | _ => Ret (Err (Protocol b!"Expected CRLF after bulk string data"), src2)
                  end
          end
      end
  end.

(** The loop [for _ in 0..count] of [parse_array] on the copy [temp]; each
    element shortens [temp], so its length bounds the iterations. *)
Fixpoint parse_elements (parse1 : bytes -> presult) (k : nat) (count : Z)
    (temp : bytes) (elements : list Value)
    : outcome (result (option (list Value)) RespParseError * bytes) :=
  if count <=? 0 then Ret (Ok (Some elements), temp)
  else match k with
  | O => NoFuel
  | S k' =>
      match parse1 temp with
      | Ret (Ok (Some elem), temp') =>
          parse_elements parse1 k' (count - 1) temp' (elements ++ [elem])
      | Ret (Ok None, temp') => Ret (Ok None, temp')
      | Ret (Err e, temp') => Ret (Err e, temp')
      | Panic p => Panic p
      | NoFuel => NoFuel
      end
  end.

Definition parse_array (parse1 : bytes -> presult) (src : bytes) : presult :=
  match get_line src with
  | None => Ret (Ok None, src)
  | Some (line, line_len) =>
      body ← slice_from 1 line;
      match Utf8.from_utf8 body with
      | Err e => Ret (Err (Protocol (Utf8.utf8_error_to_string e)), src)
      | Ok s =>
          match Int.parse_isize s with
          | Err _ => Ret (Err InvalidInteger, src)
          | Ok count =>
              if count =? -1 then Ret (Ok (Some (Array None)), drop line_len src)
              else if count <? 0 then
                Ret (Err (Protocol b!"Negative array count other than -1"), src)
              else
                let temp := drop line_len src in
                _ ← vec_with_capacity sizeof_Value count;
                r ← parse_elements parse1 (S (length temp)) count temp [];
                match r with
                | (Ok (Some elements), temp') =>
                    let consumed_total := (length src - length temp')%nat in
                    Ret (Ok (Some (Array (Some elements))), drop consumed_total src)
                | (Ok None, _) => Ret (Ok None, src)
                | (Err e, _) => Ret (Err e, src)
                end
          end
      end
  end.

Fixpoint parse_fuel (fuel : nat) (src : bytes) : presult :=
  match fuel with
  | O => NoFuel
  | S f =>
      match src with
      | [] => Ret (Ok None, src)
      | c :: _ =>
          if Byte.eqb c "+" then parse_simple_string src
          else if Byte.eqb c "-" then parse_error src
          else if Byte.eqb c ":" then parse_integer src
          else if Byte.eqb c "$" then parse_bulk_string src
          else if Byte.eqb c "*" then parse_array (parse_fuel f) src
          else Ret (Err (UnknownPrefix c), src)
      end
  end.

(** [Value::parse]. *)
Definition parse (src : bytes) : presult := parse_fuel (S (length src)) src.

End Parser.

(** *** The unit tests of resp.rs, evaluated *)

Definition rn (s : bytes) : bytes := s ++ crlf.

#[local] Instance test_platform : Platform := demo_platform true.

Example test_parse_simple_string :
  parse (rn b!"+OK") = Ret (Ok (Some (SimpleString b!"OK")), []).
Proof. vm_compute. reflexivity. Qed.

Example test_parse_error :
  parse (rn b!"-ERR unknown command") = Ret (Ok (Some (Error b!"ERR unknown command")), []).
Proof. vm_compute. reflexivity. Qed.

Example test_parse_array :
  parse (rn b!"*2" ++ rn b!"$4" ++ rn b!"ECHO" ++ rn b!"$5" ++ rn b!"world")
  = Ret (Ok (Some (Array (Some [BulkString (Some b!"ECHO"); BulkString (Some b!"world")]))), []).
Proof. vm_compute. reflexivity. Qed.

Example test_partial_parse :
  let buf := rn b!"*2" ++ rn b!"$4" ++ rn b!"ECHO" ++ rn b!"$5" ++ b!"wor" in
  parse buf = Ret (Ok None, buf) /\ length buf = 21%nat.
Proof. vm_compute. split; reflexivity. Qed.

End Resp.
