(* ===== verification/RespTheory.v ===== *)
(** * The protocol's correctness

    [frame fr v] is the grammar of RESP2 as this parser reads it: the bytes
    [fr] are one complete frame holding [v].  The parser is shown to
    recognise exactly this grammar at the head of the buffer, to terminate,
    to panic only when reserving an array, to be insensitive to how the
    stream is cut into reads, and to invert the printer. *)

From S2P Require Import Prelude RustStd Str Resp.
Import Resp.

(** ** Lines *)

(** [s] holds no CRLF. *)
Definition no_crlf (s : bytes) : bool := bool_decide (find_crlf (s ++ crlf) = Some (length s)).

(** A Rust buffer: shorter than [isize::MAX] bytes. *)
Definition fits (s : bytes) : Prop := Z.of_nat (length s) < isize_max.

Lemma find_crlf_cons2 a b s :
  find_crlf (a :: b :: s) =
  if Byte.eqb a CR && Byte.eqb b LF then Some 0%nat else S <$> find_crlf (b :: s).
Proof. done. Qed.

Lemma find_crlf_bound s i : find_crlf s = Some i -> (i + 2 <= length s)%nat.
Proof.
  revert i. induction s as [|a [|b s] IH]; intros i; try done.
  rewrite find_crlf_cons2. case_match.
  - intros [= <-]. simpl. lia.
  - intros (j & Hj & ->)%fmap_Some. apply IH in Hj. simpl in *. lia.
Qed.

Lemma find_crlf_app s t i : find_crlf s = Some i -> find_crlf (s ++ t) = Some i.
Proof.
  revert i. induction s as [|a [|b s] IH]; intros i; try done.
  rewrite find_crlf_cons2. cbn [app]. rewrite find_crlf_cons2.
  case_match; [done|]. intros (j & Hj & ->)%fmap_Some.
  change (b :: s ++ t) with ((b :: s) ++ t). by rewrite (IH _ Hj).
Qed.

Lemma find_crlf_split s i :
  find_crlf s = Some i -> s = take i s ++ crlf ++ drop (i + 2) s.
Proof.
  revert i. induction s as [|a [|b s] IH]; intros i; try done.
  rewrite find_crlf_cons2. case_match eqn:E; bool_to_prop.
  - intros [= <-]. by subst.
  - intros (j & Hj & ->)%fmap_Some. cbn [take drop app Nat.add].
    f_equal. by apply IH.
Qed.

Lemma find_crlf_take s i :
  find_crlf s = Some i -> no_crlf (take i s) = true.
Proof.
  intros Hs. unfold no_crlf. apply bool_decide_eq_true.
  rewrite length_take_le by (apply find_crlf_bound in Hs; lia).
  revert i Hs. induction s as [|a [|b s] IH]; intros i; try done.
  rewrite find_crlf_cons2. case_match eqn:E.
  - intros [= <-]. done.
  - intros (j & Hj & ->)%fmap_Some. specialize (IH _ Hj).
    cbn [take app].
    destruct j as [|j].
    + unfold crlf. cbn [take app]. rewrite find_crlf_cons2.
      change (Byte.eqb CR LF) with false. rewrite andb_false_r. done.
    + cbn [take app] in *. rewrite find_crlf_cons2, E, IH. done.
Qed.

Lemma get_line_Some src line n :
  get_line src = Some (line, n) ->
  src = line ++ crlf ++ drop n src /\ n = (length line + 2)%nat /\ no_crlf line = true.
Proof.
  unfold get_line. destruct (find_crlf src) as [i|] eqn:E; [|done].
  intros [= <- <-].
  pose proof (find_crlf_bound _ _ E). rewrite length_take_le by lia.
  split_and!; [by apply find_crlf_split|done|by apply find_crlf_take].
Qed.

Lemma get_line_app src t line n :
  get_line src = Some (line, n) -> get_line (src ++ t) = Some (line, n).
Proof.
  unfold get_line. destruct (find_crlf src) as [i|] eqn:E; [|done].
  intros [= <- <-]. rewrite (find_crlf_app _ _ _ E).
  apply find_crlf_bound in E. by rewrite take_app_le by lia.
Qed.

Lemma get_line_frame line t :
  no_crlf line = true -> get_line (line ++ crlf ++ t) = Some (line, (length line + 2)%nat).
Proof.
  unfold no_crlf. rewrite bool_decide_eq_true. intros Hl.
  assert (Hg : get_line (line ++ crlf) = Some (line, (length line + 2)%nat)).
  { unfold get_line. rewrite Hl. by rewrite take_app_length. }
  rewrite app_assoc. by apply get_line_app.
Qed.

Lemma get_line_bound src line n : get_line src = Some (line, n) -> (n <= length src)%nat.
Proof.
  unfold get_line. destruct (find_crlf src) eqn:E; [|done]. intros [= <- <-].
  by apply find_crlf_bound in E.
Qed.

(** A byte other than CR in front of a line. *)
Lemma no_crlf_cons c s : c <> CR -> no_crlf s = true -> no_crlf (c :: s) = true.
Proof.
  unfold no_crlf. rewrite !bool_decide_eq_true. intros Hc Hs. cbn [app length].
  destruct (s ++ crlf) as [|b r] eqn:E; [by destruct s|].
  rewrite find_crlf_cons2, Hs.
  destruct (Byte.eqb c CR) eqn:Ec; bool_to_prop; done.
Qed.

Lemma no_crlf_tail c s : no_crlf (c :: s) = true -> no_crlf s = true.
Proof.
  unfold no_crlf. rewrite !bool_decide_eq_true. cbn [app length].
  destruct (s ++ crlf) as [|b r] eqn:E; [by destruct s|].
  rewrite find_crlf_cons2. case_match; [done|].
  by intros (j & Hj & [= ->])%fmap_Some.
Qed.

Lemma no_cr_no_crlf s : Forall (fun c => c <> CR) s -> no_crlf s = true.
Proof. induction 1 as [|c s Hc _ IH]; [done|by apply no_crlf_cons]. Qed.

Lemma fmt_Z_no_crlf z : no_crlf (Int.fmt_Z z) = true.
Proof.
  apply no_cr_no_crlf. eapply Forall_impl; [apply Int.fmt_Z_chars|].
  intros c [[d Hd]| ->]; [|done]. by intros ->.
Qed.
#[export] Hint Resolve fmt_Z_no_crlf : rust.

(** ** The grammar *)

Section Grammar.
Context `{Platform}.

Inductive frame : bytes -> Value -> Prop :=
| frame_simple s :
    no_crlf s = true -> Utf8.valid s = true ->
    frame ("+"%byte :: s ++ crlf) (SimpleString s)
| frame_error s :
    no_crlf s = true -> Utf8.valid s = true ->
    frame ("-"%byte :: s ++ crlf) (Error s)
| frame_integer s i :
    no_crlf s = true -> Utf8.valid s = true -> Int.parse_i64 s = Ok i ->
    frame (":"%byte :: s ++ crlf) (Integer i)
| frame_null_bulk s :
    no_crlf s = true -> Utf8.valid s = true -> Int.parse_isize s = Ok (-1) ->
    frame ("$"%byte :: s ++ crlf) (BulkString None)
| frame_bulk s data :
    no_crlf s = true -> Utf8.valid s = true ->
    Int.parse_isize s = Ok (Z.of_nat (length data)) ->
    frame ("$"%byte :: s ++ crlf ++ data ++ crlf) (BulkString (Some data))
| frame_null_array s :
    no_crlf s = true -> Utf8.valid s = true -> Int.parse_isize s = Ok (-1) ->
    frame ("*"%byte :: s ++ crlf) (Array None)
| frame_array s vs body :
    no_crlf s = true -> Utf8.valid s = true ->
    Int.parse_isize s = Ok (Z.of_nat (length vs)) ->
    vec_with_capacity sizeof_Value (Z.of_nat (length vs)) = Ret tt ->
    frames body vs ->
    frame ("*"%byte :: s ++ crlf ++ body) (Array (Some vs))
with frames : bytes -> list Value -> Prop :=
| frames_nil : frames [] []
| frames_cons fr v body vs :
    frame fr v -> frames body vs -> frames (fr ++ body) (v :: vs).

Scheme frame_mut := Induction for frame Sort Prop
with frames_mut := Induction for frames Sort Prop.
Combined Scheme frame_frames_ind from frame_mut, frames_mut.

Lemma frame_nonempty fr v : frame fr v -> (0 < length fr)%nat.
Proof. destruct 1; simpl; lia. Qed.

Lemma frames_length body vs : frames body vs -> (length vs <= length body)%nat.
Proof.
  induction 1 as [|fr v body vs Hf _ IH]; simpl; [lia|].
  rewrite length_app. apply frame_nonempty in Hf. lia.
Qed.

(** ** Soundness: what the parser accepts is a frame *)

Lemma slice_from_1 {A} (l l' : list A) : slice_from 1 l = Ret l' -> exists c, l = c :: l'.
Proof. destruct l as [|c l]; [done|]. intros [= <-]. by exists c. Qed.

(** What a successful header gives. *)
Lemma header_sound c src line n body :
  get_line (c :: src) = Some (line, n) -> slice_from 1 line = Ret body ->
  c :: src = (c :: body ++ crlf) ++ drop n (c :: src) /\ no_crlf body = true.
Proof.
  intros Hg Hs. apply get_line_Some in Hg as (E & -> & Hn).
  apply slice_from_1 in Hs as [d ->]. injection E as <- E. split.
  - rewrite E at 1. cbn [app]. by rewrite <- app_assoc.
  - by eapply no_crlf_tail.
Qed.

Lemma add_usize_fits a b : 0 <= a + b <= usize_max -> add_usize a b = Ret (a + b).
Proof. intros Hb. unfold add_usize. destruct (Z.leb_spec (a + b) usize_max); [done|lia]. Qed.

Lemma split_to_Ret {A} n (s a b : list A) :
  split_to n s = Ret (a, b) -> s = a ++ b /\ length a = n.
Proof.
  unfold split_to. case_match eqn:E; [|done]. intros [= <- <-].
  apply Nat.leb_le in E. rewrite take_drop, length_take_le by done. done.
Qed.

(** Opens the header line of a parser's call in [H] when it succeeded. *)
Ltac open_header H :=
  let line := fresh "line" in let n := fresh "n" in
  let Hg := fresh "Hg" in let Hs := fresh "Hs" in let Hu := fresh "Hu" in
  destruct (get_line _) as [[line n]|] eqn:Hg; [|try discriminate H];
  [destruct (slice_from 1 line) as [?body| |] eqn:Hs; cbn [mbind outcome_bind] in H;
   [|try discriminate H..];
   [destruct (Utf8.from_utf8 _) as [?s|?e] eqn:Hu; [|try discriminate H];
    [apply Utf8.from_utf8_Ok in Hu as [-> Hu];
     destruct (header_sound _ _ _ _ _ Hg Hs) as [?Esrc ?Hn]|..]|..]|..].

Lemma parse_simple_string_sound c src v rest :
  parse_simple_string (c :: src) = Ret (Ok (Some v), rest) ->
  exists s, c :: src = (c :: s ++ crlf) ++ rest /\ v = SimpleString s /\
    no_crlf s = true /\ Utf8.valid s = true.
Proof.
  unfold parse_simple_string. intros Hp. open_header Hp.
  injection Hp as <- <-. by exists body.
Qed.

Lemma parse_error_sound c src v rest :
  parse_error (c :: src) = Ret (Ok (Some v), rest) ->
  exists s, c :: src = (c :: s ++ crlf) ++ rest /\ v = Error s /\
    no_crlf s = true /\ Utf8.valid s = true.
Proof.
  unfold parse_error. intros Hp. open_header Hp.
  injection Hp as <- <-. by exists body.
Qed.

Lemma parse_integer_sound c src v rest :
  parse_integer (c :: src) = Ret (Ok (Some v), rest) ->
  exists s i, c :: src = (c :: s ++ crlf) ++ rest /\ v = Integer i /\
    no_crlf s = true /\ Utf8.valid s = true /\ Int.parse_i64 s = Ok i.
Proof.
  unfold parse_integer. intros Hp. open_header Hp.
  destruct (Int.parse_i64 body) as [i|] eqn:Hi; [|done].
  injection Hp as <- <-. by exists body, i.
Qed.

Lemma parse_bulk_string_sound src v rest :
  fits ("$"%byte :: src) ->
  parse_bulk_string ("$"%byte :: src) = Ret (Ok (Some v), rest) ->
  exists fr, "$"%byte :: src = fr ++ rest /\ frame fr v.
Proof.
  intros Hfit Hp. unfold parse_bulk_string in Hp. open_header Hp.
  destruct (Int.parse_isize body) as [len|] eqn:Hl; [|done].
  destruct (Z.eqb_spec len (-1)) as [->|Hne].
  { injection Hp as <- <-. exists ("$"%byte :: body ++ crlf). split; [done|by constructor]. }
  destruct (Z.ltb_spec len 0) as [|Hpos]; [done|].
  pose proof (get_line_bound _ _ _ Hg) as Hb. unfold fits, isize_max, i64_max in Hfit.
  pose proof (Int.parse_isize_range _ _ Hl) as Hrange. unfold isize_max, i64_max in Hrange.
  rewrite add_usize_fits in Hp by (unfold usize_max, u64_max; lia).
  cbn [mbind outcome_bind] in Hp.
  rewrite add_usize_fits in Hp by (unfold usize_max, u64_max; lia).
  cbn [mbind outcome_bind] in Hp.
  destruct (Z.ltb_spec (Z.of_nat (length ("$"%byte :: src))) (Z.of_nat n + len + 2)); [done|].
  destruct (split_to _ _) as [[data src2]| |] eqn:Hsp; try done.
  apply split_to_Ret in Hsp as [Ed El]. cbn [mbind outcome_bind] in Hp.
  destruct src2 as [|a [|b src3]]; try done.
  destruct (Byte.eqb a CR && Byte.eqb b LF) eqn:Eab; [|done].
  bool_to_prop; subst. injection Hp as <- <-.
  exists ("$"%byte :: body ++ crlf ++ data ++ crlf). split.
  - rewrite Esrc at 1. rewrite Ed. cbn [app]. by rewrite <- !app_assoc.
  - constructor; [done..|]. rewrite Hl, El. f_equal. lia.
Qed.

Lemma parse_elements_sound parse1 k count temp acc els temp' :
  (forall t v r, (length t <= length temp)%nat -> parse1 t = Ret (Ok (Some v), r) ->
    exists fr, t = fr ++ r /\ frame fr v) ->
  parse_elements parse1 k count temp acc = Ret (Ok (Some els), temp') ->
  exists body vs, temp = body ++ temp' /\ els = acc ++ vs /\ frames body vs /\
    Z.of_nat (length vs) = Z.max 0 count.
Proof.
  revert count temp acc. induction k as [|k IH]; intros count temp acc Hf; cbn [parse_elements];
    destruct (Z.leb_spec count 0) as [Hc|Hc]; try done.
  1, 2: intros [= <- <-]; exists [], []; split_and!; [done|by rewrite app_nil_r|constructor|simpl; lia].
  destruct (parse1 temp) as [[[[v|]|e] r]| |] eqn:Hp; try done. intros He.
  destruct (Hf _ _ _ (le_n _) Hp) as (fr & -> & Hfr).
  apply IH in He as (body & vs & -> & -> & Hb & Hlen).
  - exists (fr ++ body), (v :: vs). split_and!.
    + by rewrite app_assoc.
    + by rewrite <- app_assoc.
    + by constructor.
    + cbn [length]. lia.
  - intros t w q Ht. apply Hf. rewrite length_app. lia.
Qed.

Lemma drop_to_suffix {A} (a r : list A) : drop (length (a ++ r) - length r) (a ++ r) = r.
Proof. apply drop_length_app. rewrite length_app. lia. Qed.

Lemma vec_with_capacity_unit size n u : vec_with_capacity size n = Ret u -> u = tt.
Proof. by destruct u. Qed.

Lemma parse_array_sound parse1 src v rest :
  (forall t w r, (length t <= length src)%nat -> parse1 t = Ret (Ok (Some w), r) ->
    exists fr, t = fr ++ r /\ frame fr w) ->
  parse_array parse1 ("*"%byte :: src) = Ret (Ok (Some v), rest) ->
  exists fr, "*"%byte :: src = fr ++ rest /\ frame fr v.
Proof.
  intros Hf Hp. unfold parse_array in Hp. open_header Hp.
  destruct (Int.parse_isize body) as [count|] eqn:Hl; [|done].
  destruct (Z.eqb_spec count (-1)) as [->|Hne].
  { injection Hp as <- <-. exists ("*"%byte :: body ++ crlf). split; [done|by constructor]. }
  destruct (Z.ltb_spec count 0) as [|Hpos]; [done|].
  destruct (vec_with_capacity _ _) as [[]| |] eqn:Hc; try done. cbn [mbind outcome_bind] in Hp.
  destruct (parse_elements _ _ _ _ _) as [[[[els|]|e] t]| |] eqn:He; try done.
  cbn [mbind outcome_bind] in Hp. injection Hp as <- <-.
  apply parse_elements_sound in He as (fs & vs & Et & -> & Hfs & Hlen).
  - rewrite Et in Esrc. rewrite Esrc, app_assoc. exists (("*"%byte :: body ++ crlf) ++ fs).
    pose proof (f_equal length Esrc) as El. rewrite app_assoc, length_app in El.
    rewrite (drop_length_app _ t) by (cbn [length] in *; lia).
    split; [done|]. cbn [app]. rewrite <- app_assoc.
    rewrite Z.max_r in Hlen by lia. apply frame_array; [done|done| | |done].
    + by rewrite Hlen.
    + by rewrite Hlen.
  - intros t' w r Ht. apply Hf. apply get_line_Some in Hg as (_ & -> & _).
    rewrite length_drop in Ht. simpl in Ht. lia.
Qed.

(** Whatever the fuel, an accepted value is that of a frame at the head of
    the buffer, and the buffer left is what follows it. *)
Lemma parse_fuel_sound fuel src v rest :
  fits src -> parse_fuel fuel src = Ret (Ok (Some v), rest) ->
  exists fr, src = fr ++ rest /\ frame fr v.
Proof.
  revert src v rest. induction fuel as [|f IH]; intros src v rest Hfit; [done|].
  cbn [parse_fuel]. destruct src as [|c src]; [done|].
  destruct (Byte.eqb c "+") eqn:E1; [bool_to_prop; subst c|].
  { intros (s & -> & -> & ? & ?)%parse_simple_string_sound. eexists. split; [done|by constructor]. }
  destruct (Byte.eqb c "-") eqn:E2; [bool_to_prop; subst c|].
  { intros (s & -> & -> & ? & ?)%parse_error_sound. eexists. split; [done|by constructor]. }
  destruct (Byte.eqb c ":") eqn:E3; [bool_to_prop; subst c|].
  { intros (s & i & -> & -> & ? & ? & ?)%parse_integer_sound. eexists. split; [done|by constructor]. }
  destruct (Byte.eqb c "$") eqn:E4; [bool_to_prop; subst c|].
  { by apply parse_bulk_string_sound. }
  destruct (Byte.eqb c "*") eqn:E5; [bool_to_prop; subst c|done].
  apply parse_array_sound. intros t w r Ht. apply IH. unfold fits in *. simpl in Hfit. lia.
Qed.

(** ** Completeness: every frame is accepted *)

Lemma header_complete c s t :
  c <> CR -> no_crlf s = true ->
  get_line (c :: s ++ crlf ++ t) = Some (c :: s, S (length s + 2)) /\
  slice_from 1 (c :: s) = Ret s /\
  drop (S (length s + 2)) (c :: s ++ crlf ++ t) = t.
Proof.
  intros Hc Hs. pose proof (get_line_frame (c :: s) t (no_crlf_cons c s Hc Hs)) as Hg.
  split_and!; [exact Hg|unfold slice_from; cbn [length drop]; done|].
  cbn [drop]. rewrite app_assoc. apply drop_length_app. rewrite length_app. done.
Qed.

(** Rewrites a parser's header lines on a frame. *)
Ltac close_header c s t :=
  let Hg := fresh "Hg" in let Hs := fresh "Hs" in let Hd := fresh "Hd" in
  destruct (header_complete c s t) as (Hg & Hs & Hd);
  [done|done|rewrite Hg; cbn [mbind outcome_bind]; rewrite Hs; cbn [mbind outcome_bind];
   rewrite Utf8.from_utf8_valid by done].

Lemma parse_bulk_complete s data rest :
  no_crlf s = true -> Utf8.valid s = true ->
  Int.parse_isize s = Ok (Z.of_nat (length data)) ->
  Z.of_nat (length ("$"%byte :: s ++ crlf ++ data ++ crlf)) <= usize_max ->
  parse_bulk_string ("$"%byte :: s ++ crlf ++ data ++ crlf ++ rest)
  = Ret (Ok (Some (BulkString (Some data))), rest).
Proof.
  intros Hn Hv Hl Hfit. unfold parse_bulk_string.
  close_header "$"%byte s (data ++ crlf ++ rest). rewrite Hl.
  cbn [length] in Hfit. rewrite !length_app in Hfit. cbn [length crlf] in Hfit.
  destruct (Z.eqb_spec (Z.of_nat (length data)) (-1)); [lia|].
  destruct (Z.ltb_spec (Z.of_nat (length data)) 0); [lia|].
  rewrite add_usize_fits by lia. cbn [mbind outcome_bind].
  rewrite add_usize_fits by lia. cbn [mbind outcome_bind].
  match goal with |- context [?a <? ?b] => destruct (Z.ltb_spec a b) as [Hlt|_] end.
  { cbn [length] in Hlt. rewrite !length_app in Hlt. cbn [length crlf] in Hlt. lia. }
  rewrite Hd, Nat2Z.id. unfold split_to.
  rewrite length_app. destruct (Nat.leb_spec (length data) (length data + length (crlf ++ rest))); [|lia].
  cbn [mbind outcome_bind]. rewrite take_app_length, drop_app_length. done.
Qed.

Lemma parse_elements_complete parse1 k vs body rest acc :
  frames body vs -> (length vs <= k)%nat ->
  (forall fr v t, frame fr v -> (length fr <= length body)%nat ->
    parse1 (fr ++ t) = Ret (Ok (Some v), t)) ->
  parse_elements parse1 k (Z.of_nat (length vs)) (body ++ rest) acc
  = Ret (Ok (Some (acc ++ vs)), rest).
Proof.
  intros Hfs. revert k acc. induction Hfs as [|fr v body vs Hf Hfs IH]; intros k acc Hk Hp.
  - destruct k; cbn [parse_elements app]; by rewrite app_nil_r.
  - destruct k as [|k]; cbn [length] in Hk; [lia|]. cbn [parse_elements].
    destruct (Z.leb_spec (Z.of_nat (length (v :: vs))) 0) as [Hz|_]; [cbn [length] in Hz; lia|].
    rewrite <- app_assoc, (Hp fr v) by (done || rewrite length_app; lia).
    replace (Z.of_nat (length (v :: vs)) - 1) with (Z.of_nat (length vs)) by (cbn [length]; lia).
    rewrite IH; [by rewrite <- app_assoc|lia|].
    intros fr' v' t Hf' Hl. apply Hp; [done|]. rewrite length_app. lia.
Qed.

Lemma parse_array_complete parse1 s vs body rest :
  no_crlf s = true -> Utf8.valid s = true ->
  Int.parse_isize s = Ok (Z.of_nat (length vs)) ->
  vec_with_capacity sizeof_Value (Z.of_nat (length vs)) = Ret tt ->
  frames body vs ->
  (forall fr v t, frame fr v -> (length fr <= length body)%nat ->
    parse1 (fr ++ t) = Ret (Ok (Some v), t)) ->
  parse_array parse1 ("*"%byte :: s ++ crlf ++ body ++ rest)
  = Ret (Ok (Some (Array (Some vs))), rest).
Proof.
  intros Hn Hv Hl Hc Hfs Hp. unfold parse_array.
  close_header "*"%byte s (body ++ rest). rewrite Hl, Hd.
  destruct (Z.eqb_spec (Z.of_nat (length vs)) (-1)); [lia|].
  destruct (Z.ltb_spec (Z.of_nat (length vs)) 0); [lia|].
  rewrite Hc. cbn [mbind outcome_bind].
  rewrite parse_elements_complete; [|done| |done].
  - cbn [mbind outcome_bind app]. do 2 f_equal.
    change (Byte.x2a :: s ++ crlf ++ body ++ rest)
      with ((Byte.x2a :: s) ++ crlf ++ body ++ rest).
    rewrite 2!app_assoc. apply drop_to_suffix.
  - apply frames_length in Hfs. rewrite length_app. lia.
Qed.

Lemma parse_fuel_complete fr v :
  frame fr v -> forall fuel rest, (length fr < fuel)%nat -> Z.of_nat (length fr) <= usize_max ->
  parse_fuel fuel (fr ++ rest) = Ret (Ok (Some v), rest).
Proof.
  intros Hf fuel. revert fr v Hf. induction fuel as [|f IH]; intros fr v Hf rest Hlen Hfit; [lia|].
  destruct Hf as [s Hn Hv|s Hn Hv|s i Hn Hv Hi|s Hn Hv Hi|s data Hn Hv Hi|s Hn Hv Hi|s vs body Hn Hv Hi Hc Hfs];
    cbn [app]; rewrite <- ?app_assoc.
  - cbn [parse_fuel Byte.eqb]. unfold parse_simple_string.
    close_header "+"%byte s rest. by rewrite Hd.
  - cbn [parse_fuel Byte.eqb]. unfold parse_error.
    close_header "-"%byte s rest. by rewrite Hd.
  - cbn [parse_fuel Byte.eqb]. unfold parse_integer.
    close_header ":"%byte s rest. by rewrite Hi, Hd.
  - cbn [parse_fuel Byte.eqb]. unfold parse_bulk_string.
    close_header "$"%byte s rest. by rewrite Hi, Hd.
  - cbn [parse_fuel Byte.eqb]. by apply parse_bulk_complete.
  - cbn [parse_fuel Byte.eqb]. unfold parse_array.
    close_header "*"%byte s rest. by rewrite Hi, Hd.
  - cbn [parse_fuel Byte.eqb]. apply parse_array_complete; [done..|].
    cbn [length] in Hlen, Hfit. rewrite !length_app in Hlen, Hfit.
    intros fr' v' t Hf' Hl'. apply IH; [done|lia|lia].
Qed.

(** ** Termination and panics *)

(** A call that returned, or panicked reserving an array. *)
Definition safe {A} (o : outcome A) : Prop :=
  match o with
  | Ret _ => True
  | Panic p => p = CapacityOverflow \/ p = AllocationFailure
  | NoFuel => False
  end.

Lemma fits_le s t : (length t <= length s)%nat -> fits s -> fits t.
Proof. unfold fits. lia. Qed.

Lemma parse_fuel_shrinks fuel src v rest :
  fits src -> parse_fuel fuel src = Ret (Ok (Some v), rest) -> (length rest < length src)%nat.
Proof.
  intros Hfit Hp. apply parse_fuel_sound in Hp as (fr & -> & Hf); [|done].
  apply frame_nonempty in Hf. rewrite length_app. lia.
Qed.

(** The line of a frame that starts with its prefix byte is not empty. *)
Lemma get_line_slice c src line n :
  c <> CR -> get_line (c :: src) = Some (line, n) -> exists s, slice_from 1 line = Ret s.
Proof.
  intros Hc Hg. apply get_line_Some in Hg as (E & _ & _).
  destruct line as [|d line]; [by injection E|]. by exists line.
Qed.

(** Runs the header of a parser on [c :: src], keeping every branch. *)
Ltac run_header c src :=
  let line := fresh "line" in let n := fresh "n" in
  let Hg := fresh "Hg" in let Hs := fresh "Hs" in
  destruct (get_line (c :: src)) as [[line n]|] eqn:Hg; [|try done];
  [destruct (get_line_slice c src line n) as [?body Hs]; [done|done|];
   rewrite Hs; cbn [mbind outcome_bind]; destruct (Utf8.from_utf8 _) as [?s|?e] eqn:?; [|try done]|..].

Lemma parse_bulk_safe src : fits ("$"%byte :: src) -> safe (parse_bulk_string ("$"%byte :: src)).
Proof.
  intros Hfit. unfold parse_bulk_string. run_header "$"%byte src.
  destruct (Int.parse_isize s) as [len|] eqn:Hl; [|done].
  destruct (Z.eqb_spec len (-1)); [done|]. destruct (Z.ltb_spec len 0); [done|].
  apply get_line_bound in Hg. apply Int.parse_isize_range in Hl.
  unfold fits, isize_max, i64_max in *.
  rewrite add_usize_fits by (unfold usize_max, u64_max; lia). cbn [mbind outcome_bind].
  rewrite add_usize_fits by (unfold usize_max, u64_max; lia). cbn [mbind outcome_bind].
  match goal with |- context [?a <? ?b] => destruct (Z.ltb_spec a b) as [|Hge] end; [done|].
  unfold split_to. rewrite length_drop.
  match goal with |- context [(?a <=? ?b)%nat] => destruct (Nat.leb_spec a b) end; [|lia].
  cbn [mbind outcome_bind]. by repeat case_match.
Qed.

Lemma parse_elements_safe parse1 k count temp acc :
  (forall t, (length t <= length temp)%nat -> safe (parse1 t)) ->
  (forall t v r, (length t <= length temp)%nat -> parse1 t = Ret (Ok (Some v), r) ->
    (length r < length t)%nat) ->
  (length temp < k)%nat -> safe (parse_elements parse1 k count temp acc).
Proof.
  revert count temp acc. induction k as [|k IH]; intros count temp acc Hs Hd Hk; [lia|].
  cbn [parse_elements]. case_match; [done|].
  pose proof (Hs temp (le_n _)) as Ht.
  destruct (parse1 temp) as [[[[v|]|e] r]| |] eqn:E; try done.
  pose proof (Hd _ _ _ (le_n _) E). apply IH; [..|lia]; intros t; [|intros v' r'];
    intros Hl; [apply Hs|apply Hd]; lia.
Qed.

Lemma parse_fuel_safe fuel src :
  fits src -> (length src < fuel)%nat -> safe (parse_fuel fuel src).
Proof.
  revert src. induction fuel as [|f IH]; intros src Hfit Hlen; [lia|].
  cbn [parse_fuel]. destruct src as [|c src]; [done|].
  destruct (Byte.eqb c "+") eqn:E1; [bool_to_prop; subst c|].
  { unfold parse_simple_string. by run_header "+"%byte src. }
  destruct (Byte.eqb c "-") eqn:E2; [bool_to_prop; subst c|].
  { unfold parse_error. by run_header "-"%byte src. }
  destruct (Byte.eqb c ":") eqn:E3; [bool_to_prop; subst c|].
  { unfold parse_integer. run_header ":"%byte src. by case_match. }
  destruct (Byte.eqb c "$") eqn:E4; [bool_to_prop; subst c|].
  { by apply parse_bulk_safe. }
  destruct (Byte.eqb c "*") eqn:E5; [bool_to_prop; subst c|done].
  unfold parse_array. run_header "*"%byte src.
  destruct (Int.parse_isize s) as [count|] eqn:Hl; [|done].
  destruct (count =? -1); [done|]. destruct (count <? 0); [done|].
  unfold vec_with_capacity. repeat case_match; cbn [mbind outcome_bind]; try (simpl; tauto).
  all: assert (Htmp : (length (drop n ("*"%byte :: src)) <= length src)%nat)
    by (apply get_line_Some in Hg as (_ & -> & _); rewrite length_drop; simpl; lia).
  all: assert (Hs1 : safe (parse_elements (parse_fuel f) (S (length (drop n ("*"%byte :: src))))
      count (drop n ("*"%byte :: src)) [])).
  1, 3: apply parse_elements_safe; [| |lia]; intros t; [|intros v' r']; intros Ht;
    [apply IH|apply parse_fuel_shrinks]; simpl in Hlen; try lia;
    (eapply fits_le; [|exact Hfit]; simpl; lia).
  all: destruct (parse_elements _ _ _ _ _) as [[[[els|]|e] t]| |]; done.
Qed.

(** ** The result does not depend on the fuel *)

Lemma parse_elements_ext f g k k' count temp acc :
  (forall t, (length t <= length temp)%nat -> f t = g t) ->
  (forall t v r, (length t <= length temp)%nat -> f t = Ret (Ok (Some v), r) ->
    (length r < length t)%nat) ->
  (length temp < k)%nat -> (length temp < k')%nat ->
  parse_elements f k count temp acc = parse_elements g k' count temp acc.
Proof.
  revert k' count temp acc. induction k as [|k IH]; intros k' count temp acc Hfg Hd Hk Hk'; [lia|].
  destruct k' as [|k']; [lia|]. cbn [parse_elements]. case_match; [done|].
  rewrite <- (Hfg temp) by lia.
  destruct (f temp) as [[[[v|]|e] r]| |] eqn:E; try done.
  pose proof (Hd _ _ _ (le_n _) E). apply IH; [..|lia|lia]; intros t; [|intros v' r'];
    intros Hl; [apply Hfg|apply Hd]; lia.
Qed.

Lemma parse_fuel_indep n m src :
  fits src -> (length src < n)%nat -> (length src < m)%nat -> parse_fuel n src = parse_fuel m src.
Proof.
  revert m src. induction n as [|n IH]; intros m src Hfit Hn Hm; [lia|].
  destruct m as [|m]; [lia|]. cbn [parse_fuel]. destruct src as [|c src]; [done|].
  repeat case_match; try done.
  unfold parse_array. destruct (get_line _) as [[line k]|] eqn:Hg; [|done].
  destruct (slice_from 1 line); cbn [mbind outcome_bind]; [|done..].
  destruct (Utf8.from_utf8 _); [|done]. destruct (Int.parse_isize _); [|done].
  repeat case_match; try done.
  destruct (vec_with_capacity _ _); cbn [mbind outcome_bind]; [|done..].
  assert (Htmp : (length (drop k (c :: src)) <= length src)%nat)
    by (apply get_line_Some in Hg as (_ & -> & _); rewrite length_drop; simpl; lia).
  f_equal. apply parse_elements_ext; [..|lia|lia]; intros t; [|intros v r]; intros Ht;
    [apply IH|apply parse_fuel_shrinks]; simpl in *; try lia;
    (eapply fits_le; [|exact Hfit]; simpl; lia).
Qed.

(** ** A settled result is stable under more input *)

(** A value, a protocol error or a panic, as opposed to a request for more
    bytes. *)
Definition settled {A} (o : outcome (result (option A) RespParseError * bytes)) : Prop :=
  match o with
  | Ret (Ok None, _) => False
  | NoFuel => False
  | _ => True
  end.

#[local] Instance settled_dec {A} (o : outcome (result (option A) RespParseError * bytes)) :
  Decision (settled o).
Proof. destruct o as [[[[?|]|?] ?]| |]; solve [left; done | right; intros []]. Defined.

Definition extend {A} (more : bytes) (o : outcome (result (option A) RespParseError * bytes)) :=
  match o with
  | Ret (r, rest) => Ret (r, rest ++ more)
  | Panic p => Panic p
  | NoFuel => NoFuel
  end.

Lemma drop_app_bound {A} n (s t : list A) : (n <= length s)%nat -> drop n (s ++ t) = drop n s ++ t.
Proof. apply drop_app_le. Qed.

(** Moves the added bytes through the header of a parser. *)
Ltac stable_header Hset :=
  let line := fresh "line" in let n := fresh "n" in
  let Hg := fresh "Hg" in
  destruct (get_line _) as [[line n]|] eqn:Hg in Hset |- * ; [|done];
  rewrite (get_line_app _ _ _ _ Hg);
  pose proof (get_line_bound _ _ _ Hg);
  rewrite ?(drop_app_bound n) by done;
  destruct (slice_from 1 line); cbn [mbind outcome_bind] in Hset |- *; [|done..];
  destruct (Utf8.from_utf8 _); [|done].

Lemma parse_bulk_stable src more :
  fits src -> settled (parse_bulk_string src) ->
  parse_bulk_string (src ++ more) = extend more (parse_bulk_string src).
Proof.
  intros Hfit. unfold parse_bulk_string. intros Hset. stable_header Hset.
  destruct (Int.parse_isize _) as [len|] eqn:Hl; [|done].
  destruct (len =? -1); [done|]. destruct (Z.ltb_spec len 0); [done|].
  apply Int.parse_isize_range in Hl. unfold fits, isize_max, i64_max in *.
  rewrite add_usize_fits in Hset |- * by (unfold usize_max, u64_max; lia).
  cbn [mbind outcome_bind] in Hset |- *.
  rewrite add_usize_fits in Hset |- * by (unfold usize_max, u64_max; lia).
  cbn [mbind outcome_bind] in Hset |- *.
  match type of Hset with context [?a <? ?b] => destruct (Z.ltb_spec a b) as [|Hge] end; [done|].
  match goal with |- context [?a <? ?b] => destruct (Z.ltb_spec a b) as [Hlt|_] end.
  { rewrite length_app in Hlt. lia. }
  unfold split_to. rewrite length_app, length_drop.
  repeat match goal with |- context [(?a <=? ?b)%nat] => destruct (Nat.leb_spec a b); [|lia] end.
  cbn [mbind outcome_bind].
  rewrite take_app_le, drop_app_le by (rewrite length_drop; lia).
  assert (Hl2 : (2 <= length (drop (Z.to_nat len) (drop n src)))%nat)
    by (rewrite !length_drop; lia).
  destruct (drop (Z.to_nat len) (drop n src)) as [|c0 [|c1 src3]]; simpl in Hl2; [lia|lia|].
  cbn [app]. by case_match.
Qed.

Lemma parse_elements_stable f g k k' count temp more acc :
  (forall t, (length t <= length temp)%nat -> settled (f t) -> g (t ++ more) = extend more (f t)) ->
  (forall t v r, (length t <= length temp)%nat -> f t = Ret (Ok (Some v), r) ->
    (length r < length t)%nat) ->
  (length temp < k)%nat -> (k <= k')%nat ->
  settled (parse_elements f k count temp acc) ->
  parse_elements g k' count (temp ++ more) acc = extend more (parse_elements f k count temp acc).
Proof.
  revert k' count temp acc. induction k as [|k IH]; intros k' count temp acc Hfg Hd Hk Hk'; [lia|].
  destruct k' as [|k']; [lia|]. cbn [parse_elements]. case_match; [done|].
  specialize (Hfg temp (le_n _)) as Ht.
  destruct (f temp) as [[[[v|]|e] r]| |] eqn:E; try done; intros Hset;
    rewrite Ht by done; cbn [extend]; try done.
  pose proof (Hd _ _ _ (le_n _) E). apply IH; [..|lia|lia|done]; intros t; [|intros v' r'];
    intros Hl; [apply Hfg|apply Hd]; lia.
Qed.

Lemma parse_array_stable f g src more :
  fits src ->
  (forall t, (length t < length src)%nat -> settled (f t) -> g (t ++ more) = extend more (f t)) ->
  (forall t v r, (length t < length src)%nat -> f t = Ret (Ok (Some v), r) ->
    exists fr, t = fr ++ r /\ frame fr v) ->
  settled (parse_array f src) ->
  parse_array g (src ++ more) = extend more (parse_array f src).
Proof.
  intros Hfit Hfg Hsound. unfold parse_array. intros Hset. stable_header Hset.
  destruct (Int.parse_isize _) as [count|] eqn:Hl; [|done].
  destruct (count =? -1); [done|]. destruct (count <? 0); [done|].
  destruct (vec_with_capacity _ _); cbn [mbind outcome_bind] in Hset |- *; [|done..].
  assert (Htmp : (length (drop n src) < length src)%nat)
    by (apply get_line_Some in Hg as (_ & -> & _); rewrite length_drop; simpl; lia).
  pose proof (parse_elements_stable f g (S (length (drop n src))) (S (length (drop n src ++ more)))
    count (drop n src) more []) as Hst.
  assert (Hs' : forall t v r, (length t <= length (drop n src))%nat ->
    f t = Ret (Ok (Some v), r) -> exists fr, t = fr ++ r /\ frame fr v)
    by (intros; eapply Hsound; [lia|done]).
  rewrite Hst.
  - destruct (parse_elements f _ _ _ _) as [[[[els|]|e] t]| |] eqn:He; try done.
    apply parse_elements_sound in He as (fs & vs & Et & _ & _ & _); [|done].
    cbn [extend mbind outcome_bind]. do 2 f_equal.
    assert (El : (length t <= length src)%nat)
      by (apply (f_equal length) in Et; rewrite length_app in Et; lia).
    rewrite !length_app.
    replace (length src + length more - (length t + length more))%nat
      with (length src - length t)%nat by lia.
    by rewrite drop_app_le by lia.
  - intros t Ht. apply Hfg. lia.
  - intros t v r Ht Hp. destruct (Hs' _ _ _ Ht Hp) as (fr & -> & Hf).
    apply frame_nonempty in Hf. rewrite length_app. lia.
  - lia.
  - rewrite length_app. lia.
  - destruct (parse_elements f _ _ _ _) as [[[[els|]|e] t]| |]; done.
Qed.

Lemma parse_fuel_stable n m src more :
  fits src -> (length src < n)%nat -> (length (src ++ more) < m)%nat ->
  settled (parse_fuel n src) -> parse_fuel m (src ++ more) = extend more (parse_fuel n src).
Proof.
  revert m src. induction n as [|n IH]; intros m src Hfit Hn Hm; [lia|].
  destruct m as [|m]; [lia|]. destruct src as [|c src]; [done|].
  cbn [parse_fuel app]. change (c :: src ++ more) with ((c :: src) ++ more).
  repeat case_match; try done.
  - unfold parse_simple_string. intros Hset. by stable_header Hset.
  - unfold parse_error. intros Hset. by stable_header Hset.
  - unfold parse_integer. intros Hset. stable_header Hset. by case_match.
  - by apply parse_bulk_stable.
  - apply parse_array_stable; [done|..].
    + intros t Ht. rewrite length_app in Hm. apply IH; [|simpl in *; lia|rewrite length_app; simpl in *; lia].
      eapply fits_le; [|exact Hfit]. lia.
    + intros t v r Ht. apply parse_fuel_sound. eapply fits_le; [|exact Hfit]. lia.
Qed.

(** A request for more bytes leaves the buffer alone. *)
Lemma parse_fuel_None n src rest : parse_fuel n src = Ret (Ok None, rest) -> rest = src.
Proof.
  destruct n as [|n]; [done|]. cbn [parse_fuel]. destruct src as [|c src]; [congruence|].
  unfold parse_simple_string, parse_error, parse_integer, parse_bulk_string, parse_array.
  repeat (case_match; try done); try congruence;
    repeat match goal with
    | |- (?m ≫= _) = _ -> _ => destruct m eqn:?; cbn [mbind outcome_bind]; try congruence
    | |- context [match ?x with _ => _ end] => destruct x eqn:?; try congruence
    end.
Qed.

(** ** The printer prints frames *)

(** Values the printer can print unambiguously: strings are UTF-8 without
    CRLF, integers are in range, and arrays can be reserved. *)
Fixpoint wf (v : Value) : bool :=
  match v with
  | SimpleString s | Error s => no_crlf s && Utf8.valid s
  | Integer i => (i64_min <=? i) && (i <=? i64_max)
  | BulkString None => true
  | BulkString (Some data) => Z.of_nat (length data) <=? isize_max
  | Array None => true
  | Array (Some vs) =>
      (Z.of_nat (length vs) <=? isize_max)
      && capacity_ok sizeof_Value (Z.of_nat (length vs))
      && forallb wf vs
  end.

(** What the printer writes for an error is read back with its prefix. *)
Fixpoint reread (v : Value) : Value :=
  match v with
  | Error s => Error (b!"ERR " ++ s)
  | Array (Some vs) => Array (Some (reread <$> vs))
  | _ => v
  end.

Lemma Value_nested_ind (P : Value -> Prop) :
  (forall s, P (SimpleString s)) -> (forall s, P (Error s)) -> (forall i, P (Integer i)) ->
  (forall o, P (BulkString o)) -> P (Array None) ->
  (forall vs, Forall P vs -> P (Array (Some vs))) -> forall v, P v.
Proof.
  intros H1 H2 H3 H4 H5 H6. fix IH 1. intros [s|s|i|o|[vs|]]; [apply H1|apply H2|apply H3|apply H4| |apply H5].
  apply H6. induction vs as [|v vs IHvs]; constructor; [apply IH|apply IHvs].
Qed.

Lemma serialize_append v buf : serialize v buf = buf ++ serialize v [].
Proof.
  revert buf. induction v as [s|s|i|[o|]| |vs IH] using Value_nested_ind; intros buf; try done.
  cbn [serialize app].
  assert (Hf : forall l a, Forall (fun v => forall buf, serialize v buf = buf ++ serialize v []) l ->
    fold_left (fun buf elem => serialize elem buf) l a
    = a ++ fold_left (fun buf elem => serialize elem buf) l []).
  { clear. induction l as [|v l IHl]; intros a Hl; cbn [fold_left]; [by rewrite app_nil_r|].
    apply Forall_cons in Hl as [Hv Hl]. rewrite (IHl (serialize v a)), (IHl (serialize v [])) by done.
    by rewrite Hv, <- app_assoc. }
  rewrite (Hf vs (buf ++ _)) by done. rewrite (Hf vs (_ ++ _ ++ _)) by done.
  by rewrite <- !app_assoc.
Qed.

(** The frames of the elements, one after the other. *)
Lemma serialize_array vs :
  serialize (Array (Some vs)) []
  = b!"*" ++ Int.fmt_Z (Z.of_nat (length vs)) ++ crlf ++ concat ((fun v => serialize v []) <$> vs).
Proof.
  assert (Hf : forall l a, fold_left (fun buf elem => serialize elem buf) l a
    = a ++ concat ((fun v => serialize v []) <$> l)).
  { induction l as [|v l IHl]; intros a; cbn; [by rewrite app_nil_r|].
    by rewrite IHl, serialize_append, <- app_assoc. }
  cbn [serialize]. by rewrite Hf, <- !app_assoc.
Qed.

Lemma parse_isize_fmt n :
  Z.of_nat n <= isize_max -> Int.parse_isize (Int.fmt_Z (Z.of_nat n)) = Ok (Z.of_nat n).
Proof.
  intros Hn. apply Int.parse_fmt_Z; unfold isize_max, isize_min, i64_max, i64_min in *; lia.
Qed.

Lemma serialize_frames vs :
  Forall (fun v => wf v = true -> frame (serialize v []) (reread v)) vs ->
  forallb wf vs = true ->
  frames (concat ((fun v => serialize v []) <$> vs)) (reread <$> vs).
Proof.
  induction 1 as [|v vs Hv _ IH]; [constructor|].
  cbn [forallb]. intros Hwf. bool_to_prop. constructor; auto.
Qed.

Lemma serialize_frame v : wf v = true -> frame (serialize v []) (reread v).
Proof.
  induction v as [s|s|i|[data|]| |vs IH] using Value_nested_ind; cbn [wf]; intros Hwf;
    bool_to_prop.
  - apply (frame_simple s); done.
  - apply (frame_error (b!"ERR " ++ s)); [|by apply Utf8.valid_app].
    cbn. by do 4 (apply no_crlf_cons; [done|]).
  - apply frame_integer; auto with rust. apply Int.parse_fmt_Z; [lia|].
    unfold i64_min, i64_max. lia.
  - apply frame_bulk; auto with rust. by apply parse_isize_fmt.
  - apply (frame_null_bulk b!"-1"); done.
  - apply (frame_null_array b!"-1"); done.
  - rewrite serialize_array. cbn [reread]. apply frame_array; auto with rust.
    + rewrite length_fmap. by apply parse_isize_fmt.
    + rewrite length_fmap. by apply capacity_ok_Ret.
    + by apply serialize_frames.
Qed.

(** ** The theorems *)

Lemma parse_fits_sound src v rest :
  fits src -> parse src = Ret (Ok (Some v), rest) -> exists fr, src = fr ++ rest /\ frame fr v.
Proof. apply parse_fuel_sound. Qed.

Lemma parse_frame fr v rest :
  frame fr v -> fits (fr ++ rest) -> parse (fr ++ rest) = Ret (Ok (Some v), rest).
Proof.
  intros Hf Hfit. unfold parse. apply parse_fuel_complete; [done|rewrite length_app; lia|].
  unfold fits, isize_max, i64_max, usize_max, u64_max in *. rewrite length_app in Hfit. lia.
Qed.

Lemma parse_extend src more :
  fits (src ++ more) -> settled (parse src) -> parse (src ++ more) = extend more (parse src).
Proof.
  intros Hfit Hs. apply parse_fuel_stable; [|lia|lia|done].
  eapply fits_le; [|exact Hfit]. rewrite length_app. lia.
Qed.

Lemma parse_safe src : fits src -> safe (parse src).
Proof. intros Hfit. apply parse_fuel_safe; [done|lia]. Qed.

Lemma parse_None src rest : parse src = Ret (Ok None, rest) -> rest = src.
Proof. apply parse_fuel_None. Qed.

Lemma parse_prefix fr v pre suf :
  frame fr v -> fits fr -> fr = pre ++ suf -> suf <> [] ->
  parse pre = Ret (Ok None, pre).
Proof.
  intros Hf Hfit -> Hsuf.
  assert (Hpre : fits pre) by (eapply fits_le; [|exact Hfit]; rewrite length_app; lia).
  pose proof (parse_frame _ _ [] Hf) as Hc. rewrite app_nil_r in Hc. specialize (Hc Hfit).
  pose proof (parse_safe pre Hpre) as Hs.
  destruct (decide (settled (parse pre))) as [Hset|Hset].
  - rewrite (parse_extend _ _ Hfit Hset) in Hc. exfalso.
    destruct (parse pre) as [[r rest]| |]; [|done..]. injection Hc as _ Hr.
    apply app_eq_nil in Hr as [_ ?]. done.
  - destruct (parse pre) as [[[[?|]|?] rest]| |] eqn:E; try done; try (by destruct Hset).
    apply parse_None in E. by subst.
Qed.

(** C6: the parser implements the RESP2 grammar.  On a buffer that fits in
    memory, [parse] returns the value [v] leaving [rest] exactly when the
    buffer is a frame of [v] followed by [rest]. *)
Theorem parse_refines_grammar src v rest :
  fits src ->
  parse src = Ret (Ok (Some v), rest) <-> exists fr, src = fr ++ rest /\ frame fr v.
Proof.
  intros Hfit. split; [by apply parse_fits_sound|].
  intros (fr & -> & Hf). by apply parse_frame.
Qed.

(** C25: the parser always comes back.  On a buffer that fits in memory its
    recursion ends within the fuel, and the only panics are those of
    reserving the vector of an array: no index is out of bounds and the
    length arithmetic does not overflow. *)
Theorem parse_terminates src :
  fits src ->
  (exists r rest, parse src = Ret (r, rest))
  \/ parse src = Panic CapacityOverflow \/ parse src = Panic AllocationFailure.
Proof.
  intros Hfit. pose proof (parse_safe src Hfit) as Hs.
  destruct (parse src) as [[r rest]|p|]; simpl in Hs; [eauto| |done].
  destruct Hs as [-> | ->]; auto.
Qed.

(** C26: how the stream is cut into reads does not matter.  A value, an error
    or a panic found in a prefix of the stream is found unchanged in the
    stream, and the bytes received later stay in the buffer. *)
Theorem parse_incremental src more :
  fits (src ++ more) -> settled (parse src) -> parse (src ++ more) = extend more (parse src).
Proof. apply parse_extend. Qed.

(** An incomplete frame is waited for.  On every proper prefix of a
    frame the parser asks for more bytes and consumes nothing. *)
Theorem parse_truncated fr v pre suf :
  frame fr v -> fits fr -> fr = pre ++ suf -> suf <> [] ->
  parse pre = Ret (Ok None, pre).
Proof. apply parse_prefix. Qed.

(** C17: printing then parsing gives the value back, and the rest of the
    buffer.  Only an error comes back changed: the printer writes [-ERR ]
    before its text, and the parser keeps that prefix as part of the text. *)
Theorem serialize_parse_roundtrip v rest :
  wf v = true -> fits (serialize v [] ++ rest) ->
  parse (serialize v [] ++ rest) = Ret (Ok (Some (reread v)), rest).
Proof. intros Hwf Hfit. by apply parse_frame; [apply serialize_frame|]. Qed.

(** C40: the vector of an array is reserved for the announced count before
    any element is there, so a header alone can panic the parser: any count
    whose vector would exceed [isize::MAX] bytes does. *)
Theorem parse_array_header_panics count rest :
  0 < count <= isize_max -> isize_max < sizeof_Value * count ->
  parse ("*"%byte :: Int.fmt_Z count ++ crlf ++ rest) = Panic CapacityOverflow.
Proof.
  intros Hc Hsz. unfold parse. cbn [parse_fuel Byte.eqb]. unfold parse_array.
  assert (Hn : no_crlf (Int.fmt_Z count) = true) by auto with rust.
  assert (Hv : Utf8.valid (Int.fmt_Z count) = true) by auto with rust.
  close_header "*"%byte (Int.fmt_Z count) rest.
  unfold Int.parse_isize. rewrite Int.parse_fmt_Z
    by (unfold isize_max, isize_min, i64_max, i64_min in *; lia).
  unfold vec_with_capacity.
  destruct (Z.eqb_spec count (-1)); [lia|]. destruct (Z.ltb_spec count 0); [lia|].
  destruct (Z.eqb_spec count 0); [lia|].
  destruct (Z.ltb_spec isize_max (sizeof_Value * count)); [done|lia].
Qed.

End Grammar.

(** What commands read as text is displayed as that text in quotes. *)
Lemma display_text bytes_debug v s : as_str v = Some s -> display bytes_debug v = [x22] ++ s ++ [x22].
Proof.
  destruct v as [t|t|n|[b|]|o]; cbn; try done; [by intros [= ->]|]. destruct (Utf8.from_utf8 b); [by intros [= ->]|done].
Qed.

(** ** Witnesses, on a 64-bit build *)

Section Witnesses.
#[local] Instance witness_platform : Platform := demo_platform true.

Definition sample : Value :=
  Array (Some [BulkString (Some b!"SET"); BulkString (Some b!"key"); Integer (-42); Error b!"x"; Array None]).

Lemma sample_frame : frame (serialize sample []) (reread sample).
Proof. apply serialize_frame. vm_compute. reflexivity. Qed.

Lemma parse_refines_grammar_witness :
  exists fr, serialize sample [] ++ b!"+O" = fr ++ b!"+O" /\ frame fr (reread sample).
Proof.
  apply (parse_refines_grammar (serialize sample [] ++ b!"+O") (reread sample) b!"+O").
  - vm_compute. reflexivity.
  - vm_compute. reflexivity.
Defined.

Lemma parse_terminates_witness :
  (exists r rest, parse b!"*2" = Ret (r, rest))
  \/ parse b!"*2" = Panic CapacityOverflow \/ parse b!"*2" = Panic AllocationFailure.
Proof. apply (parse_terminates b!"*2"). vm_compute. reflexivity. Defined.

Lemma parse_incremental_witness :
  parse (serialize (Integer 7) [] ++ b!"$3") = Ret (Ok (Some (Integer 7)), b!"$3").
Proof.
  rewrite (parse_incremental (serialize (Integer 7) []) b!"$3").
  - vm_compute. reflexivity.
  - vm_compute. reflexivity.
  - vm_compute. exact I.
Defined.

Lemma parse_truncated_witness : parse (take 20 (serialize sample [])) = Ret (Ok None, take 20 (serialize sample [])).
Proof.
  apply (parse_truncated (serialize sample []) (reread sample)
    (take 20 (serialize sample [])) (drop 20 (serialize sample []))).
  - exact sample_frame.
  - vm_compute. reflexivity.
  - symmetry. apply take_drop.
  - vm_compute. discriminate.
Defined.

Lemma serialize_parse_roundtrip_witness :
  parse (serialize sample [] ++ b!"+OK") = Ret (Ok (Some (reread sample)), b!"+OK").
Proof.
  apply (serialize_parse_roundtrip sample b!"+OK").
  - vm_compute. reflexivity.
  - vm_compute. reflexivity.
Defined.

Lemma parse_array_header_panics_witness :
  parse ("*"%byte :: Int.fmt_Z isize_max ++ crlf ++ []) = Panic CapacityOverflow.
Proof.
  apply (parse_array_header_panics isize_max []).
  - vm_compute. split; [reflexivity|discriminate].
  - vm_compute. reflexivity.
Defined.

End Witnesses.
