(* ===== verification/Slot.v ===== *)
(** * Cluster hash slots: src/cluster/slot.rs

    The CRC16 table and loop, the hashtag rule and the slot of a key.  The
    table-driven checksum is proved equal to the bit-serial CRC-16/XMODEM
    register and to be the remainder of the message polynomial by
    x^16 + x^12 + x^5 + 1. *)

From S2P Require Import Prelude Str.

Module Slot.

Definition HASH_SLOTS : Z := 16384.

Definition CRC16_TAB : list Z := [
    0x0000; 0x1021; 0x2042; 0x3063; 0x4084; 0x50a5; 0x60c6; 0x70e7;
    0x8108; 0x9129; 0xa14a; 0xb16b; 0xc18c; 0xd1ad; 0xe1ce; 0xf1ef;
    0x1231; 0x0210; 0x3273; 0x2252; 0x52b5; 0x4294; 0x72f7; 0x62d6;
    0x9339; 0x8318; 0xb37b; 0xa35a; 0xd3bd; 0xc39c; 0xf3ff; 0xe3de;
    0x2462; 0x3443; 0x0420; 0x1401; 0x64e6; 0x74c7; 0x44a4; 0x5485;
    0xa56a; 0xb54b; 0x8528; 0x9509; 0xe5ee; 0xf5cf; 0xc5ac; 0xd58d;
    0x3653; 0x2672; 0x1611; 0x0630; 0x76d7; 0x66f6; 0x5695; 0x46b4;
    0xb75b; 0xa77a; 0x9719; 0x8738; 0xf7df; 0xe7fe; 0xd79d; 0xc7bc;
    0x48c4; 0x58e5; 0x6886; 0x78a7; 0x0840; 0x1861; 0x2802; 0x3823;
    0xc9cc; 0xd9ed; 0xe98e; 0xf9af; 0x8948; 0x9969; 0xa90a; 0xb92b;
    0x5af5; 0x4ad4; 0x7ab7; 0x6a96; 0x1a71; 0x0a50; 0x3a33; 0x2a12;
    0xdbfd; 0xcbdc; 0xfbbf; 0xeb9e; 0x9b79; 0x8b58; 0xbb3b; 0xab1a;
    0x6ca6; 0x7c87; 0x4ce4; 0x5cc5; 0x2c22; 0x3c03; 0x0c60; 0x1c41;
    0xedae; 0xfd8f; 0xcdec; 0xddcd; 0xad2a; 0xbd0b; 0x8d68; 0x9d49;
    0x7e97; 0x6eb6; 0x5ed5; 0x4ef4; 0x3e13; 0x2e32; 0x1e51; 0x0e70;
    0xff9f; 0xefbe; 0xdfdd; 0xcffc; 0xbf1b; 0xaf3a; 0x9f59; 0x8f78;
    0x9188; 0x81a9; 0xb1ca; 0xa1eb; 0xd10c; 0xc12d; 0xf14e; 0xe16f;
    0x1080; 0x00a1; 0x30c2; 0x20e3; 0x5004; 0x4025; 0x7046; 0x6067;
    0x83b9; 0x9398; 0xa3fb; 0xb3da; 0xc33d; 0xd31c; 0xe37f; 0xf35e;
    0x02b1; 0x1290; 0x22f3; 0x32d2; 0x4235; 0x5214; 0x6277; 0x7256;
    0xb5ea; 0xa5cb; 0x95a8; 0x8589; 0xf56e; 0xe54f; 0xd52c; 0xc50d;
    0x34e2; 0x24c3; 0x14a0; 0x0481; 0x7466; 0x6447; 0x5424; 0x4405;
    0xa7db; 0xb7fa; 0x8799; 0x97b8; 0xe75f; 0xf77e; 0xc71d; 0xd73c;
    0x26d3; 0x36f2; 0x0691; 0x16b0; 0x6657; 0x7676; 0x4615; 0x5634;
    0xd94c; 0xc96d; 0xf90e; 0xe92f; 0x99c8; 0x89e9; 0xb98a; 0xa9ab;
    0x5844; 0x4865; 0x7806; 0x6827; 0x18c0; 0x08e1; 0x3882; 0x28a3;
    0xcb7d; 0xdb5c; 0xeb3f; 0xfb1e; 0x8bf9; 0x9bd8; 0xabbb; 0xbb9a;
    0x4a75; 0x5a54; 0x6a37; 0x7a16; 0x0af1; 0x1ad0; 0x2ab3; 0x3a92;
    0xfd2e; 0xed0f; 0xdd6c; 0xcd4d; 0xbdaa; 0xad8b; 0x9de8; 0x8dc9;
    0x7c26; 0x6c07; 0x5c64; 0x4c45; 0x3ca2; 0x2c83; 0x1ce0; 0x0cc1;
    0xef1f; 0xff3e; 0xcf5d; 0xdf7c; 0xaf9b; 0xbfba; 0x8fd9; 0x9ff8;
    0x6e17; 0x7e36; 0x4e55; 0x5e74; 0x2e93; 0x3eb2; 0x0ed1; 0x1ef0
].

(** One iteration of the loop of [crc16]. *)
Definition crc16_step (crc : Z) (b : byte) : Z :=
  Z.lxor (Z.land (wrap_u16 (Z.shiftl crc 8)) 0xFF00)
    (default 0 (CRC16_TAB !! Z.to_nat (Z.land (Z.lxor (Z.shiftr crc 8) (bZ b)) 0x00FF))).

Definition crc16 (s : bytes) : Z := fold_left crc16_step s 0.

Definition extract_hashtag (key : bytes) : bytes :=
  match Str.position (fun b => Byte.eqb b "{") key with
  | Some start =>
      match Str.position (fun b => Byte.eqb b "}") (drop (start + 1) key) with
      | Some end_ =>
          let actual_end := (start + 1 + end_)%nat in
          if (start + 1 <? actual_end)%nat
          then take (actual_end - (start + 1)) (drop (start + 1) key)
          else key
      | None => key
      end
  | None => key
  end.

Definition key_slot (key : bytes) : Z :=
  let target := extract_hashtag key in
  Z.land (crc16 target) (HASH_SLOTS - 1).

(** The unit tests of slot.rs. *)
Example test_crc16_standard_vector :
  crc16 b!"123456789" = 12739 /\ key_slot b!"123456789" = 12739.
Proof. vm_compute. split; reflexivity. Qed.

Example test_key_slot_foo : crc16 b!"foo" = 44950 /\ key_slot b!"foo" = 12182.
Proof. vm_compute. split; reflexivity. Qed.

Example test_hashtag_edge_cases :
  extract_hashtag b!"{}user100" = b!"{}user100" /\ extract_hashtag b!"{user100" = b!"{user100"
  /\ extract_hashtag b!"{a}{b}" = b!"a" /\ extract_hashtag b!"{a{b}}" = b!"a{b".
Proof. vm_compute. repeat split; reflexivity. Qed.

(** ** The reference: a bit-serial register *)

Definition GEN : Z := 0x1021.

Definition crc_bit (crc : Z) : Z :=
  let shifted := Z.land (Z.shiftl crc 1) 0xFFFF in
  if Z.testbit crc 15 then Z.lxor shifted GEN else shifted.

Fixpoint crc_bits (n : nat) (crc : Z) : Z :=
  match n with
  | O => crc
  | S n => crc_bit (crc_bits n crc)
  end.

Definition crc16_ref (s : bytes) : Z :=
  fold_left (fun crc b => crc_bits 8 (Z.lxor crc (Z.shiftl (bZ b) 8))) s 0.

(** The register is linear. *)
Lemma crc_bit_lxor x y : crc_bit (Z.lxor x y) = Z.lxor (crc_bit x) (crc_bit y).
Proof.
  unfold crc_bit. rewrite Z.shiftl_lxor, Z.lxor_spec.
  assert (Hd : forall a b, Z.land (Z.lxor a b) 0xFFFF = Z.lxor (Z.land a 0xFFFF) (Z.land b 0xFFFF)).
  { intros a b. apply Z.bits_inj'. intros n Hn. rewrite ?Z.land_spec, ?Z.lxor_spec, ?Z.land_spec.
    by destruct (Z.testbit a n), (Z.testbit b n), (Z.testbit 0xFFFF n). }
  rewrite Hd. set (p := Z.land _ _). set (q := Z.land _ _).
  apply Z.bits_inj'. intros n Hn.
  destruct (Z.testbit x 15), (Z.testbit y 15); cbn [xorb]; rewrite ?Z.lxor_spec;
    by destruct (Z.testbit p n), (Z.testbit q n), (Z.testbit GEN n).
Qed.

Lemma crc_bits_lxor n x y : crc_bits n (Z.lxor x y) = Z.lxor (crc_bits n x) (crc_bits n y).
Proof.
  induction n as [|n IH]; [done|]. cbn [crc_bits]. by rewrite IH, crc_bit_lxor.
Qed.

(** A fact about the bytes, by evaluation. *)
Lemma byte_forallb (f : Z -> bool) :
  forallb (fun n => f (Z.of_nat n)) (seq 0 256) = true -> forall z, 0 <= z < 256 -> f z = true.
Proof.
  rewrite forallb_forall. intros Hf z Hz. rewrite <- (Z2Nat.id z) by lia.
  apply Hf, in_seq. lia.
Qed.

(** Eight steps on a low byte shift it up; on a high byte they give the
    table's entry. *)
Lemma crc_bits_low l : 0 <= l < 256 -> crc_bits 8 l = Z.shiftl l 8.
Proof.
  intros Hl. apply Z.eqb_eq. revert l Hl.
  apply (byte_forallb (fun l => crc_bits 8 l =? Z.shiftl l 8)). reflexivity.
Qed.

Lemma crc_bits_high h :
  0 <= h < 256 -> crc_bits 8 (Z.shiftl h 8) = default 0 (CRC16_TAB !! Z.to_nat h).
Proof.
  intros Hh. apply Z.eqb_eq. revert h Hh.
  apply (byte_forallb (fun h => crc_bits 8 (Z.shiftl h 8) =? default 0 (CRC16_TAB !! Z.to_nat h))).
  reflexivity.
Qed.

Lemma land_FF00 l : 0 <= l < 256 -> Z.land (Z.shiftl l 8) 0xFF00 = Z.shiftl l 8.
Proof.
  intros Hl. apply Z.eqb_eq. revert l Hl.
  apply (byte_forallb (fun l => Z.land (Z.shiftl l 8) 0xFF00 =? Z.shiftl l 8)). reflexivity.
Qed.

Lemma lxor_bound n a b :
  0 <= n -> 0 <= a < 2 ^ n -> 0 <= b < 2 ^ n -> 0 <= Z.lxor a b < 2 ^ n.
Proof.
  intros Hn Ha Hb.
  assert (H0 : 0 <= Z.lxor a b) by (apply Z.lxor_nonneg; lia).
  split; [done|]. destruct (decide (Z.lxor a b = 0)) as [->|Hne]; [lia|].
  apply Z.log2_lt_pow2; [lia|].
  pose proof (Z.log2_lxor a b ltac:(lia) ltac:(lia)) as Hl.
  assert (Hlog : forall x, 0 <= x < 2 ^ n -> n = 0 \/ Z.log2 x < n).
  { intros x Hx. destruct (decide (x = 0)) as [->|]; [simpl; lia|].
    right. apply Z.log2_lt_pow2; lia. }
  pose proof (Hlog a Ha). pose proof (Hlog b Hb).
  destruct (decide (n = 0)) as [->|]; [|lia].
  exfalso. apply Hne. change (2 ^ 0) with 1 in *.
  replace a with 0 by lia. replace b with 0 by lia. done.
Qed.

(** A word from its high and its low part. *)
Lemma lxor_parts n h l :
  0 <= n -> 0 <= l < 2 ^ n -> Z.lxor (Z.shiftl h n) l = h * 2 ^ n + l.
Proof.
  intros Hn Hl. rewrite <- Z.shiftl_mul_pow2 by lia.
  rewrite <- Z.add_nocarry_lxor; [done|].
  apply Z.bits_inj'. intros i Hi. rewrite Z.land_spec, Z.bits_0.
  destruct (Z.lt_ge_cases i n); [by rewrite Z.shiftl_spec_low|].
  destruct (decide (l = 0)) as [->|]; [by rewrite Z.bits_0, andb_false_r|].
  rewrite (Z.bits_above_log2 l i); [apply andb_false_r|lia|].
  pose proof (proj1 (Z.log2_lt_pow2 l n ltac:(lia)) ltac:(lia)). lia.
Qed.

Lemma lxor_bytes h l : 0 <= l < 256 -> Z.lxor (Z.shiftl h 8) l = h * 256 + l.
Proof. intros Hl. by rewrite lxor_parts. Qed.

(** One step of the table is eight steps of the register. *)
Lemma crc16_step_ref crc b :
  0 <= crc < 65536 -> crc16_step crc b = crc_bits 8 (Z.lxor crc (Z.shiftl (bZ b) 8)).
Proof.
  intros Hc. pose proof (bZ_range b) as Hb.
  pose proof (Z.mod_pos_bound crc 256 ltac:(lia)) as Hl.
  pose proof (Z.div_mod crc 256 ltac:(lia)) as Hdm.
  assert (Hh : 0 <= crc / 256 < 256)
    by (split; [apply Z.div_pos; lia|apply Z.div_lt_upper_bound; lia]).
  assert (Hx : 0 <= Z.lxor (crc / 256) (bZ b) < 256) by (apply (lxor_bound 8); lia).
  unfold crc16_step.
  replace (Z.shiftr crc 8) with (crc / 256) by (rewrite Z.shiftr_div_pow2; [done|lia]).
  change 0x00FF with (Z.ones 8). rewrite (Z.land_ones (Z.lxor _ _)), (Z.mod_small (Z.lxor _ _)) by lia.
  assert (Hlow : Z.land (wrap_u16 (Z.shiftl crc 8)) 0xFF00 = Z.shiftl (crc mod 256) 8).
  { rewrite <- (land_FF00 (crc mod 256)) by lia. f_equal. unfold wrap_u16.
    rewrite !Z.shiftl_mul_pow2 by lia. change (2 ^ 8) with 256.
    rewrite Hdm at 1. symmetry. apply Z.mod_unique_pos with (crc / 256); lia. }
  rewrite Hlow.
  replace (Z.lxor crc (Z.shiftl (bZ b) 8))
    with (Z.lxor (Z.shiftl (Z.lxor (crc / 256) (bZ b)) 8) (crc mod 256)).
  - rewrite crc_bits_lxor, crc_bits_high, crc_bits_low by lia. apply Z.lxor_comm.
  - rewrite Z.shiftl_lxor. rewrite (Z.lxor_comm (Z.shiftl (crc / 256) 8)), Z.lxor_assoc.
    rewrite (lxor_bytes (crc / 256)) by lia. rewrite (Z.lxor_comm crc). f_equal. lia.
Qed.

Lemma crc_bit_bound crc : 0 <= crc_bit crc < 65536.
Proof.
  assert (Hs : 0 <= Z.land (Z.shiftl crc 1) 0xFFFF < 65536).
  { change 0xFFFF with (Z.ones 16). rewrite Z.land_ones by lia. apply Z.mod_pos_bound. lia. }
  unfold crc_bit. destruct (Z.testbit crc 15); [|done].
  apply (lxor_bound 16); [lia|done|]. unfold GEN. lia.
Qed.

Lemma crc16_fold_bound s crc :
  0 <= crc < 65536 -> 0 <= fold_left crc16_step s crc < 65536.
Proof.
  revert crc. induction s as [|b s IH]; intros crc Hc; cbn [fold_left]; [done|].
  apply IH. rewrite crc16_step_ref by done. apply crc_bit_bound.
Qed.

Lemma crc16_fold_ref s crc :
  0 <= crc < 65536 ->
  fold_left crc16_step s crc
  = fold_left (fun crc b => crc_bits 8 (Z.lxor crc (Z.shiftl (bZ b) 8))) s crc.
Proof.
  revert crc. induction s as [|b s IH]; intros crc Hc; cbn [fold_left]; [done|].
  rewrite crc16_step_ref by done. apply IH. apply crc_bit_bound.
Qed.

(** ** The remainder of a polynomial division

    A non-negative integer is a polynomial over the field of two elements,
    bit [i] the coefficient of x^i: [Z.lxor] adds, [Z.shiftl _ 1] multiplies
    by x.  [multiple] is the ideal of the generator. *)

Definition GENERATOR : Z := 0x11021.

Inductive multiple : Z -> Prop :=
| multiple_0 : multiple 0
| multiple_shift z : multiple z -> multiple (Z.shiftl z 1)
| multiple_add z : multiple z -> multiple (Z.lxor z GENERATOR).

(** The message as a polynomial, first byte highest. *)
Definition message (s : bytes) : Z := fold_left (fun m b => Z.lxor (Z.shiftl m 8) (bZ b)) s 0.

Lemma multiple_lxor a b : multiple a -> multiple b -> multiple (Z.lxor a b).
Proof.
  intros Ha. revert b. induction Ha as [|a Ha IH|a Ha IH]; intros b Hb.
  - by rewrite Z.lxor_0_l.
  - induction Hb as [|b Hb _|b Hb IHb].
    + rewrite Z.lxor_0_r. by constructor.
    + rewrite <- Z.shiftl_lxor. constructor. by apply IH.
    + rewrite <- Z.lxor_assoc. by constructor.
  - rewrite Z.lxor_assoc, (Z.lxor_comm GENERATOR), <- Z.lxor_assoc. constructor. by apply IH.
Qed.

Lemma multiple_shiftl n z : multiple z -> multiple (Z.shiftl z (Z.of_nat n)).
Proof.
  intros Hz. induction n as [|n IH]; [by rewrite Z.shiftl_0_r|].
  rewrite Nat2Z.inj_succ, <- Z.add_1_r, <- Z.shiftl_shiftl by lia. by constructor.
Qed.

(** A step of the register multiplies by x, up to the generator. *)
Lemma crc_bit_multiple c :
  0 <= c < 65536 -> multiple (Z.lxor (Z.shiftl c 1) (crc_bit c)).
Proof.
  intros Hc. unfold crc_bit.
  assert (Hs : Z.land (Z.shiftl c 1) 0xFFFF
    = Z.lxor (Z.shiftl c 1) (if Z.testbit c 15 then 65536 else 0)).
  { change 0xFFFF with (Z.ones 16). rewrite Z.land_ones, Z.shiftl_mul_pow2 by lia.
    rewrite Z.testbit_eqb by lia. change (2 ^ 16) with 65536. change (2 ^ 15) with 32768.
    pose proof (Z.div_mod c 32768 ltac:(lia)) as Hd.
    pose proof (Z.mod_pos_bound c 32768 ltac:(lia)) as Hm.
    assert (Hq : c / 32768 = 0 \/ c / 32768 = 1).
    { assert (0 <= c / 32768) by (apply Z.div_pos; lia).
      assert (c / 32768 < 2) by (apply Z.div_lt_upper_bound; lia). lia. }
    destruct Hq as [Hq|Hq]; rewrite Hq in *; cbn [Z.modulo Z.eqb].
    - change (0 mod 2 =? 1) with false. cbn. rewrite Z.lxor_0_r, Z.mod_small; lia.
    - change (1 mod 2 =? 1) with true. cbv iota.
      assert (Hd2 : c * 2 ^ 1 = Z.lxor 65536 (2 * (c mod 32768))).
      { change 65536 with (Z.shiftl 1 16). rewrite lxor_parts by lia. lia. }
      rewrite Hd2 at 2. rewrite Z.lxor_comm, <- Z.lxor_assoc, Z.lxor_nilpotent, Z.lxor_0_l.
      symmetry. apply Z.mod_unique_pos with 1; lia. }
  rewrite Hs. destruct (Z.testbit c 15).
  - rewrite <- !Z.lxor_assoc, Z.lxor_nilpotent, Z.lxor_0_l.
    change (Z.lxor 65536 GEN) with (Z.lxor 0 GENERATOR). do 2 constructor.
  - rewrite Z.lxor_0_r, Z.lxor_nilpotent. constructor.
Qed.

Lemma crc_bits_multiple n c :
  0 <= c < 65536 -> multiple (Z.lxor (Z.shiftl c (Z.of_nat n)) (crc_bits n c)).
Proof.
  intros Hc. assert (Hb : forall n, 0 <= crc_bits n c < 65536).
  { intros [|m]; [done|]. apply crc_bit_bound. }
  induction n as [|n IH]; [rewrite Z.shiftl_0_r, Z.lxor_nilpotent; constructor|].
  cbn [crc_bits]. rewrite Nat2Z.inj_succ, <- Z.add_1_r, <- Z.shiftl_shiftl by lia.
  pose proof (crc_bit_multiple _ (Hb n)) as H1. apply multiple_shift in IH.
  rewrite Z.shiftl_lxor in IH. pose proof (multiple_lxor _ _ IH H1) as H2.
  by rewrite <- Z.lxor_assoc, (Z.lxor_assoc _ _ (Z.shiftl (crc_bits n c) 1)),
    Z.lxor_nilpotent, Z.lxor_0_r in H2.
Qed.

Lemma crc16_remainder_fold s m c :
  0 <= c < 65536 -> multiple (Z.lxor (Z.shiftl m 16) c) ->
  multiple (Z.lxor (Z.shiftl (fold_left (fun m b => Z.lxor (Z.shiftl m 8) (bZ b)) s m) 16)
    (fold_left crc16_step s c)).
Proof.
  revert m c. induction s as [|b s IH]; intros m c Hc Hm; cbn [fold_left]; [done|].
  rewrite crc16_step_ref by done. apply IH; [apply crc_bit_bound|].
  assert (Hb : 0 <= Z.shiftl (bZ b) 8 < 65536).
  { pose proof (bZ_range b). rewrite Z.shiftl_mul_pow2 by lia. change (2 ^ 8) with 256. lia. }
  set (x := Z.lxor c (Z.shiftl (bZ b) 8)).
  pose proof (crc_bits_multiple 8 x (lxor_bound 16 _ _ ltac:(lia) Hc Hb)) as H8.
  apply (multiple_shiftl 8) in Hm. change (Z.of_nat 8) with 8 in *.
  pose proof (multiple_lxor _ _ Hm H8) as H. unfold x in H.
  rewrite !Z.shiftl_lxor in *. rewrite !Z.shiftl_shiftl in H by lia. rewrite Z.shiftl_shiftl by lia.
  change (16 + 8) with 24 in H. change (8 + 8) with 16 in *. change (8 + 16) with 24.
  replace (Z.lxor (Z.lxor (Z.shiftl m 24) (Z.shiftl (bZ b) 16)) (crc_bits 8 x))
    with (Z.lxor (Z.lxor (Z.shiftl m 24) (Z.shiftl c 8))
      (Z.lxor (Z.lxor (Z.shiftl c 8) (Z.shiftl (bZ b) 16)) (crc_bits 8 x))); [exact H|].
  apply Z.bits_inj'. intros i Hi. rewrite !Z.lxor_spec.
  by destruct (Z.testbit (Z.shiftl m 24) i), (Z.testbit (Z.shiftl c 8) i),
    (Z.testbit (Z.shiftl (bZ b) 16) i), (Z.testbit (crc_bits 8 x) i).
Qed.

(** ** Hashtags *)

Lemma position_byte_None c s : c ∉ s -> Forall (fun b => Byte.eqb b c = false) s.
Proof.
  intros Hc. apply Forall_forall. intros x Hx. destruct (Byte.eqb x c) eqn:E; [|done].
  bool_to_prop. by subst.
Qed.

Lemma position_byte_app c s t :
  c ∉ s -> Str.position (fun b => Byte.eqb b c) (s ++ c :: t) = Some (length s).
Proof.
  intros Hc. rewrite Str.position_app by by apply position_byte_None.
  cbn [Str.position]. rewrite byte_eqb_refl. cbn. by rewrite Nat.add_0_r.
Qed.

(** The first occurrence of a byte splits a string. *)
Lemma position_byte_Some c s i :
  Str.position (fun b => Byte.eqb b c) s = Some i ->
  s = take i s ++ c :: drop (S i) s /\ c ∉ take i s.
Proof.
  rewrite Str.position_Some. intros (b & Hb & Heq & Hall). bool_to_prop. subst b. split.
  - symmetry. by apply take_drop_middle.
  - intros (j & Hj)%list_elem_of_lookup. apply lookup_take_Some in Hj as [Hj Hlt].
    specialize (Hall j c Hlt Hj). by rewrite byte_eqb_refl in Hall.
Qed.

(** The key has the non-empty hashtag [tag]. *)
Definition has_tag (key tag : bytes) : Prop :=
  tag <> [] /\ exists pre suf, key = pre ++ ("{"%byte :: tag ++ ("}"%byte :: suf))
    /\ ("{"%byte ∉ pre) /\ ("}"%byte ∉ tag).

Lemma extract_hashtag_tag key tag : has_tag key tag -> extract_hashtag key = tag.
Proof.
  intros (Hne & pre & suf & -> & Hpre & Htag). unfold extract_hashtag.
  rewrite position_byte_app by done.
  replace (drop (length pre + 1) (pre ++ "{"%byte :: tag ++ "}"%byte :: suf))
    with (tag ++ "}"%byte :: suf).
  2: { change ("{"%byte :: tag ++ "}"%byte :: suf) with (["{"%byte] ++ (tag ++ "}"%byte :: suf)).
       rewrite (app_assoc pre). symmetry. apply drop_length_app. by rewrite length_app. }
  rewrite position_byte_app by done.
  destruct (Nat.ltb_spec (length pre + 1) (length pre + 1 + length tag)) as [_|Hlt].
  - apply take_length_app. lia.
  - destruct tag; [done|simpl in Hlt; lia].
Qed.

Lemma first_byte_unique (c : byte) s s' t t' :
  c ∉ s -> c ∉ s' -> s ++ c :: t = s' ++ c :: t' -> s = s' /\ t = t'.
Proof.
  intros Hs Hs' E. pose proof (position_byte_app c s t Hs) as Hp.
  rewrite E, position_byte_app in Hp by done. injection Hp as Hl.
  apply app_inj_1 in E as [-> [= ->]]; done.
Qed.

(** Outside of [has_tag] the whole key is hashed. *)
Lemma extract_hashtag_cases key :
  has_tag key (extract_hashtag key)
  \/ extract_hashtag key = key /\ forall tag, ~ has_tag key tag.
Proof.
  unfold extract_hashtag.
  destruct (Str.position _ key) as [start|] eqn:Es.
  - apply position_byte_Some in Es as [Ek Hpre].
    rewrite Nat.add_1_r. set (rest := drop (S start) key) in *. set (pre := take start key) in *.
    destruct (Str.position _ rest) as [e|] eqn:Ee.
    + apply position_byte_Some in Ee as [Er Htag].
      destruct (Nat.ltb_spec (S start) (S start + e)) as [Hlt|Hge].
      * left. replace (S start + e - S start)%nat with e by lia. split.
        -- intros Hnil. apply (f_equal length) in Hnil. rewrite length_take in Hnil.
           apply (f_equal length) in Er. rewrite length_app, length_take in Er. simpl in *. lia.
        -- exists pre, (drop (S e) rest). split_and!; [|done|done]. by rewrite <- Er.
      * right. split; [done|]. intros tag (Hne & pre' & suf & E & Hpre' & Ht).
        rewrite Ek in E. apply first_byte_unique in E as [_ E]; [|done..].
        assert (e = 0%nat) as -> by lia. rewrite Er in E.
        apply (first_byte_unique _ [] tag) in E as [Hnil _]; [congruence| |done]. by apply not_elem_of_nil.
    + right. split; [done|]. intros tag (Hne & pre' & suf & E & Hpre' & Ht).
      rewrite Ek in E. apply first_byte_unique in E as [_ E]; [|done..].
      rewrite E, position_byte_app in Ee by done. done.
  - right. split; [done|]. intros tag (Hne & pre' & suf & E & Hpre' & Ht).
    rewrite E, position_byte_app in Es by done. done.
Qed.

(** ** The theorems *)

(** C34: the table-driven checksum is the bit-serial CRC-16/XMODEM register
    with generator 0x1021 and initial value zero, on every message. *)
Theorem crc16_equiv_register s : crc16 s = crc16_ref s.
Proof. by apply crc16_fold_ref. Qed.

(** C35: the checksum is the remainder of the division of the message times
    x^16 by the generator polynomial x^16 + x^12 + x^5 + 1: it has degree
    below 16 and differs from the dividend by a multiple of the generator. *)
Theorem crc16_is_remainder s :
  0 <= crc16 s < 2 ^ 16 /\ multiple (Z.lxor (Z.shiftl (message s) 16) (crc16 s)).
Proof.
  split; [by apply crc16_fold_bound|]. apply crc16_remainder_fold; [done|]. constructor.
Qed.

(** The slot of a key is one of the 16384 slots, for every key, and it is
    the checksum of its hashtag modulo 16384. *)
Theorem key_slot_in_range key :
  0 <= key_slot key < HASH_SLOTS /\ key_slot key = crc16 (extract_hashtag key) mod HASH_SLOTS.
Proof.
  unfold key_slot, HASH_SLOTS. change (16384 - 1) with (Z.ones 14).
  rewrite Z.land_ones by lia. split; [apply Z.mod_pos_bound; lia|done].
Qed.

(** C36: the hashtag rule.  A key holding a non-empty tag between its first
    opening brace and the next closing brace is hashed by that tag alone, so
    it shares the slot of the tag and of every key with the same tag; any
    other key is hashed whole. *)
Theorem hashtag_colocation key :
  (forall tag, has_tag key tag -> key_slot key = key_slot tag)
  /\ ((forall tag, ~ has_tag key tag) -> extract_hashtag key = key).
Proof.
  split.
  - intros tag Htag. unfold key_slot. rewrite (extract_hashtag_tag _ _ Htag).
    destruct (extract_hashtag_cases tag) as [(_ & pre & suf & E & _ & Hin)|[-> _]]; [|done].
    destruct Htag as (_ & _ & _ & _ & _ & Hno). exfalso. apply Hno. rewrite E. set_solver.
  - intros Hno. destruct (extract_hashtag_cases key) as [Ht|[? _]]; [by destruct (Hno _ Ht)|done].
Qed.

End Slot.
