(* ===== verification/Storage.v ===== *)
(** * Storage: src/storage/entry.rs and src/storage/db.rs

    The sharded key-value store with expiry, memory accounting and LRU
    eviction.  A [HashMap] is a [gmap]; the order in which it iterates is
    not specified by the standard library and is an argument [ord] of the
    operations that iterate.  [Instant::now()] readings are arguments too,
    one per call of the source.  The regions of [get], [set] and
    [purge_expired_sample] that run under one lock are definitions of their
    own, which [StorageConc] interleaves. *)

From S2P Require Import Prelude.

Module Storage.

(** ** entry.rs *)

Record Entry : Type := {
  value : bytes;
  expires_at : option Z;
  last_accessed : Z;
  approx_size_bytes : Z;
}.

(** ** The state of db.rs *)

Abbreviation shard := (gmap bytes Entry).

Record Db : Type := {
  shards : list shard;
  shard_mask : Z;
  used_memory : Z;
  max_memory_bytes : Z;
}.

(** The order in which [shards[i].iter()] yields the entries. *)
Definition iter_order : Type := nat -> shard -> list (bytes * Entry).

Class IterOrder (ord : iter_order) : Prop :=
  iter_perm i m : ord i m ≡ₚ map_to_list m.

Section Storage.
Context `{Platform}.

(** ** The operations of entry.rs *)

(** [Entry::new]; [now] is its reading of the clock. *)
Definition Entry_new (key_len : nat) (v : bytes) (exp : option Z) (now : Z) : Entry := {|
  value := v;
  expires_at := exp;
  last_accessed := now;
  approx_size_bytes := Z.of_nat key_len + Z.of_nat (length v) + sizeof_Entry;
|}.

Definition is_expired (e : Entry) (now : Z) : bool :=
  match expires_at e with
  | Some exp => exp <=? now
  | None => false
  end.

Definition touch (e : Entry) (now : Z) : Entry := {|
  value := value e;
  expires_at := expires_at e;
  last_accessed := now;
  approx_size_bytes := approx_size_bytes e;
|}.

(** ** The operations of db.rs *)

Definition with_config (shard_count max_memory : Z) : outcome Db :=
  count ← next_power_of_two (Z.max shard_count 1);
  _ ← vec_with_capacity sizeof_Shard count;
  mask ← sub_usize count 1;
  Ret {|
    shards := replicate (Z.to_nat count) ∅;
    shard_mask := mask;
    used_memory := 0;
    max_memory_bytes := max_memory;
  |}.

(** [Db::new]. *)
Definition Db_new : outcome Db := with_config 128 0.

Definition shard_index (db : Db) (key : bytes) : nat :=
  Z.to_nat (Z.land (hash_str key) (shard_mask db)).

(** [fetch_add] and [fetch_sub] on the counter wrap. *)
Definition fetch_add (n : Z) (db : Db) : Db := {|
  shards := shards db;
  shard_mask := shard_mask db;
  used_memory := wrap_usize (used_memory db + n);
  max_memory_bytes := max_memory_bytes db;
|}.

Definition fetch_sub (n : Z) (db : Db) : Db := fetch_add (- n) db.

(** Writes the shard [i] back. *)
Definition put_shard (i : nat) (m : shard) (db : Db) : Db := {|
  shards := <[i := m]> (shards db);
  shard_mask := shard_mask db;
  used_memory := used_memory db;
  max_memory_bytes := max_memory_bytes db;
|}.

(** The first locked region of [get]: a live entry is touched and returned;
    [inr] tells that the key is there but expired. *)
Definition get_lookup (db : Db) (key : bytes) (t1 t2 : Z)
    : outcome ((option bytes + unit) * Db) :=
  let idx := shard_index db key in
  shard ← index (shards db) idx;
  match shard !! key with
  | Some entry =>
      if negb (is_expired entry t1)
      then Ret (inl (Some (value entry)), put_shard idx (<[key := touch entry t2]> shard) db)
      else Ret (inr tt, db)
  | None => Ret (inl None, db)
  end.

(** The second locked region: lazy cleanup of an expired key. *)
Definition get_cleanup (db : Db) (key : bytes) (t : Z) : outcome Db :=
  let idx := shard_index db key in
  shard ← index (shards db) idx;
  match shard !! key with
  | Some entry =>
      if is_expired entry t
      then Ret (fetch_sub (approx_size_bytes entry) (put_shard idx (delete key shard) db))
      else Ret db
  | None => Ret db
  end.

(** [Db::get]; [t1] and [t2] are its two readings of the clock. *)
Definition get (db : Db) (key : bytes) (t1 t2 : Z) : outcome (option bytes * Db) :=
  r ← get_lookup db key t1 t2;
  match r with
  | (inl res, db1) => Ret (res, db1)
  | (inr tt, db1) => db2 ← get_cleanup db1 key t2; Ret (None, db2)
  end.

(** The search of [ensure_memory_capacity]: the least recently accessed of
    the first five entries of each shard, the earliest found on a tie. *)
Definition older (oldest : option (nat * bytes * Z)) (idx : nat) (ke : bytes * Entry)
    : option (nat * bytes * Z) :=
  let '(k, entry) := ke in
  match oldest with
  | Some (_, _, ts) =>
      if last_accessed entry <? ts then Some (idx, k, last_accessed entry) else oldest
  | None => Some (idx, k, last_accessed entry)
  end.

Definition scan_shard (ord : iter_order) (oldest : option (nat * bytes * Z)) (im : nat * shard)
    : option (nat * bytes * Z) :=
  let '(idx, m) := im in
  fold_left (fun o ke => older o idx ke) (take 5 (ord idx m)) oldest.

Definition find_oldest (ord : iter_order) (db : Db) : option (nat * bytes * Z) :=
  fold_left (scan_shard ord) (zip (seq 0 (length (shards db))) (shards db)) None.

(** The [while] loop of [ensure_memory_capacity]. *)
Fixpoint evict_loop (fuel : nat) (ord : iter_order) (db : Db) : outcome Db :=
  if max_memory_bytes db <=? used_memory db then
    match fuel with
    | O => NoFuel
    | S f =>
        match find_oldest ord db with
        | Some (idx, key, _) =>
            shard ← index (shards db) idx;
            match shard !! key with
            | Some removed =>
                evict_loop f ord
                  (fetch_sub (approx_size_bytes removed) (put_shard idx (delete key shard) db))
            | None => Ret db
            end
        | None => Ret db
        end
    end
  else Ret db.

(** The number of entries, which bounds the loop. *)
Definition entry_count (db : Db) : nat := sum_list_with size (shards db).

Definition ensure_memory_capacity (ord : iter_order) (db : Db) : outcome Db :=
  evict_loop (S (entry_count db)) ord db.

(** The locked region of [set]. *)
Definition set_insert (db : Db) (key v : bytes) (exp : option Z) (now : Z) : outcome Db :=
  let new_entry := Entry_new (length key) v exp now in
  let new_size := approx_size_bytes new_entry in
  let idx := shard_index db key in
  shard ← index (shards db) idx;
  let db1 := put_shard idx (<[key := new_entry]> shard) db in
  let db2 := match shard !! key with
             | Some old => fetch_sub (approx_size_bytes old) db1
             | None => db1
             end in
  Ret (fetch_add new_size db2).

(** [Db::set]. *)
Definition set_ (ord : iter_order) (db : Db) (key v : bytes) (exp : option Z) (now : Z) : outcome Db :=
  db1 ← (if 0 <? max_memory_bytes db then ensure_memory_capacity ord db else Ret db);
  set_insert db1 key v exp now.

(** [Db::del]. *)
Definition del (db : Db) (key : bytes) : outcome (bool * Db) :=
  let idx := shard_index db key in
  shard ← index (shards db) idx;
  match shard !! key with
  | Some entry => Ret (true, fetch_sub (approx_size_bytes entry) (put_shard idx (delete key shard) db))
  | None => Ret (false, db)
  end.

(** [Db::exists]. *)
Definition exists_ (db : Db) (key : bytes) (t1 t2 : Z) : outcome (bool * Db) :=
  '(r, db1) ← get db key t1 t2;
  Ret (bool_decide (is_Some r), db1).

(** [expires_at.map_or(true, |exp| exp > now)]. *)
Definition live (now : Z) (e : Entry) : bool :=
  match expires_at e with
  | Some exp => now <? exp
  | None => true
  end.

(** The keys of one shard, read under its lock. *)
Definition live_keys (ord : iter_order) (now : Z) (i : nat) (m : shard) : list bytes :=
  fst <$> filter (fun ke => live now (snd ke) = true) (ord i m).

(** [Db::keys]. *)
Definition keys (ord : iter_order) (db : Db) (now : Z) : list bytes :=
  concat (imap (live_keys ord now) (shards db)).

Definition memory_used (db : Db) : Z := used_memory db.

(** The read-locked region of [purge_expired_sample] on one shard: the
    expired keys of the sample with their sizes. *)
Definition purge_collect (ord : iter_order) (i : nat) (m : shard) (sample : nat) (now : Z)
    : list (bytes * Z) :=
  omap (fun '(k, entry) =>
    if match expires_at entry with Some exp => exp <=? now | None => false end
    then Some (k, approx_size_bytes entry) else None)
    (take sample (ord i m)).

(** The write-locked region: the collected keys are removed if present. *)
Definition purge_key (i : nat) (acc : outcome (nat * Db)) (ks : bytes * Z) : outcome (nat * Db) :=
  '(purged, db) ← acc;
  let '(k, size) := ks in
  shard ← index (shards db) i;
  match shard !! k with
  | Some _ => Ret (S purged, fetch_sub size (put_shard i (delete k shard) db))
  | None => Ret (purged, db)
  end.

Definition purge_remove (i : nat) (keys_to_remove : list (bytes * Z)) (acc : nat * Db)
    : outcome (nat * Db) :=
  fold_left (purge_key i) keys_to_remove (Ret acc).

(** One shard of the loop, both regions run without interruption. *)
Definition purge_shard (ord : iter_order) (sample : nat) (now : Z)
    (acc : outcome (nat * Db)) (i : nat) : outcome (nat * Db) :=
  '(purged, db) ← acc;
  m ← index (shards db) i;
  purge_remove i (purge_collect ord i m sample now) (purged, db).

(** [Db::purge_expired_sample]. *)
Definition purge_expired_sample (ord : iter_order) (db : Db) (sample : nat) (now : Z)
    : outcome (nat * Db) :=
  fold_left (purge_shard ord sample now) (seq 0 (length (shards db))) (Ret (0%nat, db)).

End Storage.
End Storage.
