(* ===== verification/StorageTheory.v ===== *)
(** * The store refines a map with expiry

    [content db] is the map the sharded store represents.  Under the
    invariant [inv] (every key in the shard its hash selects, the counter
    equal to the sum of the entries' sizes) each operation returns, keeps
    [inv], and acts on [content] as its specification says. *)

From S2P Require Import Prelude Storage.
Import Storage.

Section Theory.
Context `{Platform}.

(** ** Sizes *)

Definition add_size (_ : bytes) (e : Entry) (acc : Z) : Z := approx_size_bytes e + acc.

Definition shard_size (m : shard) : Z := map_fold add_size 0 m.

Definition total_size (db : Db) : Z := foldr (fun m acc => shard_size m + acc) 0 (shards db).

Lemma shard_size_empty : shard_size ∅ = 0.
Proof. apply map_fold_empty. Qed.

Lemma shard_size_insert m k e :
  m !! k = None -> shard_size (<[k := e]> m) = approx_size_bytes e + shard_size m.
Proof.
  intros Hk. apply (map_fold_insert_L add_size 0 k e m); [|done]. unfold add_size. intros; lia.
Qed.

Lemma shard_size_delete m k e :
  m !! k = Some e -> shard_size m = approx_size_bytes e + shard_size (delete k m).
Proof.
  intros Hk. apply (map_fold_delete_L add_size 0 k e m); [|done]. unfold add_size. intros; lia.
Qed.

Lemma foldr_update (l : list shard) i m m' :
  l !! i = Some m ->
  foldr (fun m acc => shard_size m + acc) 0 (<[i := m']> l)
  = foldr (fun m acc => shard_size m + acc) 0 l - shard_size m + shard_size m'.
Proof.
  revert i. induction l as [|x l IH]; intros [|i]; simpl; try done.
  - intros [= ->]. lia.
  - intros Hi. rewrite (IH _ Hi). lia.
Qed.

Lemma total_size_put_shard db i m m' :
  shards db !! i = Some m ->
  total_size (put_shard i m' db) = total_size db - shard_size m + shard_size m'.
Proof. apply foldr_update. Qed.

Lemma wrap_usize_add a b : wrap_usize (wrap_usize a + b) = wrap_usize (a + b).
Proof. unfold wrap_usize. rewrite Z.add_mod_idemp_l; [done|lia]. Qed.

(** ** The invariant *)

(** Every key is in the shard its hash selects, with the size of its entry. *)
Record placed (db : Db) : Prop := {
  pl_mask : exists k, 0 <= k /\ Z.of_nat (length (shards db)) = 2 ^ k /\ shard_mask db = 2 ^ k - 1;
  pl_home i m k : shards db !! i = Some m -> is_Some (m !! k) -> shard_index db k = i;
  pl_size i m k e : shards db !! i = Some m -> m !! k = Some e ->
    approx_size_bytes e = Z.of_nat (length k) + Z.of_nat (length (value e)) + sizeof_Entry;
}.

(** And the counter is the total size, in the counter's width. *)
Record inv (db : Db) : Prop := {
  inv_placed : placed db;
  inv_used : used_memory db = wrap_usize (total_size db);
}.

Lemma inv_home db : inv db -> forall i m k,
  shards db !! i = Some m -> is_Some (m !! k) -> shard_index db k = i.
Proof. intros [Hp _]. apply (pl_home db Hp). Qed.

Lemma inv_size db : inv db -> forall i m k e, shards db !! i = Some m -> m !! k = Some e ->
  approx_size_bytes e = Z.of_nat (length k) + Z.of_nat (length (value e)) + sizeof_Entry.
Proof. intros [Hp _]. apply (pl_size db Hp). Qed.

Definition content (db : Db) : shard := ⋃ (shards db).

Lemma placed_index db k : placed db -> (shard_index db k < length (shards db))%nat.
Proof.
  intros [(n & Hn & Hl & Hm) _ _]. unfold shard_index. rewrite Hm.
  replace (2 ^ n - 1) with (Z.ones n) by (rewrite Z.ones_equiv; lia).
  rewrite Z.land_ones by done.
  pose proof (Z.mod_pos_bound (hash_str k) (2 ^ n) ltac:(lia)). lia.
Qed.

Lemma shard_index_bound db k : inv db -> (shard_index db k < length (shards db))%nat.
Proof. intros [Hp _]. by apply placed_index. Qed.

Lemma home_shard db k : inv db -> exists m, shards db !! shard_index db k = Some m.
Proof. intros Hi. apply lookup_lt_is_Some. by apply shard_index_bound. Qed.

Lemma union_list_lookup (l : list shard) (k : bytes) j :
  (forall i m, l !! i = Some m -> is_Some (m !! k) -> i = j) ->
  (⋃ l : shard) !! k = l !! j ≫= (fun m => m !! k).
Proof.
  revert j. induction l as [|m l IH]; intros j Hl; cbn; [by rewrite lookup_empty|].
  rewrite lookup_union. destruct (m !! k) as [e|] eqn:Em.
  - pose proof (Hl 0%nat m eq_refl (mk_is_Some _ _ Em)) as <-. cbn. rewrite Em.
    apply union_Some_l.
  - rewrite (left_id_L None _). destruct j as [|j].
    + cbn. rewrite Em. rewrite (IH (length l)), (lookup_ge_None_2 l); [done|lia|].
      intros i m' Hi Hs. pose proof (Hl (S i) m' Hi Hs). lia.
    + cbn. apply IH. intros i m' Hi Hs. pose proof (Hl (S i) m' Hi Hs). lia.
Qed.

Lemma content_lookup_placed db k m :
  placed db -> shards db !! shard_index db k = Some m -> content db !! k = m !! k.
Proof.
  intros Hp Hm. unfold content. rewrite (union_list_lookup _ k (shard_index db k)).
  - by rewrite Hm.
  - intros i m' Hi' Hs. symmetry. by apply (pl_home db Hp _ m').
Qed.

Lemma content_lookup db k m :
  inv db -> shards db !! shard_index db k = Some m -> content db !! k = m !! k.
Proof. intros [Hp _]. by apply content_lookup_placed. Qed.

Lemma lookup_home db k i m :
  inv db -> shards db !! i = Some m -> is_Some (m !! k) -> content db !! k = m !! k.
Proof.
  intros Hi Hm Hs. pose proof (inv_home db Hi _ _ _ Hm Hs) as <-. by apply content_lookup.
Qed.

Lemma content_lookup_inv db k e :
  inv db -> content db !! k = Some e ->
  exists m, shards db !! shard_index db k = Some m /\ m !! k = Some e.
Proof.
  intros Hi Hk. destruct (home_shard db k Hi) as [m Hm]. exists m. split; [done|].
  by rewrite <- (content_lookup db k m Hi Hm).
Qed.

(** ** Writing one shard *)

(** Replacing the entry of one key in its home shard, with the counter moved
    by [delta]. *)
Definition write (db : Db) (k : bytes) (m' : shard) (delta : Z) : Db :=
  fetch_add delta (put_shard (shard_index db k) m' db).

Lemma shard_index_fetch_add n db k : shard_index (fetch_add n db) k = shard_index db k.
Proof. done. Qed.

Lemma shard_index_put i m db k : shard_index (put_shard i m db) k = shard_index db k.
Proof. done. Qed.

Lemma write_placed db k m m' delta :
  placed db -> shards db !! shard_index db k = Some m ->
  (forall k', k' <> k -> m' !! k' = m !! k') ->
  (forall e, m' !! k = Some e ->
    approx_size_bytes e = Z.of_nat (length k) + Z.of_nat (length (value e)) + sizeof_Entry) ->
  placed (write db k m' delta).
Proof.
  intros Hp Hm Hother Hsize. pose proof (placed_index db k Hp) as Hlt. constructor.
  - destruct (pl_mask db Hp) as (n & Hn & Hl & Hmask). exists n. cbn. by rewrite length_insert.
  - intros i m1 k1 Hm1 [e1 He1]. change (shard_index db k1 = i). cbn in Hm1.
    apply list_lookup_insert_Some in Hm1 as [(<- & <- & _)|[Hne Hm1]].
    + destruct (decide (k1 = k)) as [->|Hk]; [done|].
      rewrite Hother in He1 by done. by eapply pl_home.
    + by eapply pl_home.
  - intros i m1 k1 e1 Hm1 He1. cbn in Hm1.
    apply list_lookup_insert_Some in Hm1 as [(<- & <- & _)|[Hne Hm1]].
    + destruct (decide (k1 = k)) as [->|Hk]; [by apply Hsize|].
      rewrite Hother in He1 by done. by eapply (pl_size db Hp).
    + by eapply (pl_size db Hp).
Qed.

Lemma write_inv db k m m' delta :
  inv db -> shards db !! shard_index db k = Some m ->
  (forall k', k' <> k -> m' !! k' = m !! k') ->
  (forall e, m' !! k = Some e ->
    approx_size_bytes e = Z.of_nat (length k) + Z.of_nat (length (value e)) + sizeof_Entry) ->
  delta = shard_size m' - shard_size m ->
  inv (write db k m' delta).
Proof.
  intros Hi Hm Hother Hsize ->. constructor.
  - by eapply write_placed; [apply inv_placed|..].
  - change (wrap_usize (used_memory db + (shard_size m' - shard_size m))
      = wrap_usize (total_size (put_shard (shard_index db k) m' db))).
    rewrite (inv_used db Hi), wrap_usize_add. f_equal.
    rewrite (total_size_put_shard db _ m m' Hm). lia.
Qed.

(** What a write of the home shard of [k] does to the map. *)
Lemma write_content_placed db k m m' delta :
  placed db -> placed (write db k m' delta) -> shards db !! shard_index db k = Some m ->
  (forall k', k' <> k -> m' !! k' = m !! k') ->
  forall k', content (write db k m' delta) !! k' = if decide (k' = k) then m' !! k else content db !! k'.
Proof.
  intros Hi Hi' Hm Hother k'.
  pose proof (placed_index db k Hi) as Hlt.
  destruct (lookup_lt_is_Some_2 _ _ (placed_index _ k' Hi')) as [m1 Hm1].
  rewrite (content_lookup_placed _ _ _ Hi' Hm1). change (shard_index (write db k m' delta) k')
    with (shard_index db k') in Hm1. cbn in Hm1.
  destruct (decide (k' = k)) as [->|Hne].
  - rewrite list_lookup_insert_eq in Hm1 by done. by injection Hm1 as <-.
  - apply list_lookup_insert_Some in Hm1 as [(Ei & <- & _)|[Hni Hm1]].
    + rewrite Hother by done. symmetry. apply content_lookup_placed; [done|]. by rewrite <- Ei.
    + symmetry. by apply content_lookup_placed.
Qed.

Lemma write_content db k m m' delta :
  inv db -> inv (write db k m' delta) -> shards db !! shard_index db k = Some m ->
  (forall k', k' <> k -> m' !! k' = m !! k') ->
  forall k', content (write db k m' delta) !! k' = if decide (k' = k) then m' !! k else content db !! k'.
Proof. intros [Hp _] [Hp' _]. by apply write_content_placed. Qed.

(** The three writes of the operations. *)
Lemma write_insert db k m e delta :
  inv db -> shards db !! shard_index db k = Some m ->
  approx_size_bytes e = Z.of_nat (length k) + Z.of_nat (length (value e)) + sizeof_Entry ->
  delta = approx_size_bytes e - from_option approx_size_bytes 0 (m !! k) ->
  inv (write db k (<[k := e]> m) delta)
  /\ content (write db k (<[k := e]> m) delta) = <[k := e]> (content db).
Proof.
  intros Hi Hm He ->.
  assert (Hsz : shard_size (<[k := e]> m)
    = shard_size m + approx_size_bytes e - from_option approx_size_bytes 0 (m !! k)).
  { destruct (m !! k) as [o|] eqn:Eo; cbn.
    - rewrite (shard_size_delete _ _ _ Eo), <- (insert_delete_eq m).
      rewrite shard_size_insert by apply lookup_delete_eq. lia.
    - rewrite shard_size_insert by done. lia. }
  assert (Hi' : inv (write db k (<[k := e]> m)
    (approx_size_bytes e - from_option approx_size_bytes 0 (m !! k)))).
  { eapply write_inv; [done|done|by intros; apply lookup_insert_ne| |lia].
    intros e'. rewrite lookup_insert_eq. by intros [= <-]. }
  split; [done|]. apply map_eq. intros k'.
  rewrite (write_content db k m _ _ Hi Hi' Hm) by (intros; by apply lookup_insert_ne).
  destruct (decide (k' = k)) as [->|Hne]; [by rewrite !lookup_insert_eq|by rewrite lookup_insert_ne].
Qed.

Lemma write_delete db k m e :
  inv db -> shards db !! shard_index db k = Some m -> m !! k = Some e ->
  inv (write db k (delete k m) (- approx_size_bytes e))
  /\ content (write db k (delete k m) (- approx_size_bytes e)) = delete k (content db).
Proof.
  intros Hi Hm He.
  assert (Hi' : inv (write db k (delete k m) (- approx_size_bytes e))).
  { eapply write_inv; [done|done|by intros; apply lookup_delete_ne| |].
    - intros e'. by rewrite lookup_delete_eq.
    - rewrite (shard_size_delete _ _ _ He). lia. }
  split; [done|]. apply map_eq. intros k'.
  rewrite (write_content db k m _ _ Hi Hi' Hm) by (intros; by apply lookup_delete_ne).
  destruct (decide (k' = k)) as [->|Hne]; [by rewrite !lookup_delete_eq|by rewrite lookup_delete_ne].
Qed.

(** ** The specification: a map with expiry *)

Definition spec_get (m : shard) (k : bytes) (t1 t2 : Z) : option bytes * shard :=
  match m !! k with
  | Some e =>
      if is_expired e t1 then (None, if is_expired e t2 then delete k m else m)
      else (Some (value e), <[k := touch e t2]> m)
  | None => (None, m)
  end.

Definition spec_set (m : shard) (k v : bytes) (exp : option Z) (now : Z) : shard :=
  <[k := Entry_new (length k) v exp now]> m.

Definition spec_del (m : shard) (k : bytes) : bool * shard :=
  (bool_decide (is_Some (m !! k)), delete k m).

(** The fields no operation changes. *)
Definition same_config (db db' : Db) : Prop :=
  shard_mask db' = shard_mask db /\ max_memory_bytes db' = max_memory_bytes db
  /\ length (shards db') = length (shards db).

#[local] Instance same_config_refl : Reflexive same_config.
Proof. by intros db. Qed.

#[local] Instance same_config_trans : Transitive same_config.
Proof. intros a b c (H1 & H2 & H3) (H4 & H5 & H6). split_and!; congruence. Qed.

Lemma write_config db k m' delta : same_config db (write db k m' delta).
Proof. split_and!; [done|done|]. cbn. by rewrite length_insert. Qed.

Lemma put_shard_write db k m' :
  inv db -> put_shard (shard_index db k) m' db = write db k m' 0.
Proof.
  intros Hi. unfold write, fetch_add, put_shard. cbn. f_equal.
  rewrite (inv_used db Hi), wrap_usize_add. by rewrite Z.add_0_r.
Qed.

(** The home shard of a key and its lookup, as the operations read it. *)
Lemma index_home db k :
  inv db -> exists m, index (shards db) (shard_index db k) = Ret m
    /\ shards db !! shard_index db k = Some m /\ content db !! k = m !! k.
Proof.
  intros Hi. destruct (home_shard db k Hi) as [m Hm]. exists m. unfold index. rewrite Hm.
  split_and!; [done|done|by apply content_lookup].
Qed.

Ltac open_home db k Hi m Hm Hc :=
  let Hix := fresh "Hix" in
  destruct (index_home db k Hi) as (m & Hix & Hm & Hc);
  rewrite Hix; cbn [mbind outcome_bind].

Lemma get_spec db k t1 t2 :
  inv db -> exists r db', get db k t1 t2 = Ret (r, db') /\ inv db' /\ same_config db db'
    /\ spec_get (content db) k t1 t2 = (r, content db').
Proof.
  intros Hi. unfold get, get_lookup, spec_get. open_home db k Hi m Hm Hc. rewrite Hc.
  destruct (m !! k) as [e|] eqn:He; [|by exists None, db].
  destruct (is_expired e t1) eqn:E1; cbn [negb mbind outcome_bind].
  - unfold get_cleanup. open_home db k Hi m' Hm' Hc'.
    rewrite Hm in Hm'. injection Hm' as <-. rewrite He.
    destruct (is_expired e t2) eqn:E2; cbn [mbind outcome_bind]; [|by exists None, db].
    destruct (write_delete db k m e Hi Hm He) as [Hi' Hcont].
    eexists None, _. split_and!; [reflexivity|done|apply write_config|by f_equal].
  - rewrite put_shard_write by done.
    destruct (write_insert db k m (touch e t2) 0 Hi Hm) as [Hi' Hcont].
    + by apply (inv_size db Hi (shard_index db k) m k e).
    + rewrite He. cbn. lia.
    + eexists (Some (value e)), _. split_and!; [reflexivity|done|apply write_config|by f_equal].
Qed.

Lemma set_insert_spec db k v exp now :
  inv db -> exists db', set_insert db k v exp now = Ret db' /\ inv db' /\ same_config db db'
    /\ content db' = spec_set (content db) k v exp now
    /\ total_size db' = total_size db - from_option approx_size_bytes 0 (content db !! k)
        + (Z.of_nat (length k) + Z.of_nat (length v) + sizeof_Entry).
Proof.
  intros Hi. unfold set_insert. open_home db k Hi m Hm Hc.
  set (e := Entry_new (length k) v exp now). rewrite Hc.
  set (old := from_option approx_size_bytes 0 (m !! k)).
  destruct (write_insert db k m e (approx_size_bytes e - old) Hi Hm eq_refl eq_refl) as [Hi' Hcont].
  exists (write db k (<[k := e]> m) (approx_size_bytes e - old)). split_and!.
  - unfold write, old. destruct (m !! k) as [o|] eqn:Eo; cbn [from_option].
    + unfold fetch_sub, fetch_add. cbn. rewrite wrap_usize_add. do 3 f_equal. lia.
    + unfold fetch_add. cbn. do 3 f_equal. lia.
  - done.
  - apply write_config.
  - done.
  - change (total_size (put_shard (shard_index db k) (<[k := e]> m) db)
      = total_size db - old + approx_size_bytes e).
    rewrite (total_size_put_shard db _ m) by done. unfold old.
    destruct (m !! k) as [o|] eqn:Eo; cbn [from_option].
    + rewrite (shard_size_delete _ _ _ Eo), <- (insert_delete_eq m).
      rewrite shard_size_insert by apply lookup_delete_eq. lia.
    + rewrite shard_size_insert by done. lia.
Qed.

Lemma del_spec db k :
  inv db -> exists r db', del db k = Ret (r, db') /\ inv db' /\ same_config db db'
    /\ spec_del (content db) k = (r, content db').
Proof.
  intros Hi. unfold del, spec_del. open_home db k Hi m Hm Hc. rewrite Hc.
  destruct (m !! k) as [e|] eqn:He.
  - destruct (write_delete db k m e Hi Hm He) as [Hi' Hcont].
    eexists true, _. split_and!; [reflexivity|done|apply write_config|by f_equal].
  - exists false, db. split_and!; [done|done|done|]. by rewrite delete_id by congruence.
Qed.

Lemma exists_spec db k t1 t2 :
  inv db -> exists r db', exists_ db k t1 t2 = Ret (r, db') /\ inv db' /\ same_config db db'
    /\ r = bool_decide (is_Some (fst (spec_get (content db) k t1 t2)))
    /\ content db' = snd (spec_get (content db) k t1 t2).
Proof.
  intros Hi. destruct (get_spec db k t1 t2 Hi) as (r & db' & Hg & Hi' & Hcfg & Hs).
  exists (bool_decide (is_Some r)), db'. unfold exists_. rewrite Hg, Hs. done.
Qed.

(** ** A new store *)

Lemma with_config_spec shard_count max :
  shard_count <= 2 ^ 63 ->
  capacity_ok sizeof_Shard (2 ^ Z.log2_up (Z.max shard_count 1)) = true ->
  exists db, with_config shard_count max = Ret db /\ inv db /\ content db = ∅
    /\ max_memory_bytes db = max
    /\ Z.of_nat (length (shards db)) = 2 ^ Z.log2_up (Z.max shard_count 1).
Proof.
  intros Hc Hcap. apply capacity_ok_Ret in Hcap. unfold with_config, next_power_of_two.
  set (n := Z.log2_up (Z.max shard_count 1)) in *.
  assert (Hn : 0 <= n <= 63).
  { split; [apply Z.log2_up_nonneg|]. apply Z.log2_up_le_pow2; lia. }
  assert (Hp : 1 <= 2 ^ n <= 2 ^ 63).
  { split; [|apply Z.pow_le_mono_r; lia]. pose proof (Z.pow_pos_nonneg 2 n). lia. }
  destruct (Z.leb_spec (2 ^ n) usize_max) as [_|Hgt]; [|unfold usize_max, u64_max in Hgt; lia].
  cbn [mbind outcome_bind]. rewrite Hcap. cbn [mbind outcome_bind].
  unfold sub_usize. destruct (Z.leb_spec 0 (2 ^ n - 1)); [|lia]. cbn [mbind outcome_bind].
  eexists. split; [reflexivity|].
  assert (Hempty : forall i m, replicate (Z.to_nat (2 ^ n)) (∅ : shard) !! i = Some m -> m = ∅).
  { intros i m [-> _]%lookup_replicate. done. }
  assert (Htot : forall k, foldr (fun m acc => shard_size m + acc) 0 (replicate k (∅ : shard)) = 0).
  { induction k as [|k IH]; [done|]. cbn. by rewrite IH, shard_size_empty. }
  split_and!; [constructor; [constructor|]| | |]; cbn.
  - exists n. rewrite length_replicate, Z2Nat.id by lia. split_and!; [lia|done|done].
  - intros i m k Hm. rewrite (Hempty _ _ Hm), lookup_empty. by intros [].
  - intros i m k e Hm. by rewrite (Hempty _ _ Hm), lookup_empty.
  - unfold total_size. cbn. by rewrite Htot.
  - unfold content. cbn. generalize (Z.to_nat (2 ^ n)). induction n0 as [|k IH]; [done|].
    cbn. rewrite IH. by rewrite (left_id_L ∅ _).
  - done.
  - rewrite length_replicate. lia.
Qed.

(** ** Eviction *)

(** The entries the search looks at, shard by shard. *)
Definition samples (ord : iter_order) (l : list (nat * shard)) : list (nat * (bytes * Entry)) :=
  concat ((fun '(i, m) => pair i <$> take 5 (ord i m)) <$> l).

Lemma find_oldest_samples ord db :
  find_oldest ord db
  = fold_left (fun o '(i, ke) => older o i ke) (samples ord (zip (seq 0 (length (shards db))) (shards db))) None.
Proof.
  unfold find_oldest, samples. generalize (@None (nat * bytes * Z)).
  induction (zip _ _) as [|[i m] l IH]; intros o; cbn; [done|].
  rewrite fold_left_app, <- IH. f_equal.
  generalize (take 5 (ord i m)). intros xs. revert o.
  induction xs as [|x xs IHx]; intros o; cbn; [done|apply IHx].
Qed.

(** The fold keeps an oldest entry of what it has seen. *)
Definition oldest_of (l : list (nat * (bytes * Entry))) (o : option (nat * bytes * Z)) : Prop :=
  match o with
  | None => l = []
  | Some (i, k, ts) =>
      (exists e, (i, (k, e)) ∈ l /\ last_accessed e = ts)
      /\ forall i' k' e', (i', (k', e')) ∈ l -> ts <= last_accessed e'
  end.

Lemma older_oldest_of l o i ke : oldest_of l o -> oldest_of (l ++ [(i, ke)]) (older o i ke).
Proof.
  destruct ke as [k e]. unfold older. destruct o as [[[i0 k0] ts]|]; cbn.
  - intros [(e0 & Hin & Hts) Hmin]. destruct (Z.ltb_spec (last_accessed e) ts); cbn; split.
    + exists e. split; [set_solver|done].
    + intros i' k' e' [Hl|Hl]%elem_of_app; [apply Hmin in Hl; lia|].
      apply list_elem_of_singleton in Hl as [= _ _ ->]. lia.
    + exists e0. split; [set_solver|done].
    + intros i' k' e' [Hl|Hl]%elem_of_app; [by apply Hmin in Hl|].
      apply list_elem_of_singleton in Hl as [= _ _ ->]. lia.
  - intros ->. cbn. split.
    + exists e. split; [set_solver|done].
    + intros i' k' e' Hl. apply list_elem_of_singleton in Hl as [= _ _ ->]. lia.
Qed.

Lemma fold_older_oldest_of l l0 o :
  oldest_of l0 o -> oldest_of (l0 ++ l) (fold_left (fun o '(i, ke) => older o i ke) l o).
Proof.
  revert l0 o. induction l as [|[i ke] l IH]; intros l0 o Ho; cbn; [by rewrite app_nil_r|].
  replace (l0 ++ (i, ke) :: l) with ((l0 ++ [(i, ke)]) ++ l) by (by rewrite <- app_assoc).
  apply IH. by apply older_oldest_of.
Qed.

Lemma find_oldest_spec ord db :
  oldest_of (samples ord (zip (seq 0 (length (shards db))) (shards db))) (find_oldest ord db).
Proof. rewrite find_oldest_samples. by apply (fold_older_oldest_of _ []). Qed.

Lemma elem_of_zip_seq (l : list shard) i m :
  (i, m) ∈ zip (seq 0 (length l)) l <-> l !! i = Some m.
Proof.
  rewrite list_elem_of_lookup. split.
  - intros [j Hj]. apply lookup_zip_with_Some in Hj as (a & b & [= -> ->] & Ha & Hb).
    apply lookup_seq in Ha as [-> _]. done.
  - intros Hi. exists i. apply lookup_zip_with_Some. exists i, m. split_and!; [done| |done].
    apply lookup_seq. split; [done|]. by eapply lookup_lt_Some.
Qed.

Lemma elem_of_samples ord (Hord : IterOrder ord) db i k e :
  (i, (k, e)) ∈ samples ord (zip (seq 0 (length (shards db))) (shards db)) ->
  exists m, shards db !! i = Some m /\ m !! k = Some e.
Proof.
  unfold samples. rewrite elem_of_concat. intros (xs & Hin & Hxs).
  apply list_elem_of_fmap in Hxs as ([j m] & -> & Hjm).
  apply list_elem_of_fmap in Hin as ([k' e'] & [= <- <- <-] & Hin).
  exists m. split; [by apply elem_of_zip_seq|].
  apply elem_of_map_to_list. rewrite <- (iter_perm i m).
  apply elem_of_take in Hin as (n & Hn & _). by eapply list_elem_of_lookup_2.
Qed.

Lemma samples_nil ord (Hord : IterOrder ord) db :
  samples ord (zip (seq 0 (length (shards db))) (shards db)) = [] -> content db = ∅.
Proof.
  intros Hs. apply map_eq. intros k. rewrite lookup_empty.
  destruct (content db !! k) as [e|] eqn:Hk; [|done]. exfalso.
  unfold content in Hk.
  assert (He : forall m i, shards db !! i = Some m -> m = ∅).
  { intros m i Hm. apply map_to_list_empty_iff.
    destruct (map_to_list m) as [|x xs] eqn:E; [done|].
    pose proof (iter_perm i m) as Hp. rewrite E in Hp.
    destruct (ord i m) as [|y ys] eqn:Eo; [by apply Permutation_nil_cons in Hp|].
    assert (Hin : (i, y) ∈ samples ord (zip (seq 0 (length (shards db))) (shards db))).
    { unfold samples. apply elem_of_concat. exists (pair i <$> take 5 (ord i m)). split.
      - rewrite Eo. cbn. left.
      - apply list_elem_of_fmap. exists (i, m). split; [done|]. by apply elem_of_zip_seq. }
    rewrite Hs in Hin. by apply not_elem_of_nil in Hin. }
  assert (Hu : forall l : list shard, (forall m i, l !! i = Some m -> m = ∅) -> (⋃ l : shard) = ∅).
  { induction l as [|m l IH]; intros Hl; [done|]. cbn.
    rewrite (Hl m 0%nat eq_refl), (left_id_L ∅ _). apply IH. intros m' j. apply (Hl m' (S j)). }
  rewrite (Hu _ He), lookup_empty in Hk. done.
Qed.

Lemma entry_count_delete db k m e :
  shards db !! shard_index db k = Some m -> m !! k = Some e ->
  S (entry_count (write db k (delete k m) (- approx_size_bytes e))) = entry_count db.
Proof.
  intros Hm He. unfold entry_count, write. cbn.
  generalize (shard_index db k) (shards db) Hm. clear Hm.
  intros i l. revert i. induction l as [|x l IH]; intros [|i]; cbn; try done.
  - intros [= ->]. rewrite map_size_delete, He. cbn.
    assert (size m <> 0%nat).
    { rewrite map_size_non_empty_iff. intros ->. by rewrite lookup_empty in He. } lia.
  - intros Hi. rewrite <- (IH _ Hi). by rewrite Nat.add_succ_r.
Qed.

Lemma entry_size_pos db i m k e :
  inv db -> shards db !! i = Some m -> m !! k = Some e -> 0 < approx_size_bytes e.
Proof.
  intros Hi Hm He. rewrite (inv_size db Hi i m k e Hm He). pose proof sizeof_Entry_pos. lia.
Qed.

Lemma total_size_write_delete db k m e :
  shards db !! shard_index db k = Some m -> m !! k = Some e -> 0 < approx_size_bytes e ->
  total_size (write db k (delete k m) (- approx_size_bytes e)) <= total_size db.
Proof.
  intros Hm He Hpos.
  change (total_size (put_shard (shard_index db k) (delete k m) db) <= total_size db).
  rewrite (total_size_put_shard db _ m) by done. rewrite (shard_size_delete m k e He). lia.
Qed.

Lemma total_size_nonneg db : inv db -> 0 <= total_size db.
Proof.
  intros Hi. unfold total_size.
  assert (Hm : forall i m, shards db !! i = Some m -> 0 <= shard_size m).
  { intros i m Hm. assert (Hp : map_Forall (fun _ e => 0 < approx_size_bytes e) m).
    { intros k e He. by eapply entry_size_pos. }
    clear Hm. induction m as [|k e m Hk IH] using map_ind; [by rewrite shard_size_empty|].
    rewrite shard_size_insert by done. apply map_Forall_insert in Hp as [He Hp]; [|done].
    specialize (IH Hp). lia. }
  induction (shards db) as [|m l IH]; [done|]. cbn.
  pose proof (Hm 0%nat m eq_refl).
  assert (0 <= foldr (fun m acc => shard_size m + acc) 0 l) by (apply IH; intros i m'; apply (Hm (S i))).
  lia.
Qed.

(** The loop ends within its fuel, removing entries until the counter is
    below the limit or the store is empty. *)
Lemma evict_loop_spec ord (Hord : IterOrder ord) fuel db :
  inv db -> (entry_count db < fuel)%nat ->
  exists db', evict_loop fuel ord db = Ret db' /\ inv db' /\ same_config db db'
    /\ content db' ⊆ content db /\ total_size db' <= total_size db
    /\ (used_memory db' < max_memory_bytes db' \/ content db' = ∅).
Proof.
  revert db. induction fuel as [|f IH]; intros db Hi Hf; [lia|]. cbn [evict_loop].
  destruct (Z.leb_spec (max_memory_bytes db) (used_memory db)) as [Hle|Hlt].
  2: { exists db. split_and!; [done|done|done|done|done|by left]. }
  pose proof (find_oldest_spec ord db) as Ho.
  destruct (find_oldest ord db) as [[[i k] ts]|]; cbn in Ho.
  - destruct Ho as [(e & Hin & _) _]. apply (elem_of_samples ord Hord) in Hin as (m & Hm & He).
    pose proof (inv_home db Hi i m k Hm (mk_is_Some _ _ He)) as <-.
    unfold index. rewrite Hm. cbn [mbind outcome_bind]. rewrite He.
    destruct (write_delete db k m e Hi Hm He) as [Hi' Hcont].
    pose proof (entry_count_delete db k m e Hm He) as Hcnt.
    destruct (IH (write db k (delete k m) (- approx_size_bytes e)) Hi' ltac:(lia))
      as (db' & Hev & Hinv & Hcfg & Hsub & Hts & Hpost).
    exists db'. split_and!; [exact Hev|done| | | |done].
    + etrans; [apply write_config|exact Hcfg].
    + etrans; [exact Hsub|]. rewrite Hcont. apply delete_subseteq.
    + etrans; [exact Hts|]. apply total_size_write_delete; [done|done|].
      exact (entry_size_pos db _ m k e Hi Hm He).
  - exists db. split_and!; [done|done|done|done|done|]. right. by eapply samples_nil.
Qed.

Lemma total_size_empty db : inv db -> content db = ∅ -> total_size db = 0.
Proof.
  intros Hi Hc. unfold total_size.
  assert (He : forall m i, shards db !! i = Some m -> m = ∅).
  { intros m i Hm. apply map_eq. intros k. rewrite lookup_empty.
    destruct (m !! k) as [e|] eqn:Ek; [|done].
    pose proof (lookup_home db k i m Hi Hm (mk_is_Some _ _ Ek)) as Hl.
    rewrite Hc, Ek, lookup_empty in Hl. done. }
  induction (shards db) as [|m l IH]; [done|]. cbn.
  rewrite (He m 0%nat eq_refl), shard_size_empty, IH; [done|].
  intros m' j. apply (He m' (S j)).
Qed.

Lemma ensure_memory_capacity_spec ord (Hord : IterOrder ord) db :
  inv db -> 0 < max_memory_bytes db ->
  exists db', ensure_memory_capacity ord db = Ret db' /\ inv db' /\ same_config db db'
    /\ content db' ⊆ content db /\ total_size db' <= total_size db
    /\ used_memory db' < max_memory_bytes db'.
Proof.
  intros Hi Hmax. unfold ensure_memory_capacity.
  destruct (evict_loop_spec ord Hord (S (entry_count db)) db Hi ltac:(lia))
    as (db' & He & Hi' & Hcfg & Hsub & Hts & Hpost).
  exists db'. split_and!; [done|done|done|done|done|].
  destruct Hpost as [|Hempty]; [done|].
  rewrite (inv_used db' Hi'), (total_size_empty db' Hi' Hempty).
  destruct Hcfg as (_ & -> & _). done.
Qed.

Lemma set_spec ord (Hord : IterOrder ord) db k v exp now :
  inv db -> exists db1 db', set_ ord db k v exp now = Ret db' /\ inv db1 /\ inv db'
    /\ same_config db db' /\ content db1 ⊆ content db /\ total_size db1 <= total_size db
    /\ (max_memory_bytes db <= 0 -> db1 = db)
    /\ (0 < max_memory_bytes db -> used_memory db1 < max_memory_bytes db)
    /\ content db' = spec_set (content db1) k v exp now
    /\ total_size db' = total_size db1 - from_option approx_size_bytes 0 (content db1 !! k)
        + (Z.of_nat (length k) + Z.of_nat (length v) + sizeof_Entry).
Proof.
  intros Hi. unfold set_. destruct (Z.ltb_spec 0 (max_memory_bytes db)) as [Hpos|Hneg].
  - destruct (ensure_memory_capacity_spec ord Hord db Hi Hpos)
      as (db1 & He & Hi1 & Hcfg1 & Hsub & Hts & Hused).
    rewrite He. cbn [mbind outcome_bind].
    destruct (set_insert_spec db1 k v exp now Hi1) as (db' & Hs & Hi' & Hcfg & Hc & Ht).
    exists db1, db'. split_and!; [done|done|done| |done|done|lia| |done|done].
    + by etrans.
    + intros _. destruct Hcfg1 as (_ & <- & _). done.
  - cbn [mbind outcome_bind].
    destruct (set_insert_spec db k v exp now Hi) as (db' & Hs & Hi' & Hcfg & Hc & Ht).
    exists db, db'. split_and!; try done. lia.
Qed.

(** ** Active expiry *)

Lemma purge_remove_spec i ks purged db m :
  inv db -> shards db !! i = Some m -> NoDup ks.*1 ->
  Forall (fun ks => exists e, m !! ks.1 = Some e /\ ks.2 = approx_size_bytes e) ks ->
  exists db' m', purge_remove i ks (purged, db) = Ret ((purged + length ks)%nat, db')
    /\ inv db' /\ same_config db db' /\ shards db' = <[i := m']> (shards db)
    /\ (forall k, m' !! k = if decide (k ∈ ks.*1) then None else m !! k)
    /\ (length ks + entry_count db' = entry_count db)%nat.
Proof.
  revert purged db m. induction ks as [|[k s] ks IH]; intros purged db m Hi Hm Hnd Hall.
  - exists db, m. cbn. rewrite Nat.add_0_r, list_insert_id by done. split_and!; try done.
  - apply Forall_cons in Hall as [(e & He & Hs) Hall]. cbn in He, Hs. subst s.
    cbn in Hnd. apply NoDup_cons in Hnd as [Hnk Hnd].
    pose proof (inv_home db Hi i m k Hm (mk_is_Some _ _ He)) as <-.
    unfold purge_remove. cbn [fold_left purge_key mbind outcome_bind].
    unfold index. rewrite Hm. cbn [mbind outcome_bind]. rewrite He.
    destruct (write_delete db k m e Hi Hm He) as [Hi' Hcont].
    change (fetch_sub (approx_size_bytes e) (put_shard (shard_index db k) (delete k m) db))
      with (write db k (delete k m) (- approx_size_bytes e)).
    set (db1 := write db k (delete k m) (- approx_size_bytes e)) in *.
    destruct (IH (S purged) db1 (delete k m)) as (db' & m' & Hr & Hi2 & Hcfg & Hsh & Hl & Hcnt); [done| |done| |].
    + cbn. apply list_lookup_insert_eq. by apply shard_index_bound.
    + apply Forall_forall. intros [k' s'] Hin. rewrite Forall_forall in Hall.
      destruct (Hall _ Hin) as (e' & He' & Hs'). exists e'. split; [|done]. cbn in *.
      rewrite lookup_delete_ne; [done|].
      intros <-. apply Hnk. apply list_elem_of_fmap. by exists (k, s').
    + exists db', m'. split_and!.
      * change (purge_remove (shard_index db k) ks (S purged, db1) = Ret ((purged + S (length ks))%nat, db')).
        rewrite Hr. do 2 f_equal. lia.
      * done.
      * etrans; [apply write_config|exact Hcfg].
      * rewrite Hsh. cbn. apply list_insert_insert_eq.
      * intros k'. rewrite Hl. cbn [fmap list_fmap fst].
        destruct (decide (k' = k)) as [->|Hne].
        -- rewrite lookup_delete_eq, (decide_True (P := k ∈ k :: _)) by left. by case_decide.
        -- rewrite lookup_delete_ne by done. apply decide_ext. rewrite elem_of_cons. tauto.
      * pose proof (entry_count_delete db k m e Hm He) as Hd. fold db1 in Hd. cbn. lia.
Qed.

(** The keys collected under the read lock: expired entries of the shard,
    without repetition, and all of them when the sample covers the shard. *)
Lemma purge_collect_spec ord (Hord : IterOrder ord) i m sample now :
  NoDup (purge_collect ord i m sample now).*1
  /\ Forall (fun ks => exists e, m !! ks.1 = Some e /\ ks.2 = approx_size_bytes e
       /\ is_expired e now = true) (purge_collect ord i m sample now)
  /\ ((size m <= sample)%nat -> forall k e, m !! k = Some e -> is_expired e now = true ->
       k ∈ (purge_collect ord i m sample now).*1).
Proof.
  unfold purge_collect. split_and!.
  - assert (Hnd : NoDup (take sample (ord i m)).*1).
    { rewrite fmap_take. apply NoDup_ListNoDup. eapply NoDup_app_remove_r.
      rewrite take_drop. apply NoDup_ListNoDup. rewrite (iter_perm i m).
      apply NoDup_fst_map_to_list. }
    induction (take sample (ord i m)) as [|[k e] l IH]; [constructor|].
    cbn in Hnd |- *. apply NoDup_cons in Hnd as [Hk Hnd].
    destruct (match expires_at e with Some exp => exp <=? now | None => false end); [|by apply IH].
    cbn. apply NoDup_cons. split; [|by apply IH]. intros Hin. apply Hk.
    apply list_elem_of_fmap in Hin as ([k' s'] & -> & Hin). apply list_elem_of_omap in Hin as ([k2 e2] & Hin & Hb).
    apply list_elem_of_fmap. exists (k2, e2). split; [|done]. case_match; by simplify_eq.
  - apply Forall_forall. intros [k s] Hin. apply list_elem_of_omap in Hin as ([k2 e2] & Hin & Hb).
    unfold is_expired. destruct (match expires_at e2 with Some exp => exp <=? now | None => false end) eqn:E;
      [|done]. injection Hb as <- <-. exists e2. split_and!; [|done|done].
    apply elem_of_map_to_list. rewrite <- (iter_perm i m).
    apply elem_of_take in Hin as (n & Hn & _). by eapply list_elem_of_lookup_2.
  - intros Hsz k e He Hexp. apply list_elem_of_fmap. exists (k, approx_size_bytes e). split; [done|].
    apply list_elem_of_omap. exists (k, e). split.
    + rewrite take_ge; [|].
      * rewrite (iter_perm i m). by apply elem_of_map_to_list.
      * rewrite (Permutation_length (iter_perm i m)), length_map_to_list. done.
    + unfold is_expired in Hexp. by rewrite Hexp.
Qed.

(** What the first [j] shards' purge leaves. *)
Record purged_to (db : Db) (sample : nat) (now : Z) (j purged : nat) (db' : Db) : Prop := {
  pt_inv : inv db';
  pt_config : same_config db db';
  pt_rest i : (j <= i)%nat -> shards db' !! i = shards db !! i;
  pt_sub i m m' k e : shards db !! i = Some m -> shards db' !! i = Some m' ->
    m' !! k = Some e -> m !! k = Some e;
  pt_expired i m m' k e : shards db !! i = Some m -> shards db' !! i = Some m' ->
    m !! k = Some e -> m' !! k = None -> is_expired e now = true;
  pt_all i m m' k e : (i < j)%nat -> shards db !! i = Some m -> (size m <= sample)%nat ->
    shards db' !! i = Some m' -> m' !! k = Some e -> is_expired e now = false;
  pt_count : (purged + entry_count db' = entry_count db)%nat;
}.

Lemma purge_shard_spec ord (Hord : IterOrder ord) db sample now j purged dbj :
  purged_to db sample now j purged dbj -> (j < length (shards db))%nat ->
  exists purged' db', purge_shard ord sample now (Ret (purged, dbj)) j = Ret (purged', db')
    /\ purged_to db sample now (S j) purged' db'.
Proof.
  intros [Hi Hcfg Hrest Hsub Hexp Hall Hcnt] Hj.
  destruct (lookup_lt_is_Some_2 _ _ Hj) as [m Hm].
  pose proof (Hrest j (le_n _)) as Hmj. rewrite Hm in Hmj.
  destruct (purge_collect_spec ord Hord j m sample now) as (Hnd & Hks & Hcov).
  unfold purge_shard. cbn [mbind outcome_bind]. unfold index. rewrite Hmj. cbn [mbind outcome_bind].
  set (ks := purge_collect ord j m sample now) in *.
  destruct (purge_remove_spec j ks purged dbj m Hi Hmj Hnd) as (db' & m' & Hr & Hi' & Hcfg' & Hsh & Hl & Hc).
  { eapply Forall_impl; [exact Hks|]. intros x (e & ? & ? & _). by exists e. }
  exists (purged + length ks)%nat, db'. split; [done|].
  assert (Hlt : (j < length (shards dbj))%nat) by (by eapply lookup_lt_Some).
  assert (Hcase : forall i m1, shards db' !! i = Some m1 -> i = j /\ m1 = m' \/ i <> j /\ shards dbj !! i = Some m1).
  { intros i m1. rewrite Hsh. intros [(-> & -> & _)|[Hne ?]]%list_lookup_insert_Some; [by left|by right]. }
  constructor.
  - done.
  - by etrans.
  - intros i Hi2. rewrite Hsh, list_lookup_insert_ne by lia. apply Hrest. lia.
  - intros i m1 m2 k e H1 H2 He. destruct (Hcase _ _ H2) as [[-> ->]|[Hne H3]]; [|by eapply Hsub].
    rewrite Hm in H1. injection H1 as <-. rewrite Hl in He. by case_decide.
  - intros i m1 m2 k e H1 H2 He Hn. destruct (Hcase _ _ H2) as [[-> ->]|[Hne H3]]; [|by eapply Hexp].
    rewrite Hm in H1. injection H1 as <-. rewrite Hl in Hn. case_decide as Hin; [|congruence].
    apply list_elem_of_fmap in Hin as ([k' s'] & -> & Hin). rewrite Forall_forall in Hks.
    destruct (Hks _ Hin) as (e' & He' & _ & Hx). cbn in *. congruence.
  - intros i m1 m2 k e Hlt1 H1 Hsz H2 He. destruct (Hcase _ _ H2) as [[-> ->]|[Hne H3]].
    + rewrite Hm in H1. injection H1 as <-. rewrite Hl in He. case_decide as Hin; [done|].
      destruct (is_expired e now) eqn:Ex; [|done]. by destruct Hin; eapply Hcov.
    + eapply (Hall i); [lia|done..].
  - lia.
Qed.

Lemma purge_spec ord (Hord : IterOrder ord) db sample now :
  inv db -> exists purged db', purge_expired_sample ord db sample now = Ret (purged, db')
    /\ purged_to db sample now (length (shards db)) purged db'.
Proof.
  intros Hi. unfold purge_expired_sample.
  assert (Hgen : forall n, (n <= length (shards db))%nat ->
    exists purged db', fold_left (purge_shard ord sample now) (seq 0 n) (Ret (0%nat, db)) = Ret (purged, db')
      /\ purged_to db sample now n purged db'); [|by apply Hgen].
  induction n as [|n IH]; intros Hn.
  - exists 0%nat, db. split; [done|]. constructor; try done; intros; simplify_eq; try done; try lia.
  - destruct IH as (p & dbn & Hf & Hp); [lia|].
    rewrite seq_S, fold_left_app, Hf. cbn [Nat.add fold_left].
    apply (purge_shard_spec ord Hord db sample now n p dbn Hp). lia.
Qed.

(** ** Listing the keys *)

Lemma keys_spec ord (Hord : IterOrder ord) db now k :
  inv db ->
  k ∈ keys ord db now <-> exists e, content db !! k = Some e /\ is_expired e now = false.
Proof.
  intros Hi. assert (Hlive : forall e, live now e = negb (is_expired e now)).
  { intros e. unfold live, is_expired. destruct (expires_at e); [|done].
    by rewrite Z.leb_antisym, negb_involutive. }
  unfold keys. rewrite elem_of_concat. split.
  - intros (l & Hk & Hl). apply elem_of_lookup_imap in Hl as (i & m & -> & Hm).
    apply list_elem_of_fmap in Hk as ([k' e] & -> & Hin). apply list_elem_of_filter in Hin as [He Hin].
    rewrite (iter_perm i m) in Hin. apply elem_of_map_to_list in Hin. cbn in *.
    exists e. rewrite (lookup_home db k' i m Hi Hm) by by rewrite Hin. split; [done|].
    rewrite Hlive in He. by bool_to_prop.
  - intros (e & Hc & He). destruct (content_lookup_inv db k e Hi Hc) as (m & Hm & Hk).
    eexists. split; [|apply elem_of_lookup_imap; by exists (shard_index db k), m].
    apply list_elem_of_fmap. exists (k, e). split; [done|]. apply list_elem_of_filter.
    rewrite Hlive. cbn. rewrite He. split; [done|].
    rewrite (iter_perm _ m). by apply elem_of_map_to_list.
Qed.

(** ** Sequences of operations *)

(** A call of the store's interface with its readings of the clock, and
    what it returns. *)
Inductive op : Type :=
| OpGet (k : bytes) (t1 t2 : Z)
| OpSet (k v : bytes) (exp : option Z) (now : Z)
| OpDel (k : bytes)
| OpExists (k : bytes) (t1 t2 : Z).

Inductive reply : Type :=
| RBytes (o : option bytes)
| RUnit
| RBool (b : bool).

Definition run_op (ord : iter_order) (db : Db) (o : op) : outcome (reply * Db) :=
  match o with
  | OpGet k t1 t2 => '(r, db') ← get db k t1 t2; Ret (RBytes r, db')
  | OpSet k v exp now => db' ← set_ ord db k v exp now; Ret (RUnit, db')
  | OpDel k => '(r, db') ← del db k; Ret (RBool r, db')
  | OpExists k t1 t2 => '(r, db') ← exists_ db k t1 t2; Ret (RBool r, db')
  end.

Definition spec_op (m : shard) (o : op) : reply * shard :=
  match o with
  | OpGet k t1 t2 => let '(r, m') := spec_get m k t1 t2 in (RBytes r, m')
  | OpSet k v exp now => (RUnit, spec_set m k v exp now)
  | OpDel k => let '(r, m') := spec_del m k in (RBool r, m')
  | OpExists k t1 t2 =>
      let '(r, m') := spec_get m k t1 t2 in (RBool (bool_decide (is_Some r)), m')
  end.

Fixpoint run_ops (ord : iter_order) (db : Db) (os : list op) : outcome (list reply * Db) :=
  match os with
  | [] => Ret ([], db)
  | o :: os =>
      '(r, db1) ← run_op ord db o;
      '(rs, db2) ← run_ops ord db1 os;
      Ret (r :: rs, db2)
  end.

Fixpoint spec_ops (m : shard) (os : list op) : list reply * shard :=
  match os with
  | [] => ([], m)
  | o :: os =>
      let '(r, m1) := spec_op m o in
      let '(rs, m2) := spec_ops m1 os in
      (r :: rs, m2)
  end.

Lemma run_op_spec ord (Hord : IterOrder ord) db o :
  inv db -> max_memory_bytes db <= 0 ->
  exists r db', run_op ord db o = Ret (r, db') /\ inv db' /\ same_config db db'
    /\ spec_op (content db) o = (r, content db').
Proof.
  intros Hi Hmax. destruct o as [k t1 t2|k v exp now|k|k t1 t2]; cbn [run_op spec_op].
  - destruct (get_spec db k t1 t2 Hi) as (r & db' & -> & Hi' & Hcfg & ->). by eexists _, _.
  - destruct (set_spec ord Hord db k v exp now Hi) as (db1 & db' & -> & _ & Hi' & Hcfg & _ & _ & Heq & _ & Hc & _).
    rewrite (Heq Hmax) in Hc. rewrite <- Hc. by eexists _, _.
  - destruct (del_spec db k Hi) as (r & db' & -> & Hi' & Hcfg & ->). by eexists _, _.
  - destruct (exists_spec db k t1 t2 Hi) as (r & db' & -> & Hi' & Hcfg & Hr & Hc).
    destruct (spec_get _ _ _ _) as [r' m']. cbn in Hr, Hc. subst. by eexists _, _.
Qed.

Lemma run_ops_spec ord (Hord : IterOrder ord) db os :
  inv db -> max_memory_bytes db <= 0 ->
  exists rs db', run_ops ord db os = Ret (rs, db') /\ inv db' /\ spec_ops (content db) os = (rs, content db').
Proof.
  revert db. induction os as [|o os IH]; intros db Hi Hmax; cbn; [by eexists _, _|].
  destruct (run_op_spec ord Hord db o Hi Hmax) as (r & db1 & -> & Hi1 & Hcfg & ->).
  cbn [mbind outcome_bind]. destruct Hcfg as (_ & Hm & _).
  destruct (IH db1 Hi1) as (rs & db2 & -> & Hi2 & ->); [lia|]. by eexists _, _.
Qed.

(** The same on the represented map. *)
Lemma purge_content_spec ord (Hord : IterOrder ord) db sample now :
  inv db ->
  exists purged db', purge_expired_sample ord db sample now = Ret (purged, db') /\ inv db' /\ same_config db db'
    /\ (purged + entry_count db' = entry_count db)%nat
    /\ (forall k e, content db' !! k = Some e -> content db !! k = Some e)
    /\ (forall k e, content db !! k = Some e -> content db' !! k = None -> is_expired e now = true)
    /\ ((forall i m, shards db !! i = Some m -> (size m <= sample)%nat) ->
        forall k e, content db' !! k = Some e -> is_expired e now = false).
Proof.
  intros Hi. destruct (purge_spec ord Hord db sample now Hi) as (p & db' & Hp & Hpt).
  pose proof (pt_inv _ _ _ _ _ _ Hpt) as Hi'. destruct (pt_config _ _ _ _ _ _ Hpt) as (Hmask & _ & Hlen).
  assert (Hidx : forall k, shard_index db' k = shard_index db k) by (intros k; unfold shard_index; by rewrite Hmask).
  exists p, db'. split_and!; [done|done|by eapply pt_config|by eapply pt_count| | |].
  - intros k e Hk. destruct (content_lookup_inv db' k e Hi' Hk) as (m' & Hm' & He).
    destruct (home_shard db k Hi) as [m Hm]. rewrite (content_lookup db k m Hi Hm).
    rewrite Hidx in Hm'. by eapply (pt_sub _ _ _ _ _ _ Hpt).
  - intros k e Hk Hn. destruct (content_lookup_inv db k e Hi Hk) as (m & Hm & He).
    destruct (home_shard db' k Hi') as [m' Hm']. rewrite (content_lookup db' k m' Hi' Hm') in Hn.
    rewrite Hidx in Hm'. by eapply (pt_expired _ _ _ _ _ _ Hpt).
  - intros Hsz k e Hk. destruct (content_lookup_inv db' k e Hi' Hk) as (m' & Hm' & He).
    destruct (home_shard db k Hi) as [m Hm]. rewrite Hidx in Hm'.
    eapply (pt_all _ _ _ _ _ _ Hpt); [|exact Hm|by eapply Hsz|exact Hm'|exact He].
    by apply shard_index_bound.
Qed.

(** ** The theorems *)

(** C10: the sharded store implements a map with expiry.  With no memory
    limit, any sequence of GET, SET, DEL and EXISTS calls on a well-formed
    store returns (no index is out of bounds), answers what the map answers,
    and leaves a well-formed store representing the map's final state. *)
Theorem store_refines_map ord (Hord : IterOrder ord) db os :
  inv db -> max_memory_bytes db <= 0 ->
  exists rs db', run_ops ord db os = Ret (rs, db') /\ inv db'
    /\ spec_ops (content db) os = (rs, content db').
Proof. apply run_ops_spec. done. Qed.

(** A stored value is read back until it expires.  After SET of [k], in
    a store of any memory limit, GET of [k] at [t1] returns the value when
    the expiry, if any, is after [t1]; otherwise it returns nothing and the
    key is gone from the store. *)
Theorem set_get_roundtrip ord (Hord : IterOrder ord) db k v exp now t1 t2 :
  inv db -> t1 <= t2 ->
  exists db1 r db2, set_ ord db k v exp now = Ret db1 /\ get db1 k t1 t2 = Ret (r, db2)
    /\ inv db2
    /\ (if from_option (fun x => t1 <? x) true exp
        then r = Some v
        else r = None /\ content db2 !! k = None).
Proof.
  intros Hi Ht. destruct (set_spec ord Hord db k v exp now Hi)
    as (db0 & db1 & Hs & _ & Hi1 & _ & _ & _ & _ & _ & Hc & _).
  destruct (get_spec db1 k t1 t2 Hi1) as (r & db2 & Hg & Hi2 & _ & Hsg).
  exists db1, r, db2. split_and!; [done|done|done|].
  rewrite Hc in Hsg. unfold spec_get, spec_set in Hsg. rewrite lookup_insert_eq in Hsg.
  unfold is_expired in Hsg. cbn in Hsg.
  destruct exp as [x|]; cbn; [|by injection Hsg as <- _].
  rewrite (Z.leb_antisym t1 x) in Hsg. destruct (Z.ltb_spec t1 x); cbn in Hsg; [by injection Hsg as <- _|].
  destruct (Z.leb_spec x t2); [|lia]. injection Hsg as <- <-. split; [done|]. apply lookup_delete_eq.
Qed.

(** C15: memory stays bounded.  With a memory limit, SET returns (the
    eviction loop ends), stores [k], leaves the counter below the limit plus
    the size of the new entry, and every other key is either evicted or keeps
    its entry. *)
Theorem set_bounds_memory ord (Hord : IterOrder ord) db k v exp now :
  inv db -> 0 < max_memory_bytes db -> total_size db <= usize_max ->
  exists db', set_ ord db k v exp now = Ret db' /\ inv db'
    /\ memory_used db' < max_memory_bytes db
        + (Z.of_nat (length k) + Z.of_nat (length v) + sizeof_Entry)
    /\ content db' !! k = Some (Entry_new (length k) v exp now)
    /\ forall k', k' <> k -> content db' !! k' = None \/ content db' !! k' = content db !! k'.
Proof.
  intros Hi Hmax Htot. destruct (set_spec ord Hord db k v exp now Hi)
    as (db1 & db' & Hs & Hi1 & Hi' & _ & Hsub & Hts & _ & Hused & Hc & Ht).
  exists db'. split_and!; [done|done| | |].
  - specialize (Hused Hmax). rewrite (inv_used db1 Hi1) in Hused.
    unfold memory_used. rewrite (inv_used db' Hi').
    pose proof (total_size_nonneg db1 Hi1). pose proof (total_size_nonneg db' Hi').
    unfold wrap_usize, usize_max, u64_max in *. rewrite Z.mod_small in Hused by lia.
    assert (0 <= from_option approx_size_bytes 0 (content db1 !! k)).
    { destruct (content db1 !! k) as [e|] eqn:Ek; cbn; [|done].
      destruct (content_lookup_inv db1 k e Hi1 Ek) as (m & Hm & He).
      apply Z.lt_le_incl. by eapply (entry_size_pos db1). }
    pose proof (Z.mod_le (total_size db') 18446744073709551616). lia.
  - rewrite Hc. apply lookup_insert_eq.
  - intros k' Hne. rewrite Hc. unfold spec_set. rewrite lookup_insert_ne by done.
    destruct (content db1 !! k') as [e|] eqn:Ek; [right|by left].
    symmetry. by eapply lookup_weaken.
Qed.

(** C32: the evicted entry is the least recently used of the sample.  The
    search finds an entry exactly when the store is not empty; it is an
    entry of the store, and none of the first five entries of any shard was
    accessed before it. *)
Theorem eviction_victim_is_lru ord (Hord : IterOrder ord) db :
  inv db ->
  match find_oldest ord db with
  | None => content db = ∅
  | Some (i, k, ts) =>
      (exists e, content db !! k = Some e /\ last_accessed e = ts /\ shard_index db k = i)
      /\ forall j m k' e', shards db !! j = Some m -> (k', e') ∈ take 5 (ord j m) ->
           ts <= last_accessed e'
  end.
Proof.
  intros Hi. pose proof (find_oldest_spec ord db) as Ho.
  destruct (find_oldest ord db) as [[[i k] ts]|]; cbn in Ho; [|by eapply samples_nil].
  destruct Ho as [(e & Hin & Hts) Hmin]. split.
  - apply (elem_of_samples ord Hord) in Hin as (m & Hm & He).
    exists e. split_and!; [|done|by eapply (inv_home db Hi)].
    rewrite (lookup_home db k i m Hi Hm); [done|by rewrite He].
  - intros j m k' e' Hm Hin'. apply (Hmin j k'). unfold samples. apply elem_of_concat.
    exists (pair j <$> take 5 (ord j m)). split.
    + apply list_elem_of_fmap. by exists (k', e').
    + apply list_elem_of_fmap. exists (j, m). split; [done|]. by apply elem_of_zip_seq.
Qed.

(** C33: active expiry is exact.  A purge run without interruption returns,
    keeps the store well formed, removes only expired entries and counts
    them; with a sample covering every shard no expired entry is left. *)
Theorem purge_expired_exact ord (Hord : IterOrder ord) db sample now :
  inv db ->
  exists purged db', purge_expired_sample ord db sample now = Ret (purged, db') /\ inv db'
    /\ (purged + entry_count db' = entry_count db)%nat
    /\ (forall k e, content db' !! k = Some e -> content db !! k = Some e)
    /\ (forall k e, content db !! k = Some e -> content db' !! k = None -> is_expired e now = true)
    /\ ((forall i m, shards db !! i = Some m -> (size m <= sample)%nat) ->
        forall k e, content db' !! k = Some e -> is_expired e now = false).
Proof.
  intros Hi. destruct (purge_content_spec ord Hord db sample now Hi) as (p & db' & Hp & Hi' & _ & Hrest). eauto.
Qed.

End Theory.

(** ** Witnesses: a store of four shards *)

Section Witnesses.
#[local] Instance witness_platform : Platform := demo_platform true.

Definition list_order : iter_order := fun _ m => map_to_list m.

#[local] Instance list_order_ok : IterOrder list_order.
Proof. intros i m. reflexivity. Qed.

(** The store the witnesses start from. *)
Lemma four_shards max :
  exists db, with_config 4 max = Ret db /\ inv db /\ content db = ∅ /\ max_memory_bytes db = max.
Proof.
  destruct (with_config_spec 4 max) as (db & Hw & Hi & Hc & Hm & _); [lia|vm_compute; reflexivity|].
  by exists db.
Qed.

(** The same store after [SET k v] expiring at 5. *)
Definition filled_store : outcome Db :=
  db ← with_config 4 0; set_ list_order db b!"k" b!"v" (Some 5) 1.

Lemma filled :
  exists db, filled_store = Ret db /\ inv db
    /\ content db !! b!"k" = Some (Entry_new 1 b!"v" (Some 5) 1).
Proof.
  destruct (four_shards 0) as (db0 & Hw & Hi0 & _). unfold filled_store. rewrite Hw.
  destruct (set_spec list_order list_order_ok db0 b!"k" b!"v" (Some 5) 1 Hi0)
    as (db1 & db & Hs & _ & Hi & _ & _ & _ & _ & _ & Hc & _).
  exists db. split_and!; [exact Hs|exact Hi|]. rewrite Hc. apply lookup_insert_eq.
Qed.

Definition some_ops : list op :=
  [OpSet b!"k" b!"v" (Some 5) 1; OpGet b!"k" 4 4; OpGet b!"k" 5 5; OpExists b!"k" 6 6; OpDel b!"k"].

Lemma store_refines_map_witness :
  exists db, with_config 4 0 = Ret db /\
  exists rs db', run_ops list_order db some_ops = Ret (rs, db') /\ inv db'
    /\ spec_ops (content db) some_ops = (rs, content db').
Proof.
  destruct (four_shards 0) as (db & Hw & Hi & _ & Hm). exists db. split; [exact Hw|].
  apply (store_refines_map list_order list_order_ok db some_ops Hi). rewrite Hm. reflexivity.
Defined.

Lemma set_get_roundtrip_witness :
  exists db, with_config 4 100 = Ret db /\
  exists db1 r db2, set_ list_order db b!"k" b!"v" (Some 9) 1 = Ret db1
    /\ get db1 b!"k" 8 8 = Ret (r, db2) /\ inv db2
    /\ (if from_option (fun x => 8 <? x) true (Some 9) then r = Some b!"v"
        else r = None /\ content db2 !! b!"k" = None).
Proof.
  destruct (four_shards 100) as (db & Hw & Hi & _). exists db. split; [exact Hw|].
  apply (set_get_roundtrip list_order list_order_ok db b!"k" b!"v" (Some 9) 1 8 8 Hi). lia.
Defined.

Lemma set_bounds_memory_witness :
  exists db, with_config 4 100 = Ret db /\
  exists db', set_ list_order db b!"k" b!"v" None 1 = Ret db' /\ inv db'
    /\ memory_used db' < max_memory_bytes db + (1 + 1 + sizeof_Entry)
    /\ content db' !! b!"k" = Some (Entry_new 1 b!"v" None 1)
    /\ forall k', k' <> b!"k" -> content db' !! k' = None \/ content db' !! k' = content db !! k'.
Proof.
  destruct (four_shards 100) as (db & Hw & Hi & Hc & Hm). exists db. split; [exact Hw|].
  apply (set_bounds_memory list_order list_order_ok db b!"k" b!"v" None 1 Hi).
  - rewrite Hm. reflexivity.
  - rewrite (total_size_empty db Hi Hc). discriminate.
Defined.

Lemma eviction_victim_is_lru_witness :
  exists db, filled_store = Ret db /\
  match find_oldest list_order db with
  | None => content db = ∅
  | Some (i, k, ts) =>
      (exists e, content db !! k = Some e /\ last_accessed e = ts /\ shard_index db k = i)
      /\ forall j m k' e', shards db !! j = Some m -> (k', e') ∈ take 5 (list_order j m) ->
           ts <= last_accessed e'
  end.
Proof.
  destruct filled as (db & Hw & Hi & _). exists db. split; [exact Hw|].
  exact (eviction_victim_is_lru list_order list_order_ok db Hi).
Defined.

Lemma purge_expired_exact_witness :
  exists db, filled_store = Ret db /\
  exists purged db', purge_expired_sample list_order db 20 7 = Ret (purged, db') /\ inv db'
    /\ (purged + entry_count db' = entry_count db)%nat
    /\ (forall k e, content db' !! k = Some e -> content db !! k = Some e)
    /\ (forall k e, content db !! k = Some e -> content db' !! k = None -> is_expired e 7 = true)
    /\ ((forall i m, shards db !! i = Some m -> (size m <= 20)%nat) ->
        forall k e, content db' !! k = Some e -> is_expired e 7 = false).
Proof.
  destruct filled as (db & Hw & Hi & _). exists db. split; [exact Hw|].
  exact (purge_expired_exact list_order list_order_ok db 20 7 Hi).
Defined.

End Witnesses.
