(* ===== verification/StorageConc.v ===== *)
(** * Concurrent calls of the store

    The store is shared by every connection, the replication task and the
    expiry task.  Each call runs as a sequence of regions, each under one
    shard's lock; between two regions other calls run.  A region is atomic
    here: the regions of different shards touch disjoint shards, and the
    counter they share is an atomic that only takes additions.  [step] is
    one region of one call, [sys_step] the scheduler's choice.  What
    [ensure_memory_capacity] reads between its writes (the counter, the
    entries of each shard) races with the other calls, so the result of its
    test and its victim are left open: the steps include every one the
    source can take. *)

From S2P Require Import Prelude Storage StorageTheory.
Import Storage.

Section Conc.
Context `{Platform}.

(** Where a call is between its regions. *)
Inductive thread : Type :=
| GetLookup (k : bytes)
| GetCleanup (k : bytes)
| SetCapacity (k v : bytes) (exp : option Z)
| SetEvict (i : nat) (victim k v : bytes) (exp : option Z)
| SetInsert (k v : bytes) (exp : option Z)
| DelRemove (k : bytes)
| PurgeRead (i sample : nat) (now : Z)
| PurgeWrite (i sample : nat) (now : Z) (keys_to_remove : list (bytes * Z))
| KeysRead (i : nat) (now : Z) (all_keys : list bytes)
| MemoryUsed
| Done.

Inductive step : Db -> thread -> Db -> thread -> Prop :=
| step_get_found db k t1 t2 r db' :
    get_lookup db k t1 t2 = Ret (inl r, db') -> step db (GetLookup k) db' Done
| step_get_expired db k t1 t2 db' :
    get_lookup db k t1 t2 = Ret (inr tt, db') -> step db (GetLookup k) db' (GetCleanup k)
| step_get_cleanup db k t db' :
    get_cleanup db k t = Ret db' -> step db (GetCleanup k) db' Done
| step_set_room db k v exp :
    step db (SetCapacity k v exp) db (SetInsert k v exp)
| step_set_victim db i victim k v exp :
    0 < max_memory_bytes db -> (i < length (shards db))%nat ->
    step db (SetCapacity k v exp) db (SetEvict i victim k v exp)
| step_set_evict db i victim k v exp m removed :
    shards db !! i = Some m -> m !! victim = Some removed ->
    step db (SetEvict i victim k v exp)
      (fetch_sub (approx_size_bytes removed) (put_shard i (delete victim m) db))
      (SetCapacity k v exp)
| step_set_gone db i victim k v exp m :
    shards db !! i = Some m -> m !! victim = None ->
    step db (SetEvict i victim k v exp) db (SetInsert k v exp)
| step_set_insert db k v exp now db' :
    set_insert db k v exp now = Ret db' -> step db (SetInsert k v exp) db' Done
| step_del db k r db' :
    del db k = Ret (r, db') -> step db (DelRemove k) db' Done
| step_purge_read ord db i sample now m :
    IterOrder ord -> shards db !! i = Some m ->
    step db (PurgeRead i sample now) db
      (PurgeWrite i sample now (purge_collect ord i m sample now))
| step_purge_write db i sample now ks p p' db' :
    purge_remove i ks (p, db) = Ret (p', db') ->
    step db (PurgeWrite i sample now ks) db' (PurgeRead (S i) sample now)
| step_purge_end db i sample now :
    (length (shards db) <= i)%nat -> step db (PurgeRead i sample now) db Done
| step_keys_read ord db i now all_keys m :
    IterOrder ord -> shards db !! i = Some m ->
    step db (KeysRead i now all_keys) db (KeysRead (S i) now (all_keys ++ live_keys ord now i m))
| step_keys_end db i now all_keys :
    (length (shards db) <= i)%nat -> step db (KeysRead i now all_keys) db Done
| step_memory_used db : step db MemoryUsed db Done.

(** The store and the calls in progress. *)
Record sys : Type := { store : Db; threads : list thread }.

Inductive sys_step : sys -> sys -> Prop :=
| sys_step_at s i t db' t' :
    threads s !! i = Some t -> step (store s) t db' t' ->
    sys_step s {| store := db'; threads := <[i := t']> (threads s) |}.

Abbreviation reachable := (rtc sys_step).

(** ** Placement survives every interleaving *)

Lemma placed_fetch_add n db : placed db -> placed (fetch_add n db).
Proof. intros [Hm Hh Hs]. by constructor. Qed.

Lemma placed_put db k m m' :
  placed db -> shards db !! shard_index db k = Some m ->
  (forall k', k' <> k -> m' !! k' = m !! k') ->
  (forall e, m' !! k = Some e ->
    approx_size_bytes e = Z.of_nat (length k) + Z.of_nat (length (value e)) + sizeof_Entry) ->
  placed (put_shard (shard_index db k) m' db).
Proof.
  intros Hp Hm Ho Hs. destruct (write_placed db k m m' 0 Hp Hm Ho Hs) as [H1 H2 H3]. by constructor.
Qed.

Lemma placed_home db k : placed db -> exists m,
  index (shards db) (shard_index db k) = Ret m /\ shards db !! shard_index db k = Some m.
Proof.
  intros Hp. destruct (lookup_lt_is_Some_2 _ _ (placed_index db k Hp)) as [m Hm].
  exists m. unfold index. by rewrite Hm.
Qed.

Lemma placed_delete db k m :
  placed db -> shards db !! shard_index db k = Some m ->
  placed (put_shard (shard_index db k) (delete k m) db).
Proof.
  intros Hp Hm. apply (placed_put db k m); [done|done|by intros; apply lookup_delete_ne|].
  intros e. by rewrite lookup_delete_eq.
Qed.

(** The same for a key found in the shard [i]. *)
Lemma placed_delete_at db i k m :
  placed db -> shards db !! i = Some m -> is_Some (m !! k) ->
  placed (put_shard i (delete k m) db).
Proof.
  intros Hp Hm Hk. pose proof (pl_home db Hp i m k Hm Hk) as <-. by apply placed_delete.
Qed.

Lemma get_lookup_placed db k t1 t2 :
  placed db -> exists r db', get_lookup db k t1 t2 = Ret (r, db') /\ placed db'.
Proof.
  intros Hp. unfold get_lookup. destruct (placed_home db k Hp) as (m & -> & Hm).
  cbn [mbind outcome_bind]. destruct (m !! k) as [e|] eqn:He; [|by eexists _, _].
  destruct (is_expired e t1); cbn; [by eexists _, _|]. eexists _, _. split; [done|].
  apply (placed_put db k m); [done|done|by intros; apply lookup_insert_ne|].
  intros e'. rewrite lookup_insert_eq. intros [= <-].
  exact (pl_size db Hp _ m k e Hm He).
Qed.

Lemma get_cleanup_placed db k t :
  placed db -> exists db', get_cleanup db k t = Ret db' /\ placed db'.
Proof.
  intros Hp. unfold get_cleanup. destruct (placed_home db k Hp) as (m & -> & Hm).
  cbn [mbind outcome_bind]. destruct (m !! k) as [e|]; [|by eexists].
  destruct (is_expired e t); [|by eexists]. eexists. split; [done|].
  apply placed_fetch_add. by apply placed_delete.
Qed.

Lemma set_insert_placed db k v exp now :
  placed db -> exists db', set_insert db k v exp now = Ret db' /\ placed db'.
Proof.
  intros Hp. unfold set_insert. destruct (placed_home db k Hp) as (m & -> & Hm).
  cbn [mbind outcome_bind]. eexists. split; [done|]. apply placed_fetch_add.
  assert (Hput : placed (put_shard (shard_index db k) (<[k := Entry_new (length k) v exp now]> m) db)).
  { apply (placed_put db k m); [done|done|by intros; apply lookup_insert_ne|].
    intros e. rewrite lookup_insert_eq. by intros [= <-]. }
  destruct (m !! k); [by apply placed_fetch_add|done].
Qed.

Lemma del_placed db k : placed db -> exists r db', del db k = Ret (r, db') /\ placed db'.
Proof.
  intros Hp. unfold del. destruct (placed_home db k Hp) as (m & -> & Hm).
  cbn [mbind outcome_bind]. destruct (m !! k) as [e|]; [|by eexists _, _].
  eexists _, _. split; [done|]. apply placed_fetch_add. by apply placed_delete.
Qed.

(** The write region of a purge, whatever keys it was handed. *)
Lemma purge_remove_placed i ks p db :
  placed db -> (i < length (shards db))%nat ->
  exists p' db', purge_remove i ks (p, db) = Ret (p', db') /\ placed db'
    /\ length (shards db') = length (shards db).
Proof.
  revert p db. induction ks as [|[k s] ks IH]; intros p db Hp Hi; [by eexists _, _|].
  unfold purge_remove. cbn [fold_left purge_key mbind outcome_bind].
  destruct (lookup_lt_is_Some_2 _ _ Hi) as [m Hm]. unfold index. rewrite Hm.
  cbn [mbind outcome_bind]. destruct (m !! k) as [e|] eqn:He; [|by apply IH].
  destruct (IH (S p) (fetch_sub s (put_shard i (delete k m) db))) as (p' & db' & Hr & Hp' & Hl).
  - apply placed_fetch_add. apply placed_delete_at; [done|done|by rewrite He].
  - cbn. by rewrite length_insert.
  - exists p', db'. split_and!; [exact Hr|done|]. rewrite Hl. cbn. by rewrite length_insert.
Qed.

Lemma purge_remove_inv_placed i ks p db p' db' :
  placed db -> purge_remove i ks (p, db) = Ret (p', db') ->
  placed db' /\ length (shards db') = length (shards db).
Proof.
  intros Hp Hr. destruct (decide (i < length (shards db))%nat) as [Hi|Hi].
  - destruct (purge_remove_placed i ks p db Hp Hi) as (p2 & db2 & Hr2 & ?).
    rewrite Hr in Hr2. by injection Hr2 as -> ->.
  - destruct ks as [|[k s] ks]; [by injection Hr as <- <-|]. exfalso.
    unfold purge_remove in Hr. cbn [fold_left purge_key mbind outcome_bind] in Hr.
    unfold index in Hr. rewrite lookup_ge_None_2 in Hr by lia. cbn in Hr.
    clear -Hr. induction ks as [|x ks IH]; cbn in Hr; [done|by apply IH].
Qed.

Lemma step_placed db t db' t' : step db t db' t' -> placed db -> placed db'.
Proof.
  intros Hs Hp. inversion Hs; subst; try done.
  - destruct (get_lookup_placed db k t1 t2 Hp) as (? & ? & E & ?). congruence.
  - destruct (get_lookup_placed db k t1 t2 Hp) as (? & ? & E & ?). congruence.
  - destruct (get_cleanup_placed db k t0 Hp) as (? & E & ?). congruence.
  - apply placed_fetch_add. apply placed_delete_at; [done|done|by eexists].
  - destruct (set_insert_placed db k v exp now Hp) as (? & E & ?). congruence.
  - destruct (del_placed db k Hp) as (? & ? & E & ?). congruence.
  - by eapply purge_remove_inv_placed.
Qed.

(** The calls of a thread between regions refer to shards that exist. *)
Definition thread_ok (db : Db) (t : thread) : Prop :=
  match t with
  | SetEvict i _ _ _ _ | PurgeWrite i _ _ _ => (i < length (shards db))%nat
  | _ => True
  end.

(** The next region of the thread returns, whatever the clock reads. *)
Definition returns (db : Db) (t : thread) : Prop :=
  match t with
  | GetLookup k => forall t1 t2, exists r, get_lookup db k t1 t2 = Ret r
  | GetCleanup k => forall t, exists db', get_cleanup db k t = Ret db'
  | SetEvict i _ _ _ _ => exists m, index (shards db) i = Ret m
  | SetInsert k v exp => forall now, exists db', set_insert db k v exp now = Ret db'
  | DelRemove k => exists r, del db k = Ret r
  | PurgeWrite i _ _ ks => forall p, exists r, purge_remove i ks (p, db) = Ret r
  | SetCapacity _ _ _ | PurgeRead _ _ _ | KeysRead _ _ _ | MemoryUsed | Done => True
  end.

Lemma thread_returns db t : placed db -> thread_ok db t -> returns db t.
Proof.
  intros Hp Ht. destruct t; cbn in *; try done.
  - intros t1 t2. destruct (get_lookup_placed db k t1 t2 Hp) as (? & ? & -> & _). by eexists.
  - intros t. destruct (get_cleanup_placed db k t Hp) as (? & -> & _). by eexists.
  - destruct (lookup_lt_is_Some_2 _ _ Ht) as [m Hm]. unfold index. rewrite Hm. by eexists.
  - intros now. destruct (set_insert_placed db k v exp now Hp) as (? & -> & _). by eexists.
  - destruct (del_placed db k Hp) as (? & ? & -> & _). by eexists.
  - intros p. destruct (purge_remove_placed i keys_to_remove p db Hp Ht) as (? & ? & -> & _). by eexists.
Qed.

(** ** A thread that is not done has a step *)

Lemma default_order_ok : IterOrder (fun _ m => map_to_list m).
Proof. by intros i m. Qed.

Lemma thread_steps db t : placed db -> thread_ok db t -> t <> Done -> exists db' t', step db t db' t'.
Proof.
  intros Hp Ht Hd. pose proof (thread_returns db t Hp Ht) as Hr. destruct t; cbn in *; try done.
  - destruct (Hr 0 0) as [[[r|[]] db'] E]; eexists _, _; [by eapply step_get_found|by eapply step_get_expired].
  - destruct (Hr 0) as [db' E]. eexists _, _. by eapply step_get_cleanup.
  - eexists _, _. apply step_set_room.
  - destruct (lookup_lt_is_Some_2 _ _ Ht) as [m Hm]. destruct (m !! victim) eqn:E; eexists _, _.
    + by eapply step_set_evict.
    + by eapply step_set_gone.
  - destruct (Hr 0) as [db' E]. eexists _, _. by eapply step_set_insert.
  - destruct Hr as [[r db'] E]. eexists _, _. by eapply step_del.
  - destruct (decide (i < length (shards db))%nat) as [Hi|Hi].
    + destruct (lookup_lt_is_Some_2 _ _ Hi) as [m Hm]. eexists _, _.
      by eapply (step_purge_read _ db i sample now m default_order_ok).
    + eexists _, _. apply step_purge_end. lia.
  - destruct (Hr 0%nat) as [[p' db'] E]. eexists _, _. by eapply step_purge_write.
  - destruct (decide (i < length (shards db))%nat) as [Hi|Hi].
    + destruct (lookup_lt_is_Some_2 _ _ Hi) as [m Hm]. eexists _, _.
      by eapply (step_keys_read _ db i now all_keys m default_order_ok).
    + eexists _, _. apply step_keys_end. lia.
  - eexists _, _. apply step_memory_used.
Qed.

(** ** The regions that keep the accounting exact *)

Definition purging (t : thread) : bool :=
  match t with
  | PurgeRead _ _ _ | PurgeWrite _ _ _ _ => true
  | _ => false
  end.

Lemma step_length db t db' t' :
  placed db -> step db t db' t' -> length (shards db') = length (shards db).
Proof.
  intros Hp Hs. inversion Hs; subst; cbn; rewrite ?length_insert; try done;
    try (eapply purge_remove_inv_placed; [exact Hp|eassumption]);
    match goal with
    | E : get_lookup _ _ _ _ = _ |- _ => unfold get_lookup in E; rename E into E0
    | E : get_cleanup _ _ _ = _ |- _ => unfold get_cleanup in E; rename E into E0
    | E : set_insert _ _ _ _ _ = _ |- _ => unfold set_insert in E; rename E into E0
    | E : del _ _ = _ |- _ => unfold del in E; rename E into E0
    end;
    apply outcome_bind_Ret in E0 as (m & _ & E0); repeat case_hyp E0; simplify_eq;
    cbn; by rewrite ?length_insert.
Qed.

Lemma step_thread_ok db t db' t' : placed db -> step db t db' t' -> thread_ok db' t'.
Proof.
  intros Hp Hs. pose proof (step_length _ _ _ _ Hp Hs) as Hl.
  inversion Hs; subst; cbn; try done. by eapply lookup_lt_Some.
Qed.

Lemma thread_ok_length db db' t : length (shards db') = length (shards db) -> thread_ok db t -> thread_ok db' t.
Proof. intros Hl. destruct t; cbn; by rewrite ?Hl. Qed.

Lemma step_not_purging db t db' t' : step db t db' t' -> purging t = false -> purging t' = false.
Proof. by destruct 1. Qed.

Lemma delete_home_inv db i k m e :
  inv db -> shards db !! i = Some m -> m !! k = Some e ->
  inv (fetch_sub (approx_size_bytes e) (put_shard i (delete k m) db)).
Proof.
  intros Hi Hm He. pose proof (inv_home db Hi i m k Hm (mk_is_Some _ _ He)) as <-.
  by apply write_delete.
Qed.

Lemma step_inv db t db' t' : step db t db' t' -> purging t = false -> inv db -> inv db'.
Proof.
  intros Hs Hn Hi. inversion Hs; subst; try done.
  - destruct (get_spec db k t1 t2 Hi) as (r0 & db0 & Hg & Hi0 & _).
    unfold get in Hg. rewrite H0 in Hg. cbn in Hg. congruence.
  - unfold get_lookup in H0. apply outcome_bind_Ret in H0 as (m & _ & E).
    repeat case_hyp E; by simplify_eq.
  - unfold get_cleanup in H0. destruct (index_home db k Hi) as (m & Hix & Hm & _).
    rewrite Hix in H0. cbn [mbind outcome_bind] in H0.
    destruct (m !! k) as [e|] eqn:He; [|by simplify_eq].
    case_hyp H0; simplify_eq; [|done]. by apply delete_home_inv.
  - by apply delete_home_inv.
  - destruct (set_insert_spec db k v exp now Hi) as (db0 & Hg & Hi0 & _). congruence.
  - destruct (del_spec db k Hi) as (r0 & db0 & Hg & Hi0 & _). congruence.
Qed.

(** The state of the system that every step keeps. *)
Definition sys_ok (s : sys) : Prop := placed (store s) /\ Forall (thread_ok (store s)) (threads s).

Lemma threads_step_ok s s' : sys_step s s' -> sys_ok s -> sys_ok s'.
Proof.
  intros [s0 i t db' t' Hi Hs] [Hp Ht]. split; cbn; [by eapply step_placed|].
  apply Forall_insert; [|by eapply step_thread_ok].
  eapply Forall_impl; [exact Ht|]. intros x. apply thread_ok_length. by eapply step_length.
Qed.

Lemma reachable_ok s s' : reachable s s' -> sys_ok s -> sys_ok s'.
Proof. induction 1; [done|]. intros Hok. apply IHrtc. by eapply threads_step_ok. Qed.

Lemma reachable_inv s s' :
  reachable s s' -> inv (store s) -> Forall (fun t => purging t = false) (threads s) -> inv (store s').
Proof.
  induction 1 as [|s1 s2 s3 [s i t db' t' Hi Hs] _ IH]; [done|]. intros Hinv Hall.
  pose proof (Forall_lookup_1 _ _ _ _ Hall Hi) as Ht. apply IH; cbn.
  - by eapply step_inv.
  - apply Forall_insert; [done|]. by eapply step_not_purging.
Qed.

(** ** The theorems *)

(** C19: no interleaving of the store's calls panics or gets stuck.  From
    a well-placed store, whatever the scheduler does, every key stays in the
    shard its hash selects with its entry's size recorded, the next region
    of every call in progress returns whatever the clock reads, and every
    call that is not finished can itself take its next step. *)
Theorem interleavings_are_safe s s' :
  reachable s s' -> sys_ok s ->
  placed (store s')
  /\ forall i t, threads s' !! i = Some t ->
       returns (store s') t
       /\ (t <> Done -> exists db2 t2,
             sys_step s' {| store := db2; threads := <[i := t2]> (threads s') |}
             /\ step (store s') t db2 t2).
Proof.
  intros Hr Hok. destruct (reachable_ok s s' Hr Hok) as [Hp Ht]. split; [done|].
  intros i t Hi. pose proof (Forall_lookup_1 _ _ _ _ Ht Hi) as Hti. split.
  - by apply thread_returns.
  - intros Hd. destruct (thread_steps (store s') t Hp Hti Hd) as (db' & t' & Hs).
    exists db', t'. split; [|done]. by eapply sys_step_at.
Qed.

(** C20: GET, SET (with its evictions), DEL, EXISTS and KEYS keep the memory
    counter exact under every interleaving: at every reachable state the
    counter is the total size of the entries stored. *)
Theorem interleaved_accounting s s' :
  reachable s s' -> inv (store s) -> Forall (fun t => purging t = false) (threads s) ->
  used_memory (store s') = wrap_usize (total_size (store s')).
Proof. intros Hr Hi Ht. apply inv_used. by eapply reachable_inv. Qed.

(** One removal by the write region of a purge. *)
Lemma purge_remove_one i k size p db m e :
  shards db !! i = Some m -> m !! k = Some e ->
  purge_remove i [(k, size)] (p, db)
  = Ret (S p, fetch_sub size (put_shard i (delete k m) db)).
Proof.
  intros Hm He. unfold purge_remove. cbn [fold_left purge_key mbind outcome_bind].
  unfold index. rewrite Hm. cbn [mbind outcome_bind]. by rewrite He.
Qed.

(** C38: a purge can delete a live key.  When the expired entry of [k] is
    what a purge collects in its read region, and a SET of [k] without
    expiry completes before the purge takes the write lock, there is a
    schedule at whose end the SET has returned, the key is absent although
    nothing expired or deleted the new value, and the memory counter is off
    by the difference of the two entries' sizes. *)
Theorem purge_deletes_concurrent_set ord db k v e m sample now :
  IterOrder ord -> inv db ->
  shards db !! shard_index db k = Some m -> m !! k = Some e ->
  purge_collect ord (shard_index db k) m sample now = [(k, approx_size_bytes e)] ->
  exists db',
    reachable
      {| store := db; threads := [PurgeRead (shard_index db k) sample now; SetCapacity k v None] |}
      {| store := db'; threads := [PurgeRead (S (shard_index db k)) sample now; Done] |}
    /\ (forall m', shards db' !! shard_index db k = Some m' -> m' !! k = None)
    /\ used_memory db' = wrap_usize (total_size db'
         + (Z.of_nat (length k) + Z.of_nat (length v) + sizeof_Entry) - approx_size_bytes e).
Proof.
  intros Hord Hi Hm He Hcol. set (i := shard_index db k) in *.
  destruct (set_insert_spec db k v None 0 Hi) as (db1 & Hset & Hi1 & (Hmask & _ & Hlen) & Hc1 & _).
  assert (Hix : shard_index db1 k = i) by (unfold i, shard_index; by rewrite Hmask).
  destruct (home_shard db1 k Hi1) as [m1 Hm1].
  pose proof (content_lookup db1 k m1 Hi1 Hm1) as Hk1. rewrite Hix in Hm1.
  rewrite Hc1 in Hk1. unfold spec_set in Hk1. rewrite lookup_insert_eq in Hk1. symmetry in Hk1.
  exists (fetch_sub (approx_size_bytes e) (put_shard i (delete k m1) db1)). split_and!.
  - eapply rtc_l; [apply (sys_step_at _ 0 (PurgeRead i sample now)); [done|by eapply (step_purge_read ord)]|].
    eapply rtc_l; [apply (sys_step_at _ 1 (SetCapacity k v None)); [done|apply step_set_room]|].
    eapply rtc_l; [apply (sys_step_at _ 1 (SetInsert k v None)); [done|by eapply step_set_insert]|].
    eapply rtc_l; [apply (sys_step_at _ 0 (PurgeWrite i sample now [(k, approx_size_bytes e)]));
      [by rewrite <- Hcol|apply (step_purge_write _ _ _ _ _ 0 1); by eapply purge_remove_one]|].
    reflexivity.
  - intros m'. cbn. rewrite list_lookup_insert_eq by (by eapply lookup_lt_Some).
    intros [= <-]. apply lookup_delete_eq.
  - change (wrap_usize (used_memory db1 + - approx_size_bytes e)
      = wrap_usize (total_size (put_shard i (delete k m1) db1)
         + (Z.of_nat (length k) + Z.of_nat (length v) + sizeof_Entry) - approx_size_bytes e)).
    rewrite (inv_used db1 Hi1), wrap_usize_add, (total_size_put_shard db1 i m1) by done.
    rewrite (shard_size_delete m1 k _ Hk1). cbn [approx_size_bytes Entry_new]. f_equal. lia.
Qed.

End Conc.

(** ** Witnesses *)

Section ConcWitnesses.
#[local] Existing Instance witness_platform.
Abbreviation reachable := (rtc sys_step).

Definition busy : list thread :=
  [GetLookup b!"k"; SetCapacity b!"k" b!"w" None; DelRemove b!"k"; KeysRead 0 7 []; MemoryUsed].

Lemma interleavings_are_safe_witness :
  exists db, filled_store = Ret db /\
  placed db
  /\ forall i t, (PurgeRead 0 20 7 :: busy) !! i = Some t ->
       returns db t
       /\ (t <> Done -> exists db2 t2,
             sys_step {| store := db; threads := PurgeRead 0 20 7 :: busy |}
               {| store := db2; threads := <[i := t2]> (PurgeRead 0 20 7 :: busy) |}
             /\ step db t db2 t2).
Proof.
  destruct filled as (db & Hw & Hi & _). exists db. split; [exact Hw|].
  apply (interleavings_are_safe {| store := db; threads := PurgeRead 0 20 7 :: busy |}
    {| store := db; threads := PurgeRead 0 20 7 :: busy |}).
  - reflexivity.
  - split; [apply inv_placed; exact Hi|]. repeat constructor.
Defined.

Lemma interleaved_accounting_witness :
  exists db, filled_store = Ret db /\
  exists s', reachable {| store := db; threads := busy |} s'
    /\ threads s' = [GetLookup b!"k"; SetInsert b!"k" b!"w" None; DelRemove b!"k"; KeysRead 0 7 []; MemoryUsed]
    /\ used_memory (store s') = wrap_usize (total_size (store s')).
Proof.
  destruct filled as (db & Hw & Hi & _). exists db. split; [exact Hw|].
  exists {| store := db; threads := [GetLookup b!"k"; SetInsert b!"k" b!"w" None; DelRemove b!"k"; KeysRead 0 7 []; MemoryUsed] |}.
  assert (Hr : reachable {| store := db; threads := busy |}
    {| store := db; threads := [GetLookup b!"k"; SetInsert b!"k" b!"w" None; DelRemove b!"k"; KeysRead 0 7 []; MemoryUsed] |}).
  { apply rtc_once. apply (sys_step_at {| store := db; threads := busy |} 1 (SetCapacity b!"k" b!"w" None));
      [reflexivity|apply step_set_room]. }
  split; [exact Hr|]. split; [reflexivity|].
  apply (interleaved_accounting _ _ Hr Hi). repeat constructor.
Defined.

Lemma purge_deletes_concurrent_set_witness :
  exists db, filled_store = Ret db /\
  exists db',
    reachable
      {| store := db; threads := [PurgeRead (shard_index db b!"k") 20 7; SetCapacity b!"k" b!"live" None] |}
      {| store := db'; threads := [PurgeRead (S (shard_index db b!"k")) 20 7; Done] |}
    /\ (forall m', shards db' !! shard_index db b!"k" = Some m' -> m' !! b!"k" = None)
    /\ used_memory db' = wrap_usize (total_size db' + (1 + 4 + sizeof_Entry)
         - approx_size_bytes (Entry_new 1 b!"v" (Some 5) 1)).
Proof.
  destruct filled as (db & Hw & Hi & Hk). exists db. split; [exact Hw|].
  destruct (content_lookup_inv db b!"k" _ Hi Hk) as (m & Hm & He).
  eapply (purge_deletes_concurrent_set list_order db b!"k" b!"live" _ m 20 7 list_order_ok Hi Hm He).
  assert (Hcol : match filled_store with
    | Ret db => match shards db !! shard_index db b!"k" with
                | Some m => purge_collect list_order (shard_index db b!"k") m 20 7
                | None => []
                end
    | _ => []
    end = [(b!"k", 66)]) by (vm_compute; reflexivity).
  rewrite Hw, Hm in Hcol. exact Hcol.
Defined.

End ConcWitnesses.
