(* ===== verification/Store.v ===== *)
(** * The store as its clients see it

    [Store] is the interface of [Db] the commands and the replica call, and
    [StoreLaws] what it promises: every call returns and acts on the map
    [contents] as specified, where a SET may first evict other entries.  The
    theorems on commands, connections and replicas are proved against it;
    [Db_laws] shows that the sharded store keeps the promise. *)

From S2P Require Import Prelude Storage StorageTheory.
Import Storage.

Class Store := {
  store : Type;
  db_get : store -> bytes -> Z -> Z -> outcome (option bytes * store);
  db_set : store -> bytes -> bytes -> option Z -> Z -> outcome store;
  db_del : store -> bytes -> outcome (bool * store);
  db_exists : store -> bytes -> Z -> Z -> outcome (bool * store);
  db_keys : store -> Z -> list bytes;
  db_purge : store -> nat -> Z -> outcome (nat * store);
}.

Class StoreLaws `{Platform} `{Store} := {
  store_ok : store -> Prop;
  contents : store -> shard;
  unbounded : store -> Prop;
  get_law st k t1 t2 : store_ok st -> exists r st',
    db_get st k t1 t2 = Ret (r, st') /\ store_ok st' /\ (unbounded st -> unbounded st')
    /\ spec_get (contents st) k t1 t2 = (r, contents st');
  set_law st k v exp now : store_ok st -> exists st' m,
    db_set st k v exp now = Ret st' /\ store_ok st' /\ (unbounded st -> unbounded st')
    /\ m ⊆ contents st /\ (unbounded st -> m = contents st)
    /\ contents st' = spec_set m k v exp now;
  del_law st k : store_ok st -> exists r st',
    db_del st k = Ret (r, st') /\ store_ok st' /\ (unbounded st -> unbounded st')
    /\ spec_del (contents st) k = (r, contents st');
  exists_law st k t1 t2 : store_ok st -> exists st',
    db_exists st k t1 t2 = Ret (bool_decide (is_Some (fst (spec_get (contents st) k t1 t2))), st')
    /\ store_ok st' /\ (unbounded st -> unbounded st')
    /\ contents st' = snd (spec_get (contents st) k t1 t2);
  keys_law st now k : store_ok st ->
    k ∈ db_keys st now <-> exists e, contents st !! k = Some e /\ is_expired e now = false;
  purge_law st sample now : store_ok st -> exists n st',
    db_purge st sample now = Ret (n, st') /\ store_ok st' /\ (unbounded st -> unbounded st')
    /\ contents st' ⊆ contents st
    /\ (forall k e, contents st !! k = Some e -> is_expired e now = false -> contents st' !! k = Some e);
}.

(** ** The sharded store *)

#[export] Instance Db_store `{Platform} (ord : iter_order) : Store | 100 := {|
  store := Db;
  db_get := get;
  db_set := set_ ord;
  db_del := del;
  db_exists := exists_;
  db_keys := keys ord;
  db_purge := purge_expired_sample ord;
|}.

#[export] Program Instance Db_laws `{Platform} ord (Hord : IterOrder ord) : @StoreLaws _ (Db_store ord) := {|
  store_ok := inv;
  contents := content;
  unbounded := fun db => max_memory_bytes db <= 0;
|}.
Next Obligation.
  intros H ord Hord db k t1 t2 Hi. destruct (get_spec db k t1 t2 Hi) as (r & db' & Hg & Hi' & (_ & Hm & _) & Hs).
  exists r, db'. split_and!; [done|done|cbn; lia|done].
Qed.
Next Obligation.
  intros H ord Hord db k v exp now Hi.
  destruct (set_spec ord Hord db k v exp now Hi) as (db1 & db' & Hs & _ & Hi' & (_ & Hm & _) & Hsub & _ & Heq & _ & Hc & _).
  exists db', (content db1). split_and!; [done|done|cbn; lia|done| |done].
  cbn. intros Hu. by rewrite (Heq Hu).
Qed.
Next Obligation.
  intros H ord Hord db k Hi. destruct (del_spec db k Hi) as (r & db' & Hd & Hi' & (_ & Hm & _) & Hs).
  exists r, db'. split_and!; [done|done|cbn; lia|done].
Qed.
Next Obligation.
  intros H ord Hord db k t1 t2 Hi. destruct (exists_spec db k t1 t2 Hi) as (r & db' & He & Hi' & (_ & Hm & _) & -> & Hs).
  exists db'. split_and!; [done|done|cbn; lia|done].
Qed.
Next Obligation. intros H ord Hord db now k Hi. by apply keys_spec. Qed.
Next Obligation.
  intros H ord Hord db sample now Hi.
  destruct (purge_content_spec ord Hord db sample now Hi) as (n & db' & Hp & Hi' & (_ & Hm & _) & _ & Hsub & Hexp & _).
  exists n, db'. split_and!; [done|done|cbn; lia|by apply map_subseteq_spec|].
  cbn. intros k e Hk He. destruct (content db' !! k) as [e'|] eqn:E.
  - apply Hsub in E. congruence.
  - rewrite (Hexp k e Hk E) in He. done.
Qed.
