(* ===== verification/Calls.v ===== *)
(** * The calls of the store, one locked region at a time

    A call of the store takes the lock of one shard at a time; between two of
    its regions the other tasks run.  [StoreRegions] is the interface of these
    regions and [RegionLaws] what they promise of a store that is only well
    placed ([store_wf]), the part of the invariant that every interleaving
    keeps (the memory counter is exact only without the purge, see
    [StorageConc]).  [set_step], [keys_step] and [purge_step] are the loops of
    [Db::set], [Db::keys] and [Db::purge_expired_sample] as steps.
    [Db_region_laws] shows that the sharded store keeps the promise, and that
    the regions of a call that is not interrupted are the call. *)

From S2P Require Import Prelude Storage StorageTheory StorageConc Store.
Import Storage.

Abbreviation victim := (nat * bytes * Z)%type.

Class StoreRegions `{Store} := {
  (** [get]: the first region; [inr] if the key is there but expired, and the
      cleanup that follows then. *)
  lookup_in : store -> bytes -> Z -> Z -> outcome ((option bytes + unit) * store);
  cleanup_in : store -> bytes -> Z -> outcome store;
  (** [set]: there is a limit and the counter has reached it, where the
      counter read is [lag] away from its value between the regions (a region
      that replaces an entry updates it twice); the search of one shard; the
      removal of the victim; the insertion. *)
  over_limit : store -> Z -> bool;
  shard_total : store -> nat;
  scan_in : store -> nat -> option victim -> outcome (option victim);
  evict_in : store -> nat -> bytes -> outcome (bool * store);
  insert_in : store -> bytes -> bytes -> option Z -> Z -> outcome store;
  (** [keys] of one shard. *)
  keys_in : store -> nat -> Z -> outcome (list bytes);
  (** [purge_expired_sample] of one shard: the read and the write region. *)
  collect_in : store -> nat -> nat -> Z -> outcome (list (bytes * Z));
  remove_in : store -> nat -> list (bytes * Z) -> outcome (nat * store);
}.

(** ** The loops *)

(** Where a SET is. *)
Inductive set_call : Type :=
| SetTest                                      (** at the head of the loop *)
| SetScan (i : nat) (oldest : option victim)   (** before the shard [i] of the search *)
| SetEvict (idx : nat) (key : bytes)
| SetInsert.

(** Where a purge is. *)
Inductive purge_call : Type :=
| PurgeRead (now : Z) (i : nat)
| PurgeWrite (now : Z) (i : nat) (keys_to_remove : list (bytes * Z)).

Section Steps.
Context `{StoreRegions}.

(** The next region of a SET; [None] when it has returned. *)
Definition set_step (key v : bytes) (exp : option Z) (now lag : Z) (c : set_call) (st : store)
    : outcome (option set_call * store) :=
  match c with
  | SetTest => Ret (Some (if over_limit st lag then SetScan 0 None else SetInsert), st)
  | SetScan i oldest =>
      if (i <? shard_total st)%nat
      then o ← scan_in st i oldest; Ret (Some (SetScan (S i) o), st)
      else Ret (Some (match oldest with Some (idx, k, _) => SetEvict idx k | None => SetInsert end), st)
  | SetEvict idx k => '(removed, st1) ← evict_in st idx k; Ret (Some (if removed : bool then SetTest else SetInsert), st1)
  | SetInsert => st1 ← insert_in st key v exp now; Ret (None, st1)
  end.

(** The next shard of KEYS; [None] after the last. *)
Definition keys_step (now : Z) (i : nat) (st : store) : outcome (option (list bytes)) :=
  if (i <? shard_total st)%nat then ks ← keys_in st i now; Ret (Some ks) else Ret None.

(** The next region of a purge; [None] when it has returned. *)
Definition purge_step (sample : nat) (c : purge_call) (st : store) : outcome (option purge_call * store) :=
  match c with
  | PurgeRead now i =>
      if (i <? shard_total st)%nat then
        ks ← collect_in st i sample now;
        Ret (Some (match ks with [] => PurgeRead now (S i) | _ => PurgeWrite now i ks end), st)
      else Ret (None, st)
  | PurgeWrite now i ks => '(_, st1) ← remove_in st i ks; Ret (Some (PurgeRead now (S i)), st1)
  end.

(** A SET that is not interrupted, in [n] regions at most. *)
Fixpoint set_alone (n : nat) (key v : bytes) (exp : option Z) (now : Z) (c : set_call) (st : store) : outcome store :=
  match n with
  | O => NoFuel
  | S n =>
      '(c1, st1) ← set_step key v exp now 0 c st;
      match c1 with
      | Some c1 => set_alone n key v exp now c1 st1
      | None => Ret st1
      end
  end.

(** KEYS that is not interrupted, from the shard [i] on. *)
Fixpoint keys_alone (n : nat) (now : Z) (i : nat) (st : store) : outcome (list bytes) :=
  match n with
  | O => NoFuel
  | S n =>
      r ← keys_step now i st;
      match r with
      | Some ks => more ← keys_alone n now (S i) st; Ret (ks ++ more)
      | None => Ret []
      end
  end.

End Steps.

(** ** What the regions promise *)

Class RegionLaws `{StoreLaws} `{!StoreRegions} := {
  store_wf : store -> Prop;
  (** What every region keeps. *)
  keeps : store -> store -> Prop := fun st st' =>
    store_wf st' /\ shard_total st' = shard_total st /\ (unbounded st -> unbounded st');
  ok_wf st : store_ok st -> store_wf st;
  unbounded_limit st lag : unbounded st -> over_limit st lag = false;
  lookup_region st k t1 t2 : store_wf st -> exists r st',
    lookup_in st k t1 t2 = Ret (r, st') /\ keeps st st' /\ dom (contents st') = dom (contents st);
  cleanup_region st k t : store_wf st -> exists st',
    cleanup_in st k t = Ret st' /\ keeps st st' /\ contents st' ⊆ contents st;
  del_region st k : store_wf st -> exists r st',
    db_del st k = Ret (r, st') /\ keeps st st' /\ contents st' ⊆ contents st;
  scan_region st i o : store_wf st -> (i < shard_total st)%nat -> exists o',
    scan_in st i o = Ret o' /\ (o' = o \/ exists k t, o' = Some (i, k, t));
  evict_region st i k : store_wf st -> (i < shard_total st)%nat -> exists (removed : bool) st',
    evict_in st i k = Ret (removed, st') /\ keeps st st'
    /\ if removed then contents st' ⊂ contents st else st' = st;
  insert_region st k v exp now : store_wf st -> exists st',
    insert_in st k v exp now = Ret st' /\ keeps st st' /\ contents st' = spec_set (contents st) k v exp now;
  keys_region st i now : store_wf st -> (i < shard_total st)%nat -> exists ks, keys_in st i now = Ret ks;
  collect_region st i sample now : store_wf st -> (i < shard_total st)%nat -> exists ks,
    collect_in st i sample now = Ret ks
    /\ forall k, k ∈ ks.*1 -> exists e, contents st !! k = Some e /\ is_expired e now = true;
  remove_region st i ks : store_wf st -> (i < shard_total st)%nat -> exists n st',
    remove_in st i ks = Ret (n, st') /\ keeps st st' /\ contents st' ⊆ contents st
    /\ (forall k, k ∉ ks.*1 -> contents st' !! k = contents st !! k);
  (** Uninterrupted regions are the call. *)
  get_regions st k t1 t2 : db_get st k t1 t2
    = ('(r, st1) ← lookup_in st k t1 t2;
       match r with
       | inl res => Ret (res, st1)
       | inr _ => st2 ← cleanup_in st1 k t2; Ret (None, st2)
       end);
  exists_regions st k t1 t2 : db_exists st k t1 t2 = ('(r, st1) ← db_get st k t1 t2; Ret (bool_decide (is_Some r), st1));
  set_regions st k v exp now : store_ok st -> exists n, set_alone n k v exp now SetTest st = db_set st k v exp now;
  keys_regions st now : store_ok st -> exists n, keys_alone n now 0 st = Ret (db_keys st now);
}.

Lemma keeps_refl `{RegionLaws} st : store_wf st -> keeps st st.
Proof. intros Hw. by split_and!. Qed.

Lemma keeps_trans `{RegionLaws} st1 st2 st3 : keeps st1 st2 -> keeps st2 st3 -> keeps st1 st3.
Proof. intros (_ & Ht & Hu) (Hw' & Ht' & Hu'). split_and!; [done|congruence|auto]. Qed.

(** ** A SET ends *)

Section SetEnds.
Context `{RegionLaws}.
Variables (key v : bytes) (exp : option Z) (now : Z).

(** The regions of a SET that is not interrupted, to its end. *)
Inductive set_reach : set_call -> store -> store -> Prop :=
| reach_end c st st' : set_step key v exp now 0 c st = Ret (None, st') -> set_reach c st st'
| reach_more c st c1 st1 st' :
    set_step key v exp now 0 c st = Ret (Some c1, st1) -> set_reach c1 st1 st' -> set_reach c st st'.

Definition set_returns (c : set_call) (st : store) : Prop :=
  exists st' m, set_reach c st st' /\ contents st' = spec_set m key v exp now.

Lemma set_more c st c1 st1 :
  set_step key v exp now 0 c st = Ret (Some c1, st1) -> set_returns c1 st1 -> set_returns c st.
Proof. intros Hs (st' & m & Hr & Hc). exists st', m. split; [by eapply reach_more|done]. Qed.

Lemma insert_returns st : store_wf st -> set_returns SetInsert st.
Proof.
  intros Hw. destruct (insert_region st key v exp now Hw) as (st' & Hi & _ & Hc). exists st', (contents st).
  split; [|done]. apply reach_end. cbn [set_step]. by rewrite Hi.
Qed.

(** From a well-placed store alone, however far off the counter is: every
    round of the eviction loop takes an entry. *)
Lemma set_ends st : store_wf st -> set_returns SetTest st.
Proof.
  remember (size (contents st)) as n eqn:En. revert st En. induction n as [n IH] using lt_wf_ind. intros st En Hw.
  assert (Hevict : forall idx k, (idx < shard_total st)%nat -> set_returns (SetEvict idx k) st).
  { intros idx k Hi. destruct (evict_region st idx k Hw Hi) as (removed & st' & He & (Hw' & _) & Hr).
    assert (Hs : set_step key v exp now 0 (SetEvict idx k) st = Ret (Some (if removed then SetTest else SetInsert), st'))
      by (cbn [set_step]; by rewrite He).
    eapply set_more; [exact Hs|]. destruct removed; [|by apply insert_returns].
    eapply IH; [|done|done]. rewrite En. by apply map_subset_size. }
  assert (Hscan : forall d i o, (shard_total st - i = d)%nat ->
    (match o with Some (idx, _, _) => idx < shard_total st | None => True end)%nat -> set_returns (SetScan i o) st).
  { induction d as [|d IHd]; intros i o Hd Ho.
    - eapply set_more; [cbn [set_step]; destruct (Nat.ltb_spec i (shard_total st)); [lia|reflexivity]|].
      destruct o as [[[idx k] t]|]; [by apply Hevict|by apply insert_returns].
    - destruct (scan_region st i o Hw ltac:(lia)) as (o' & Hs & Ho').
      eapply set_more; [cbn [set_step]; destruct (Nat.ltb_spec i (shard_total st)); [by rewrite Hs|lia]|].
      apply IHd; [lia|]. destruct Ho' as [->|(k & t & ->)]; [done|lia]. }
  eapply set_more; [reflexivity|]. destruct (over_limit st 0); [by eapply Hscan|by apply insert_returns].
Qed.

End SetEnds.

(** ** The sharded store *)

Section DbRegions.
Context `{Platform}.
Variable ord : iter_order.

(** The removal of the victim in [ensure_memory_capacity]. *)
Definition evict_remove (db : Db) (idx : nat) (key : bytes) : outcome (bool * Db) :=
  shard ← index (shards db) idx;
  match shard !! key with
  | Some removed => Ret (true, fetch_sub (approx_size_bytes removed) (put_shard idx (delete key shard) db))
  | None => Ret (false, db)
  end.

(** One shard of [keys]. *)
Definition shard_keys (db : Db) (i : nat) (now : Z) : outcome (list bytes) :=
  m ← index (shards db) i;
  Ret (live_keys ord now i m).

End DbRegions.

#[export] Program Instance Db_regions `{Platform} (ord : iter_order) : @StoreRegions (Db_store ord) | 100 := {|
  lookup_in := get_lookup;
  cleanup_in := get_cleanup;
  over_limit := fun db lag => (0 <? max_memory_bytes db) && (max_memory_bytes db <=? used_memory db + lag);
  shard_total := fun db => length (shards db);
  scan_in := fun db i oldest => m ← index (shards db) i; Ret (scan_shard ord oldest (i, m));
  evict_in := evict_remove;
  insert_in := set_insert;
  keys_in := shard_keys ord;
  collect_in := fun db i sample now => m ← index (shards db) i; Ret (purge_collect ord i m sample now);
  remove_in := fun db i ks => purge_remove i ks (0%nat, db);
|}.

(** ** The sharded store keeps the promise *)

Section DbLaws.
Context `{Platform}.

(** What the regions of the sharded store keep. *)
Definition db_keeps (db db' : Db) : Prop :=
  placed db' /\ length (shards db') = length (shards db) /\ (max_memory_bytes db <= 0 -> max_memory_bytes db' <= 0).

Lemma db_keeps_refl db : placed db -> db_keeps db db.
Proof. by intros Hp. Qed.

Lemma db_keeps_trans a b c : db_keeps a b -> db_keeps b c -> db_keeps a c.
Proof. intros (_ & H1 & H2) (? & H3 & H4). split_and!; [done|congruence|auto]. Qed.

Lemma db_keeps_fetch n db db' : db_keeps db db' -> db_keeps db (fetch_add n db').
Proof. intros (Hp & Hl & Hm). split_and!; [by apply placed_fetch_add|done|done]. Qed.

(** Replacing the entry of [k] in its home shard. *)
Lemma put_region db k m m' :
  placed db -> shards db !! shard_index db k = Some m ->
  (forall k', k' <> k -> m' !! k' = m !! k') ->
  (forall e, m' !! k = Some e ->
    approx_size_bytes e = Z.of_nat (length k) + Z.of_nat (length (value e)) + sizeof_Entry) ->
  db_keeps db (put_shard (shard_index db k) m' db)
  /\ forall k', content (put_shard (shard_index db k) m' db) !! k' = if decide (k' = k) then m' !! k else content db !! k'.
Proof.
  intros Hp Hm Ho Hs. pose proof (placed_put db k m m' Hp Hm Ho Hs) as Hp'. split.
  - split_and!; [done|cbn; by rewrite length_insert|done].
  - exact (write_content_placed db k m m' 0 Hp (write_placed db k m m' 0 Hp Hm Ho Hs) Hm Ho).
Qed.

Lemma put_insert db k m e :
  placed db -> shards db !! shard_index db k = Some m ->
  approx_size_bytes e = Z.of_nat (length k) + Z.of_nat (length (value e)) + sizeof_Entry ->
  db_keeps db (put_shard (shard_index db k) (<[k := e]> m) db)
  /\ content (put_shard (shard_index db k) (<[k := e]> m) db) = <[k := e]> (content db).
Proof.
  intros Hp Hm He. destruct (put_region db k m (<[k := e]> m) Hp Hm) as [Hk Hc].
  - intros; by apply lookup_insert_ne.
  - intros e'. rewrite lookup_insert_eq. by intros [= <-].
  - split; [done|]. apply map_eq. intros k'. rewrite Hc.
    destruct (decide (k' = k)) as [->|]; by rewrite ?lookup_insert_eq, ?lookup_insert_ne.
Qed.

Lemma put_delete db k m :
  placed db -> shards db !! shard_index db k = Some m ->
  db_keeps db (put_shard (shard_index db k) (delete k m) db)
  /\ content (put_shard (shard_index db k) (delete k m) db) = delete k (content db).
Proof.
  intros Hp Hm. destruct (put_region db k m (delete k m) Hp Hm) as [Hk Hc].
  - intros; by apply lookup_delete_ne.
  - intros e'. by rewrite lookup_delete_eq.
  - split; [done|]. apply map_eq. intros k'. rewrite Hc.
    destruct (decide (k' = k)) as [->|]; by rewrite ?lookup_delete_eq, ?lookup_delete_ne.
Qed.

Lemma placed_content db k : placed db -> exists m,
  index (shards db) (shard_index db k) = Ret m /\ shards db !! shard_index db k = Some m /\ content db !! k = m !! k.
Proof.
  intros Hp. destruct (placed_home db k Hp) as (m & Hix & Hm). exists m. split_and!; [done|done|].
  by apply content_lookup_placed.
Qed.

(** The same for an entry found in the shard [i]. *)
Lemma put_delete_at db i k m e :
  placed db -> shards db !! i = Some m -> m !! k = Some e ->
  content db !! k = Some e
  /\ db_keeps db (put_shard i (delete k m) db) /\ content (put_shard i (delete k m) db) = delete k (content db).
Proof.
  intros Hp Hm He. pose proof (pl_home db Hp i m k Hm (mk_is_Some _ _ He)) as <-.
  split; [by rewrite (content_lookup_placed db k m)|by apply put_delete].
Qed.

Lemma lookup_keeps db k t1 t2 : placed db -> exists r db',
  get_lookup db k t1 t2 = Ret (r, db') /\ db_keeps db db' /\ dom (content db') = dom (content db).
Proof.
  intros Hp. unfold get_lookup. destruct (placed_content db k Hp) as (m & -> & Hm & Hc). cbn [mbind outcome_bind].
  destruct (m !! k) as [e|] eqn:He; [|by eexists _, _]. destruct (is_expired e t1); cbn; [by eexists _, _|].
  destruct (put_insert db k m (touch e t2) Hp Hm) as [Hk Hc']; [exact (pl_size db Hp _ m k e Hm He)|].
  eexists _, _. split_and!; [done|done|]. rewrite Hc', dom_insert_L.
  assert (k ∈ dom (content db)) by (apply elem_of_dom; by rewrite Hc). set_solver.
Qed.

Lemma cleanup_keeps db k t : placed db -> exists db',
  get_cleanup db k t = Ret db' /\ db_keeps db db' /\ content db' ⊆ content db.
Proof.
  intros Hp. unfold get_cleanup. destruct (placed_content db k Hp) as (m & -> & Hm & Hc). cbn [mbind outcome_bind].
  destruct (m !! k) as [e|]; [|by eexists]. destruct (is_expired e t); [|by eexists].
  destruct (put_delete db k m Hp Hm) as [Hk Hc']. eexists. split_and!; [done|by apply db_keeps_fetch|].
  change (content (put_shard (shard_index db k) (delete k m) db) ⊆ content db). rewrite Hc'. apply delete_subseteq.
Qed.

Lemma del_keeps db k : placed db -> exists r db',
  del db k = Ret (r, db') /\ db_keeps db db' /\ content db' ⊆ content db.
Proof.
  intros Hp. unfold del. destruct (placed_content db k Hp) as (m & -> & Hm & Hc). cbn [mbind outcome_bind].
  destruct (m !! k) as [e|]; [|by eexists _, _].
  destruct (put_delete db k m Hp Hm) as [Hk Hc']. eexists _, _. split_and!; [done|by apply db_keeps_fetch|].
  change (content (put_shard (shard_index db k) (delete k m) db) ⊆ content db). rewrite Hc'. apply delete_subseteq.
Qed.

Lemma insert_keeps db k v exp now : placed db -> exists db',
  set_insert db k v exp now = Ret db' /\ db_keeps db db' /\ content db' = spec_set (content db) k v exp now.
Proof.
  intros Hp. unfold set_insert. destruct (placed_content db k Hp) as (m & -> & Hm & Hc). cbn [mbind outcome_bind].
  destruct (put_insert db k m (Entry_new (length k) v exp now) Hp Hm eq_refl) as [Hk Hc'].
  eexists. split; [done|]. destruct (m !! k); (split; [by repeat apply db_keeps_fetch|exact Hc']).
Qed.

Lemma placed_shard db i : (i < length (shards db))%nat -> exists m, index (shards db) i = Ret m /\ shards db !! i = Some m.
Proof. intros Hi. destruct (lookup_lt_is_Some_2 _ _ Hi) as [m Hm]. exists m. unfold index. by rewrite Hm. Qed.

Lemma evict_keeps db i k : placed db -> (i < length (shards db))%nat -> exists (removed : bool) db',
  evict_remove db i k = Ret (removed, db') /\ db_keeps db db'
  /\ if removed then content db' ⊂ content db else db' = db.
Proof.
  intros Hp Hi. unfold evict_remove. destruct (placed_shard db i Hi) as (m & -> & Hm). cbn [mbind outcome_bind].
  destruct (m !! k) as [e|] eqn:He; [|by exists false, db].
  destruct (put_delete_at db i k m e Hp Hm He) as (Hc & Hk & Hc'). eexists true, _.
  split_and!; [done|by apply db_keeps_fetch|].
  change (content (put_shard i (delete k m) db) ⊂ content db). rewrite Hc'. by apply delete_subset; eexists.
Qed.

Lemma purge_remove_keeps i ks p db : placed db -> (i < length (shards db))%nat -> exists p' db',
  purge_remove i ks (p, db) = Ret (p', db') /\ db_keeps db db' /\ content db' ⊆ content db
  /\ forall k, k ∉ ks.*1 -> content db' !! k = content db !! k.
Proof.
  revert p db. induction ks as [|[k z] ks IH]; intros p db Hp Hi; [by eexists _, _|].
  unfold purge_remove. cbn [fold_left purge_key mbind outcome_bind].
  destruct (placed_shard db i Hi) as (m & -> & Hm). cbn [mbind outcome_bind].
  destruct (m !! k) as [e|] eqn:He.
  - destruct (put_delete_at db i k m e Hp Hm He) as (Hc & Hk & Hc').
    pose proof (db_keeps_fetch (- z) _ _ Hk) as Hk1. destruct (Hk1) as (Hp1 & Hl1 & _).
    destruct (IH (S p) (fetch_sub z (put_shard i (delete k m) db)) Hp1) as (p' & db' & Hr & Hk' & Hsub & Hother);
      [unfold fetch_sub in *; lia|].
    change (content (fetch_sub z (put_shard i (delete k m) db))) with (content (put_shard i (delete k m) db)) in *.
    rewrite Hc' in *. exists p', db'. split_and!; [exact Hr|by eapply db_keeps_trans|etransitivity; [exact Hsub|apply delete_subseteq]|].
    intros k' Hn. cbn in Hn. rewrite not_elem_of_cons in Hn. rewrite Hother by tauto. apply lookup_delete_ne. naive_solver.
  - destruct (IH p db Hp Hi) as (p' & db' & Hr & Hk' & Hsub & Hother). exists p', db'. split_and!; [exact Hr|done|done|].
    intros k' Hn. cbn in Hn. rewrite not_elem_of_cons in Hn. apply Hother. tauto.
Qed.

Variable ord : iter_order.
Hypothesis ord_ok : IterOrder ord.

Lemma scan_shard_victim i m oldest :
  scan_shard ord oldest (i, m) = oldest \/ exists k t, scan_shard ord oldest (i, m) = Some (i, k, t).
Proof.
  cbn. generalize (take 5 (ord i m)). intros l. revert oldest.
  induction l as [|[k e] l IH]; intros oldest; cbn [fold_left]; [by left|].
  destruct (IH (older oldest i (k, e))) as [->|Hs]; [|by right].
  unfold older. destruct oldest as [[[i0 k0] ts]|]; [|right; by eexists _, _].
  destruct (_ <? _); [right; by eexists _, _|by left].
Qed.

Lemma collect_expired i m sample now k :
  k ∈ (purge_collect ord i m sample now).*1 -> exists e, m !! k = Some e /\ is_expired e now = true.
Proof.
  rewrite list_elem_of_fmap. intros ([k' z] & -> & Hin). unfold purge_collect in Hin.
  apply list_elem_of_omap in Hin as ([k2 e] & Hin & Hs). exists e.
  assert (Hm : (k2, e) ∈ map_to_list m).
  { rewrite <- (iter_perm i m). rewrite <- (take_drop sample (ord i m)). apply elem_of_app. by left. }
  apply elem_of_map_to_list in Hm.
  destruct (match expires_at e with Some exp => _ | None => _ end) eqn:Ex; [|done]. injection Hs as <- <-. by split.
Qed.

(** *** Uninterrupted regions *)

Lemma set_alone_S n key v exp now c db :
  set_alone (H := Db_store ord) (S n) key v exp now c db
  = '(c1, db1) ← set_step (H := Db_store ord) key v exp now 0 c db;
    match c1 with
    | Some c1 => set_alone (H := Db_store ord) n key v exp now c1 db1
    | None => Ret db1
    end.
Proof. done. Qed.

(** The search from the shard [i] on. *)
Lemma scan_alone n key v exp now oldest i db :
  (i <= length (shards db))%nat ->
  set_alone (H := Db_store ord) (S (length (shards db) - i) + n) key v exp now (SetScan i oldest) db
  = set_alone (H := Db_store ord) n key v exp now
      (match fold_left (scan_shard ord) (drop i (zip (seq 0 (length (shards db))) (shards db))) oldest with
       | Some (idx, k, _) => SetEvict idx k
       | None => SetInsert
       end) db.
Proof.
  remember (length (shards db) - i)%nat as d eqn:Ed. revert i oldest Ed.
  induction d as [|d IH]; intros i oldest Ed Hi; rewrite Nat.add_succ_l, set_alone_S; cbn [set_step shard_total Db_regions].
  - destruct (Nat.ltb_spec i (length (shards db))); [lia|]. rewrite drop_ge by (rewrite length_zip, length_seq; lia). done.
  - destruct (Nat.ltb_spec i (length (shards db))) as [Hlt|]; [|lia].
    destruct (placed_shard db i Hlt) as (m & Hix & Hm). cbn [scan_in Db_regions]. rewrite Hix. cbn [mbind outcome_bind].
    rewrite (IH (S i)) by lia.
    rewrite (drop_S (zip _ _) (i, m) i); [done|]. rewrite lookup_zip_with, lookup_seq_lt by done. cbn. by rewrite Hm.
Qed.

(** The loop of [ensure_memory_capacity], then the insertion. *)
Lemma evict_alone key v exp now fuel db db' :
  0 < max_memory_bytes db -> evict_loop fuel ord db = Ret db' ->
  exists n, set_alone (H := Db_store ord) n key v exp now SetTest db = set_insert db' key v exp now.
Proof.
  assert (Hinsert : forall d, set_alone (H := Db_store ord) 1 key v exp now SetInsert d = set_insert d key v exp now).
  { intros d. cbn. by destruct (set_insert d key v exp now). }
  revert db. induction fuel as [|f IH]; intros db Hmax Hev; cbn [evict_loop] in Hev.
  - destruct (Z.leb_spec (max_memory_bytes db) (used_memory db)); [done|]. injection Hev as <-. exists 2%nat.
    rewrite <- Hinsert. cbn. destruct (Z.leb_spec (max_memory_bytes db) (used_memory db + 0)); [lia|]. by rewrite andb_false_r.
  - destruct (Z.leb_spec (max_memory_bytes db) (used_memory db)) as [Hle|Hlt].
    2:{ injection Hev as <-. exists 2%nat. rewrite <- Hinsert. cbn.
        destruct (Z.leb_spec (max_memory_bytes db) (used_memory db + 0)); [lia|]. by rewrite andb_false_r. }
    assert (Hover : forall n, set_alone (H := Db_store ord) (S (S (length (shards db)) + n)) key v exp now SetTest db
      = set_alone (H := Db_store ord) n key v exp now
          (match find_oldest ord db with Some (idx, k, _) => SetEvict idx k | None => SetInsert end) db).
    { intros n. rewrite <- (Nat.sub_0_r (length (shards db))) at 1. unfold find_oldest.
      rewrite <- (drop_0 (zip _ _)), <- scan_alone by lia. cbn [set_alone set_step over_limit Db_regions].
      destruct (Z.ltb_spec 0 (max_memory_bytes db)); [|lia].
      destruct (Z.leb_spec (max_memory_bytes db) (used_memory db + 0)); [|lia]. done. }
    destruct (find_oldest ord db) as [[[idx k] ts]|].
    + destruct (index (shards db) idx) as [m| |] eqn:Hix; cbn [mbind outcome_bind] in Hev; [|done|done].
      destruct (m !! k) as [e|] eqn:He.
      * destruct (IH (fetch_sub (approx_size_bytes e) (put_shard idx (delete k m) db)) Hmax Hev) as [n Hn]. exists (S (S (length (shards db)) + S n)). rewrite Hover.
        cbn [set_alone set_step evict_in Db_regions]. unfold evict_remove. rewrite Hix. cbn [mbind outcome_bind]. rewrite He. exact Hn.
      * injection Hev as <-. exists (S (S (length (shards db)) + 2)). rewrite Hover, <- Hinsert.
        cbn [set_alone set_step evict_in Db_regions]. unfold evict_remove. rewrite Hix. cbn [mbind outcome_bind]. by rewrite He.
    + injection Hev as <-. exists (S (S (length (shards db)) + 1)). by rewrite Hover, <- Hinsert.
Qed.

Lemma set_alone_is_set db key v exp now : inv db ->
  exists n, set_alone (H := Db_store ord) n key v exp now SetTest db = set_ ord db key v exp now.
Proof.
  intros Hi. unfold set_. destruct (Z.ltb_spec 0 (max_memory_bytes db)) as [Hpos|Hneg].
  - destruct (ensure_memory_capacity_spec ord ord_ok db Hi Hpos) as (db1 & He & _). rewrite He. cbn [mbind outcome_bind].
    unfold ensure_memory_capacity in He. by eapply evict_alone.
  - exists 2%nat. cbn [set_alone set_step over_limit Db_regions].
    destruct (Z.ltb_spec 0 (max_memory_bytes db)); [lia|]. cbn. by destruct (set_insert db key v exp now).
Qed.

Lemma keys_alone_S n now i db :
  keys_alone (H := Db_store ord) (S n) now i db
  = r ← keys_step (H := Db_store ord) now i db;
    match r with
    | Some ks => more ← keys_alone (H := Db_store ord) n now (S i) db; Ret (ks ++ more)
    | None => Ret []
    end.
Proof. done. Qed.

Lemma keys_alone_is_keys db now :
  keys_alone (H := Db_store ord) (S (length (shards db))) now 0 db = Ret (keys ord db now).
Proof.
  assert (Hfrom : forall l i, (forall j, shards db !! (i + j)%nat = l !! j) ->
    keys_alone (H := Db_store ord) (S (length l)) now i db
    = Ret (concat (imap (fun j => live_keys ord now (i + j)%nat) l))).
  { induction l as [|m l IH]; intros i Hl; rewrite keys_alone_S; unfold keys_step; cbn [shard_total Db_regions].
    - specialize (Hl 0%nat). rewrite Nat.add_0_r in Hl. apply lookup_ge_None in Hl.
      destruct (Nat.ltb_spec i (length (shards db))); [lia|done].
    - pose proof (Hl 0%nat) as Hm. rewrite Nat.add_0_r in Hm. cbn in Hm.
      destruct (Nat.ltb_spec i (length (shards db))); [|apply lookup_lt_Some in Hm; lia].
      cbn [keys_in Db_regions]. unfold shard_keys, index. rewrite Hm. cbn [mbind outcome_bind].
      cbn [length].
      rewrite (IH (S i)); [|intros j; rewrite Nat.add_succ_l, <- Nat.add_succ_r; exact (Hl (S j))]. cbn. do 2 f_equal.
      + by rewrite Nat.add_0_r.
      + f_equal. apply imap_ext. intros j x _. cbn. by rewrite Nat.add_succ_r. }
  by rewrite (Hfrom (shards db) 0%nat).
Qed.

(** *** Eviction on a store whose counter is off *)

Lemma evict_loop_placed fuel db :
  placed db -> (entry_count db < fuel)%nat ->
  exists db', evict_loop fuel ord db = Ret db' /\ db_keeps db db' /\ max_memory_bytes db' = max_memory_bytes db
    /\ content db' ⊆ content db /\ (used_memory db' < max_memory_bytes db' \/ content db' = ∅).
Proof.
  revert db. induction fuel as [|f IH]; intros db Hp Hf; [lia|]. cbn [evict_loop].
  destruct (Z.leb_spec (max_memory_bytes db) (used_memory db)) as [Hle|Hlt].
  2:{ exists db. split_and!; [done|by apply db_keeps_refl|done|done|by left]. }
  pose proof (find_oldest_spec ord db) as Ho. destruct (find_oldest ord db) as [[[i k] ts]|]; cbn in Ho.
  - destruct Ho as [(e & Hin & _) _]. apply (elem_of_samples ord ord_ok) in Hin as (m & Hm & He).
    destruct (put_delete_at db i k m e Hp Hm He) as (_ & Hk & Hc).
    pose proof (pl_home db Hp i m k Hm (mk_is_Some _ _ He)) as <-.
    unfold index. rewrite Hm. cbn [mbind outcome_bind]. rewrite He.
    pose proof (entry_count_delete db k m e Hm He) as Hcnt.
    pose proof (db_keeps_fetch (- approx_size_bytes e) _ _ Hk) as Hk1.
    destruct (IH _ (proj1 Hk1) ltac:(unfold write in Hcnt; lia)) as (db' & Hev & Hk' & Hmax & Hsub & Hpost).
    exists db'. split_and!; [exact Hev|by eapply db_keeps_trans|exact Hmax| |done].
    etransitivity; [exact Hsub|].
    change (content (put_shard (shard_index db k) (delete k m) db) ⊆ content db). rewrite Hc. apply delete_subseteq.
  - exists db. split_and!; [done|by apply db_keeps_refl|done|done|]. right. by eapply samples_nil.
Qed.

End DbLaws.

#[export] Program Instance Db_region_laws `{Platform} ord (Hord : IterOrder ord)
    : @RegionLaws _ (Db_store ord) (Db_laws ord Hord) (Db_regions ord) := {|
  store_wf := placed;
|}.
Next Obligation. intros H ord Hord db Hi. exact (inv_placed db Hi). Qed.
Next Obligation. intros H ord Hord db lag Hu. cbn in *. destruct (Z.ltb_spec 0 (max_memory_bytes db)); [lia|done]. Qed.
Next Obligation. intros H ord Hord db k t1 t2. apply lookup_keeps. Qed.
Next Obligation. intros H ord Hord db k t. apply cleanup_keeps. Qed.
Next Obligation. intros H ord Hord db k. apply del_keeps. Qed.
Next Obligation.
  intros H ord Hord db i o _ Hi. cbn. destruct (placed_shard db i Hi) as (m & -> & _). eexists. split; [done|].
  apply (scan_shard_victim ord i m o).
Qed.
Next Obligation. intros H ord Hord db i k. apply evict_keeps. Qed.
Next Obligation. intros H ord Hord db k v exp now. apply insert_keeps. Qed.
Next Obligation.
  intros H ord Hord db i now _ Hi. cbn. unfold shard_keys. destruct (placed_shard db i Hi) as (m & -> & _). by eexists.
Qed.
Next Obligation.
  intros H ord Hord db i sample now Hp Hi. cbn. destruct (placed_shard db i Hi) as (m & -> & Hm). eexists. split; [done|].
  intros k Hk. destruct (collect_expired ord Hord i m sample now k Hk) as (e & He & Hx). exists e. split; [|done].
  exact (proj1 (put_delete_at db i k m e Hp Hm He)).
Qed.
Next Obligation. intros H ord Hord db i ks Hp Hi. by apply (purge_remove_keeps i ks 0 db). Qed.
Next Obligation. intros H ord Hord db k t1 t2. cbn. unfold get. by destruct (get_lookup db k t1 t2) as [[[r|[]] d]|x|]. Qed.
Next Obligation. done. Qed.
Next Obligation. intros H ord Hord db k v exp now Hi. by apply set_alone_is_set. Qed.
Next Obligation. intros H ord Hord db now _. eexists. apply keys_alone_is_keys. Qed.

(** ** The theorem *)

(** C16: a wrong memory counter does no more than evict.  On any store in
    which every key is in its shard, whatever its memory counter says (a purge
    that races with a SET leaves it wrong for good), SET returns and the key
    has the new value; other entries are at most evicted, and with a memory
    limit the eviction stops with the counter below the limit or with no entry
    left. *)
Theorem set_survives_drift `{Platform} ord (Hord : IterOrder ord) db k v exp now :
  placed db ->
  exists db1 db', set_ ord db k v exp now = Ret db' /\ placed db'
    /\ content db1 ⊆ content db /\ content db' = spec_set (content db1) k v exp now
    /\ (max_memory_bytes db <= 0 -> db1 = db)
    /\ (0 < max_memory_bytes db -> used_memory db1 < max_memory_bytes db \/ content db1 = ∅).
Proof.
  intros Hp. unfold set_. destruct (Z.ltb_spec 0 (max_memory_bytes db)) as [Hpos|Hneg].
  - destruct (evict_loop_placed ord Hord (S (entry_count db)) db Hp ltac:(lia)) as (db1 & He & (Hp1 & _) & Hmax & Hsub & Hpost).
    unfold ensure_memory_capacity. rewrite He. cbn [mbind outcome_bind].
    destruct (insert_keeps db1 k v exp now Hp1) as (db' & Hs & (Hp' & _) & Hc).
    exists db1, db'. split_and!; [done|done|done|done|lia|]. by rewrite <- Hmax.
  - cbn [mbind outcome_bind]. destruct (insert_keeps db k v exp now Hp) as (db' & Hs & (Hp' & _) & Hc).
    exists db, db'. split_and!; [done|done|done|done|done|lia].
Qed.

Section DriftWitness.
#[local] Existing Instance witness_platform.

(** A counter that says more than the limit although the store is empty. *)
Definition drifted (db : Db) : Db := fetch_add 1000 db.

Lemma set_survives_drift_witness :
  exists db db', with_config 4 100 = Ret db /\ used_memory (drifted db) = 1000
    /\ set_ list_order (drifted db) b!"k" b!"v" None 1 = Ret db' /\ placed db'
    /\ content db' !! b!"k" = Some (Entry_new 1 b!"v" None 1).
Proof.
  destruct (with_config_spec 4 100) as (db & Hw & Hi & _); [vm_compute; discriminate|vm_compute; reflexivity|].
  destruct (set_survives_drift list_order list_order_ok (drifted db) b!"k" b!"v" None 1
    (placed_fetch_add 1000 db (inv_placed db Hi))) as (db1 & db' & Hs & Hp & _ & Hc & _).
  exists db, db'. split; [exact Hw|]. split; [|split; [exact Hs|split; [exact Hp|rewrite Hc; apply lookup_insert_eq]]].
  assert (Hu : match with_config 4 100 with Ret db => used_memory (drifted db) | _ => 0 end = 1000) by (vm_compute; reflexivity).
  rewrite Hw in Hu. exact Hu.
Defined.

End DriftWitness.
