(* ===== verification/Topology.v ===== *)
(** * Cluster topology: src/cluster/topology.rs

    The nodes a server knows and the owner of each of the 16384 hash slots.
    An [Arc<ClusterNode>] is never written through, so it is the node it
    points to: a slot keeps the node as it was when the slot was assigned,
    as the source does.  The order of [HashMap::values] is an argument. *)

From S2P Require Import Prelude RustStd Str Resp Slot.
Import Resp Slot.

Module Topology.

Record ClusterNode : Type := {
  id : bytes;
  ip : bytes;
  port : Z;
  bus_port : Z;
  is_myself : bool;
  is_master : bool;
  slots : list (Z * Z);
}.

Record ClusterTopology : Type := {
  nodes : gmap bytes ClusterNode;
  slot_to_node : list (option ClusterNode);
  myself_id : bytes;
}.

#[export] Instance ClusterNode_eq_dec : EqDecision ClusterNode.
Proof. solve_decision. Defined.

(** [ClusterNode::new]. *)
Definition ClusterNode_new (id ip : bytes) (port bus_port : Z) (is_myself is_master : bool)
    : ClusterNode := {|
  id := id;
  ip := ip;
  port := port;
  bus_port := bus_port;
  is_myself := is_myself;
  is_master := is_master;
  slots := [];
|}.

Definition endpoint (n : ClusterNode) : bytes := ip n ++ b!":" ++ Int.fmt_Z (port n).

(** [ClusterTopology::new]. *)
Definition new (myself : ClusterNode) : ClusterTopology := {|
  nodes := {[ id myself := myself ]};
  slot_to_node := replicate (Z.to_nat HASH_SLOTS) None;
  myself_id := id myself;
|}.

Definition myself (t : ClusterTopology) : option ClusterNode := nodes t !! myself_id t.

Definition add_node (node : ClusterNode) (t : ClusterTopology) : ClusterTopology := {|
  nodes := <[id node := node]> (nodes t);
  slot_to_node := slot_to_node t;
  myself_id := myself_id t;
|}.

(** [updated.slots.push((start, end))]. *)
Definition push_slots (range : Z * Z) (n : ClusterNode) : ClusterNode := {|
  id := id n;
  ip := ip n;
  port := port n;
  bus_port := bus_port n;
  is_myself := is_myself n;
  is_master := is_master n;
  slots := slots n ++ [range];
|}.

(** [for slot in start..=end { self.slot_to_node[slot as usize] = Some(node) }]. *)
Definition assign (node : ClusterNode) (acc : outcome (list (option ClusterNode))) (slot : nat)
    : outcome (list (option ClusterNode)) :=
  v ← acc; set_index v slot (Some node).

Definition assign_range (node : ClusterNode) (start end_ : Z) (v : list (option ClusterNode))
    : outcome (list (option ClusterNode)) :=
  fold_left (assign node) (seq (Z.to_nat start) (Z.to_nat (end_ - start + 1))) (Ret v).

Definition add_slots_range (node_id : bytes) (start end_ : Z) (t : ClusterTopology)
    : outcome (result unit bytes * ClusterTopology) :=
  if (end_ <? start) || (HASH_SLOTS <=? end_)
  then Ret (Err (b!"Invalid slot range " ++ Int.fmt_Z start ++ b!"-" ++ Int.fmt_Z end_), t)
  else match nodes t !! node_id with
  | None => Ret (Err (b!"Unknown node id " ++ node_id), t)
  | Some node =>
      table ← assign_range node start end_ (slot_to_node t);
      Ret (Ok tt, {|
        nodes := <[node_id := push_slots (start, end_) node]> (nodes t);
        slot_to_node := table;
        myself_id := myself_id t;
      |})
  end.

(** One part of the specification of slots: [a-b] or [a]. *)
Definition parse_slot_part (part : bytes) : result (Z * Z) bytes :=
  match Str.split_once "-" part with
  | Some (start_s, end_s) =>
      match Int.parse_u16 (Str.trim start_s) with
      | Err e => Err (Int.int_error_to_string e)
      | Ok start =>
          match Int.parse_u16 (Str.trim end_s) with
          | Err e => Err (Int.int_error_to_string e)
          | Ok end_ => Ok (start, end_)
          end
      end
  | None =>
      match Int.parse_u16 part with
      | Err e => Err (Int.int_error_to_string e)
      | Ok single => Ok (single, single)
      end
  end.

Fixpoint assign_parts (node_id : bytes) (parts : list bytes) (t : ClusterTopology)
    : outcome (result unit bytes * ClusterTopology) :=
  match parts with
  | [] => Ret (Ok tt, t)
  | part :: rest =>
      match Str.trim part with
      | [] => assign_parts node_id rest t
      | (_ :: _) as part =>
          match parse_slot_part part with
          | Err e => Ret (Err e, t)
          | Ok (start, end_) =>
              '(r, t1) ← add_slots_range node_id start end_ t;
              match r with
              | Err e => Ret (Err e, t1)
              | Ok _ => assign_parts node_id rest t1
              end
          end
      end
  end.

Definition parse_and_assign_slots (node_id spec : bytes) (t : ClusterTopology)
    : outcome (result unit bytes * ClusterTopology) :=
  assign_parts node_id (Str.split "," spec) t.

Definition get_node_for_slot (t : ClusterTopology) (slot : Z) : option ClusterNode :=
  if (Z.to_nat slot <? length (slot_to_node t))%nat
  then default None (slot_to_node t !! Z.to_nat slot) else None.

Definition owns_slot (t : ClusterTopology) (slot : Z) : bool :=
  match get_node_for_slot t slot with
  | Some owner => bool_decide (id owner = myself_id t)
  | None => false
  end.

Definition is_assigned (s : option ClusterNode) : bool := bool_decide (is_Some s).

Definition assigned_count (t : ClusterTopology) : nat :=
  length (List.filter is_assigned (slot_to_node t)).

Definition format_cluster_info (t : ClusterTopology) : bytes :=
  let assigned := Int.fmt_Z (Z.of_nat (assigned_count t)) in
  let state := if Z.of_nat (assigned_count t) =? HASH_SLOTS then b!"ok" else b!"fail" in
  let known_nodes := Int.fmt_Z (Z.of_nat (size (nodes t))) in
  let masters := Int.fmt_Z (Z.of_nat (length (List.filter is_master (map_to_list (nodes t)).*2))) in
  b!"cluster_state:" ++ state ++ crlf
  ++ b!"cluster_slots_assigned:" ++ assigned ++ crlf
  ++ b!"cluster_slots_ok:" ++ assigned ++ crlf
  ++ b!"cluster_slots_pfail:0" ++ crlf
  ++ b!"cluster_slots_fail:0" ++ crlf
  ++ b!"cluster_known_nodes:" ++ known_nodes ++ crlf
  ++ b!"cluster_size:" ++ masters ++ crlf
  ++ b!"cluster_current_epoch:1" ++ crlf
  ++ b!"cluster_my_epoch:1" ++ crlf
  ++ b!"cluster_stats_messages_sent:0" ++ crlf
  ++ b!"cluster_stats_messages_received:0" ++ crlf.

(** The order of [nodes.values()]. *)
Definition node_order : Type := gmap bytes ClusterNode -> list ClusterNode.

Class NodeOrder (ord : node_order) : Prop :=
  node_perm m : ord m ≡ₚ (map_to_list m).*2.

Definition node_flags (n : ClusterNode) : bytes :=
  if is_myself n then if is_master n then b!"myself,master" else b!"myself,slave"
  else if is_master n then b!"master" else b!"slave".

Definition format_range (r : Z * Z) : bytes :=
  let '(start, end_) := r in
  if start =? end_ then Int.fmt_Z start else Int.fmt_Z start ++ b!"-" ++ Int.fmt_Z end_.

Definition format_node (n : ClusterNode) : bytes :=
  let slots_str := Str.join b!" " (format_range <$> slots n) in
  id n ++ b!" " ++ ip n ++ b!":" ++ Int.fmt_Z (port n) ++ b!"@" ++ Int.fmt_Z (bus_port n)
  ++ b!" " ++ node_flags n ++ b!" - 0 0 1 connected"
  ++ (match slots_str with [] => [] | _ :: _ => b!" " ++ slots_str end) ++ crlf.

Definition format_cluster_nodes (ord : node_order) (t : ClusterTopology) : bytes :=
  concat (format_node <$> ord (nodes t)).

Abbreviation slot_range := (Z * Z * ClusterNode)%type.

(** One step of the loop of [format_cluster_slots]. *)
Definition range_step (acc : list slot_range * option slot_range) (x : nat * option ClusterNode)
    : list slot_range * option slot_range :=
  let '(ranges, current) := acc in
  let '(slot_idx, node_opt) := x in
  let slot := wrap_u16 (Z.of_nat slot_idx) in
  match current, node_opt with
  | Some (start, end_, node), Some cur_node =>
      if bool_decide (id node = id cur_node)
      then (ranges, Some (start, slot, node))
      else (ranges ++ [(start, end_, node)], Some (slot, slot, cur_node))
  | Some r, None => (ranges ++ [r], None)
  | None, Some cur_node => (ranges, Some (slot, slot, cur_node))
  | None, None => (ranges, None)
  end.

Definition scan_ranges (v : list (option ClusterNode)) : list slot_range * option slot_range :=
  fold_left range_step (zip (seq 0 (length v)) v) ([], None).

Definition slot_ranges (t : ClusterTopology) : list slot_range :=
  let '(ranges, current) := scan_ranges (slot_to_node t) in
  match current with
  | Some r => ranges ++ [r]
  | None => ranges
  end.

Definition range_entry (r : slot_range) : Value :=
  let '(start, end_, node) := r in
  Array (Some [Integer start; Integer end_;
    Array (Some [string_ (ip node); Integer (port node); string_ (id node)])]).

Definition format_cluster_slots (t : ClusterTopology) : Value :=
  Array (Some (range_entry <$> slot_ranges t)).

End Topology.
