(* ===== verification/TopologyTheory.v ===== *)
(** * What the cluster topology guarantees

    The invariant of every topology the operations build, the exact effect
    of assigning slots, the reading of a slot specification, and that CLUSTER
    SLOTS and CLUSTER INFO report the slot table exactly. *)

From S2P Require Import Prelude RustStd Str Resp Slot Topology.
Import Resp Slot Topology.

(** ** Assigning a range *)

Lemma assign_fold node v a n :
  (a + n <= length v)%nat ->
  exists v', fold_left (assign node) (seq a n) (Ret v) = Ret v' /\ length v' = length v
    /\ forall i, v' !! i = if decide (a <= i < a + n)%nat then Some (Some node) else v !! i.
Proof.
  revert v a. induction n as [|n IH]; intros v a Hn; cbn.
  - exists v. split_and!; [done|done|]. intros i. by rewrite decide_False by lia.
  - unfold set_index. destruct (Nat.ltb_spec a (length v)); [|lia].
    destruct (IH (<[a := Some node]> v) (S a)) as (v' & Hv & Hl & Hi); [rewrite length_insert; lia|].
    exists v'. rewrite length_insert in Hl. split_and!; [exact Hv|done|].
    intros i. rewrite Hi. destruct (decide (i = a)) as [->|Hne].
    + rewrite decide_False, decide_True by lia. by apply list_lookup_insert_eq.
    + rewrite list_lookup_insert_ne by done. repeat case_decide; lia || done.
Qed.

Lemma assign_range_spec node start end_ v :
  0 <= start <= end_ -> end_ < Z.of_nat (length v) ->
  exists v', assign_range node start end_ v = Ret v' /\ length v' = length v
    /\ forall i, v' !! i
         = if decide (start <= Z.of_nat i <= end_) then Some (Some node) else v !! i.
Proof.
  intros Hs He. destruct (assign_fold node v (Z.to_nat start) (Z.to_nat (end_ - start + 1)))
    as (v' & Hv & Hl & Hi); [lia|].
  exists v'. split_and!; [done|done|]. intros i. rewrite Hi. repeat case_decide; lia || done.
Qed.

(** ** The invariant *)

Record topo_ok (t : ClusterTopology) : Prop := {
  tp_len : length (slot_to_node t) = Z.to_nat HASH_SLOTS;
  tp_key k n : nodes t !! k = Some n -> id n = k;
  tp_myself : is_Some (myself t);
  tp_owner i n : slot_to_node t !! i = Some (Some n) -> is_Some (nodes t !! id n);
  tp_slots k n a b : nodes t !! k = Some n -> (a, b) ∈ slots n -> 0 <= a <= b /\ b < HASH_SLOTS;
}.

(** Every slot is in the list of the node that owns it. *)
Definition slots_listed (t : ClusterTopology) : Prop :=
  forall i n, slot_to_node t !! i = Some (Some n) ->
    exists n' a b, nodes t !! id n = Some n' /\ (a, b) ∈ slots n' /\ a <= Z.of_nat i <= b.

Lemma get_node_lookup t slot :
  get_node_for_slot t slot = mjoin (slot_to_node t !! Z.to_nat slot).
Proof.
  unfold get_node_for_slot. destruct (Nat.ltb_spec (Z.to_nat slot) (length (slot_to_node t))).
  - destruct (lookup_lt_is_Some_2 _ _ H) as [x ->]. by destruct x.
  - by rewrite lookup_ge_None_2.
Qed.

Lemma new_ok me : slots me = [] -> topo_ok (new me) /\ slots_listed (new me).
Proof.
  intros Hs. split; [constructor; cbn|]; unfold myself; cbn.
  - by rewrite length_replicate.
  - intros k n. rewrite lookup_singleton_Some. by intros [<- <-].
  - rewrite lookup_singleton_eq. by eexists.
  - intros i n. rewrite lookup_replicate. by intros [? _].
  - intros k n a b. rewrite lookup_singleton_Some. intros [_ <-]. rewrite Hs. by intros ?%not_elem_of_nil.
  - intros i n. cbn. rewrite lookup_replicate. by intros [? _].
Qed.

Lemma add_node_ok n t : slots n = [] -> topo_ok t -> topo_ok (add_node n t).
Proof.
  intros Hs [Hl Hk Hm Ho Hr]. constructor; unfold myself in *; cbn; try done.
  - intros k x. rewrite lookup_insert_Some. intros [[<- <-]|[_ ?]]; [done|by eapply Hk].
  - destruct (decide (id n = myself_id t)) as [->|Hne];
      [rewrite lookup_insert_eq; by eexists|by rewrite lookup_insert_ne].
  - intros i x Hx. destruct (decide (id n = id x)) as [->|Hne];
      [rewrite lookup_insert_eq; by eexists|rewrite lookup_insert_ne by done; by eapply Ho].
  - intros k x a b. rewrite lookup_insert_Some. intros [[_ <-]|[_ ?]]; [|by eapply Hr].
    rewrite Hs. by intros ?%not_elem_of_nil.
Qed.

(** The topology after a successful [add_slots_range]. *)
Definition with_range (node : ClusterNode) (start end_ : Z) (table : list (option ClusterNode))
    (t : ClusterTopology) : ClusterTopology := {|
  nodes := <[id node := push_slots (start, end_) node]> (nodes t);
  slot_to_node := table;
  myself_id := myself_id t;
|}.

Lemma add_slots_range_Ok node_id start end_ t node :
  topo_ok t -> 0 <= start <= end_ -> end_ < HASH_SLOTS -> nodes t !! node_id = Some node ->
  exists table, add_slots_range node_id start end_ t = Ret (Ok tt, with_range node start end_ table t)
    /\ length table = length (slot_to_node t)
    /\ forall i, table !! i
         = if decide (start <= Z.of_nat i <= end_) then Some (Some node) else slot_to_node t !! i.
Proof.
  intros Ht Hs He Hn. unfold add_slots_range.
  destruct (Z.ltb_spec end_ start), (Z.leb_spec HASH_SLOTS end_); try lia. cbn [orb]. rewrite Hn.
  destruct (assign_range_spec node start end_ (slot_to_node t)) as (v & Hv & Hl & Hi); [lia| |].
  { rewrite (tp_len t Ht). lia. }
  rewrite Hv. cbn [mbind outcome_bind]. exists v. unfold with_range.
  by rewrite (tp_key t Ht node_id node Hn).
Qed.

Lemma with_range_ok node start end_ table t :
  topo_ok t -> nodes t !! id node = Some node -> 0 <= start <= end_ -> end_ < HASH_SLOTS ->
  length table = length (slot_to_node t) ->
  (forall i, table !! i
     = if decide (start <= Z.of_nat i <= end_) then Some (Some node) else slot_to_node t !! i) ->
  topo_ok (with_range node start end_ table t).
Proof.
  intros [Hl Hk Hm Ho Hr] Hn Hs He Htl Ht. constructor; unfold myself in *; cbn.
  - congruence.
  - intros k x. rewrite lookup_insert_Some. intros [[<- <-]|[_ ?]]; [done|by eapply Hk].
  - destruct (decide (id node = myself_id t)) as [->|Hne];
      [rewrite lookup_insert_eq; by eexists|by rewrite lookup_insert_ne].
  - intros i x. rewrite Ht. intros Hx. destruct (decide (id node = id x)) as [->|Hne];
      [rewrite lookup_insert_eq; by eexists|rewrite lookup_insert_ne by done].
    case_decide; [congruence|by eapply Ho].
  - intros k x a b. rewrite lookup_insert_Some. intros [[_ <-]|[_ ?]]; [|by eapply Hr].
    cbn. rewrite elem_of_app, list_elem_of_singleton. intros [?|[= -> ->]]; [by eapply Hr|lia].
Qed.

Lemma with_range_listed node start end_ table t :
  slots_listed t -> nodes t !! id node = Some node ->
  (forall i, table !! i
     = if decide (start <= Z.of_nat i <= end_) then Some (Some node) else slot_to_node t !! i) ->
  slots_listed (with_range node start end_ table t).
Proof.
  intros Hls Hn Ht i x. cbn. rewrite Ht. case_decide as Hi.
  - intros [= <-]. eexists _, start, end_. rewrite lookup_insert_eq. split_and!; [done| |lia|lia].
    cbn. rewrite elem_of_app, list_elem_of_singleton. by right.
  - intros Hx. destruct (Hls i x Hx) as (n' & a & b & Hn' & Hab & Hin).
    destruct (decide (id node = id x)) as [Heq|Hne].
    + rewrite <- Heq, Hn in Hn'. injection Hn' as <-. eexists _, a, b.
      rewrite Heq, lookup_insert_eq. split_and!; [done| |lia|lia]. cbn. rewrite elem_of_app. by left.
    + eexists n', a, b. by rewrite lookup_insert_ne.
Qed.

(** Any call of [add_slots_range] with [u16] arguments returns and keeps
    the invariant. *)
Lemma add_slots_range_keeps node_id start end_ t :
  topo_ok t -> 0 <= start -> exists r t', add_slots_range node_id start end_ t = Ret (r, t')
    /\ topo_ok t' /\ (slots_listed t -> slots_listed t') /\ myself_id t' = myself_id t.
Proof.
  intros Ht Hs. destruct (decide ((end_ <? start) || (HASH_SLOTS <=? end_) = true)) as [E|E].
  { unfold add_slots_range. rewrite E. by eexists _, _. }
  apply not_true_is_false in E as E'. bool_to_prop.
  destruct (nodes t !! node_id) as [node|] eqn:Hn.
  - destruct (add_slots_range_Ok node_id start end_ t node) as (table & -> & Hl & Hi); [done..|lia|done|done|].
    pose proof (tp_key t Ht _ _ Hn) as <-. eexists _, _. split_and!; [done| | |done].
    + apply with_range_ok; done || lia.
    + intros Hls. by apply with_range_listed.
  - unfold add_slots_range. rewrite Hn. apply not_true_is_false in E. rewrite E. by eexists _, _.
Qed.

Lemma parse_slot_part_range part a b : parse_slot_part part = Ok (a, b) -> 0 <= a /\ 0 <= b.
Proof.
  unfold parse_slot_part. intros E. repeat case_hyp E; simplify_eq;
    repeat match goal with H : Int.parse_u16 _ = Ok _ |- _ => apply Int.parse_u16_range in H end; lia.
Qed.

Lemma assign_parts_keeps node_id parts t :
  topo_ok t -> exists r t', assign_parts node_id parts t = Ret (r, t')
    /\ topo_ok t' /\ (slots_listed t -> slots_listed t') /\ myself_id t' = myself_id t.
Proof.
  revert t. induction parts as [|part parts IH]; intros t Ht; cbn [assign_parts]; [by eexists _, _|].
  destruct (Str.trim part) as [|c p]; [by apply IH|].
  destruct (parse_slot_part (c :: p)) as [[a b]|e] eqn:Ep; [|by eexists _, _].
  apply parse_slot_part_range in Ep as [Ha _].
  destruct (add_slots_range_keeps node_id a b t Ht Ha) as (r & t1 & -> & Ht1 & Hl1 & Hm1).
  cbn [mbind outcome_bind]. destruct r as [[]|e]; [|by eexists _, _].
  destruct (IH t1 Ht1) as (r & t' & -> & Ht' & Hl' & Hm'). eexists _, _. split_and!; [done|done|auto|congruence].
Qed.

(** ** Reading a specification of slots *)

Definition valid_range (r : Z * Z) : Prop := 0 <= fst r <= snd r /\ snd r < HASH_SLOTS.

Definition in_slot_range (slot : Z) (r : Z * Z) : Prop := fst r <= slot <= snd r.

#[local] Instance in_slot_range_dec slot r : Decision (in_slot_range slot r).
Proof. unfold in_slot_range. apply _. Defined.

(** The text [a-b,c,d-e] of some ranges. *)
Definition slot_spec (rs : list (Z * Z)) : bytes := Str.join b!"," (format_range <$> rs).

Lemma digit_visible c : is_Some (Int.to_digit c) -> Str.visible c.
Proof. intros Hc%Int.to_digit_byte. unfold Str.visible. lia. Qed.

Lemma digits_not_in (c : byte) z : 0 <= z -> ~ (48 <= bZ c <= 57) -> c ∉ Int.fmt_Z z.
Proof.
  intros Hz Hc Hin. destruct (Int.fmt_Z_digits z Hz) as [_ Hall].
  eapply Forall_forall in Hall; [|exact Hin]. apply Int.to_digit_byte in Hall. done.
Qed.

Lemma fmt_Z_visible z : 0 <= z -> Forall Str.visible (Int.fmt_Z z).
Proof.
  intros Hz. destruct (Int.fmt_Z_digits z Hz) as [_ Hall].
  eapply Forall_impl; [exact Hall|]. apply digit_visible.
Qed.

Lemma format_range_spec r :
  valid_range r ->
  format_range r <> [] /\ Forall Str.visible (format_range r) /\ (x2c ∉ format_range r)
  /\ parse_slot_part (format_range r) = Ok r.
Proof.
  destruct r as [a b]. unfold valid_range, HASH_SLOTS. cbn. intros [Ha Hb].
  assert (Hu : forall z, 0 <= z <= b -> Int.parse_u16 (Int.fmt_Z z) = Ok z)
    by (intros z Hz; apply Int.parse_fmt_Z; unfold u16_max; lia).
  assert (Hc : forall z, 0 <= z <= b -> ("," : byte)%byte ∉ Int.fmt_Z z)
    by (intros z Hz; apply digits_not_in; [lia|by vm_compute; intros []]).
  assert (Hm : forall z, 0 <= z <= b -> ("-" : byte)%byte ∉ Int.fmt_Z z)
    by (intros z Hz; apply digits_not_in; [lia|by vm_compute; intros []]).
  destruct (Int.fmt_Z_digits a) as [Hne _]; [lia|].
  destruct (Z.eqb_spec a b) as [->|Hab].
  - split_and!; [done|apply fmt_Z_visible; lia|apply Hc; lia|].
    unfold parse_slot_part. rewrite Str.split_once_none by (apply Hm; lia). by rewrite Hu by lia.
  - split_and!.
    + by destruct (Int.fmt_Z a).
    + apply Forall_app. split; [apply fmt_Z_visible; lia|]. constructor; [by vm_compute|apply fmt_Z_visible; lia].
    + rewrite elem_of_app, elem_of_cons. intros [?|[?|?]]; [by apply (Hc a); [lia|]|done|by apply (Hc b); [lia|]].
    + unfold parse_slot_part. change (b!"-" ++ Int.fmt_Z b) with (("-" : byte)%byte :: Int.fmt_Z b).
      rewrite Str.split_once_app by (apply Hm; lia).
      rewrite !Str.trim_visible by (apply fmt_Z_visible; lia). by rewrite !Hu by lia.
Qed.

Lemma split_slot_spec rs :
  Forall valid_range rs -> rs <> [] -> Str.split "," (slot_spec rs) = format_range <$> rs.
Proof.
  intros Hrs Hne. apply Str.split_join; [by destruct rs|].
  apply Forall_fmap. eapply Forall_impl; [exact Hrs|]. intros r Hr. by apply format_range_spec.
Qed.

(** The node's record and the table after assigning [rs] in order. *)
Record assigned (node_id : bytes) (rs : list (Z * Z)) (t t' : ClusterTopology) : Prop := {
  as_ok : topo_ok t';
  as_slot slot : 0 <= slot -> id <$> get_node_for_slot t' slot
    = if decide (Exists (in_slot_range slot) rs) then Some node_id else id <$> get_node_for_slot t slot;
  as_listed : forall n, nodes t !! node_id = Some n ->
    exists n', nodes t' !! node_id = Some n' /\ slots n' = slots n ++ rs;
  as_others k : k <> node_id -> nodes t' !! k = nodes t !! k;
}.

Lemma assign_parts_ranges node_id rs t :
  topo_ok t -> is_Some (nodes t !! node_id) -> Forall valid_range rs ->
  exists t', assign_parts node_id (format_range <$> rs) t = Ret (Ok tt, t') /\ assigned node_id rs t t'.
Proof.
  revert t. induction rs as [|[a b] rs IH]; intros t Ht [node Hn] Hrs; cbn [fmap list_fmap assign_parts].
  - exists t. split; [done|]. constructor; [done| |intros n Hx; exists n; by rewrite app_nil_r|done].
    intros slot _. by rewrite decide_False by (by intros ?%Exists_nil).
  - apply Forall_cons in Hrs as [Hr Hrs]. destruct (format_range_spec _ Hr) as (Hne & Hv & _ & Hp).
    rewrite Str.trim_visible by done. destruct (format_range (a, b)) as [|c p]; [done|].
    rewrite Hp. unfold valid_range in Hr. cbn [fst snd] in Hr.
    destruct (add_slots_range_Ok node_id a b t node) as (table & -> & Hl & Hi); [done|lia|lia|done|].
    cbn [mbind outcome_bind]. pose proof (tp_key t Ht _ _ Hn) as Hid. subst node_id.
    destruct (IH (with_range node a b table t)) as (t' & Hap & [Hok Hslot Hlist Hoth]); [| |done|].
    { apply with_range_ok; done || lia. }
    { cbn. rewrite lookup_insert_eq. by eexists. }
    exists t'. split; [exact Hap|]. constructor; [done| | |].
    + intros slot Hs. rewrite Hslot by done. rewrite !get_node_lookup. cbn. rewrite Hi, Z2Nat.id by done.
      destruct (decide (Exists (in_slot_range slot) rs)) as [Hex|Hex].
      { by rewrite decide_True by (by apply Exists_cons_tl). }
      case_decide as Hin.
      * cbn. by rewrite decide_True by (by apply Exists_cons_hd).
      * rewrite decide_False; [done|]. by intros [?|?]%Exists_cons.
    + intros n Hn'. rewrite Hn in Hn'. injection Hn' as <-.
      destruct (Hlist (push_slots (a, b) node)) as (n' & Hn' & Hs'); [by cbn; rewrite lookup_insert_eq|].
      exists n'. split; [done|]. rewrite Hs'. cbn. by rewrite <- app_assoc.
    + intros k Hk. rewrite Hoth by done. cbn. by rewrite lookup_insert_ne.
Qed.

(** ** CLUSTER SLOTS *)

Definition rstart (r : slot_range) : Z := r.1.1.
Definition rend (r : slot_range) : Z := r.1.2.
Definition rnode (r : slot_range) : ClusterNode := r.2.

(** The id of the owner of a slot. *)
Definition owner (v : list (option ClusterNode)) (i : nat) : option bytes := id <$> mjoin (v !! i).

(** Two ranges that follow each other: in order, and not to be merged. *)
Definition separate (r1 r2 : slot_range) : Prop :=
  rend r1 < rstart r2 /\ (rend r1 + 1 = rstart r2 -> id (rnode r1) <> id (rnode r2)).

(** The ranges say exactly who owns the first [n] slots, in order and
    merged as far as possible. *)
Record describes (v : list (option ClusterNode)) (n : nat) (rs : list slot_range) : Prop := {
  ds_owner i k : (i < n)%nat -> owner v i = Some k <->
    exists r, r ∈ rs /\ rstart r <= Z.of_nat i <= rend r /\ id (rnode r) = k;
  ds_bounds r : r ∈ rs -> 0 <= rstart r <= rend r /\ rend r < Z.of_nat n;
  ds_separate j r1 r2 : rs !! j = Some r1 -> rs !! S j = Some r2 -> separate r1 r2;
}.

Definition closed_ranges (acc : list slot_range * option slot_range) : list slot_range :=
  acc.1 ++ option_list acc.2.

(** The state of the loop after [n] slots. *)
Record scanning (v : list (option ClusterNode)) (n : nat) (acc : list slot_range * option slot_range)
    : Prop := {
  sc_describes : describes v n (closed_ranges acc);
  sc_current r : acc.2 = Some r -> rend r + 1 = Z.of_nat n;
  sc_none r : acc.2 = None -> r ∈ acc.1 -> rend r + 1 < Z.of_nat n;
}.

(** A new last range, for the slot [n]. *)
Lemma describes_snoc v n rs x :
  describes v n rs -> v !! n = Some (Some x) ->
  (forall r, last rs = Some r -> rend r + 1 = Z.of_nat n -> id (rnode r) <> id x) ->
  describes v (S n) (rs ++ [(Z.of_nat n, Z.of_nat n, x)]).
Proof.
  intros [Ho Hb Hs] Hx Hlast. constructor.
  - intros i k Hi. setoid_rewrite elem_of_app. setoid_rewrite list_elem_of_singleton.
    destruct (decide (i = n)) as [->|Hne].
    + unfold owner. rewrite Hx. cbn. split.
      * intros [= <-]. eexists. split; [by right|]. cbn. split; [lia|done].
      * intros (r & [Hr| ->] & Hin & <-); [|done]. apply Hb in Hr. lia.
    + rewrite Ho by lia. split.
      * intros (r & Hr & Hin). exists r. auto.
      * intros (r & [Hr| ->] & Hin & Hk); [by exists r|]. cbn in Hin. lia.
  - intros r. rewrite elem_of_app, list_elem_of_singleton. intros [Hr| ->]; [apply Hb in Hr; lia|cbn; lia].
  - intros j r1 r2 H1 H2. destruct (decide (S j < length rs)%nat) as [Hj|Hj].
    + rewrite lookup_app_l in H1, H2 by lia. by eapply Hs.
    + pose proof (lookup_lt_Some _ _ _ H2) as Hlt. rewrite length_app in Hlt. cbn in Hlt.
      rewrite lookup_app_r in H2 by lia. replace (S j - length rs)%nat with 0%nat in H2 by lia.
      injection H2 as <-. rewrite lookup_app_l in H1 by lia.
      pose proof (Hb r1 (list_elem_of_lookup_2 _ _ _ H1)) as Hb1. split; [cbn; lia|].
      cbn. intros He. apply Hlast; [|done]. rewrite last_lookup.
      by replace (pred (length rs)) with j by lia.
Qed.

(** The last range taking in the slot [n]. *)
Lemma describes_extend v n rs a e nd x :
  describes v n (rs ++ [(a, e, nd)]) -> e + 1 = Z.of_nat n ->
  v !! n = Some (Some x) -> id nd = id x ->
  describes v (S n) (rs ++ [(a, Z.of_nat n, nd)]).
Proof.
  intros [Ho Hb Hs] He Hx Hid.
  assert (Ha : 0 <= a <= e).
  { destruct (Hb (a, e, nd)) as [H1 _]; [|done]. rewrite elem_of_app, list_elem_of_singleton. by right. }
  setoid_rewrite elem_of_app in Ho. setoid_rewrite list_elem_of_singleton in Ho.
  setoid_rewrite elem_of_app in Hb. setoid_rewrite list_elem_of_singleton in Hb. constructor.
  - intros i k Hi. setoid_rewrite elem_of_app. setoid_rewrite list_elem_of_singleton.
    destruct (decide (i = n)) as [->|Hne].
    + unfold owner. rewrite Hx. cbn. split.
      * intros [= <-]. eexists. split; [by right|]. cbn. split; [lia|done].
      * intros (r & [Hr| ->] & Hin & <-); [|by cbn; rewrite Hid]. destruct (Hb r (or_introl Hr)). lia.
    + rewrite Ho by lia. split; intros (r & [Hr| ->] & Hin & <-).
      * exists r. auto.
      * eexists. split; [by right|]. cbn in *. split; [lia|done].
      * exists r. auto.
      * eexists. split; [by right|]. cbn in *. split; [lia|done].
  - intros r. rewrite elem_of_app, list_elem_of_singleton.
    intros [Hr| ->]; [destruct (Hb r (or_introl Hr)); lia|cbn; lia].
  - intros j r1 r2 H1 H2. pose proof (lookup_lt_Some _ _ _ H2) as Hlt. rewrite length_app in Hlt. cbn in Hlt.
    assert (H1' : (rs ++ [(a, e, nd)]) !! j = Some r1) by (rewrite lookup_app_l in * by lia; done).
    destruct (decide (S j < length rs)%nat) as [Hj|Hj].
    + apply (Hs j); [done|]. rewrite lookup_app_l in * by lia. done.
    + rewrite lookup_app_r in H2 by lia. replace (S j - length rs)%nat with 0%nat in H2 by lia.
      injection H2 as <-. apply (Hs j r1 (a, e, nd)); [done|].
      rewrite lookup_app_r by lia. by replace (S j - length rs)%nat with 0%nat by lia.
Qed.

(** A slot without owner. *)
Lemma describes_none v n rs : describes v n rs -> v !! n = Some None -> describes v (S n) rs.
Proof.
  intros [Ho Hb Hs] Hx. constructor; [|intros r Hr; apply Hb in Hr; lia|done].
  intros i k Hi. destruct (decide (i = n)) as [->|Hne]; [|apply Ho; lia].
  unfold owner. rewrite Hx. split; [done|]. intros (r & Hr & Hin & _). apply Hb in Hr. lia.
Qed.

Lemma range_step_scanning v n acc x :
  Z.of_nat n < 65536 -> scanning v n acc -> v !! n = Some x -> scanning v (S n) (range_step acc (n, x)).
Proof.
  intros Hn [Hd Hc Hno] Hx. destruct acc as [rs cur]. unfold closed_ranges in *. cbn [fst snd] in *.
  unfold range_step. assert (wrap_u16 (Z.of_nat n) = Z.of_nat n) as -> by (apply Z.mod_small; lia).
  destruct cur as [[[a e] nd]|], x as [x|].
  - pose proof (Hc _ eq_refl) as He. cbn in He. case_bool_decide as Hid.
    + constructor; unfold closed_ranges; cbn [fst snd option_list].
      * by eapply describes_extend.
      * intros r [= <-]. cbn. lia.
      * done.
    + constructor; unfold closed_ranges; cbn [fst snd option_list].
      * apply describes_snoc; [done|done|]. intros r. rewrite last_snoc. by intros [= <-] _.
      * intros r [= <-]. cbn. lia.
      * done.
  - pose proof (Hc _ eq_refl) as He. cbn in He. constructor; unfold closed_ranges; cbn [fst snd option_list].
    + rewrite app_nil_r. by apply describes_none.
    + done.
    + intros r _ Hr. apply (ds_bounds _ _ _ Hd) in Hr. lia.
  - cbn [option_list] in Hd. rewrite app_nil_r in Hd. constructor; unfold closed_ranges; cbn [fst snd option_list].
    + apply describes_snoc; [done|done|]. intros r Hr He. exfalso.
      apply last_Some_elem_of in Hr. pose proof (Hno r eq_refl Hr). lia.
    + intros r [= <-]. cbn. lia.
    + done.
  - cbn [option_list] in Hd. rewrite app_nil_r in Hd. constructor; unfold closed_ranges; cbn [fst snd option_list].
    + rewrite app_nil_r. by apply describes_none.
    + done.
    + intros r _ Hr. apply (ds_bounds _ _ _ Hd) in Hr. lia.
Qed.

Lemma scan_prefix v n :
  Z.of_nat (length v) <= 65536 -> (n <= length v)%nat ->
  scanning v n (fold_left range_step (take n (zip (seq 0 (length v)) v)) ([], None)).
Proof.
  intros Hv. induction n as [|n IH]; intros Hn.
  - constructor; cbn; [|done|by intros r _ ?%not_elem_of_nil]. constructor; cbn.
    + intros i k Hi. lia.
    + by intros r ?%not_elem_of_nil.
    + done.
  - destruct (lookup_lt_is_Some_2 v n) as [x Hx]; [lia|].
    rewrite (take_S_r _ _ (n, x)), fold_left_app.
    + cbn. apply range_step_scanning; [lia| |done]. apply IH. lia.
    + rewrite lookup_zip_with, lookup_seq_lt, Hx by lia. done.
Qed.

Lemma slot_ranges_describe t :
  topo_ok t -> describes (slot_to_node t) (Z.to_nat HASH_SLOTS) (slot_ranges t).
Proof.
  intros Ht. pose proof (tp_len t Ht) as Hl.
  assert (Hz : Z.of_nat (length (slot_to_node t)) = 16384) by (rewrite Hl; reflexivity).
  pose proof (scan_prefix (slot_to_node t) (length (slot_to_node t)) ltac:(lia) (le_n _)) as [Hd _ _].
  rewrite take_ge in Hd by (rewrite length_zip_with, length_seq; lia).
  rewrite Hl in Hd at 1. unfold slot_ranges, scan_ranges. unfold closed_ranges in Hd.
  destruct (fold_left _ _ _) as [rs [r|]]; cbn in Hd; [done|by rewrite app_nil_r in Hd].
Qed.

(** ** The topologies the program builds *)

Inductive topo_op : Type :=
| AddNode (id ip : bytes) (port bus_port : Z) (is_myself is_master : bool)
| AddSlots (node_id : bytes) (start end_ : Z)
| AssignSlots (node_id spec : bytes).

Definition run_topo_op (o : topo_op) (t : ClusterTopology) : outcome (result unit bytes * ClusterTopology) :=
  match o with
  | AddNode i a p b me ma => Ret (Ok tt, add_node (ClusterNode_new i a p b me ma) t)
  | AddSlots n s e => add_slots_range n s e t
  | AssignSlots n spec => parse_and_assign_slots n spec t
  end.

(** The arguments are of their type. *)
Definition topo_op_ok (o : topo_op) : Prop :=
  match o with
  | AddSlots _ s e => 0 <= s <= u16_max /\ 0 <= e <= u16_max
  | _ => True
  end.

Fixpoint run_topo_ops (os : list topo_op) (t : ClusterTopology) : outcome ClusterTopology :=
  match os with
  | [] => Ret t
  | o :: os => '(_, t1) ← run_topo_op o t; run_topo_ops os t1
  end.

Lemma run_topo_op_ok o t :
  topo_ok t -> topo_op_ok o -> exists r t', run_topo_op o t = Ret (r, t') /\ topo_ok t'
    /\ myself_id t' = myself_id t.
Proof.
  intros Ht Ho. destruct o as [i a p b me ma|n s e|n spec]; cbn in *.
  - eexists _, _. split_and!; [done|by apply add_node_ok|done].
  - destruct (add_slots_range_keeps n s e t Ht ltac:(lia)) as (r & t' & -> & ? & _ & ?). by eexists _, _.
  - destruct (assign_parts_keeps n (Str.split "," spec) t Ht) as (r & t' & Hr & ? & _ & ?). by eexists _, _.
Qed.

Lemma run_topo_ops_ok os t :
  topo_ok t -> Forall topo_op_ok os -> exists t', run_topo_ops os t = Ret t' /\ topo_ok t'
    /\ myself_id t' = myself_id t.
Proof.
  revert t. induction os as [|o os IH]; intros t Ht Ho; cbn; [by exists t|].
  apply Forall_cons in Ho as [Ho Hos].
  destruct (run_topo_op_ok o t Ht Ho) as (r & t1 & -> & Ht1 & Hm1). cbn [mbind outcome_bind].
  destruct (IH t1 Ht1 Hos) as (t' & -> & ? & ?). exists t'. split_and!; [done|done|congruence].
Qed.

Lemma assigned_full t :
  topo_ok t -> Z.of_nat (assigned_count t) = HASH_SLOTS
    <-> forall slot, 0 <= slot < HASH_SLOTS -> is_Some (get_node_for_slot t slot).
Proof.
  intros Ht. pose proof (tp_len t Ht) as Hl. unfold assigned_count.
  assert (Hf : forall v : list (option ClusterNode), (length (List.filter is_assigned v) = length v)
    <-> forall i, (i < length v)%nat -> is_Some (mjoin (v !! i))).
  { clear. induction v as [|x v IH]; cbn; [split; [lia|done]|]. split.
    - intros Hx [|i] Hi; cbn.
      + destruct x as [x|]; [by eexists|]. cbn in Hx. pose proof (filter_length_le is_assigned v). lia.
      + apply IH; [|lia]. destruct x; cbn in Hx; [lia|]. pose proof (filter_length_le is_assigned v). lia.
    - intros Hall. destruct (Hall 0%nat ltac:(lia)) as [y Hy]. cbn in Hy. subst x. cbn. f_equal.
      apply IH. intros i Hi. apply (Hall (S i)). lia. }
  specialize (Hf (slot_to_node t)). split.
  - intros Hc slot Hs. rewrite get_node_lookup. apply Hf; [lia|rewrite Hl; unfold HASH_SLOTS in *; lia].
  - intros Hall. assert (length (List.filter is_assigned (slot_to_node t)) = length (slot_to_node t)) as ->.
    { apply Hf. intros i Hi. specialize (Hall (Z.of_nat i)). rewrite get_node_lookup, Nat2Z.id in Hall.
      apply Hall. rewrite Hl in Hi. unfold HASH_SLOTS in *. lia. }
    rewrite Hl. unfold HASH_SLOTS. lia.
Qed.

(** ** The theorems *)

(** C28: the topology stays well formed.  Any sequence of node additions and
    slot assignments, from a new topology, returns (no slot index is out of
    bounds) and leaves a table of 16384 slots in which every owner is a known
    node, nodes filed under their ids, all listed ranges inside the table and
    this server among the nodes. *)
Theorem topology_invariant me os :
  slots me = [] -> Forall topo_op_ok os ->
  exists t, run_topo_ops os (new me) = Ret t /\ topo_ok t /\ myself_id t = id me
    /\ forall slot n, get_node_for_slot t slot = Some n -> is_Some (nodes t !! id n).
Proof.
  intros Hs Ho. destruct (run_topo_ops_ok os (new me)) as (t & Hr & Ht & Hm); [by apply new_ok|done|].
  exists t. split_and!; [done|done|done|]. intros slot n. rewrite get_node_lookup.
  destruct (slot_to_node t !! Z.to_nat slot) as [o|] eqn:E; cbn; [|done]. intros ->. by eapply tp_owner.
Qed.

(** C29: [add_slots_range] on every branch.  A range that is not inside
    0-16383 or an unknown node is refused with the source's message and
    changes nothing; otherwise exactly the slots of the range go to the node
    and the range is added to its list. *)
Theorem add_slots_range_exact node_id start end_ t :
  topo_ok t -> 0 <= start ->
  exists r t', add_slots_range node_id start end_ t = Ret (r, t') /\
  if (start <=? end_) && (end_ <? HASH_SLOTS) then
    match nodes t !! node_id with
    | None => r = Err (b!"Unknown node id " ++ node_id) /\ t' = t
    | Some node =>
        r = Ok tt
        /\ nodes t' = <[node_id := push_slots (start, end_) node]> (nodes t)
        /\ forall slot, 0 <= slot ->
             get_node_for_slot t' slot
             = if decide (start <= slot <= end_) then Some node else get_node_for_slot t slot
    end
  else r = Err (b!"Invalid slot range " ++ Int.fmt_Z start ++ b!"-" ++ Int.fmt_Z end_) /\ t' = t.
Proof.
  intros Ht Hs. destruct (Z.leb_spec start end_), (Z.ltb_spec end_ HASH_SLOTS); cbn [andb];
    [|by eexists _, _; split; [|split; reflexivity]; unfold add_slots_range;
      destruct (Z.ltb_spec end_ start), (Z.leb_spec HASH_SLOTS end_); try lia..].
  destruct (nodes t !! node_id) as [node|] eqn:Hn.
  - destruct (add_slots_range_Ok node_id start end_ t node Ht) as (table & -> & Hl & Hi); [lia|done|done|].
    eexists _, _. split; [done|]. split_and!; [done|by cbn; rewrite (tp_key t Ht _ _ Hn)|].
    intros slot Hslot. rewrite !get_node_lookup. cbn. rewrite Hi, Z2Nat.id by done. by case_decide.
  - eexists _, _. split; [|split; reflexivity]. unfold add_slots_range.
    destruct (Z.ltb_spec end_ start), (Z.leb_spec HASH_SLOTS end_); try lia. cbn. by rewrite Hn.
Qed.

(** C31: a specification of slots is read back as it is written.  The text
    of any non-empty list of valid ranges, in the format of CLUSTER NODES
    joined by commas, is accepted for a known node, assigns to it exactly the
    slots of the ranges, lists the ranges, and leaves other nodes alone. *)
Theorem slot_spec_roundtrip node_id rs t :
  topo_ok t -> is_Some (nodes t !! node_id) -> Forall valid_range rs -> rs <> [] ->
  exists t', parse_and_assign_slots node_id (slot_spec rs) t = Ret (Ok tt, t')
    /\ assigned node_id rs t t'.
Proof.
  intros Ht Hn Hrs Hne. unfold parse_and_assign_slots. rewrite split_slot_spec by done.
  by apply assign_parts_ranges.
Qed.

(** C30: CLUSTER SLOTS is an exact and minimal description of the table.
    The reply lists ranges whose slots are owned by the node they name, every
    assigned slot is in one, and the ranges are in order and never split a
    run of slots with one owner. *)
Theorem cluster_slots_exact t :
  topo_ok t ->
  exists rs, format_cluster_slots t = Array (Some (range_entry <$> rs))
    /\ (forall slot k, 0 <= slot < HASH_SLOTS ->
          id <$> get_node_for_slot t slot = Some k
          <-> exists r, r ∈ rs /\ rstart r <= slot <= rend r /\ id (rnode r) = k)
    /\ (forall r, r ∈ rs -> 0 <= rstart r <= rend r /\ rend r < HASH_SLOTS)
    /\ (forall j r1 r2, rs !! j = Some r1 -> rs !! S j = Some r2 -> separate r1 r2).
Proof.
  intros Ht. destruct (slot_ranges_describe t Ht) as [Ho Hb Hs].
  exists (slot_ranges t). split_and!; [done| |exact Hb|exact Hs].
  intros slot k Hslot. specialize (Ho (Z.to_nat slot) k). unfold owner in Ho.
  rewrite get_node_lookup. rewrite Z2Nat.id in Ho by lia. apply Ho. unfold HASH_SLOTS in *. lia.
Qed.

(** CLUSTER INFO reports [cluster_state:ok] exactly when every one of
    the 16384 slots has an owner. *)
Theorem cluster_info_ok_iff t :
  topo_ok t ->
  Str.starts_with (b!"cluster_state:ok" ++ crlf) (format_cluster_info t) = true
  <-> forall slot, 0 <= slot < HASH_SLOTS -> is_Some (get_node_for_slot t slot).
Proof.
  intros Ht. rewrite <- (assigned_full t Ht). unfold format_cluster_info.
  destruct (Z.eqb_spec (Z.of_nat (assigned_count t)) HASH_SLOTS); by split.
Qed.

(** ** Witnesses *)

Definition node_a : ClusterNode := ClusterNode_new b!"a" b!"127.0.0.1" 6379 16379 true true.

Lemma a_ok : topo_ok (new node_a).
Proof. by apply new_ok. Qed.

Definition setup_ops : list topo_op :=
  [AddNode b!"b" b!"127.0.0.1" 6380 16380 false true; AssignSlots b!"a" b!"0-2, 4";
   AddSlots b!"b" 5 9; AddSlots b!"c" 1 2; AddSlots b!"b" 9 20000].

Lemma topology_invariant_witness :
  exists t, run_topo_ops setup_ops (new node_a) = Ret t /\ topo_ok t /\ myself_id t = id node_a
    /\ forall slot n, get_node_for_slot t slot = Some n -> is_Some (nodes t !! id n).
Proof.
  apply (topology_invariant node_a setup_ops); [reflexivity|].
  repeat constructor; cbn; unfold u16_max; lia.
Defined.

Lemma add_slots_range_exact_witness :
  exists r t', add_slots_range b!"a" 3 7 (new node_a) = Ret (r, t') /\ r = Ok tt
    /\ id <$> get_node_for_slot t' 5 = Some b!"a" /\ get_node_for_slot t' 8 = None.
Proof.
  destruct (add_slots_range_exact b!"a" 3 7 (new node_a) a_ok ltac:(lia)) as (r & t' & Hr & Hc).
  exists r, t'. split; [exact Hr|]. cbn [andb Z.leb Z.ltb Z.compare] in Hc.
  change (nodes (new node_a) !! b!"a") with (Some node_a) in Hc. destruct Hc as (Hok & _ & Hs).
  split; [exact Hok|]. rewrite !Hs by lia. split; vm_compute; reflexivity.
Defined.

Lemma slot_spec_roundtrip_witness :
  slot_spec [(0, 5460); (7000, 7000)] = b!"0-5460,7000" /\
  exists t', parse_and_assign_slots b!"a" (slot_spec [(0, 5460); (7000, 7000)]) (new node_a) = Ret (Ok tt, t')
    /\ assigned b!"a" [(0, 5460); (7000, 7000)] (new node_a) t'.
Proof.
  split; [vm_compute; reflexivity|].
  apply (slot_spec_roundtrip b!"a" [(0, 5460); (7000, 7000)] (new node_a) a_ok).
  - exists node_a. reflexivity.
  - repeat constructor; cbn; lia.
  - discriminate.
Defined.

Lemma cluster_slots_exact_witness :
  exists rs, format_cluster_slots (new node_a) = Array (Some (range_entry <$> rs))
    /\ (forall slot k, 0 <= slot < HASH_SLOTS ->
          id <$> get_node_for_slot (new node_a) slot = Some k
          <-> exists r, r ∈ rs /\ rstart r <= slot <= rend r /\ id (rnode r) = k)
    /\ (forall r, r ∈ rs -> 0 <= rstart r <= rend r /\ rend r < HASH_SLOTS)
    /\ (forall j r1 r2, rs !! j = Some r1 -> rs !! S j = Some r2 -> separate r1 r2).
Proof. exact (cluster_slots_exact (new node_a) a_ok). Defined.

Lemma cluster_info_ok_iff_witness :
  Str.starts_with (b!"cluster_state:ok" ++ crlf) (format_cluster_info (new node_a)) = true
  <-> forall slot, 0 <= slot < HASH_SLOTS -> is_Some (get_node_for_slot (new node_a) slot).
Proof. exact (cluster_info_ok_iff (new node_a) a_ok). Defined.

(** The ranges of a table with two owners and gaps. *)
Example ranges_of_two_owners :
  let node_b := ClusterNode_new b!"b" b!"127.0.0.1" 6380 16380 false true in
  let '(ranges, current) := scan_ranges
    [Some node_a; Some node_a; None; Some node_a; Some node_b; Some node_b] in
  ((fun r => (rstart r, rend r, id (rnode r))) <$> ranges,
   (fun r => (rstart r, rend r, id (rnode r))) <$> current)
  = ([(0, 1, b!"a"); (3, 3, b!"a")], Some (4, 5, b!"b")).
Proof. reflexivity. Qed.
