(* ===== verification/ReplState.v ===== *)
(** * Replication state: src/replication/state.rs and src/replication/rdb.rs

    The role, the replication id, the offsets and the senders of the
    connected replicas.  The channels are tokio's [mpsc]: they are the class
    [Mpsc], whose laws are what its documentation says of an unbounded
    channel ([send] fails when the receiver is closed or dropped, and
    otherwise queues the message behind the earlier ones). *)

From S2P Require Import Prelude RustStd Str.

(** ** tokio's unbounded channels *)

Class Mpsc := {
  sender : Type;
  (** The state of all the channels. *)
  channels : Type;
  (** [tx.send(m).is_ok()] and the channels after it. *)
  send : sender -> bytes -> channels -> bool * channels;
  (** What a channel has accepted so far, in order. *)
  accepted : channels -> sender -> list bytes;
  (** The receiver is closed or dropped. *)
  is_closed : channels -> sender -> bool;
  sender_eq_dec :: EqDecision sender;
}.

Class MpscLaws `{Mpsc} : Prop := {
  send_result tx m w : fst (send tx m w) = negb (is_closed w tx);
  send_accepted tx m w tx' :
    accepted (snd (send tx m w)) tx'
    = if decide (tx' = tx /\ is_closed w tx = false) then accepted w tx' ++ [m] else accepted w tx';
  send_closed tx m w tx' : is_closed (snd (send tx m w)) tx' = is_closed w tx';
}.

Module ReplState.

Inductive ServerRole : Type :=
| Master
| Replica (master_host : bytes) (master_port : Z).

Section ReplState.
Context `{Mpsc}.

Record ReplicationState : Type := {
  role : ServerRole;
  master_replid : bytes;
  master_repl_offset : Z;
  replica_bytes_processed : Z;
  connected_replicas : Z;
  downstream_senders : list sender;
}.

Definition new_master (replid : option bytes) : ReplicationState := {|
  role := Master;
  master_replid := default b!"8371b4fb1155b71f4a04d3e1bc3e18c4a990aeeb" replid;
  master_repl_offset := 0;
  replica_bytes_processed := 0;
  connected_replicas := 0;
  downstream_senders := [];
|}.

Definition new_replica (master_host : bytes) (master_port : Z) : ReplicationState := {|
  role := Replica master_host master_port;
  master_replid := b!"?";
  master_repl_offset := 0;
  replica_bytes_processed := 0;
  connected_replicas := 0;
  downstream_senders := [];
|}.

Definition is_replica (rs : ReplicationState) : bool :=
  match role rs with
  | Replica _ _ => true
  | Master => false
  end.

Definition get_replid (rs : ReplicationState) : bytes := master_replid rs.

Definition set_replid (id : bytes) (rs : ReplicationState) : ReplicationState := {|
  role := role rs;
  master_replid := id;
  master_repl_offset := master_repl_offset rs;
  replica_bytes_processed := replica_bytes_processed rs;
  connected_replicas := connected_replicas rs;
  downstream_senders := downstream_senders rs;
|}.

(** [replica_bytes_processed.store(n)]. *)
Definition store_processed (n : Z) (rs : ReplicationState) : ReplicationState := {|
  role := role rs;
  master_replid := master_replid rs;
  master_repl_offset := master_repl_offset rs;
  replica_bytes_processed := n;
  connected_replicas := connected_replicas rs;
  downstream_senders := downstream_senders rs;
|}.

Definition info_replication (rs : ReplicationState) : bytes :=
  let replid := get_replid rs in
  match role rs with
  | Master =>
      b!"# Replication" ++ crlf ++ b!"role:master" ++ crlf
      ++ b!"connected_slaves:" ++ Int.fmt_Z (connected_replicas rs) ++ crlf
      ++ b!"master_replid:" ++ replid ++ crlf
      ++ b!"master_repl_offset:" ++ Int.fmt_Z (master_repl_offset rs) ++ crlf
      ++ b!"second_repl_offset:-1" ++ crlf ++ b!"repl_backlog_active:0" ++ crlf
  | Replica master_host master_port =>
      b!"# Replication" ++ crlf ++ b!"role:slave" ++ crlf
      ++ b!"master_host:" ++ master_host ++ crlf
      ++ b!"master_port:" ++ Int.fmt_Z master_port ++ crlf
      ++ b!"master_link_status:up" ++ crlf ++ b!"master_last_io_seconds_ago:0" ++ crlf
      ++ b!"master_sync_in_progress:0" ++ crlf
      ++ b!"slave_repl_offset:" ++ Int.fmt_Z (replica_bytes_processed rs) ++ crlf
      ++ b!"slave_priority:100" ++ crlf ++ b!"slave_read_only:1" ++ crlf
      ++ b!"connected_slaves:0" ++ crlf
      ++ b!"master_replid:" ++ replid ++ crlf
  end.

(** [downstream_senders.lock().push(tx)]. *)
Definition push_sender (tx : sender) (rs : ReplicationState) : ReplicationState := {|
  role := role rs;
  master_replid := master_replid rs;
  master_repl_offset := master_repl_offset rs;
  replica_bytes_processed := replica_bytes_processed rs;
  connected_replicas := connected_replicas rs;
  downstream_senders := downstream_senders rs ++ [tx];
|}.

(** [connected_replicas.fetch_add(1)]. *)
Definition count_replica (rs : ReplicationState) : ReplicationState := {|
  role := role rs;
  master_replid := master_replid rs;
  master_repl_offset := master_repl_offset rs;
  replica_bytes_processed := replica_bytes_processed rs;
  connected_replicas := wrap_usize (connected_replicas rs + 1);
  downstream_senders := downstream_senders rs;
|}.

Definition register_downstream (tx : sender) (rs : ReplicationState) : ReplicationState :=
  count_replica (push_sender tx rs).

(** [senders.retain(|tx| tx.send(raw_resp.clone()).is_ok())]. *)
Fixpoint retain_sent (raw_resp : bytes) (senders : list sender) (w : channels)
    : list sender * channels :=
  match senders with
  | [] => ([], w)
  | tx :: rest =>
      let '(is_ok, w1) := send tx raw_resp w in
      let '(kept, w2) := retain_sent raw_resp rest w1 in
      (if is_ok then tx :: kept else kept, w2)
  end.

(** [u64] additions of atomics wrap. *)
Definition propagate_downstream (raw_resp : bytes) (rs : ReplicationState) (w : channels)
    : ReplicationState * channels :=
  let len := Z.of_nat (length raw_resp) in
  let '(kept, w') := retain_sent raw_resp (downstream_senders rs) w in
  ({|
    role := role rs;
    master_replid := master_replid rs;
    master_repl_offset := wrap_usize (master_repl_offset rs + len);
    replica_bytes_processed := replica_bytes_processed rs;
    connected_replicas := connected_replicas rs;
    downstream_senders := kept;
  |}, w').

End ReplState.

(** ** rdb.rs *)

Definition EMPTY_RDB_HEX : bytes :=
  b!"524544495330303131fa0972656469732d76657205372e322e30fa0a72656469732d62697473c040fa056374696d65c26d086265fa08757365642d6d656dc2b0c41000fa08616f662d62617365c000fff62278d2db30eb16".

(** [u8::from_str_radix(&[a, b], 16)]. *)
Definition hex_digit_val (c : byte) : option Z :=
  let z := bZ c in
  if (48 <=? z) && (z <=? 57) then Some (z - 48)
  else if (97 <=? z) && (z <=? 102) then Some (z - 87)
  else if (65 <=? z) && (z <=? 70) then Some (z - 55)
  else None.

Definition from_hex2 (a b : byte) : option byte :=
  match hex_digit_val b with
  | None => None
  | Some lo =>
      if Byte.eqb a "+" then Some (Zb lo)
      else match hex_digit_val a with
           | Some hi => Some (Zb (16 * hi + lo))
           | None => None
           end
  end.

(** The loop over [hex[i..i + 2]]; the slice of a last odd digit panics. *)
Fixpoint hex_bytes (hex : bytes) : outcome bytes :=
  match hex with
  | [] => Ret []
  | [_] => Panic IndexOutOfBounds
  | a :: b :: rest =>
      more ← hex_bytes rest;
      Ret (default x00 (from_hex2 a b) :: more)
  end.

Definition get_empty_rdb_bytes : outcome bytes := hex_bytes EMPTY_RDB_HEX.

End ReplState.
