(* ===== verification/ReplTheory.v ===== *)
(** * What the replication state guarantees

    Propagation reaches every open replica channel exactly once and in
    order, drops the closed ones, and keeps the offset in step with the
    bytes sent. *)

From S2P Require Import Prelude RustStd Str ReplState.
Import ReplState.

Section Theory.
Context `{MpscLaws}.

Definition open (w : channels) (tx : sender) : bool := negb (is_closed w tx).

(** How often a sender is registered. *)
Definition registrations (tx : sender) (l : list sender) : nat :=
  length (filter (fun x => x = tx) l).
Arguments registrations : simpl never.

Lemma retain_sent_kept raw l w :
  fst (retain_sent raw l w) = filter (fun tx => open w tx = true) l.
Proof.
  revert w. induction l as [|tx l IH]; intros w; cbn [retain_sent]; [done|].
  pose proof (send_result tx raw w) as Hr. pose proof (send_closed tx raw w) as Hc.
  destruct (send tx raw w) as [ok w1]. cbn in Hr, Hc.
  specialize (IH w1). destruct (retain_sent raw l w1) as [kept w2]. cbn in IH. subst kept ok.
  assert (Hf : filter (fun x => open w1 x = true) l = filter (fun x => open w x = true) l).
  { apply list_filter_iff. intros x. unfold open. by rewrite Hc. }
  rewrite filter_cons, <- Hf. change (open w tx) with (negb (is_closed w tx)).
  by destruct (is_closed w tx).
Qed.

Lemma retain_sent_closed raw l w tx : is_closed (snd (retain_sent raw l w)) tx = is_closed w tx.
Proof.
  revert w. induction l as [|x l IH]; intros w; cbn; [done|].
  pose proof (send_closed x raw w tx) as Hc. destruct (send x raw w) as [ok w1]. cbn in Hc.
  specialize (IH w1). destruct (retain_sent raw l w1) as [kept w2]. cbn in *. congruence.
Qed.

Lemma registrations_cons tx x l :
  registrations tx (x :: l) = if decide (x = tx) then S (registrations tx l) else registrations tx l.
Proof. unfold registrations. rewrite filter_cons. by case_decide. Qed.

Lemma registrations_app tx l k :
  registrations tx (l ++ k) = (registrations tx l + registrations tx k)%nat.
Proof. unfold registrations. by rewrite filter_app, length_app. Qed.

Lemma retain_sent_accepted raw l w tx :
  accepted (snd (retain_sent raw l w)) tx
  = accepted w tx ++ (if open w tx then replicate (registrations tx l) raw else []).
Proof.
  revert w. induction l as [|x l IH]; intros w; cbn [retain_sent].
  - cbn. destruct (open w tx); by rewrite app_nil_r.
  - pose proof (send_closed x raw w tx) as Hc. pose proof (send_accepted x raw w tx) as Ha.
    destruct (send x raw w) as [ok w1]. cbn [snd] in Hc, Ha.
    specialize (IH w1). destruct (retain_sent raw l w1) as [kept w2]. cbn [snd] in IH |- *.
    rewrite IH, Ha. unfold open. rewrite Hc, registrations_cons.
    destruct (decide (x = tx)) as [->|Hne].
    + destruct (is_closed w tx); cbn.
      * rewrite decide_False by (by intros [_ ?]). done.
      * rewrite decide_True by done. by rewrite <- app_assoc.
    + by rewrite decide_False by (by intros [-> _]).
Qed.

(** ** A replica's view of the stream *)

(** What happens to the replication state and the channels while a server
    runs: it propagates a command, it registers a replica's sender, the
    receivers of some channels take messages or are closed, a replica is
    counted, or the server's own task as a replica records its progress. *)
Inductive repl_step : ReplicationState * channels -> list bytes -> list sender -> ReplicationState * channels -> Prop :=
| repl_propagate rs w raw : repl_step (rs, w) [raw] [] (propagate_downstream raw rs w)
| repl_register rs w tx : repl_step (rs, w) [] [tx] (push_sender tx rs, w)
| repl_close rs w w' :
    (forall tx, accepted w' tx = accepted w tx) ->
    (forall tx, is_closed w tx = true -> is_closed w' tx = true) ->
    repl_step (rs, w) [] [] (rs, w')
| repl_meta rs rs' w :
    downstream_senders rs' = downstream_senders rs -> master_repl_offset rs' = master_repl_offset rs ->
    repl_step (rs, w) [] [] (rs', w).

(** Runs, with the commands propagated and the senders registered. *)
Inductive repl_run : ReplicationState * channels -> list bytes -> list sender -> ReplicationState * channels -> Prop :=
| repl_run_nil s : repl_run s [] [] s
| repl_run_cons s raws txs s1 raws' txs' s2 :
    repl_step s raws txs s1 -> repl_run s1 raws' txs' s2 -> repl_run s (raws ++ raws') (txs ++ txs') s2.

Definition total_len (raws : list bytes) : Z := Z.of_nat (length (concat raws)).

Lemma total_len_app a b : total_len (a ++ b) = total_len a + total_len b.
Proof. unfold total_len. rewrite concat_app, length_app. lia. Qed.

Lemma repl_step_open s raws txs s1 tx :
  repl_step s raws txs s1 -> is_closed (snd s1) tx = false -> is_closed (snd s) tx = false.
Proof.
  intros Hs Hc. destruct Hs as [rs w raw|rs w tx'|rs w w' _ Hm|rs rs' w _ _]; cbn in *.
  - unfold propagate_downstream in Hc. pose proof (retain_sent_closed raw (downstream_senders rs) w tx) as Hr.
    destruct (retain_sent _ _ _). cbn in *. congruence.
  - done.
  - destruct (is_closed w tx) eqn:E; [|done]. rewrite (Hm tx E) in Hc. done.
  - done.
Qed.

Lemma repl_run_open s raws txs s' tx :
  repl_run s raws txs s' -> is_closed (snd s') tx = false -> is_closed (snd s) tx = false.
Proof. induction 1; [done|]. intros Hc. eapply repl_step_open; [done|]. by apply IHrepl_run. Qed.

(** One step, seen by a sender that is registered once, not registered
    again and still open after it. *)
Lemma repl_step_stream s raws txs s1 tx :
  repl_step s raws txs s1 -> is_closed (snd s1) tx = false -> tx ∉ txs ->
  registrations tx (downstream_senders (fst s)) = 1%nat ->
  accepted (snd s1) tx = accepted (snd s) tx ++ raws
  /\ registrations tx (downstream_senders (fst s1)) = 1%nat
  /\ wrap_usize (master_repl_offset (fst s1)) = wrap_usize (master_repl_offset (fst s) + total_len raws).
Proof.
  intros Hs Hc Hn Hr. pose proof (repl_step_open _ _ _ _ _ Hs Hc) as Ho.
  destruct Hs as [rs w raw|rs w tx'|rs w w' Ha Hm|rs rs' w Hsend Hoff]; cbn in *.
  - pose proof (retain_sent_accepted raw (downstream_senders rs) w tx) as Hacc.
    pose proof (retain_sent_kept raw (downstream_senders rs) w) as Hk.
    unfold propagate_downstream in *. destruct (retain_sent _ _ _) as [kept w2]. cbn in *.
    unfold open in Hacc. rewrite Ho, Hr in Hacc. cbn in Hacc. split_and!; [done| |].
    + subst kept. unfold registrations in *. rewrite list_filter_filter.
      rewrite (list_filter_iff _ (fun x => x = tx)); [done|]. intros x. unfold open.
      split; [by intros []|]. intros ->. by rewrite Ho.
    + unfold total_len. cbn. rewrite app_nil_r. unfold wrap_usize. by rewrite Z.mod_mod by done.
  - rewrite app_nil_r. split_and!; [done| |].
    + rewrite registrations_app, Hr, registrations_cons, decide_False; [done|].
      intros ->. apply Hn. by apply list_elem_of_singleton.
    + unfold total_len. cbn. f_equal. lia.
  - rewrite app_nil_r. split_and!; [done|done|]. unfold total_len. cbn. f_equal. lia.
  - rewrite app_nil_r, Hsend, Hoff. split_and!; [done|done|]. unfold total_len. cbn. f_equal. lia.
Qed.

Lemma repl_run_app s1 raws txs s2 raws' txs' s3 :
  repl_run s1 raws txs s2 -> repl_run s2 raws' txs' s3 -> repl_run s1 (raws ++ raws') (txs ++ txs') s3.
Proof.
  induction 1 as [|s raws txs s1 raws2 txs2 s2 Hs _ IH]; [done|]. intros Hr. rewrite <- !app_assoc.
  by eapply repl_run_cons; [|apply IH].
Qed.

Lemma repl_run_one s raws txs s' : repl_step s raws txs s' -> repl_run s raws txs s'.
Proof.
  intros Hs. rewrite <- (app_nil_r raws), <- (app_nil_r txs). by eapply repl_run_cons; [|constructor].
Qed.

Lemma repl_run_stream s raws txs s' tx :
  repl_run s raws txs s' -> is_closed (snd s') tx = false -> tx ∉ txs ->
  registrations tx (downstream_senders (fst s)) = 1%nat ->
  accepted (snd s') tx = accepted (snd s) tx ++ raws
  /\ registrations tx (downstream_senders (fst s')) = 1%nat
  /\ wrap_usize (master_repl_offset (fst s')) = wrap_usize (master_repl_offset (fst s) + total_len raws).
Proof.
  induction 1 as [s|s raws txs s1 raws' txs' s2 Hs Hrun IH]; intros Hc Hn Hr.
  - rewrite app_nil_r. split_and!; [done|done|]. unfold total_len. cbn. f_equal. lia.
  - rewrite elem_of_app in Hn.
    destruct (repl_step_stream _ _ _ _ tx Hs) as (Ha & Hr1 & Ho1); [by eapply repl_run_open|tauto|done|].
    destruct IH as (Ha2 & Hr2 & Ho2); [done|tauto|done|]. split_and!; [|done|].
    + by rewrite Ha2, Ha, app_assoc.
    + rewrite Ho2, total_len_app, Z.add_assoc. unfold wrap_usize in *.
      rewrite Z.add_mod, Ho1, <- Z.add_mod by done. done.
Qed.

(** ** The theorems *)

(** What propagating a command does.  Each registered sender whose
    replica is still connected gets the command, once per registration;
    senders whose replica is gone are removed and the others stay in order;
    no other channel changes; the offset advances by the command's bytes. *)
Theorem propagate_exact raw rs w :
  let '(rs', w') := propagate_downstream raw rs w in
  downstream_senders rs' = filter (fun tx => is_closed w tx = false) (downstream_senders rs)
  /\ (forall tx, accepted w' tx = accepted w tx ++
        (if is_closed w tx then [] else replicate (registrations tx (downstream_senders rs)) raw))
  /\ master_repl_offset rs' = wrap_usize (master_repl_offset rs + Z.of_nat (length raw))
  /\ role rs' = role rs /\ master_replid rs' = master_replid rs.
Proof.
  unfold propagate_downstream.
  pose proof (fun tx => retain_sent_accepted raw (downstream_senders rs) w tx) as Hacc.
  pose proof (retain_sent_kept raw (downstream_senders rs) w) as Hk.
  destruct (retain_sent _ _ _) as [kept w2]. cbn in *. split_and!; try done.
  - rewrite Hk. apply list_filter_iff. intros x. unfold open. by destruct (is_closed w x).
  - intros tx. rewrite Hacc. unfold open. by destruct (is_closed w tx).
Qed.

(** A connected replica sees the whole stream.  Over any run of the
    server in which other replicas come and go, the channel of a replica that
    is registered once and still open at the end has accepted exactly the
    propagated commands, in order and without gaps or repeats, and the
    master's offset has advanced by their bytes. *)
Theorem replica_stream_complete s raws txs s' tx :
  repl_run s raws txs s' -> is_closed (snd s') tx = false -> tx ∉ txs ->
  registrations tx (downstream_senders (fst s)) = 1%nat ->
  accepted (snd s') tx = accepted (snd s) tx ++ raws
  /\ wrap_usize (master_repl_offset (fst s')) = wrap_usize (master_repl_offset (fst s) + total_len raws).
Proof. intros. destruct (repl_run_stream s raws txs s' tx) as (? & _ & ?); auto. Qed.

End Theory.

(** ** A concrete channel implementation *)

(** Channels numbered from 0, each with its queue and whether it is closed. *)
#[export] Instance demo_mpsc : Mpsc := {|
  sender := nat;
  channels := nat -> list bytes * bool;
  send := fun tx m w =>
    if snd (w tx) then (false, w)
    else (true, fun i => if (i =? tx)%nat then (fst (w tx) ++ [m], false) else w i);
  accepted := fun w tx => fst (w tx);
  is_closed := fun w tx => snd (w tx);
  sender_eq_dec := Nat.eq_dec;
|}.

#[export] Instance demo_mpsc_laws : MpscLaws.
Proof.
  constructor; cbn.
  - intros tx m w. by destruct (w tx) as [q []].
  - intros tx m w tx'. destruct (w tx) as [q []] eqn:E; cbn.
    + by rewrite decide_False by (by intros [_ ?]).
    + destruct (Nat.eqb_spec tx' tx) as [->|Hne]; cbn.
      * rewrite decide_True by done. by rewrite E.
      * by rewrite decide_False by (by intros [-> _]).
  - intros tx m w tx'. destruct (w tx) as [q []] eqn:E; cbn; [done|].
    destruct (Nat.eqb_spec tx' tx) as [->|Hne]; cbn; by rewrite ?E.
Qed.

Definition no_messages : channels := fun _ => ([], false).

Definition replica_a : @sender demo_mpsc := 7%nat.
Definition replica_b : @sender demo_mpsc := 8%nat.

(** Replica b has disconnected; replica a is registered twice. *)
Definition b_gone : channels := fun i => ([], (i =? replica_b)%nat).

Lemma propagate_exact_witness :
  let rs := register_downstream replica_a (register_downstream replica_b
              (register_downstream replica_a (new_master None))) in
  let '(rs', w') := propagate_downstream b!"xyz" rs b_gone in
  downstream_senders rs' = [replica_a; replica_a] /\ accepted w' replica_a = [b!"xyz"; b!"xyz"]
  /\ accepted w' replica_b = [] /\ master_repl_offset rs' = 3.
Proof.
  intros rs. pose proof (@propagate_exact demo_mpsc demo_mpsc_laws b!"xyz" rs b_gone) as Hp.
  destruct (propagate_downstream b!"xyz" rs b_gone) as [rs' w']. destruct Hp as (Hs & Ha & Ho & _).
  rewrite Hs, !Ha, Ho. vm_compute. auto.
Defined.

Lemma replica_stream_complete_witness :
  let rs := register_downstream replica_a (new_master None) in
  let s' := propagate_downstream b!"y" (register_downstream replica_b (fst (propagate_downstream b!"x" rs no_messages)))
    (snd (propagate_downstream b!"x" rs no_messages)) in
  accepted (snd s') replica_a = accepted no_messages replica_a ++ [b!"x"; b!"y"]
  /\ wrap_usize (master_repl_offset (fst s')) = wrap_usize (0 + total_len [b!"x"; b!"y"]).
Proof.
  intros rs s'.
  apply (@replica_stream_complete demo_mpsc demo_mpsc_laws (rs, no_messages) [b!"x"; b!"y"] [replica_b] s' replica_a).
  - apply (@repl_run_cons demo_mpsc _ [b!"x"] [] (propagate_downstream b!"x" rs no_messages) [b!"y"] [replica_b]);
      [apply repl_propagate|].
    apply (@repl_run_cons demo_mpsc _ [] [replica_b]
      (push_sender replica_b (fst (propagate_downstream b!"x" rs no_messages)),
       snd (propagate_downstream b!"x" rs no_messages)) [b!"y"] []); [apply repl_register|].
    apply (@repl_run_cons demo_mpsc _ [] []
      (register_downstream replica_b (fst (propagate_downstream b!"x" rs no_messages)),
       snd (propagate_downstream b!"x" rs no_messages)) [b!"y"] []); [apply repl_meta; reflexivity|].
    apply (@repl_run_cons demo_mpsc _ [b!"y"] [] s' [] []); [apply repl_propagate|apply repl_run_nil].
  - vm_compute. reflexivity.
  - intros Hin. apply list_elem_of_singleton in Hin. discriminate Hin.
  - vm_compute. reflexivity.
Defined.

(** ** The snapshot *)

(** The snapshot sent to a replica decodes: 88 bytes of the format's version 11. *)
Lemma empty_rdb_ok :
  exists rdb, get_empty_rdb_bytes = Ret rdb /\ length rdb = 88%nat
    /\ Str.starts_with b!"REDIS0011" rdb = true.
Proof. eexists. split; [vm_compute; reflexivity|]. by vm_compute. Qed.
