(* ===== verification/Runtime.v ===== *)
(** * The parts of tokio the tasks share

    [Mpsc] has the sending side of the unbounded channels; [MpscRx] adds
    their creation and their receiver, one per channel, named by its sender.
    [Broadcast] is the channel on which the accept loop tells the
    connections to stop.  The laws are what tokio documents: messages are
    received in the order they were sent, a send to a dropped receiver fails,
    and a broadcast reaches every receiver that has subscribed before it. *)

From S2P Require Import Prelude RustStd Str ReplState ReplTheory.

(** ** Receivers of the unbounded channels *)

Class MpscRx `{Mpsc} := {
  (** The channel exists. *)
  allocated : channels -> sender -> bool;
  (** [mpsc::unbounded_channel()]. *)
  new_channel : channels -> sender * channels;
  (** What the receiver has taken so far, in order. *)
  delivered : channels -> sender -> list bytes;
  (** [rx.recv()] when a message is queued. *)
  recv : sender -> channels -> option (bytes * channels);
  (** The receiver is dropped. *)
  drop_rx : sender -> channels -> channels;
}.

Class MpscRxLaws `{MpscRx} : Prop := {
  new_fresh w : allocated w (fst (new_channel w)) = false;
  new_allocated w tx :
    allocated (snd (new_channel w)) tx = bool_decide (tx = fst (new_channel w)) || allocated w tx;
  new_accepted w tx : accepted (snd (new_channel w)) tx = accepted w tx;
  new_delivered w tx : delivered (snd (new_channel w)) tx = delivered w tx;
  new_closed w tx : is_closed (snd (new_channel w)) tx = is_closed w tx;
  unallocated w tx : allocated w tx = false ->
    accepted w tx = [] /\ delivered w tx = [] /\ is_closed w tx = false;
  send_allocated tx m w tx' : allocated w tx' = true -> allocated (snd (send tx m w)) tx' = true;
  send_delivered tx m w tx' : delivered (snd (send tx m w)) tx' = delivered w tx';
  delivered_prefix w tx : delivered w tx `prefix_of` accepted w tx;
  recv_none w tx : recv tx w = None <-> delivered w tx = accepted w tx;
  recv_some w tx m w' : recv tx w = Some (m, w') ->
    (forall tx', delivered w' tx' = if decide (tx' = tx) then delivered w tx ++ [m] else delivered w tx')
    /\ (forall tx', accepted w' tx' = accepted w tx')
    /\ (forall tx', is_closed w' tx' = is_closed w tx')
    /\ (forall tx', allocated w' tx' = allocated w tx');
  drop_closed w tx tx' : allocated w tx = true ->
    is_closed (drop_rx tx w) tx' = bool_decide (tx' = tx) || is_closed w tx';
  drop_accepted w tx tx' : accepted (drop_rx tx w) tx' = accepted w tx';
  drop_delivered w tx tx' : delivered (drop_rx tx w) tx' = delivered w tx';
  drop_allocated w tx tx' : allocated (drop_rx tx w) tx' = allocated w tx';
}.

(** ** The shutdown broadcast *)

Class Broadcast := {
  bus : Type;
  receiver : Type;
  bus_new : bus;
  (** [client_shutdown_tx.subscribe()]. *)
  subscribe : bus -> receiver * bus;
  (** [client_shutdown_tx.send(())]. *)
  announce : bus -> bus;
  subscribed : bus -> receiver -> bool;
  (** [rx.recv()] is ready. *)
  notified : bus -> receiver -> bool;
}.

Class BroadcastLaws `{Broadcast} : Prop := {
  bus_new_quiet r : subscribed bus_new r = false;
  subscribe_fresh b : subscribed b (fst (subscribe b)) = false;
  subscribe_adds b : subscribed (snd (subscribe b)) (fst (subscribe b)) = true;
  subscribe_keeps b r : subscribed b r = true -> subscribed (snd (subscribe b)) r = true;
  subscribe_notified b r : notified (snd (subscribe b)) r = notified b r;
  announce_subscribed b r : subscribed (announce b) r = subscribed b r;
  announce_notifies b r : notified (announce b) r = subscribed b r || notified b r;
  notified_subscribed b r : notified b r = true -> subscribed b r = true;
}.

(** ** Channels and a broadcast to evaluate with *)

Record cell : Type := { c_delivered : list bytes; c_queue : list bytes; c_closed : bool }.

Definition empty_cell : cell := {| c_delivered := []; c_queue := []; c_closed := false |}.

(** The channel [tx], empty if it was never used. *)
Definition get_cell (w : gmap nat cell) (tx : nat) : cell := default empty_cell (w !! tx).

Definition put_cell (tx : nat) (d q : list bytes) (closed : bool) (w : gmap nat cell) : gmap nat cell :=
  <[tx := {| c_delivered := d; c_queue := q; c_closed := closed |}]> w.

(** Channels by number, each with what was taken from it and what is queued. *)
Definition live_mpsc : Mpsc := {|
  sender := nat;
  channels := gmap nat cell;
  send := fun tx m w =>
    let c := get_cell w tx in
    if c_closed c then (false, w) else (true, put_cell tx (c_delivered c) (c_queue c ++ [m]) false w);
  accepted := fun w tx => c_delivered (get_cell w tx) ++ c_queue (get_cell w tx);
  is_closed := fun w tx => c_closed (get_cell w tx);
  sender_eq_dec := Nat.eq_dec;
|}.

#[local] Existing Instance live_mpsc | 0.

Definition live_rx : MpscRx := {|
  allocated := fun w tx => bool_decide (is_Some (w !! tx)) : bool;
  new_channel := fun w => (fresh (dom w), <[fresh (dom w) := empty_cell]> w);
  delivered := fun w tx => c_delivered (get_cell w tx);
  recv := fun tx w =>
    let c := get_cell w tx in
    match c_queue c with
    | [] => None
    | m :: q => Some (m, put_cell tx (c_delivered c ++ [m]) q (c_closed c) w)
    end;
  drop_rx := fun tx w => alter (fun c => {| c_delivered := c_delivered c; c_queue := c_queue c; c_closed := true |}) tx w;
|}.

Lemma get_put tx d q b w tx' :
  get_cell (put_cell tx d q b w) tx'
  = if decide (tx' = tx) then {| c_delivered := d; c_queue := q; c_closed := b |} else get_cell w tx'.
Proof.
  unfold get_cell, put_cell. destruct (decide (tx' = tx)) as [->|Hne]; [by rewrite lookup_insert_eq|by rewrite lookup_insert_ne].
Qed.

Lemma put_allocated tx d q b w tx' : is_Some (w !! tx') -> is_Some (put_cell tx d q b w !! tx').
Proof. intros Hs. unfold put_cell. rewrite lookup_insert_is_Some'. by right. Qed.

Lemma get_fresh w tx : get_cell (<[fresh (dom w) := empty_cell]> w) tx = get_cell w tx.
Proof.
  unfold get_cell. destruct (decide (tx = fresh (dom w))) as [->|Hne]; [|by rewrite lookup_insert_ne].
  rewrite lookup_insert_eq. assert (w !! fresh (dom w) = None) as -> by (apply not_elem_of_dom, is_fresh). done.
Qed.

Lemma live_mpsc_laws : @MpscLaws live_mpsc.
Proof.
  constructor; cbn; intros tx m w; [by destruct (c_closed _)|intros tx'..];
    (destruct (c_closed (get_cell w tx)) eqn:E; cbn; [rewrite ?decide_False by (by intros [_ ?]); done|]);
    rewrite get_put.
  - destruct (decide (tx' = tx)) as [->|Hne].
    + rewrite decide_True by done. cbn. by rewrite app_assoc.
    + by rewrite decide_False by (by intros [? _]).
  - by destruct (decide (tx' = tx)) as [->|Hne].
Qed.

Lemma live_rx_recv : forall (w : gmap nat cell) (tx : nat) m (w' : gmap nat cell),
  @recv live_mpsc live_rx tx w = Some (m, w') ->
  (forall tx', @delivered live_mpsc live_rx w' tx'
     = if decide (tx' = tx) then @delivered live_mpsc live_rx w tx ++ [m] else @delivered live_mpsc live_rx w tx')
  /\ (forall tx', accepted w' tx' = accepted w tx') /\ (forall tx', is_closed w' tx' = is_closed w tx')
  /\ (forall tx', @allocated live_mpsc live_rx w' tx' = @allocated live_mpsc live_rx w tx').
Proof.
  intros w tx m w'. cbn. destruct (c_queue (get_cell w tx)) as [|m0 q] eqn:Eq; [done|]. intros [= <- <-].
  split_and!; intros tx'; rewrite ?get_put; try (destruct (decide (tx' = tx)) as [->|Hne]; cbn; try done).
  - rewrite Eq. by rewrite <- app_assoc.
  - apply bool_decide_ext. unfold put_cell. rewrite lookup_insert_is_Some'. split; [|by right]. intros _.
    unfold get_cell in Eq. destruct (w !! tx) eqn:E; [by eexists|done].
  - apply bool_decide_ext. unfold put_cell. by rewrite lookup_insert_ne.
Qed.

Lemma live_rx_laws : @MpscRxLaws live_mpsc live_rx.
Proof.
  constructor; [| | | | | | | | | |apply live_rx_recv| | | |]; cbn [allocated new_channel delivered recv drop_rx live_rx
    accepted is_closed send live_mpsc fst snd channels sender].
  - intros w. apply bool_decide_eq_false_2, eq_None_not_Some, not_elem_of_dom, is_fresh.
  - intros w tx. destruct (decide (tx = fresh (dom w))) as [->|Hne].
    + rewrite (bool_decide_eq_true_2 (_ = _)) by done. apply bool_decide_eq_true_2. by rewrite lookup_insert_eq.
    + rewrite (bool_decide_eq_false_2 (tx = _)) by done. cbn. apply bool_decide_ext. by rewrite lookup_insert_ne.
  - intros w tx. by rewrite get_fresh.
  - intros w tx. by rewrite get_fresh.
  - intros w tx. by rewrite get_fresh.
  - intros w tx. rewrite bool_decide_eq_false, <- eq_None_not_Some. unfold get_cell. by intros ->.
  - intros tx m w tx'. rewrite !bool_decide_eq_true. intros Hs. destruct (c_closed _); [done|]. by apply put_allocated.
  - intros tx m w tx'. destruct (c_closed _); cbn; [done|]. rewrite get_put. by destruct (decide (tx' = tx)) as [->|Hne].
  - intros w tx. by apply prefix_app_r.
  - intros w tx. destruct (c_queue (get_cell w tx)) as [|m q]; [by rewrite app_nil_r|]. split; [done|].
    rewrite <- (app_nil_r (c_delivered _)) at 1. by intros ?%app_inv_head.
  - intros w tx tx'. rewrite bool_decide_eq_true. intros [c Hc]. unfold get_cell. destruct (decide (tx' = tx)) as [->|Hne].
    + by rewrite lookup_alter_eq, Hc, bool_decide_eq_true_2.
    + by rewrite lookup_alter_ne, bool_decide_eq_false_2.
  - intros w tx tx'. unfold get_cell. destruct (decide (tx' = tx)) as [->|Hne]; [|by rewrite lookup_alter_ne].
    rewrite lookup_alter_eq. by destruct (w !! tx).
  - intros w tx tx'. unfold get_cell. destruct (decide (tx' = tx)) as [->|Hne]; [|by rewrite lookup_alter_ne].
    rewrite lookup_alter_eq. by destruct (w !! tx).
  - intros w tx tx'. apply bool_decide_ext. by rewrite lookup_alter_is_Some.
Qed.

(** Receivers numbered in order; those below the second number are told. *)
Definition live_bus : Broadcast := {|
  bus := nat * nat;
  receiver := nat;
  bus_new := (0, 0)%nat;
  subscribe := fun b => (b.1, (S b.1, Nat.min b.2 b.1));
  announce := fun b => (b.1, b.1);
  subscribed := fun b r => (r <? b.1)%nat;
  notified := fun b r => (r <? Nat.min b.2 b.1)%nat;
|}.

Lemma live_bus_laws : @BroadcastLaws live_bus.
Proof.
  constructor; cbn [bus receiver bus_new subscribe announce subscribed notified live_bus fst snd].
  - done.
  - intros b. apply Nat.ltb_irrefl.
  - intros b. apply Nat.ltb_lt. lia.
  - intros b r. rewrite !Nat.ltb_lt. lia.
  - intros b r. apply eq_true_iff_eq. rewrite !Nat.ltb_lt. lia.
  - done.
  - intros b r. apply eq_true_iff_eq. rewrite orb_true_iff, !Nat.ltb_lt. lia.
  - intros b r. rewrite !Nat.ltb_lt. lia.
Qed.
