(* ===== verification/Commands.v ===== *)
(** * Commands: src/commands/mod.rs

    [from_value] reads a command from a frame, [execute] runs it.  The
    arguments of a command are the items of the frame after its name, so
    [items.len() < n] is a pattern on them.  [execute] threads what its
    borrowed arguments refer to: the store, the replication state with the
    channels of the replicas, the cluster topology and the connection's
    authentication flag.  [clock n] is its [n]-th reading of the clock. *)

From S2P Require Import Prelude RustStd Str Resp Slot Storage StorageTheory Store Topology ReplState.
Import Resp Slot ReplState.

Module Sub.

Inductive ClusterSubcommand : Type :=
| KeySlot (key : bytes)
| Info
| Nodes
| Slots
| Meet (ip : bytes) (port : Z)
| AddSlots (slots : list Z).

End Sub.

Module Commands.

Inductive Command : Type :=
| Ping (msg : option bytes)
| Echo (msg : bytes)
| Get (key : bytes)
| Set_ (key value : bytes) (px_ms : option Z)
| Del (keys : list bytes)
| Exists_ (keys : list bytes)
| Keys (pattern : bytes)
| Info (section : option bytes)
| ReplConf (args : list bytes)
| Psync (repl_id offset : bytes)
| Auth (username : option bytes) (password : bytes)
| Cluster (sub : Sub.ClusterSubcommand)
| Quit
| Command_.

Definition target_key (c : Command) : option bytes :=
  match c with
  | Get key => Some key
  | Set_ key _ _ => Some key
  | Del keys => head keys
  | Exists_ keys => head keys
  | _ => None
  end.

(** ** Reading a command *)

(** [items.iter().filter_map(|item| item.as_str())]. *)
Definition strings (items : list Value) : list bytes := omap as_str items.

(** [items.get(i).and_then(as_str)]. *)
Definition str_at (items : list Value) (i : nat) : option bytes := items !! i ≫= as_str.

(** [r.ok()]. *)
Definition result_ok {A E} (r : result A E) : option A :=
  match r with
  | Ok a => Some a
  | Err _ => None
  end.

Definition from_ping (args : list Value) : result Command bytes :=
  Ok (Ping (str_at args 0)).

Definition from_echo (args : list Value) : result Command bytes :=
  match args with
  | [] => Err b!"ERR wrong number of arguments for 'echo' command"
  | msg :: _ => Ok (Echo (default [] (as_str msg)))
  end.

Definition from_get (args : list Value) : result Command bytes :=
  match args with
  | [] => Err b!"ERR wrong number of arguments for 'get' command"
  | key :: _ =>
      match as_str key with
      | None => Err b!"Key must be string"
      | Some key => Ok (Get key)
      end
  end.

(** The options of SET after the value: the last PX with an argument wins,
    everything else is skipped. *)
Fixpoint set_options (opts : list Value) (px_ms : option Z) : option Z :=
  match opts with
  | [] => px_ms
  | item :: tl =>
      let opt := Str.to_ascii_uppercase (default [] (as_str item)) in
      match tl with
      | ms :: tl' =>
          if bool_decide (opt = b!"PX")
          then set_options tl'
                 (match as_str ms with
                  | Some ms_str => result_ok (Int.parse_u64 ms_str)
                  | None => px_ms
                  end)
          else set_options tl px_ms
      | [] => px_ms
      end
  end.

Definition from_set (args : list Value) : result Command bytes :=
  match args with
  | key :: value :: opts =>
      match as_str key with
      | None => Err b!"Key must be string"
      | Some key =>
          let val_bytes :=
            match as_bytes value with
            | Some b => b
            | None => default [] (as_str value)
            end in
          Ok (Set_ key val_bytes (set_options opts None))
      end
  | _ => Err b!"ERR wrong number of arguments for 'set' command"
  end.

Definition from_del (args : list Value) : result Command bytes :=
  match args with
  | [] => Err b!"ERR wrong number of arguments for 'del' command"
  | _ :: _ => Ok (Del (strings args))
  end.

Definition from_exists (args : list Value) : result Command bytes :=
  match args with
  | [] => Err b!"ERR wrong number of arguments for 'exists' command"
  | _ :: _ => Ok (Exists_ (strings args))
  end.

Definition from_auth (args : list Value) : result Command bytes :=
  match args with
  | [] => Err b!"ERR wrong number of arguments for 'auth' command"
  | [password] => Ok (Auth None (default [] (as_str password)))
  | username :: password :: _ => Ok (Auth (as_str username) (default [] (as_str password)))
  end.

Fixpoint parse_slot_list (items : list Value) : result (list Z) bytes :=
  match items with
  | [] => Ok []
  | item :: rest =>
      match as_str item ≫= (fun s => result_ok (Int.parse_u16 s)) with
      | None => Err b!"Invalid slot integer"
      | Some slot =>
          match parse_slot_list rest with
          | Ok slots => Ok (slot :: slots)
          | Err e => Err e
          end
      end
  end.

Definition from_cluster_meet (args : list Value) : result Command bytes :=
  match args with
  | ip :: port :: _ =>
      match as_str port ≫= (fun s => result_ok (Int.parse_u16 s)) with
      | None => Err b!"Invalid port for 'cluster meet'"
      | Some port => Ok (Cluster (Sub.Meet (default b!"127.0.0.1" (as_str ip)) port))
      end
  | _ => Err b!"ERR wrong number of arguments for 'cluster meet' command"
  end.

Definition from_cluster (args : list Value) : result Command bytes :=
  match args with
  | [] => Err b!"ERR wrong number of arguments for 'cluster' command"
  | sub :: args =>
      match as_str sub with
      | None => Err b!"Subcommand must be string"
      | Some sub =>
          let sub := Str.to_ascii_uppercase sub in
          if bool_decide (sub = b!"KEYSLOT") then
            match args with
            | [] => Err b!"ERR wrong number of arguments for 'cluster keyslot' command"
            | key :: _ => Ok (Cluster (Sub.KeySlot (default [] (as_str key))))
            end
          else if bool_decide (sub = b!"INFO") then Ok (Cluster Sub.Info)
          else if bool_decide (sub = b!"NODES") then Ok (Cluster Sub.Nodes)
          else if bool_decide (sub = b!"SLOTS") then Ok (Cluster Sub.Slots)
          else if bool_decide (sub = b!"MEET") then from_cluster_meet args
          else if bool_decide (sub = b!"ADDSLOTS") then
            match args with
            | [] => Err b!"ERR wrong number of arguments for 'cluster addslots' command"
            | _ :: _ =>
                match parse_slot_list args with
                | Ok slots => Ok (Cluster (Sub.AddSlots slots))
                | Err e => Err e
                end
            end
          else Err (b!"ERR unknown cluster subcommand '" ++ sub ++ b!"'")
      end
  end.

Definition from_name (cmd_name : bytes) (args : list Value) : result Command bytes :=
  if bool_decide (cmd_name = b!"PING") then from_ping args
  else if bool_decide (cmd_name = b!"ECHO") then from_echo args
  else if bool_decide (cmd_name = b!"GET") then from_get args
  else if bool_decide (cmd_name = b!"SET") then from_set args
  else if bool_decide (cmd_name = b!"DEL") then from_del args
  else if bool_decide (cmd_name = b!"EXISTS") then from_exists args
  else if bool_decide (cmd_name = b!"KEYS") then Ok (Keys (default b!"*" (str_at args 0)))
  else if bool_decide (cmd_name = b!"INFO") then Ok (Info (str_at args 0))
  else if bool_decide (cmd_name = b!"REPLCONF") then Ok (ReplConf (strings args))
  else if bool_decide (cmd_name = b!"PSYNC") then
    Ok (Psync (default b!"?" (str_at args 0)) (default b!"-1" (str_at args 1)))
  else if bool_decide (cmd_name = b!"AUTH") then from_auth args
  else if bool_decide (cmd_name = b!"CLUSTER") then from_cluster args
  else if bool_decide (cmd_name = b!"QUIT") then Ok Quit
  else if bool_decide (cmd_name = b!"COMMAND") then Ok Command_
  else Err (b!"unknown command '" ++ cmd_name ++ b!"'").

Definition from_value (val : Value) : result Command bytes :=
  match val with
  | Array (Some []) => Err b!"Empty command array"
  | Array (Some (name :: args)) =>
      match as_str name with
      | None => Err b!"First element must be string command name"
      | Some name => from_name (Str.to_ascii_uppercase name) args
      end
  | _ => Err b!"Expected Array frame for Redis command"
  end.

(** ** Running a command *)

Section Execute.
Context `{Platform} `{Store} `{Mpsc}.
Variable ord : Topology.node_order.

(** What the server's connections share. *)
Record Shared : Type := {
  db : store;
  repl : ReplicationState;
  chans : channels;
  cluster : option Topology.ClusterTopology;
}.

Definition with_db (d : store) (s : Shared) : Shared :=
  {| db := d; repl := repl s; chans := chans s; cluster := cluster s |}.

Definition with_repl (rw : ReplicationState * channels) (s : Shared) : Shared :=
  {| db := db s; repl := fst rw; chans := snd rw; cluster := cluster s |}.

Definition with_cluster (t : Topology.ClusterTopology) (s : Shared) : Shared :=
  {| db := db s; repl := repl s; chans := chans s; cluster := Some t |}.

(** [Instant::now() + Duration::from_millis(ms)], in nanoseconds. *)
Definition add_millis (now ms : Z) : outcome Z :=
  if now + ms * 1000000 <=? instant_max then Ret (now + ms * 1000000) else Panic InstantOverflow.

(** [if !repl_state.is_replica() { if let Some(raw) = raw_cmd { .. } }]. *)
Definition propagate (raw_cmd : option bytes) (s : Shared) : Shared :=
  if is_replica (repl s) then s
  else match raw_cmd with
  | Some raw => with_repl (propagate_downstream raw (repl s) (chans s)) s
  | None => s
  end.

Definition exec_set (raw_cmd : option bytes) (clock : nat -> Z) (key value : bytes) (px_ms : option Z)
    (s : Shared) : outcome Shared :=
  expires_at ← match px_ms with
               | Some ms => exp ← add_millis (clock 0%nat) ms; Ret (Some exp)
               | None => Ret None
               end;
  d ← db_set (db s) key value expires_at (clock 1%nat);
  Ret (propagate raw_cmd (with_db d s)).

(** [for k in keys { if db.del(k) { count += 1 } }]. *)
Fixpoint del_keys (keys : list bytes) (count : Z) (d : store) : outcome (Z * store) :=
  match keys with
  | [] => Ret (count, d)
  | k :: rest =>
      '(removed, d1) ← db_del d k;
      del_keys rest (if removed : bool then count + 1 else count) d1
  end.

Definition exec_del (raw_cmd : option bytes) (keys : list bytes) (s : Shared) : outcome (Z * Shared) :=
  '(count, d) ← del_keys keys 0 (db s);
  let s1 := with_db d s in
  Ret (count, if 0 <? count then propagate raw_cmd s1 else s1).

(** [for k in keys { if db.exists(k) { count += 1 } }], the [i]-th call
    reading the clock at [2 i] and [2 i + 1]. *)
Fixpoint exists_keys (clock : nat -> Z) (i : nat) (keys : list bytes) (count : Z) (d : store)
    : outcome (Z * store) :=
  match keys with
  | [] => Ret (count, d)
  | k :: rest =>
      '(found, d1) ← db_exists d k (clock (2 * i)%nat) (clock (2 * i + 1)%nat);
      exists_keys clock (S i) rest (if found : bool then count + 1 else count) d1
  end.

Definition exec_replconf (args : list bytes) (s : Shared) : option Value :=
  match args with
  | [] => Some (error b!"ERR REPLCONF requires arguments")
  | sub :: _ =>
      let sub := Str.to_ascii_uppercase sub in
      if bool_decide (sub = b!"GETACK") then
        Some (Array (Some [BulkString (Some b!"REPLCONF"); BulkString (Some b!"ACK");
          string_ (Int.fmt_Z (replica_bytes_processed (repl s)))]))
      else if bool_decide (sub = b!"ACK") then None
      else Some ok
  end.

(** The id CLUSTER MEET makes up for a node. *)
Definition dummy_id (ip : bytes) (port : Z) : bytes :=
  Int.fmt_040x (hash_str (ip ++ b!":" ++ Int.fmt_Z port)).

Definition exec_meet (ip : bytes) (port : Z) (t : Topology.ClusterTopology)
    : outcome Topology.ClusterTopology :=
  bus_port ← add_u16 port 10000;
  Ret (Topology.add_node (Topology.ClusterNode_new (dummy_id ip port) ip port bus_port false true) t).

Fixpoint add_slots (id : bytes) (slots : list Z) (t : Topology.ClusterTopology)
    : outcome (Value * Topology.ClusterTopology) :=
  match slots with
  | [] => Ret (ok, t)
  | s :: rest =>
      '(r, t1) ← Topology.add_slots_range id s s t;
      match r with
      | Err e => Ret (error e, t1)
      | Ok _ => add_slots id rest t1
      end
  end.

Definition exec_cluster (sub : Sub.ClusterSubcommand) (t : Topology.ClusterTopology)
    : outcome (Value * Topology.ClusterTopology) :=
  match sub with
  | Sub.KeySlot k => Ret (Integer (key_slot k), t)
  | Sub.Info => Ret (string_ (Topology.format_cluster_info t), t)
  | Sub.Nodes => Ret (string_ (Topology.format_cluster_nodes ord t), t)
  | Sub.Slots => Ret (Topology.format_cluster_slots t, t)
  | Sub.Meet ip port => t1 ← exec_meet ip port t; Ret (ok, t1)
  | Sub.AddSlots slots =>
      match Topology.myself t with
      | Some me => add_slots (Topology.id me) slots t
      | None => Ret (ok, t)
      end
  end.

(** The commands once the client may run them. *)
Definition run (c : Command) (raw_cmd : option bytes) (clock : nat -> Z) (auth : bool) (s : Shared)
    : outcome (option Value * bool * Shared) :=
  match c with
  | Auth _ _ => Ret (Some ok, true, s)
  | Quit => Ret (Some ok, auth, s)
  | Ping (Some m) => Ret (Some (string_ m), auth, s)
  | Ping None => Ret (Some pong, auth, s)
  | Echo msg => Ret (Some (string_ msg), auth, s)
  | Get key =>
      '(r, d) ← db_get (db s) key (clock 0%nat) (clock 1%nat);
      Ret (Some (match r with Some b => BulkString (Some b) | None => null_bulk end), auth, with_db d s)
  | Set_ key value px_ms =>
      s1 ← exec_set raw_cmd clock key value px_ms s;
      Ret (Some ok, auth, s1)
  | Del keys =>
      '(count, s1) ← exec_del raw_cmd keys s;
      Ret (Some (Integer count), auth, s1)
  | Exists_ keys =>
      '(count, d) ← exists_keys clock 0 keys 0 (db s);
      Ret (Some (Integer count), auth, with_db d s)
  | Keys _ => Ret (Some (Array (Some (string_ <$> db_keys (db s) (clock 0%nat)))), auth, s)
  | Info _ => Ret (Some (string_ (info_replication (repl s))), auth, s)
  | ReplConf args => Ret (exec_replconf args s, auth, s)
  | Psync _ _ => Ret (Some (SimpleString (b!"FULLRESYNC " ++ get_replid (repl s) ++ b!" 0")), auth, s)
  | Cluster sub =>
      match cluster s with
      | Some t =>
          '(v, t1) ← exec_cluster sub t;
          Ret (Some v, auth, with_cluster t1 s)
      | None => Ret (Some (error b!"ERR This instance has cluster support disabled"), auth, s)
      end
  | Command_ => Ret (Some (Array (Some [])), auth, s)
  end.

Definition execute (c : Command) (raw_cmd requirepass : option bytes) (clock : nat -> Z)
    (is_authenticated : bool) (s : Shared) : outcome (option Value * bool * Shared) :=
  match requirepass, is_authenticated with
  | Some pass, false =>
      match c with
      | Auth _ password =>
          if bool_decide (password = pass) then Ret (Some ok, true, s)
          else Ret (Some (error b!"WRONGPASS invalid username-password pair or user is disabled."), false, s)
      | Quit => Ret (Some ok, false, s)
      | _ => Ret (Some (error b!"NOAUTH Authentication required."), false, s)
      end
  | _, _ => run c raw_cmd clock is_authenticated s
  end.

End Execute.
End Commands.
