(* ===== verification/CommandsTheory.v ===== *)
(** * What the commands guarantee

    Reading: commands read from the wire are well typed and every command
    has a wire form that is read back.  Running: the authentication gate,
    the effect of the data commands on the map, propagation, and that the
    shared state stays well formed. *)

From S2P Require Import Prelude RustStd Str Resp RespTheory Slot Storage StorageTheory Store.
From S2P Require Import Topology TopologyTheory ReplState ReplTheory Commands.
Import Resp Storage ReplState Commands.

(** ** Well-typed commands *)

Definition str_ok (s : bytes) : Prop := Utf8.valid s = true.
Definition opt_ok (o : option bytes) : Prop := from_option str_ok True o.
Definition u16 (z : Z) : Prop := 0 <= z <= u16_max.

(** The types of the fields of [Command]: a [String] is UTF-8, a number in
    its range. *)
Definition cmd_ok (c : Command) : Prop :=
  match c with
  | Ping m | Info m => opt_ok m
  | Echo s | Get s | Keys s => str_ok s
  | Set_ k _ px => str_ok k /\ from_option (fun ms => 0 <= ms <= u64_max) True px
  | Del ks | Exists_ ks | ReplConf ks => Forall str_ok ks
  | Psync a b => str_ok a /\ str_ok b
  | Auth u p => opt_ok u /\ str_ok p
  | Cluster (Sub.KeySlot k) => str_ok k
  | Cluster (Sub.Meet ip port) => str_ok ip /\ u16 port
  | Cluster (Sub.AddSlots ss) => Forall u16 ss
  | Cluster _ | Quit | Command_ => True
  end.

(** A frame whose simple strings are UTF-8. *)
Definition item_ok (v : Value) : Prop :=
  match v with
  | SimpleString s => str_ok s
  | _ => True
  end.

Definition items_ok (v : Value) : Prop :=
  match v with
  | Array (Some vs) => Forall item_ok vs
  | _ => True
  end.

Lemma as_str_ok v s : item_ok v -> as_str v = Some s -> str_ok s.
Proof.
  destruct v as [t|t|i|[b|]|o]; cbn; try done; [congruence|].
  intros _. destruct (Utf8.from_utf8 b) as [t|e] eqn:E; [|done]. intros [= <-].
  apply Utf8.from_utf8_Ok in E as [-> Hv]. exact Hv.
Qed.

Lemma as_str_opt v : item_ok v -> opt_ok (as_str v).
Proof. intros Hv. destruct (as_str v) eqn:E; [|done]. by eapply as_str_ok. Qed.

Lemma as_str_default v d : item_ok v -> str_ok d -> str_ok (default d (as_str v)).
Proof. intros Hv Hd. destruct (as_str v) eqn:E; [|done]. by eapply as_str_ok. Qed.

Lemma str_at_opt items i : Forall item_ok items -> opt_ok (str_at items i).
Proof.
  intros Hi. unfold str_at. destruct (items !! i) as [v|] eqn:E; cbn; [|done].
  apply as_str_opt. by eapply Forall_lookup_1.
Qed.

Lemma str_at_default items i d : Forall item_ok items -> str_ok d -> str_ok (default d (str_at items i)).
Proof. intros Hi Hd. pose proof (str_at_opt items i Hi) as Hs. by destruct (str_at items i). Qed.

Lemma strings_ok items : Forall item_ok items -> Forall str_ok (strings items).
Proof.
  induction 1 as [|v items Hv Hi IH]; cbn; [constructor|].
  destruct (as_str v) eqn:E; [|done]. constructor; [by eapply as_str_ok|done].
Qed.

Lemma set_options_ok opts px :
  from_option (fun ms => 0 <= ms <= u64_max) True px ->
  from_option (fun ms => 0 <= ms <= u64_max) True (set_options opts px).
Proof.
  revert px. induction opts as [[|a [|b opts]] IH] using list_len_ind; intros px Hpx; [done|done|].
  cbn [set_options]. case_bool_decide.
  - apply IH; [cbn; lia|]. destruct (as_str b) as [s|]; [|done].
    destruct (Int.parse_u64 s) eqn:E; cbn; [|done]. by apply Int.parse_u64_range in E.
  - apply (IH (b :: opts)); [cbn; lia|done].
Qed.

Lemma parse_slot_list_ok items ss : parse_slot_list items = Ok ss -> Forall u16 ss.
Proof.
  revert ss. induction items as [|v items IH]; intros ss; cbn; [intros [= <-]; constructor|].
  destruct (as_str v) as [s|]; cbn; [|done].
  destruct (Int.parse_u16 s) eqn:E; cbn; [|done]. destruct (parse_slot_list items); [|done].
  intros [= <-]. constructor; [by apply Int.parse_u16_range in E|auto].
Qed.

Create HintDb cmd discriminated.
#[local] Hint Resolve as_str_opt as_str_default str_at_opt str_at_default strings_ok as_str_ok : cmd.
#[local] Hint Extern 1 (str_ok _) => reflexivity : cmd.

Lemma from_cluster_ok args c : Forall item_ok args -> from_cluster args = Ok c -> cmd_ok c.
Proof.
  intros Ha. destruct Ha as [|v args Hv Ha]; cbn [from_cluster]; [done|].
  destruct (as_str v) as [s|]; [|done]. cbn zeta.
  repeat case_bool_decide; try (intros [= <-]; exact I).
  - destruct Ha as [|k args Hk Ha]; [done|]. intros [= <-]. cbn. auto with cmd.
  - destruct Ha as [|ip args Hip [|p args' Hp Ha]]; cbn; [done|done|].
    destruct (as_str p) as [ps|]; cbn; [|done]. destruct (Int.parse_u16 ps) eqn:E; cbn; [|done].
    intros [= <-]. cbn. split; [auto with cmd|by apply Int.parse_u16_range in E].
  - destruct args; [done|]. destruct (parse_slot_list _) eqn:E; [|done].
    intros [= <-]. by eapply parse_slot_list_ok.
Qed.

Lemma from_set_ok args c : Forall item_ok args -> from_set args = Ok c -> cmd_ok c.
Proof.
  intros Ha. destruct Ha as [|k args Hk [|v args' Hv Ha]]; cbn; [done|done|].
  destruct (as_str k) eqn:E; [|done]. intros [= <-]. cbn. split; [eauto with cmd|].
  by apply set_options_ok.
Qed.

Lemma from_value_ok v c : items_ok v -> from_value v = Ok c -> cmd_ok c.
Proof.
  intros Hv. destruct v as [| | | |[[|name args]|]]; cbn; try done.
  cbn in Hv. apply Forall_cons in Hv as [_ Ha]. destruct (as_str name) as [n|]; [|done].
  unfold from_name. repeat case_bool_decide; try (intros [= <-]; cbn; auto with cmd; fail);
    unfold from_echo, from_get, from_del, from_exists, from_auth.
  - destruct Ha; [done|]. intros [= <-]. cbn. auto with cmd.
  - destruct Ha as [|k args Hk Ha]; [done|]. destruct (as_str k) eqn:E; [|done].
    intros [= <-]. cbn. eauto with cmd.
  - by apply from_set_ok.
  - destruct Ha as [|x l Hx Ha]; [done|]. intros [= <-]. apply (strings_ok (x :: l)). by constructor.
  - destruct Ha as [|x l Hx Ha]; [done|]. intros [= <-]. apply (strings_ok (x :: l)). by constructor.
  - destruct Ha as [|u args Hu [|p args' Hp Ha]]; [done| |]; intros [= <-]; cbn; auto with cmd.
  - by apply from_cluster_ok.
Qed.

(** Frames have such items. *)
Lemma frame_item_ok `{Platform} fr v : frame fr v -> item_ok v.
Proof. by destruct 1. Qed.

Lemma frames_items_ok `{Platform} fr vs : frames fr vs -> Forall item_ok vs.
Proof. induction 1; constructor; [by eapply frame_item_ok|done]. Qed.

Lemma frame_items_ok `{Platform} fr v : frame fr v -> items_ok v.
Proof. destruct 1; cbn; try done. by eapply frames_items_ok. Qed.

(** ** The wire form of a command *)

Definition bulk (s : bytes) : Value := BulkString (Some s).

Definition wire (c : Command) : list bytes :=
  match c with
  | Ping m => b!"PING" :: option_list m
  | Echo s => [b!"ECHO"; s]
  | Get k => [b!"GET"; k]
  | Set_ k v None => [b!"SET"; k; v]
  | Set_ k v (Some ms) => [b!"SET"; k; v; b!"PX"; Int.fmt_Z ms]
  | Del ks => b!"DEL" :: ks
  | Exists_ ks => b!"EXISTS" :: ks
  | Keys p => [b!"KEYS"; p]
  | Info m => b!"INFO" :: option_list m
  | ReplConf args => b!"REPLCONF" :: args
  | Psync a b => [b!"PSYNC"; a; b]
  | Auth u p => b!"AUTH" :: option_list u ++ [p]
  | Cluster (Sub.KeySlot k) => [b!"CLUSTER"; b!"KEYSLOT"; k]
  | Cluster Sub.Info => [b!"CLUSTER"; b!"INFO"]
  | Cluster Sub.Nodes => [b!"CLUSTER"; b!"NODES"]
  | Cluster Sub.Slots => [b!"CLUSTER"; b!"SLOTS"]
  | Cluster (Sub.Meet ip port) => [b!"CLUSTER"; b!"MEET"; ip; Int.fmt_Z port]
  | Cluster (Sub.AddSlots ss) => b!"CLUSTER" :: b!"ADDSLOTS" :: (Int.fmt_Z <$> ss)
  | Quit => [b!"QUIT"]
  | Command_ => [b!"COMMAND"]
  end.

(** DEL, EXISTS and ADDSLOTS need an argument. *)
Definition sendable (c : Command) : Prop :=
  match c with
  | Del ks | Exists_ ks => ks <> []
  | Cluster (Sub.AddSlots ss) => ss <> []
  | _ => True
  end.

Definition wire_value (c : Command) : Value := Array (Some (bulk <$> wire c)).

Lemma as_str_bulk s : str_ok s -> as_str (bulk s) = Some s.
Proof. intros Hs. cbn. by rewrite Utf8.from_utf8_valid. Qed.

Lemma strings_bulk ss : Forall str_ok ss -> strings (bulk <$> ss) = ss.
Proof.
  induction 1 as [|s ss Hs _ IH]; [done|]. change (strings (bulk <$> s :: ss))
    with (match as_str (bulk s) with Some y => y :: strings (bulk <$> ss) | None => strings (bulk <$> ss) end).
  by rewrite as_str_bulk, IH.
Qed.

Lemma parse_slot_list_bulk ss :
  Forall u16 ss -> parse_slot_list (bulk <$> (Int.fmt_Z <$> ss)) = Ok ss.
Proof.
  induction 1 as [|z ss Hz _ IH]; [done|]. rewrite !fmap_cons. cbn [parse_slot_list].
  rewrite IH, as_str_bulk by apply Utf8.valid_fmt_Z. cbn [mbind option_bind].
  unfold Int.parse_u16. by rewrite Int.parse_fmt_Z by (unfold u16, u16_max in *; lia).
Qed.

Lemma from_cluster_wire sub args c :
  wire (Cluster sub) = b!"CLUSTER" :: args -> cmd_ok (Cluster sub) -> sendable (Cluster sub) ->
  c = Cluster sub -> from_cluster (bulk <$> args) = Ok c.
Proof.
  intros Hw Hc Hs ->. destruct sub as [k| | | |ip port|ss]; cbn in Hw, Hc, Hs; injection Hw as <-; try done.
  - change (from_cluster _) with
      (Ok (E := bytes) (Cluster (Sub.KeySlot (default [] (as_str (bulk k)))))). by rewrite as_str_bulk.
  - destruct Hc as [Hi Hp]. change (from_cluster _) with (from_cluster_meet [bulk ip; bulk (Int.fmt_Z port)]).
    unfold from_cluster_meet. rewrite !as_str_bulk by (done || apply Utf8.valid_fmt_Z). cbn [mbind option_bind].
    unfold Int.parse_u16. by rewrite Int.parse_fmt_Z by (unfold u16, u16_max in *; lia).
  - destruct ss as [|z ss]; [done|]. change (from_cluster _) with
      (match parse_slot_list (bulk <$> (Int.fmt_Z <$> z :: ss)) with
       | Ok slots => Ok (Cluster (Sub.AddSlots slots))
       | Err e => Err (A := Command) e
       end).
    by rewrite parse_slot_list_bulk.
Qed.

Lemma from_set_wire k v px :
  cmd_ok (Set_ k v px) -> from_value (wire_value (Set_ k v px)) = Ok (Set_ k v px).
Proof.
  intros [Hk Hpx]. destruct px as [ms|].
  - change (from_value _) with (from_set [bulk k; bulk v; bulk b!"PX"; bulk (Int.fmt_Z ms)]).
    unfold from_set. rewrite as_str_bulk by done. cbn [as_bytes bulk].
    change (set_options _ _) with
      (match as_str (bulk (Int.fmt_Z ms)) with
       | Some s => result_ok (Int.parse_u64 s)
       | None => None
       end).
    rewrite as_str_bulk by apply Utf8.valid_fmt_Z. unfold Int.parse_u64.
    cbn in Hpx. by rewrite Int.parse_fmt_Z by (unfold u64_max in *; lia).
  - change (from_value _) with (from_set [bulk k; bulk v]). unfold from_set. by rewrite as_str_bulk.
Qed.

(** Every command is read back from its wire form. *)
Lemma from_value_wire c : cmd_ok c -> sendable c -> from_value (wire_value c) = Ok c.
Proof.
  intros Hc Hs. destruct c as [[m|]|s|k|k v px|ks|ks|p|[m|]|args|a b|[u|] p|sub| |];
    cbn in Hc.
  - change (from_value _) with (Ok (E := bytes) (Ping (as_str (bulk m)))). by rewrite as_str_bulk.
  - reflexivity.
  - change (from_value _) with (Ok (E := bytes) (Echo (default [] (as_str (bulk s))))). by rewrite as_str_bulk.
  - change (from_value _) with (from_get [bulk k]). unfold from_get. by rewrite as_str_bulk.
  - by apply from_set_wire.
  - change (from_value _) with (from_del (bulk <$> ks)). destruct ks as [|k ks]; [done|].
    change (from_del _) with (Ok (E := bytes) (Del (strings (bulk <$> k :: ks)))). by rewrite strings_bulk.
  - change (from_value _) with (from_exists (bulk <$> ks)). destruct ks as [|k ks]; [done|].
    change (from_exists _) with (Ok (E := bytes) (Exists_ (strings (bulk <$> k :: ks)))). by rewrite strings_bulk.
  - change (from_value _) with (Ok (E := bytes) (Keys (default b!"*" (as_str (bulk p))))). by rewrite as_str_bulk.
  - change (from_value _) with (Ok (E := bytes) (Info (as_str (bulk m)))). by rewrite as_str_bulk.
  - reflexivity.
  - change (from_value _) with (Ok (E := bytes) (ReplConf (strings (bulk <$> args)))). by rewrite strings_bulk.
  - destruct Hc as [Ha Hb]. change (from_value _) with
      (Ok (E := bytes) (Psync (default b!"?" (as_str (bulk a))) (default b!"-1" (as_str (bulk b))))).
    by rewrite !as_str_bulk.
  - destruct Hc as [Hu Hp]. change (from_value _) with
      (Ok (E := bytes) (Auth (as_str (bulk u)) (default [] (as_str (bulk p))))). by rewrite !as_str_bulk.
  - destruct Hc as [_ Hp]. change (from_value _) with
      (Ok (E := bytes) (Auth None (default [] (as_str (bulk p))))). by rewrite !as_str_bulk.
  - destruct (wire (Cluster sub)) as [|n args] eqn:Hw; [by destruct sub|].
    assert (n = b!"CLUSTER") as -> by (destruct sub; by injection Hw as <- _).
    unfold wire_value. rewrite Hw. change (from_value _) with (from_cluster (bulk <$> args)).
    by eapply from_cluster_wire.
  - reflexivity.
  - reflexivity.
Qed.

(** ** Its bytes *)

Lemma concat_elem_length {A} (l : list A) (ls : list (list A)) : l ∈ ls -> (length l <= length (concat ls))%nat.
Proof.
  induction 1 as [l ls|x l ls _ IH]; cbn; rewrite length_app; lia.
Qed.

Lemma concat_length_ge {A} (ls : list (list A)) :
  Forall (fun l => l <> []) ls -> (length ls <= length (concat ls))%nat.
Proof.
  induction 1 as [|l ls Hl _ IH]; cbn; [done|]. rewrite length_app. destruct l; [done|]. cbn. lia.
Qed.

(** An array of bulk strings whose bytes fit in memory can be printed. *)
Lemma wf_bulks `{Platform} ss rest :
  fits (serialize (Array (Some (bulk <$> ss))) [] ++ rest) ->
  capacity_ok sizeof_Value (Z.of_nat (length ss)) = true ->
  wf (Array (Some (bulk <$> ss))) = true.
Proof.
  unfold fits. rewrite serialize_array, !length_app. intros Hf Hcap. cbn [wf].
  rewrite !length_fmap in *.
  set (frs := (fun v => serialize v []) <$> (bulk <$> ss)) in *.
  assert (Hn : (length frs <= length (concat frs))%nat).
  { apply concat_length_ge. unfold frs. rewrite <- list_fmap_compose. apply Forall_fmap.
    apply Forall_true. intros s. cbn. done. }
  unfold frs in Hn at 1. rewrite !length_fmap in Hn. rewrite Hcap, andb_true_r.
  apply andb_true_intro. split; [apply Z.leb_le; lia|].
  apply forallb_forall. intros v Hv. apply list_elem_of_In, list_elem_of_fmap in Hv as (s & -> & Hs).
  cbn. apply Z.leb_le.
  assert (Hl : (length (serialize (bulk s) []) <= length (concat frs))%nat).
  { apply concat_elem_length. apply list_elem_of_fmap. exists (bulk s). split; [done|].
    by apply list_elem_of_fmap_2. }
  change (serialize (bulk s) [])
    with (b!"$" ++ Int.fmt_Z (Z.of_nat (length s)) ++ crlf ++ s ++ crlf) in Hl.
  rewrite !length_app in Hl. lia.
Qed.

Lemma reread_bulks ss : reread (Array (Some (bulk <$> ss))) = Array (Some (bulk <$> ss)).
Proof. cbn. do 2 f_equal. rewrite <- list_fmap_compose. by apply list_fmap_ext. Qed.

(** The wire form of a command is read from the buffer as that command. *)
Lemma parse_wire `{Platform} c rest :
  cmd_ok c -> sendable c -> capacity_ok sizeof_Value (Z.of_nat (length (wire c))) = true ->
  fits (serialize (wire_value c) [] ++ rest) ->
  parse (serialize (wire_value c) [] ++ rest) = Ret (Ok (Some (wire_value c)), rest)
  /\ from_value (wire_value c) = Ok c.
Proof.
  intros Hc Hs Hcap Hfit. split; [|by apply from_value_wire].
  pose proof (wf_bulks (wire c) rest Hfit Hcap) as Hwf.
  rewrite (parse_frame _ (reread (wire_value c)) rest); [|by apply serialize_frame|done].
  unfold wire_value. by rewrite reread_bulks.
Qed.

(** ** The data commands on the map *)

Section Exec.
Context `{StoreLaws} `{MpscLaws}.
Variable ord : Topology.node_order.

(** [k] can be seen at [t]. *)
Definition live_at (m : shard) (t : Z) (k : bytes) : Prop :=
  exists e, m !! k = Some e /\ is_expired e t = false.

#[local] Instance live_at_dec m t k : Decision (live_at m t k).
Proof.
  destruct (m !! k) as [e|] eqn:E.
  - destruct (is_expired e t) eqn:X.
    + right. intros (e' & He' & Hx). congruence.
    + left. by exists e.
  - right. intros (e' & He' & _). congruence.
Defined.

(** The value seen at [t]. *)
Definition seen (m : shard) (t : Z) (k : bytes) : option bytes :=
  match m !! k with
  | Some e => if is_expired e t then None else Some (value e)
  | None => None
  end.

Lemma spec_get_seen m k t1 t2 : fst (spec_get m k t1 t2) = seen m t1 k.
Proof. unfold spec_get, seen. repeat case_match; done. Qed.

Lemma live_at_seen m t k : live_at m t k <-> is_Some (seen m t k).
Proof.
  unfold live_at, seen. split.
  - intros (e & -> & ->). by eexists.
  - destruct (m !! k) as [e|]; [|by intros []]. destruct (is_expired e t) eqn:E; [by intros []|].
    intros _. by exists e.
Qed.

Lemma expired_later e t t' : t <= t' -> is_expired e t = true -> is_expired e t' = true.
Proof.
  unfold is_expired. destruct (expires_at e); [|done]. rewrite !Z.leb_le. lia.
Qed.

(** Reading a key changes nothing that can be seen afterwards. *)
Lemma spec_get_pure m k t1 t2 t k' :
  t2 <= t -> seen (snd (spec_get m k t1 t2)) t k' = seen m t k'.
Proof.
  intros Ht. unfold spec_get. destruct (m !! k) as [e|] eqn:Ek; [|done].
  destruct (is_expired e t1); [destruct (is_expired e t2) eqn:E2|]; cbn; unfold seen; [|done|].
  - destruct (decide (k' = k)) as [->|Hne]; [|by rewrite lookup_delete_ne].
    by rewrite lookup_delete_eq, Ek, (expired_later e t2 t Ht E2).
  - destruct (decide (k' = k)) as [->|Hne]; [|by rewrite lookup_insert_ne].
    rewrite lookup_insert_eq, Ek. done.
Qed.

(** *** DEL *)

Lemma del_keys_spec keys c d :
  store_ok d -> exists d', del_keys keys c d
    = Ret (c + Z.of_nat (size (dom (contents d) ∩ (list_to_set keys : gset bytes))), d')
    /\ store_ok d' /\ (unbounded d -> unbounded d')
    /\ forall k, contents d' !! k = if decide (k ∈ keys) then None else contents d !! k.
Proof.
  revert c d. induction keys as [|k keys IH]; intros c d Hd; cbn [del_keys list_to_set].
  - exists d. rewrite intersection_empty_r_L, size_empty, Z.add_0_r. by split_and!.
  - destruct (del_law d k Hd) as (r & d1 & -> & Hd1 & Hu1 & Hs). cbn [mbind outcome_bind].
    injection Hs as <- Hc.
    destruct (IH (if bool_decide (is_Some (contents d !! k)) then c + 1 else c) d1 Hd1)
      as (d2 & -> & Hd2 & Hu2 & Hk2).
    exists d2. split_and!; [|done|auto|].
    + f_equal. f_equal. rewrite <- Hc, dom_delete_L.
      destruct (decide (is_Some (contents d !! k))) as [Hk|Hk].
      * rewrite bool_decide_eq_true_2 by done. apply elem_of_dom in Hk.
        replace (dom (contents d) ∩ ({[k]} ∪ list_to_set keys))
          with ({[k]} ∪ ((dom (contents d) ∖ {[k]}) ∩ list_to_set keys : gset bytes))
          by (apply set_eq; intros x; destruct (decide (x = k)); set_solver).
        rewrite (size_union (C := gset bytes) {[k]}) by set_solver. rewrite size_singleton. lia.
      * rewrite bool_decide_eq_false_2 by done. rewrite <- elem_of_dom in Hk.
        do 3 f_equal. apply set_eq. intros x. destruct (decide (x = k)); set_solver.
    + intros k'. rewrite Hk2, <- Hc. destruct (decide (k' ∈ keys)) as [Hin|Hin].
      * by rewrite decide_True by (by apply elem_of_cons; right).
      * destruct (decide (k' = k)) as [->|Hne].
        -- rewrite decide_True by apply elem_of_cons, or_introl, eq_refl. apply lookup_delete_eq.
        -- rewrite decide_False by (rewrite elem_of_cons; tauto). by apply lookup_delete_ne.
Qed.

(** *** EXISTS *)

(** The keys of the call that are live when they are looked up. *)
Fixpoint live_count (clock : nat -> Z) (i : nat) (keys : list bytes) (m : shard) : Z :=
  match keys with
  | [] => 0
  | k :: rest =>
      (if decide (live_at m (clock (2 * i)%nat) k) then 1 else 0) + live_count clock (S i) rest m
  end.

Definition ticking (clock : nat -> Z) : Prop := forall i j, (i <= j)%nat -> clock i <= clock j.

Lemma live_count_seen clock i keys m m' :
  ticking clock ->
  (forall t k, clock (2 * i)%nat <= t -> seen m t k = seen m' t k) ->
  live_count clock i keys m = live_count clock i keys m'.
Proof.
  intros Htick. revert i. induction keys as [|k keys IH]; intros i Hs; cbn [live_count]; [done|].
  f_equal.
  - assert (Hl : live_at m (clock (2 * i)%nat) k <-> live_at m' (clock (2 * i)%nat) k).
    { rewrite !live_at_seen. by rewrite Hs. }
    repeat case_decide; tauto.
  - apply IH. intros t k' Ht. apply Hs. etransitivity; [|exact Ht]. apply Htick. lia.
Qed.

Lemma exists_keys_spec clock i keys c d :
  ticking clock -> store_ok d -> exists d',
    exists_keys clock i keys c d = Ret (c + live_count clock i keys (contents d), d')
    /\ store_ok d' /\ (unbounded d -> unbounded d')
    /\ forall t k, clock (2 * (i + length keys))%nat <= t -> seen (contents d') t k = seen (contents d) t k.
Proof.
  intros Htick. revert i c d. induction keys as [|k keys IH]; intros i c d Hd; cbn [exists_keys live_count].
  - exists d. rewrite Z.add_0_r. by split_and!.
  - destruct (exists_law d k (clock (2 * i)%nat) (clock (2 * i + 1)%nat) Hd) as (d1 & -> & Hd1 & Hu1 & Hc).
    cbn [mbind outcome_bind]. set (found := bool_decide _).
    destruct (IH (S i) (if found then c + 1 else c) d1 Hd1) as (d2 & -> & Hd2 & Hu2 & Hs2).
    assert (Hpure : forall t k', clock (2 * S i)%nat <= t -> seen (contents d1) t k' = seen (contents d) t k').
    { intros t k' Ht. rewrite Hc. apply spec_get_pure. etransitivity; [|exact Ht]. apply Htick. lia. }
    exists d2. split_and!; [|done|auto|].
    + f_equal. f_equal. rewrite (live_count_seen clock (S i) keys _ (contents d) Htick Hpure).
      unfold found. rewrite spec_get_seen.
      destruct (decide (live_at (contents d) (clock (2 * i)%nat) k)) as [Hl|Hl]; rewrite live_at_seen in Hl.
      * rewrite bool_decide_eq_true_2 by done. lia.
      * rewrite bool_decide_eq_false_2 by done. lia.
    + intros t k' Ht. cbn [length] in Ht. rewrite Hs2 by (by replace (S i + length keys)%nat with (i + S (length keys))%nat by lia).
      apply Hpure. etransitivity; [|exact Ht]. apply Htick. lia.
Qed.

(** ** One command *)

(** The expiry a SET asks for. *)
Definition expiry (now : Z) (px_ms : option Z) : option Z :=
  (fun ms => now + ms * 1000000) <$> px_ms.

(** What a data command answers and does to the map; [free] tells that the
    store has no memory limit. *)
Definition data_spec (c : Command) (clock : nat -> Z) (free : Prop) (m : shard) (reply : option Value) (m' : shard)
    : Prop :=
  match c with
  | Get k =>
      reply = Some (BulkString (seen m (clock 0%nat) k))
      /\ forall t k', clock 1%nat <= t -> seen m' t k' = seen m t k'
  | Set_ k v px =>
      reply = Some ok
      /\ exists kept, kept ⊆ m /\ (free -> kept = m)
         /\ m' = <[k := Entry_new (length k) v (expiry (clock 0%nat) px) (clock 1%nat)]> kept
  | Del ks =>
      reply = Some (Integer (Z.of_nat (size (dom m ∩ (list_to_set ks : gset bytes)))))
      /\ forall k, m' !! k = if decide (k ∈ ks) then None else m !! k
  | Exists_ ks =>
      reply = Some (Integer (live_count clock 0 ks m))
      /\ forall t k, clock (2 * length ks)%nat <= t -> seen m' t k = seen m t k
  | Keys _ =>
      m' = m /\ exists ks, reply = Some (Array (Some (string_ <$> ks)))
      /\ forall k, k ∈ ks <-> live_at m (clock 0%nat) k
  | _ => m' = m
  end.

(** The additions of the command stay in their types. *)
Definition no_overflow (c : Command) (clock : nat -> Z) : Prop :=
  match c with
  | Set_ _ _ (Some ms) => clock 0%nat + ms * 1000000 <= instant_max
  | Cluster (Sub.Meet _ port) => port + 10000 <= u16_max \/ overflow_checks = false
  | _ => True
  end.

(** What every command keeps of the shared state. *)
Record shared_ok (s : Shared) : Prop := {
  sh_store : store_ok (db s);
  sh_cluster t : cluster s = Some t -> topo_ok t;
}.

Lemma propagate_db raw s : db (propagate raw s) = db s /\ cluster (propagate raw s) = cluster s.
Proof. unfold propagate. by repeat case_match. Qed.

Lemma exec_set_spec raw clock k v px s :
  store_ok (db s) -> no_overflow (Set_ k v px) clock ->
  exists d m, exec_set raw clock k v px s = Ret (propagate raw (with_db d s)) /\ store_ok d
    /\ (unbounded (db s) -> unbounded d)
    /\ m ⊆ contents (db s) /\ (unbounded (db s) -> m = contents (db s))
    /\ contents d = spec_set m k v (expiry (clock 0%nat) px) (clock 1%nat).
Proof.
  intros Hd Ho. unfold exec_set.
  destruct (set_law (db s) k v (expiry (clock 0%nat) px) (clock 1%nat) Hd) as (d & m & Hs & Hrest).
  exists d, m. split; [|exact Hrest].
  destruct px as [ms|]; cbn [mbind outcome_bind].
  - cbn in Ho. unfold add_millis. destruct (Z.leb_spec (clock 0%nat + ms * 1000000) instant_max); [|lia].
    cbn in Hs |- *. by rewrite Hs.
  - cbn in Hs. by rewrite Hs.
Qed.

Lemma exec_del_spec raw ks s :
  store_ok (db s) ->
  exists d, exec_del raw ks s
    = Ret (Z.of_nat (size (dom (contents (db s)) ∩ (list_to_set ks : gset bytes))),
           if 0 <? Z.of_nat (size (dom (contents (db s)) ∩ (list_to_set ks : gset bytes)))
           then propagate raw (with_db d s) else with_db d s)
    /\ store_ok d /\ (unbounded (db s) -> unbounded d)
    /\ forall k, contents d !! k = if decide (k ∈ ks) then None else contents (db s) !! k.
Proof.
  intros Hd. destruct (del_keys_spec ks 0 (db s) Hd) as (d & Hdel & Hok). exists d.
  unfold exec_del. rewrite Hdel. by split.
Qed.

(** *** The cluster commands *)

Lemma add_node_keeps_myself n t : Topology.myself_id (Topology.add_node n t) = Topology.myself_id t.
Proof. done. Qed.

Lemma add_slots_ok id slots t :
  topo_ok t -> Forall u16 slots -> exists v t', add_slots id slots t = Ret (v, t') /\ topo_ok t'.
Proof.
  intros Ht Hs. revert t Ht. induction Hs as [|z slots Hz Hs IH]; intros t Ht; cbn [add_slots]; [by eexists _, _|].
  unfold u16 in Hz.
  destruct (add_slots_range_keeps id z z t Ht ltac:(lia)) as (r & t1 & -> & Ht1 & _). cbn [mbind outcome_bind].
  destruct r as [[]|e]; [by apply IH|by eexists _, _].
Qed.

Lemma exec_cluster_ok sub t clock :
  topo_ok t -> cmd_ok (Cluster sub) -> no_overflow (Cluster sub) clock ->
  exists v t', exec_cluster ord sub t = Ret (v, t') /\ topo_ok t'.
Proof.
  intros Ht Hc Ho. destruct sub as [k| | | |ip port|ss]; cbn [exec_cluster]; try (by eexists _, _).
  - unfold exec_meet, add_u16. cbn in Ho.
    destruct (Z.leb_spec (port + 10000) u16_max); cbn [mbind outcome_bind].
    + eexists _, _. split; [done|]. by apply add_node_ok.
    + destruct overflow_checks; [destruct Ho; [lia|done]|]. cbn [mbind outcome_bind].
      eexists _, _. split; [done|]. by apply add_node_ok.
  - destruct (tp_myself t Ht) as [me ->]. by apply add_slots_ok.
Qed.

(** *** Every command *)

Lemma run_spec c raw clock auth s :
  shared_ok s -> cmd_ok c -> ticking clock -> no_overflow c clock ->
  exists r s', run ord c raw clock auth s = Ret (r, match c with Auth _ _ => true | _ => auth end, s')
    /\ shared_ok s' /\ (unbounded (db s) -> unbounded (db s'))
    /\ data_spec c clock (unbounded (db s)) (contents (db s)) r (contents (db s')).
Proof.
  intros [Hd Hcl] Hc Htick Ho. destruct c as [[m|]|msg|k|k v px|ks|ks|p|m|args|a b|u p|sub| |]; cbn [run];
    try (eexists _, _; split; [reflexivity|]; split_and!; [by constructor|done|done]; fail).
  - destruct (get_law (db s) k (clock 0%nat) (clock 1%nat) Hd) as (r & d & -> & Hd' & Hu & Hs).
    cbn [mbind outcome_bind]. eexists _, _. split; [reflexivity|]. split_and!; [by constructor|done|].
    pose proof (spec_get_seen (contents (db s)) k (clock 0%nat) (clock 1%nat)) as Hv. rewrite Hs in Hv.
    cbn in Hv |- *. subst r. split; [by destruct (seen _ _ _)|].
    intros t k' Ht. pose proof (spec_get_pure (contents (db s)) k (clock 0%nat) (clock 1%nat) t k' Ht) as Hp.
    by rewrite Hs in Hp.
  - destruct (exec_set_spec raw clock k v px s Hd Ho) as (d & m & -> & Hd' & Hu & Hsub & Heq & Hcont).
    cbn [mbind outcome_bind]. destruct (propagate_db raw (with_db d s)) as [Hdb Hcl'].
    eexists _, _. split; [reflexivity|]. rewrite Hdb. split_and!; [|done|].
    + constructor; rewrite ?Hdb, ?Hcl'; done.
    + split; [done|]. by exists m.
  - destruct (exec_del_spec raw ks s Hd) as (d & -> & Hd' & Hu & Hk). cbn [mbind outcome_bind].
    eexists _, _. split; [reflexivity|]. destruct (propagate_db raw (with_db d s)) as [Hdb Hcl'].
    case_match; rewrite ?Hdb; split_and!; try done; constructor; rewrite ?Hdb, ?Hcl'; done.
  - destruct (exists_keys_spec clock 0 ks 0 (db s) Htick Hd) as (d & -> & Hd' & Hu & Hk).
    cbn [mbind outcome_bind]. eexists _, _. split; [reflexivity|]. split_and!; [by constructor|done|].
    by split.
  - eexists _, _. split; [reflexivity|]. split_and!; [by constructor|done|].
    split; [done|]. eexists. split; [done|]. intros k. by apply keys_law.
  - destruct (cluster s) as [t|] eqn:Et.
    + destruct (exec_cluster_ok sub t clock (Hcl t eq_refl) Hc Ho) as (v & t' & -> & Ht').
      cbn [mbind outcome_bind]. eexists _, _. split; [reflexivity|]. split_and!; [|done|done].
      constructor; [done|]. cbn. by intros ? [= <-].
    + eexists _, _. split; [reflexivity|]. split_and!; [constructor; [done|congruence]|done|done].
Qed.

(** ** Authentication and propagation *)

(** A client that may run commands. *)
Definition allowed (requirepass : option bytes) (auth : bool) : bool :=
  match requirepass with
  | Some _ => auth
  | None => true
  end.

Lemma execute_allowed c raw pass clock auth s :
  allowed pass auth = true -> execute ord c raw pass clock auth s = run ord c raw clock auth s.
Proof. unfold execute. destruct pass as [p|], auth; done. Qed.

(** A command that changed the data set, by its reply. *)
Definition effective (c : Command) (reply : option Value) : bool :=
  match c, reply with
  | Set_ _ _ _, Some (SimpleString _) => true
  | Del _, Some (Integer n) => 0 <? n
  | _, _ => false
  end.

(** The gate: nothing but AUTH with the password gets through, and what does
    not get through changes nothing. *)
Lemma execute_gate c raw pass clock s :
  exists reply, execute ord c raw (Some pass) clock false s
    = Ret (Some reply, match c with Auth _ p => bool_decide (p = pass) | _ => false end, s)
    /\ effective c (Some reply) = false
    /\ match c with Auth _ _ | Quit => True | _ => reply = error b!"NOAUTH Authentication required." end.
Proof.
  unfold execute. destruct c; try (eexists; split; [reflexivity|]; by split).
  case_bool_decide; eexists; (split; [reflexivity|]; by split).
Qed.

Lemma run_propagation c raw clock auth s r a s' :
  run ord c raw clock auth s = Ret (r, a, s') ->
  (repl s', chans s') =
    if negb (is_replica (repl s)) && effective c r
    then match raw with
         | Some b => propagate_downstream b (repl s) (chans s)
         | None => (repl s, chans s)
         end
    else (repl s, chans s).
Proof.
  assert (Hprop : forall d, (repl (propagate raw (with_db d s)), chans (propagate raw (with_db d s)))
    = if negb (is_replica (repl s)) then match raw with
         | Some b => propagate_downstream b (repl s) (chans s)
         | None => (repl s, chans s)
         end else (repl s, chans s)).
  { intros d. unfold propagate. cbn. destruct (is_replica (repl s)); [done|]. cbn.
    destruct raw as [b|]; [|done]. cbn. by destruct (propagate_downstream _ _ _). }
  destruct c as [[m|]|msg|k|k v px|ks|ks|p|m|args|a0 b0|u p|sub| |]; cbn [run];
    try (intros [= <- <- <-]; by rewrite andb_false_r).
  - intros ([r0 d] & _ & [= <- <- <-])%outcome_bind_Ret. by rewrite andb_false_r.
  - intros (s1 & Hs & [= <- <- <-])%outcome_bind_Ret.
    unfold exec_set in Hs. apply outcome_bind_Ret in Hs as (x & _ & Hs).
    apply outcome_bind_Ret in Hs as (d & _ & [= <-]). rewrite Hprop. cbn. by rewrite andb_true_r.
  - intros ([n s1] & Hs & [= <- <- <-])%outcome_bind_Ret.
    unfold exec_del in Hs. apply outcome_bind_Ret in Hs as ([n' d] & _ & [= <- <-]). cbn [effective].
    destruct (0 <? n'); [rewrite Hprop; by rewrite andb_true_r|by rewrite andb_false_r].
  - intros ([n d] & _ & [= <- <- <-])%outcome_bind_Ret. by rewrite andb_false_r.
  - destruct (cluster s); [|intros [= <- <- <-]; by rewrite andb_false_r].
    intros ([v t] & _ & [= <- <- <-])%outcome_bind_Ret. by rewrite andb_false_r.
Qed.

(** ** The theorems *)

(** Commands read from the wire are well typed.  Whatever bytes arrive,
    a command read from a parsed frame has UTF-8 strings where the source
    has [String]s and numbers in the range of their types. *)
Theorem commands_well_typed src v rest c :
  fits src -> parse src = Ret (Ok (Some v), rest) -> from_value v = Ok c -> cmd_ok c.
Proof.
  intros Hf Hp Hc. destruct (parse_fits_sound src v rest Hf Hp) as (fr & _ & Hfr).
  eapply from_value_ok; [|exact Hc]. by eapply frame_items_ok.
Qed.

(** C18: every command has a wire form that is read back as itself.  The
    bytes of the array of bulk strings a client sends for a command parse to
    that array, leaving what follows in the buffer, and the array is read as
    that command. *)
Theorem command_wire_roundtrip c rest :
  cmd_ok c -> sendable c -> capacity_ok sizeof_Value (Z.of_nat (length (wire c))) = true ->
  fits (serialize (wire_value c) [] ++ rest) ->
  exists v, parse (serialize (wire_value c) [] ++ rest) = Ret (Ok (Some v), rest)
    /\ from_value v = Ok c.
Proof.
  intros Hc Hs Hcap Hf. exists (wire_value c). by apply parse_wire.
Qed.

(** C9: a command from a client allowed to run it, whose arithmetic does not
    overflow (the expiry of SET PX is an [Instant] that exists; the port of
    CLUSTER MEET is at most 55535 or overflow is not checked), returns, keeps
    the server's state well formed, and answers and acts as the map with
    expiry does: GET, EXISTS and KEYS report exactly the live keys and change
    nothing visible, SET stores the value with its expiry (evicting other
    keys only under a memory limit), DEL removes exactly its keys and counts
    those that were stored; the other commands leave the data alone. *)
Theorem execute_refines_map c raw pass clock auth s :
  shared_ok s -> cmd_ok c -> ticking clock -> no_overflow c clock -> allowed pass auth = true ->
  exists r a s', execute ord c raw pass clock auth s = Ret (r, a, s')
    /\ shared_ok s'
    /\ data_spec c clock (unbounded (db s)) (contents (db s)) r (contents (db s')).
Proof.
  intros Hs Hc Ht Ho Ha. rewrite execute_allowed by done.
  destruct (run_spec c raw clock auth s Hs Hc Ht Ho) as (r & s' & Hr & Hs' & _ & Hd). by eexists _, _, _.
Qed.

(** C23: what a command sends to the replicas.  The bytes it was read from
    are propagated exactly when the server is a master and the command
    changed the data set: a SET that was run, or a DEL that removed a key.
    Nothing else touches the replication state. *)
Theorem propagation_exact c raw pass clock auth s r a s' :
  execute ord c raw pass clock auth s = Ret (r, a, s') ->
  (repl s', chans s') =
    if negb (is_replica (repl s)) && effective c r
    then match raw with
         | Some b => propagate_downstream b (repl s) (chans s)
         | None => (repl s, chans s)
         end
    else (repl s, chans s).
Proof.
  destruct (allowed pass auth) eqn:Ha.
  - rewrite execute_allowed by done. apply run_propagation.
  - destruct pass as [p|]; [|done]. cbn in Ha. subst auth.
    destruct (execute_gate c raw p clock s) as (reply & -> & He & _). intros [= <- <- <-].
    by rewrite He, andb_false_r.
Qed.

(** CLUSTER MEET with a port above 55535 overflows the bus port: a
    build with overflow checks panics, one without records a bus port below
    the wrap-around. *)
Theorem meet_port_overflow ip port raw pass clock auth s t :
  u16 port -> 55535 < port -> cluster s = Some t -> allowed pass auth = true ->
  execute ord (Cluster (Sub.Meet ip port)) raw pass clock auth s =
    if overflow_checks then Panic ArithmeticOverflow
    else Ret (Some ok, auth, with_cluster
      (Topology.add_node (Topology.ClusterNode_new (dummy_id ip port) ip port (port - 55536) false true) t) s).
Proof.
  intros [_ Hp] Ho Ht Ha. rewrite execute_allowed by done. cbn [run]. rewrite Ht.
  unfold exec_cluster, exec_meet, add_u16. destruct (Z.leb_spec (port + 10000) u16_max); [unfold u16_max in *; lia|].
  destruct overflow_checks; [done|]. cbn [mbind outcome_bind].
  assert (wrap_u16 (port + 10000) = port - 55536) as ->; [|done].
  unfold wrap_u16, u16_max in *. replace (port + 10000) with (port - 55536 + 1 * 65536) by lia.
  rewrite Z.mod_add, Z.mod_small; lia.
Qed.

End Exec.

(** ** Witnesses *)

Section CommandWitnesses.
#[local] Existing Instance StorageTheory.witness_platform.
#[local] Instance witness_store : Store := Db_store list_order.
#[local] Instance witness_laws : StoreLaws := Db_laws list_order list_order_ok.

Definition by_map_order : Topology.node_order := fun m => (map_to_list m).*2.

Definition set_cmd : Command := Set_ b!"k" b!"v" (Some 5).
Definition set_bytes : bytes := serialize (wire_value set_cmd) [].

Lemma set_fits : fits set_bytes.
Proof. vm_compute. reflexivity. Qed.

Lemma set_cmd_ok : cmd_ok set_cmd.
Proof. split; [vm_compute; reflexivity|]. cbn. unfold u64_max. lia. Qed.

Lemma commands_well_typed_witness : cmd_ok set_cmd.
Proof.
  apply (commands_well_typed set_bytes (wire_value set_cmd) [] set_cmd); [exact set_fits|vm_compute; reflexivity|].
  vm_compute. reflexivity.
Defined.

Lemma command_wire_roundtrip_witness :
  exists v, parse (serialize (wire_value set_cmd) [] ++ b!"*1") = Ret (Ok (Some v), b!"*1")
    /\ from_value v = Ok set_cmd.
Proof.
  apply (command_wire_roundtrip set_cmd b!"*1"); [exact set_cmd_ok|exact I|vm_compute; reflexivity|].
  vm_compute. reflexivity.
Defined.

(** A master with an empty store and one replica. *)
Definition master_of (d : Db) : Shared :=
  {| db := d; repl := register_downstream replica_a (new_master None); chans := no_messages;
     cluster := Some (Topology.new node_a) |}.

Lemma master_ok d : inv d -> shared_ok (master_of d).
Proof. intros Hd. constructor; [exact Hd|]. intros t [= <-]. exact a_ok. Qed.

Definition seconds (i : nat) : Z := 1000000000 * Z.of_nat i.

Lemma seconds_tick : ticking seconds.
Proof. intros i j Hij. unfold seconds. lia. Qed.

Lemma execute_refines_map_witness :
  exists d, with_config 4 0 = Ret d /\
  exists r a s', execute by_map_order set_cmd (Some set_bytes) None seconds true (master_of d) = Ret (r, a, s')
    /\ shared_ok s'
    /\ data_spec set_cmd seconds (unbounded (db (master_of d))) (contents (db (master_of d))) r
         (contents (db s')).
Proof.
  destruct (four_shards 0) as (d & Hw & Hd & _). exists d. split; [exact Hw|].
  apply (execute_refines_map by_map_order set_cmd (Some set_bytes) None seconds true (master_of d));
    [exact (master_ok d Hd)|exact set_cmd_ok|exact seconds_tick|vm_compute; discriminate|reflexivity].
Defined.

Lemma propagation_exact_witness :
  exists d r a s', with_config 4 0 = Ret d
  /\ execute by_map_order set_cmd (Some set_bytes) None seconds true (master_of d) = Ret (r, a, s')
  /\ (repl s', chans s') = propagate_downstream set_bytes (repl (master_of d)) (chans (master_of d)).
Proof.
  destruct (four_shards 0) as (d & Hw & Hd & _).
  destruct (exec_set_spec (Some set_bytes) seconds b!"k" b!"v" (Some 5) (master_of d)
    (sh_store _ (master_ok d Hd))) as (d' & m & Hx & _);
    [vm_compute; discriminate|].
  assert (He : execute by_map_order set_cmd (Some set_bytes) None seconds true (master_of d)
    = Ret (Some ok, true, propagate (Some set_bytes) (with_db d' (master_of d)))).
  { cbn [execute run set_cmd]. rewrite Hx. reflexivity. }
  exists d, (Some ok), true, (propagate (Some set_bytes) (with_db d' (master_of d))).
  split; [exact Hw|]. split; [exact He|]. exact (propagation_exact by_map_order _ _ _ _ _ _ _ _ _ He).
Defined.

Lemma meet_port_overflow_witness :
  exists d, with_config 4 0 = Ret d /\
  execute by_map_order (Cluster (Sub.Meet b!"10.0.0.9" 60000)) None None seconds true (master_of d)
  = Panic ArithmeticOverflow.
Proof.
  destruct (four_shards 0) as (d & Hw & Hd & _). exists d. split; [exact Hw|].
  rewrite (meet_port_overflow by_map_order b!"10.0.0.9" 60000 None None seconds true (master_of d) (Topology.new node_a)).
  - reflexivity.
  - unfold u16, u16_max. lia.
  - lia.
  - reflexivity.
  - reflexivity.
Defined.

End CommandWitnesses.
