(* ===== verification/Connection.v ===== *)
(** * A client connection: src/connection.rs

    [Conn] is what [Connection::handle] keeps: the receive buffer, the
    authentication and replica flags, and the bytes written so far, one
    element per [write_all].  [on_event] is one turn of its loop: an event of
    [tokio::select!] followed by the processing of the buffer.  Whether the
    socket takes the [i]-th write is [wr i]; a write that fails makes [?]
    return from the handler.  [clock n] gives the readings of the clock of
    the [n]-th command. *)

From S2P Require Import Prelude RustStd Str Resp Slot Storage StorageTheory Store Topology ReplState Commands.
Import Resp Slot ReplState Commands.

Module Connection.

Record Conn : Type := {
  buffer : bytes;
  is_authenticated : bool;
  is_downstream_replica : bool;
  written : list bytes;
  (** The commands read so far. *)
  served : nat;
}.

(** [Connection::new] and the start of [handle]. *)
Definition new (requirepass : option bytes) : Conn := {|
  buffer := [];
  is_authenticated := match requirepass with None => true | Some _ => false end;
  is_downstream_replica := false;
  written := [];
  served := 0%nat;
|}.

(** How a turn of the loop ends. *)
Inductive flow : Type :=
| Next       (** processing goes on *)
| Wait       (** the buffer holds no complete frame *)
| Cleared    (** a protocol error emptied the buffer *)
| Close      (** the handler returns [Ok] *)
| Failed     (** the handler returns an error *)
.

Definition set_buffer (b : bytes) (c : Conn) : Conn := {|
  buffer := b;
  is_authenticated := is_authenticated c;
  is_downstream_replica := is_downstream_replica c;
  written := written c;
  served := served c;
|}.

Definition set_auth (a : bool) (c : Conn) : Conn := {|
  buffer := buffer c;
  is_authenticated := a;
  is_downstream_replica := is_downstream_replica c;
  written := written c;
  served := served c;
|}.

Definition set_downstream (c : Conn) : Conn := {|
  buffer := buffer c;
  is_authenticated := is_authenticated c;
  is_downstream_replica := true;
  written := written c;
  served := served c;
|}.

Definition push_written (data : bytes) (c : Conn) : Conn := {|
  buffer := buffer c;
  is_authenticated := is_authenticated c;
  is_downstream_replica := is_downstream_replica c;
  written := written c ++ [data];
  served := served c;
|}.

Definition count_command (c : Conn) : Conn := {|
  buffer := buffer c;
  is_authenticated := is_authenticated c;
  is_downstream_replica := is_downstream_replica c;
  written := written c;
  served := S (served c);
|}.

Section Handle.
Context `{Platform} `{Store} `{Mpsc}.
Variable ord : Topology.node_order.
Variable wr : nat -> bool.
Variable clock : nat -> nat -> Z.
Variable requirepass : option bytes.
Variable max_payload_size : Z.
(** [downstream_tx]. *)
Variable tx : sender.

(** [self.stream.write_all(data).await] and the flush after it. *)
Definition write_all (data : bytes) (c : Conn) : option Conn :=
  if wr (length (written c)) then Some (push_written data c) else None.

(** [write_all(..).await?] followed by [k]. *)
Definition written_then (data : bytes) (c : Conn) (s : Shared)
    (k : Conn -> outcome (flow * Conn * Shared)) : outcome (flow * Conn * Shared) :=
  match write_all data c with
  | Some c1 => k c1
  | None => Ret (Failed, c, s)
  end.

(** The reply to PSYNC: the header of a full resync and the snapshot. *)
Definition handle_psync (c : Conn) (s : Shared) : outcome (flow * Conn * Shared) :=
  written_then (b!"+FULLRESYNC " ++ get_replid (repl s) ++ b!" 0" ++ crlf) c s (fun c1 =>
  rdb_bytes ← get_empty_rdb_bytes;
  written_then (b!"$" ++ Int.fmt_Z (Z.of_nat (length rdb_bytes)) ++ crlf) c1 s (fun c2 =>
  written_then rdb_bytes c2 s (fun c3 =>
  Ret (Next, set_downstream c3, with_repl (register_downstream tx (repl s), chans s) s)))).

(** The redirection of a command whose key this server does not serve: the
    reply, if it is not to be run here. *)
Definition redirection (cmd : Command) (auth : bool) (s : Shared) : option bytes :=
  match cluster s, target_key cmd with
  | Some t, Some key =>
      if auth then
        let slot := key_slot key in
        if negb (Topology.owns_slot t slot)
        then match Topology.get_node_for_slot t slot with
             | Some owner => Some (b!"-MOVED " ++ Int.fmt_Z slot ++ b!" " ++ Topology.endpoint owner ++ crlf)
             | None => Some (b!"-CLUSTERDOWN The cluster is down" ++ crlf)
             end
        else None
      else None
  | _, _ => None
  end.

(** A command other than PSYNC and QUIT. *)
Definition handle_command (cmd : Command) (raw_cmd : bytes) (c : Conn) (s : Shared)
    : outcome (flow * Conn * Shared) :=
  match redirection cmd (is_authenticated c) s with
  | Some reply => written_then reply c s (fun c1 => Ret (Next, c1, s))
  | None =>
      '(r, auth, s1) ← execute ord cmd (Some raw_cmd) requirepass (clock (served c)) (is_authenticated c) s;
      let c1 := set_auth auth c in
      match r with
      | Some reply => written_then (serialize reply []) c1 s1 (fun c2 => Ret (Next, c2, s1))
      | None => Ret (Next, c1, s1)
      end
  end.

(** A frame read from the buffer. *)
Definition handle_value (v : Value) (raw_cmd : bytes) (c : Conn) (s : Shared)
    : outcome (flow * Conn * Shared) :=
  match from_value v with
  | Ok (Psync _ _) => handle_psync c s
  | Ok Quit => written_then (serialize ok []) c s (fun c1 => Ret (Close, c1, s))
  | Ok cmd => handle_command cmd raw_cmd c s
  | Err e => written_then (serialize (error e) []) c s (fun c1 => Ret (Next, c1, s))
  end.

(** One iteration of [while !self.buffer.is_empty()]. *)
Definition process_one (c : Conn) (s : Shared) : outcome (flow * Conn * Shared) :=
  '(r, cursor) ← parse (buffer c);
  match r with
  | Ok (Some v) =>
      consumed ← sub_usize (Z.of_nat (length (buffer c))) (Z.of_nat (length cursor));
      '(raw_cmd, rest) ← split_to (Z.to_nat consumed) (buffer c);
      handle_value v raw_cmd (set_buffer rest c) s ≫= (fun '(f, c1, s1) => Ret (f, count_command c1, s1))
  | Ok None => Ret (Wait, c, s)
  | Err e =>
      written_then (serialize (error (b!"ERR protocol error: " ++ error_to_string e)) []) c s
        (fun c1 => Ret (Cleared, set_buffer [] c1, s))
  end.

Fixpoint process (fuel : nat) (c : Conn) (s : Shared) : outcome (flow * Conn * Shared) :=
  match buffer c with
  | [] => Ret (Wait, c, s)
  | _ :: _ =>
      match fuel with
      | O => NoFuel
      | S n =>
          '(f, c1, s1) ← process_one c s;
          match f with
          | Next => process n c1 s1
          | _ => Ret (f, c1, s1)
          end
      end
  end.

(** Every iteration takes at least one byte. *)
Definition process_buffer (c : Conn) (s : Shared) : outcome (flow * Conn * Shared) :=
  process (length (buffer c)) c s.

(** The branches of [tokio::select!]; the one of the replica channel is
    disabled until the client is a replica. *)
Inductive event : Type :=
| Shutdown
| Replicated (data : bytes)
| ReadError
| Read (data : bytes).

(** One turn of the loop of [handle]. *)
Definition on_event (e : event) (c : Conn) (s : Shared) : outcome (flow * Conn * Shared) :=
  match e with
  | Shutdown => Ret (Close, c, s)
  | Replicated data =>
      if is_downstream_replica c
      then written_then data c s (fun c1 => process_buffer c1 s)
      else Ret (Wait, c, s)
  | ReadError => Ret (Failed, c, s)
  | Read [] => Ret (Close, c, s)
  | Read data =>
      let c1 := set_buffer (buffer c ++ data) c in
      if max_payload_size <? Z.of_nat (length (buffer c1))
      then Ret (Close, default c1 (write_all (serialize (error b!"ERR max payload size exceeded") []) c1), s)
      else process_buffer c1 s
  end.

(** The handler: events until it returns. *)
Fixpoint handle (es : list event) (c : Conn) (s : Shared) : outcome (flow * Conn * Shared) :=
  match es with
  | [] => Ret (Wait, c, s)
  | e :: es =>
      '(f, c1, s1) ← on_event e c s;
      match f with
      | Wait | Cleared => handle es c1 s1
      | _ => Ret (f, c1, s1)
      end
  end.

End Handle.
End Connection.
