(* ===== verification/ConnectionTheory.v ===== *)
(** * What a connection guarantees

    A turn of the connection's loop ends, its buffer stays within the limit,
    the way the client's bytes are cut into reads does not matter, a client
    that has not authenticated cannot reach the data, and a key served
    elsewhere is redirected. *)

From S2P Require Import Prelude RustStd Str Resp RespTheory Slot Storage StorageTheory Store.
From S2P Require Import Topology TopologyTheory ReplState ReplTheory Commands CommandsTheory Connection.
Import Resp Slot ReplState Commands Connection.

(** A run that ends with a value satisfying [P] or with a panic other than
    an index out of bounds. *)
Definition ends {A} (P : A -> Prop) (o : outcome A) : Prop :=
  match o with
  | Ret a => P a
  | Panic p => p <> IndexOutOfBounds
  | NoFuel => False
  end.

Lemma ends_bind {A B} (P : A -> Prop) (Q : B -> Prop) m (f : A -> outcome B) :
  ends P m -> (forall a, P a -> ends Q (f a)) -> ends Q (m ≫= f).
Proof. destruct m; cbn; auto. Qed.

Lemma ends_weaken {A} (P Q : A -> Prop) m : ends P m -> (forall a, P a -> Q a) -> ends Q m.
Proof. destruct m; cbn; auto. Qed.

Section Theory.
Context `{StoreLaws} `{MpscLaws}.
Variable ord : Topology.node_order.
Variable wr : nat -> bool.
Variable clock : nat -> nat -> Z.
Variable requirepass : option bytes.
Variable max_payload_size : Z.
Variable tx : sender.

(** The clock is monotonic. *)
Hypothesis clock_ticks : forall n, ticking (clock n).

(** ** A command ends *)

Lemma no_overflow_dec c n : no_overflow c (clock n) \/ ~ no_overflow c (clock n).
Proof.
  destruct c as [| | |k v [ms|]| | | | | | | |sub| |]; try (left; exact I); cbn [no_overflow].
  - destruct (Z.leb_spec (clock n 0%nat + ms * 1000000) instant_max); [by left|right; lia].
  - destruct sub; try (left; exact I). destruct overflow_checks; [|left; by right].
    destruct (Z.leb_spec (port + 10000) u16_max); [left; by left|right; intros [?|?]; [lia|done]].
Qed.

Lemma execute_ends c raw n auth s :
  shared_ok s -> cmd_ok c ->
  ends (fun '(_, _, s') => shared_ok s') (execute ord c raw requirepass (clock n) auth s).
Proof.
  intros Hs Hc. destruct (allowed requirepass auth) eqn:Ha.
  - rewrite execute_allowed by done. destruct (no_overflow_dec c n) as [Ho|Ho].
    + destruct (run_spec ord c raw (clock n) auth s Hs Hc (clock_ticks n) Ho) as (r & s' & -> & Hs' & _). exact Hs'.
    + destruct c as [| | |k v [ms|]| | | | | | | |sub| |]; try (by destruct Ho); cbn [run].
      * unfold exec_set, add_millis. cbn in Ho.
        destruct (Z.leb_spec (clock n 0%nat + ms * 1000000) instant_max); [by destruct Ho|done].
      * destruct sub; try (by destruct Ho). destruct (cluster s); [|done]. cbn in Ho.
        unfold exec_cluster, exec_meet, add_u16. destruct (Z.leb_spec (port + 10000) u16_max); [by destruct Ho; left|].
        destruct overflow_checks; [done|]. by destruct Ho; right.
  - destruct requirepass as [p|]; [|done]. cbn in Ha. subst auth.
    by destruct (execute_gate ord c raw p (clock n) s) as (reply & -> & _).
Qed.

(** ** What handling a frame leaves of the connection *)

(** The parts of the connection the buffer's processing may have changed. *)
Record grows (c c1 : Conn) : Prop := {
  gr_buffer : buffer c1 = buffer c;
  gr_served : served c1 = served c;
  gr_written : exists more, written c1 = written c ++ more;
}.

#[local] Instance grows_refl : Reflexive grows.
Proof. intros c. constructor; [done|done|]. exists []. by rewrite app_nil_r. Qed.

#[local] Instance grows_trans : Transitive grows.
Proof.
  intros c1 c2 c3 [Hb1 Hs1 [m1 Hw1]] [Hb2 Hs2 [m2 Hw2]]. constructor; [congruence|congruence|].
  exists (m1 ++ m2). by rewrite Hw2, Hw1, app_assoc.
Qed.

Lemma grows_push data c : grows c (push_written data c).
Proof. constructor; [done|done|]. by exists [data]. Qed.

Lemma grows_auth a c : grows c (set_auth a c).
Proof. constructor; [done|done|]. exists []. cbn. by rewrite app_nil_r. Qed.

Lemma grows_downstream c : grows c (set_downstream c).
Proof. constructor; [done|done|]. exists []. cbn. by rewrite app_nil_r. Qed.

Definition kept (c : Conn) : flow * Conn * Shared -> Prop :=
  fun '(_, c1, s1) => grows c c1 /\ shared_ok s1.

Lemma written_then_ends data c0 c s k :
  grows c0 c -> shared_ok s ->
  (forall c1, grows c0 c1 -> ends (kept c0) (k c1)) ->
  ends (kept c0) (written_then wr data c s k).
Proof.
  intros Hg Hs Hk. unfold written_then, write_all. destruct (wr _); [|done].
  apply Hk. etransitivity; [exact Hg|apply grows_push].
Qed.

Lemma register_ok s : shared_ok s -> shared_ok (with_repl (register_downstream tx (repl s), chans s) s).
Proof. intros [Hd Hc]. by constructor. Qed.

Lemma handle_value_ends v raw c s :
  items_ok v -> shared_ok s ->
  ends (kept c) (handle_value ord wr clock requirepass tx v raw c s).
Proof.
  intros Hv Hs. unfold handle_value.
  assert (Hcmd : forall cmd, cmd_ok cmd -> ends (kept c)
    (handle_command ord wr clock requirepass cmd raw c s)).
  { intros cmd Hc. unfold handle_command. destruct (redirection _ _ _).
    - by apply written_then_ends.
    - eapply ends_bind; [by apply execute_ends|]. intros [[r a] s1] Hs1. pose proof (grows_auth a c).
      destruct r; [by apply written_then_ends|done]. }
  destruct (from_value v) as [cmd|e] eqn:Ec; [|by apply written_then_ends].
  pose proof (from_value_ok v cmd Hv Ec) as Hc.
  destruct cmd; try (by apply Hcmd); [|by apply written_then_ends].
  unfold handle_psync. apply written_then_ends; [done|done|]. intros c1 Hc1.
  destruct empty_rdb_ok as (rdb & -> & _). cbn [mbind outcome_bind].
  apply written_then_ends; [done|done|]. intros c2 Hc2. apply written_then_ends; [done|done|].
  intros c3 Hc3. split; [|by apply register_ok]. etransitivity; [exact Hc3|apply grows_downstream].
Qed.

(** ** One iteration *)

(** A frame is taken off the buffer whole. *)
Lemma process_one_frame c s v rest :
  fits (buffer c) -> parse (buffer c) = Ret (Ok (Some v), rest) ->
  exists fr, buffer c = fr ++ rest /\ fr <> [] /\ items_ok v
    /\ process_one ord wr clock requirepass tx c s
       = handle_value ord wr clock requirepass tx v fr (set_buffer rest c) s
         ≫= (fun '(f, c1, s1) => Ret (f, count_command c1, s1)).
Proof.
  intros Hf Hp. destruct (parse_fits_sound _ _ _ Hf Hp) as (fr & Hb & Hfr). exists fr.
  pose proof (frame_nonempty _ _ Hfr) as Hne.
  split_and!; [done|intros ->; cbn in Hne; lia|by eapply frame_items_ok|].
  unfold process_one. rewrite Hp. cbn [mbind outcome_bind].
  assert (Hlen : Z.of_nat (length (buffer c)) - Z.of_nat (length rest) = Z.of_nat (length fr))
    by (rewrite Hb, length_app; lia).
  unfold sub_usize. rewrite Hlen. destruct (Z.leb_spec 0 (Z.of_nat (length fr))); [|lia].
  cbn [mbind outcome_bind]. rewrite Nat2Z.id. unfold split_to.
  destruct (Nat.leb_spec (length fr) (length (buffer c))); [|rewrite Hb, length_app in *; lia].
  cbn [mbind outcome_bind]. rewrite Hb. by rewrite take_app_length, drop_app_length.
Qed.

(** After an iteration that goes on, the buffer is shorter. *)
Definition one_ok (c : Conn) (r : flow * Conn * Shared) : Prop :=
  let '(f, c1, s1) := r in
  shared_ok s1 /\ (length (buffer c1) <= length (buffer c))%nat
  /\ (f = Next -> (length (buffer c1) < length (buffer c))%nat).

Lemma process_one_ends c s :
  fits (buffer c) -> shared_ok s -> ends (one_ok c) (process_one ord wr clock requirepass tx c s).
Proof.
  intros Hf Hs. pose proof (parse_safe (buffer c) Hf) as Hsafe.
  destruct (parse (buffer c)) as [[[[v|]|e] rest]|p|] eqn:Ep; cbn in Hsafe.
  - destruct (process_one_frame c s v rest Hf Ep) as (fr & Hb & Hne & Hv & ->).
    eapply ends_bind; [by apply handle_value_ends|]. intros [[f c1] s1] [Hg Hs1]. cbn.
    rewrite (gr_buffer _ _ Hg). cbn. rewrite Hb, length_app. destruct fr; [done|]. cbn. split_and!; [done|lia|lia].
  - unfold process_one. rewrite Ep. cbn. split_and!; done || lia.
  - unfold process_one. rewrite Ep. cbn [mbind outcome_bind]. unfold written_then, write_all.
    destruct (wr _); cbn; split_and!; try done; lia.
  - unfold process_one. rewrite Ep. cbn. by destruct Hsafe as [-> | ->].
  - done.
Qed.

(** ** The loop *)

Definition done_ok (c : Conn) (r : flow * Conn * Shared) : Prop :=
  let '(f, c1, s1) := r in
  shared_ok s1 /\ (length (buffer c1) <= length (buffer c))%nat /\ f <> Next.

Lemma process_nil n c s :
  buffer c = [] -> process ord wr clock requirepass tx n c s = Ret (Wait, c, s).
Proof. intros Hb. destruct n; cbn [process]; by rewrite Hb. Qed.

Lemma process_cons n c s :
  buffer c <> [] ->
  process ord wr clock requirepass tx (S n) c s
  = process_one ord wr clock requirepass tx c s
    ≫= (fun '(f, c1, s1) => match f with
        | Next => process ord wr clock requirepass tx n c1 s1
        | _ => Ret (f, c1, s1)
        end).
Proof. intros Hb. cbn [process]. by destruct (buffer c). Qed.

Lemma process_ends n c s :
  fits (buffer c) -> shared_ok s -> (length (buffer c) <= n)%nat ->
  ends (done_ok c) (process ord wr clock requirepass tx n c s).
Proof.
  revert c s. induction n as [|n IH]; intros c s Hf Hs Hn.
  { rewrite process_nil by (destruct (buffer c); [done|cbn in Hn; lia]). cbn. split_and!; done || lia. }
  destruct (decide (buffer c = [])) as [Hb|Hb]; [rewrite process_nil by done; cbn; split_and!; done || lia|].
  rewrite process_cons by done. eapply ends_bind; [by apply process_one_ends|].
  intros [[f c1] s1] (Hs1 & Hle & Hlt). destruct f; try (cbn; split_and!; done || lia).
  specialize (Hlt eq_refl). eapply ends_weaken; [apply IH; [eapply fits_le; [|exact Hf]; lia|done|lia]|].
  intros [[f2 c2] s2] (Hs2 & Hle2 & Hf2). split_and!; [done|lia|done].
Qed.

(** Enough fuel is as good as any. *)
Lemma process_fuel n m c s :
  fits (buffer c) -> shared_ok s -> (length (buffer c) <= n)%nat -> (n <= m)%nat ->
  process ord wr clock requirepass tx m c s = process ord wr clock requirepass tx n c s.
Proof.
  revert m c s. induction n as [|n IH]; intros m c s Hf Hs Hn Hm.
  { by rewrite !process_nil by (destruct (buffer c); [done|cbn in Hn; lia]). }
  destruct (decide (buffer c = [])) as [Hb|Hb]; [by rewrite !process_nil|].
  destruct m as [|m]; [lia|]. rewrite !process_cons by done.
  pose proof (process_one_ends c s Hf Hs) as He.
  destruct (process_one _ _ _ _ _ c s) as [[[f c1] s1]|p|]; [|done|done]. cbn [mbind outcome_bind].
  destruct f; try done. destruct He as (Hs1 & _ & Hlt). specialize (Hlt eq_refl).
  apply IH; [eapply fits_le; [|exact Hf]; lia|done|lia|lia].
Qed.

(** ** The cut into reads *)

(** The result with [more] at the end of the buffer. *)
Definition later (more : bytes) (r : flow * Conn * Shared) : flow * Conn * Shared :=
  let '(f, c1, s1) := r in (f, set_buffer (buffer c1 ++ more) c1, s1).

Definition map_ret {A B} (g : A -> B) (o : outcome A) : outcome B := o ≫= (fun a => Ret (g a)).

Lemma written_then_later more data c s k k' :
  (forall c1, k' (set_buffer (buffer c1 ++ more) c1) = map_ret (later more) (k c1)) ->
  written_then wr data (set_buffer (buffer c ++ more) c) s k'
  = map_ret (later more) (written_then wr data c s k).
Proof.
  intros Hk. unfold written_then, write_all. cbn. destruct (wr _); [|done].
  apply (Hk (push_written data c)).
Qed.

(** Handling a frame does not look at the bytes after it. *)
Lemma handle_value_later more v raw c s :
  handle_value ord wr clock requirepass tx v raw (set_buffer (buffer c ++ more) c) s
  = map_ret (later more) (handle_value ord wr clock requirepass tx v raw c s).
Proof.
  unfold handle_value.
  assert (Hcmd : forall cmd,
    handle_command ord wr clock requirepass cmd raw (set_buffer (buffer c ++ more) c) s
    = map_ret (later more) (handle_command ord wr clock requirepass cmd raw c s)).
  { intros cmd. unfold handle_command. cbn [is_authenticated set_buffer served].
    destruct (redirection _ _ _); [by apply written_then_later|].
    destruct (execute _ _ _ _ _ _) as [[[r a] s1]| |]; cbn [mbind outcome_bind]; [|done|done].
    change (set_auth a (set_buffer (buffer c ++ more) c))
      with (set_buffer (buffer (set_auth a c) ++ more) (set_auth a c)).
    destruct r; [by apply written_then_later|done]. }
  destruct (from_value v) as [[]|e]; try (by apply written_then_later); try (by apply Hcmd).
  unfold handle_psync. apply written_then_later. intros c1.
  destruct get_empty_rdb_bytes as [rdb| |]; cbn [mbind outcome_bind]; [|done|done].
  apply written_then_later. intros c2. apply written_then_later. by intros c3.
Qed.

(** An iteration that found a frame finds it too when more bytes follow. *)
Lemma process_one_later more c s c1 s1 :
  fits (buffer c ++ more) -> process_one ord wr clock requirepass tx c s = Ret (Next, c1, s1) ->
  process_one ord wr clock requirepass tx (set_buffer (buffer c ++ more) c) s
  = Ret (Next, set_buffer (buffer c1 ++ more) c1, s1).
Proof.
  intros Hf Hone. assert (Hfc : fits (buffer c)) by (eapply fits_le; [|exact Hf]; rewrite length_app; lia).
  destruct (parse (buffer c)) as [[[[v|]|e] rest]|p|] eqn:Ep.
  - destruct (process_one_frame c s v rest Hfc Ep) as (fr & Hb & Hne & _ & Hx). rewrite Hx in Hone.
    pose proof (parse_extend (buffer c) more Hf) as Hext. rewrite Ep in Hext. specialize (Hext I). cbn in Hext.
    destruct (process_one_frame (set_buffer (buffer c ++ more) c) s v (rest ++ more) Hf Hext)
      as (fr' & Hb' & _ & _ & ->).
    assert (fr' = fr) as ->. { cbn in Hb'. rewrite Hb, <- app_assoc in Hb'. by apply app_inv_tail in Hb'. }
    change (set_buffer (rest ++ more) (set_buffer (buffer c ++ more) c))
      with (set_buffer (buffer (set_buffer rest c) ++ more) (set_buffer rest c)).
    rewrite handle_value_later. destruct (handle_value _ _ _ _ _ _ _ _ _) as [[[f c2] s2]| |]; [|done|done].
    cbn in Hone |- *. injection Hone as -> <- <-. done.
  - unfold process_one in Hone. rewrite Ep in Hone. done.
  - unfold process_one in Hone. rewrite Ep in Hone. cbn in Hone. unfold written_then, write_all in Hone.
    by destruct (wr _).
  - unfold process_one in Hone. by rewrite Ep in Hone.
  - unfold process_one in Hone. by rewrite Ep in Hone.
Qed.

Lemma process_one_wait c s c1 s1 :
  process_one ord wr clock requirepass tx c s = Ret (Wait, c1, s1) -> c1 = c /\ s1 = s.
Proof.
  unfold process_one. destruct (parse (buffer c)) as [[[[v|]|e] rest]|p|]; cbn [mbind outcome_bind]; try done.
  - intros Hx. exfalso. apply outcome_bind_Ret in Hx as (n & _ & Hx). apply outcome_bind_Ret in Hx as ([raw r] & _ & Hx).
    apply outcome_bind_Ret in Hx as ([[f c2] s2] & Hx & [= -> <- <-]). revert Hx.
    unfold handle_value, handle_psync, handle_command, written_then.
    destruct (from_value v) as [[]|e]; repeat (case_match; try done);
      intros Hx; repeat (apply outcome_bind_Ret in Hx as (? & _ & Hx); repeat case_match; simplify_eq).
  - by intros [= <- <-].
  - unfold written_then, write_all. by destruct (wr _).
Qed.

Lemma process_later more n c s c1 s1 n1 n2 :
  fits (buffer c ++ more) -> shared_ok s -> (length (buffer c) <= n)%nat ->
  (length (buffer c ++ more) <= n1)%nat -> (length (buffer c1 ++ more) <= n2)%nat ->
  process ord wr clock requirepass tx n c s = Ret (Wait, c1, s1) ->
  process ord wr clock requirepass tx n1 (set_buffer (buffer c ++ more) c) s
  = process ord wr clock requirepass tx n2 (set_buffer (buffer c1 ++ more) c1) s1.
Proof.
  revert c s n1. induction n as [|n IH]; intros c s n1 Hf Hs Hn Hn1 Hn2 Hp.
  - rewrite process_nil in Hp by (destruct (buffer c); [done|cbn in Hn; lia]). injection Hp as <- <-.
    set (m := length (buffer c ++ more)).
    by rewrite (process_fuel m n1), (process_fuel m n2) by done.
  - destruct (decide (buffer c = [])) as [Hb|Hb].
    { rewrite process_nil in Hp by done. injection Hp as <- <-.
      set (m := length (buffer c ++ more)). by rewrite (process_fuel m n1), (process_fuel m n2) by done. }
    rewrite process_cons in Hp by done.
    assert (Hfc : fits (buffer c)) by (eapply fits_le; [|exact Hf]; rewrite length_app; lia).
    pose proof (process_one_ends c s Hfc Hs) as He.
    destruct (process_one ord wr clock requirepass tx c s) as [[[f c2] s2]| |] eqn:Eone; [|done|done].
    cbn [mbind outcome_bind] in Hp. destruct He as (Hs2 & Hle & Hlt). destruct f; try done.
    + specialize (Hlt eq_refl). rewrite length_app in Hn1.
      destruct n1 as [|n1]; [lia|]. rewrite process_cons by (cbn; by destruct (buffer c)).
      rewrite (process_one_later more c s c2 s2 Hf Eone). cbn [mbind outcome_bind].
      apply IH; [|done|lia|rewrite length_app; lia|done|done].
      eapply fits_le; [|exact Hf]. rewrite !length_app. lia.
    + injection Hp as -> ->. destruct (process_one_wait c s c1 s1 Eone) as [-> ->].
      set (m := length (buffer c ++ more)). by rewrite (process_fuel m n1), (process_fuel m n2) by done.
Qed.

(** ** Clients that have not authenticated *)

(** The data and the topology of the server. *)
Definition same_data (s s' : Shared) : Prop := db s' = db s /\ cluster s' = cluster s.

(** The client was not authenticated, or it is still. *)
Definition gate_kept (c : Conn) (s : Shared) (r : flow * Conn * Shared) : Prop :=
  let '(_, c1, s1) := r in
  (is_authenticated c = true -> is_authenticated c1 = true)
  /\ (is_authenticated c = false -> is_authenticated c1 = false -> same_data s s1).

(** [P] of the result, if there is one. *)
Definition if_ret {A} (P : A -> Prop) (o : outcome A) : Prop :=
  match o with
  | Ret a => P a
  | _ => True
  end.

Lemma if_ret_bind {A B} (P : A -> Prop) (Q : B -> Prop) m (f : A -> outcome B) :
  if_ret P m -> (forall a, P a -> if_ret Q (f a)) -> if_ret Q (m ≫= f).
Proof. destruct m; cbn; auto. Qed.

Lemma gate_kept_refl f c s : gate_kept c s (f, c, s).
Proof. by split. Qed.

Lemma gate_kept_push f data c s : gate_kept c s (f, push_written data c, s).
Proof. by split. Qed.

Lemma run_auth_true c raw n s : if_ret (fun '(_, a, _) => a = true) (run ord c raw (clock n) true s).
Proof.
  destruct c as [[m|]|msg|k|k v px|ks|ks|p|m|args|a b|u p|sub| |]; cbn [run]; try done;
    repeat match goal with
    | |- if_ret _ (?m ≫= _) => destruct m as [?| |]; cbn [mbind outcome_bind]; try done
    | |- context [let '(_, _) := ?p in _] => destruct p; try done
    end.
  destruct (cluster s); [|done]. by destruct (exec_cluster _ _ _) as [[]| |].
Qed.

Lemma execute_gate_kept c raw n auth s pass :
  requirepass = Some pass ->
  if_ret (fun '(_, a, s') => (auth = true -> a = true) /\ (auth = false -> a = false -> same_data s s'))
    (execute ord c raw requirepass (clock n) auth s).
Proof.
  intros Hpass. destruct auth.
  - rewrite execute_allowed by (by rewrite Hpass). pose proof (run_auth_true c raw n s) as Hr.
    destruct (run _ _ _ _ _ _) as [[[r a] s']| |]; [|done|done]. by split.
  - rewrite Hpass. by destruct (execute_gate ord c raw pass (clock n) s) as (reply & -> & _).
Qed.

Lemma written_then_gate data c c0 s s0 k :
  gate_kept c0 s0 (Failed, c, s) -> (forall c1, is_authenticated c1 = is_authenticated c -> if_ret (gate_kept c0 s0) (k c1)) ->
  if_ret (gate_kept c0 s0) (written_then wr data c s k).
Proof.
  intros Hg Hk. unfold written_then, write_all. destruct (wr _); [by apply Hk|exact Hg].
Qed.

Lemma handle_value_gate v raw c s pass :
  requirepass = Some pass ->
  if_ret (gate_kept c s) (handle_value ord wr clock requirepass tx v raw c s).
Proof.
  intros Hpass. unfold handle_value.
  assert (Hsame : forall f c1, is_authenticated c1 = is_authenticated c -> gate_kept c s (f, c1, s)).
  { intros f c1 Hc1. split; [by rewrite Hc1|]. by split. }
  assert (Hcmd : forall cmd, if_ret (gate_kept c s) (handle_command ord wr clock requirepass cmd raw c s)).
  { intros cmd. unfold handle_command. destruct (redirection _ _ _).
    - apply written_then_gate; [by apply Hsame|]. intros c1 Hc1. by apply Hsame.
    - eapply if_ret_bind; [by apply (execute_gate_kept cmd _ _ _ _ pass)|]. intros [[r a] s1] Hg.
      destruct r; [|exact Hg]. apply written_then_gate; [exact Hg|]. intros c1 Hc1.
      cbn in Hc1 |- *. rewrite Hc1. exact Hg. }
  destruct (from_value v) as [cmd|e].
  - destruct cmd; try (by apply Hcmd).
    + unfold handle_psync. apply written_then_gate; [by apply Hsame|]. intros c1 Hc1.
      destruct get_empty_rdb_bytes; cbn [mbind outcome_bind]; [|done|done].
      apply written_then_gate; [by apply Hsame|]. intros c2 Hc2.
      apply written_then_gate; [apply Hsame; congruence|]. intros c3 Hc3.
      split; cbn; [congruence|]. by split.
    + apply written_then_gate; [by apply Hsame|]. intros c1 Hc1. by apply Hsame.
  - apply written_then_gate; [by apply Hsame|]. intros c1 Hc1. by apply Hsame.
Qed.

Lemma process_one_gate c s pass :
  requirepass = Some pass -> if_ret (gate_kept c s) (process_one ord wr clock requirepass tx c s).
Proof.
  intros Hpass. unfold process_one. destruct (parse (buffer c)) as [[[[v|]|e] rest]|p|]; cbn [mbind outcome_bind]; try done.
  - destruct (sub_usize _ _); cbn [mbind outcome_bind]; try done.
    destruct (split_to _ _) as [[raw r]| |]; cbn [mbind outcome_bind]; try done.
    pose proof (handle_value_gate v raw (set_buffer r c) s pass Hpass) as Hv.
    by destruct (handle_value _ _ _ _ _ _ _ _ _) as [[[f c1] s1]| |].
  - apply written_then_gate; [apply gate_kept_refl|]. intros c1 Hc1. split; cbn; [congruence|]. by split.
Qed.

Lemma gate_kept_trans c s f c1 s1 r :
  gate_kept c s (f, c1, s1) -> gate_kept c1 s1 r -> gate_kept c s r.
Proof.
  destruct r as [[f2 c2] s2]. intros [Ha Hb] [Hx Hy]. split; [auto|]. intros Hc Hc2.
  destruct (is_authenticated c1) eqn:E; [specialize (Hx eq_refl); congruence|].
  destruct (Hb Hc eq_refl) as [Hd1 Hcl1]. destruct (Hy eq_refl Hc2) as [Hd2 Hcl2].
  split; congruence.
Qed.

Lemma process_gate n c s pass :
  requirepass = Some pass -> if_ret (gate_kept c s) (process ord wr clock requirepass tx n c s).
Proof.
  intros Hpass. revert c s. induction n as [|n IH]; intros c s; cbn [process].
  { destruct (buffer c); [apply gate_kept_refl|done]. }
  destruct (buffer c); [apply gate_kept_refl|].
  eapply if_ret_bind; [by apply (process_one_gate c s pass)|]. intros [[f c1] s1] Hg.
  destruct f; try exact Hg. specialize (IH c1 s1).
  destruct (process _ _ _ _ _ n c1 s1) as [r| |]; [|done|done]. by eapply gate_kept_trans.
Qed.

Lemma on_event_gate e c s pass :
  requirepass = Some pass ->
  if_ret (gate_kept c s) (on_event ord wr clock requirepass max_payload_size tx e c s).
Proof.
  intros Hpass. destruct e as [|data| |[|b data]]; cbn [on_event]; try apply gate_kept_refl.
  - destruct (is_downstream_replica c); [|apply gate_kept_refl].
    apply written_then_gate; [apply gate_kept_refl|]. intros c1 Hc1.
    pose proof (process_gate (length (buffer c1)) c1 s pass Hpass) as Hp. unfold process_buffer.
    destruct (process _ _ _ _ _ _ c1 s) as [[[f c2] s2]| |]; [|done|done]. unfold gate_kept in *. by rewrite <- Hc1.
  - case_match.
    + unfold write_all. destruct (wr _); cbn; by split.
    + pose proof (process_gate (length (buffer c ++ b :: data)) (set_buffer (buffer c ++ b :: data) c) s pass Hpass) as Hp.
      exact Hp.
Qed.

(** ** The theorems *)

Abbreviation turn := (on_event ord wr clock requirepass max_payload_size tx).

(** C14: every turn of the connection's loop ends.  With a payload limit
    below [isize::MAX], a buffer within the limit and a well-formed server, a
    turn never loops and no index is out of bounds: it returns with the
    server well formed, and the buffer within the limit if the connection
    goes on; or it panics in one of the overflows and reservations of the
    parser and the commands. *)
Theorem turn_ends e c s :
  max_payload_size < isize_max -> Z.of_nat (length (buffer c)) <= max_payload_size -> shared_ok s ->
  ends (fun '(f, c1, s1) => shared_ok s1 /\ f <> Next
          /\ (f = Wait \/ f = Cleared -> Z.of_nat (length (buffer c1)) <= max_payload_size))
    (turn e c s).
Proof.
  intros Hmax Hb Hs.
  assert (Hproc : forall c1, Z.of_nat (length (buffer c1)) <= max_payload_size ->
    ends (fun '(f, c2, s1) => shared_ok s1 /\ f <> Next
          /\ (f = Wait \/ f = Cleared -> Z.of_nat (length (buffer c2)) <= max_payload_size))
      (process_buffer ord wr clock requirepass tx c1 s)).
  { intros c1 Hc1. eapply ends_weaken; [apply process_ends; [unfold fits; lia|done|done]|].
    intros [[f c2] s2] (Hs2 & Hle & Hf). split_and!; [done|done|lia]. }
  destruct e as [|data| |[|b data]]; cbn [on_event]; try (by split_and!).
  - destruct (is_downstream_replica c); [|by split_and!]. unfold written_then, write_all.
    destruct (wr _); [|by split_and!]. by apply Hproc.
  - destruct (Z.ltb_spec max_payload_size (Z.of_nat (length (buffer (set_buffer (buffer c ++ b :: data) c)))));
      [split; [done|split; [done|by intros [?|?]]]|by apply Hproc].
Qed.

(** C12: how the client's bytes are cut into reads does not matter.  When
    the bytes [a] leave the connection waiting for more, and all bytes
    together are within the payload limit, reading [a] and then [b] ends like
    reading [a ++ b] at once: the same replies, the same state and the same
    buffer. *)
Theorem reads_can_be_cut a b c s c1 s1 :
  a <> [] -> b <> [] -> max_payload_size < isize_max ->
  Z.of_nat (length (buffer c ++ a ++ b)) <= max_payload_size -> shared_ok s ->
  turn (Read a) c s = Ret (Wait, c1, s1) ->
  turn (Read (a ++ b)) c s = turn (Read b) c1 s1.
Proof.
  intros Ha Hb Hmax Hlen Hs. destruct a as [|a0 a]; [done|]. destruct b as [|b0 b]; [done|].
  rewrite !length_app in Hlen. cbn [app]. cbn [on_event]. set (la := a0 :: a) in *. set (lb := b0 :: b) in *.
  change (a0 :: a ++ lb) with (la ++ lb). cbn [buffer set_buffer].
  destruct (Z.ltb_spec max_payload_size (Z.of_nat (length (buffer c ++ la)))); [done|].
  intros Hp. unfold process_buffer in Hp. cbn [buffer set_buffer] in Hp.
  pose proof (process_ends (length (buffer c ++ la)) (set_buffer (buffer c ++ la) c) s) as He.
  rewrite Hp in He. destruct He as (_ & Hle & _); [unfold fits; cbn; lia|done|done|].
  cbn [buffer set_buffer] in Hle. rewrite length_app in Hle.
  destruct (Z.ltb_spec max_payload_size (Z.of_nat (length (buffer c ++ la ++ lb)))); [rewrite !length_app in *; lia|].
  destruct (Z.ltb_spec max_payload_size (Z.of_nat (length (buffer c1 ++ lb)))); [rewrite !length_app in *; lia|].
  unfold process_buffer. cbn [buffer set_buffer].
  pose proof (process_later lb (length (buffer c ++ la)) (set_buffer (buffer c ++ la) c) s c1 s1) as Hl.
  cbn [buffer set_buffer] in Hl. rewrite <- app_assoc in Hl.
  apply Hl; [unfold fits; rewrite !length_app in *; lia|done|done|done|done|exact Hp].
Qed.

(** C13: a client that has not authenticated cannot reach the data.  On a
    server with a password, whatever a connection sends, as long as it ends
    up not authenticated the store and the cluster topology are exactly what
    they were. *)
Theorem unauthenticated_data_safe pass es s f c s' :
  requirepass = Some pass ->
  handle ord wr clock requirepass max_payload_size tx es (new requirepass) s = Ret (f, c, s') ->
  is_authenticated c = false -> db s' = db s /\ cluster s' = cluster s.
Proof.
  intros Hpass Hh Hc.
  assert (Hgate : forall es c0 s0, if_ret (gate_kept c0 s0)
    (handle ord wr clock requirepass max_payload_size tx es c0 s0)).
  { clear -Hpass. induction es as [|e es IH]; intros c0 s0; cbn [handle]; [apply gate_kept_refl|].
    eapply if_ret_bind; [by apply (on_event_gate e c0 s0 pass)|]. intros [[f c1] s1] Hg.
    specialize (IH c1 s1). destruct f; try exact Hg;
      destruct (handle _ _ _ _ _ _ es c1 s1); try done; by eapply gate_kept_trans. }
  specialize (Hgate es (new requirepass) s). rewrite Hh in Hgate. destruct Hgate as [_ Hg].
  apply Hg; [by rewrite Hpass|done].
Qed.

(** C27: cluster redirection.  In cluster mode, a data command of an
    authenticated client is run only if this server owns the slot of its
    (first) key; otherwise the client is told the owner's address, or that
    the slot has no owner, and nothing changes. *)
Theorem redirect_exact v raw cmd k c s t :
  (forall i, wr i = true) ->
  from_value v = Ok cmd -> target_key cmd = Some k -> cluster s = Some t -> is_authenticated c = true ->
  handle_value ord wr clock requirepass tx v raw c s =
    match Topology.get_node_for_slot t (key_slot k) with
    | None => Ret (Next, push_written (b!"-CLUSTERDOWN The cluster is down" ++ crlf) c, s)
    | Some owner =>
        if decide (Topology.id owner = Topology.myself_id t)
        then '(r, auth, s1) ← execute ord cmd (Some raw) requirepass (clock (served c)) true s;
             Ret (Next, from_option (fun reply => push_written (serialize reply [])) id r (set_auth auth c), s1)
        else Ret (Next, push_written (b!"-MOVED " ++ Int.fmt_Z (key_slot k) ++ b!" "
               ++ Topology.endpoint owner ++ crlf) c, s)
    end.
Proof.
  intros Hwr Hv Hk Ht Ha. unfold handle_value. rewrite Hv.
  transitivity (handle_command ord wr clock requirepass cmd raw c s); [by destruct cmd|].
  unfold handle_command, redirection. rewrite Ht, Hk, Ha.
  assert (Hw : forall data c0 s0 k0, written_then wr data c0 s0 k0 = k0 (push_written data c0))
    by (intros; unfold written_then, write_all; by rewrite Hwr).
  unfold Topology.owns_slot. destruct (Topology.get_node_for_slot t (key_slot k)) as [owner|]; cbn [negb]; [|apply Hw].
  destruct (decide (Topology.id owner = Topology.myself_id t)).
  - rewrite bool_decide_eq_true_2 by done. cbn [negb].
    destruct (execute _ _ _ _ _ _) as [[[r a] s1]| |]; cbn [mbind outcome_bind]; [|done|done].
    destruct r; [by rewrite Hw|done].
  - rewrite bool_decide_eq_false_2 by done. cbn [negb]. apply Hw.
Qed.

(** C39: PSYNC is answered before the password is checked.  A client whose
    channel is not registered yet, that may not have authenticated and whose
    socket takes the reply, becomes a replica by sending PSYNC; from then on,
    over any run of the server's replication state (propagations,
    registrations of other channels, replicas disconnecting), as long as its
    channel is open and not registered again, it accepts every command that is
    propagated, once and in order. *)
Theorem psync_bypasses_auth a b c s :
  (forall i, wr i = true) -> str_ok a -> str_ok b -> registrations tx (downstream_senders (repl s)) = 0%nat ->
  exists c' s', handle_value ord wr clock requirepass tx (wire_value (Psync a b))
      (serialize (wire_value (Psync a b)) []) c s = Ret (Next, c', s')
    /\ is_authenticated c' = is_authenticated c /\ is_downstream_replica c' = true
    /\ forall raws txs rs' w', repl_run (repl s', chans s') raws txs (rs', w') ->
         is_closed w' tx = false -> tx ∉ txs -> accepted w' tx = accepted (chans s) tx ++ raws.
Proof.
  intros Hwr Ha Hb Hreg. unfold handle_value. rewrite from_value_wire by done. unfold handle_psync.
  assert (Hw : forall data c0 s0 k0, written_then wr data c0 s0 k0 = k0 (push_written data c0))
    by (intros; unfold written_then, write_all; by rewrite Hwr).
  destruct empty_rdb_ok as (rdb & -> & _). rewrite Hw. cbn [mbind outcome_bind]. rewrite !Hw.
  eexists _, _. split; [reflexivity|]. split_and!; [done|done|]. intros raws txs rs' w' Hrun Hopen Hn.
  refine (proj1 (repl_run_stream _ _ _ _ tx Hrun Hopen Hn _)). cbn [fst repl with_repl downstream_senders register_downstream count_replica push_sender].
  by rewrite registrations_app, Hreg, registrations_cons, decide_True.
Qed.

End Theory.

(** ** Witnesses *)

Section ConnectionWitnesses.
#[local] Existing Instance StorageTheory.witness_platform.
#[local] Existing Instance CommandsTheory.witness_store.
#[local] Existing Instance CommandsTheory.witness_laws.

Definition all_written (i : nat) : bool := true.
Definition ticks (n i : nat) : Z := seconds i.

Lemma ticks_ok n : ticking (ticks n).
Proof. exact seconds_tick. Qed.

Abbreviation demo_turn := (on_event by_map_order all_written ticks None 1000 replica_b).

Lemma turn_ends_witness :
  exists d, Storage.with_config 4 0 = Ret d /\
  ends (fun '(f, c1, s1) => shared_ok s1 /\ f <> Next
          /\ (f = Wait \/ f = Cleared -> Z.of_nat (length (buffer c1)) <= 1000))
    (demo_turn (Read set_bytes) (new None) (master_of d)).
Proof.
  destruct (four_shards 0) as (d & Hw & Hd & _). exists d. split; [exact Hw|].
  apply (turn_ends by_map_order all_written ticks None 1000 replica_b ticks_ok (Read set_bytes) (new None) (master_of d));
    [vm_compute; reflexivity|vm_compute; discriminate|exact (master_ok d Hd)].
Defined.

Lemma reads_can_be_cut_witness :
  exists d c1 s1, Storage.with_config 4 0 = Ret d
  /\ demo_turn (Read (take 10 set_bytes)) (new None) (master_of d) = Ret (Wait, c1, s1)
  /\ demo_turn (Read (take 10 set_bytes ++ drop 10 set_bytes)) (new None) (master_of d)
     = demo_turn (Read (drop 10 set_bytes)) c1 s1.
Proof.
  destruct (four_shards 0) as (d & Hw & Hd & _).
  exists d, (set_buffer (take 10 set_bytes) (new None)), (master_of d).
  assert (Hr : demo_turn (Read (take 10 set_bytes)) (new None) (master_of d)
    = Ret (Wait, set_buffer (take 10 set_bytes) (new None), master_of d)) by reflexivity.
  split; [exact Hw|]. split; [exact Hr|].
  apply (reads_can_be_cut by_map_order all_written ticks None 1000 replica_b ticks_ok _ _ (new None) (master_of d)).
  - vm_compute. discriminate.
  - vm_compute. discriminate.
  - vm_compute. reflexivity.
  - vm_compute. discriminate.
  - exact (master_ok d Hd).
  - exact Hr.
Defined.

Lemma unauthenticated_data_safe_witness :
  exists d f c s', Storage.with_config 4 0 = Ret d
  /\ handle by_map_order all_written ticks (Some b!"pw") 1000 replica_b [Read set_bytes] (new (Some b!"pw")) (master_of d)
     = Ret (f, c, s')
  /\ db s' = db (master_of d) /\ cluster s' = cluster (master_of d).
Proof.
  destruct (four_shards 0) as (d & Hw & Hd & _).
  assert (Hr : exists f c s', handle by_map_order all_written ticks (Some b!"pw") 1000 replica_b
    [Read set_bytes] (new (Some b!"pw")) (master_of d) = Ret (f, c, s') /\ is_authenticated c = false)
    by (eexists _, _, _; split; reflexivity).
  destruct Hr as (f & c & s' & Hr & Hc). exists d, f, c, s'. split; [exact Hw|]. split; [exact Hr|].
  exact (unauthenticated_data_safe by_map_order all_written ticks (Some b!"pw") 1000 replica_b b!"pw"
    [Read set_bytes] (master_of d) f c s' eq_refl Hr Hc).
Defined.

Lemma new_unassigned slot : Topology.get_node_for_slot (Topology.new node_a) slot = None.
Proof.
  rewrite get_node_lookup. cbn [Topology.new Topology.slot_to_node].
  destruct (replicate _ _ !! _) as [o|] eqn:E; [|done]. by apply lookup_replicate in E as [-> _].
Qed.

Lemma redirect_exact_witness :
  exists d, Storage.with_config 4 0 = Ret d
  /\ handle_value by_map_order all_written ticks None replica_b (wire_value set_cmd) set_bytes (new None) (master_of d)
     = Ret (Next, push_written (b!"-CLUSTERDOWN The cluster is down" ++ crlf) (new None), master_of d).
Proof.
  destruct (four_shards 0) as (d & Hw & Hd & _). exists d. split; [exact Hw|].
  rewrite (redirect_exact by_map_order all_written ticks None replica_b (wire_value set_cmd) set_bytes set_cmd
    b!"k" (new None) (master_of d) (Topology.new node_a)); [|reflexivity..].
  rewrite new_unassigned. reflexivity.
Defined.

Lemma psync_bypasses_auth_witness :
  exists d, Storage.with_config 4 0 = Ret d
  /\ exists c' s', handle_value by_map_order all_written ticks (Some b!"pw") replica_b (wire_value (Psync b!"?" b!"-1"))
      (serialize (wire_value (Psync b!"?" b!"-1")) []) (new (Some b!"pw")) (master_of d) = Ret (Next, c', s')
    /\ is_authenticated c' = false /\ is_downstream_replica c' = true
    /\ exists rs' w', repl_run (repl s', chans s') [b!"x"; b!"y"] [] (rs', w')
         /\ is_closed w' replica_b = false /\ accepted w' replica_b = [b!"x"; b!"y"].
Proof.
  destruct (four_shards 0) as (d & Hw & Hd & _). exists d. split; [exact Hw|].
  destruct (psync_bypasses_auth by_map_order all_written ticks (Some b!"pw") replica_b b!"?" b!"-1"
    (new (Some b!"pw")) (master_of d) (fun _ => eq_refl) eq_refl eq_refl eq_refl) as (c' & s' & Hv & Hc & Hdown & Hrun).
  exists c', s'. split; [exact Hv|]. split; [exact Hc|]. split; [exact Hdown|].
  destruct (propagate_downstream b!"x" (repl s') (chans s')) as [rs1 w1] eqn:E1.
  destruct (propagate_downstream b!"y" rs1 w1) as [rs2 w2] eqn:E2.
  assert (Hr : repl_run (repl s', chans s') [b!"x"; b!"y"] [] (rs2, w2)).
  { apply (repl_run_cons _ [b!"x"] [] (rs1, w1) [b!"y"] []); [rewrite <- E1; apply repl_propagate|].
    apply repl_run_one. rewrite <- E2. apply repl_propagate. }
  assert (Hopen : is_closed w2 replica_b = false).
  { assert (Hval : (rs2, w2) = let '(rs, w) := propagate_downstream b!"x" (repl s') (chans s') in propagate_downstream b!"y" rs w)
      by (rewrite E1, E2; reflexivity).
    injection Hv as _ <-. vm_compute in Hval. injection Hval as _ ->. vm_compute. reflexivity. }
  exists rs2, w2. split; [exact Hr|]. split; [exact Hopen|].
  exact (Hrun [b!"x"; b!"y"] [] rs2 w2 Hr Hopen (not_elem_of_nil _)).
Defined.

End ConnectionWitnesses.
