(* ===== verification/Regions.v ===== *)
(** * Commands and connections, one shared access at a time

    Tasks run on several threads, so what a connection does between two
    accesses to what the server shares can be interleaved with the other
    tasks.  This file cuts [Commands.execute] and the loop of
    [Connection.handle] at these points: [job_step] is the next access of a
    command (one locked region of a shard, one lock of the topology, one
    access of the replication state), [advance] the next access of a
    connection.  Writing to the client's own socket and parsing its buffer are
    local to the task and belong to the access before or after them; the
    readings INFO puts together are one access.  [RegionsTheory] shows that a
    task that runs alone does what [Commands.execute] and
    [Connection.process_buffer] do; [System] interleaves the tasks. *)

From S2P Require Import Prelude RustStd Str Resp Slot Storage StorageTheory Store Calls Topology ReplState Commands Connection.
Import Resp Slot ReplState Commands Connection.

Module Regions.

(** ** A command *)

(** What is left of a command. *)
Inductive job : Type :=
| Start (c : Command)
| GetExpired (key : bytes)                         (** GET, before the cleanup *)
| Setting (key value : bytes) (expires_at : option Z) (c : set_call) (** SET, in [Db::set] *)
| SetStored                                        (** SET, before the propagation *)
| DelLoop (keys : list bytes) (count : Z)          (** in the loop of DEL *)
| DelPropagate (count : Z)
| ExistsLoop (i : nat) (keys : list bytes) (count : Z)
| ExistsExpired (i : nat) (k : bytes) (rest : list bytes) (count : Z) (** EXISTS, before the cleanup *)
| KeysLoop (now : Z) (i : nat) (all_keys : list bytes).

Section Regions.
Context `{Platform} `{StoreRegions} `{Mpsc}.
Variable ord : Topology.node_order.
Variable wr : nat -> bool.
Variable clock : nat -> nat -> Z.
(** How far a reading of the memory counter is from its value between two
    regions. *)
Variable lag : Z.
Variable requirepass : option bytes.
Variable max_payload_size : Z.
Variable tx : sender.

Inductive job_result : Type :=
| Busy (j : job) (s : Shared)
| Replied (reply : option Value) (auth : bool) (s : Shared).

(** The reply to GET. *)
Definition got (r : option bytes) : Value :=
  match r with
  | Some b => BulkString (Some b)
  | None => null_bulk
  end.

(** A command that is let through, up to its first shared access. *)
Definition start (c : Command) (raw_cmd : option bytes) (clock : nat -> Z) (auth : bool) (s : Shared)
    : outcome job_result :=
  match c with
  | Get key =>
      '(r, d) ← lookup_in (db s) key (clock 0%nat) (clock 1%nat);
      Ret (match r with
           | inl res => Replied (Some (got res)) auth (with_db d s)
           | inr _ => Busy (GetExpired key) (with_db d s)
           end)
  | Set_ key value px_ms =>
      expires_at ← match px_ms with
                   | Some ms => exp ← add_millis (clock 0%nat) ms; Ret (Some exp)
                   | None => Ret None
                   end;
      Ret (Busy (Setting key value expires_at SetTest) s)
  | Del keys => Ret (Busy (DelLoop keys 0) s)
  | Exists_ keys => Ret (Busy (ExistsLoop 0 keys 0) s)
  | Keys _ => Ret (Busy (KeysLoop (clock 0%nat) 0 []) s)
  | _ => '(r, a, s1) ← run ord c raw_cmd clock auth s; Ret (Replied r a s1)
  end.

Definition job_step (raw_cmd : option bytes) (clock : nat -> Z) (auth : bool) (j : job) (s : Shared)
    : outcome job_result :=
  match j with
  | Start c =>
      match requirepass, auth with
      | Some _, false => '(r, a, s1) ← execute ord c raw_cmd requirepass clock auth s; Ret (Replied r a s1)
      | _, _ => start c raw_cmd clock auth s
      end
  | GetExpired key =>
      d ← cleanup_in (db s) key (clock 1%nat);
      Ret (Replied (Some (got None)) auth (with_db d s))
  | Setting key value expires_at c =>
      '(c1, d) ← set_step key value expires_at (clock 1%nat) lag c (db s);
      Ret (Busy (match c1 with Some c1 => Setting key value expires_at c1 | None => SetStored end) (with_db d s))
  | SetStored => Ret (Replied (Some ok) auth (propagate raw_cmd s))
  | DelLoop (k :: rest) count =>
      '(removed, d) ← db_del (db s) k;
      Ret (Busy (DelLoop rest (if removed : bool then count + 1 else count)) (with_db d s))
  | DelLoop [] count =>
      if 0 <? count then Ret (Busy (DelPropagate count) s)
      else Ret (Replied (Some (Integer count)) auth s)
  | DelPropagate count => Ret (Replied (Some (Integer count)) auth (propagate raw_cmd s))
  | ExistsLoop i (k :: rest) count =>
      '(r, d) ← lookup_in (db s) k (clock (2 * i)%nat) (clock (2 * i + 1)%nat);
      Ret (Busy (match r with
                 | inl (Some _) => ExistsLoop (S i) rest (count + 1)
                 | inl None => ExistsLoop (S i) rest count
                 | inr _ => ExistsExpired i k rest count
                 end) (with_db d s))
  | ExistsExpired i k rest count =>
      d ← cleanup_in (db s) k (clock (2 * i + 1)%nat);
      Ret (Busy (ExistsLoop (S i) rest count) (with_db d s))
  | ExistsLoop _ [] count => Ret (Replied (Some (Integer count)) auth s)
  | KeysLoop now i all_keys =>
      r ← keys_step now i (db s);
      Ret (match r with
           | Some ks => Busy (KeysLoop now (S i) (all_keys ++ ks)) s
           | None => Replied (Some (Array (Some (string_ <$> all_keys)))) auth s
           end)
  end.

(** ** A connection *)

Inductive phase : Type :=
| Select                          (** in [tokio::select!] *)
| Scan                            (** at the head of the loop over the buffer *)
| Run (raw_cmd : bytes) (j : job) (** running a command *)
| Register                        (** PSYNC, before the registration *)
| Counting                        (** PSYNC, the sender is registered but not counted *)
| Over (ok : bool)                (** the handler has returned, [Ok] or an error *)
.

(** [write_all(..).await?] and what follows it. *)
Definition reply_then (data : bytes) (c : Conn) (next : phase) : Conn * phase :=
  match write_all wr data c with
  | Some c1 => (c1, next)
  | None => (c, Over false)
  end.

(** The replies to PSYNC before the registration. *)
Definition psync_replies (c : Conn) (s : Shared) : outcome (Conn * phase) :=
  match write_all wr (b!"+FULLRESYNC " ++ get_replid (repl s) ++ b!" 0" ++ crlf) c with
  | None => Ret (c, Over false)
  | Some c1 =>
      rdb_bytes ← get_empty_rdb_bytes;
      match write_all wr (b!"$" ++ Int.fmt_Z (Z.of_nat (length rdb_bytes)) ++ crlf) c1 with
      | None => Ret (c1, Over false)
      | Some c2 => Ret (reply_then rdb_bytes c2 Register)
      end
  end.

(** The command has been dealt with, unless it goes on. *)
Definition counted (r : Conn * phase) : Conn * phase :=
  match snd r with
  | Run _ _ | Register | Counting => r
  | _ => (count_command (fst r), snd r)
  end.

Definition scan_value (v : Value) (raw_cmd : bytes) (c : Conn) (s : Shared) : outcome (Conn * phase) :=
  match from_value v with
  | Ok (Psync _ _) => psync_replies c s
  | Ok Quit => Ret (reply_then (serialize ok []) c (Over true))
  | Ok cmd =>
      match redirection cmd (is_authenticated c) s with
      | Some reply => Ret (reply_then reply c Scan)
      | None => Ret (c, Run raw_cmd (Start cmd))
      end
  | Err e => Ret (reply_then (serialize (error e) []) c Scan)
  end.

Definition scan (c : Conn) (s : Shared) : outcome (Conn * phase) :=
  match buffer c with
  | [] => Ret (c, Select)
  | _ :: _ =>
      '(r, cursor) ← parse (buffer c);
      match r with
      | Ok (Some v) =>
          consumed ← sub_usize (Z.of_nat (length (buffer c))) (Z.of_nat (length cursor));
          '(raw_cmd, rest) ← split_to (Z.to_nat consumed) (buffer c);
          r ← scan_value v raw_cmd (set_buffer rest c) s;
          Ret (counted r)
      | Ok None => Ret (c, Select)
      | Err e =>
          Ret (match write_all wr (serialize (error (b!"ERR protocol error: " ++ error_to_string e)) []) c with
               | Some c1 => (set_buffer [] c1, Select)
               | None => (c, Over false)
               end)
      end
  end.

(** The next access of a connection that is not in [select!]. *)
Definition advance (c : Conn) (p : phase) (s : Shared) : outcome (Conn * phase * Shared) :=
  match p with
  | Select | Over _ => Ret (c, p, s)
  | Scan => '(c1, p1) ← scan c s; Ret (c1, p1, s)
  | Run raw_cmd j =>
      r ← job_step (Some raw_cmd) (clock (served c)) (is_authenticated c) j s;
      match r with
      | Busy j1 s1 => Ret (c, Run raw_cmd j1, s1)
      | Replied reply auth s1 =>
          let c1 := set_auth auth c in
          Ret (counted (match reply with
                        | Some v => reply_then (serialize v []) c1 Scan
                        | None => (c1, Scan)
                        end), s1)
      end
  | Register => Ret (c, Counting, with_repl (push_sender tx (repl s), chans s) s)
  | Counting => Ret (count_command (set_downstream c), Scan, with_repl (count_replica (repl s), chans s) s)
  end.

(** The branch of [select!] that was taken. *)
Definition wake (e : event) (c : Conn) : Conn * phase :=
  match e with
  | Shutdown => (c, Over true)
  | Replicated data => if is_downstream_replica c then reply_then data c Scan else (c, Select)
  | ReadError => (c, Over false)
  | Read [] => (c, Over true)
  | Read data =>
      let c1 := set_buffer (buffer c ++ data) c in
      if max_payload_size <? Z.of_nat (length (buffer c1))
      then (default c1 (write_all wr (serialize (error b!"ERR max payload size exceeded") []) c1), Over true)
      else (c1, Scan)
  end.

(** A connection left to itself until it is back in [select!] or over. *)
Fixpoint drive (fuel : nat) (c : Conn) (p : phase) (s : Shared) : outcome (Conn * phase * Shared) :=
  match p with
  | Select | Over _ => Ret (c, p, s)
  | _ =>
      match fuel with
      | O => NoFuel
      | S n => '(c1, p1, s1) ← advance c p s; drive n c1 p1 s1
      end
  end.

End Regions.
End Regions.
