(* ===== verification/RegionsTheory.v ===== *)
(** * A task that runs alone does what the handler does

    The accesses of [Regions] composed without interruption are
    [Commands.execute] and the turn of [Connection.handle]: cutting the code
    at its shared accesses loses and adds nothing. *)

From S2P Require Import Prelude RustStd Str Resp RespTheory Slot Storage StorageTheory Store Calls.
From S2P Require Import Topology TopologyTheory ReplState ReplTheory Commands CommandsTheory Connection ConnectionTheory Regions.
Import Resp Slot ReplState Commands Connection Regions.

(** Where the flow of [Connection.process_buffer] leaves the handler. *)
Definition phase_of (f : flow) : phase :=
  match f with
  | Next => Scan
  | Wait | Cleared => Select
  | Close => Over true
  | Failed => Over false
  end.

Section Theory.
Context `{RegionLaws} `{MpscLaws}.
Variable ord : Topology.node_order.
Variable wr : nat -> bool.
Variable clock : nat -> nat -> Z.
Variable requirepass : option bytes.
Variable max_payload_size : Z.
Variable tx : sender.
Hypothesis clock_ticks : forall n, ticking (clock n).

Abbreviation drive := (drive ord wr clock 0 requirepass tx).
Abbreviation advance := (advance ord wr clock 0 requirepass tx).

(** ** Fuel *)

(** [o] is what [drive] gives from here with any fuel above some bound,
    where [k m] goes on with fuel [m]. *)
Definition leads (c : Conn) (p : phase) (s : Shared) (k : nat -> outcome (Conn * phase * Shared)) : Prop :=
  exists n, forall m, drive (n + m) c p s = k m.

Lemma leads_here c p s : leads c p s (fun m => drive m c p s).
Proof. by exists 0%nat. Qed.

Lemma leads_step c p s k :
  (match p with Select | Over _ => False | _ => True end) ->
  match advance c p s with
  | Ret (c1, p1, s1) => leads c1 p1 s1 k
  | Panic x => k = fun _ => Panic x
  | NoFuel => k = fun _ => NoFuel
  end -> leads c p s k.
Proof.
  intros Hp. destruct (advance c p s) as [[[c1 p1] s1]|x|] eqn:E; [intros [n Hn]|intros ->..].
  - exists (S n). intros m. cbn [Nat.add Regions.drive]. destruct p; try done; rewrite E; apply Hn.
  - exists 1%nat. intros m. cbn [Nat.add Regions.drive]. destruct p; try done; rewrite E; reflexivity.
  - exists 1%nat. intros m. cbn [Nat.add Regions.drive]. destruct p; try done; rewrite E; reflexivity.
Qed.

Lemma leads_ext c p s k k' : (forall m, k m = k' m) -> leads c p s k -> leads c p s k'.
Proof. intros Hk [n Hn]. exists n. intros m. by rewrite Hn. Qed.

(** ** A command *)

(** The connection once the command has answered. *)
Definition answered (c : Conn) (reply : option Value) (auth : bool) : Conn * phase :=
  counted (match reply with
           | Some v => reply_then wr (serialize v []) (set_auth auth c) Scan
           | None => (set_auth auth c, Scan)
           end).

Definition resume (c : Conn) (r : outcome (option Value * bool * Shared)) (m : nat) : outcome (Conn * phase * Shared) :=
  '(reply, auth, s1) ← r;
  let '(c1, p1) := answered c reply auth in
  drive m c1 p1 s1.

Lemma leads_reply c raw j s reply auth s1 :
  job_step ord 0 requirepass (Some raw) (clock (served c)) (is_authenticated c) j s = Ret (Replied reply auth s1) ->
  leads c (Run raw j) s (resume c (Ret (reply, auth, s1))).
Proof.
  intros Hj. apply leads_step; [done|]. cbn [Regions.advance]. rewrite Hj. cbn [mbind outcome_bind].
  unfold resume, answered. cbn [mbind outcome_bind]. destruct (counted _) as [c1 p1]. apply leads_here.
Qed.

Lemma leads_busy c raw j s j1 s1 k :
  job_step ord 0 requirepass (Some raw) (clock (served c)) (is_authenticated c) j s = Ret (Busy j1 s1) ->
  leads c (Run raw j1) s1 k -> leads c (Run raw j) s k.
Proof. intros Hj Hk. apply leads_step; [done|]. cbn [Regions.advance]. rewrite Hj. exact Hk. Qed.

Lemma leads_stops c raw j s (o : outcome (option Value * bool * Shared)) :
  match o with Ret _ => False | _ => True end ->
  job_step ord 0 requirepass (Some raw) (clock (served c)) (is_authenticated c) j s
    = ('(r, a, s1) ← o; Ret (Replied r a s1)) ->
  leads c (Run raw j) s (resume c o).
Proof.
  intros Ho Hj. apply leads_step; [done|]. cbn [Regions.advance]. rewrite Hj. by destruct o.
Qed.

Lemma with_db_same s : with_db (db s) s = s.
Proof. by destruct s. Qed.

Lemma leads_del c raw keys count s :
  leads c (Run raw (DelLoop keys count)) s
    (resume c ('(n, d) ← del_keys keys count (db s);
               Ret (Some (Integer n), is_authenticated c,
                    if 0 <? n then propagate (Some raw) (with_db d s) else with_db d s))).
Proof.
  revert count s. induction keys as [|k keys IH]; intros count s; cbn [del_keys].
  - cbn [mbind outcome_bind]. rewrite with_db_same. destruct (0 <? count) eqn:E.
    + eapply leads_busy; [cbn [job_step]; by rewrite E|]. by apply leads_reply.
    + apply leads_reply. cbn [job_step]. by rewrite E.
  - destruct (db_del (db s) k) as [[removed d]|x|] eqn:E; cbn [mbind outcome_bind].
    + eapply leads_busy; [cbn [job_step]; by rewrite E|]. apply (IH _ (with_db d s)).
    + apply (leads_stops c raw _ s (Panic x)); [done|]. cbn [job_step]. by rewrite E.
    + apply (leads_stops c raw _ s NoFuel); [done|]. cbn [job_step]. by rewrite E.
Qed.

Lemma leads_exists c raw i keys count s :
  leads c (Run raw (ExistsLoop i keys count)) s
    (resume c ('(n, d) ← exists_keys (clock (served c)) i keys count (db s);
               Ret (Some (Integer n), is_authenticated c, with_db d s))).
Proof.
  revert i count s. induction keys as [|k keys IH]; intros i count s; cbn [exists_keys].
  - cbn [mbind outcome_bind]. rewrite with_db_same. by apply leads_reply.
  - rewrite exists_regions, get_regions.
    destruct (lookup_in (db s) k _ _) as [[[[v|]|[]] d]|x|] eqn:E; cbn [mbind outcome_bind].
    + eapply leads_busy; [cbn [job_step]; by rewrite E|]. apply (IH _ _ (with_db d s)).
    + eapply leads_busy; [cbn [job_step]; by rewrite E|]. apply (IH _ _ (with_db d s)).
    + eapply leads_busy; [cbn [job_step]; by rewrite E|].
      destruct (cleanup_in d k _) as [d2|x|] eqn:E2; cbn [mbind outcome_bind].
      * eapply leads_busy; [cbn [job_step db with_db]; by rewrite E2|]. apply (IH _ _ (with_db d2 s)).
      * apply (leads_stops c raw _ _ (Panic x)); [done|]. cbn [job_step db with_db]. by rewrite E2.
      * apply (leads_stops c raw _ _ NoFuel); [done|]. cbn [job_step db with_db]. by rewrite E2.
    + apply (leads_stops c raw _ s (Panic x)); [done|]. cbn [job_step]. by rewrite E.
    + apply (leads_stops c raw _ s NoFuel); [done|]. cbn [job_step]. by rewrite E.
Qed.

(** GET, from its first region on. *)
Lemma leads_get c raw j k s :
  job_step ord 0 requirepass (Some raw) (clock (served c)) (is_authenticated c) j s
    = ('(r, d) ← lookup_in (db s) k (clock (served c) 0%nat) (clock (served c) 1%nat);
       Ret (match r with
            | inl res => Replied (Some (got res)) (is_authenticated c) (with_db d s)
            | inr _ => Busy (GetExpired k) (with_db d s)
            end)) ->
  leads c (Run raw j) s
    (resume c ('(r, d) ← db_get (db s) k (clock (served c) 0%nat) (clock (served c) 1%nat);
               Ret (Some (got r), is_authenticated c, with_db d s))).
Proof.
  intros Hj. rewrite get_regions. destruct (lookup_in (db s) k _ _) as [[[r|[]] d]|x|] eqn:E; cbn [mbind outcome_bind] in *.
  - by apply leads_reply.
  - eapply leads_busy; [exact Hj|]. destruct (cleanup_in d k _) as [d2|x|] eqn:E2; cbn [mbind outcome_bind].
    + apply leads_reply. cbn [job_step db with_db]. by rewrite E2.
    + apply (leads_stops c raw _ _ (Panic x)); [done|]. cbn [job_step db with_db]. by rewrite E2.
    + apply (leads_stops c raw _ _ NoFuel); [done|]. cbn [job_step db with_db]. by rewrite E2.
  - apply (leads_stops c raw _ s (Panic x)); [done|exact Hj].
  - apply (leads_stops c raw _ s NoFuel); [done|exact Hj].
Qed.

(** SET, in [n] regions of the store. *)
Lemma leads_set n c raw k v exp cl s o :
  set_alone n k v exp (clock (served c) 1%nat) cl (db s) = o -> o <> NoFuel ->
  leads c (Run raw (Setting k v exp cl)) s
    (resume c (d ← o; Ret (Some ok, is_authenticated c, propagate (Some raw) (with_db d s)))).
Proof.
  revert cl s. induction n as [|n IH]; intros cl s Ho Hf; cbn [set_alone] in Ho; [congruence|].
  destruct (set_step k v exp _ 0 cl (db s)) as [[[c1|] d]|x|] eqn:E; cbn [mbind outcome_bind] in Ho; [| |subst o|congruence].
  - eapply leads_busy; [cbn [job_step]; by rewrite E|]. eapply leads_ext; [|apply (IH c1 (with_db d s) Ho Hf)].
    intros m. done.
  - subst o. eapply leads_busy; [cbn [job_step]; by rewrite E|]. by apply leads_reply.
  - apply (leads_stops c raw _ s (Panic x)); [done|]. cbn [job_step]. by rewrite E.
Qed.

(** KEYS, from the shard [i] on. *)
Lemma leads_keys n c raw now i acc ks s :
  keys_alone n now i (db s) = Ret ks ->
  leads c (Run raw (KeysLoop now i acc)) s
    (resume c (Ret (Some (Array (Some (string_ <$> acc ++ ks))), is_authenticated c, s))).
Proof.
  revert i acc ks. induction n as [|n IH]; intros i acc ks Hk; cbn [keys_alone] in Hk; [done|].
  destruct (keys_step now i (db s)) as [[k1|]|x|] eqn:E; cbn [mbind outcome_bind] in Hk; [| |done|done].
  - destruct (keys_alone n now (S i) (db s)) as [more| |] eqn:Em; [|done|done]. injection Hk as <-.
    eapply leads_busy; [cbn [job_step]; by rewrite E|]. rewrite app_assoc. by apply IH.
  - injection Hk as <-. rewrite app_nil_r. apply leads_reply. cbn [job_step]. by rewrite E.
Qed.

(** A command that is one access. *)
Lemma leads_whole c raw j s (o : outcome (option Value * bool * Shared)) :
  job_step ord 0 requirepass (Some raw) (clock (served c)) (is_authenticated c) j s
    = ('(r, a, s1) ← o; Ret (Replied r a s1)) ->
  leads c (Run raw j) s (resume c o).
Proof.
  intros Hj. destruct o as [[[r a] s1]|x|]; [by apply leads_reply|by apply leads_stops|by apply leads_stops].
Qed.

(** The accesses of a command make up [execute]. *)
Lemma leads_execute c raw cmd s :
  store_ok (db s) ->
  leads c (Run raw (Start cmd)) s
    (resume c (execute ord cmd (Some raw) requirepass (clock (served c)) (is_authenticated c) s)).
Proof.
  intros Hok. destruct (allowed requirepass (is_authenticated c)) eqn:Ha.
  2:{ destruct requirepass as [p|] eqn:Ep; [|done]. cbn in Ha.
      apply leads_whole. rewrite Ep. cbn [job_step]. by rewrite Ha. }
  rewrite execute_allowed by done.
  assert (Hj : job_step ord 0 requirepass (Some raw) (clock (served c)) (is_authenticated c) (Start cmd) s
    = start ord cmd (Some raw) (clock (served c)) (is_authenticated c) s).
  { cbn [job_step]. destruct requirepass, (is_authenticated c); done. }
  destruct cmd as [m|msg|k|k v px|ks|ks|p|o|args|a b|u p|sub| |];
    try (by apply leads_whole); cbn [run].
  - by apply leads_get.
  - unfold exec_set. cbn [start] in Hj. destruct (match px with Some ms => _ | None => _ end) as [exp|x|]; cbn [mbind outcome_bind] in *.
    + eapply leads_busy; [exact Hj|]. destruct (set_regions (db s) k v exp (clock (served c) 1%nat) Hok) as [n Hn].
      destruct (set_law (db s) k v exp (clock (served c) 1%nat) Hok) as (d & m & Hd & _). rewrite Hd in *.
      by eapply (leads_set n c raw k v exp SetTest s (Ret d)).
    + by apply (leads_stops c raw _ s (Panic x)).
    + by apply (leads_stops c raw _ s NoFuel).
  - eapply leads_busy; [by rewrite Hj|]. eapply leads_ext; [|apply leads_del]. intros m. unfold exec_del.
    by destruct (del_keys ks 0 (db s)) as [[n d]|x|].
  - eapply leads_busy; [by rewrite Hj|]. apply leads_exists.
  - eapply leads_busy; [by rewrite Hj|]. destruct (keys_regions (db s) (clock (served c) 0%nat) Hok) as [n Hn].
    by apply (leads_keys n c raw _ 0 [] _ s).
Qed.

(** ** An iteration *)

(** What follows the iteration of [process]. *)
Definition goes_on (r : outcome (flow * Conn * Shared)) (m : nat) : outcome (Conn * phase * Shared) :=
  '(f, c1, s1) ← r;
  drive m c1 (phase_of f) s1.

Lemma drive_reply m data c next s f :
  next = phase_of f -> (match next with Run _ _ | Register | Counting => False | _ => True end) ->
  (let '(c1, p1) := counted (reply_then wr data c next) in drive m c1 p1 s)
  = goes_on (written_then wr data c s (fun c1 => Ret (f, c1, s))
             ≫= (fun '(f, c1, s1) => Ret (f, count_command c1, s1))) m.
Proof.
  intros -> Hn. unfold reply_then, written_then. destruct (write_all wr data c) as [c1|]; cbn; [by destruct f|done].
Qed.

Lemma scan_frame c s v rest :
  fits (buffer c) -> parse (buffer c) = Ret (Ok (Some v), rest) ->
  exists fr, buffer c = fr ++ rest /\ scan wr c s = r ← scan_value wr v fr (set_buffer rest c) s; Ret (counted r).
Proof.
  intros Hf Hp. destruct (parse_fits_sound _ _ _ Hf Hp) as (fr & Hb & Hfr). exists fr. split; [done|].
  pose proof (frame_nonempty _ _ Hfr) as Hne. unfold scan. rewrite Hp.
  assert (Hcons : buffer c <> []) by (rewrite Hb; by destruct fr; [cbn in Hne; lia|]).
  destruct (buffer c) as [|b0 bs] eqn:Eb; [done|]. cbn [mbind outcome_bind].
  assert (Hlen : Z.of_nat (length (b0 :: bs)) - Z.of_nat (length rest) = Z.of_nat (length fr))
    by (rewrite Hb, length_app; lia).
  unfold sub_usize. rewrite Hlen. destruct (Z.leb_spec 0 (Z.of_nat (length fr))); [|lia].
  cbn [mbind outcome_bind]. rewrite Nat2Z.id. unfold split_to.
  destruct (Nat.leb_spec (length fr) (length (b0 :: bs))); [|rewrite Hb, length_app in *; lia].
  cbn [mbind outcome_bind]. by rewrite Hb, take_app_length, drop_app_length.
Qed.

Lemma leads_scan c s k :
  match scan wr c s with
  | Ret (c1, p1) => leads c1 p1 s k
  | Panic x => k = fun _ => Panic x
  | NoFuel => k = fun _ => NoFuel
  end -> leads c Scan s k.
Proof.
  intros Hk. apply leads_step; [done|]. cbn [Regions.advance]. destruct (scan wr c s) as [[c1 p1]|x|]; exact Hk.
Qed.

Lemma leads_counted r s k :
  (let '(c1, p1) := counted r in leads c1 p1 s k) -> match counted r with (c1, p1) => leads c1 p1 s k end.
Proof. done. Qed.

Lemma leads_value v raw c s :
  store_ok (db s) ->
  match (r ← scan_value wr v raw c s; Ret (counted r)) with
  | Ret (c1, p1) => leads c1 p1 s (goes_on (handle_value ord wr clock requirepass tx v raw c s
                      ≫= (fun '(f, c1, s1) => Ret (f, count_command c1, s1))))
  | Panic x => False
  | NoFuel => False
  end.
Proof.
  intros Hok. unfold scan_value, handle_value.
  assert (Hreply : forall data next f, next = phase_of f -> (match next with Run _ _ | Register | Counting => False | _ => True end) ->
    let '(c1, p1) := counted (reply_then wr data c next) in
    leads c1 p1 s (goes_on (written_then wr data c s (fun c1 => Ret (f, c1, s))
                            ≫= (fun '(f, c1, s1) => Ret (f, count_command c1, s1))))).
  { intros data next f Hn Hp. pose proof (fun m => drive_reply m data c next s f Hn Hp) as Hd.
    destruct (counted _) as [c1 p1]. eapply leads_ext; [exact Hd|]. apply leads_here. }
  destruct (from_value v) as [cmd|e]; [|by apply Hreply].
  assert (Hcmd : match (match redirection cmd (is_authenticated c) s with
                        | Some reply => Ret (reply_then wr reply c Scan)
                        | None => Ret (c, Run raw (Start cmd))
                        end ≫= (fun r => Ret (counted r))) with
    | Ret (c1, p1) => leads c1 p1 s (goes_on (handle_command ord wr clock requirepass cmd raw c s
                      ≫= (fun '(f, c1, s1) => Ret (f, count_command c1, s1))))
    | Panic x => False
    | NoFuel => False
    end).
  { unfold handle_command. destruct (redirection _ _ _) as [reply|]; [by apply (Hreply reply Scan Next)|].
    cbn [mbind outcome_bind]. eapply leads_ext; [|by apply leads_execute]. intros m. unfold resume, goes_on, answered.
    destruct (execute _ _ _ _ _ _ _) as [[[r a] s1]|x|]; cbn [mbind outcome_bind]; [|done|done].
    destruct r as [reply|]; [|done]. apply (drive_reply m _ _ Scan s1 Next); done. }
  destruct cmd; try exact Hcmd; [|by apply (Hreply _ (Over true) Close)].
  unfold psync_replies, handle_psync, written_then.
  destruct (write_all wr _ c) as [c1|]; [|cbn; by apply leads_here].
  destruct empty_rdb_ok as (rdb & -> & _). cbn [mbind outcome_bind].
  destruct (write_all wr _ c1) as [c2|]; [|cbn; by apply leads_here]. cbn [mbind outcome_bind]. unfold reply_then.
  destruct (write_all wr _ c2) as [c3|]; [|cbn; by apply leads_here]. cbn.
  apply leads_step; [done|]. cbn. apply leads_step; [done|]. cbn. apply leads_here.
Qed.

Lemma leads_process_one c s :
  fits (buffer c) -> shared_ok s -> buffer c <> [] ->
  leads c Scan s (goes_on (process_one ord wr clock requirepass tx c s)).
Proof.
  intros Hf Hs Hb. pose proof (parse_safe (buffer c) Hf) as Hsafe.
  destruct (parse (buffer c)) as [[[[v|]|e] rest]|x|] eqn:Ep; cbn in Hsafe; [| | | |done].
  - destruct (process_one_frame ord wr clock requirepass tx c s v rest Hf Ep) as (fr & Hfr & _ & _ & ->).
    destruct (scan_frame c s v rest Hf Ep) as (fr' & Hfr' & Hscan).
    assert (fr' = fr) as ->. { rewrite Hfr in Hfr'. by apply app_inv_tail in Hfr'. }
    apply leads_scan. rewrite Hscan. pose proof (leads_value v fr (set_buffer rest c) s (sh_store s Hs)) as Hv.
    by destruct (r ← _; _) as [[c1 p1]|x|].
  - apply leads_scan. unfold scan, process_one. rewrite Ep. destruct (buffer c); [done|]. cbn. apply leads_here.
  - apply leads_scan. unfold scan, process_one. rewrite Ep. destruct (buffer c); [done|]. cbn [mbind outcome_bind].
    unfold written_then. destruct (write_all wr _ c); cbn; apply leads_here.
  - apply leads_scan. unfold scan, process_one. rewrite Ep. by destruct (buffer c).
Qed.

(** ** A turn *)

Lemma leads_process n c s :
  fits (buffer c) -> shared_ok s -> (length (buffer c) <= n)%nat ->
  leads c Scan s (goes_on (process ord wr clock requirepass tx n c s)).
Proof.
  revert c s. induction n as [|n IH]; intros c s Hf Hs Hn;
    (destruct (decide (buffer c = [])) as [Hb|Hb];
      [rewrite process_nil by done; apply leads_scan; unfold scan; rewrite Hb; cbn; apply leads_here|]).
  { destruct (buffer c); [done|cbn in Hn; lia]. }
  rewrite process_cons by done. destruct (leads_process_one c s Hf Hs Hb) as [n1 Hone].
  pose proof (process_one_ends ord wr clock requirepass tx clock_ticks c s Hf Hs) as He.
  destruct (process_one _ _ _ _ _ c s) as [[[f c1] s1]|x|] eqn:E; [|by exists n1|done].
  destruct He as (Hs1 & Hle & Hlt). destruct f; try (by exists n1).
  specialize (Hlt eq_refl). destruct (IH c1 s1) as [n2 Htwo]; [eapply fits_le; [|exact Hf]; lia|done|lia|].
  exists (n1 + n2)%nat. intros m. rewrite <- Nat.add_assoc, Hone. cbn [mbind outcome_bind]. apply Htwo.
Qed.

(** The turn's result in the terms of [drive]. *)
Definition turn_end (r : outcome (flow * Conn * Shared)) : outcome (Conn * phase * Shared) :=
  '(f, c1, s1) ← r;
  Ret (c1, phase_of f, s1).

Lemma leads_process_buffer c s :
  fits (buffer c) -> shared_ok s ->
  leads c Scan s (fun _ => turn_end (process_buffer ord wr clock requirepass tx c s)).
Proof.
  intros Hf Hs. eapply leads_ext; [|by apply (leads_process (length (buffer c)))]. intros m.
  pose proof (process_ends ord wr clock requirepass tx clock_ticks (length (buffer c)) c s Hf Hs (le_n _)) as He.
  unfold goes_on, turn_end, process_buffer.
  destruct (process _ _ _ _ _ _ c s) as [[[f c1] s1]|x|]; cbn [mbind outcome_bind]; [|done|done].
  destruct He as (_ & _ & Hn). destruct f, m; done.
Qed.

(** ** The theorem *)

(** Cutting the connection at its shared accesses is faithful.  From any
    event of [select!], the accesses of the connection run one after the other
    end after finitely many steps, with exactly the outcome of the turn of
    [Connection.handle], panics included. *)
Theorem regions_refine_turn e c s :
  max_payload_size < isize_max -> Z.of_nat (length (buffer c)) <= max_payload_size -> shared_ok s ->
  exists n, forall m,
    (let '(c1, p1) := wake wr max_payload_size e c in drive (n + m) c1 p1 s)
    = turn_end (on_event ord wr clock requirepass max_payload_size tx e c s).
Proof.
  intros Hmax Hb Hs. assert (Hf : forall b, Z.of_nat (length b) <= max_payload_size -> fits b)
    by (unfold fits; intros b ?; lia).
  destruct e as [|data| |[|b0 data]]; cbn [wake on_event]; try (by exists 1%nat; intros [|m]).
  - destruct (is_downstream_replica c); [|by exists 1%nat].
    unfold reply_then, written_then. destruct (write_all wr data c) as [c1|] eqn:E; [|by exists 1%nat].
    apply leads_process_buffer; [|done]. unfold write_all in E. destruct (wr _); [|done].
    injection E as <-. by apply Hf.
  - destruct (max_payload_size <? _) eqn:E; [by exists 1%nat|].
    apply leads_process_buffer; [|done]. apply Z.ltb_ge in E. by apply Hf.
Qed.

End Theory.
