(* ===== verification/Replica.v ===== *)
(** * The replica's side: src/replication/replica.rs

    The handshake with the master and the loop that applies its stream.
    What the socket gives is a list of reads, one per [stream.read]: [Ok] of
    the bytes read (none at the end of the stream) or [Err] of the message of
    an I/O error.  A reader that has used up the list is [Blocked] in the
    next read.  Whether the socket takes the [i]-th write is [wr i]. *)

From S2P Require Import Prelude RustStd Str Resp Slot Storage StorageTheory Store Topology ReplState Commands.
Import Resp ReplState Commands.

Module Replica.

Abbreviation reads := (list (result bytes bytes)).

(** A reader's end: a value, with the reads left and the buffer after it. *)
Inductive reader (A : Type) : Type :=
| Done (a : A) (rs : reads) (buffer : bytes)
| Blocked (buffer : bytes).
Arguments Done {A} a rs buffer.
Arguments Blocked {A} buffer.

(** ** The readers of the handshake *)

Fixpoint read_simple_response (rs : reads) (buffer : bytes) : reader (result unit bytes) :=
  match find_crlf buffer with
  | Some pos => Done (Ok tt) rs (drop (pos + 2) buffer)
  | None =>
      match rs with
      | [] => Blocked buffer
      | Err e :: rest => Done (Err (b!"Socket read error: " ++ e)) rest buffer
      | Ok [] :: rest => Done (Err b!"Unexpected EOF from master") rest buffer
      | Ok data :: rest => read_simple_response rest (buffer ++ data)
      end
  end.

(** The line of the reply to PSYNC: the new replication id, if it has one. *)
Definition fullresync_line (line : bytes) : result (option bytes) bytes :=
  match Utf8.from_utf8 line with
  | Err e => Err (Utf8.utf8_error_to_string e)
  | Ok s =>
      if Str.starts_with b!"+FULLRESYNC" s
      then match Str.split_whitespace (Str.trim s) with
           | _ :: id :: _ :: _ => Ok (Some id)
           | _ => Ok None
           end
      else Err (b!"Expected +FULLRESYNC, got: " ++ Str.trim s)
  end.

Fixpoint read_fullresync_response (rs : reads) (buffer : bytes) : reader (result (option bytes) bytes) :=
  match find_crlf buffer with
  | Some pos => Done (fullresync_line (take (pos + 2) buffer)) rs (drop (pos + 2) buffer)
  | None =>
      match rs with
      | [] => Blocked buffer
      | Err e :: rest => Done (Err (b!"Socket read error: " ++ e)) rest buffer
      | Ok [] :: rest => Done (Err b!"Unexpected EOF reading FULLRESYNC") rest buffer
      | Ok data :: rest => read_fullresync_response rest (buffer ++ data)
      end
  end.

(** [while buffer.len() < rdb_len { .. }] and the payload's removal. *)
Fixpoint read_rdb_payload (rdb_len : Z) (rs : reads) (buffer : bytes) : reader (result unit bytes) :=
  if Z.of_nat (length buffer) <? rdb_len then
    match rs with
    | [] => Blocked buffer
    | Err e :: rest => Done (Err (b!"Error reading RDB: " ++ e)) rest buffer
    | Ok [] :: rest => Done (Err b!"EOF while reading RDB payload") rest buffer
    | Ok data :: rest => read_rdb_payload rdb_len rest (buffer ++ data)
    end
  else Done (Ok tt) rs (drop (Z.to_nat rdb_len) buffer).

(** The header [$<length>\r\n] starting with ['$'], once it is there. *)
Definition rdb_header (buffer : bytes) : option nat :=
  match buffer with
  | b :: _ => if Byte.eqb b "$" then find_crlf buffer else None
  | [] => None
  end.

Definition rdb_length (header : bytes) : result Z bytes :=
  match Utf8.from_utf8 header with
  | Err e => Err (Utf8.utf8_error_to_string e)
  | Ok len_str =>
      match Int.parse_usize len_str with
      | Err _ => Err b!"Invalid RDB length"
      | Ok n => Ok n
      end
  end.

Fixpoint read_rdb_file (rs : reads) (buffer : bytes) : reader (result unit bytes) :=
  match rdb_header buffer with
  | Some pos =>
      let rest := drop (pos + 2) buffer in
      match rdb_length (take (pos - 1) (drop 1 buffer)) with
      | Err e => Done (Err e) rs rest
      | Ok rdb_len => read_rdb_payload rdb_len rs rest
      end
  | None =>
      match rs with
      | [] => Blocked buffer
      | Err e :: rest => Done (Err (b!"Error reading RDB header: " ++ e)) rest buffer
      | Ok [] :: rest => Done (Err b!"EOF before RDB header") rest buffer
      | Ok data :: rest => read_rdb_file rest (buffer ++ data)
      end
  end.

(** ** The requests of the handshake *)

Definition bulk_text (s : bytes) : bytes :=
  b!"$" ++ Int.fmt_Z (Z.of_nat (length s)) ++ crlf ++ s ++ crlf.

Definition ping_request : bytes := b!"*1" ++ crlf ++ b!"$4" ++ crlf ++ b!"PING" ++ crlf.

Definition auth_request (pass : bytes) : bytes :=
  b!"*2" ++ crlf ++ b!"$4" ++ crlf ++ b!"AUTH" ++ crlf ++ bulk_text pass.

Definition replconf_port_request (my_port : Z) : bytes :=
  b!"*3" ++ crlf ++ b!"$8" ++ crlf ++ b!"REPLCONF" ++ crlf ++ b!"$14" ++ crlf ++ b!"listening-port" ++ crlf
  ++ bulk_text (Int.fmt_Z my_port).

Definition replconf_capa_request : bytes :=
  b!"*5" ++ crlf ++ b!"$8" ++ crlf ++ b!"REPLCONF" ++ crlf ++ b!"$4" ++ crlf ++ b!"capa" ++ crlf
  ++ b!"$3" ++ crlf ++ b!"eof" ++ crlf ++ b!"$4" ++ crlf ++ b!"capa" ++ crlf
  ++ b!"$6" ++ crlf ++ b!"psync2" ++ crlf.

Definition psync_request : bytes :=
  b!"*3" ++ crlf ++ b!"$5" ++ crlf ++ b!"PSYNC" ++ crlf ++ b!"$1" ++ crlf ++ b!"?" ++ crlf
  ++ b!"$2" ++ crlf ++ b!"-1" ++ crlf.

Definition ack_reply (offset : Z) : bytes :=
  b!"*3" ++ crlf ++ b!"$8" ++ crlf ++ b!"REPLCONF" ++ crlf ++ b!"$3" ++ crlf ++ b!"ACK" ++ crlf
  ++ bulk_text (Int.fmt_Z offset).

(** Where the task stands: the buffer, the writes made, the reads left. *)
Record Link : Type := {
  link_buffer : bytes;
  link_written : list bytes;
  link_reads : reads;
}.

(** How a step of the task ends: it goes on, waits in a read, or the task
    has logged an error and returned. *)
Inductive progress (A : Type) : Type :=
| Going (a : A) (l : Link)
| Waiting (l : Link)
| Stopped (l : Link).
Arguments Going {A} a l.
Arguments Waiting {A} l.
Arguments Stopped {A} l.

Section Task.
Context `{Platform} `{Store} `{Mpsc}.
Variable ord : Topology.node_order.
Variable wr : nat -> bool.
Variable clock : nat -> nat -> Z.

Definition after {A B} (p : progress A) (k : A -> Link -> progress B) : progress B :=
  match p with
  | Going a l => k a l
  | Waiting l => Waiting l
  | Stopped l => Stopped l
  end.

(** [stream.write_all(data).await], [return] on an error. *)
Definition send_request (data : bytes) (l : Link) : progress unit :=
  if wr (length (link_written l))
  then Going tt {| link_buffer := link_buffer l; link_written := link_written l ++ [data];
                   link_reads := link_reads l |}
  else Stopped l.

(** A reader of the handshake, [return] on an error. *)
Definition receive {A} (rd : reads -> bytes -> reader (result A bytes)) (l : Link) : progress A :=
  match rd (link_reads l) (link_buffer l) with
  | Done (Ok a) rs buffer =>
      Going a {| link_buffer := buffer; link_written := link_written l; link_reads := rs |}
  | Done (Err _) rs buffer =>
      Stopped {| link_buffer := buffer; link_written := link_written l; link_reads := rs |}
  | Blocked buffer =>
      Waiting {| link_buffer := buffer; link_written := link_written l; link_reads := [] |}
  end.

Definition exchange (data : bytes) (l : Link) : progress unit :=
  after (send_request data l) (fun _ l1 => receive read_simple_response l1).

(** Steps 1 to 4 of [run_replica_loop], up to the sending of PSYNC. *)
Definition hello (my_port : Z) (masterauth : option bytes) (l : Link) : progress unit :=
  after (exchange ping_request l) (fun _ l1 =>
  after (match masterauth with
         | Some pass => exchange (auth_request pass) l1
         | None => Going tt l1
         end) (fun _ l2 =>
  after (exchange (replconf_port_request my_port) l2) (fun _ l3 =>
  after (exchange replconf_capa_request l3) (fun _ l4 =>
  send_request psync_request l4)))).

(** The reply to PSYNC and the snapshot (steps 4 and 5): where the task is
    and the shared state, in which the replication id is set as soon as the
    reply is read. *)
Definition full_resync (l : Link) (s : Shared) : progress unit * Shared :=
  match receive read_fullresync_response l with
  | Going id l1 =>
      let s1 := match id with
                | Some id => with_repl (set_replid id (repl s), chans s) s
                | None => s
                end in
      (receive read_rdb_file l1, s1)
  | Waiting l1 => (Waiting l1, s)
  | Stopped l1 => (Stopped l1, s)
  end.

Definition handshake (my_port : Z) (masterauth : option bytes) (l : Link) (s : Shared)
    : progress unit * Shared :=
  match hello my_port masterauth l with
  | Going _ l1 => full_resync l1 s
  | Waiting l1 => (Waiting l1, s)
  | Stopped l1 => (Stopped l1, s)
  end.

(** ** The stream *)

Record Stream : Type := {
  s_buffer : bytes;
  total_bytes_processed : Z;
  s_written : list bytes;
  s_served : nat;
}.

Inductive turn : Type :=
| Again      (** the loop over the buffer goes on *)
| More       (** it stops for more bytes *)
| Gone       (** the task has returned *)
.

(** [cmd.execute(&db, &repl_state, None, None, &mut auth_ok, None)]. *)
Definition apply_command (cmd : Command) (n : nat) (s : Shared) : outcome Shared :=
  let bare := {| db := db s; repl := repl s; chans := chans s; cluster := None |} in
  '(_, _, s1) ← execute ord cmd None None (clock n) true bare;
  Ret {| db := db s1; repl := repl s1; chans := chans s1; cluster := cluster s |}.

(** [total += consumed] and the store of the offset. *)
Definition advance (consumed : Z) (st : Stream) (s : Shared) : outcome (Stream * Shared) :=
  total ← add_usize (total_bytes_processed st) consumed;
  Ret ({| s_buffer := s_buffer st; total_bytes_processed := total; s_written := s_written st;
          s_served := s_served st |},
       with_repl (store_processed total (repl s), chans s) s).

Definition is_getack (args : list bytes) : bool :=
  match args with
  | a :: _ => bool_decide (Str.to_ascii_uppercase a = b!"GETACK")
  | [] => false
  end.

(** A frame of [consumed] bytes taken off the buffer. *)
Definition apply_value (v : Value) (consumed : Z) (st : Stream) (s : Shared)
    : outcome (turn * Stream * Shared) :=
  match from_value v with
  | Ok (ReplConf args) =>
      '(st1, s1) ← advance consumed st s;
      if is_getack args then
        if wr (length (s_written st1))
        then Ret (Again, {| s_buffer := s_buffer st1; total_bytes_processed := total_bytes_processed st1;
               s_written := s_written st1 ++ [ack_reply (total_bytes_processed st1)];
               s_served := s_served st1 |}, s1)
        else Ret (Gone, st1, s1)
      else Ret (Again, st1, s1)
  | Ok cmd =>
      s1 ← apply_command cmd (s_served st) s;
      '(st1, s2) ← advance consumed st s1;
      Ret (Again, st1, s2)
  | Err _ => '(st1, s1) ← advance consumed st s; Ret (Again, st1, s1)
  end.

Definition with_buffer (b : bytes) (st : Stream) : Stream := {|
  s_buffer := b; total_bytes_processed := total_bytes_processed st;
  s_written := s_written st; s_served := s_served st |}.

Definition count_served (st : Stream) : Stream := {|
  s_buffer := s_buffer st; total_bytes_processed := total_bytes_processed st;
  s_written := s_written st; s_served := S (s_served st) |}.

(** One iteration of [while !buffer.is_empty()]. *)
Definition stream_one (st : Stream) (s : Shared) : outcome (turn * Stream * Shared) :=
  '(r, cursor) ← parse (s_buffer st);
  match r with
  | Ok (Some v) =>
      consumed ← sub_usize (Z.of_nat (length (s_buffer st))) (Z.of_nat (length cursor));
      rest ← slice_from (Z.to_nat consumed) (s_buffer st);
      '(t, st1, s1) ← apply_value v consumed (with_buffer rest st) s;
      Ret (t, count_served st1, s1)
  | Ok None => Ret (More, st, s)
  | Err _ => rest ← slice_from 1 (s_buffer st); Ret (More, with_buffer rest st, s)
  end.

Fixpoint stream_buffer (fuel : nat) (st : Stream) (s : Shared) : outcome (turn * Stream * Shared) :=
  match s_buffer st with
  | [] => Ret (More, st, s)
  | _ :: _ =>
      match fuel with
      | O => NoFuel
      | S n =>
          '(t, st1, s1) ← stream_one st s;
          match t with
          | Again => stream_buffer n st1 s1
          | _ => Ret (t, st1, s1)
          end
      end
  end.

(** Step 6: the buffer, then a read, until the stream ends ([Gone]) or the
    reads given are used up ([More]). *)
Fixpoint stream_loop (rs : reads) (st : Stream) (s : Shared) : outcome (turn * Stream * Shared) :=
  '(t, st1, s1) ← stream_buffer (length (s_buffer st)) st s;
  match t with
  | Gone => Ret (Gone, st1, s1)
  | _ =>
      match rs with
      | [] => Ret (More, st1, s1)
      | Err _ :: _ => Ret (Gone, st1, s1)
      | Ok [] :: _ => Ret (Gone, st1, s1)
      | Ok data :: rest => stream_loop rest (with_buffer (s_buffer st1 ++ data) st1) s1
      end
  end.

(** The whole task once connected. *)
Definition run_replica_loop (my_port : Z) (masterauth : option bytes) (rs : reads) (s : Shared)
    : outcome (turn * option Stream * Shared) :=
  match handshake my_port masterauth {| link_buffer := []; link_written := []; link_reads := rs |} s with
  | (Stopped _, s1) => Ret (Gone, None, s1)
  | (Waiting _, s1) => Ret (More, None, s1)
  | (Going _ l, s1) =>
      '(t, st, s2) ← stream_loop (link_reads l)
        {| s_buffer := link_buffer l; total_bytes_processed := 0; s_written := link_written l;
           s_served := 0%nat |} s1;
      Ret (t, Some st, s2)
  end.

End Task.
End Replica.
