(* ===== verification/ReplicaTheory.v ===== *)
(** * Replicas converge

    The replica's handshake succeeds against this server's own replies
    however they are cut into reads, and a replica that is fed the stream of
    a master ends with the master's data and offset. *)

From S2P Require Import Prelude RustStd Str Resp RespTheory Slot Storage StorageTheory Store.
From S2P Require Import Topology TopologyTheory ReplState ReplTheory Commands CommandsTheory Connection ConnectionTheory.
From S2P Require Import Replica.
Import Resp ReplState Commands Replica.

(** ** Lines that arrive in pieces *)

Abbreviation received ds := (Ok (E := bytes) <$> ds).

Definition nonempty (ds : list bytes) : Prop := Forall (fun d => d <> []) ds.

Lemma find_crlf_line line rest : no_crlf line = true -> find_crlf (line ++ crlf ++ rest) = Some (length line).
Proof.
  intros Hl. rewrite app_assoc. apply find_crlf_app. by apply bool_decide_eq_true in Hl.
Qed.

Lemma no_crlf_no_cr s : Forall (fun b => b <> CR) s -> no_crlf s = true.
Proof. induction 1 as [|b s Hb _ IH]; [done|]. by apply no_crlf_cons. Qed.

(** The first line of a stream of which [buffer] is the beginning. *)
Lemma first_line buffer more line rest :
  buffer ++ more = line ++ crlf ++ rest -> no_crlf line = true ->
  match find_crlf buffer with
  | Some pos => pos = length line /\ take (pos + 2) buffer = line ++ crlf /\ drop (pos + 2) buffer ++ more = rest
  | None => more <> []
  end.
Proof.
  intros Hs Hl. pose proof (find_crlf_line line rest Hl) as Hf. rewrite <- Hs in Hf.
  destruct (find_crlf buffer) as [pos|] eqn:E.
  - pose proof (find_crlf_bound _ _ E) as Hb. rewrite (find_crlf_app _ more _ E) in Hf. injection Hf as ->.
    split; [done|]. split.
    + rewrite <- (take_app_le buffer more) by lia. rewrite Hs, app_assoc.
      apply take_length_app. by rewrite length_app.
    + rewrite <- drop_app_le by lia. rewrite Hs, app_assoc. apply drop_length_app. by rewrite length_app.
  - intros ->. rewrite app_nil_r in Hf. congruence.
Qed.

Lemma read_simple_line ds buffer line rest :
  nonempty ds -> buffer ++ concat ds = line ++ crlf ++ rest -> no_crlf line = true ->
  exists ds' b', read_simple_response (received ds) buffer = Done (Ok tt) (received ds') b'
    /\ nonempty ds' /\ b' ++ concat ds' = rest.
Proof.
  intros Hds. revert buffer. induction Hds as [|d ds Hd Hds IH]; intros buffer Hs Hl;
    pose proof (first_line _ _ _ _ Hs Hl) as Hfl; cbn [fmap list_fmap read_simple_response];
    destruct (find_crlf buffer) as [pos|] eqn:E.
  - destruct Hfl as (_ & _ & Hr). exists [], (drop (pos + 2) buffer). by split_and!; [|constructor|].
  - done.
  - destruct Hfl as (_ & _ & Hr). exists (d :: ds), (drop (pos + 2) buffer). by split_and!; [|constructor|].
  - destruct d as [|b d]; [done|]. apply IH; [|done]. by rewrite <- app_assoc.
Qed.

Lemma read_fullresync_line ds buffer line rest :
  nonempty ds -> buffer ++ concat ds = line ++ crlf ++ rest -> no_crlf line = true ->
  exists ds' b', read_fullresync_response (received ds) buffer
      = Done (fullresync_line (line ++ crlf)) (received ds') b'
    /\ nonempty ds' /\ b' ++ concat ds' = rest.
Proof.
  intros Hds. revert buffer. induction Hds as [|d ds Hd Hds IH]; intros buffer Hs Hl;
    pose proof (first_line _ _ _ _ Hs Hl) as Hfl; cbn [fmap list_fmap read_fullresync_response];
    destruct (find_crlf buffer) as [pos|] eqn:E.
  - destruct Hfl as (_ & -> & Hr). exists [], (drop (pos + 2) buffer). by split_and!; [|constructor|].
  - done.
  - destruct Hfl as (_ & -> & Hr). exists (d :: ds), (drop (pos + 2) buffer). by split_and!; [|constructor|].
  - destruct d as [|b d]; [done|]. apply IH; [|done]. by rewrite <- app_assoc.
Qed.

Lemma read_payload ds buffer payload rest :
  nonempty ds -> buffer ++ concat ds = payload ++ rest ->
  exists ds' b', read_rdb_payload (Z.of_nat (length payload)) (received ds) buffer = Done (Ok tt) (received ds') b'
    /\ nonempty ds' /\ b' ++ concat ds' = rest.
Proof.
  intros Hds. revert buffer. induction Hds as [|d ds Hd Hds IH]; intros buffer Hs;
    cbn [fmap list_fmap read_rdb_payload];
    destruct (Z.ltb_spec (Z.of_nat (length buffer)) (Z.of_nat (length payload))) as [Hlt|Hge].
  - cbn in Hs. rewrite app_nil_r in Hs. subst buffer. rewrite length_app in Hlt. lia.
  - rewrite Nat2Z.id. exists [], (drop (length payload) buffer). split_and!; [done|constructor|].
    rewrite <- drop_app_le by lia. rewrite Hs. by apply drop_length_app.
  - destruct d as [|b d]; [done|]. apply IH. by rewrite <- app_assoc.
  - rewrite Nat2Z.id. exists (d :: ds), (drop (length payload) buffer). split_and!; [done|by constructor|].
    rewrite <- drop_app_le by lia. rewrite Hs. by apply drop_length_app.
Qed.

(** The header of the snapshot. *)
Lemma snapshot_header buffer more num tail :
  buffer ++ more = b!"$" ++ num ++ crlf ++ tail -> no_crlf (b!"$" ++ num) = true ->
  match rdb_header buffer with
  | Some pos => take (pos - 1) (drop 1 buffer) = num /\ drop (pos + 2) buffer ++ more = tail
  | None => more <> []
  end.
Proof.
  intros Hs Hl. pose proof Hs as Hs0. rewrite app_assoc in Hs0.
  pose proof (first_line _ _ _ _ Hs0 Hl) as Hfl. destruct buffer as [|c buffer]; cbn [rdb_header].
  - intros ->. done.
  - assert (c = "$"%byte) as -> by (by injection Hs). rewrite byte_eqb_refl.
    destruct (find_crlf _) as [pos|]; [|done]. destruct Hfl as (-> & Ht & Hr). split; [|done].
    rewrite <- (take_drop (length (b!"$" ++ num) + 2) (_ :: buffer)), Ht, <- app_assoc.
    cbn [String.list_byte_of_string app length drop]. rewrite Nat.sub_1_r. cbn [pred].
    by apply take_length_app.
Qed.

Lemma read_snapshot ds buffer payload rest :
  nonempty ds -> Z.of_nat (length payload) <= usize_max ->
  buffer ++ concat ds = b!"$" ++ Int.fmt_Z (Z.of_nat (length payload)) ++ crlf ++ payload ++ rest ->
  exists ds' b', read_rdb_file (received ds) buffer = Done (Ok tt) (received ds') b'
    /\ nonempty ds' /\ b' ++ concat ds' = rest.
Proof.
  intros Hds Hmax. set (num := Int.fmt_Z (Z.of_nat (length payload))).
  assert (Hnum : rdb_length num = Ok (Z.of_nat (length payload))).
  { unfold rdb_length, num. rewrite Utf8.from_utf8_valid by apply Utf8.valid_fmt_Z.
    unfold Int.parse_usize. rewrite Int.parse_fmt_Z; [done|lia|unfold usize_max, u64_max; lia]. }
  assert (Hline : no_crlf (b!"$" ++ num) = true).
  { apply no_crlf_cons; [done|]. unfold num. auto with rust. }
  revert buffer. induction Hds as [|d ds Hd Hds IH]; intros buffer Hs; cbn [fmap list_fmap read_rdb_file];
    pose proof (snapshot_header _ _ _ _ Hs Hline) as Hh; destruct (rdb_header buffer) as [pos|].
  - destruct Hh as [-> Hr]. rewrite Hnum. apply (read_payload []); [constructor|done].
  - done.
  - destruct Hh as [-> Hr]. rewrite Hnum. apply (read_payload (d :: ds)); [by constructor|done].
  - destruct d as [|b d]; [done|]. apply IH. by rewrite <- app_assoc.
Qed.

(** ** The handshake *)

(** The requests are the wire forms of the commands they mean. *)
Lemma requests_are_commands pass port :
  ping_request = serialize (wire_value (Ping None)) []
  /\ auth_request pass = serialize (wire_value (Auth None pass)) []
  /\ replconf_port_request port
     = serialize (wire_value (ReplConf [b!"listening-port"; Int.fmt_Z port])) []
  /\ replconf_capa_request
     = serialize (wire_value (ReplConf [b!"capa"; b!"eof"; b!"capa"; b!"psync2"])) []
  /\ psync_request = serialize (wire_value (Psync b!"?" b!"-1")) [].
Proof.
  unfold auth_request, replconf_port_request, bulk_text. split_and!; reflexivity.
Qed.

(** What this server's connection answers to a replica: PONG, or a refusal
    when the replica has yet to give the password; an OK per configuration
    command; the full resync with its snapshot. *)
Definition greeting (masterauth : option bytes) : bytes :=
  match masterauth with
  | None => b!"+PONG"
  | Some _ => b!"-ERR NOAUTH Authentication required."
  end.

Definition master_replies (masterauth : option bytes) (replid rdb : bytes) : bytes :=
  greeting masterauth ++ crlf
  ++ (match masterauth with Some _ => b!"+OK" ++ crlf | None => [] end)
  ++ b!"+OK" ++ crlf ++ b!"+OK" ++ crlf
  ++ (b!"+FULLRESYNC " ++ replid ++ b!" 0") ++ crlf
  ++ b!"$" ++ Int.fmt_Z (Z.of_nat (length rdb)) ++ crlf ++ rdb.

(** The text of the reply to PSYNC is read as the id it carries. *)
Lemma words_visible v cur rest :
  Forall Str.visible v -> Str.words cur (v ++ rest) = Str.words (reverse v ++ cur) rest.
Proof.
  intros Hv. revert cur. induction Hv as [|b v Hb Hv IH]; intros cur; [done|].
  rewrite reverse_cons, <- app_assoc. cbn [app]. rewrite <- IH.
  destruct (v ++ rest) as [|b1 [|b2 r]]; cbn [Str.words]; rewrite ?Str.visible_ws1, ?Str.visible_ws2, ?Str.visible_ws3 by auto; done.
Qed.

Lemma words_space cur rest : Str.words cur (" "%byte :: rest) = Str.flush cur (Str.words [] rest).
Proof. by destruct rest as [|b1 [|b2 r]]. Qed.

Lemma words_space_visible v rest :
  Forall Str.visible v -> v <> [] -> Str.words [] (v ++ " "%byte :: rest) = v :: Str.words [] rest.
Proof.
  intros Hv Hne. rewrite words_visible, words_space, app_nil_r by done. unfold Str.flush.
  destruct (reverse v) as [|b r] eqn:E; [apply (f_equal reverse) in E; rewrite reverse_involutive in E; done|].
  by rewrite <- E, reverse_involutive.
Qed.

Lemma trim_line s b0 b1 m :
  s = b0 :: m -> last s = Some b1 -> Str.visible b0 -> Str.visible b1 -> Str.trim (s ++ crlf) = s.
Proof.
  intros -> Hl H0 H1. unfold Str.trim. cbn [app]. rewrite Str.trim_start_visible by done.
  change (b0 :: m ++ crlf) with ((b0 :: m) ++ crlf). unfold Str.trim_end. rewrite reverse_app.
  change (reverse crlf) with [LF; CR]. apply last_Some in Hl as [l Hl]. rewrite Hl.
  rewrite reverse_app. cbn [reverse rev_append app]. change (reverse [b1]) with [b1].
  assert (Hws : forall t, Str.trim_start_rev (LF :: CR :: t) = Str.trim_start_rev t) by done.
  rewrite Hws. cbn [app]. rewrite Str.trim_start_rev_visible by done.
  change (b1 :: reverse l) with ([b1] ++ reverse l). by rewrite reverse_app, reverse_involutive.
Qed.

Lemma fullresync_reply replid :
  Forall Str.visible replid -> replid <> [] ->
  fullresync_line ((b!"+FULLRESYNC " ++ replid ++ b!" 0") ++ crlf) = Ok (Some replid).
Proof.
  intros Hv Hne. set (line := b!"+FULLRESYNC " ++ replid ++ b!" 0"). unfold fullresync_line.
  rewrite Utf8.from_utf8_valid.
  2:{ apply Utf8.valid_ascii. unfold line. repeat (apply Forall_app; split); try (repeat constructor; fail).
      eapply Forall_impl; [exact Hv|]. unfold Str.visible. lia. }
  assert (Str.starts_with b!"+FULLRESYNC" (line ++ crlf) = true) as -> by reflexivity.
  assert (Str.trim (line ++ crlf) = line) as ->.
  { eapply (trim_line line "+"%byte "0"%byte); [reflexivity| |by vm_compute|by vm_compute].
    unfold line. change (b!" 0") with ([" "%byte] ++ ["0"%byte]). rewrite !app_assoc. apply last_snoc. }
  unfold Str.split_whitespace, line.
  change (b!"+FULLRESYNC " ++ replid ++ b!" 0") with (b!"+FULLRESYNC" ++ " "%byte :: replid ++ " "%byte :: b!"0").
  rewrite !words_space_visible; [done|done|done|repeat constructor; by vm_compute|done].
Qed.

Section Handshake.
Context `{StoreLaws} `{MpscLaws}.
Variable wr : nat -> bool.

Lemma exchange_line data l line rest ds :
  (forall i, wr i = true) -> link_reads l = received ds -> nonempty ds ->
  link_buffer l ++ concat ds = line ++ crlf ++ rest -> no_crlf line = true ->
  exists ds' b', exchange wr data l
      = Going tt {| link_buffer := b'; link_written := link_written l ++ [data]; link_reads := received ds' |}
    /\ nonempty ds' /\ b' ++ concat ds' = rest.
Proof.
  intros Hwr Hr Hds Hs Hl. unfold exchange, send_request. rewrite Hwr. cbn [after].
  destruct (read_simple_line ds (link_buffer l) line rest Hds Hs Hl) as (ds' & b' & Hrd & Hrest).
  unfold receive. cbn. rewrite Hr, Hrd. by exists ds', b'.
Qed.

(** What the replica has sent once the handshake is over. *)
Definition requests (my_port : Z) (masterauth : option bytes) : list bytes :=
  ping_request :: (match masterauth with Some pass => [auth_request pass] | None => [] end)
  ++ [replconf_port_request my_port; replconf_capa_request; psync_request].

Lemma hello_ok my_port masterauth ds rest :
  (forall i, wr i = true) -> nonempty ds ->
  concat ds = greeting masterauth ++ crlf
    ++ (match masterauth with Some _ => b!"+OK" ++ crlf | None => [] end)
    ++ b!"+OK" ++ crlf ++ b!"+OK" ++ crlf ++ rest ->
  exists ds' b', hello wr my_port masterauth {| link_buffer := []; link_written := []; link_reads := received ds |}
      = Going tt {| link_buffer := b'; link_written := requests my_port masterauth; link_reads := received ds' |}
    /\ nonempty ds' /\ b' ++ concat ds' = rest.
Proof.
  intros Hwr Hds Hs. unfold hello.
  destruct (exchange_line ping_request {| link_buffer := []; link_written := []; link_reads := received ds |}
    (greeting masterauth) _ ds Hwr eq_refl Hds Hs ltac:(by destruct masterauth)) as (ds1 & b1 & -> & Hds1 & Hs1). cbn [after link_written app].
  assert (Hauth : exists ds2 b2, match masterauth with
      | Some pass => exchange wr (auth_request pass)
          {| link_buffer := b1; link_written := [ping_request]; link_reads := received ds1 |}
      | None => Going tt {| link_buffer := b1; link_written := [ping_request]; link_reads := received ds1 |}
      end = Going tt {| link_buffer := b2;
              link_written := ping_request :: match masterauth with Some pass => [auth_request pass] | None => [] end;
              link_reads := received ds2 |}
    /\ nonempty ds2 /\ b2 ++ concat ds2 = b!"+OK" ++ crlf ++ b!"+OK" ++ crlf ++ rest).
  { destruct masterauth as [pass|]; [|by exists ds1, b1].
    rewrite <- app_assoc in Hs1.
    by destruct (exchange_line (auth_request pass)
      {| link_buffer := b1; link_written := [ping_request]; link_reads := received ds1 |}
      b!"+OK" _ ds1 Hwr eq_refl Hds1 Hs1 eq_refl) as (ds2 & b2 & -> & Hx); exists ds2, b2. }
  destruct Hauth as (ds2 & b2 & -> & Hds2 & Hs2). cbn [after].
  destruct (exchange_line (replconf_port_request my_port) _ b!"+OK" _ ds2 Hwr (eq_refl : link_reads
    {| link_buffer := b2; link_written := ping_request :: match masterauth with Some pass => [auth_request pass] | None => [] end;
       link_reads := received ds2 |} = _) Hds2 Hs2 eq_refl) as (ds3 & b3 & -> & Hds3 & Hs3).
  cbn [after link_written].
  destruct (exchange_line replconf_capa_request _ b!"+OK" _ ds3 Hwr (eq_refl : link_reads
    {| link_buffer := b3; link_written := (ping_request :: match masterauth with Some pass => [auth_request pass] | None => [] end)
         ++ [replconf_port_request my_port];
       link_reads := received ds3 |} = _) Hds3 Hs3 eq_refl) as (ds4 & b4 & -> & Hds4 & Hs4).
  cbn [after link_written]. unfold send_request. rewrite Hwr. cbn [link_buffer link_written link_reads].
  exists ds4, b4. split_and!; [|done|done]. unfold requests. do 2 f_equal. cbn [app]. f_equal. by rewrite <- !app_assoc.
Qed.

Lemma handshake_ok my_port masterauth replid rdb ds rest (s : Shared) :
  (forall i, wr i = true) -> Forall Str.visible replid -> replid <> [] -> Z.of_nat (length rdb) <= usize_max ->
  nonempty ds -> concat ds = master_replies masterauth replid rdb ++ rest ->
  exists ds' b', handshake wr my_port masterauth {| link_buffer := []; link_written := []; link_reads := received ds |} s
      = (Going tt {| link_buffer := b'; link_written := requests my_port masterauth; link_reads := received ds' |},
         with_repl (set_replid replid (repl s), chans s) s)
    /\ nonempty ds' /\ b' ++ concat ds' = rest.
Proof.
  intros Hwr Hv Hne Hmax Hds Hs. unfold master_replies in Hs. rewrite <- !app_assoc in Hs. unfold handshake.
  destruct (hello_ok my_port masterauth ds _ Hwr Hds Hs) as (ds1 & b1 & -> & Hds1 & Hs1).
  unfold full_resync, receive at 1. cbn [link_reads link_buffer].
  assert (Hline : no_crlf (b!"+FULLRESYNC " ++ replid ++ b!" 0") = true).
  { apply no_crlf_no_cr. repeat (apply Forall_app; split); try (repeat constructor; discriminate).
    eapply Forall_impl; [exact Hv|]. intros x Hx ->. destruct Hx as [Hx _]. by vm_compute in Hx. }
  destruct (read_fullresync_line ds1 b1 (b!"+FULLRESYNC " ++ replid ++ b!" 0")
    (b!"$" ++ Int.fmt_Z (Z.of_nat (length rdb)) ++ crlf ++ rdb ++ rest) Hds1) as (ds2 & b2 & -> & Hds2 & Hs2);
    [by rewrite <- !app_assoc|done|].
  rewrite fullresync_reply by done. unfold receive. cbn [link_reads link_buffer link_written].
  destruct (read_snapshot ds2 b2 rdb rest Hds2 Hmax Hs2) as (ds3 & b3 & -> & Hds3 & Hs3). by exists ds3, b3.
Qed.

End Handshake.

(** ** The data as commands change it *)

Section Converge.
Context `{StoreLaws} `{MpscLaws}.
Variable ord : Topology.node_order.

(** What can be seen in the store. *)
Abbreviation view := (bytes -> option bytes).

Definition view_after (c : Command) (f : view) : view := fun k =>
  match c with
  | Set_ k0 v _ => if decide (k = k0) then Some v else f k
  | Del ks => if decide (k ∈ ks) then None else f k
  | _ => f k
  end.

Definition views_after (cs : list Command) (f : view) : view := fold_left (fun f c => view_after c f) cs f.

(** Commands without relative expiry, which each server would count from its
    own clock. *)
Definition plain (c : Command) : Prop :=
  match c with
  | Set_ _ _ (Some _) => False
  | _ => True
  end.

Definition mutates (c : Command) : bool :=
  match c with
  | Set_ _ _ _ | Del _ => true
  | _ => false
  end.

Lemma view_after_ext c f g k : f k = g k -> view_after c f k = view_after c g k.
Proof. intros Hfg. destruct c; cbn; by rewrite ?Hfg. Qed.

Lemma views_after_ext cs f g k : f k = g k -> views_after cs f k = views_after cs g k.
Proof.
  revert f g. induction cs as [|c cs IH]; intros f g Hfg; [done|]. cbn. apply IH. by apply view_after_ext.
Qed.

Lemma views_after_cons c cs f : views_after (c :: cs) f = views_after cs (view_after c f).
Proof. done. Qed.

(** A data command's effect on what is seen from [T] on. *)
Lemma data_spec_view c clock m r m' T t k :
  data_spec c clock True m r m' -> plain c -> (forall i, clock i <= T) -> T <= t ->
  seen m' t k = view_after c (seen m t) k.
Proof.
  intros Hd Hp HT Ht. destruct c as [[]|msg|k0|k0 v px|ks|ks|p|o|args|a b|u p|sub| |]; cbn in Hd |- *; subst; try done.
  - apply Hd. etransitivity; [apply HT|done].
  - destruct Hd as (_ & kept & _ & Heq & ->). rewrite Heq by done. destruct px as [ms|]; [done|].
    unfold seen. destruct (decide (k = k0)) as [->|Hne]; [by rewrite lookup_insert_eq|by rewrite lookup_insert_ne].
  - destruct Hd as (_ & Hk). unfold seen. rewrite Hk. by case_decide.
  - apply Hd. etransitivity; [apply HT|done].
  - by destruct Hd as [-> _].
Qed.

(** A command that was not propagated changed nothing that is seen. *)
Lemma data_spec_ineffective c clock m r m' t k :
  data_spec c clock True m r m' -> effective c r = false -> view_after c (seen m t) k = seen m t k.
Proof.
  intros Hd He. destruct c; cbn in *; try done; destruct Hd as (-> & Hd); cbn in He; [done|].
  case_decide as Hk; [|done]. apply Z.ltb_ge in He. unfold seen.
  destruct (m !! k) eqn:E; [|done]. exfalso.
  assert (Hin : k ∈ dom m ∩ (list_to_set keys : gset bytes)).
  { apply elem_of_intersection. split; [apply elem_of_dom; by rewrite E|by apply elem_of_list_to_set]. }
  assert (size (dom m ∩ (list_to_set keys : gset bytes)) = 0%nat) as Hz by lia.
  apply size_empty_inv in Hz. set_solver.
Qed.

(** ** The master's side *)

(** Commands run one after the other, with the bytes they were read from. *)
Fixpoint run_all (clock : nat -> nat -> Z) (i : nat) (rcs : list (bytes * Command)) (s : Shared) : outcome Shared :=
  match rcs with
  | [] => Ret s
  | (raw, c) :: rest =>
      '(_, _, s1) ← execute ord c (Some raw) None (clock i) true s;
      run_all clock (S i) rest s1
  end.

(** What was propagated: the commands and their bytes, in order. *)
Definition propagate_all (raws : list bytes) (rw : ReplicationState * channels) : ReplicationState * channels :=
  fold_left (fun '(rs, w) raw => propagate_downstream raw rs w) raws rw.

Lemma data_spec_free c clock (P : Prop) m r m' : P -> data_spec c clock P m r m' -> data_spec c clock True m r m'.
Proof. intros HP. destruct c; cbn; try done. intros (? & kept & ? & ? & ?). split; [done|]. exists kept. auto. Qed.

Lemma plain_no_overflow c clock : plain c -> (match c with Cluster (Sub.Meet _ p) => p + 10000 <= u16_max | _ => True end) ->
  no_overflow c clock.
Proof. destruct c as [| | |k v [ms|]| | | | | | | |sub| |]; cbn; try done. destruct sub; by try left. Qed.

(** The commands a run may have: well typed, plain, and not a MEET whose
    port overflows. *)
Definition runnable (c : Command) : Prop :=
  cmd_ok c /\ plain c /\ (match c with Cluster (Sub.Meet _ p) => p + 10000 <= u16_max | _ => True end).

Lemma propagate_role raw rs w : role (fst (propagate_downstream raw rs w)) = role rs.
Proof. unfold propagate_downstream. by destruct (retain_sent _ _ _). Qed.

(** One command on a master: what it propagates and what is seen after it. *)
Lemma master_step raw c clock s T :
  shared_ok s -> unbounded (db s) -> is_replica (repl s) = false -> runnable c ->
  ticking clock -> (forall i, clock i <= T) ->
  exists r a s', execute ord c (Some raw) None clock true s = Ret (r, a, s')
    /\ shared_ok s' /\ unbounded (db s')
    /\ (repl s', chans s') = (if effective c r then propagate_downstream raw (repl s) (chans s) else (repl s, chans s))
    /\ (effective c r = true -> mutates c = true)
    /\ forall t k, T <= t -> seen (contents (db s')) t k
         = (if effective c r then view_after c (seen (contents (db s)) t) else seen (contents (db s)) t) k.
Proof.
  intros Hs Hu Hm (Hc & Hp & Hmeet) Htick HT.
  destruct (run_spec ord c (Some raw) clock true s Hs Hc Htick (plain_no_overflow c clock Hp Hmeet))
    as (r & s' & Hr & Hs' & Hu' & Hd). apply data_spec_free in Hd; [|done].
  exists r, (match c with Auth _ _ => true | _ => true end), s'. rewrite execute_allowed by done.
  split_and!; [done|done|auto| | |].
  - pose proof (run_propagation ord c (Some raw) clock true s r _ s' Hr) as Hpr. by rewrite Hm in Hpr.
  - destruct c; try done. 
  - intros t k Ht. rewrite (data_spec_view c clock _ r _ T t k Hd Hp HT Ht).
    destruct (effective c r) eqn:E; [done|]. by apply (data_spec_ineffective c clock _ r (contents (db s'))).
Qed.

Lemma master_log clock T rcs i s :
  shared_ok s -> unbounded (db s) -> is_replica (repl s) = false ->
  Forall (fun rc => runnable (snd rc)) rcs ->
  (forall n, ticking (clock n)) -> (forall n j, clock n j <= T) ->
  exists s' log, run_all clock i rcs s = Ret s' /\ shared_ok s' /\ log `sublist_of` rcs
    /\ Forall (fun rc => mutates (snd rc) = true) log
    /\ (repl s', chans s') = propagate_all log.*1 (repl s, chans s)
    /\ forall t k, T <= t -> seen (contents (db s')) t k = views_after log.*2 (seen (contents (db s)) t) k.
Proof.
  intros Hs Hu Hm Hrcs Htick HT. revert i s Hs Hu Hm.
  induction Hrcs as [|[raw c] rcs Hc _ IH]; intros i s Hs Hu Hm; cbn [run_all].
  - exists s, []. by split_and!.
  - destruct (master_step raw c (clock i) s T Hs Hu Hm Hc (Htick i) (HT i))
      as (r & a & s1 & -> & Hs1 & Hu1 & Hrepl & Hmut & Hview). cbn [mbind outcome_bind].
    assert (Hm1 : is_replica (repl s1) = false).
    { apply (f_equal fst) in Hrepl. cbn in Hrepl. rewrite Hrepl. destruct (effective c r); [|done].
      unfold is_replica. by rewrite propagate_role. }
    destruct (IH (S i) s1 Hs1 Hu1 Hm1) as (s' & log & Hrun & Hs' & Hsub & Hall & Hrepl' & Hview').
    destruct (effective c r).
    + exists s', ((raw, c) :: log). split_and!; [done|done|by apply sublist_skip|by constructor; [apply Hmut|]| |].
      * rewrite Hrepl', Hrepl. cbn. by destruct (propagate_downstream _ _ _).
      * intros t k Ht. rewrite (Hview' t k Ht). cbn [fmap list_fmap snd]. rewrite views_after_cons.
        apply views_after_ext. by apply Hview.
    + exists s', log. split_and!; [done|done|by apply sublist_cons|done|by rewrite Hrepl', Hrepl|].
      intros t k Ht. rewrite (Hview' t k Ht). apply views_after_ext. by apply Hview.
Qed.

(** ** The replica's side *)

Variable wr : nat -> bool.
Variable rclock : nat -> nat -> Z.

(** The bytes [raw] are a frame of the command [c]. *)
Definition reads_as (raw : bytes) (c : Command) : Prop := exists v, frame raw v /\ from_value v = Ok c.

(** The replica's state after applying [cs] and [n] bytes of the stream. *)
Record applied (T : Z) (cs : list Command) (n : Z) (st : Stream) (s : Shared) (st' : Stream) (s' : Shared) : Prop := {
  ap_ok : shared_ok s';
  ap_unbounded : unbounded (db s');
  ap_total : total_bytes_processed st' = total_bytes_processed st + n;
  ap_offset : replica_bytes_processed (repl s') = total_bytes_processed st' \/ (cs = [] /\ s' = s);
  ap_view t k : T <= t -> seen (contents (db s')) t k = views_after cs (seen (contents (db s)) t) k;
}.

Lemma applied_nil T st s : shared_ok s -> unbounded (db s) -> applied T [] 0 st s st s.
Proof. intros Hs Hu. constructor; try done; [lia|by right]. Qed.

Lemma applied_app T cs1 n1 cs2 n2 st s st1 s1 st2 s2 :
  applied T cs1 n1 st s st1 s1 -> applied T cs2 n2 st1 s1 st2 s2 -> n2 = 0 \/ cs2 <> [] ->
  applied T (cs1 ++ cs2) (n1 + n2) st s st2 s2.
Proof.
  intros [Ho1 Hu1 Ht1 Hf1 Hv1] [Ho2 Hu2 Ht2 Hf2 Hv2] Hn. constructor; [done|done|lia| |].
  - destruct Hf2 as [?|[-> ->]]; [by left|]. destruct Hn as [->|?]; [|done]. rewrite app_nil_r.
    destruct Hf1 as [Hf1|[-> ->]]; [left; congruence || lia|by right].
  - intros t k Ht. rewrite Hv2 by done. unfold views_after. rewrite fold_left_app. apply views_after_ext. by apply Hv1.
Qed.

(** The frame in front of the buffer is cut off whole. *)
Lemma stream_one_frame raw v rest st s :
  frame raw v -> s_buffer st = raw ++ rest -> fits (raw ++ rest) ->
  stream_one ord wr rclock st s
  = '(t, st1, s1) ← apply_value ord wr rclock v (Z.of_nat (length raw)) (with_buffer rest st) s;
    Ret (t, count_served st1, s1).
Proof.
  intros Hfr Hb Hfit. unfold stream_one. rewrite Hb, (parse_frame raw v rest Hfr Hfit). cbn [mbind outcome_bind].
  assert (Z.of_nat (length (raw ++ rest)) - Z.of_nat (length rest) = Z.of_nat (length raw)) as Hlen
    by (rewrite length_app; lia).
  unfold sub_usize. rewrite Hlen. destruct (Z.leb_spec 0 (Z.of_nat (length raw))); [|lia]. cbn [mbind outcome_bind].
  rewrite Nat2Z.id. unfold slice_from. destruct (Nat.leb_spec (length raw) (length (raw ++ rest)));
    [|rewrite length_app in *; lia]. cbn [mbind outcome_bind]. by rewrite drop_app_length.
Qed.

Lemma replica_step T raw c rest st s :
  shared_ok s -> unbounded (db s) -> runnable c -> mutates c = true -> reads_as raw c ->
  (forall n, ticking (rclock n)) -> (forall n j, rclock n j <= T) ->
  s_buffer st = raw ++ rest -> fits (raw ++ rest) ->
  0 <= total_bytes_processed st -> total_bytes_processed st + Z.of_nat (length raw) <= usize_max ->
  exists st' s', stream_one ord wr rclock st s = Ret (Again, st', s') /\ s_buffer st' = rest
    /\ s_written st' = s_written st /\ applied T [c] (Z.of_nat (length raw)) st s st' s'.
Proof.
  intros Hs Hu (Hc & Hp & Hmeet) Hmut (v & Hfr & Hv) Htick HT Hb Hfit Hpos Hmax.
  rewrite (stream_one_frame raw v rest) by done.
  set (bare := {| db := db s; repl := repl s; chans := chans s; cluster := None |}).
  assert (Hbare : shared_ok bare) by (constructor; [exact (sh_store s Hs)|done]).
  destruct (run_spec ord c None (rclock (s_served st)) true bare Hbare Hc (Htick _) (plain_no_overflow c _ Hp Hmeet))
    as (r & s1 & Hr & Hs1 & Hu1 & Hd). apply data_spec_free in Hd; [|done].
  assert (Hap : apply_value ord wr rclock v (Z.of_nat (length raw)) (with_buffer rest st) s
    = s2 ← apply_command ord rclock c (s_served st) s;
      '(st1, s3) ← advance (Z.of_nat (length raw)) (with_buffer rest st) s2;
      Ret (Again, st1, s3)).
  { unfold apply_value. rewrite Hv. by destruct c. }
  rewrite Hap. unfold apply_command. fold bare. rewrite execute_allowed by done. rewrite Hr. cbn [mbind outcome_bind].
  unfold advance, add_usize. cbn [total_bytes_processed with_buffer].
  destruct (Z.leb_spec (total_bytes_processed st + Z.of_nat (length raw)) usize_max); [|lia]. cbn [mbind outcome_bind].
  eexists _, _. split; [reflexivity|]. split; [done|]. split; [done|]. constructor; cbn.
  - constructor; [exact (sh_store s1 Hs1)|]. cbn. intros t Ht. by apply (sh_cluster s Hs).
  - by apply Hu1.
  - done.
  - by left.
  - intros t k Ht. apply (data_spec_view c (rclock (s_served st)) _ r _ T t k Hd Hp (HT _) Ht).
Qed.

(** A frame of the log, with its command. *)
Definition loggable (rc : bytes * Command) : Prop :=
  runnable (snd rc) /\ mutates (snd rc) = true /\ reads_as (fst rc) (snd rc).

Lemma total_len_cons raw raws : total_len (raw :: raws) = Z.of_nat (length raw) + total_len raws.
Proof. unfold total_len. cbn [concat]. rewrite length_app. lia. Qed.

(** The frames in front of the buffer are applied, nothing is written. *)
Lemma stream_prefix T log rest fuel st s :
  shared_ok s -> unbounded (db s) -> Forall loggable log ->
  (forall n, ticking (rclock n)) -> (forall n j, rclock n j <= T) ->
  s_buffer st = concat log.*1 ++ rest -> fits (s_buffer st) -> (length (s_buffer st) <= fuel)%nat ->
  0 <= total_bytes_processed st -> total_bytes_processed st + total_len log.*1 <= usize_max ->
  exists fuel' st' s', stream_buffer ord wr rclock fuel st s = stream_buffer ord wr rclock fuel' st' s'
    /\ s_buffer st' = rest /\ (length rest <= fuel')%nat /\ s_written st' = s_written st
    /\ applied T log.*2 (total_len log.*1) st s st' s'.
Proof.
  intros Hs Hu Hlog Htick HT. revert fuel st s Hs Hu.
  induction Hlog as [|[raw c] log (Hc & Hmut & Hraw) Hlog IH]; intros fuel st s Hs Hu Hb Hfit Hfuel Hpos Hmax.
  - exists fuel, st, s. cbn in Hb. split_and!; [done|done|by rewrite <- Hb|done|by apply applied_nil].
  - cbn [fmap list_fmap fst snd] in Hb, Hmax, Hc, Hmut, Hraw |- *. cbn [concat] in Hb. rewrite <- app_assoc in Hb.
    rewrite total_len_cons in Hmax |- *. assert (0 <= total_len log.*1) by (unfold total_len; lia).
    destruct Hraw as (v & Hfr & Hv). pose proof (frame_nonempty _ _ Hfr) as Hne.
    destruct (replica_step T raw c (concat log.*1 ++ rest) st s) as (st1 & s1 & Hone & Hb1 & Hw1 & Hap);
      [done|done|done|done|by exists v|done|done|done|by rewrite <- Hb|done|lia|].
    destruct fuel as [|fuel]; [rewrite Hb, length_app in Hfuel; lia|]. cbn [stream_buffer].
    assert (s_buffer st <> []) as Hbne by (rewrite Hb; by destruct raw; [cbn in Hne; lia|]).
    destruct (s_buffer st) as [|b0 bs] eqn:Eb; [done|]. rewrite Hone. cbn [mbind outcome_bind].
    destruct (IH fuel st1 s1) as (fuel' & st2 & s2 & Hrun & Hb2 & Hf2 & Hw2 & Hap2);
      [by eapply ap_ok|by eapply ap_unbounded|done| | | | |].
    + eapply fits_le; [|exact Hfit]. rewrite Hb1, Hb, !length_app. lia.
    + rewrite Hb1. rewrite Hb, length_app in Hfuel. lia.
    + rewrite (ap_total _ _ _ _ _ _ _ Hap). lia.
    + rewrite (ap_total _ _ _ _ _ _ _ Hap). lia.
    + exists fuel', st2, s2. split_and!; [done|done|done|congruence|].
      apply (applied_app T [c] (Z.of_nat (length raw)) log.*2 (total_len log.*1) st s st1 s1 st2 s2 Hap Hap2).
      destruct log; [left; done|by right].
Qed.

(** Everything complete in the buffer is applied. *)
Lemma replica_log T log partial fuel st s :
  shared_ok s -> unbounded (db s) -> Forall loggable log ->
  (forall n, ticking (rclock n)) -> (forall n j, rclock n j <= T) ->
  s_buffer st = concat log.*1 ++ partial -> fits (s_buffer st) -> (length (s_buffer st) <= fuel)%nat ->
  0 <= total_bytes_processed st -> total_bytes_processed st + total_len log.*1 <= usize_max ->
  partial = [] \/ parse partial = Ret (Ok None, partial) ->
  exists st' s', stream_buffer ord wr rclock fuel st s = Ret (More, st', s') /\ s_buffer st' = partial
    /\ applied T log.*2 (total_len log.*1) st s st' s'.
Proof.
  intros Hs Hu Hlog Htick HT Hb Hfit Hfuel Hpos Hmax Hpart.
  destruct (stream_prefix T log partial fuel st s) as (fuel' & st' & s' & -> & Hb' & Hf' & _ & Hap); [done..|].
  exists st', s'. split_and!; [|done|done]. destruct fuel' as [|fuel']; cbn [stream_buffer]; rewrite Hb'.
  - destruct partial; [done|cbn in Hf'; lia].
  - destruct Hpart as [->|Hpart]; [done|]. destruct partial as [|p0 partial]; [done|].
    unfold stream_one. by rewrite Hb', Hpart.
Qed.

(** The answer to GETACK is the wire form of REPLCONF ACK. *)
Lemma ack_is_replconf offset : ack_reply offset = serialize (wire_value (ReplConf [b!"ACK"; Int.fmt_Z offset])) [].
Proof. unfold ack_reply, bulk_text. reflexivity. Qed.

Lemma getack_step raw args rest st s :
  is_getack args = true -> reads_as raw (ReplConf args) -> s_buffer st = raw ++ rest -> fits (raw ++ rest) ->
  wr (length (s_written st)) = true -> total_bytes_processed st + Z.of_nat (length raw) <= usize_max ->
  let total := total_bytes_processed st + Z.of_nat (length raw) in
  stream_one ord wr rclock st s
  = Ret (Again, {| s_buffer := rest; total_bytes_processed := total;
                   s_written := s_written st ++ [ack_reply total]; s_served := S (s_served st) |},
         with_repl (store_processed total (repl s), chans s) s).
Proof.
  intros Hg (v & Hfr & Hv) Hb Hfit Hwr Hmax. cbn zeta. rewrite (stream_one_frame raw v rest) by done.
  unfold apply_value. rewrite Hv. unfold advance, add_usize. cbn [total_bytes_processed with_buffer].
  destruct (Z.leb_spec (total_bytes_processed st + Z.of_nat (length raw)) usize_max); [|lia].
  cbn [mbind outcome_bind s_written with_buffer]. by rewrite Hg, Hwr.
Qed.

(** C21: GETACK is answered with the offset.  On a replica without memory
    limit whose buffer holds the frames of a log of SETs without PX and of
    DELs followed by a REPLCONF GETACK frame, if the offset stays within
    [usize] and the write succeeds, the replica's task sends one message and no
    other: the wire form of REPLCONF ACK with the number of bytes of the
    stream up to and with the GETACK frame, which is also the offset the
    replica's state then holds; the log is applied. *)
Theorem getack_acknowledges T log raw args fuel st s :
  shared_ok s -> unbounded (db s) -> Forall loggable log ->
  (forall n, ticking (rclock n)) -> (forall n j, rclock n j <= T) ->
  is_getack args = true -> reads_as raw (ReplConf args) ->
  s_buffer st = concat log.*1 ++ raw -> fits (s_buffer st) -> (length (s_buffer st) <= fuel)%nat ->
  0 <= total_bytes_processed st -> wr (length (s_written st)) = true ->
  total_bytes_processed st + total_len log.*1 + Z.of_nat (length raw) <= usize_max ->
  let offset := total_bytes_processed st + total_len log.*1 + Z.of_nat (length raw) in
  exists st' s', stream_buffer ord wr rclock fuel st s = Ret (More, st', s')
    /\ s_buffer st' = [] /\ replica_bytes_processed (repl s') = offset
    /\ s_written st' = s_written st ++ [serialize (wire_value (ReplConf [b!"ACK"; Int.fmt_Z offset])) []]
    /\ forall t k, T <= t -> seen (contents (db s')) t k = views_after log.*2 (seen (contents (db s)) t) k.
Proof.
  intros Hs Hu Hlog Htick HT Hg Hraw Hb Hfit Hfuel Hpos Hwr Hmax. cbn zeta.
  destruct (stream_prefix T log raw fuel st s) as (fuel' & st1 & s1 & -> & Hb1 & Hf1 & Hw1 & Hap); [done..|lia|].
  pose proof (ap_total _ _ _ _ _ _ _ Hap) as Ht1. rewrite <- Ht1 in Hmax |- *.
  pose proof Hraw as (v & Hfr & _). pose proof (frame_nonempty _ _ Hfr) as Hne.
  assert (Hone := getack_step raw args [] st1 s1 Hg Hraw). rewrite app_nil_r, Hw1 in Hone. cbn zeta in Hone.
  destruct fuel' as [|fuel']; [lia|]. cbn [stream_buffer]. rewrite Hone; [|done| |done|done].
  - destruct (s_buffer st1) as [|b0 bs] eqn:E; [rewrite <- Hb1 in Hne; cbn in Hne; lia|]. cbn [mbind outcome_bind].
    eexists _, _. split; [by destruct fuel'|]. split_and!; [done|done|by rewrite <- ack_is_replconf|].
    apply (ap_view _ _ _ _ _ _ _ Hap).
  - eapply fits_le; [|exact Hfit]. rewrite Hb, length_app. lia.
Qed.

(** ** The stream in pieces *)

(** A beginning of the stream: some whole frames and a part of the next. *)
Lemma prefix_split log b x :
  Forall loggable log -> fits (concat log.*1) -> b ++ x = concat log.*1 ->
  exists before todo partial, log = before ++ todo /\ b = concat before.*1 ++ partial
    /\ partial ++ x = concat todo.*1 /\ (x = [] -> todo = [])
    /\ (partial = [] \/ parse partial = Ret (Ok None, partial)).
Proof.
  intros Hlog. revert b. induction Hlog as [|[raw c] log Hrc Hlog IH]; intros b Hfit Hb.
  - apply app_eq_nil in Hb as [-> ->]. exists [], [], []. split_and!; auto.
  - cbn in Hb, Hfit. destruct Hrc as (_ & _ & v & Hfr & _). cbn in Hfr.
    pose proof (frame_nonempty _ _ Hfr) as Hne.
    destruct (decide (length raw <= length b)%nat) as [Hle|Hgt].
    + assert (b = raw ++ drop (length raw) b) as Hbr.
      { rewrite <- (take_drop (length raw) b) at 1. f_equal.
        rewrite <- (take_app_le b x) by done. rewrite Hb. by apply take_app_length. }
      rewrite Hbr, <- app_assoc in Hb. apply app_inv_head in Hb.
      destruct (IH (drop (length raw) b)) as (before & todo & partial & -> & Hd & Hp & Hx & Hparse);
        [eapply fits_le; [|exact Hfit]; rewrite length_app; lia|done|].
      exists ((raw, c) :: before), todo, partial. split_and!; [done| |done|done|done].
      rewrite Hbr, Hd. cbn. by rewrite app_assoc.
    + assert (raw = b ++ take (length raw - length b) x) as Hraw.
      { rewrite <- (take_app_length raw (concat log.*1)) at 1. rewrite <- Hb, take_app.
        rewrite take_ge by lia. done. }
      assert (Hx : x <> []).
      { intros ->. rewrite take_nil, app_nil_r in Hraw. subst raw. lia. }
      exists [], ((raw, c) :: log), b. split_and!; [done|done|exact Hb|done|right].
      apply (parse_prefix raw v b (take (length raw - length b) x)); [done| |done|].
      * eapply fits_le; [|exact Hfit]. rewrite length_app. lia.
      * destruct x; [done|]. destruct (length raw - length b)%nat eqn:E; [lia|done].
Qed.

Lemma applied_buffer T cs n b st s st' s' : applied T cs n (with_buffer b st) s st' s' -> applied T cs n st s st' s'.
Proof. intros [? ? ? ? ?]. by constructor. Qed.

Lemma replica_stream T ds log st s :
  shared_ok s -> unbounded (db s) -> Forall loggable log ->
  (forall n, ticking (rclock n)) -> (forall n j, rclock n j <= T) ->
  nonempty ds -> s_buffer st ++ concat ds = concat log.*1 -> fits (concat log.*1) ->
  0 <= total_bytes_processed st -> total_bytes_processed st + total_len log.*1 <= usize_max ->
  exists st' s', stream_loop ord wr rclock (received ds) st s = Ret (More, st', s') /\ s_buffer st' = []
    /\ applied T log.*2 (total_len log.*1) st s st' s'.
Proof.
  intros Hs Hu Hlog Htick HT Hds. revert log Hlog st s Hs Hu.
  induction Hds as [|d ds Hd Hds IH]; intros log Hlog st s Hs Hu Hb Hfit Hpos Hmax;
    destruct (prefix_split log (s_buffer st) _ Hlog Hfit Hb) as (before & todo & partial & -> & Hbuf & Hrest & Hend & Hparse);
    apply Forall_app in Hlog as [Hbefore Htodo]; rewrite fmap_app, total_len_app in Hmax;
    assert (0 <= total_len todo.*1) by (unfold total_len; lia);
    (assert (Hfb : fits (s_buffer st)) by (eapply fits_le; [|exact Hfit]; rewrite <- Hb, length_app; lia));
    (destruct (replica_log T before partial (length (s_buffer st)) st s)
      as (st1 & s1 & Hrun & Hb1 & Hap); [done..|lia|done|]);
    cbn [fmap list_fmap stream_loop]; rewrite Hrun; cbn [mbind outcome_bind].
  - rewrite (Hend eq_refl) in *. cbn in Hrest. rewrite app_nil_r in Hrest. subst partial.
    exists st1, s1. rewrite !app_nil_r. by split_and!.
  - destruct d as [|b0 d0]; [done|]. set (d := b0 :: d0) in *. rewrite Hb1.
    destruct (IH todo Htodo (with_buffer (partial ++ d) st1) s1) as (st2 & s2 & Hrun2 & Hb2 & Hap2).
    + by eapply ap_ok.
    + by eapply ap_unbounded.
    + cbn. by rewrite <- app_assoc.
    + eapply fits_le; [|exact Hfit]. rewrite fmap_app, concat_app, length_app. lia.
    + cbn. rewrite (ap_total _ _ _ _ _ _ _ Hap). unfold total_len. lia.
    + cbn. rewrite (ap_total _ _ _ _ _ _ _ Hap). lia.
    + exists st2, s2. split_and!; [done|done|]. rewrite !fmap_app, total_len_app.
      eapply applied_app; [exact Hap|by eapply applied_buffer|]. destruct todo; [by left|by right].
Qed.

(** ** The channel between them *)

Lemma repl_run_all raws rs w : repl_run (rs, w) raws [] (propagate_all raws (rs, w)).
Proof.
  revert rs w. induction raws as [|raw raws IH]; intros rs w; [constructor|].
  apply (repl_run_cons (rs, w) [raw] [] (propagate_downstream raw rs w) raws []); [constructor|].
  cbn. destruct (propagate_downstream raw rs w) as [rs1 w1]. apply IH.
Qed.

Lemma propagate_all_closed raws rs w tx : is_closed (snd (propagate_all raws (rs, w))) tx = is_closed w tx.
Proof.
  revert rs w. induction raws as [|raw raws IH]; intros rs w; [done|]. cbn.
  pose proof (retain_sent_closed raw (downstream_senders rs) w tx) as Hc. unfold propagate_downstream.
  destruct (retain_sent _ _ _) as [kept w1]. cbn in Hc. rewrite <- Hc. apply IH.
Qed.

(** ** The theorems *)

(** A master and its replica, from the commands run to the data shown. *)
Lemma converges clock T rcs sm sr tx my_port masterauth rdb :
  (forall i, wr i = true) ->
  shared_ok sm -> unbounded (db sm) -> is_replica (repl sm) = false ->
  Forall (fun rc => runnable (snd rc) /\ reads_as (fst rc) (snd rc)) rcs ->
  (forall n, ticking (clock n)) -> (forall n j, clock n j <= T) ->
  registrations tx (downstream_senders (repl sm)) = 1%nat -> is_closed (chans sm) tx = false ->
  Forall Str.visible (get_replid (repl sm)) -> get_replid (repl sm) <> [] -> Z.of_nat (length rdb) <= usize_max ->
  shared_ok sr -> unbounded (db sr) ->
  (forall n, ticking (rclock n)) -> (forall n j, rclock n j <= T) ->
  (forall t k, T <= t -> seen (contents (db sr)) t k = seen (contents (db sm)) t k) ->
  exists sm' msgs, run_all clock 0 rcs sm = Ret sm'
    /\ accepted (chans sm') tx = accepted (chans sm) tx ++ msgs
    /\ wrap_usize (master_repl_offset (repl sm')) = wrap_usize (master_repl_offset (repl sm) + total_len msgs)
    /\ forall ds, nonempty ds ->
         concat ds = master_replies masterauth (get_replid (repl sm)) rdb ++ concat msgs -> fits (concat msgs) ->
         exists st sr', run_replica_loop ord wr rclock my_port masterauth (received ds) sr = Ret (More, Some st, sr')
           /\ s_buffer st = [] /\ total_bytes_processed st = total_len msgs
           /\ forall t k, T <= t -> seen (contents (db sr')) t k = seen (contents (db sm')) t k.
Proof.
  intros Hwr Hsm Hum Hm Hrcs Htick HT Hreg Hopen Hvis Hne Hrdb Hsr Hur Hrtick HrT Hsame.
  destruct (master_log clock T rcs 0 sm Hsm Hum Hm) as (sm' & log & Hrun & _ & Hsub & Hmut & Hrepl & Hview);
    [by eapply Forall_impl; [exact Hrcs|intros ? []]|done|done|].
  pose proof (repl_run_all log.*1 (repl sm) (chans sm)) as Hrr. rewrite <- Hrepl in Hrr.
  assert (Hclosed : is_closed (chans sm') tx = false).
  { apply (f_equal snd) in Hrepl. cbn in Hrepl. by rewrite Hrepl, propagate_all_closed. }
  destruct (repl_run_stream _ _ _ _ tx Hrr Hclosed) as (Hacc & _ & Hoff); [apply not_elem_of_nil|done|].
  exists sm', log.*1. split_and!; [done|exact Hacc|exact Hoff|]. intros ds Hds Hcat Hfit.
  assert (Hlog : Forall loggable log).
  { apply Forall_forall. intros rc Hrc. rewrite Forall_forall in Hmut. rewrite Forall_forall in Hrcs.
    destruct (Hrcs rc) as [Hr1 Hr2]; [eapply elem_of_submseteq; [exact Hrc|by apply sublist_submseteq]|].
    split_and!; [done|by apply Hmut|done]. }
  unfold run_replica_loop.
  destruct (handshake_ok wr my_port masterauth _ rdb ds _ sr Hwr Hvis Hne Hrdb Hds Hcat) as (ds' & b' & -> & Hds' & Hb').
  cbn [link_reads link_buffer link_written].
  set (sr1 := with_repl (set_replid (get_replid (repl sm)) (repl sr), chans sr) sr).
  assert (Hsr1 : shared_ok sr1) by (constructor; [exact (sh_store sr Hsr)|exact (sh_cluster sr Hsr)]).
  set (st0 := {| s_buffer := b'; total_bytes_processed := 0; s_written := _; s_served := 0%nat |}).
  destruct (replica_stream T ds' log st0 sr1 Hsr1 Hur Hlog Hrtick HrT Hds' Hb' Hfit) as (st & sr' & Hloop & Hb & Hap).
  { done. }
  { cbn. unfold fits, isize_max, usize_max, i64_max, u64_max in *. unfold total_len. lia. }
  rewrite Hloop. cbn [mbind outcome_bind]. exists st, sr'. split_and!; [done|done| |].
  - rewrite (ap_total _ _ _ _ _ _ _ Hap). cbn. lia.
  - intros t k Ht. rewrite (ap_view _ _ _ _ _ _ _ Hap t k Ht), Hview by done.
    apply views_after_ext. by apply Hsame.
Qed.

(** C7: a replica that is in step with its master stays in step.  A master
    without memory limit runs any sequence of commands from authenticated
    clients, SET with PX and CLUSTER MEET of a port above 55535 apart, with
    the open channel of a replica registered once.  The replica has no memory
    limit either and starts out showing what the master shows (the snapshot
    brings no data).  Its task, given the master's handshake replies and then
    the messages of its channel, however the bytes are cut into reads and if
    its writes succeed, applies them all: it waits with an empty buffer, from
    the last clock reading on it shows exactly the keys and values of the
    master, and its offset is the number of bytes by which the master's offset
    has advanced. *)
Theorem replica_converges clock T rcs sm sr tx my_port masterauth rdb :
  (forall i, wr i = true) ->
  shared_ok sm -> unbounded (db sm) -> is_replica (repl sm) = false ->
  Forall (fun rc => runnable (snd rc) /\ reads_as (fst rc) (snd rc)) rcs ->
  (forall n, ticking (clock n)) -> (forall n j, clock n j <= T) ->
  registrations tx (downstream_senders (repl sm)) = 1%nat -> is_closed (chans sm) tx = false ->
  Forall Str.visible (get_replid (repl sm)) -> get_replid (repl sm) <> [] -> Z.of_nat (length rdb) <= usize_max ->
  shared_ok sr -> unbounded (db sr) ->
  (forall n, ticking (rclock n)) -> (forall n j, rclock n j <= T) ->
  (forall t k, T <= t -> seen (contents (db sr)) t k = seen (contents (db sm)) t k) ->
  exists sm' msgs, run_all clock 0 rcs sm = Ret sm'
    /\ accepted (chans sm') tx = accepted (chans sm) tx ++ msgs
    /\ wrap_usize (master_repl_offset (repl sm')) = wrap_usize (master_repl_offset (repl sm) + total_len msgs)
    /\ forall ds, nonempty ds ->
         concat ds = master_replies masterauth (get_replid (repl sm)) rdb ++ concat msgs -> fits (concat msgs) ->
         exists st sr', run_replica_loop ord wr rclock my_port masterauth (received ds) sr = Ret (More, Some st, sr')
           /\ s_buffer st = [] /\ total_bytes_processed st = total_len msgs
           /\ forall t k, T <= t -> seen (contents (db sr')) t k = seen (contents (db sm')) t k.
Proof. exact (converges clock T rcs sm sr tx my_port masterauth rdb). Qed.

End Converge.

(** ** The master's side of the handshake *)

Section Served.
Context `{StoreLaws} `{MpscLaws}.
Variable ord : Topology.node_order.
Variable wr : nat -> bool.
Variable clock : nat -> nat -> Z.
Variable tx : sender.
Hypothesis writes_succeed : forall i, wr i = true.

(** Room for the arrays of the requests. *)
Definition small_arrays : Prop := forall n, 0 < n <= 5 -> capacity_ok sizeof_Value n = true.

Lemma process_wire requirepass cmd rest n c s :
  cmd_ok cmd -> sendable cmd -> capacity_ok sizeof_Value (Z.of_nat (length (wire cmd))) = true ->
  Connection.buffer c = serialize (wire_value cmd) [] ++ rest -> fits (Connection.buffer c) ->
  Connection.process ord wr clock requirepass tx (S n) c s
  = Connection.handle_value ord wr clock requirepass tx (wire_value cmd) (serialize (wire_value cmd) [])
      (Connection.set_buffer rest c) s
    ≫= (fun '(f, c1, s1) => match f with
        | Connection.Next => Connection.process ord wr clock requirepass tx n (Connection.count_command c1) s1
        | _ => Ret (f, Connection.count_command c1, s1)
        end).
Proof.
  intros Hc Hs Hcap Hb Hfit. rewrite Hb in Hfit.
  destruct (parse_wire cmd rest Hc Hs Hcap Hfit) as [Hp _]. rewrite <- Hb in Hp, Hfit.
  destruct (process_one_frame ord wr clock requirepass tx c s (wire_value cmd) rest Hfit Hp) as (fr & Hb2 & Hne & _ & Hone).
  assert (fr = serialize (wire_value cmd) []) as ->.
  { rewrite Hb in Hb2. by apply app_inv_tail in Hb2. }
  rewrite process_cons by (rewrite Hb2; by destruct (serialize (wire_value cmd) [])).
  rewrite Hone. by destruct (Connection.handle_value _ _ _ _ _ _ _ _ _) as [[[[] c1] s1]| |].
Qed.

(** A command without key that leaves the server alone. *)
Lemma handle_reply requirepass cmd raw c s reply a :
  cmd_ok cmd -> sendable cmd -> target_key cmd = None ->
  (match cmd with Psync _ _ | Quit => False | _ => True end) ->
  execute ord cmd (Some raw) requirepass (clock (Connection.served c)) (Connection.is_authenticated c) s
    = Ret (Some reply, a, s) ->
  Connection.handle_value ord wr clock requirepass tx (wire_value cmd) raw c s
  = Ret (Connection.Next, Connection.push_written (serialize reply []) (Connection.set_auth a c), s).
Proof.
  intros Hc Hs Hk Hcmd He. unfold Connection.handle_value. rewrite from_value_wire by done.
  transitivity (Connection.handle_command ord wr clock requirepass cmd raw c s); [by destruct cmd|].
  unfold Connection.handle_command, Connection.redirection. rewrite Hk.
  assert ((match cluster s with Some _ | None => None end : option bytes) = None) as Hn by (by destruct (cluster s)).
  rewrite Hn, He. cbn [mbind outcome_bind]. unfold Connection.written_then, Connection.write_all.
  by rewrite writes_succeed.
Qed.

Lemma requests_concat my_port masterauth :
  concat (requests my_port masterauth)
  = serialize (wire_value (Ping None)) []
    ++ (match masterauth with Some pass => serialize (wire_value (Auth None pass)) [] | None => [] end)
    ++ serialize (wire_value (ReplConf [b!"listening-port"; Int.fmt_Z my_port])) []
    ++ serialize (wire_value (ReplConf [b!"capa"; b!"eof"; b!"capa"; b!"psync2"])) []
    ++ serialize (wire_value (Psync b!"?" b!"-1")) [] ++ [].
Proof.
  unfold requests.
  destruct (requests_are_commands (default [] masterauth) my_port) as (-> & Hauth & -> & -> & ->).
  cbn [concat app]. rewrite concat_app. cbn [concat]. do 2 f_equal.
  destruct masterauth as [pass|]; [|done]. change (default [] (Some pass)) with pass in Hauth.
  cbn [concat]. by rewrite Hauth, app_nil_r.
Qed.

Lemma replconf_runs requirepass n auth args s raw :
  allowed requirepass auth = true ->
  (match args with a :: _ => Str.to_ascii_uppercase a <> b!"GETACK" /\ Str.to_ascii_uppercase a <> b!"ACK" | [] => False end) ->
  execute ord (ReplConf args) raw requirepass (clock n) auth s = Ret (Some ok, auth, s).
Proof.
  intros Ha Hargs. rewrite execute_allowed by done. destruct args as [|a args]; [done|]. destruct Hargs as [H1' H2'].
  cbn [run exec_replconf]. by rewrite !bool_decide_eq_false_2.
Qed.

(** A request answered with one reply. *)
Lemma serve_reply requirepass cmd rest n c s reply a :
  cmd_ok cmd -> sendable cmd -> capacity_ok sizeof_Value (Z.of_nat (length (wire cmd))) = true ->
  target_key cmd = None -> (match cmd with Psync _ _ | Quit => False | _ => True end) ->
  Connection.buffer c = serialize (wire_value cmd) [] ++ rest -> fits (Connection.buffer c) ->
  execute ord cmd (Some (serialize (wire_value cmd) [])) requirepass (clock (Connection.served c))
    (Connection.is_authenticated c) s = Ret (Some reply, a, s) ->
  exists c', Connection.process ord wr clock requirepass tx (S n) c s
      = Connection.process ord wr clock requirepass tx n c' s
    /\ Connection.buffer c' = rest /\ Connection.written c' = Connection.written c ++ [serialize reply []]
    /\ Connection.is_authenticated c' = a.
Proof.
  intros Hc Hs Hcap Hk Hcmd Hb Hfit He. rewrite (process_wire requirepass cmd rest) by done.
  rewrite (handle_reply requirepass cmd _ _ s reply a) by done. cbn [mbind outcome_bind]. eexists. split; [reflexivity|]. done.
Qed.

(** PSYNC answered. *)
Lemma serve_psync requirepass a b rest n c s rdb :
  str_ok a -> str_ok b -> capacity_ok sizeof_Value 3 = true -> get_empty_rdb_bytes = Ret rdb ->
  Connection.buffer c = serialize (wire_value (Psync a b)) [] ++ rest -> fits (Connection.buffer c) ->
  exists c', Connection.process ord wr clock requirepass tx (S n) c s
      = Connection.process ord wr clock requirepass tx n c' (with_repl (register_downstream tx (repl s), chans s) s)
    /\ Connection.buffer c' = rest /\ Connection.is_downstream_replica c' = true
    /\ concat (Connection.written c') = concat (Connection.written c)
         ++ (b!"+FULLRESYNC " ++ get_replid (repl s) ++ b!" 0") ++ crlf
         ++ b!"$" ++ Int.fmt_Z (Z.of_nat (length rdb)) ++ crlf ++ rdb.
Proof.
  intros Ha Hb' Hcap Hrdb Hb Hfit. rewrite (process_wire requirepass (Psync a b) rest) by done.
  unfold Connection.handle_value. rewrite from_value_wire by done. unfold Connection.handle_psync.
  assert (Hw : forall data c0 s0 k0, Connection.written_then wr data c0 s0 k0 = k0 (Connection.push_written data c0))
    by (intros; unfold Connection.written_then, Connection.write_all; by rewrite writes_succeed).
  rewrite Hw, Hrdb. cbn [mbind outcome_bind]. rewrite !Hw. cbn [mbind outcome_bind].
  eexists. split; [reflexivity|]. split_and!; [done|done|].
  cbn [Connection.count_command Connection.set_downstream Connection.push_written Connection.written Connection.set_buffer].
  rewrite !concat_app. cbn [concat]. by rewrite !app_nil_r, <- !app_assoc.
Qed.

Definition listening_port (my_port : Z) : Command := ReplConf [b!"listening-port"; Int.fmt_Z my_port].
Definition capabilities : Command := ReplConf [b!"capa"; b!"eof"; b!"capa"; b!"psync2"].

(** The requests after authentication. *)
Lemma serve_tail my_port requirepass auth rdb c s n :
  small_arrays -> get_empty_rdb_bytes = Ret rdb ->
  allowed requirepass auth = true -> Connection.is_authenticated c = auth ->
  Connection.buffer c = serialize (wire_value (listening_port my_port)) [] ++ serialize (wire_value capabilities) []
    ++ serialize (wire_value (Psync b!"?" b!"-1")) [] ++ [] ->
  fits (Connection.buffer c) ->
  exists c', Connection.process ord wr clock requirepass tx (S (S (S n))) c s
    = Ret (Connection.Wait, c', with_repl (register_downstream tx (repl s), chans s) s)
    /\ concat (Connection.written c') = concat (Connection.written c) ++ b!"+OK" ++ crlf ++ b!"+OK" ++ crlf
         ++ (b!"+FULLRESYNC " ++ get_replid (repl s) ++ b!" 0") ++ crlf
         ++ b!"$" ++ Int.fmt_Z (Z.of_nat (length rdb)) ++ crlf ++ rdb
    /\ Connection.buffer c' = [] /\ Connection.is_downstream_replica c' = true.
Proof.
  intros Hcap Hrdb Hal Ha Hb Hfit.
  assert (Hlp : cmd_ok (listening_port my_port)) by (repeat constructor; apply Utf8.valid_fmt_Z).
  destruct (serve_reply requirepass (listening_port my_port) _ (S (S n)) c s ok auth Hlp I (Hcap 3 ltac:(lia)) eq_refl I Hb Hfit)
    as (c2 & -> & Hb2 & Hw2 & Ha2); [rewrite Ha; apply replconf_runs; [done|by split]|].
  destruct (serve_reply requirepass capabilities _ (S n) c2 s ok auth ltac:(by repeat constructor) I
    (Hcap 5 ltac:(lia)) eq_refl I Hb2) as (c3 & -> & Hb3 & Hw3 & Ha3).
  { eapply fits_le; [|exact Hfit]. rewrite Hb, Hb2, !length_app. lia. }
  { rewrite Ha2. apply replconf_runs; [done|by split]. }
  destruct (serve_psync requirepass b!"?" b!"-1" [] n c3 s rdb eq_refl eq_refl (Hcap 3 ltac:(lia)) Hrdb Hb3)
    as (c4 & -> & Hb4 & Hd4 & Hw4).
  { eapply fits_le; [|exact Hfit]. rewrite Hb, Hb3, !length_app. lia. }
  exists c4. rewrite process_nil by done. split_and!; [done| |done|done].
  rewrite Hw4, Hw3, Hw2, !concat_app. cbn [concat]. rewrite !app_nil_r, <- !app_assoc. done.
Qed.

(** C24: the two ends of the handshake agree.  A new connection of a server
    whose password is the one the replica gives, when it has received the
    replica's requests, has written exactly the replies the replica's
    handshake is proved to accept, and has registered the replica's channel
    once and changed nothing else. *)
Theorem handshake_served my_port masterauth s c :
  small_arrays -> u16 my_port -> opt_ok masterauth ->
  Connection.buffer c = concat (requests my_port masterauth) -> fits (Connection.buffer c) ->
  Connection.written c = [] ->
  Connection.is_authenticated c = (match masterauth with None => true | Some _ => false end) ->
  exists c' rdb, get_empty_rdb_bytes = Ret rdb
    /\ Connection.process_buffer ord wr clock masterauth tx c s
       = Ret (Connection.Wait, c', with_repl (register_downstream tx (repl s), chans s) s)
    /\ concat (Connection.written c') = master_replies masterauth (get_replid (repl s)) rdb
    /\ Connection.buffer c' = [] /\ Connection.is_downstream_replica c' = true.
Proof.
  intros Hcap Hport Hpass Hb Hfit Hw Hauth. destruct empty_rdb_ok as (rdb & Hrdb & _).
  rewrite requests_concat in Hb. fold (listening_port my_port) capabilities in Hb.
  assert (Hfuel : exists m, length (Connection.buffer c) = (5 + m)%nat).
  { exists (length (Connection.buffer c) - 5)%nat. rewrite Hb, length_app.
    assert (length (serialize (wire_value (Ping None)) []) = 14%nat) as -> by reflexivity. lia. }
  destruct Hfuel as [m Hm]. unfold Connection.process_buffer. rewrite Hm. cbn [Nat.add].
  destruct masterauth as [pass|].
  - destruct (serve_reply (Some pass) (Ping None) _ (S (S (S (S m)))) c s
      (error b!"NOAUTH Authentication required.") false I I (Hcap 1 ltac:(lia)) eq_refl I Hb Hfit)
      as (c1 & -> & Hb1 & Hw1 & Ha1); [by rewrite Hauth|].
    assert (Hf1 : fits (Connection.buffer c1)).
    { eapply fits_le; [|exact Hfit]. rewrite Hb, Hb1, !length_app. lia. }
    destruct (serve_reply (Some pass) (Auth None pass) _ (S (S (S m))) c1 s ok true (conj I Hpass) I
      (Hcap 2 ltac:(lia)) eq_refl I Hb1 Hf1) as (c2 & -> & Hb2 & Hw2 & Ha2).
    { rewrite Ha1. cbn [execute]. by rewrite bool_decide_eq_true_2. }
    destruct (serve_tail my_port (Some pass) true rdb c2 s m Hcap Hrdb eq_refl Ha2 Hb2) as (c' & -> & Hwr' & Hb' & Hd').
    { eapply fits_le; [|exact Hf1]. rewrite Hb1, Hb2, !length_app. lia. }
    exists c', rdb. split_and!; [done|done| |done|done].
    rewrite Hwr', Hw2, Hw1, Hw. unfold master_replies. cbn [app concat]. rewrite app_nil_r, <- !app_assoc. done.
  - destruct (serve_reply None (Ping None) _ (S (S (S (S m)))) c s pong true I I (Hcap 1 ltac:(lia)) eq_refl I Hb Hfit)
      as (c1 & -> & Hb1 & Hw1 & Ha1); [by rewrite Hauth|].
    destruct (serve_tail my_port None true rdb c1 s (S m) Hcap Hrdb eq_refl Ha1 Hb1) as (c' & -> & Hwr' & Hb' & Hd').
    { eapply fits_le; [|exact Hfit]. rewrite Hb, Hb1, !length_app. lia. }
    exists c', rdb. split_and!; [done|done| |done|done].
    rewrite Hwr', Hw1, Hw. unfold master_replies. cbn [app concat]. rewrite <- ?app_assoc. done.
Qed.

End Served.

(** ** Witnesses *)

Section ReplicaWitnesses.
#[local] Existing Instance StorageTheory.witness_platform.
#[local] Existing Instance CommandsTheory.witness_store.
#[local] Existing Instance CommandsTheory.witness_laws.

(** A clock that stands still. *)
Definition noon (n j : nat) : Z := 12.

Lemma noon_ticks n : ticking (noon n).
Proof. intros i j _. reflexivity. Qed.

Definition client_commands : list (bytes * Command) :=
  (fun c => (serialize (wire_value c) [], c)) <$> [Set_ b!"k" b!"v" None; Get b!"k"; Set_ b!"l" b!"w" None; Del [b!"k"; b!"x"]].

Definition replica_server (d : Storage.Db) : Shared :=
  {| db := d; repl := new_replica b!"127.0.0.1" 6379; chans := no_messages; cluster := None |}.

Lemma client_commands_ok :
  Forall (fun rc : bytes * Command => runnable (snd rc) /\ reads_as (fst rc) (snd rc)) client_commands.
Proof.
  assert (Hok : forall c, runnable c -> sendable c -> wf (wire_value c) = true ->
    runnable c /\ reads_as (serialize (wire_value c) []) c).
  { intros c Hr Hs Hwf. split; [done|]. exists (wire_value c). split; [|apply from_value_wire; [by destruct Hr|done]].
    pose proof (serialize_frame (wire_value c) Hwf) as Hf. unfold wire_value in *. by rewrite reread_bulks in Hf. }
  apply Forall_fmap. repeat (apply Forall_cons; split); try apply Forall_nil_2; cbn [compose fst snd];
    apply Hok; try exact I; try (vm_compute; reflexivity); try discriminate;
    (split; [|by split]); cbn; try split; try exact I; try reflexivity.
  repeat constructor.
Qed.

Lemma default_replid_visible : Forall Str.visible (get_replid (new_master (H := demo_mpsc) None)).
Proof. repeat (constructor; [split; [discriminate|reflexivity]|]). constructor. Qed.

Lemma replica_converges_witness :
  exists d sm' msgs, Storage.with_config 4 0 = Ret d
    /\ run_all by_map_order noon 0 client_commands (master_of d) = Ret sm'
    /\ accepted (chans sm') replica_a = accepted no_messages replica_a ++ msgs
    /\ wrap_usize (master_repl_offset (repl sm')) = wrap_usize (0 + total_len msgs)
    /\ forall ds, nonempty ds ->
         concat ds = master_replies None (get_replid (repl (master_of d))) [] ++ concat msgs -> fits (concat msgs) ->
         exists st sr', run_replica_loop by_map_order all_written noon 6380 None (received ds) (replica_server d)
             = Ret (More, Some st, sr')
           /\ s_buffer st = [] /\ total_bytes_processed st = total_len msgs
           /\ forall t k, 12 <= t -> seen (contents (db sr')) t k = seen (contents (db sm')) t k.
Proof.
  destruct (four_shards 0) as (d & Hw & Hd & _ & Hmax). exists d.
  assert (Hu : unbounded (db (master_of d))). { change (Storage.max_memory_bytes d <= 0). rewrite Hmax. reflexivity. }
  assert (Hsr : shared_ok (replica_server d)). { constructor; [exact Hd|]. intros t Ht. discriminate Ht. }
  destruct (replica_converges by_map_order all_written noon noon 12 client_commands (master_of d) (replica_server d)
    replica_a 6380 None [] (fun _ => eq_refl) (master_ok d Hd) Hu eq_refl client_commands_ok noon_ticks
    (fun _ _ => Z.le_refl 12) eq_refl eq_refl default_replid_visible ltac:(discriminate) ltac:(discriminate)
    Hsr Hu noon_ticks (fun _ _ => Z.le_refl 12) (fun _ _ _ => eq_refl)) as (sm' & msgs & H1 & H2 & H3 & H4).
  exists sm', msgs. split; [exact Hw|]. split; [exact H1|]. split; [exact H2|]. split; [exact H3|]. exact H4.
Defined.

Lemma handshake_served_witness :
  exists d, Storage.with_config 4 0 = Ret d
  /\ exists c' rdb, get_empty_rdb_bytes = Ret rdb
    /\ Connection.process_buffer by_map_order all_written noon (Some b!"pw") replica_b
         (Connection.set_buffer (concat (requests 6380 (Some b!"pw"))) (Connection.new (Some b!"pw"))) (master_of d)
       = Ret (Connection.Wait, c', with_repl (register_downstream replica_b (repl (master_of d)), chans (master_of d)) (master_of d))
    /\ concat (Connection.written c') = master_replies (Some b!"pw") (get_replid (repl (master_of d))) rdb
    /\ Connection.buffer c' = [] /\ Connection.is_downstream_replica c' = true.
Proof.
  destruct (four_shards 0) as (d & Hw & _). exists d. split; [exact Hw|].
  apply (handshake_served by_map_order all_written noon replica_b (fun _ => eq_refl) 6380 (Some b!"pw") (master_of d)).
  - intros n Hn. unfold capacity_ok, vec_with_capacity. cbn.
    destruct (Z.eqb_spec n 0); [lia|].
    destruct (Z.ltb_spec isize_max (32 * n)); [unfold isize_max, i64_max in *; lia|].
    destruct (Z.leb_spec (32 * n) (2 ^ 40)); [reflexivity|lia].
  - split; [lia|unfold u16_max; lia].
  - reflexivity.
  - reflexivity.
  - vm_compute. reflexivity.
  - reflexivity.
  - reflexivity.
Defined.

End ReplicaWitnesses.
