(* ===== verification/Pipeline.v ===== *)
(** * Pipelines

    What a client that sends several commands at once gets.  The loop over
    the buffer is the sequential execution of the frames in it, and for the
    data commands without expiry that is a plain map: the replies are those
    of the map and so is what a replica of the server shows afterwards. *)

From S2P Require Import Prelude RustStd Str Resp RespTheory Slot Storage StorageTheory Store.
From S2P Require Import Topology TopologyTheory ReplState ReplTheory Commands CommandsTheory Connection ConnectionTheory.
From S2P Require Import Replica ReplicaTheory.
Import Resp ReplState Commands Connection.

(** ** The map as a server *)

Abbreviation kv := (gmap bytes bytes).

(** The commands on data, without expiry, and the two that only answer. *)
Definition simple (c : Command) : bool :=
  match c with
  | Ping _ | Echo _ | Get _ | Set_ _ _ None | Del _ | Exists_ _ => true
  | _ => false
  end.

Definition kv_reply (c : Command) (m : kv) : Value :=
  match c with
  | Ping (Some msg) | Echo msg => string_ msg
  | Ping None => pong
  | Get k => BulkString (m !! k)
  | Del ks => Integer (Z.of_nat (size (dom m ∩ (list_to_set ks : gset bytes))))
  | Exists_ ks => Integer (Z.of_nat (length (filter (fun k => is_Some (m !! k)) ks)))
  | _ => ok
  end.

Definition kv_step (c : Command) (m : kv) : kv :=
  match c with
  | Set_ k v _ => <[k := v]> m
  | Del ks => foldr delete m ks
  | _ => m
  end.

Fixpoint kv_run (cs : list Command) (m : kv) : list Value * kv :=
  match cs with
  | [] => ([], m)
  | c :: cs => let (rs, m') := kv_run cs (kv_step c m) in (kv_reply c m :: rs, m')
  end.

(** ** Sequential service *)

Section Serve.
Context `{StoreLaws} `{MpscLaws}.
Variable ord : Topology.node_order.
Variable clock : nat -> nat -> Z.

(** The commands of a client that may run them, one after the other: what is
    written and the state after them. *)
Fixpoint serve_all (i : nat) (rcs : list (bytes * Command)) (s : Shared) : outcome (list bytes * Shared) :=
  match rcs with
  | [] => Ret ([], s)
  | (raw, c) :: rest =>
      '(r, _, s1) ← execute ord c (Some raw) None (clock i) true s;
      '(ws, s2) ← serve_all (S i) rest s1;
      Ret ((match r with Some v => [serialize v []] | None => [] end) ++ ws, s2)
  end.

Lemma serve_all_run_all i rcs s : run_all ord clock i rcs s = ('(_, s') ← serve_all i rcs s; Ret s').
Proof.
  revert i s. induction rcs as [|[raw c] rcs IH]; intros i s; [done|]. cbn [run_all serve_all].
  destruct (execute _ _ _ _ _ _ _) as [[[r a] s1]| |]; [|done|done]. cbn [mbind outcome_bind]. rewrite IH.
  by destruct (serve_all _ _ _) as [[ws s2]| |].
Qed.

(** Commands the loop treats like any other. *)
Definition ordinary (c : Command) : Prop :=
  match c with
  | Psync _ _ | Quit => False
  | _ => True
  end.

(** Without cluster mode there stays none. *)
Lemma run_no_cluster c raw n s : cluster s = None -> if_ret (fun '(_, a, s1) => a = true /\ cluster s1 = None)
  (run ord c raw (clock n) true s).
Proof.
  intros Hc. assert (Hp : forall s0, cluster s0 = None -> cluster (propagate raw s0) = None).
  { intros s0 Hs0. by destruct (propagate_db raw s0) as [_ ->]. }
  destruct c as [[m|]|msg|k|k v px|ks|ks|p|m|args|a b|u p|sub| |]; cbn [run]; try done; rewrite ?Hc; try done.
  - destruct (db_get _ _ _ _) as [[r d]| |]; done.
  - unfold exec_set. destruct px as [ms|]; [destruct (add_millis _ _)|]; cbn; try done;
      destruct (db_set _ _ _ _ _); cbn; try done; (split; [done|by apply Hp]).
  - unfold exec_del. destruct (del_keys _ _ _) as [[n0 d]| |]; cbn; try done. case_match; split; try done. by apply Hp.
  - destruct (exists_keys _ _ _ _ _) as [[n0 d]| |]; done.
Qed.

Section Loop.
Variable wr : nat -> bool.
Variable requirepass : option bytes.
Variable tx : sender.
Hypothesis writes_succeed : forall i, wr i = true.

(** The connection after the frames: all read, the replies written. *)
Definition answered_all (rcs : list (bytes * Command)) (ws : list bytes) (c : Conn) : Conn := {|
  buffer := []; is_authenticated := true; is_downstream_replica := is_downstream_replica c;
  written := written c ++ ws; served := (served c + length rcs)%nat |}.

Lemma process_frame raw cmd rest n c s :
  reads_as raw cmd -> ordinary cmd -> cluster s = None -> is_authenticated c = true ->
  buffer c = raw ++ rest -> fits (buffer c) ->
  process ord wr clock requirepass tx (S n) c s
  = '(r, _, s1) ← execute ord cmd (Some raw) None (clock (served c)) true s;
    process ord wr clock requirepass tx n
      {| buffer := rest; is_authenticated := true; is_downstream_replica := is_downstream_replica c;
         written := written c ++ (match r with Some v => [serialize v []] | None => [] end);
         served := S (served c) |} s1.
Proof.
  intros (v & Hfr & Hv) Hcmd Hcl Ha Hb Hfit. pose proof (frame_nonempty _ _ Hfr) as Hne. rewrite Hb in Hfit.
  pose proof (parse_frame raw v rest Hfr Hfit) as Hp. rewrite <- Hb in Hp, Hfit.
  destruct (process_one_frame ord wr clock requirepass tx c s v rest Hfit Hp) as (fr & Hb2 & _ & _ & Hone).
  assert (fr = raw) as -> by (rewrite Hb in Hb2; by apply app_inv_tail in Hb2).
  rewrite process_cons by (rewrite Hb; destruct raw; [cbn in Hne; lia|done]). rewrite Hone.
  assert (handle_value ord wr clock requirepass tx v raw (set_buffer rest c) s
    = handle_command ord wr clock requirepass cmd raw (set_buffer rest c) s) as ->.
  { unfold handle_value. rewrite Hv. by destruct cmd. }
  unfold handle_command, redirection. rewrite Hcl. cbn [set_buffer is_authenticated served]. rewrite Ha.
  rewrite !execute_allowed by (by destruct requirepass).
  pose proof (run_no_cluster cmd (Some raw) (served c) s Hcl) as Hrun.
  destruct (run _ _ _ _ _ _) as [[[r a] s1]| |]; [|done|done]. destruct Hrun as [-> _]. cbn [mbind outcome_bind].
  destruct r as [reply|]; cbn [mbind outcome_bind].
  - unfold written_then, write_all. rewrite writes_succeed. done.
  - unfold count_command, set_auth, set_buffer. cbn. by rewrite app_nil_r.
Qed.

Lemma process_serves rcs n c s :
  Forall (fun rc => reads_as (fst rc) (snd rc) /\ ordinary (snd rc)) rcs -> cluster s = None ->
  is_authenticated c = true -> buffer c = concat rcs.*1 -> fits (buffer c) -> (length (buffer c) <= n)%nat ->
  process ord wr clock requirepass tx n c s
  = '(ws, s') ← serve_all (served c) rcs s; Ret (Wait, answered_all rcs ws c, s').
Proof.
  intros Hrcs. revert n c s. induction Hrcs as [|[raw cmd] rcs [Hraw Hcmd] _ IH]; intros n c s Hcl Ha Hb Hfit Hn.
  - rewrite process_nil by done. cbn. unfold answered_all. rewrite app_nil_r, Nat.add_0_r. destruct c; cbn in *. by subst.
  - cbn [fmap list_fmap concat fst snd] in *. pose proof Hraw as (v & Hfr & _). pose proof (frame_nonempty _ _ Hfr) as Hne.
    rewrite Hb, length_app in Hn. destruct n as [|n]; [lia|]. rewrite (process_frame raw cmd (concat rcs.*1)) by done.
    cbn [serve_all]. rewrite execute_allowed by done. pose proof (run_no_cluster cmd (Some raw) (served c) s Hcl) as Hrun.
    destruct (run _ _ _ _ _ _) as [[[r a] s1]| |]; [|done|done]. destruct Hrun as [_ Hcl1]. cbn [mbind outcome_bind].
    rewrite IH; [|done|done|done| |cbn; lia].
    + cbn [served]. destruct (serve_all _ _ _) as [[ws s2]| |]; [|done|done]. cbn [mbind outcome_bind].
      unfold answered_all. cbn. by rewrite <- app_assoc, Nat.add_succ_r.
    + eapply fits_le; [|exact Hfit]. cbn. rewrite Hb, length_app. lia.
Qed.

End Loop.
End Serve.

(** ** The store without expiry is the map *)

Definition undying (m : Storage.shard) : Prop := map_Forall (fun _ e => Storage.expires_at e = None) m.

Definition kv_of (m : Storage.shard) : kv := Storage.value <$> m.

Lemma lookup_kv_of m k : kv_of m !! k = Storage.value <$> m !! k.
Proof. apply lookup_fmap. Qed.

Lemma undying_seen m t k : undying m -> seen m t k = kv_of m !! k.
Proof.
  intros Hm. unfold seen. rewrite lookup_kv_of. destruct (m !! k) as [e|] eqn:E; [|done]. cbn.
  unfold Storage.is_expired. by rewrite (Hm k e E).
Qed.

Lemma undying_spec_get m k t1 t2 :
  undying m -> fst (spec_get m k t1 t2) = kv_of m !! k
    /\ undying (snd (spec_get m k t1 t2)) /\ kv_of (snd (spec_get m k t1 t2)) = kv_of m.
Proof.
  intros Hm. rewrite spec_get_seen, undying_seen by done. split; [done|]. unfold spec_get.
  destruct (m !! k) as [e|] eqn:E; [|done]. unfold Storage.is_expired. rewrite (Hm k e E). cbn. split.
  - apply map_Forall_insert_2; [exact (Hm k e E)|done].
  - apply map_eq. intros k'. rewrite !lookup_kv_of. destruct (decide (k' = k)) as [->|Hne].
    + by rewrite lookup_insert_eq, E.
    + by rewrite lookup_insert_ne.
Qed.

Lemma lookup_foldr_delete (m : kv) ks k : foldr delete m ks !! k = if decide (k ∈ ks) then None else m !! k.
Proof.
  induction ks as [|k0 ks IH]; cbn; [done|]. destruct (decide (k = k0)) as [->|Hne].
  - rewrite lookup_delete_eq. by rewrite decide_True by set_solver.
  - rewrite lookup_delete_ne, IH by done. repeat case_decide; set_solver.
Qed.

Section Map.
Context `{StoreLaws} `{MpscLaws}.
Variable ord : Topology.node_order.
Variable clock : nat -> nat -> Z.

Lemma exists_keys_undying clk i ks n d :
  store_ok d -> undying (contents d) -> exists d',
    exists_keys clk i ks n d = Ret (n + Z.of_nat (length (filter (fun k => is_Some (kv_of (contents d) !! k)) ks)), d')
    /\ store_ok d' /\ (unbounded d -> unbounded d') /\ undying (contents d') /\ kv_of (contents d') = kv_of (contents d).
Proof.
  revert i n d. induction ks as [|k ks IH]; intros i n d Hd Hm; cbn [exists_keys].
  - exists d. by rewrite Z.add_0_r.
  - destruct (exists_law d k (clk (2 * i)%nat) (clk (2 * i + 1)%nat) Hd) as (d1 & -> & Hd1 & Hu1 & Hc).
    destruct (undying_spec_get (contents d) k (clk (2 * i)%nat) (clk (2 * i + 1)%nat) Hm) as (-> & Hm1 & Hk1).
    rewrite <- Hc in Hm1, Hk1. cbn [mbind outcome_bind].
    destruct (IH (S i) (if bool_decide (is_Some (kv_of (contents d) !! k)) then n + 1 else n) d1 Hd1 Hm1) as (d2 & -> & Hd2 & Hu2 & Hm2 & Hk2).
    exists d2. rewrite Hk2, Hk1. split_and!; [|done|auto|done|done]. rewrite filter_cons.
    case_bool_decide; case_decide; try done; cbn [length]; do 2 f_equal; lia.
Qed.

(** A data command does to the store what it does to the map. *)
Lemma simple_step c raw n s :
  shared_ok s -> unbounded (db s) -> undying (contents (db s)) -> cmd_ok c -> simple c = true -> ticking (clock n) ->
  exists s', execute ord c raw None (clock n) true s = Ret (Some (kv_reply c (kv_of (contents (db s)))), true, s')
    /\ shared_ok s' /\ unbounded (db s') /\ undying (contents (db s'))
    /\ kv_of (contents (db s')) = kv_step c (kv_of (contents (db s))).
Proof.
  intros Hs Hu Hm Hc Hsim Htick. rewrite execute_allowed by done.
  assert (Ho : no_overflow c (clock n)) by (by destruct c as [| | |k v [|]| | | | | | | |sub| |]).
  destruct (run_spec ord c raw (clock n) true s Hs Hc Htick Ho) as (r & s' & Hr & Hs' & Hu' & Hd). specialize (Hu' Hu).
  destruct c as [[m|]|msg|k|k v [ms|]|ks|ks|p|m|args|a b|u p|sub| |]; try done.
  1-3: injection Hr as <- <-; by exists s.
  - cbn [run] in Hr |- *. destruct (get_law (db s) k (clock n 0%nat) (clock n 1%nat) (sh_store s Hs)) as (r0 & d & Hg & _ & _ & Hsp).
    rewrite Hg in Hr |- *. cbn [mbind outcome_bind] in *. injection Hr as <- <-.
    destruct (undying_spec_get (contents (db s)) k (clock n 0%nat) (clock n 1%nat) Hm) as (Hv & Hm1 & Hk1).
    rewrite Hsp in Hv, Hm1, Hk1. cbn in Hv, Hm1, Hk1. subst r0. eexists. split; [|by split_and!].
    cbn. by destruct (kv_of _ !! k).
  - destruct Hd as (-> & kept & _ & Heq & Hc'). rewrite (Heq Hu) in Hc'. exists s'. rewrite Hc'.
    split_and!; [done|done|done|by apply map_Forall_insert_2|]. unfold kv_of. by rewrite fmap_insert.
  - destruct Hd as (-> & Hk). exists s'. split_and!; [|done|done| |].
    + rewrite Hr. cbn. unfold kv_of. by rewrite dom_fmap_L.
    + intros k e He. rewrite Hk in He. case_decide; [done|]. by apply (Hm k).
    + apply map_eq. intros k. rewrite lookup_kv_of, Hk. cbn [kv_step]. rewrite lookup_foldr_delete, lookup_kv_of. by case_decide.
  - cbn [run] in Hr |- *. destruct (exists_keys_undying (clock n) 0 ks 0 (db s) (sh_store s Hs) Hm) as (d & He & _ & _ & Hm1 & Hk1).
    rewrite He in Hr |- *. cbn [mbind outcome_bind] in *. injection Hr as <- <-. eexists. split; [reflexivity|]. by split_and!.
Qed.

Lemma serve_all_map rcs i s rs m' :
  shared_ok s -> unbounded (db s) -> undying (contents (db s)) ->
  Forall (fun rc => cmd_ok (snd rc) /\ simple (snd rc) = true) rcs -> (forall n, ticking (clock n)) ->
  kv_run rcs.*2 (kv_of (contents (db s))) = (rs, m') ->
  exists s', serve_all ord clock i rcs s = Ret ((fun v => serialize v []) <$> rs, s')
    /\ shared_ok s' /\ unbounded (db s') /\ undying (contents (db s')) /\ kv_of (contents (db s')) = m'.
Proof.
  intros Hs Hu Hm Hrcs Htick. revert i s rs Hs Hu Hm.
  induction Hrcs as [|[raw c] rcs [Hc Hsim] _ IH]; intros i s rs Hs Hu Hm Hrun; cbn [serve_all kv_run fmap list_fmap] in *.
  - injection Hrun as <- <-. by exists s.
  - destruct (simple_step c (Some raw) i s Hs Hu Hm Hc Hsim (Htick i)) as (s1 & -> & Hs1 & Hu1 & Hm1 & Hk1).
    cbn [mbind outcome_bind fst snd] in *. rewrite <- Hk1 in Hrun. destruct (kv_run _ _) as [rs1 m1] eqn:Er. injection Hrun as <- <-.
    destruct (IH (S i) s1 rs1 Hs1 Hu1 Hm1 Er) as (s2 & -> & Hs2). cbn [mbind outcome_bind]. by exists s2.
Qed.

End Map.

(** ** The theorems *)

Section Theorems.
Context `{StoreLaws} `{MpscLaws}.
Variable ord : Topology.node_order.
Variable wr : nat -> bool.
Variable clock : nat -> nat -> Z.
Variable requirepass : option bytes.
Variable max_payload_size : Z.
Variable tx : sender.

(** A connection that waits with an empty buffer for a client that may run
    commands, on a server outside a cluster, reads whole frames. *)
Record pipelined (rcs : list (bytes * Command)) (c : Conn) (s : Shared) : Prop := {
  pl_writes i : wr i = true;
  pl_some : rcs <> [];
  pl_frames : Forall (fun rc => reads_as (fst rc) (snd rc)) rcs;
  pl_limit : Z.of_nat (length (concat rcs.*1)) <= max_payload_size < isize_max;
  pl_buffer : buffer c = [];
  pl_auth : is_authenticated c = true;
  pl_cluster : cluster s = None;
}.

(** When a read brings whole frames of commands other than PSYNC and QUIT,
    the turn of the loop is exactly the execution of the commands one after
    the other with the replies written in their order, every byte consumed; it
    fails only as that execution does. *)
Theorem pipeline_is_sequential rcs c s :
  pipelined rcs c s -> Forall (fun rc => ordinary (snd rc)) rcs ->
  on_event ord wr clock requirepass max_payload_size tx (Read (concat rcs.*1)) c s
  = '(ws, s') ← serve_all ord clock (served c) rcs s; Ret (Wait, answered_all rcs ws c, s').
Proof.
  intros [Hwr Hsome Hfr Hlim Hb Ha Hcl] Hord. cbn [on_event]. rewrite Hb. cbn [app set_buffer buffer].
  assert (Hne : concat rcs.*1 <> []).
  { destruct Hfr as [|[raw c0] rcs (v & Hv & _)]; [done|]. cbn in Hv |- *.
    pose proof (frame_nonempty _ _ Hv) as Hl. destruct raw; [cbn in Hl; lia|done]. }
  destruct (concat rcs.*1) as [|b0 bs] eqn:E; [done|]. rewrite <- E in *.
  destruct (Z.ltb_spec max_payload_size (Z.of_nat (length (concat rcs.*1)))); [lia|].
  unfold process_buffer. rewrite (process_serves ord clock wr requirepass tx Hwr rcs); [done| |done|done|done|cbn; unfold fits; lia|done].
  apply Forall_forall. intros rc Hrc. rewrite Forall_forall in Hfr, Hord. auto.
Qed.

Lemma simple_ordinary rcs :
  Forall (fun rc : bytes * Command => cmd_ok (snd rc) /\ simple (snd rc) = true) rcs -> Forall (fun rc => ordinary (snd rc)) rcs.
Proof. intros Hs. eapply Forall_impl; [exact Hs|]. intros [raw c] [_ Hc]. by destruct c. Qed.

Lemma read_serves_map rcs c s rs m' :
  pipelined rcs c s -> shared_ok s -> unbounded (db s) -> undying (contents (db s)) ->
  Forall (fun rc => cmd_ok (snd rc) /\ simple (snd rc) = true) rcs -> (forall n, ticking (clock n)) ->
  kv_run rcs.*2 (kv_of (contents (db s))) = (rs, m') ->
  exists s', serve_all ord clock (served c) rcs s = Ret ((fun v => serialize v []) <$> rs, s')
    /\ on_event ord wr clock requirepass max_payload_size tx (Read (concat rcs.*1)) c s
       = Ret (Wait, answered_all rcs ((fun v => serialize v []) <$> rs) c, s')
    /\ shared_ok s' /\ undying (contents (db s')) /\ kv_of (contents (db s')) = m'.
Proof.
  intros Hp Hs Hu Hm Hrcs Htick Hrun.
  destruct (serve_all_map ord clock rcs (served c) s rs m') as (s' & Hserve & Hs' & _ & Hm' & Hk'); [done..|].
  exists s'. rewrite pipeline_is_sequential by (done || by apply simple_ordinary). rewrite Hserve. by split_and!.
Qed.

(** C3: to an authenticated client the server is a map.  On a server outside
    a cluster, without memory limit and whose entries have no expiry: when one
    read brings whole frames of PING, ECHO, GET, SET without PX, DEL and
    EXISTS, within the payload limit, to a client that is authenticated (or
    need not be) and has nothing in its buffer, and every write of a reply
    succeeds and the clock is monotonic, they are answered with the replies of
    a plain finite map that starts as the store's keys and values, and leave
    the store with those of the map; the connection waits for more with
    nothing left to read. *)
Theorem server_is_a_map rcs c s rs m' :
  pipelined rcs c s -> shared_ok s -> unbounded (db s) -> undying (contents (db s)) ->
  Forall (fun rc => cmd_ok (snd rc) /\ simple (snd rc) = true) rcs -> (forall n, ticking (clock n)) ->
  kv_run rcs.*2 (kv_of (contents (db s))) = (rs, m') ->
  exists s', on_event ord wr clock requirepass max_payload_size tx (Read (concat rcs.*1)) c s
      = Ret (Wait, answered_all rcs ((fun v => serialize v []) <$> rs) c, s')
    /\ shared_ok s' /\ undying (contents (db s')) /\ kv_of (contents (db s')) = m'.
Proof.
  intros Hp Hs Hu Hm Hrcs Htick Hrun.
  destruct (read_serves_map rcs c s rs m') as (s' & _ & Hread); [done..|]. by exists s'.
Qed.

Lemma run_all_shift clk k i rcs s : run_all ord clk (k + i) rcs s = run_all ord (fun n => clk (k + n)%nat) i rcs s.
Proof.
  revert i s. induction rcs as [|[raw c] rcs IH]; intros i s; [done|]. cbn [run_all].
  destruct (execute _ _ _ _ _ _ _) as [[[r a] s1]| |]; [|done|done]. cbn [mbind outcome_bind]. by rewrite <- IH, Nat.add_succ_r.
Qed.

Lemma simple_runnable rcs :
  Forall (fun rc : bytes * Command => reads_as (fst rc) (snd rc)) rcs ->
  Forall (fun rc : bytes * Command => cmd_ok (snd rc) /\ simple (snd rc) = true) rcs ->
  Forall (fun rc => runnable (snd rc) /\ reads_as (fst rc) (snd rc)) rcs.
Proof.
  intros Hf Hs. apply Forall_forall. intros [raw c] Hrc. rewrite Forall_forall in Hf, Hs.
  destruct (Hs _ Hrc) as [Hc Hsim]. split; [|exact (Hf _ Hrc)]. split; [done|]. by destruct c as [| | |k v [|]| | | | | | | |sub| |].
Qed.

(** C2: a client's writes reach the replica's data.  An authenticated client
    sends, in one read within the payload limit, whole frames of PING, ECHO,
    GET, SET without PX, DEL and EXISTS to a master outside a cluster that has
    no memory limit and no entry with an expiry and has the open channel of a
    replica registered once; all writes succeed and the clocks are monotonic.
    The replies are those of the map.  The replica's task, of a server without
    memory limit that starts out showing the master's data, fed the master's
    handshake and what was sent on its channel in reads cut anywhere, ends
    showing the map's final keys and values. *)
Theorem client_writes_reach_replica rcs c sm sr rs m' T rclock ch my_port masterauth rdb :
  pipelined rcs c sm -> shared_ok sm -> unbounded (db sm) -> undying (contents (db sm)) ->
  is_replica (repl sm) = false ->
  Forall (fun rc => cmd_ok (snd rc) /\ simple (snd rc) = true) rcs ->
  (forall n, ticking (clock n)) -> (forall n j, clock n j <= T) ->
  kv_run rcs.*2 (kv_of (contents (db sm))) = (rs, m') ->
  registrations ch (downstream_senders (repl sm)) = 1%nat -> is_closed (chans sm) ch = false ->
  Forall Str.visible (get_replid (repl sm)) -> get_replid (repl sm) <> [] -> Z.of_nat (length rdb) <= usize_max ->
  shared_ok sr -> unbounded (db sr) -> (forall n, ticking (rclock n)) -> (forall n j, rclock n j <= T) ->
  (forall t k, T <= t -> seen (contents (db sr)) t k = kv_of (contents (db sm)) !! k) ->
  exists sm' msgs, on_event ord wr clock requirepass max_payload_size tx (Read (concat rcs.*1)) c sm
      = Ret (Wait, answered_all rcs ((fun v => serialize v []) <$> rs) c, sm')
    /\ accepted (chans sm') ch = accepted (chans sm) ch ++ msgs
    /\ forall ds, nonempty ds ->
         concat ds = master_replies masterauth (get_replid (repl sm)) rdb ++ concat msgs -> fits (concat msgs) ->
         exists st sr', Replica.run_replica_loop ord wr rclock my_port masterauth (received ds) sr
             = Ret (Replica.More, Some st, sr')
           /\ Replica.total_bytes_processed st = total_len msgs
           /\ forall t k, T <= t -> seen (contents (db sr')) t k = m' !! k.
Proof.
  intros Hp Hsm Hum Hm Hmaster Hrcs Htick HT Hrun Hreg Hopen Hvis Hne Hrdb Hsr Hur Hrtick HrT Hsame.
  destruct (read_serves_map rcs c sm rs m') as (s' & Hserve & Hread & _ & Hm' & Hk'); [done..|].
  set (clk := fun n => clock (served c + n)%nat).
  destruct (converges ord wr rclock clk T rcs sm sr ch my_port masterauth rdb (pl_writes _ _ _ Hp) Hsm Hum Hmaster)
    as (sm' & msgs & Hall & Hacc & _ & Hrep); try done.
  { apply simple_runnable; [exact (pl_frames _ _ _ Hp)|done]. }
  { intros n. apply Htick. }
  { intros n j. apply HT. }
  { intros t k Ht. rewrite Hsame by done. by rewrite undying_seen. }
  unfold clk in Hall. rewrite <- run_all_shift, serve_all_run_all, Nat.add_0_r, Hserve in Hall. injection Hall as <-.
  exists s', msgs. split_and!; [done|done|]. intros ds Hds Hcat Hfit.
  destruct (Hrep ds Hds Hcat Hfit) as (st & sr' & Hloop & _ & Htot & Hview). exists st, sr'. split_and!; [done|done|].
  intros t k Ht. by rewrite Hview, undying_seen, Hk'.
Qed.

End Theorems.
