(* ===== verification/Server.v ===== *)
(** * Building the server: src/main.rs, src/config.rs, src/server.rs and
    src/storage/ttl.rs

    The configuration derived from the command line (clap's result is the
    record [Cli]) and the [.env] file, the server built from it and the expiry
    task.  The semaphore of the accept loop ([System]) is tokio's: the class
    [Semaphore] has what its documentation says, [Semaphore::new] panics above
    [MAX_PERMITS]. *)

From S2P Require Import Prelude RustStd Str Resp Slot Storage StorageTheory Store Topology ReplState Commands.
Import ReplState.

Module Config.

(** What clap parses. *)
Record Cli : Type := {
  cli_host : bytes;
  cli_port : Z;
  cli_tcp_nodelay : bool;
  cli_max_connections : Z;
  cli_max_payload_size : Z;
  cli_requirepass : option bytes;
  cli_masterauth : option bytes;
  cli_worker_threads : Z;
  cli_shard_count : Z;
  cli_max_memory_bytes : Z;
  cli_ttl_interval_ms : Z;
  cli_ttl_sample_size : Z;
  cli_replicaof : option (list bytes);
  cli_replicaof_env : option bytes;
  cli_cluster_enabled : bool;
  cli_cluster_node_id : option bytes;
  cli_cluster_announce_ip : option bytes;
  cli_cluster_announce_port : option Z;
  cli_cluster_announce_bus_port : option Z;
  cli_cluster_slots : option bytes;
}.

Record ServerConfig : Type := {
  host : bytes;
  port : Z;
  tcp_nodelay : bool;
  max_connections : Z;
  max_payload_size : Z;
  requirepass : option bytes;
  masterauth : option bytes;
  worker_threads : Z;
  shard_count : Z;
  max_memory_bytes : Z;
  ttl_interval : Z;
  ttl_sample_size : Z;
  replicaof : option (bytes * Z);
  cluster_enabled : bool;
  cluster_node_id : option bytes;
  cluster_announce_ip : bytes;
  cluster_announce_port : Z;
  cluster_announce_bus_port : Z;
  cluster_slots : option bytes;
}.

(** [ServerConfig::default()]; durations in milliseconds. *)
Definition default_config : ServerConfig := {|
  host := b!"0.0.0.0";
  port := 6379;
  tcp_nodelay := true;
  max_connections := 10000;
  max_payload_size := 512 * 1024 * 1024;
  requirepass := None;
  masterauth := None;
  worker_threads := 0;
  shard_count := 128;
  max_memory_bytes := 0;
  ttl_interval := 100;
  ttl_sample_size := 20;
  replicaof := None;
  cluster_enabled := false;
  cluster_node_id := None;
  cluster_announce_ip := b!"127.0.0.1";
  cluster_announce_port := 6379;
  cluster_announce_bus_port := 16379;
  cluster_slots := None;
|}.

(** The replication source: the option, else the environment's two words. *)
Definition replica_cfg (cli : Cli) : option (list bytes) :=
  match cli_replicaof cli with
  | Some args => Some args
  | None =>
      val ← cli_replicaof_env cli;
      let parts := Str.split_whitespace val in
      if (2 <=? length parts)%nat then Some parts else None
  end.

Definition replica_parsed (cli : Cli) : outcome (option (bytes * Z)) :=
  match replica_cfg cli with
  | None => Ret None
  | Some args =>
      host ← index args 0;
      port ← index args 1;
      Ret (Some (host, match Int.parse_u16 port with Ok p => p | Err _ => 6379 end))
  end.

(** [o.filter(|p| !p.is_empty())]. *)
Definition filter_empty (o : option bytes) : option bytes :=
  match o with
  | Some [] => None
  | _ => o
  end.

(** The configuration built by [main]; the argument of [unwrap_or] for the
    bus port is computed whether it is needed or not. *)
Definition config_of_cli `{Platform} (cli : Cli) : outcome ServerConfig :=
  replica ← replica_parsed cli;
  let announce_ip :=
    match cli_cluster_announce_ip cli with
    | Some ip => ip
    | None => if bool_decide (cli_host cli = b!"0.0.0.0") then b!"127.0.0.1" else cli_host cli
    end in
  let announce_port := default (cli_port cli) (cli_cluster_announce_port cli) in
  bus ← add_u16 announce_port 10000;
  let announce_bus_port := default bus (cli_cluster_announce_bus_port cli) in
  Ret {|
    host := cli_host cli;
    port := cli_port cli;
    tcp_nodelay := cli_tcp_nodelay cli;
    max_connections := cli_max_connections cli;
    max_payload_size := cli_max_payload_size cli;
    requirepass := filter_empty (cli_requirepass cli);
    masterauth := filter_empty (cli_masterauth cli);
    worker_threads := cli_worker_threads cli;
    shard_count := cli_shard_count cli;
    max_memory_bytes := cli_max_memory_bytes cli;
    ttl_interval := cli_ttl_interval_ms cli;
    ttl_sample_size := cli_ttl_sample_size cli;
    replicaof := replica;
    cluster_enabled := cli_cluster_enabled cli;
    cluster_node_id := cli_cluster_node_id cli;
    cluster_announce_ip := announce_ip;
    cluster_announce_port := announce_port;
    cluster_announce_bus_port := announce_bus_port;
    cluster_slots := cli_cluster_slots cli;
  |}.

(** The replication state [main] starts with. *)
Definition initial_repl `{Mpsc} (config : ServerConfig) : ReplicationState :=
  match replicaof config with
  | Some (master_host, master_port) => new_replica master_host master_port
  | None => new_master None
  end.

(** ** load_dotenv *)

Abbreviation environment := (gmap bytes bytes).

(** [std::env::var]: a value that is not UTF-8 is an error, as a missing
    variable is. *)
Definition var (key : bytes) (env : environment) : option bytes :=
  val ← env !! key;
  if Utf8.valid val then Some val else None.

(** [std::env::set_var]: a NUL is not allowed. *)
Definition set_var (key val : bytes) (env : environment) : outcome environment :=
  if bool_decide (x00 ∈ key \/ x00 ∈ val) then Panic InvalidEnvironment
  else Ret (<[key := val]> env).

(** The variable a line defines. *)
Definition dotenv_entry (line : bytes) : option (bytes * bytes) :=
  let trimmed := Str.trim line in
  match trimmed with
  | [] => None
  | b :: _ =>
      if Byte.eqb b "#" then None
      else match Str.split_once "=" trimmed with
           | None => None
           | Some (key, val) =>
               Some (Str.trim key, Str.trim_matches x27 (Str.trim_matches x22 (Str.trim val)))
           end
  end.

Definition dotenv_line (env : outcome environment) (line : bytes) : outcome environment :=
  env ← env;
  match dotenv_entry line with
  | None => Ret env
  | Some (key, val) =>
      match key, var key env with
      | _ :: _, None => set_var key val env
      | _, _ => Ret env
      end
  end.

(** [content] is the file's text, if it can be read. *)
Definition load_dotenv (content : option bytes) (env : environment) : outcome environment :=
  match content with
  | None => Ret env
  | Some text => fold_left dotenv_line (Str.lines text) (Ret env)
  end.

End Config.

(** ** tokio's semaphore *)

Class Semaphore := {
  sem : Type;
  (** [Semaphore::MAX_PERMITS]. *)
  max_permits : Z;
  sem_new : Z -> outcome sem;
  available : sem -> Z;
  try_acquire : sem -> option sem;
  release : sem -> sem;
}.

Class SemaphoreLaws `{Semaphore} : Prop := {
  sem_new_ok n : 0 <= n <= max_permits -> exists s, sem_new n = Ret s /\ available s = n;
  sem_new_panics n : max_permits < n -> sem_new n = Panic TooManyPermits;
  try_acquire_some s : 0 < available s -> exists s', try_acquire s = Some s' /\ available s' = available s - 1;
  try_acquire_none s : available s <= 0 -> try_acquire s = None;
  available_release s : available (release s) = available s + 1;
}.

Module Server.

Section Server.
Context `{Platform} `{Mpsc}.

Record Server : Type := {
  config : Config.ServerConfig;
  server_db : Storage.Db;
  server_repl : ReplicationState;
  cluster_manager : option Topology.ClusterTopology;
}.

Definition node_id (config : Config.ServerConfig) : bytes :=
  match Config.cluster_node_id config with
  | Some id => id
  | None =>
      Int.fmt_040x (hash_str (Config.cluster_announce_ip config ++ b!":"
        ++ Int.fmt_Z (Config.cluster_announce_port config)))
  end.

(** The topology of a server in cluster mode.  A specification of slots that
    fails keeps the ranges before the failure; the error is only logged. *)
Definition initial_topology (config : Config.ServerConfig) : outcome Topology.ClusterTopology :=
  let id := node_id config in
  let topo := Topology.new (Topology.ClusterNode_new id (Config.cluster_announce_ip config)
    (Config.cluster_announce_port config) (Config.cluster_announce_bus_port config) true true) in
  '(_, topo) ← match Config.cluster_slots config with
               | Some spec => Topology.parse_and_assign_slots id spec topo
               | None => Topology.add_slots_range id 0 16383 topo
               end;
  Ret topo.

Definition with_server_config (config : Config.ServerConfig) (repl_state : ReplicationState) : outcome Server :=
  db ← Storage.with_config (Config.shard_count config) (Config.max_memory_bytes config);
  cluster ← (if Config.cluster_enabled config
             then t ← initial_topology config; Ret (Some t)
             else Ret None);
  Ret {| config := config; server_db := db; server_repl := repl_state; cluster_manager := cluster |}.

(** The fields of a configuration with another port. *)
Definition with_port (p : Z) (c : Config.ServerConfig) : Config.ServerConfig := {|
  Config.host := Config.host c;
  Config.port := p;
  Config.tcp_nodelay := Config.tcp_nodelay c;
  Config.max_connections := Config.max_connections c;
  Config.max_payload_size := Config.max_payload_size c;
  Config.requirepass := Config.requirepass c;
  Config.masterauth := Config.masterauth c;
  Config.worker_threads := Config.worker_threads c;
  Config.shard_count := Config.shard_count c;
  Config.max_memory_bytes := Config.max_memory_bytes c;
  Config.ttl_interval := Config.ttl_interval c;
  Config.ttl_sample_size := Config.ttl_sample_size c;
  Config.replicaof := Config.replicaof c;
  Config.cluster_enabled := Config.cluster_enabled c;
  Config.cluster_node_id := Config.cluster_node_id c;
  Config.cluster_announce_ip := Config.cluster_announce_ip c;
  Config.cluster_announce_port := Config.cluster_announce_port c;
  Config.cluster_announce_bus_port := Config.cluster_announce_bus_port c;
  Config.cluster_slots := Config.cluster_slots c;
|}.

(** [Server::new]. *)
Definition new (port : Z) (repl_state : ReplicationState) : outcome Server :=
  with_server_config (with_port port Config.default_config) repl_state.

(** The expiry task of ttl.rs: [n] wake-ups, the [i]-th reading the clock
    at [clock i]. *)
Fixpoint run_active_ttl_eviction (ord : Storage.iter_order) (sample : nat) (clock : nat -> Z) (n : nat)
    (db : Storage.Db) : outcome Storage.Db :=
  match n with
  | O => Ret db
  | S m =>
      db1 ← run_active_ttl_eviction ord sample clock m db;
      '(_, db2) ← Storage.purge_expired_sample ord db1 sample (clock m);
      Ret db2
  end.

End Server.

End Server.
