(* ===== verification/ServerTheory.v ===== *)
(** * What building the server and loading [.env] guarantee *)

From S2P Require Import Prelude RustStd Str Resp Slot Storage StorageTheory Store Topology TopologyTheory.
From S2P Require Import ReplState ReplTheory Commands CommandsTheory Server.
Import Slot ReplState Config Server.

(** ** The server that is built *)

Section Start.
Context `{Platform} `{Mpsc}.

Lemma initial_topology_ok config :
  exists t, initial_topology config = Ret t /\ topo_ok t /\ Topology.myself_id t = node_id config
    /\ (cluster_slots config = None -> forall slot, 0 <= slot < HASH_SLOTS -> Topology.owns_slot t slot = true).
Proof.
  unfold initial_topology.
  set (me := Topology.ClusterNode_new (node_id config) (cluster_announce_ip config) (cluster_announce_port config)
    (cluster_announce_bus_port config) true true).
  destruct (new_ok me eq_refl) as [Hnew _]. destruct (cluster_slots config) as [spec|].
  - destruct (assign_parts_keeps (node_id config) (Str.split "," spec) (Topology.new me) Hnew) as (r & t & Hr & Ht & _ & Hm).
    exists t. unfold Topology.parse_and_assign_slots. rewrite Hr. by split_and!.
  - destruct (add_slots_range_Ok (node_id config) 0 16383 (Topology.new me) me Hnew) as (table & -> & Hl & Hi);
      [lia|reflexivity|apply lookup_singleton_eq|].
    cbn [mbind outcome_bind]. eexists. split; [reflexivity|]. split_and!; [|done|].
    + apply with_range_ok; [done|apply lookup_singleton_eq|lia|reflexivity|done|done].
    + intros _ slot Hslot. unfold Topology.owns_slot. rewrite get_node_lookup. cbn.
      rewrite Hi, Z2Nat.id, decide_True by (unfold HASH_SLOTS in *; lia). cbn. by rewrite bool_decide_eq_true_2.
Qed.

(** What the connections of a server share when it starts. *)
Definition initial_shared (ord : Storage.iter_order) (srv : Server) (w : channels)
    : @Commands.Shared (Db_store ord) _ := {|
  Commands.db := server_db srv : @store (Db_store ord);
  Commands.repl := server_repl srv;
  Commands.chans := w;
  Commands.cluster := cluster_manager srv;
|}.

End Start.

(** ** The environment *)

(** What a file says of a variable: its first line that defines it. *)
Fixpoint first_definition (k : bytes) (ls : list bytes) : option bytes :=
  match ls with
  | [] => None
  | line :: rest =>
      match dotenv_entry line with
      | Some (key, val) => if bool_decide (key = k /\ k <> []) then Some val else first_definition k rest
      | None => first_definition k rest
      end
  end.

(** A line whose variable can be set. *)
Definition settable (line : bytes) : Prop :=
  forall key val, dotenv_entry line = Some (key, val) -> (x00 ∉ key) /\ (x00 ∉ val) /\ Utf8.valid val = true.

(** A variable that can be read keeps its value; any other gets [def]. *)
Definition filled (def : bytes -> option bytes) (env env' : environment) : Prop :=
  forall k, env' !! k = match var k env, def k with
                        | None, Some v => Some v
                        | _, _ => env !! k
                        end.

Lemma filled_var def env env' k :
  filled def env env' -> (forall v, def k = Some v -> Utf8.valid v = true) ->
  var k env' = match var k env with Some v => Some v | None => def k end.
Proof.
  intros Hf Hd. specialize (Hf k). unfold var in *.
  destruct (env !! k) as [v|]; cbn [mbind option_bind] in *;
    [destruct (Utf8.valid v) eqn:Ev|]; [by rewrite Hf; cbn; rewrite Ev| |];
    destruct (def k) as [d|]; rewrite Hf; cbn; rewrite ?Ev, ?Hd; done.
Qed.

Lemma dotenv_line_fills line env :
  settable line ->
  exists env', dotenv_line (Ret env) line = Ret env' /\ filled (fun k => first_definition k [line]) env env'.
Proof.
  intros Hs. unfold dotenv_line, filled. cbn [mbind outcome_bind first_definition].
  assert (Hsame : filled (fun _ => None) env env) by (intros k; by destruct (var k env)).
  destruct (dotenv_entry line) as [[key val]|] eqn:He; [|by exists env].
  destruct (Hs key val He) as (Hk & Hv & Hu). destruct key as [|b key].
  { exists env. split; [done|]. intros k. case_bool_decide as Hc; [naive_solver|apply Hsame]. }
  destruct (var (b :: key) env) eqn:Er.
  - exists env. split; [done|]. intros k. case_bool_decide as Hc; [|apply Hsame].
    destruct Hc as [<- _]. by rewrite Er.
  - exists (<[b :: key := val]> env). unfold set_var. rewrite bool_decide_eq_false_2 by tauto. split; [done|].
    intros k. case_bool_decide as Hc.
    + destruct Hc as [<- _]. by rewrite Er, lookup_insert_eq.
    + rewrite lookup_insert_ne by naive_solver. apply Hsame.
Qed.

Lemma first_definition_valid k ls v :
  Forall settable ls -> first_definition k ls = Some v -> Utf8.valid v = true.
Proof.
  induction 1 as [|line ls Hl _ IH]; cbn; [done|].
  destruct (dotenv_entry line) as [[key val]|] eqn:He; [|done].
  case_bool_decide; [|done]. intros [= <-]. by destruct (Hl key val He) as (_ & _ & ?).
Qed.

Lemma first_definition_cons k line ls :
  first_definition k (line :: ls)
  = match first_definition k [line] with Some v => Some v | None => first_definition k ls end.
Proof. cbn. destruct (dotenv_entry line) as [[key val]|]; [|done]. by case_bool_decide. Qed.

Lemma dotenv_lines_fill ls env :
  Forall settable ls ->
  exists env', fold_left dotenv_line ls (Ret env) = Ret env' /\ filled (fun k => first_definition k ls) env env'.
Proof.
  intros Hs. revert env. induction Hs as [|line ls Hl Hs IH]; intros env; cbn [fold_left].
  { exists env. split; [done|]. intros k. by destruct (var k env). }
  destruct (dotenv_line_fills line env Hl) as (env1 & -> & H1).
  destruct (IH env1) as (env2 & -> & H2). exists env2. split; [done|]. intros k.
  rewrite H2, (first_definition_cons k line ls), (filled_var _ _ _ _ H1), (H1 k)
    by (intros v; apply first_definition_valid; by constructor).
  cbv beta. destruct (var k env), (first_definition k [line]), (first_definition k ls); done.
Qed.

(** ** The theorems *)

(** The server starts well formed.  With a shard count up to 2^63
    whose shards can be reserved, building the server returns: its store is
    empty and well formed, in cluster mode its topology is well formed and
    names this server, and without an explicit slot list it owns all 16384
    slots.  So what the connections share satisfies the invariant their
    theorems start from. *)
Theorem server_starts `{Platform} `{Mpsc} ord (Hord : Storage.IterOrder ord) config repl w :
  Config.shard_count config <= 2 ^ 63 ->
  capacity_ok sizeof_Shard (2 ^ Z.log2_up (Z.max (Config.shard_count config) 1)) = true ->
  exists srv, with_server_config config repl = Ret srv
    /\ CommandsTheory.shared_ok (H1 := Db_laws ord Hord) (initial_shared ord srv w)
    /\ content (server_db srv) = ∅ /\ server_repl srv = repl
    /\ match cluster_manager srv with
       | None => cluster_enabled config = false
       | Some t => cluster_enabled config = true /\ Topology.myself_id t = node_id config
           /\ (cluster_slots config = None -> forall slot, 0 <= slot < HASH_SLOTS -> Topology.owns_slot t slot = true)
       end.
Proof.
  intros Hc Hcap. unfold with_server_config.
  destruct (with_config_spec (Config.shard_count config) (Config.max_memory_bytes config) Hc Hcap) as (db & -> & Hi & He & _ & _).
  cbn [mbind outcome_bind]. destruct (cluster_enabled config); cbn [mbind outcome_bind].
  - destruct (initial_topology_ok config) as (t & -> & Ht & Hm & Hown). cbn [mbind outcome_bind].
    eexists. split; [reflexivity|]. split_and!; try done. constructor; [exact Hi|]. cbn. by intros ? [= <-].
  - eexists. split; [reflexivity|]. split_and!; try done.
Qed.

(** C37: the [.env] file only fills in what is missing.  A file whose
    variables can be set is loaded without a panic: a variable that can be
    read keeps its value, any other gets the value of the first line that
    defines it, and what no line defines is left alone. *)
Theorem dotenv_fills_in content env :
  Forall settable (Str.lines content) ->
  exists env', load_dotenv (Some content) env = Ret env'
    /\ forall k, env' !! k = match var k env, first_definition k (Str.lines content) with
                             | None, Some v => Some v
                             | _, _ => env !! k
                             end.
Proof. apply dotenv_lines_fill. Qed.

(** The bus port that is not needed overflows all the same: with overflow
    checks, a port above 55535 keeps the server from starting even when the
    bus port is given. *)
Lemma bus_port_overflow `{Platform} cli :
  overflow_checks = true -> cli_replicaof cli = None -> cli_replicaof_env cli = None ->
  55535 < default (cli_port cli) (cli_cluster_announce_port cli) ->
  config_of_cli cli = Panic ArithmeticOverflow.
Proof.
  intros Ho Hr He Hp. unfold config_of_cli, replica_parsed, replica_cfg. rewrite Hr, He. cbn [mbind outcome_bind option_bind].
  unfold add_u16. destruct (Z.leb_spec (default (cli_port cli) (cli_cluster_announce_port cli) + 10000) u16_max);
    [unfold u16_max in *; lia|]. by rewrite Ho.
Qed.

(** ** Witnesses *)

Section ServerWitnesses.
#[local] Existing Instance StorageTheory.witness_platform.

(** A counter as a semaphore. *)
#[local] Instance counter : Semaphore := {|
  sem := Z;
  max_permits := 2 ^ 61 - 1;
  sem_new := fun n => if n <=? 2 ^ 61 - 1 then Ret n else Panic TooManyPermits;
  available := fun n => n;
  try_acquire := fun n => if 0 <? n then Some (n - 1) else None;
  release := fun n => n + 1;
|}.

#[local] Instance counter_laws : SemaphoreLaws.
Proof.
  constructor; cbn; [| | | |done].
  - intros n Hn. exists n. by destruct (Z.leb_spec n (2 ^ 61 - 1)); [|lia].
  - intros n Hn. by destruct (Z.leb_spec n (2 ^ 61 - 1)); [lia|].
  - intros s Hs. destruct (Z.ltb_spec 0 s); [|lia]. by eexists.
  - intros s Hs. destruct (Z.ltb_spec 0 s); [lia|done].
Qed.

Lemma server_starts_witness :
  exists srv, with_server_config default_config (new_master None) = Ret srv
    /\ CommandsTheory.shared_ok (H1 := Db_laws list_order list_order_ok) (initial_shared list_order srv no_messages)
    /\ content (server_db srv) = ∅ /\ server_repl srv = new_master None
    /\ match cluster_manager srv with
       | None => cluster_enabled default_config = false
       | Some t => cluster_enabled default_config = true /\ Topology.myself_id t = node_id default_config
           /\ (cluster_slots default_config = None ->
               forall slot, 0 <= slot < HASH_SLOTS -> Topology.owns_slot t slot = true)
       end.
Proof.
  apply (server_starts list_order list_order_ok default_config (new_master None) no_messages);
    [vm_compute; discriminate|vm_compute; reflexivity].
Defined.

Definition dotenv_text : bytes :=
  b!"# comment" ++ [LF] ++ b!"PORT = '7000'" ++ crlf ++ b!"HOST=::1" ++ [LF] ++ b!"PORT=1".

Definition some_env : environment := {[b!"HOST" := b!"here"]}.

Definition settable_dec (line : bytes) : bool :=
  match dotenv_entry line with
  | Some (key, val) => bool_decide (x00 ∉ key) && bool_decide (x00 ∉ val) && Utf8.valid val
  | None => true
  end.

Lemma settable_dec_ok ls : forallb settable_dec ls = true -> Forall settable ls.
Proof.
  intros Hb. apply Forall_forall. intros line Hl key val He. rewrite forallb_forall in Hb.
  specialize (Hb line (proj1 (list_elem_of_In _ _) Hl)). unfold settable_dec in Hb. rewrite He in Hb.
  rewrite !andb_true_iff, !bool_decide_eq_true in Hb. tauto.
Qed.

Lemma dotenv_fills_in_witness :
  exists env', load_dotenv (Some dotenv_text) some_env = Ret env'
    /\ env' !! b!"PORT" = Some b!"7000" /\ env' !! b!"HOST" = Some b!"here".
Proof.
  destruct (dotenv_fills_in dotenv_text some_env) as (env' & Hl & Hk).
  - apply settable_dec_ok. vm_compute. reflexivity.
  - exists env'. split; [exact Hl|]. split; rewrite Hk; vm_compute; reflexivity.
Defined.

End ServerWitnesses.
