(* ===== verification/System.v ===== *)
(** * The running server: src/server.rs and the tasks it spawns

    [Sys] is what exists while [Server::run_with_shutdown] runs: what the
    tasks share, the connections being served with the phase each is in, the
    semaphore of the accept loop, whether it has been told to stop, the
    broadcast to the connections, and where the replication and the expiry
    task are.  [sys_step] is one step of one task, chosen by the scheduler; a
    step touches what is shared at most once, that is, under one lock: a
    connection moves by one access of [Regions], the expiry task by one region
    of [purge_expired_sample], the replication task by taking a frame, by one
    access of the command in it, or by recording its progress.  A step may use
    any outcome of its socket's writes ([wr]), any monotonic clock and, where
    the memory counter is read, any value of it between two updates of a
    region ([lag]). *)

From S2P Require Import Prelude RustStd Str Resp Slot Storage StorageTheory Store Calls Topology.
From S2P Require Import ReplState ReplTheory Runtime Commands CommandsTheory Connection ConnectionTheory.
From S2P Require Import Regions Replica Server.
Import Resp Slot ReplState Commands Connection Regions Config.

Module System.

(** Where the replication task is. *)
Inductive task : Type :=
| NoTask                          (** not started, or it has returned *)
| Greeting                        (** connected to the master *)
| Syncing (l : Replica.Link)      (** PSYNC sent *)
| Loading (l : Replica.Link)      (** before the snapshot *)
| Applying (st : Replica.Stream)  (** in the loop over the buffer *)
(** running the command of a frame of [consumed] bytes *)
| Executing (st : Replica.Stream) (consumed : Z) (j : job)
(** before the offset is stored, and the reply to REPLCONF GETACK *)
| Recording (st : Replica.Stream) (consumed : Z) (getack : bool)
| Reading (st : Replica.Stream)   (** in the read that follows it *)
.

Section System.
Context `{Platform} `{StoreRegions} `{MpscRx} `{Broadcast} `{Semaphore}.
Variable ord : Topology.node_order.
Variable config : ServerConfig.

(** A connection's task. *)
Record Client : Type := {
  conn : Conn;
  at_ : phase;
  (** [downstream_tx] and the receiver of the shutdown broadcast. *)
  chan : sender;
  stop_rx : receiver;
}.

Record Sys : Type := {
  shared : Shared;
  clients : gmap nat Client;
  permits : sem;
  stopped : bool;
  shutdown : bus;
  repl_task : task;
  (** The purge the expiry task is in, [None] while it sleeps. *)
  purging : option purge_call;
}.

Definition with_shared (s : Shared) (y : Sys) : Sys :=
  {| shared := s; clients := clients y; permits := permits y; stopped := stopped y; shutdown := shutdown y;
     repl_task := repl_task y; purging := purging y |}.

Definition with_chans (w : channels) (y : Sys) : Sys :=
  with_shared {| db := db (shared y); repl := repl (shared y); chans := w; cluster := cluster (shared y) |} y.

Definition put_client (i : nat) (c : Conn) (p : phase) (cl : Client) (y : Sys) : Sys :=
  {| shared := shared y;
     clients := <[i := {| conn := c; at_ := p; chan := chan cl; stop_rx := stop_rx cl |}]> (clients y);
     permits := permits y; stopped := stopped y; shutdown := shutdown y; repl_task := repl_task y; purging := purging y |}.

Definition with_task (t : task) (y : Sys) : Sys :=
  {| shared := shared y; clients := clients y; permits := permits y; stopped := stopped y; shutdown := shutdown y;
     repl_task := t; purging := purging y |}.

Definition with_purge (c : option purge_call) (y : Sys) : Sys :=
  {| shared := shared y; clients := clients y; permits := permits y; stopped := stopped y; shutdown := shutdown y;
     repl_task := repl_task y; purging := c |}.

(** ** The start *)

(** The address the listener binds. *)
Definition listen_addr : bytes := host config ++ b!":" ++ Int.fmt_Z (port config).

(** [run_with_shutdown] up to its loop; [bind_ok] tells whether the address
    parses and can be bound, [connected] whether the replication task reaches
    its master. *)
Definition boot (bind_ok : bytes -> bool) (connected : bool) (s : Shared) : outcome (option Sys) :=
  if bind_ok listen_addr then
    p ← sem_new (max_connections config);
    Ret (Some {| shared := s; clients := ∅; permits := p; stopped := false; shutdown := bus_new;
                 repl_task := if is_replica (repl s) && connected then Greeting else NoTask; purging := None |})
  else Ret None.

(** ** The accept loop *)

(** A client that got a permit: its shutdown receiver, its task and its
    channel. *)
Definition accept (i : nat) (p : sem) (y : Sys) : Sys :=
  let '(rx, b) := subscribe (shutdown y) in
  let '(tx, w) := new_channel (chans (shared y)) in
  let y1 := with_chans w y in
  {| shared := shared y1;
     clients := <[i := {| conn := new (requirepass config); at_ := Select; chan := tx; stop_rx := rx |}]> (clients y);
     permits := p; stopped := stopped y; shutdown := b; repl_task := repl_task y; purging := purging y |}.

(** The shutdown signal. *)
Definition stop (y : Sys) : Sys :=
  {| shared := shared y; clients := clients y; permits := permits y; stopped := true;
     shutdown := announce (shutdown y); repl_task := repl_task y; purging := purging y |}.

(** The end of a connection's task: its permit and its receivers are dropped. *)
Definition leave (i : nat) (cl : Client) (y : Sys) : Sys :=
  let y1 := with_chans (drop_rx (chan cl) (chans (shared y))) y in
  {| shared := shared y1; clients := delete i (clients y); permits := release (permits y); stopped := stopped y;
     shutdown := shutdown y; repl_task := repl_task y; purging := purging y |}.

(** ** The replication task *)

(** The shared state once the reply to PSYNC is read. *)
Definition resynced (id : option bytes) (s : Shared) : Shared :=
  match id with
  | Some id => with_repl (set_replid id (repl s), chans s) s
  | None => s
  end.

Definition stream_of (l : Replica.Link) : Replica.Stream :=
  {| Replica.s_buffer := Replica.link_buffer l; Replica.total_bytes_processed := 0;
     Replica.s_written := Replica.link_written l; Replica.s_served := 0%nat |}.

(** The head of the loop over a buffer that is not empty: the next frame. *)
Definition take_frame (st : Replica.Stream) : outcome task :=
  '(r, cursor) ← parse (Replica.s_buffer st);
  match r with
  | Ok (Some v) =>
      consumed ← sub_usize (Z.of_nat (length (Replica.s_buffer st))) (Z.of_nat (length cursor));
      rest ← slice_from (Z.to_nat consumed) (Replica.s_buffer st);
      let st1 := Replica.with_buffer rest st in
      Ret (match from_value v with
           | Ok (ReplConf args) => Recording st1 consumed (Replica.is_getack args)
           | Ok cmd => Executing st1 consumed (Start cmd)
           | Err _ => Recording st1 consumed false
           end)
  | Ok None => Ret (Reading st)
  | Err _ => rest ← slice_from 1 (Replica.s_buffer st); Ret (Reading (Replica.with_buffer rest st))
  end.

(** The next access of the command of a frame, which is run without the
    topology, a password and the bytes to propagate. *)
Definition bare (s : Shared) : Shared := {| db := db s; repl := repl s; chans := chans s; cluster := None |}.

Definition execute_frame (clock : nat -> nat -> Z) (lag : Z) (st : Replica.Stream) (consumed : Z) (j : job) (s : Shared)
    : outcome (task * Shared) :=
  r ← job_step ord lag None None (clock (Replica.s_served st)) true j (bare s);
  let '(t, s1) := match r with
                  | Busy j1 s1 => (Executing st consumed j1, s1)
                  | Replied _ _ s1 => (Recording st consumed false, s1)
                  end in
  Ret (t, {| db := db s1; repl := repl s1; chans := chans s1; cluster := cluster s |}).

(** The end of the frame. *)
Definition record_frame (wr : nat -> bool) (st : Replica.Stream) (consumed : Z) (getack : bool) (s : Shared)
    : outcome (task * Shared) :=
  '(st1, s1) ← Replica.advance consumed st s;
  let st2 := Replica.count_served st1 in
  Ret (if getack then
         if wr (length (Replica.s_written st1))
         then Applying {| Replica.s_buffer := Replica.s_buffer st2;
                Replica.total_bytes_processed := Replica.total_bytes_processed st2;
                Replica.s_written := Replica.s_written st2 ++ [Replica.ack_reply (Replica.total_bytes_processed st2)];
                Replica.s_served := Replica.s_served st2 |}
         else NoTask
       else Applying st2, s1).

(** A buffer never outgrows [isize::MAX]. *)
Definition room (b : bytes) : bool := Z.of_nat (length b) <? isize_max.

(** The replication task's steps: its state and the shared state after. *)
Inductive task_step : task -> Shared -> task -> Shared -> Prop :=
| task_hello wr rs l s :
    Replica.hello wr (port config) (masterauth config)
      {| Replica.link_buffer := []; Replica.link_written := []; Replica.link_reads := rs |} = Replica.Going tt l ->
    task_step Greeting s (Syncing l) s
| task_resync l id l1 s :
    Replica.receive Replica.read_fullresync_response l = Replica.Going id l1 ->
    task_step (Syncing l) s (Loading l1) (resynced id s)
| task_snapshot l l1 s :
    Replica.receive Replica.read_rdb_file l = Replica.Going tt l1 -> Replica.link_reads l1 = [] ->
    room (Replica.link_buffer l1) = true ->
    task_step (Loading l) s (Applying (stream_of l1)) s
| task_drained st s : Replica.s_buffer st = [] -> task_step (Applying st) s (Reading st) s
| task_frame st s t : Replica.s_buffer st <> [] -> take_frame st = Ret t -> task_step (Applying st) s t s
| task_execute clock lag st consumed j s t s1 :
    (forall n, ticking (clock n)) -> execute_frame clock lag st consumed j s = Ret (t, s1) ->
    task_step (Executing st consumed j) s t s1
| task_record wr st consumed getack s t s1 :
    record_frame wr st consumed getack s = Ret (t, s1) -> task_step (Recording st consumed getack) s t s1
| task_read st data s :
    data <> [] -> room (Replica.s_buffer st ++ data) = true ->
    task_step (Reading st) s (Applying (Replica.with_buffer (Replica.s_buffer st ++ data) st)) s
(** An error or the end of the stream, or a panic: the task is over. *)
| task_ends t s : task_step t s NoTask s.

(** ** The steps *)

Inductive act : Type :=
| Accept (i : nat)
| Reject
| AcceptFailed
| Stop
| Forward (i : nat) (data : bytes)  (** a replicated command is taken from the channel *)
| Wake (i : nat) (e : event)
| Access (i : nat) (p : phase)      (** the next access of a connection in phase [p] *)
| Leave (i : nat)
| PurgeStart (now : Z)                (** the expiry task wakes up and reads the clock *)
| Purge
| Replicate.

Definition busy (p : phase) : bool :=
  match p with
  | Select | Over _ => false
  | _ => true
  end.

(** Between two accesses a task can be dropped only where it waits. *)
Definition abortable (p : phase) : bool :=
  match p with
  | Run _ _ | Counting => false
  | _ => true
  end.

(** The events of [select!] other than a message of the channel. *)
Definition ready (e : event) (cl : Client) (y : Sys) : bool :=
  match e with
  | Shutdown => notified (shutdown y) (stop_rx cl)
  | Replicated _ => false
  | ReadError | Read _ => true
  end.

Inductive sys_step : Sys -> act -> Sys -> Prop :=
| step_accept i p y :
    stopped y = false -> clients y !! i = None -> try_acquire (permits y) = Some p ->
    sys_step y (Accept i) (accept i p y)
| step_reject y : stopped y = false -> try_acquire (permits y) = None -> sys_step y Reject y
| step_accept_failed y : stopped y = false -> sys_step y AcceptFailed y
| step_stop y : stopped y = false -> sys_step y Stop (stop y)
| step_forward i cl wr data w c1 p1 y :
    clients y !! i = Some cl -> at_ cl = Select -> is_downstream_replica (conn cl) = true ->
    recv (chan cl) (chans (shared y)) = Some (data, w) ->
    wake wr (max_payload_size config) (Replicated data) (conn cl) = (c1, p1) ->
    sys_step y (Forward i data) (put_client i c1 p1 cl (with_chans w y))
| step_wake i cl wr e c1 p1 y :
    clients y !! i = Some cl -> at_ cl = Select -> ready e cl y = true ->
    wake wr (max_payload_size config) e (conn cl) = (c1, p1) ->
    sys_step y (Wake i e) (put_client i c1 p1 cl y)
| step_access i cl wr clock lag c1 p1 s1 y :
    clients y !! i = Some cl -> busy (at_ cl) = true -> (forall n, ticking (clock n)) ->
    advance ord wr clock lag (requirepass config) (chan cl) (conn cl) (at_ cl) (shared y) = Ret (c1, p1, s1) ->
    sys_step y (Access i (at_ cl)) (put_client i c1 p1 cl (with_shared s1 y))
(** A panic ends the task; every access that panics does so before it
    changes anything.  A failed allocation aborts the process instead. *)
| step_panic i cl wr clock lag x y :
    clients y !! i = Some cl -> busy (at_ cl) = true -> (forall n, ticking (clock n)) ->
    advance ord wr clock lag (requirepass config) (chan cl) (conn cl) (at_ cl) (shared y) = Panic x ->
    x <> AllocationFailure ->
    sys_step y (Leave i) (leave i cl y)
| step_over i cl ok y : clients y !! i = Some cl -> at_ cl = Over ok -> sys_step y (Leave i) (leave i cl y)
(** When [main] returns, the runtime drops the tasks that are left. *)
| step_abort i cl y :
    stopped y = true -> clients y !! i = Some cl -> abortable (at_ cl) = true ->
    sys_step y (Leave i) (leave i cl y)
| step_purge_start now y :
    purging y = None -> sys_step y (PurgeStart now) (with_purge (Some (PurgeRead now 0)) y)
| step_purge c c1 d y :
    purging y = Some c -> purge_step (Z.to_nat (ttl_sample_size config)) c (db (shared y)) = Ret (c1, d) ->
    sys_step y Purge (with_purge c1 (with_shared (with_db d (shared y)) y))
| step_task t s1 y :
    task_step (repl_task y) (shared y) t s1 ->
    sys_step y Replicate (with_task t (with_shared s1 y)).

(** Runs. *)
Definition steps : Sys -> Sys -> Prop := rtc (fun y y' => exists a, sys_step y a y').

End System.
End System.
