(* ===== verification/SystemTheory.v ===== *)
(** * What the running server guarantees

    The invariant of every state the tasks can reach together, the data
    being out of reach of clients that have not authenticated, and what a
    connected replica is sent while the other tasks run. *)

From S2P Require Import Prelude RustStd Str Resp RespTheory Slot Storage StorageTheory Store Calls.
From S2P Require Import Topology TopologyTheory ReplState ReplTheory Runtime Commands CommandsTheory.
From S2P Require Import Connection ConnectionTheory Regions RegionsTheory Replica ReplicaTheory Server ServerTheory System.
Import Resp Slot ReplState Commands Connection Regions Config System.

(** ** One access of a connection *)

(** The indices a call holds between its regions are those of shards. *)
Definition set_call_ok (total : nat) (c : set_call) : Prop :=
  match c with
  | SetScan _ (Some (idx, _, _)) | SetEvict idx _ => (idx < total)%nat
  | _ => True
  end.

Definition purge_call_ok (total : nat) (c : purge_call) : Prop :=
  match c with
  | PurgeWrite _ i _ => (i < total)%nat
  | PurgeRead _ _ => True
  end.

Definition job_ok (total : nat) (j : job) : Prop :=
  match j with
  | Start c => cmd_ok c
  | Setting _ _ _ c => set_call_ok total c
  | _ => True
  end.

Definition phase_ok (total : nat) (p : phase) : Prop :=
  match p with
  | Run _ j => job_ok total j
  | _ => True
  end.

Section Access.
Context `{RegionLaws} `{MpscLaws}.
Variable ord : Topology.node_order.
Variable wr : nat -> bool.
Variable clock : nat -> nat -> Z.
Variable lag : Z.
Variable requirepass : option bytes.
Variable tx : sender.

(** The shared state between two regions: every key is in its shard and the
    topology is well formed. *)
Record shared_wf (s : Shared) : Prop := {
  sw_store : store_wf (db s);
  sw_cluster t : cluster s = Some t -> topo_ok t;
}.

(** What every access keeps of it. *)
Record shared_keeps (s s1 : Shared) : Prop := {
  sk_store : keeps (db s) (db s1);
  sk_cluster t : cluster s1 = Some t -> topo_ok t;
}.

Lemma shared_ok_wf s : shared_ok s -> shared_wf s.
Proof. intros [Hd Hc]. by constructor; [apply ok_wf|]. Qed.

Lemma shared_keeps_wf s s1 : shared_keeps s s1 -> shared_wf s1.
Proof. intros [(Hw & _) Hc]. by constructor. Qed.

Lemma shared_keeps_total s s1 : shared_keeps s s1 -> shard_total (db s1) = shard_total (db s).
Proof. by intros [(_ & Ht & _) _]. Qed.

(** An access that leaves the store alone. *)
Lemma same_db_keeps s s1 :
  shared_wf s -> db s1 = db s -> (forall t, cluster s1 = Some t -> topo_ok t) -> shared_keeps s s1.
Proof. intros [Hd _] Heq Hc. constructor; [rewrite Heq; by apply keeps_refl|done]. Qed.

Lemma shared_keeps_refl s : shared_wf s -> shared_keeps s s.
Proof. intros Hs. apply same_db_keeps; [done|done|apply Hs]. Qed.

Lemma with_db_keeps d s : shared_wf s -> keeps (db s) d -> shared_keeps s (with_db d s).
Proof. intros [_ Hc] Hk. by constructor. Qed.

Lemma propagate_keeps raw s : shared_wf s -> shared_keeps s (propagate raw s).
Proof.
  intros Hs. destruct (propagate_db raw s) as [Ed Ec]. apply same_db_keeps; [done|done|]. rewrite Ec. apply Hs.
Qed.

Definition result_ok (s : Shared) (r : job_result) : Prop :=
  match r with
  | Busy j s1 => job_ok (shard_total (db s)) j /\ shared_keeps s s1
  | Replied _ _ s1 => shared_keeps s s1
  end.

(** A command that does not reach the store. *)
Lemma run_local_ends c raw n auth s :
  (match c with Get _ | Set_ _ _ _ | Del _ | Exists_ _ | Keys _ => False | _ => True end) -> shared_wf s -> cmd_ok c ->
  ends (fun '(_, _, s1) => shared_keeps s s1) (run ord c raw (clock n) auth s).
Proof.
  intros Hl Hs Hc. pose proof (shared_keeps_refl s Hs) as Hr. destruct c; try done; cbn [run]; [by case_match|].
  destruct (cluster s) as [t|] eqn:Et; [|done]. pose proof (sw_cluster s Hs t Et) as Ht.
  destruct (no_overflow_dec clock (Cluster sub) n) as [Ho|Ho].
  - destruct (exec_cluster_ok ord sub t (clock n) Ht Hc Ho) as (v & t' & -> & Ht'). cbn.
    apply same_db_keeps; [done|done|]. intros t2. cbn. by intros [= <-].
  - destruct sub as [| | | |ip pt|]; try (by destruct Ho). cbn in Ho. unfold exec_cluster, exec_meet, add_u16.
    destruct (Z.leb_spec (pt + 10000) u16_max); [by destruct Ho; left|].
    destruct overflow_checks; [done|]. by destruct Ho; right.
Qed.

Lemma start_ends c raw n auth s :
  shared_wf s -> cmd_ok c -> ends (result_ok s) (start ord c raw (clock n) auth s).
Proof.
  intros Hs Hc. pose proof (shared_keeps_refl s Hs) as Hrefl.
  pose proof (fun Hl => run_local_ends c raw n auth s Hl Hs Hc) as Hlocal.
  destruct c; cbn [start]; try (eapply ends_bind; [by apply Hlocal|by intros [[r a] s1]]); try done.
  - destruct (lookup_region (db s) key (clock n 0%nat) (clock n 1%nat) (sw_store s Hs)) as (r & d & -> & Hk & _).
    cbn. destruct r; cbn; [by apply with_db_keeps|split; [done|by apply with_db_keeps]].
  - destruct px_ms as [ms|]; [|done]. unfold add_millis. by destruct (_ <=? _).
Qed.

Lemma set_step_ends k v exp now c st :
  store_wf st -> set_call_ok (shard_total st) c ->
  exists c1 st', set_step k v exp now lag c st = Ret (c1, st') /\ keeps st st'
    /\ from_option (set_call_ok (shard_total st)) True c1.
Proof.
  intros Hw Hc. destruct c as [|i oldest|idx k0|]; cbn [set_step].
  - eexists _, _. split_and!; [done|by apply keeps_refl|]. by destruct (over_limit st lag).
  - destruct (Nat.ltb_spec i (shard_total st)) as [Hlt|].
    + destruct (scan_region st i oldest Hw Hlt) as (o & -> & Ho). eexists _, _. split_and!; [done|by apply keeps_refl|].
      destruct Ho as [->|(k1 & t1 & ->)]; [exact Hc|exact Hlt].
    + eexists _, _. split_and!; [done|by apply keeps_refl|]. by destruct oldest as [[[idx k1] t1]|].
  - destruct (evict_region st idx k0 Hw Hc) as (removed & st' & -> & Hk & _). eexists _, _. split_and!; [done|done|].
    by destruct removed.
  - destruct (insert_region st k v exp now Hw) as (st' & -> & Hk & _). by eexists _, _.
Qed.

Lemma job_step_ends raw n auth j s :
  shared_wf s -> job_ok (shard_total (db s)) j -> ends (result_ok s) (job_step ord lag requirepass raw (clock n) auth j s).
Proof.
  intros Hs Hj. pose proof (sw_store s Hs) as Hw. pose proof (shared_keeps_refl s Hs) as Hrefl.
  destruct j as [c|k|k v exp c| |[|k keys] count|count|i [|k keys] count|i k keys count|now i ks]; cbn [job_step].
  - pose proof (start_ends c raw n auth s Hs Hj) as Hst. destruct requirepass as [p|]; [|exact Hst].
    destruct auth; [exact Hst|]. by destruct (execute_gate ord c raw p (clock n) s) as (reply & -> & _).
  - destruct (cleanup_region (db s) k (clock n 1%nat) Hw) as (d & -> & Hk & _). by apply with_db_keeps.
  - destruct (set_step_ends k v exp (clock n 1%nat) c (db s) Hw Hj) as (c1 & d & -> & Hk & Hc1). cbn.
    split; [by destruct c1|by apply with_db_keeps].
  - by apply propagate_keeps.
  - by case_match.
  - destruct (del_region (db s) k Hw) as (r & d & -> & Hk & _). split; [done|by apply with_db_keeps].
  - by apply propagate_keeps.
  - done.
  - destruct (lookup_region (db s) k (clock n (2 * i)%nat) (clock n (2 * i + 1)%nat) Hw) as (r & d & -> & Hk & _).
    split; [by destruct r as [[]|]|by apply with_db_keeps].
  - destruct (cleanup_region (db s) k (clock n (2 * i + 1)%nat) Hw) as (d & -> & Hk & _). split; [done|by apply with_db_keeps].
  - unfold keys_step. destruct (Nat.ltb_spec i (shard_total (db s))) as [Hlt|]; [|done].
    by destruct (keys_region (db s) i now Hw Hlt) as (ks1 & ->).
Qed.

(** What an access does to the connection. *)
Record moved (c c1 : Conn) : Prop := {
  mv_buffer : (length (buffer c1) <= length (buffer c))%nat;
  mv_written : written c `prefix_of` written c1;
}.

#[local] Instance moved_refl : Reflexive moved.
Proof. intros c. by constructor. Qed.

#[local] Instance moved_trans : Transitive moved.
Proof. intros c1 c2 c3 [? ?] [? ?]. constructor; [lia|by etransitivity]. Qed.

Lemma moved_write data c c1 : write_all wr data c = Some c1 -> moved c c1.
Proof.
  unfold write_all. destruct (wr _); [|done]. intros [= <-]. constructor; [done|]. by apply prefix_app_r.
Qed.

Lemma moved_reply data c next : moved c (fst (reply_then wr data c next)).
Proof. unfold reply_then. destruct (write_all wr data c) as [c1|] eqn:E; [by eapply moved_write|done]. Qed.

Lemma moved_counted r : moved (fst r) (fst (counted r)).
Proof. unfold counted. by destruct r as [c []]. Qed.

Lemma moved_set_auth a c : moved c (set_auth a c).
Proof. by constructor. Qed.

Lemma reply_phase_ok total data c next : phase_ok total next -> phase_ok total (snd (reply_then wr data c next)).
Proof. intros Hn. unfold reply_then. by destruct (write_all _ _ _). Qed.

Lemma counted_phase r : snd (counted r) = snd r.
Proof. unfold counted. by destruct r as [c []]. Qed.

Definition access_ok (c : Conn) (s : Shared) (r : Conn * phase * Shared) : Prop :=
  let '(c1, p1, s1) := r in shared_keeps s s1 /\ phase_ok (shard_total (db s)) p1 /\ moved c c1.

Lemma psync_replies_ends total c s : ends (fun r => phase_ok total (snd r) /\ moved c (fst r)) (psync_replies wr c s).
Proof.
  unfold psync_replies. destruct (write_all wr _ c) as [c1|] eqn:E1; [|done]. apply moved_write in E1.
  destruct empty_rdb_ok as (rdb & -> & _). cbn [mbind outcome_bind].
  destruct (write_all wr _ c1) as [c2|] eqn:E2; [|done]. apply moved_write in E2. split; [by apply reply_phase_ok|].
  do 2 (etransitivity; [done|]). apply moved_reply.
Qed.

Lemma scan_value_ends total v raw c s :
  items_ok v -> ends (fun r => phase_ok total (snd r) /\ moved c (fst r)) (scan_value wr v raw c s).
Proof.
  intros Hv. unfold scan_value.
  assert (Hreply : forall data next, phase_ok total next ->
    ends (fun r => phase_ok total (snd r) /\ moved c (fst r)) (Ret (reply_then wr data c next))).
  { intros data next Hn. split; [by apply reply_phase_ok|apply moved_reply]. }
  destruct (from_value v) as [cmd|e] eqn:Ec; [|by apply Hreply].
  pose proof (from_value_ok v cmd Hv Ec) as Hc.
  destruct cmd; try (by apply Hreply); try apply psync_replies_ends;
    (destruct (redirection _ _ _); [by apply Hreply|done]).
Qed.

Lemma scan_ends total c s : fits (buffer c) -> ends (fun r => phase_ok total (snd r) /\ moved c (fst r)) (scan wr c s).
Proof.
  intros Hf. destruct (decide (buffer c = [])) as [Hb|Hb]; [unfold scan; by rewrite Hb|].
  pose proof (parse_safe (buffer c) Hf) as Hsafe.
  destruct (parse (buffer c)) as [[[[v|]|e] rest]|x|] eqn:Ep; cbn in Hsafe; [| | | |done].
  - destruct (parse_fits_sound _ _ _ Hf Ep) as (fr0 & _ & Hfr0).
    destruct (scan_frame wr c s v rest Hf Ep) as (fr & Hfr & ->).
    eapply ends_bind; [apply (scan_value_ends total v fr (set_buffer rest c) s); by eapply frame_items_ok|].
    intros r [Hp Hm]. cbn. rewrite counted_phase. split; [done|]. etransitivity; [|apply moved_counted].
    etransitivity; [|exact Hm]. constructor; [|done]. cbn. rewrite Hfr, length_app. lia.
  - unfold scan. rewrite Ep. by destruct (buffer c).
  - unfold scan. rewrite Ep. destruct (buffer c) eqn:Eb; [done|]. cbn [mbind outcome_bind].
    destruct (write_all wr _ c) as [c1|] eqn:E; [|done]. split; [done|]. apply moved_write in E as [_ Hw].
    constructor; [cbn; lia|done].
  - unfold scan. rewrite Ep. destruct (buffer c); [done|]. cbn. by destruct Hsafe as [-> | ->].
Qed.

Lemma advance_ends c p s :
  fits (buffer c) -> shared_wf s -> phase_ok (shard_total (db s)) p ->
  ends (access_ok c s) (advance ord wr clock lag requirepass tx c p s).
Proof.
  intros Hf Hs Hp. pose proof (shared_keeps_refl s Hs) as Hrefl.
  destruct p as [| |raw j| | |ok]; cbn [advance]; try (cbn; split_and!; done).
  - eapply ends_bind; [by apply scan_ends|]. intros [c1 p1] [? ?]. done.
  - eapply ends_bind; [by apply (job_step_ends (Some raw) (served c) (is_authenticated c) j s)|].
    intros [j1 s1|reply a s1]; [intros [? ?]; done|]. intros Hs1. cbn.
    destruct (counted _) as [c1 p1] eqn:E. split_and!; [done| |].
    + change p1 with (snd (c1, p1)). rewrite <- E, counted_phase. destruct reply; [by apply reply_phase_ok|done].
    + change c1 with (fst (c1, p1)). rewrite <- E. etransitivity; [|apply moved_counted].
      destruct reply; [|apply moved_set_auth]. etransitivity; [apply (moved_set_auth a)|apply moved_reply].
  - cbn. split_and!; [|done|done]. apply same_db_keeps; [done|done|apply Hs].
  - cbn. split_and!; [|done|by constructor]. apply same_db_keeps; [done|done|apply Hs].
Qed.

End Access.

(** ** Clients that have not authenticated *)

Section Gate.
Context `{Platform} `{StoreRegions} `{Mpsc}.
Variable ord : Topology.node_order.
Variable wr : nat -> bool.
Variable clock : nat -> nat -> Z.
Variable lag : Z.
Variable requirepass : option bytes.
Variable tx : sender.

(** A client that may not run commands is not in the middle of one. *)
Definition gated (c : Conn) (p : phase) : Prop :=
  allowed requirepass (is_authenticated c) = false ->
  match p with
  | Run _ (Start _) => True
  | Run _ _ => False
  | _ => True
  end.

Lemma gated_reply data c next :
  (match next with Run _ _ => False | _ => True end) ->
  gated (fst (reply_then wr data c next)) (snd (reply_then wr data c next)).
Proof. intros Hn Ha. unfold reply_then in *. destruct (write_all _ _ _); cbn; by destruct next. Qed.

Lemma gated_counted r : gated (fst r) (snd r) -> gated (fst (counted r)) (snd (counted r)).
Proof. unfold gated, counted. by destruct r as [c []]. Qed.

Lemma reply_auth data c next : is_authenticated (fst (reply_then wr data c next)) = is_authenticated c.
Proof. unfold reply_then, write_all. by destruct (wr _). Qed.

Lemma counted_auth r : is_authenticated (fst (counted r)) = is_authenticated (fst r).
Proof. unfold counted. by destruct r as [c []]. Qed.

Lemma psync_replies_gated c s : if_ret (fun r => gated (fst r) (snd r)) (psync_replies wr c s).
Proof.
  unfold psync_replies. destruct (write_all wr _ c) as [c1|]; [|done].
  destruct get_empty_rdb_bytes; cbn [mbind outcome_bind]; [|done|done].
  destruct (write_all wr _ c1) as [c2|]; [|done]. by apply gated_reply.
Qed.

Lemma scan_gated c s : if_ret (fun r => gated (fst r) (snd r)) (scan wr c s).
Proof.
  unfold scan. destruct (buffer c) as [|b0 bs]; [done|].
  destruct (parse _) as [[[[v|]|e] rest]|x|]; cbn [mbind outcome_bind]; try done.
  - destruct (sub_usize _ _); cbn [mbind outcome_bind]; try done.
    destruct (split_to _ _) as [[raw r]| |]; cbn [mbind outcome_bind]; try done.
    eapply (if_ret_bind (fun r => gated (fst r) (snd r))); [|intros x Hx; by apply gated_counted].
    unfold scan_value. destruct (from_value v) as [[]|e]; try (by apply gated_reply); try apply psync_replies_gated;
      (destruct (redirection _ _ _); [by apply gated_reply|done]).
  - by destruct (write_all _ _ _).
Qed.

(** The gate answers at once and touches nothing shared. *)
Lemma start_gated cmd raw n auth s :
  allowed requirepass auth = false ->
  exists reply a, job_step ord lag requirepass raw (clock n) auth (Start cmd) s = Ret (Replied reply a s).
Proof.
  intros Ha. destruct requirepass as [pass|] eqn:Ep; [|done]. cbn in Ha. subst auth. cbn [job_step].
  destruct (execute_gate ord cmd raw pass (clock n) s) as (reply & -> & _). by eexists _, _.
Qed.

Lemma gated_answered c reply a : gated (fst (answered wr c reply a)) (snd (answered wr c reply a)).
Proof.
  intros _. unfold answered. rewrite counted_phase. destruct reply; [|done].
  unfold reply_then. by destruct (write_all _ _ _).
Qed.

Lemma advance_gated c p s :
  gated c p ->
  if_ret (fun '(c1, p1, s1) => gated c1 p1
    /\ (allowed requirepass (is_authenticated c) = false -> same_data s s1))
    (advance ord wr clock lag requirepass tx c p s).
Proof.
  intros Hg. destruct p as [| |raw j| | |ok]; cbn [advance]; try (by split).
  - eapply if_ret_bind; [apply scan_gated|]. by intros [c1 p1] Hc1.
  - destruct (allowed requirepass (is_authenticated c)) eqn:Ha.
    + destruct (job_step _ _ _ _ _ _ _) as [[j1 s1|reply a s1]| |]; cbn [mbind outcome_bind if_ret]; try done.
      { split; [|done]. intros Ha'. congruence. }
      pose proof (gated_answered c reply a) as Hga. unfold answered in Hga. by destruct (counted _).
    + specialize (Hg Ha). destruct j as [cmd| | | | | | | |]; try done.
      destruct (start_gated cmd (Some raw) (served c) (is_authenticated c) s Ha) as (reply & a & ->).
      cbn [mbind outcome_bind if_ret]. pose proof (gated_answered c reply a) as Hga. unfold answered in Hga.
      by destruct (counted _).
Qed.

End Gate.

(** ** What an access does to the replication state *)

Section Stream.
Context `{Platform} `{StoreRegions} `{MpscLaws} `{!MpscRx} `{!MpscRxLaws}.
Variable ord : Topology.node_order.
Variable wr : nat -> bool.
Variable clock : nat -> nat -> Z.
Variable lag : Z.
Variable requirepass : option bytes.
Variable tx : sender.

(** The commands an access of a connection in phase [p] propagates. *)
Definition sent (p : phase) (s : Shared) : list bytes :=
  match p with
  | Run raw SetStored | Run raw (DelPropagate _) => if is_replica (repl s) then [] else [raw]
  | _ => []
  end.

(** The senders it registers. *)
Definition registered (p : phase) (tx : sender) : list sender :=
  match p with
  | Register => [tx]
  | _ => []
  end.

Definition same_repl (s s1 : Shared) : Prop := repl s1 = repl s /\ chans s1 = chans s.

Lemma same_repl_run s s1 : same_repl s s1 -> repl_run (repl s, chans s) [] [] (repl s1, chans s1).
Proof. intros [-> ->]. constructor. Qed.

Lemma propagate_run raw s :
  repl_run (repl s, chans s) (if is_replica (repl s) then [] else [raw]) []
    (repl (propagate (Some raw) s), chans (propagate (Some raw) s)).
Proof.
  unfold propagate. destruct (is_replica (repl s)); [constructor|]. cbn.
  destruct (propagate_downstream raw (repl s) (chans s)) as [rs w] eqn:E. cbn. apply repl_run_one.
  rewrite <- E. constructor.
Qed.

Lemma start_same cmd raw n auth s :
  if_ret (fun r => match r with Busy _ s1 | Replied _ _ s1 => same_repl s s1 end) (start ord cmd raw (clock n) auth s).
Proof.
  assert (Hrun : (match cmd with Set_ _ _ _ | Del _ => False | _ => True end) ->
    if_ret (fun r => match r with Busy _ s1 | Replied _ _ s1 => same_repl s s1 end)
      ('(r, a, s1) ← run ord cmd raw (clock n) auth s; Ret (Replied r a s1))).
  { intros Hc. destruct (run ord cmd raw (clock n) auth s) as [[[r a] s1]|x|] eqn:E; [|done|done].
    apply run_propagation in E. replace (effective cmd r) with false in E by (by destruct cmd).
    rewrite andb_false_r in E. injection E as ? ?. by split. }
  destruct cmd; try (by apply Hrun); try done; cbn [start].
  - by destruct (lookup_in _ _ _ _) as [[[r|] d]|x|].
  - by destruct (match px_ms with Some ms => _ | None => _ end) as [exp|x|].
Qed.

Lemma job_step_run raw n auth j s :
  if_ret (fun r => match r with Busy _ s1 | Replied _ _ s1 =>
      repl_run (repl s, chans s) (sent (Run raw j) s) [] (repl s1, chans s1) end)
    (job_step ord lag requirepass (Some raw) (clock n) auth j s).
Proof.
  destruct j as [c|k|k v exp c| |[|k keys] count|count|i [|k keys] count|i k keys count|now i ks]; cbn [job_step sent].
  - destruct (allowed requirepass auth) eqn:Ha.
    + assert (Hs : if_ret (fun r => match r with Busy _ s1 | Replied _ _ s1 => same_repl s s1 end)
        (start ord c (Some raw) (clock n) auth s)) by apply start_same.
      destruct requirepass as [p|], auth; try done;
        (destruct (start _ _ _ _ _ _) as [[j1 s1|r a s1]|x|]; [by apply same_repl_run|by apply same_repl_run|done|done]).
    + destruct (start_gated ord clock lag requirepass c (Some raw) n auth s Ha) as (reply & a & E). cbn [job_step] in E.
      rewrite E. constructor.
  - destruct (cleanup_in _ _ _); [constructor|done|done].
  - destruct (set_step _ _ _ _ _ _ _) as [[c1 d]|x|]; [constructor|done|done].
  - apply propagate_run.
  - case_match; constructor.
  - destruct (db_del (db s) k) as [[r d]|x|]; [constructor|done|done].
  - apply propagate_run.
  - constructor.
  - destruct (lookup_in _ _ _ _) as [[r d]|x|]; [constructor|done|done].
  - destruct (cleanup_in _ _ _); [constructor|done|done].
  - destruct (keys_step _ _ _) as [[r|]|x|]; [constructor|constructor|done|done].
Qed.

Lemma advance_run c p s :
  if_ret (fun '(_, _, s1) => repl_run (repl s, chans s) (sent p s) (registered p tx) (repl s1, chans s1))
    (advance ord wr clock lag requirepass tx c p s).
Proof.
  destruct p as [| |raw j| | |ok]; cbn [advance registered]; try constructor.
  - destruct (scan wr c s) as [[c1 p1]|x|]; cbn; [constructor|done|done].
  - pose proof (job_step_run raw (served c) (is_authenticated c) j s) as Hj.
    destruct (job_step _ _ _ _ _ _ _) as [[j1 s1|r a s1]|x|]; cbn [mbind outcome_bind if_ret]; [done| |done|done].
    by destruct (counted _).
  - cbn. apply repl_run_one. constructor.
  - cbn. apply repl_run_one. by constructor.
Qed.

(** Propagation leaves the receivers alone. *)
Lemma retain_sent_rx raw l w tx' :
  (allocated w tx' = true -> allocated (snd (retain_sent raw l w)) tx' = true)
  /\ delivered (snd (retain_sent raw l w)) tx' = delivered w tx'.
Proof.
  revert w. induction l as [|x l IH]; intros w; cbn; [done|].
  pose proof (send_allocated x raw w tx') as Ha. pose proof (send_delivered x raw w tx') as Hd.
  destruct (send x raw w) as [ok w1]. cbn in Ha, Hd. specialize (IH w1).
  destruct (retain_sent raw l w1) as [kept w2]. cbn in *. rewrite <- Hd. naive_solver.
Qed.

(** The receivers and the open channels of two states agree. *)
Record rx_same (w w1 : channels) : Prop := {
  rx_allocated tx' : allocated w tx' = true -> allocated w1 tx' = true;
  rx_delivered tx' : delivered w1 tx' = delivered w tx';
  rx_closed tx' : is_closed w1 tx' = is_closed w tx';
}.

Lemma rx_same_refl w : rx_same w w.
Proof. done. Qed.

Lemma propagate_rx raw s : rx_same (chans s) (chans (propagate raw s)).
Proof.
  unfold propagate. destruct (is_replica (repl s)); [done|]. destruct raw as [raw|]; [|done]. cbn.
  unfold propagate_downstream. pose proof (retain_sent_rx raw (downstream_senders (repl s)) (chans s)) as Hr.
  pose proof (retain_sent_closed raw (downstream_senders (repl s)) (chans s)) as Hc.
  destruct (retain_sent _ _ _) as [kept w2]. cbn in *. by constructor; intros tx'; [apply Hr|apply Hr|apply Hc].
Qed.

Lemma advance_rx c p s :
  if_ret (fun '(_, _, s1) => rx_same (chans s) (chans s1)) (advance ord wr clock lag requirepass tx c p s).
Proof.
  assert (Hmsg : forall raw j, if_ret (fun r => match r with Busy _ s1 | Replied _ _ s1 => rx_same (chans s) (chans s1) end)
    (job_step ord lag requirepass (Some raw) (clock (served c)) (is_authenticated c) j s)).
  { intros raw j. destruct j as [cmd|k|k v exp c0| |[|k keys] count|count|i [|k keys] count|i k keys count|now i ks]; cbn [job_step].
    - destruct (allowed requirepass (is_authenticated c)) eqn:Ha.
      + pose proof (start_same cmd (Some raw) (served c) (is_authenticated c) s) as Hs.
        destruct requirepass, (is_authenticated c); try done;
          (destruct (start _ _ _ _ _ _) as [[j1 s1|r a s1]|x|]; [destruct Hs as [_ Hs]; cbn; by rewrite Hs..|done|done]).
      + destruct (start_gated ord clock lag requirepass cmd (Some raw) (served c) _ s Ha) as (reply & a & E). cbn [job_step] in E.
        by rewrite E.
    - by destruct (cleanup_in _ _ _).
    - by destruct (set_step _ _ _ _ _ _ _) as [[c1 d]|x|].
    - apply propagate_rx.
    - by case_match.
    - by destruct (db_del (db s) k) as [[r d]|x|].
    - apply propagate_rx.
    - done.
    - by destruct (lookup_in _ _ _ _) as [[r d]|x|].
    - by destruct (cleanup_in _ _ _).
    - by destruct (keys_step _ _ _) as [[r|]|x|]. }
  destruct p as [| |raw j| | |ok]; cbn [advance]; try done.
  - by destruct (scan wr c s) as [[c1 p1]|x|].
  - specialize (Hmsg raw j). destruct (job_step _ _ _ _ _ _ _) as [[j1 s1|r a s1]|x|]; cbn [mbind outcome_bind if_ret]; [done| |done|done].
    by destruct (counted _).
Qed.

End Stream.

(** ** The replication task *)

Section Task.
Context `{RegionLaws} `{MpscLaws}.
Variable ord : Topology.node_order.
Variable wr : nat -> bool.
Variable clock : nat -> nat -> Z.
Variable lag : Z.

(** The receivers are not the task's business, nor are the senders. *)
Definition task_kept (s s1 : Shared) : Prop :=
  chans s1 = chans s /\ downstream_senders (repl s1) = downstream_senders (repl s)
  /\ master_repl_offset (repl s1) = master_repl_offset (repl s).

Definition task_ok (total : nat) (t : task) : Prop :=
  match t with
  | Applying st | Reading st | Recording st _ _ => fits (Replica.s_buffer st)
  | Executing st _ j => fits (Replica.s_buffer st) /\ job_ok total j
  | _ => True
  end.

(** Without the bytes of the command nothing is propagated. *)
Lemma job_step_bare n j s :
  if_ret (fun r => match r with Busy _ s1 | Replied _ _ s1 => same_repl s s1 end)
    (job_step ord lag None None (clock n) true j s).
Proof.
  assert (Hprop : propagate None s = s) by (unfold propagate; by case_match).
  destruct j as [c|k|k v exp c| |[|k keys] count|count|i [|k keys] count|i k keys count|now i ks]; cbn [job_step].
  - apply start_same.
  - by destruct (cleanup_in _ _ _).
  - by destruct (set_step _ _ _ _ _ _ _) as [[c1 d]|x|].
  - by rewrite Hprop.
  - by case_match.
  - by destruct (db_del (db s) k) as [[r d]|x|].
  - by rewrite Hprop.
  - done.
  - by destruct (lookup_in _ _ _ _) as [[r d]|x|].
  - by destruct (cleanup_in _ _ _).
  - by destruct (keys_step _ _ _) as [[r|]|x|].
Qed.

Lemma take_frame_ends total st :
  fits (Replica.s_buffer st) -> Replica.s_buffer st <> [] -> ends (task_ok total) (take_frame st).
Proof.
  intros Hf Hne. unfold take_frame. pose proof (parse_safe _ Hf) as Hsafe.
  destruct (parse (Replica.s_buffer st)) as [[[[v|]|e] rest]|x|] eqn:Ep; cbn in Hsafe; cbn [mbind outcome_bind]; [| | | |done].
  - destruct (parse_fits_sound _ _ _ Hf Ep) as (fr & Hb & Hfr).
    assert (Hlen : Z.of_nat (length (Replica.s_buffer st)) - Z.of_nat (length rest) = Z.of_nat (length fr))
      by (rewrite Hb, length_app; lia).
    unfold sub_usize. rewrite Hlen. destruct (Z.leb_spec 0 (Z.of_nat (length fr))); [|lia].
    cbn [mbind outcome_bind]. rewrite Nat2Z.id. unfold slice_from.
    destruct (Nat.leb_spec (length fr) (length (Replica.s_buffer st))); [|rewrite Hb, length_app in *; lia].
    cbn [mbind outcome_bind ends]. set (st1 := Replica.with_buffer _ st).
    assert (Hf1 : fits (Replica.s_buffer st1)) by (eapply fits_le; [|exact Hf]; cbn; rewrite length_drop; lia).
    destruct (from_value v) as [cmd|e] eqn:Ec; [|exact Hf1].
    assert (Hc : job_ok total (Start cmd)) by (eapply from_value_ok; [by eapply frame_items_ok|exact Ec]).
    by destruct cmd; try (by split).
  - exact Hf.
  - unfold slice_from. destruct (Nat.leb_spec 1 (length (Replica.s_buffer st))).
    + cbn. eapply fits_le; [|exact Hf]. rewrite length_drop. lia.
    + destruct (Replica.s_buffer st); [done|cbn in *; lia].
  - by destruct Hsafe as [-> | ->].
Qed.

Lemma execute_frame_ends st consumed j s :
  shared_wf s -> task_ok (shard_total (db s)) (Executing st consumed j) ->
  ends (fun '(t, s1) => shared_keeps s s1 /\ task_kept s s1 /\ task_ok (shard_total (db s)) t)
    (execute_frame ord clock lag st consumed j s).
Proof.
  intros Hs [Hf Hj]. unfold execute_frame.
  assert (Hbare : shared_wf (bare s)) by (constructor; [exact (sw_store s Hs)|done]).
  pose proof (job_step_ends ord clock lag None None (Replica.s_served st) true j (bare s) Hbare Hj) as He.
  pose proof (job_step_bare (Replica.s_served st) j (bare s)) as Hr.
  destruct (job_step _ _ _ _ _ _ _ _) as [r|x|]; [|done|done]. cbn [mbind outcome_bind ends if_ret] in *.
  assert (Hkeeps : forall s1, shared_keeps (bare s) s1 ->
    shared_keeps s {| db := db s1; repl := repl s1; chans := chans s1; cluster := cluster s |}).
  { intros s1 [Hk _]. constructor; [exact Hk|exact (sw_cluster s Hs)]. }
  destruct r as [j1 s1|reply a s1]; destruct Hr as [Hre Hch]; cbn [ends].
  - destruct He as [Hj1 Hk]. split; [by apply Hkeeps|]. unfold task_kept. cbn. by rewrite Hre, Hch.
  - split; [by apply Hkeeps|]. unfold task_kept. cbn. by rewrite Hre, Hch.
Qed.

Lemma record_frame_ends total st consumed getack s :
  shared_wf s -> fits (Replica.s_buffer st) ->
  ends (fun '(t, s1) => shared_keeps s s1 /\ task_kept s s1 /\ task_ok total t) (record_frame wr st consumed getack s).
Proof.
  intros Hs Hf. unfold record_frame, Replica.advance, add_usize.
  assert (Hk : forall z, shared_keeps s (with_repl (store_processed z (repl s), chans s) s))
    by (intros z; apply same_db_keeps; [done|done|exact (sw_cluster s Hs)]).
  destruct (_ <=? _); [|destruct overflow_checks; [done|]]; cbn;
    (split; [apply Hk|]; split; [done|]; destruct getack; [|exact Hf]; by destruct (wr _)).
Qed.

End Task.

(** ** The invariant *)

Section Invariant.
Context `{RegionLaws} `{MpscLaws} `{!MpscRx} `{!MpscRxLaws} `{BroadcastLaws} `{SemaphoreLaws}.
Variable ord : Topology.node_order.
Variable config : ServerConfig.
Hypothesis payload : 0 <= max_payload_size config < isize_max.
Hypothesis connections : 0 <= max_connections config <= max_permits.

(** A connection in a server with [total] shards, channels [w], broadcast
    [b], told to stop if [halt]. *)
Record client_ok (total : nat) (w : channels) (b : bus) (halt : bool) (cl : Client) : Prop := {
  cl_buffer : (exists ok, at_ cl = Over ok) \/ Z.of_nat (length (buffer (conn cl))) <= max_payload_size config;
  cl_phase : phase_ok total (at_ cl);
  cl_gate : gated (requirepass config) (conn cl) (at_ cl);
  cl_open : allocated w (chan cl) = true /\ is_closed w (chan cl) = false;
  cl_stop : subscribed b (stop_rx cl) = true;
  cl_told : halt = true -> notified b (stop_rx cl) = true;
  cl_forwarded : at_ cl = Over false \/ delivered w (chan cl) `sublist_of` written (conn cl);
}.

Record sys_ok (y : Sys) : Prop := {
  so_shared : shared_wf (shared y);
  so_permits : available (permits y) + Z.of_nat (size (clients y)) = max_connections config;
  so_available : 0 <= available (permits y);
  so_clients i cl : clients y !! i = Some cl -> client_ok (shard_total (db (shared y))) (chans (shared y)) (shutdown y) (stopped y) cl;
  so_apart i j cl cl' : clients y !! i = Some cl -> clients y !! j = Some cl' -> chan cl = chan cl' -> i = j;
  so_task : task_ok (shard_total (db (shared y))) (repl_task y);
  so_purge c : purging y = Some c -> purge_call_ok (shard_total (db (shared y))) c;
}.

(** ** Each step keeps it *)

(** Channels that look alike to the clients with a channel satisfying [P]. *)
Record rx_keeps (P : sender -> Prop) (w w1 : channels) : Prop := {
  rk_allocated tx : P tx -> allocated w tx = true -> allocated w1 tx = true;
  rk_closed tx : P tx -> is_closed w1 tx = is_closed w tx;
  rk_delivered tx : P tx -> delivered w1 tx = delivered w tx;
}.

Lemma client_ok_keeps (P : sender -> Prop) total w w1 b b1 halt halt1 cl :
  rx_keeps P w w1 -> P (chan cl) ->
  (subscribed b (stop_rx cl) = true -> subscribed b1 (stop_rx cl) = true
     /\ (halt1 = true -> halt = true /\ notified b1 (stop_rx cl) = notified b (stop_rx cl) \/ notified b1 (stop_rx cl) = true)) ->
  client_ok total w b halt cl -> client_ok total w1 b1 halt1 cl.
Proof.
  intros [Ha Hc Hd] HP Hb [Hbuf Hp Hg [Ho1 Ho2] Hs Ht Hf]. destruct (Hb Hs) as [Hs1 Ht1].
  constructor; [done|done|done| |done| |].
  - rewrite Hc by done. auto.
  - intros Hh. destruct (Ht1 Hh) as [[Hh1 ->]|?]; auto.
  - by rewrite Hd.
Qed.

Lemma client_ok_rx P total w w1 b halt cl :
  rx_keeps P w w1 -> P (chan cl) -> client_ok total w b halt cl -> client_ok total w1 b halt cl.
Proof. intros Hk HP. apply (client_ok_keeps P total w w1); auto. Qed.

Lemma rx_same_keeps P w w1 : rx_same w w1 -> rx_keeps P w w1.
Proof. intros [Ha Hd Hc]. constructor; auto. Qed.

(** The same client in another phase, after a step that leaves the other
    clients' receivers alone. *)
Lemma put_client_ok i cl c1 p1 s1 y :
  sys_ok y -> clients y !! i = Some cl -> shared_keeps (shared y) s1 ->
  rx_keeps (fun tx => tx <> chan cl) (chans (shared y)) (chans s1) ->
  client_ok (shard_total (db (shared y))) (chans s1) (shutdown y) (stopped y)
    {| conn := c1; at_ := p1; chan := chan cl; stop_rx := stop_rx cl |} ->
  sys_ok (put_client i c1 p1 cl (with_shared s1 y)).
Proof.
  intros [Hs Hp Ha Hc Hd Ht Hpu] Hi Hs1 Hk Hcl. pose proof (shared_keeps_total _ _ Hs1) as Htot.
  constructor; cbn; rewrite ?Htot; [by eapply shared_keeps_wf| |done| | |done|done].
  - rewrite map_size_insert_Some; [done|by exists cl].
  - intros j cl2. rewrite lookup_insert_Some. intros [[<- <-]|[Hne Hj]]; [done|].
    eapply client_ok_rx; [exact Hk| |by eapply Hc]. intros Heq. apply Hne. symmetry. by eapply Hd.
  - intros j k cl2 cl3. rewrite !lookup_insert_Some.
    intros [[<- <-]|[Hne Hj]] [[<- <-]|[Hne2 Hk2]] Heq; cbn in *; [done|by eapply Hd|by eapply Hd|by eapply Hd].
Qed.

Lemma client_fits total w b halt cl :
  client_ok total w b halt cl -> (forall ok, at_ cl <> Over ok) -> fits (buffer (conn cl)).
Proof. intros Hcl Hn. destruct (cl_buffer _ _ _ _ _ Hcl) as [[ok Ho]|Hb]; [by apply Hn in Ho|unfold fits; lia]. Qed.

Lemma busy_not_over p : busy p = true -> forall ok, p <> Over ok.
Proof. by destruct p. Qed.

(** A connection moved by an access. *)
Lemma access_keeps_ok i cl wr clock lag c1 p1 s1 y :
  sys_ok y -> clients y !! i = Some cl -> busy (at_ cl) = true ->
  advance ord wr clock lag (requirepass config) (chan cl) (conn cl) (at_ cl) (shared y) = Ret (c1, p1, s1) ->
  sys_ok (put_client i c1 p1 cl (with_shared s1 y)).
Proof.
  intros Hy Hi Hbusy Hadv. pose proof (so_clients y Hy i cl Hi) as Hcl.
  pose proof (busy_not_over _ Hbusy) as Hno.
  pose proof (advance_ends ord wr clock lag (requirepass config) (chan cl) (conn cl) (at_ cl) (shared y)
    (client_fits _ _ _ _ _ Hcl Hno) (so_shared y Hy) (cl_phase _ _ _ _ _ Hcl)) as He.
  pose proof (advance_gated ord wr clock lag (requirepass config) (chan cl) (conn cl) (at_ cl) (shared y)
    (cl_gate _ _ _ _ _ Hcl)) as Hg.
  pose proof (advance_rx ord wr clock lag (requirepass config) (chan cl) (conn cl) (at_ cl) (shared y)) as Hrx.
  rewrite Hadv in He, Hg, Hrx. destruct He as (Hs1 & Hp1 & [Hb1 Hw1]). destruct Hg as [Hg1 _].
  apply put_client_ok; [done|done|done|by apply rx_same_keeps|].
  destruct Hcl as [Hbuf Hp Hg [Ho1 Ho2] Hst Ht Hf]. destruct Hrx as [Hra Hrd Hrc]. constructor; cbn.
  - destruct Hbuf as [[ok Ho]|Hb]; [by apply Hno in Ho|right; lia].
  - done.
  - done.
  - rewrite Hrc. auto.
  - done.
  - done.
  - destruct Hf as [Ho|Hf]; [by apply Hno in Ho|right]. rewrite Hrd. etransitivity; [exact Hf|].
    destruct Hw1 as [more ->]. by apply sublist_inserts_r.
Qed.

(** [wake] for an event other than a message of the channel. *)
Lemma wake_client_ok wr e cl total w b halt c1 p1 :
  client_ok total w b halt cl -> at_ cl = Select -> (match e with Replicated _ => False | _ => True end) ->
  wake wr (max_payload_size config) e (conn cl) = (c1, p1) ->
  client_ok total w b halt {| conn := c1; at_ := p1; chan := chan cl; stop_rx := stop_rx cl |}.
Proof.
  intros [Hbuf Hp Hg Ho Hs Ht Hf] Hat He Hw. rewrite Hat in *.
  destruct Hbuf as [[ok Hbad]|Hbuf]; [done|]. destruct Hf as [Hbad|Hf]; [done|].
  destruct e as [|data| |[|b0 data]]; cbn [wake] in Hw; try done;
    try (injection Hw as <- <-; constructor; cbn; auto; by eauto).
  set (c2 := set_buffer (buffer (conn cl) ++ b0 :: data) (conn cl)) in *.
  destruct (max_payload_size config <? _) eqn:E; injection Hw as <- <-.
  - constructor; cbn; [by left; eexists|done|done|done|done|done|right].
    unfold write_all. destruct (wr _); cbn; [by apply sublist_inserts_r|done].
  - apply Z.ltb_ge in E. constructor; cbn; [by right|done|done|done|done|done|by right].
Qed.

Lemma forward_client_ok wr data cl total w w1 b halt c1 p1 :
  client_ok total w b halt cl -> at_ cl = Select -> is_downstream_replica (conn cl) = true ->
  recv (chan cl) w = Some (data, w1) ->
  wake wr (max_payload_size config) (Replicated data) (conn cl) = (c1, p1) ->
  client_ok total w1 b halt {| conn := c1; at_ := p1; chan := chan cl; stop_rx := stop_rx cl |}.
Proof.
  intros [Hbuf Hp Hg [Ho1 Ho2] Hs Ht Hf] Hat Hdown Hrecv Hw. rewrite Hat in *.
  destruct Hbuf as [[ok Hbad]|Hbuf]; [done|]. destruct Hf as [Hbad|Hf]; [done|].
  destruct (recv_some w (chan cl) data w1 Hrecv) as (Hd & _ & Hc & Ha).
  cbn [wake] in Hw. rewrite Hdown in Hw. unfold reply_then, write_all in Hw.
  destruct (wr _); injection Hw as <- <-; constructor; cbn; rewrite ?Ha, ?Hc, ?Hd, ?decide_True by done; auto.
  right. by apply sublist_app.
Qed.

Lemma accept_ok i p y :
  sys_ok y -> stopped y = false -> clients y !! i = None -> try_acquire (permits y) = Some p ->
  sys_ok (accept config i p y).
Proof.
  intros [Hs Hp Ha Hc Hd Ht Hpu] Hrun Hi Hacq. unfold accept.
  pose proof (subscribe_adds (shutdown y)) as Hsub. pose proof (fun r => subscribe_keeps (shutdown y) r) as Hkeep.
  pose proof (fun r => subscribe_notified (shutdown y) r) as Hnot.
  destruct (subscribe (shutdown y)) as [rx b]. cbn in Hsub, Hkeep, Hnot.
  set (w0 := chans (shared y)) in *.
  pose proof (new_fresh w0) as Hfresh. pose proof (new_allocated w0) as Hall.
  pose proof (new_delivered w0) as Hdel. pose proof (new_closed w0) as Hclo.
  destruct (new_channel w0) as [tx w]. cbn in Hfresh, Hall, Hdel, Hclo.
  destruct (unallocated w0 tx Hfresh) as (_ & Hd0 & Hc0).
  assert (Hpos : 0 < available (permits y)).
  { destruct (Z.leb_spec (available (permits y)) 0) as [Hz|]; [|lia]. by rewrite try_acquire_none in Hacq. }
  destruct (try_acquire_some (permits y) Hpos) as (p' & Hp' & Hav). assert (p' = p) as -> by congruence.
  assert (Hother : forall j cl, clients y !! j = Some cl -> chan cl <> tx).
  { intros j cl Hj Heq. destruct (Hc j cl Hj) as [_ _ _ [Ho _] _ _ _]. rewrite Heq in Ho. fold w0 in Ho. congruence. }
  constructor; cbn.
  - destruct Hs as [Hst Hcl]. by constructor.
  - rewrite map_size_insert_None by done. lia.
  - lia.
  - intros j cl. rewrite lookup_insert_Some. intros [[<- <-]|[Hne Hj]].
    + constructor; cbn; [right; lia|done| | |done|by rewrite Hrun|right].
      * intros _. done.
      * rewrite Hall, Hclo, bool_decide_eq_true_2 by done. done.
      * rewrite Hdel, Hd0. apply sublist_nil_l.
    + eapply (client_ok_keeps (fun t => t <> tx) _ w0 w); [| | |by apply (Hc j)].
      * constructor; intros t Hne'; rewrite ?Hall, ?bool_decide_eq_false_2 by done; auto.
      * by eapply Hother.
      * intros Hsb. split; [auto|]. rewrite Hrun. done.
  - intros j k cl2 cl3. rewrite !lookup_insert_Some.
    intros [[<- <-]|[Hne Hj]] [[<- <-]|[Hne2 Hk2]] Heq; cbn in *; [done| | |by eapply Hd].
    + by destruct (Hother k cl3 Hk2).
    + by destruct (Hother j cl2 Hj).
  - done.
  - done.
Qed.

Lemma leave_ok i cl y : sys_ok y -> clients y !! i = Some cl -> sys_ok (leave i cl y).
Proof.
  intros [Hs Hp Ha Hc Hd Ht Hpu] Hi. destruct (cl_open _ _ _ _ _ (Hc i cl Hi)) as [Hal _]. constructor; cbn.
  - destruct Hs as [Hst Hcl]. by constructor.
  - rewrite available_release, map_size_delete_Some by (by exists cl).
    assert (0 < size (clients y))%nat.
    { destruct (decide (size (clients y) = 0%nat)) as [Hz|]; [|lia]. apply map_size_empty_inv in Hz.
      rewrite Hz, lookup_empty in Hi. done. }
    lia.
  - rewrite available_release. lia.
  - intros j cl2. rewrite lookup_delete_Some. intros [Hne Hj].
    eapply (client_ok_rx (fun tx => tx <> chan cl)); [| |by apply (Hc j)].
    + constructor; intros tx Hx; rewrite ?drop_closed, ?drop_allocated, ?drop_delivered, ?bool_decide_eq_false_2 by done; done.
    + intros Heq. apply Hne. by eapply Hd.
  - intros j k cl2 cl3. rewrite !lookup_delete_Some. intros [_ ?] [_ ?]. by eapply Hd.
  - done.
  - done.
Qed.

Lemma stop_ok y : sys_ok y -> sys_ok (stop y).
Proof.
  intros [Hs Hp Ha Hc Hd Ht Hpu]. constructor; cbn; try done. intros i cl Hi.
  eapply (client_ok_keeps (fun _ => True)); [by constructor|done| |by apply (Hc i)].
  intros Hsb. rewrite announce_subscribed, announce_notifies, Hsb. split; [done|]. by right.
Qed.

(** A step that touches the shared state only, and no channel. *)
Lemma with_shared_ok s1 y :
  sys_ok y -> shared_keeps (shared y) s1 -> chans s1 = chans (shared y) -> sys_ok (with_shared s1 y).
Proof.
  intros [Hs Hp Ha Hc Hd Ht Hpu] Hs1 Hw. pose proof (shared_keeps_total _ _ Hs1) as Htot.
  constructor; cbn; rewrite ?Htot, ?Hw; try done. by eapply shared_keeps_wf.
Qed.

Lemma with_task_ok t y : sys_ok y -> task_ok (shard_total (db (shared y))) t -> sys_ok (with_task t y).
Proof. intros [Hs Hp Ha Hc Hd Ht Hpu] Ht1. by constructor. Qed.

Lemma with_purge_ok c y :
  sys_ok y -> from_option (purge_call_ok (shard_total (db (shared y)))) True c -> sys_ok (with_purge c y).
Proof. intros [Hs Hp Ha Hc Hd Ht Hpu] Hc1. constructor; try done. cbn. by intros c' [= ->]. Qed.

Lemma purge_step_ends sample c st :
  store_wf st -> purge_call_ok (shard_total st) c ->
  exists c1 st', purge_step sample c st = Ret (c1, st') /\ keeps st st' /\ contents st' ⊆ contents st
    /\ from_option (purge_call_ok (shard_total st)) True c1.
Proof.
  intros Hw Hc. destruct c as [now i|now i ks]; cbn [purge_step].
  - destruct (Nat.ltb_spec i (shard_total st)) as [Hlt|].
    + destruct (collect_region st i sample now Hw Hlt) as (ks & -> & _). eexists _, _.
      split_and!; [done|by apply keeps_refl|done|]. by destruct ks.
    + eexists _, _. split_and!; [done|by apply keeps_refl|done|done].
  - destruct (remove_region st i ks Hw Hc) as (n & st' & -> & Hk & Hsub & _). by eexists _, _.
Qed.

Lemma task_step_ok t s t1 s1 :
  task_step ord config t s t1 s1 -> shared_wf s -> task_ok (shard_total (db s)) t ->
  shared_keeps s s1 /\ task_kept s s1 /\ task_ok (shard_total (db s)) t1.
Proof.
  intros Hst Hs Ht. pose proof (shared_keeps_refl s Hs) as Hrefl.
  destruct Hst as [wr rs l s Hh|l id l1 s Hr|l l1 s Hr Hrs Hroom|st s Hb|st s t Hne Hone|clock lag st consumed j s t s1 Htick Hex
    |wr st consumed getack s t s1 Hrec|st data s Hne Hroom|t s]; cbn [task_ok] in Ht |- *; try done.
  - split_and!; [|destruct id; done|done]. unfold resynced. destruct id; [|done].
    apply same_db_keeps; [done|done|exact (sw_cluster s Hs)].
  - split_and!; [done|done|]. unfold room in Hroom. by apply Z.ltb_lt in Hroom.
  - pose proof (take_frame_ends (shard_total (db s)) st Ht Hne) as He. rewrite Hone in He. by split_and!.
  - pose proof (execute_frame_ends ord clock lag st consumed j s Hs Ht) as He. by rewrite Hex in He.
  - pose proof (record_frame_ends wr (shard_total (db s)) st consumed getack s Hs Ht) as He. by rewrite Hrec in He.
  - split_and!; [done|done|]. unfold room in Hroom. by apply Z.ltb_lt in Hroom.
Qed.

Lemma sys_step_ok y a y' : sys_ok y -> sys_step ord config y a y' -> sys_ok y'.
Proof.
  intros Hy Hst. destruct Hst as [i p y Hrun Hi Hp|y _ _|y _|y _|i cl wr data w c1 p1 y Hi Hat Hd Hr Hw|i cl wr e c1 p1 y Hi Hat He Hw
    |i cl wr clock lag c1 p1 s1 y Hi Hb Ht Ha|i cl wr clock lag x y Hi _ _ _ _|i cl ok y Hi _|i cl y _ Hi _|now y _|c c1 d y Hc Hpu|t s1 y Hts].
  - by apply accept_ok.
  - done.
  - done.
  - by apply stop_ok.
  - pose proof (so_clients y Hy i cl Hi) as Hcl.
    destruct (recv_some _ _ _ _ Hr) as (Hdel & _ & Hclo & Hall).
    apply put_client_ok; [done|done| | |by eapply forward_client_ok].
    + apply same_db_keeps; [apply Hy|done|exact (sw_cluster _ (so_shared y Hy))].
    + constructor; intros tx Hx; cbn; [by rewrite Hall|apply Hclo|]. rewrite Hdel. by rewrite decide_False.
  - pose proof (so_clients y Hy i cl Hi) as Hcl.
    assert (Hsame : y = with_shared (shared y) y) by (by destruct y). rewrite Hsame at 1.
    apply put_client_ok; [done|done|by apply shared_keeps_refl, Hy|by constructor|].
    eapply wake_client_ok; [exact Hcl|done| |exact Hw]. by destruct e.
  - by eapply access_keeps_ok.
  - by apply leave_ok.
  - by apply leave_ok.
  - by apply leave_ok.
  - by apply with_purge_ok.
  - destruct (purge_step_ends (Z.to_nat (ttl_sample_size config)) c (db (shared y)) (sw_store _ (so_shared y Hy)) (so_purge y Hy c Hc))
      as (c2 & d2 & Hpu2 & Hk & _ & Hc2). rewrite Hpu2 in Hpu. injection Hpu as <- <-.
    apply with_purge_ok; [|cbn; by rewrite (proj1 (proj2 Hk))].
    apply with_shared_ok; [done|by apply with_db_keeps; [apply Hy|]|done].
  - destruct (task_step_ok _ _ _ _ Hts (so_shared y Hy) (so_task y Hy)) as (Hs1 & (Hw & _) & Ht1).
    apply with_task_ok; [by apply with_shared_ok|]. cbn. by rewrite (shared_keeps_total _ _ Hs1).
Qed.

Lemma steps_ok y y' : steps ord config y y' -> sys_ok y -> sys_ok y'.
Proof. induction 1 as [|y y1 y2 [a Ha] _ IH]; [done|]. intros Hy. apply IH. by eapply sys_step_ok. Qed.

Lemma boot_ok bind_ok connected s y :
  shared_ok s -> boot config bind_ok connected s = Ret (Some y) -> sys_ok y.
Proof.
  intros Hs%shared_ok_wf. unfold boot. destruct (bind_ok _); [|done]. destruct (sem_new_ok _ connections) as (p & -> & Hp).
  intros [= <-]. constructor; cbn; try done.
  - rewrite map_size_empty. lia.
  - lia.
  - by destruct (_ && _).
Qed.

Lemma permits_exhausted y :
  sys_ok y -> try_acquire (permits y) = None <-> Z.of_nat (size (clients y)) = max_connections config.
Proof.
  intros Hy. pose proof (so_permits y Hy) as Hp. pose proof (so_available y Hy) as Ha. split; intros Hx.
  - destruct (decide (0 < available (permits y))) as [Hpos|]; [|lia].
    destruct (try_acquire_some (permits y) Hpos) as (p & Hs & _). congruence.
  - apply try_acquire_none. lia.
Qed.

(** ** Labelled runs *)

(** The commands a step propagates and the senders it registers. *)
Definition label (y : Sys) (a : act) : list bytes * list sender :=
  match a with
  | Access i p =>
      (sent p (shared y), match clients y !! i with Some cl => registered p (chan cl) | None => [] end)
  | _ => ([], [])
  end.

Inductive sys_run : Sys -> list bytes -> list sender -> Sys -> Prop :=
| sys_run_nil y : sys_run y [] [] y
| sys_run_cons y a y1 raws txs y2 :
    sys_step ord config y a y1 -> sys_run y1 raws txs y2 ->
    sys_run y (fst (label y a) ++ raws) (snd (label y a) ++ txs) y2.

Lemma sys_run_steps y raws txs y' : sys_run y raws txs y' -> steps ord config y y'.
Proof. induction 1 as [|y a y1 raws txs y2 Hs _ IH]; [constructor|]. eapply rtc_l; [by exists a|exact IH]. Qed.

Lemma sys_run_app y raws txs y1 raws' txs' y2 :
  sys_run y raws txs y1 -> sys_run y1 raws' txs' y2 -> sys_run y (raws ++ raws') (txs ++ txs') y2.
Proof.
  induction 1 as [|y a y1 raws txs y3 Hs _ IH]; [done|]. intros Hr. rewrite <- !app_assoc.
  apply (sys_run_cons y a y1); [done|by apply IH].
Qed.

Lemma leave_repl i cl y :
  sys_ok y -> clients y !! i = Some cl ->
  repl_run (repl (shared y), chans (shared y)) [] [] (repl (shared (leave i cl y)), chans (shared (leave i cl y))).
Proof.
  intros Hy Hi. destruct (cl_open _ _ _ _ _ (so_clients y Hy i cl Hi)) as [Hal _].
  apply repl_run_one. cbn. constructor; intros tx; [apply drop_accepted|].
  rewrite drop_closed by done. intros ->. by rewrite orb_true_r.
Qed.

(** What a step does to the replication state and the channels. *)
Lemma sys_step_repl y a y' :
  sys_ok y -> sys_step ord config y a y' ->
  repl_run (repl (shared y), chans (shared y)) (fst (label y a)) (snd (label y a))
    (repl (shared y'), chans (shared y')).
Proof.
  intros Hy Hst. destruct Hst as [i p y Hrun Hi Hp|y _ _|y _|y _|i cl wr data w c1 p1 y Hi Hat Hd Hr Hw|i cl wr e c1 p1 y Hi Hat He Hw
    |i cl wr clock lag c1 p1 s1 y Hi Hb Ht Ha|i cl wr clock lag x y Hi _ _ _ _|i cl ok y Hi _|i cl y _ Hi _|now y _|c c1 d y Hc Hpu|t s1 y Hts];
    cbn [label fst snd]; try (constructor; fail).
  - apply repl_run_one. unfold accept. destruct (subscribe _) as [rx b].
    pose proof (new_accepted (chans (shared y))) as Hacc. pose proof (new_closed (chans (shared y))) as Hclo.
    destruct (new_channel _) as [tx w]. cbn in *. constructor; [done|]. intros tx'. by rewrite Hclo.
  - apply repl_run_one. destruct (recv_some _ _ _ _ Hr) as (_ & Hacc & Hclo & _). cbn. constructor; [done|].
    intros tx'. by rewrite Hclo.
  - rewrite Hi. pose proof (advance_run ord wr clock lag (requirepass config) (chan cl) (conn cl) (at_ cl) (shared y)) as Hr.
    by rewrite Ha in Hr.
  - by apply leave_repl.
  - by apply leave_repl.
  - by apply leave_repl.
  - destruct (task_step_ok _ _ _ _ Hts (so_shared y Hy) (so_task y Hy)) as (_ & (Hw & Hse & Hof) & _).
    cbn. rewrite Hw. apply repl_run_one. by constructor.
Qed.

Lemma sys_run_repl y raws txs y' :
  sys_ok y -> sys_run y raws txs y' ->
  repl_run (repl (shared y), chans (shared y)) raws txs (repl (shared y'), chans (shared y')).
Proof.
  intros Hy Hrun. induction Hrun as [y|y a y1 raws txs y2 Hs _ IH]; [constructor|].
  eapply repl_run_app; [by apply sys_step_repl|]. apply IH. by eapply sys_step_ok.
Qed.

(** ** Data and authentication *)

(** No client is allowed to run commands. *)
Definition locked (y : Sys) : Prop :=
  forall i cl, clients y !! i = Some cl -> allowed (requirepass config) (is_authenticated (conn cl)) = false.

(** The reading of the clock a step of the expiry task starts a purge with. *)
Definition readings (a : act) : list Z :=
  match a with
  | PurgeStart now => [now]
  | _ => []
  end.

(** A run during which the server is locked, with the readings of its purges. *)
Inductive locked_run : Sys -> list Z -> Sys -> Prop :=
| locked_nil y : locked_run y [] y
| locked_cons y a y1 nows y2 :
    locked y -> sys_step ord config y a y1 -> locked_run y1 nows y2 -> locked_run y (readings a ++ nows) y2.

(** The purge in progress has one of these readings, and what it is about to
    remove had expired by then. *)
Definition purge_due (nows : list Z) (y : Sys) : Prop :=
  match purging y with
  | Some (PurgeRead now _) => now ∈ nows
  | Some (PurgeWrite now _ ks) => now ∈ nows
      /\ forall k e, k ∈ ks.*1 -> contents (db (shared y)) !! k = Some e -> Storage.is_expired e now = true
  | None => True
  end.

(** The entries that went had expired. *)
Definition expired_only (nows : list Z) (m m' : Storage.shard) : Prop :=
  m' ⊆ m /\ forall k e, m !! k = Some e -> m' !! k = None -> exists now, now ∈ nows /\ Storage.is_expired e now = true.

Lemma expired_only_refl nows m : expired_only nows m m.
Proof. split; [done|]. intros k e Hk Hn. congruence. Qed.

Lemma expired_only_trans nows m1 m2 m3 :
  expired_only nows m1 m2 -> expired_only nows m2 m3 -> expired_only nows m1 m3.
Proof.
  intros [Hs1 He1] [Hs2 He2]. split; [by etransitivity|]. intros k e Hk Hn.
  destruct (m2 !! k) as [e2|] eqn:E2; [|by eapply He1]. apply (He2 k); [|done].
  assert (e2 = e) as <-; [|done]. pose proof (lookup_weaken _ _ _ _ E2 Hs1). congruence.
Qed.

Lemma purge_step_due nows sample c st :
  store_wf st -> purge_call_ok (shard_total st) c ->
  (match c with
   | PurgeRead now _ => now ∈ nows
   | PurgeWrite now _ ks => now ∈ nows /\ forall k e, k ∈ ks.*1 -> contents st !! k = Some e -> Storage.is_expired e now = true
   end) ->
  exists c1 st', purge_step sample c st = Ret (c1, st') /\ expired_only nows (contents st) (contents st')
    /\ match c1 with
       | Some (PurgeRead now _) => now ∈ nows
       | Some (PurgeWrite now _ ks) => now ∈ nows
           /\ forall k e, k ∈ ks.*1 -> contents st' !! k = Some e -> Storage.is_expired e now = true
       | None => True
       end.
Proof.
  intros Hw Hc Hdue. destruct c as [now i|now i ks]; cbn [purge_step].
  - destruct (Nat.ltb_spec i (shard_total st)) as [Hlt|].
    + destruct (collect_region st i sample now Hw Hlt) as (ks & -> & Hks). eexists _, _.
      split_and!; [done|apply expired_only_refl|]. destruct ks as [|x ks]; [done|]. split; [done|].
      intros k e Hk He. destruct (Hks k Hk) as (e' & He' & Hx). congruence.
    + eexists _, _. split_and!; [done|apply expired_only_refl|done].
  - destruct Hdue as [Hin Hex]. destruct (remove_region st i ks Hw Hc) as (n & st' & -> & _ & Hsub & Hkept). eexists _, _.
    split_and!; [done| |done]. split; [done|]. intros k e Hk Hn. exists now. split; [done|].
    apply (Hex k); [|done]. destruct (decide (k ∈ ks.*1)) as [|Hni]; [done|]. rewrite (Hkept k Hni) in Hn. congruence.
Qed.

Lemma locked_step_data nows y a y' :
  sys_ok y -> repl_task y = NoTask -> purge_due nows y -> locked y -> sys_step ord config y a y' ->
  repl_task y' = NoTask /\ cluster (shared y') = cluster (shared y)
  /\ expired_only nows (contents (db (shared y))) (contents (db (shared y')))
  /\ purge_due (nows ++ readings a) y'.
Proof.
  intros Hy Htask Hdue Hl Hst.
  assert (Hmore : forall y1, purging y1 = purging y -> db (shared y1) = db (shared y) -> purge_due (nows ++ readings a) y1).
  { intros y1 Hp Hd. unfold purge_due in *. rewrite Hp, Hd. destruct (purging y) as [[now i|now i ks]|]; [| |done].
    - apply elem_of_app. by left.
    - destruct Hdue. split; [apply elem_of_app; by left|done]. }
  assert (Hsame : forall y1, repl_task y1 = repl_task y -> cluster (shared y1) = cluster (shared y) ->
    purging y1 = purging y -> db (shared y1) = db (shared y) ->
    repl_task y1 = NoTask /\ cluster (shared y1) = cluster (shared y)
    /\ expired_only nows (contents (db (shared y))) (contents (db (shared y1))) /\ purge_due (nows ++ readings a) y1).
  { intros y1 Ht1 Hc1 Hp1 Hd1. split_and!; [congruence|done|rewrite Hd1; apply expired_only_refl|by apply Hmore]. }
  destruct Hst as [i p y Hrun Hi Hp|y _ _|y _|y _|i cl wr data w c1 p1 y Hi Hat Hd Hr Hw|i cl wr e c1 p1 y Hi Hat He Hw
    |i cl wr clock lag c1 p1 s1 y Hi Hb Ht Ha|i cl wr clock lag x y Hi _ _ _ _|i cl ok y Hi _|i cl y _ Hi _|now y _|c c1 d y Hc Hpu|t s1 y Hts];
    try (by apply Hsame).
  - apply Hsame; unfold accept; by destruct (subscribe _), (new_channel _).
  - pose proof (advance_gated ord wr clock lag (requirepass config) (chan cl) (conn cl) (at_ cl) (shared y)
      (cl_gate _ _ _ _ _ (so_clients y Hy i cl Hi))) as Hg. rewrite Ha in Hg.
    destruct Hg as [_ Hg]. destruct (Hg (Hl i cl Hi)) as [Hdb Hcl]. by apply Hsame.
  - split_and!; [done|done|apply expired_only_refl|]. cbn. apply elem_of_app. right. by apply list_elem_of_singleton.
  - unfold purge_due in Hdue. rewrite Hc in Hdue.
    destruct (purge_step_due nows (Z.to_nat (ttl_sample_size config)) c (db (shared y)) (sw_store _ (so_shared y Hy)) (so_purge y Hy c Hc) Hdue)
      as (c2 & d2 & Hpu2 & Hex & Hdue2). rewrite Hpu2 in Hpu. injection Hpu as <- <-.
    split_and!; [done|done|exact Hex|]. cbn [readings]. rewrite app_nil_r. exact Hdue2.
  - rewrite Htask in Hts. inversion Hts; subst. by apply Hsame.
Qed.

Lemma expired_only_weaken nows nows' m m' : nows ⊆ nows' -> expired_only nows m m' -> expired_only nows' m m'.
Proof. intros Hn [Hs He]. split; [done|]. intros k e Hk Hk'. destruct (He k e Hk Hk') as (now & ? & ?). exists now. split; [by apply Hn|done]. Qed.

Lemma locked_run_data nows0 y nows y' :
  locked_run y nows y' -> sys_ok y -> repl_task y = NoTask -> purge_due nows0 y ->
  cluster (shared y') = cluster (shared y)
  /\ expired_only (nows0 ++ nows) (contents (db (shared y))) (contents (db (shared y'))).
Proof.
  intros Hrun. revert nows0. induction Hrun as [y|y a y1 nows y2 Hl Hst _ IH]; intros nows0 Hy Ht Hd.
  - split; [done|apply expired_only_refl].
  - destruct (locked_step_data nows0 y a y1 Hy Ht Hd Hl Hst) as (Ht1 & Hc1 & He1 & Hd1).
    destruct (IH _ (sys_step_ok _ _ _ Hy Hst) Ht1 Hd1) as [Hc2 He2]. rewrite <- app_assoc in He2. split; [congruence|].
    eapply expired_only_trans; [|exact He2]. eapply expired_only_weaken; [|exact He1]. intros x Hx. apply elem_of_app. by left.
Qed.

(** ** The theorems *)

(** C1: the server is safe whatever its tasks do.  If the payload limit is
    below [isize::MAX] and [max_connections] is a number of permits tokio's
    semaphore takes: from a server booted on a well-formed state, however the
    scheduler interleaves the accept loop, the accesses of the connections and
    of the replication task, and the regions of the purges: every key stays in
    the shard its hash selects and the topology stays well formed, at most
    [max_connections] clients are connected and a client is refused exactly
    when that many are, no buffer outgrows the payload limit while its
    connection is served, two clients never share a channel, the next access
    of every connection and of the command the replication task is running
    returns or ends its own task with a panic that is not an index out of
    bounds, and the next region of the purge in progress returns. *)
Theorem system_invariant bind_ok connected s y0 y :
  shared_ok s -> boot config bind_ok connected s = Ret (Some y0) -> steps ord config y0 y ->
  shared_wf (shared y)
  /\ Z.of_nat (size (clients y)) <= max_connections config
  /\ (try_acquire (permits y) = None <-> Z.of_nat (size (clients y)) = max_connections config)
  /\ (forall i cl, clients y !! i = Some cl ->
        (Z.of_nat (length (buffer (conn cl))) <= max_payload_size config \/ exists ok, at_ cl = Over ok)
        /\ forall wr clock lag, ends (fun _ => True)
             (advance ord wr clock lag (requirepass config) (chan cl) (conn cl) (at_ cl) (shared y)))
  /\ (forall i j cl cl', clients y !! i = Some cl -> clients y !! j = Some cl' -> chan cl = chan cl' -> i = j)
  /\ (forall st consumed j clock lag, repl_task y = Executing st consumed j ->
        ends (fun _ => True) (execute_frame ord clock lag st consumed j (shared y)))
  /\ (forall c, purging y = Some c ->
        exists r, purge_step (Z.to_nat (ttl_sample_size config)) c (db (shared y)) = Ret r).
Proof.
  intros Hs Hb Hsteps. pose proof (steps_ok _ _ Hsteps (boot_ok _ _ _ _ Hs Hb)) as Hy.
  pose proof (so_permits y Hy) as Hp. pose proof (so_available y Hy) as Ha.
  split_and!; [by apply so_shared|lia|by apply permits_exhausted| |by apply so_apart| |].
  - intros i cl Hi. pose proof (so_clients y Hy i cl Hi) as Hcl. split.
    + destruct (cl_buffer _ _ _ _ _ Hcl); [by right|by left].
    + intros wr clock lag. destruct (at_ cl) as [| |raw j| | |ok] eqn:Eat; try done;
        (eapply ends_weaken; [apply (advance_ends ord wr clock lag (requirepass config) (chan cl)); [|by apply so_shared|]|done];
         [by eapply client_fits; [exact Hcl|rewrite Eat]|rewrite <- Eat; apply Hcl]).
  - intros st consumed j clock lag Ht. pose proof (so_task y Hy) as Hok. rewrite Ht in Hok.
    eapply ends_weaken; [apply (execute_frame_ends ord clock lag st consumed j _ (so_shared y Hy) Hok)|done].
  - intros c Hc. destruct (purge_step_ends (Z.to_nat (ttl_sample_size config)) c (db (shared y)) (sw_store _ (so_shared y Hy))
      (so_purge y Hy c Hc)) as (c1 & d1 & -> & _). by eexists.
Qed.

(** C4: nobody reaches the data without the password.  On a server that does
    not replicate a master, is not in the middle of a purge and has a payload
    limit below [isize::MAX]: over any run in which no client is
    authenticated, whatever the clients send and however the tasks interleave,
    no entry is added or changed, every entry that goes had expired when one
    of the purges of the run read the clock, and the cluster topology stays as
    it is. *)
Theorem locked_server_keeps_data y nows y' :
  sys_ok y -> repl_task y = NoTask -> purging y = None -> locked_run y nows y' ->
  cluster (shared y') = cluster (shared y)
  /\ contents (db (shared y')) ⊆ contents (db (shared y))
  /\ forall k e, contents (db (shared y)) !! k = Some e -> contents (db (shared y')) !! k = None ->
       exists now, now ∈ nows /\ Storage.is_expired e now = true.
Proof.
  intros Hy Ht Hp Hrun. destruct (locked_run_data [] y nows y' Hrun Hy Ht) as [Hc [Hsub Hex]]; [|done].
  unfold purge_due. by rewrite Hp.
Qed.

(** C8: what a replica is sent while the server runs.  In any run of all the
    tasks from the moment a client's channel is registered, as long as it is
    connected and has not registered again: its channel has accepted exactly
    the commands propagated in the run, in the order they were, the connection
    has taken the first of them from it, and, unless a write failed, has
    written those to its socket in that order. *)
Theorem replica_forwarding y raws txs y' i cl cl' :
  sys_ok y -> sys_run y raws txs y' ->
  clients y !! i = Some cl -> clients y' !! i = Some cl' -> chan cl' = chan cl ->
  registrations (chan cl) (downstream_senders (repl (shared y))) = 1%nat -> chan cl ∉ txs ->
  accepted (chans (shared y)) (chan cl) = [] ->
  accepted (chans (shared y')) (chan cl) = raws
  /\ delivered (chans (shared y')) (chan cl) `prefix_of` raws
  /\ (at_ cl' = Over false \/ delivered (chans (shared y')) (chan cl) `sublist_of` written (conn cl')).
Proof.
  intros Hy Hrun Hi Hi' Hch Hreg Hnot Hacc.
  pose proof (steps_ok _ _ (sys_run_steps _ _ _ _ Hrun) Hy) as Hy'.
  pose proof (so_clients y' Hy' i cl' Hi') as Hcl'. destruct (cl_open _ _ _ _ _ Hcl') as [_ Hopen]. rewrite Hch in Hopen.
  destruct (repl_run_stream _ _ _ _ (chan cl) (sys_run_repl _ _ _ _ Hy Hrun) Hopen Hnot Hreg) as (Ha & _ & _).
  cbn in Ha. rewrite Hacc in Ha. cbn in Ha. rewrite <- Ha. split_and!; [done|apply delivered_prefix|].
  rewrite <- Hch. apply Hcl'.
Qed.

End Invariant.
