(* ===== verification/TaskTheory.v ===== *)
(** * The replication task of the running server, left alone

    [System] cuts the replication task at its accesses to what the tasks
    share.  Without interruption its steps do what the sequential model
    [Replica.stream_one] of an iteration says: the command of a frame is run
    by the same accesses as [Commands.execute] makes. *)

From S2P Require Import Prelude RustStd Str Resp RespTheory Slot Storage StorageTheory Store Calls.
From S2P Require Import Topology TopologyTheory ReplState ReplTheory Runtime Commands CommandsTheory.
From S2P Require Import Connection ConnectionTheory Regions RegionsTheory Replica ReplicaTheory Pipeline Server System SystemTheory.
Import Resp Slot ReplState Commands Connection Regions Config System.

(** ** A command *)

Section Alone.
Context `{RegionLaws} `{MpscLaws}.
Variable ord : Topology.node_order.
Variable requirepass : option bytes.
Variable raw : option bytes.
Variable clock : nat -> Z.
Variable auth : bool.

Abbreviation next := (job_step ord 0 requirepass raw clock auth).

(** The accesses of a command that is not interrupted, to its reply. *)
Inductive job_runs : job -> Shared -> option Value -> bool -> Shared -> Prop :=
| runs_reply j s r a s1 : next j s = Ret (Replied r a s1) -> job_runs j s r a s1
| runs_more j s j1 s1 r a s2 : next j s = Ret (Busy j1 s1) -> job_runs j1 s1 r a s2 -> job_runs j s r a s2.

Lemma runs_set n k v exp c s d :
  set_alone n k v exp (clock 1%nat) c (db s) = Ret d ->
  job_runs (Setting k v exp c) s (Some ok) auth (propagate raw (with_db d s)).
Proof.
  revert c s. induction n as [|n IH]; intros c s Hs; cbn [set_alone] in Hs; [done|].
  destruct (set_step k v exp _ 0 c (db s)) as [[[c1|] d1]|x|] eqn:E; cbn [mbind outcome_bind] in Hs; [| |done|done].
  - eapply runs_more; [cbn [job_step]; by rewrite E|]. exact (IH c1 (with_db d1 s) Hs).
  - injection Hs as <-. eapply runs_more; [cbn [job_step]; by rewrite E|]. by apply runs_reply.
Qed.

Lemma runs_del keys count s n d :
  del_keys keys count (db s) = Ret (n, d) ->
  job_runs (DelLoop keys count) s (Some (Integer n)) auth (if 0 <? n then propagate raw (with_db d s) else with_db d s).
Proof.
  revert count s. induction keys as [|k keys IH]; intros count s Hd; cbn [del_keys] in Hd.
  - injection Hd as <- <-. rewrite with_db_same. destruct (0 <? count) eqn:E.
    + eapply runs_more; [cbn [job_step]; by rewrite E|]. by apply runs_reply.
    + apply runs_reply. cbn [job_step]. by rewrite E.
  - destruct (db_del (db s) k) as [[removed d1]|x|] eqn:E; cbn [mbind outcome_bind] in Hd; [|done|done].
    eapply runs_more; [cbn [job_step]; by rewrite E|]. exact (IH _ (with_db d1 s) Hd).
Qed.

Lemma runs_exists i keys count s n d :
  exists_keys clock i keys count (db s) = Ret (n, d) ->
  job_runs (ExistsLoop i keys count) s (Some (Integer n)) auth (with_db d s).
Proof.
  revert i count s. induction keys as [|k keys IH]; intros i count s Hd; cbn [exists_keys] in Hd.
  - injection Hd as <- <-. rewrite with_db_same. by apply runs_reply.
  - rewrite exists_regions, get_regions in Hd.
    destruct (lookup_in (db s) k _ _) as [[[[v|]|[]] d1]|x|] eqn:E; cbn [mbind outcome_bind] in Hd; [| | |done|done].
    + eapply runs_more; [cbn [job_step]; by rewrite E|]. exact (IH _ _ (with_db d1 s) Hd).
    + eapply runs_more; [cbn [job_step]; by rewrite E|]. exact (IH _ _ (with_db d1 s) Hd).
    + destruct (cleanup_in d1 k _) as [d2|x|] eqn:E2; cbn [mbind outcome_bind] in Hd; [|done|done].
      eapply runs_more; [cbn [job_step]; by rewrite E|]. eapply runs_more; [cbn [job_step db with_db]; by rewrite E2|].
      exact (IH _ _ (with_db d2 s) Hd).
Qed.

Lemma runs_keys n now i acc ks s :
  keys_alone n now i (db s) = Ret ks ->
  job_runs (KeysLoop now i acc) s (Some (Array (Some (string_ <$> acc ++ ks)))) auth s.
Proof.
  revert i acc ks. induction n as [|n IH]; intros i acc ks Hk; cbn [keys_alone] in Hk; [done|].
  destruct (keys_step now i (db s)) as [[k1|]|x|] eqn:E; cbn [mbind outcome_bind] in Hk; [| |done|done].
  - destruct (keys_alone n now (S i) (db s)) as [more| |] eqn:Em; [|done|done]. injection Hk as <-.
    eapply runs_more; [cbn [job_step]; by rewrite E|]. rewrite app_assoc. by apply IH.
  - injection Hk as <-. rewrite app_nil_r. apply runs_reply. cbn [job_step]. by rewrite E.
Qed.

(** The accesses make up [execute]. *)
Lemma runs_execute cmd s r a s' :
  store_ok (db s) -> allowed requirepass auth = true ->
  execute ord cmd raw requirepass clock auth s = Ret (r, a, s') -> job_runs (Start cmd) s r a s'.
Proof.
  intros Hok Ha. rewrite execute_allowed by done. intros He.
  assert (Hj : next (Start cmd) s = start ord cmd raw clock auth s)
    by (cbn [job_step]; destruct requirepass, auth; done).
  destruct cmd as [m|msg|k|k v px|ks|ks|p|o|args|x y|u p|sub| |];
    try (apply runs_reply; rewrite Hj; cbn [start]; by rewrite He); cbn [run] in He; cbn [start] in Hj.
  - rewrite get_regions in He. destruct (lookup_in (db s) k _ _) as [[[res|[]] d]|x|] eqn:E; cbn [mbind outcome_bind] in *; [| |done|done].
    + injection He as <- <- <-. by apply runs_reply.
    + destruct (cleanup_in d k _) as [d2|x|] eqn:E2; cbn [mbind outcome_bind] in He; [|done|done]. injection He as <- <- <-.
      eapply runs_more; [exact Hj|]. apply runs_reply. cbn [job_step db with_db]. by rewrite E2.
  - unfold exec_set in He. destruct (match px with Some ms => _ | None => _ end) as [exp|x|]; cbn [mbind outcome_bind] in *; [|done|done].
    destruct (set_regions (db s) k v exp (clock 1%nat) Hok) as [n Hn].
    destruct (db_set (db s) k v exp (clock 1%nat)) as [d|x|]; cbn [mbind outcome_bind] in He; [|done|done]. injection He as <- <- <-.
    eapply runs_more; [exact Hj|]. by eapply runs_set.
  - unfold exec_del in He. destruct (del_keys ks 0 (db s)) as [[n d]|x|] eqn:E; cbn [mbind outcome_bind] in He; [|done|done].
    injection He as <- <- <-. eapply runs_more; [exact Hj|]. by apply runs_del.
  - destruct (exists_keys clock 0 ks 0 (db s)) as [[n d]|x|] eqn:E; cbn [mbind outcome_bind] in He; [|done|done].
    injection He as <- <- <-. eapply runs_more; [exact Hj|]. by apply runs_exists.
  - injection He as <- <- <-. destruct (keys_regions (db s) (clock 0%nat) Hok) as [n Hn].
    eapply runs_more; [exact Hj|]. by apply (runs_keys n _ 0 []).
Qed.

End Alone.

(** ** A frame *)

Section Frame.
Context `{RegionLaws} `{MpscLaws}.
Variable ord : Topology.node_order.
Variable config : ServerConfig.
Variable wr : nat -> bool.
Variable clock : nat -> nat -> Z.
Hypothesis clock_ticks : forall n, ticking (clock n).

(** A server without a topology stays so. *)
Lemma job_step_no_cluster n j s :
  cluster s = None ->
  if_ret (fun r => match r with Busy _ s1 | Replied _ _ s1 => cluster s1 = None end)
    (job_step ord 0 None None (clock n) true j s).
Proof.
  intros Hc. assert (Hp : cluster (propagate None s) = None) by (by rewrite (proj2 (propagate_db None s))).
  destruct j as [c|k|k v exp c| |[|k keys] count|count|i [|k keys] count|i k keys count|now i ks]; cbn [job_step]; try done.
  - pose proof (run_no_cluster ord clock c None n s Hc) as Hr. destruct c; cbn [start]; try done;
      try (destruct (run _ _ _ _ _ _) as [[[r a] s1]|x|]; [by destruct Hr|done|done]).
    + by destruct (lookup_in _ _ _ _) as [[[r|] d]|x|].
    + by destruct (match px_ms with Some ms => _ | None => _ end).
  - by destruct (cleanup_in _ _ _).
  - by destruct (set_step _ _ _ _ _ _ _) as [[c1 d]|x|].
  - by case_match.
  - by destruct (db_del _ _) as [[r d]|x|].
  - by destruct (lookup_in _ _ _ _) as [[r d]|x|].
  - by destruct (cleanup_in _ _ _).
  - by destruct (keys_step _ _ _) as [[r|]|x|].
Qed.

(** The steps of the task alone. *)
Definition task_alone : task * Shared -> task * Shared -> Prop :=
  rtc (fun x y => task_step ord config (fst x) (snd x) (fst y) (snd y)).

(** The shared state with the topology back in place. *)
Definition unbare (s s1 : Shared) : Shared := {| db := db s1; repl := repl s1; chans := chans s1; cluster := cluster s |}.

Lemma bare_unbare s s1 : cluster s1 = None -> bare (unbare s s1) = s1.
Proof. destruct s1. cbn. by intros ->. Qed.

Lemma runs_task st consumed j s0 s r a s1 :
  job_runs ord None None (clock (Replica.s_served st)) true j s r a s1 -> cluster s = None ->
  task_alone (Executing st consumed j, unbare s0 s) (Recording st consumed false, unbare s0 s1).
Proof.
  induction 1 as [j s r a s1 Hj|j s j1 s1 r a s2 Hj _ IH]; intros Hc;
    pose proof (job_step_no_cluster (Replica.s_served st) j s Hc) as Hn; rewrite Hj in Hn; cbn in Hn.
  - apply rtc_once. apply (task_execute ord config clock 0); [done|]. unfold execute_frame.
    cbn [fst snd]. rewrite bare_unbare by done. by rewrite Hj.
  - eapply rtc_l; [|by apply IH]. apply (task_execute ord config clock 0); [done|]. unfold execute_frame.
    cbn [fst snd]. rewrite bare_unbare by done. by rewrite Hj.
Qed.

(** Where an iteration of the sequential loop leaves the task. *)
Definition after_turn (t : Replica.turn) (st : Replica.Stream) : task :=
  match t with
  | Replica.Again => Applying st
  | Replica.More => Reading st
  | Replica.Gone => NoTask
  end.

(** The end of a frame that asks for no reply. *)
Lemma record_task st consumed s st1 s1 :
  Replica.advance consumed st s = Ret (st1, s1) ->
  task_alone (Recording st consumed false, s) (Applying (Replica.count_served st1), s1).
Proof.
  intros Ha. apply rtc_once. apply (task_record ord config wr). unfold record_frame. cbn [fst snd]. by rewrite Ha.
Qed.

(** Running the command of a frame alone. *)
Lemma command_task cmd st consumed s st1 s1 s2 :
  store_ok (db s) -> Replica.apply_command ord clock cmd (Replica.s_served st) s = Ret s1 ->
  Replica.advance consumed st s1 = Ret (st1, s2) ->
  task_alone (Executing st consumed (Start cmd), s) (Applying (Replica.count_served st1), s2).
Proof.
  intros Hok Hc Ha. unfold Replica.apply_command in Hc.
  change {| db := db s; repl := repl s; chans := chans s; cluster := None |} with (bare s) in Hc.
  destruct (execute _ _ _ _ _ _ (bare s)) as [[[r a] s0]|x|] eqn:E; cbn [mbind outcome_bind] in Hc; [|done|done].
  injection Hc as <-. apply runs_execute in E; [|done|done].
  eapply rtc_trans; [|by eapply record_task].
  assert (Hs : s = unbare s (bare s)) by (by destruct s). rewrite Hs at 1. by eapply runs_task.
Qed.

(** The steps of the task, uninterrupted, are an iteration of the loop of
    the sequential model. *)
Theorem frame_alone st s t st1 s1 :
  shared_ok s -> Replica.s_buffer st <> [] -> Replica.stream_one ord wr clock st s = Ret (t, st1, s1) ->
  task_alone (Applying st, s) (after_turn t st1, s1).
Proof.
  intros Hs Hne Hone. unfold Replica.stream_one in Hone.
  assert (Htake : forall tk x, take_frame st = Ret tk -> task_alone (tk, s) x -> task_alone (Applying st, s) x).
  { intros tk x Ht Hx. eapply rtc_l; [|exact Hx]. by apply task_frame. }
  unfold take_frame in Htake. destruct (parse (Replica.s_buffer st)) as [[[[v|]|e] cursor]|x|]; cbn [mbind outcome_bind] in *; [| | |done|done].
  - destruct (sub_usize _ _) as [consumed| |]; cbn [mbind outcome_bind] in *; [|done|done].
    destruct (slice_from _ _) as [rest| |]; cbn [mbind outcome_bind] in *; [|done|done].
    specialize (Htake _ (after_turn t st1, s1) eq_refl). apply Htake. clear Htake.
    set (st0 := Replica.with_buffer rest st) in *.
    destruct (Replica.apply_value ord wr clock v consumed st0 s) as [[[t2 st2] s2]|x|] eqn:Ev; cbn [mbind outcome_bind] in Hone; [|done|done].
    injection Hone as <- <- <-. unfold Replica.apply_value in Ev.
    assert (Hcmd : forall cmd, (s1 ← Replica.apply_command ord clock cmd (Replica.s_served st0) s;
      '(st1, s2) ← Replica.advance consumed st0 s1; Ret (Replica.Again, st1, s2)) = Ret (t2, st2, s2) ->
      task_alone (Executing st0 consumed (Start cmd), s) (after_turn t2 (Replica.count_served st2), s2)).
    { intros cmd Hc. destruct (Replica.apply_command _ _ _ _ _) as [s3|x|] eqn:Ec; cbn [mbind outcome_bind] in Hc; [|done|done].
      destruct (Replica.advance consumed st0 s3) as [[st4 s4]|x|] eqn:Ead; cbn [mbind outcome_bind] in Hc; [|done|done].
      injection Hc as <- <- <-. eapply command_task; [apply Hs|exact Ec|exact Ead]. }
    destruct (from_value v) as [cmd|e] eqn:Efv.
    + destruct cmd as [m|msg|k|k v0 px|ks|ks|p|o|args|x y|u p|sub| |]; try (by apply Hcmd).
      destruct (Replica.advance consumed st0 s) as [[st4 s4]|x|] eqn:Ead; cbn [mbind outcome_bind] in Ev; [|done|done].
      apply rtc_once. apply (task_record ord config wr). unfold record_frame. cbn [fst snd]. rewrite Ead. cbn [mbind outcome_bind].
      destruct (Replica.is_getack args); [|by injection Ev as <- <- <-].
      destruct (wr _); by injection Ev as <- <- <-.
    + destruct (Replica.advance consumed st0 s) as [[st4 s4]|x|] eqn:Ead; cbn [mbind outcome_bind] in Ev; [|done|done].
      injection Ev as <- <- <-. by apply record_task.
  - injection Hone as <- <- <-. by eapply Htake.
  - destruct (slice_from 1 _) as [rest| |]; cbn [mbind outcome_bind] in *; [|done|done]. injection Hone as <- <- <-. by eapply Htake.
Qed.

End Frame.
