(* ===== verification/SystemRaces.v ===== *)
(** * Races between connections

    Storing a value and propagating it are two accesses: the writes of two
    clients can reach the replicas in the other order than they reached the
    store. *)

From S2P Require Import Prelude RustStd Str Resp RespTheory Slot Storage StorageTheory Store Calls.
From S2P Require Import Topology TopologyTheory ReplState ReplTheory Runtime Commands CommandsTheory.
From S2P Require Import Connection ConnectionTheory Regions RegionsTheory Replica ReplicaTheory Server ServerTheory System SystemTheory.
Import Resp Slot ReplState Commands Connection Regions Config System.

Section Races.
Context `{RegionLaws} `{MpscLaws} `{!MpscRx} `{!MpscRxLaws} `{BroadcastLaws} `{SemaphoreLaws}.
Variable ord : Topology.node_order.
Variable config : ServerConfig.
Hypothesis payload : 0 <= max_payload_size config < isize_max.

(** Every write succeeds and the clock stands still. *)
Definition calm_wr : nat -> bool := fun _ => true.
Definition calm_clock : nat -> nat -> Z := fun _ _ => 0.

Lemma calm_ticks n : ticking (calm_clock n).
Proof. by intros i j _. Qed.

(** The server once client [i] alone has moved. *)
Definition moved_on (i : nat) (cl : Client) (c : Conn) (p : phase) (d : store) (y : Sys) : Sys :=
  put_client i c p cl (with_shared (with_db d (shared y)) y).

Lemma moved_on_twice i cl c p d y c1 p1 d1 :
  moved_on i {| conn := c; at_ := p; chan := chan cl; stop_rx := stop_rx cl |} c1 p1 d1 (moved_on i cl c p d y)
  = moved_on i cl c1 p1 d1 y.
Proof. unfold moved_on, put_client, with_shared. cbn. by rewrite insert_insert_eq. Qed.

Lemma set_step_access y i cl raw k v c c1 d :
  clients y !! i = Some cl -> at_ cl = Run raw (Setting k v None c) ->
  set_step k v None 0 0 c (db (shared y)) = Ret (c1, d) ->
  sys_step ord config y (Access i (Run raw (Setting k v None c)))
    (moved_on i cl (conn cl) (Run raw (match c1 with Some c1 => Setting k v None c1 | None => SetStored end)) d y).
Proof.
  intros Hi Hat Hs. rewrite <- Hat.
  apply (step_access ord config i cl calm_wr calm_clock 0); [done|by rewrite Hat|apply calm_ticks|].
  rewrite Hat. cbn [advance job_step]. unfold calm_clock. by rewrite Hs.
Qed.

(** The regions of the SET of a client that runs alone. *)
Lemma set_reach_run y i cl raw k v c d :
  set_reach k v None 0 c (db (shared y)) d -> clients y !! i = Some cl -> at_ cl = Run raw (Setting k v None c) ->
  sys_run ord config y [] [] (moved_on i cl (conn cl) (Run raw SetStored) d y).
Proof.
  intros Hr. remember (db (shared y)) as st eqn:Est. revert y cl Est.
  induction Hr as [c st st' Hs|c st c1 st1 st' Hs _ IH]; intros y cl -> Hi Hat; pose proof (set_step_access y i cl raw k v c _ _ Hi Hat Hs) as Hst.
  - pose proof (sys_run_cons ord config _ _ _ _ _ _ Hst (sys_run_nil _ _ _)) as Hrun. cbn in Hrun. by rewrite Hi in Hrun.
  - set (y1 := moved_on i cl _ _ st1 y) in Hst.
    set (cl1 := {| conn := conn cl; at_ := Run raw (Setting k v None c1); chan := chan cl; stop_rx := stop_rx cl |}).
    assert (Hi1 : clients y1 !! i = Some cl1) by apply lookup_insert_eq.
    pose proof (sys_run_cons ord config _ _ _ _ _ _ Hst (IH y1 cl1 eq_refl Hi1 eq_refl)) as Hrun.
    cbn [label fst snd sent registered app] in Hrun. rewrite Hi in Hrun. cbn [app] in Hrun.
    unfold y1, cl1 in Hrun. by rewrite moved_on_twice in Hrun.
Qed.

(** SET without expiry, up to the store. *)
Lemma access_set y i cl raw k v :
  sys_ok config y -> clients y !! i = Some cl -> at_ cl = Run raw (Start (Set_ k v None)) ->
  allowed (requirepass config) (is_authenticated (conn cl)) = true ->
  exists d, sys_run ord config y [] [] (moved_on i cl (conn cl) (Run raw SetStored) d y)
    /\ forall t, seen (contents d) t k = Some v.
Proof.
  intros Hy Hi Hat Ha.
  destruct (set_ends k v None 0 (db (shared y)) (sw_store _ (so_shared _ _ Hy))) as (d & m & Hr & Hc).
  exists d. split; [|intros t; unfold seen; rewrite Hc; unfold spec_set; by rewrite lookup_insert_eq].
  assert (Hst : sys_step ord config y (Access i (Run raw (Start (Set_ k v None))))
    (moved_on i cl (conn cl) (Run raw (Setting k v None SetTest)) (db (shared y)) y)).
  { rewrite <- Hat. apply (step_access ord config i cl calm_wr calm_clock 0); [done|by rewrite Hat|apply calm_ticks|].
    rewrite Hat, with_db_same. cbn [advance job_step]. destruct (requirepass config), (is_authenticated (conn cl)); done. }
  set (y1 := moved_on i cl _ _ (db (shared y)) y) in Hst.
  set (cl1 := {| conn := conn cl; at_ := Run raw (Setting k v None SetTest); chan := chan cl; stop_rx := stop_rx cl |}).
  assert (Hi1 : clients y1 !! i = Some cl1) by apply lookup_insert_eq.
  pose proof (sys_run_cons ord config _ _ _ _ _ _ Hst (set_reach_run y1 i cl1 raw k v SetTest d Hr Hi1 eq_refl)) as Hrun.
  cbn [label fst snd sent registered app] in Hrun. rewrite Hi in Hrun. cbn [app] in Hrun.
  unfold y1, cl1 in Hrun. by rewrite moved_on_twice in Hrun.
Qed.

(** SET, from the store on. *)
Lemma access_propagate y i cl raw :
  clients y !! i = Some cl -> at_ cl = Run raw SetStored ->
  exists c1 p1, sys_step ord config y (Access i (Run raw SetStored))
    (put_client i c1 p1 cl (with_shared (propagate (Some raw) (shared y)) y)).
Proof.
  intros Hi Hat.
  destruct (answered calm_wr (conn cl) (Some ok) (is_authenticated (conn cl))) as [c1 p1] eqn:E. exists c1, p1.
  rewrite <- Hat. apply (step_access ord config i cl calm_wr calm_clock 0); [done|by rewrite Hat|apply calm_ticks|].
  rewrite Hat. cbn [advance job_step mbind outcome_bind]. unfold answered in E. by rewrite E.
Qed.

(** C22: replicas can end up with another value than their master.  When two
    clients are about to run SET of the same key, there is a schedule in which
    the value stored last is propagated first: at its end the master shows the
    one value, and the stream of a connected replica ends with the other. *)
Theorem replication_race y i j cli clj k vi vj rawi rawj tx :
  sys_ok config y -> i <> j -> clients y !! i = Some cli -> clients y !! j = Some clj ->
  at_ cli = Run rawi (Start (Set_ k vi None)) -> at_ clj = Run rawj (Start (Set_ k vj None)) ->
  allowed (requirepass config) (is_authenticated (conn cli)) = true ->
  allowed (requirepass config) (is_authenticated (conn clj)) = true ->
  is_replica (repl (shared y)) = false ->
  registrations tx (downstream_senders (repl (shared y))) = 1%nat -> is_closed (chans (shared y)) tx = false ->
  exists y', steps ord config y y'
    /\ (forall t, seen (contents (db (shared y'))) t k = Some vj)
    /\ accepted (chans (shared y')) tx = accepted (chans (shared y)) tx ++ [rawj; rawi]
    /\ forall view, views_after [Set_ k vj None; Set_ k vi None] view k = Some vi.
Proof.
  intros Hy Hij Hi Hj Hati Hatj Hai Haj Hm Hreg Hopen.
  destruct (access_set y i cli rawi k vi Hy Hi Hati Hai) as (d1 & Hs1 & _).
  set (y1 := moved_on i cli _ _ _ _) in Hs1.
  pose proof (steps_ok ord config payload _ _ (sys_run_steps _ _ _ _ _ _ Hs1) Hy) as Hy1.
  assert (Hj1 : clients y1 !! j = Some clj) by (cbn; by rewrite lookup_insert_ne).
  destruct (access_set y1 j clj rawj k vj Hy1 Hj1 Hatj Haj) as (d2 & Hs2 & Hseen).
  set (y2 := moved_on j clj _ _ _ _) in Hs2.
  set (clj2 := {| conn := conn clj; at_ := Run rawj SetStored; chan := chan clj; stop_rx := stop_rx clj |}).
  set (cli2 := {| conn := conn cli; at_ := Run rawi SetStored; chan := chan cli; stop_rx := stop_rx cli |}).
  assert (Hj2 : clients y2 !! j = Some clj2) by (cbn; by rewrite lookup_insert_eq).
  destruct (access_propagate y2 j clj2 rawj Hj2 eq_refl) as (c3 & p3 & Hs3).
  set (y3 := put_client j _ _ clj2 _) in Hs3.
  assert (Hi3 : clients y3 !! i = Some cli2).
  { cbn. rewrite lookup_insert_ne, lookup_insert_ne by done. by rewrite lookup_insert_eq. }
  destruct (access_propagate y3 i cli2 rawi Hi3 eq_refl) as (c4 & p4 & Hs4).
  set (y4 := put_client i _ _ cli2 _) in Hs4.
  assert (Hm3 : is_replica (repl (shared y3)) = false).
  { cbn. unfold propagate. cbn. rewrite Hm. cbn. unfold is_replica. by rewrite propagate_role. }
  assert (Hrun : sys_run ord config y [rawj; rawi] [] y4).
  { pose proof (sys_run_app ord config _ _ _ _ _ _ _ Hs1 (sys_run_app ord config _ _ _ _ _ _ _ Hs2
      (sys_run_cons ord config _ _ _ _ _ _ Hs3 (sys_run_cons ord config _ _ _ _ _ _ Hs4 (sys_run_nil _ _ y4))))) as Hr.
    cbn [label fst snd sent registered app] in Hr. rewrite Hj2, Hi3, Hm3 in Hr.
    change (repl (shared y2)) with (repl (shared y)) in Hr. by rewrite Hm in Hr. }
  exists y4. split_and!; [by eapply sys_run_steps| | |intros view; cbn; unfold view_after; by rewrite decide_True].
  - intros t. cbn. rewrite (proj1 (propagate_db _ _)), (proj1 (propagate_db _ _)). apply Hseen.
  - destruct (repl_run_stream _ _ _ _ tx (sys_run_repl ord config payload _ _ _ _ Hy Hrun)) as [Hacc _];
      [|by apply not_elem_of_nil|done|exact Hacc].
    cbn. rewrite !(rx_closed _ _ (propagate_rx _ _)). exact Hopen.
Qed.

End Races.
