(* ===== verification/SystemLiveness.v ===== *)
(** * Shutdown

    After the shutdown signal every connection is closed, in every fair run
    of the tasks.  A run is a sequence of states indexed by the natural
    numbers; fairness is that a task that can move on its own is scheduled,
    and that [select!] does not pass over a ready branch for ever.  A SET can
    be kept in its eviction loop by writes of others, so the accesses of all
    connections together have to be measured: a client either comes back to
    [select!] for ever, and is told to stop there, or from some point on it
    does not; of the clients that do not, every access takes bytes off a
    buffer, brings a command closer to its end, removes an entry of the store
    or brings a loop over the shards closer to its end, in this order.  That a
    client does the one or the other is by excluded middle. *)

From Stdlib Require Import Classical Wellfounded Relation_Operators.
From S2P Require Import Prelude RustStd Str Resp RespTheory Slot Storage StorageTheory Store Calls.
From S2P Require Import Topology TopologyTheory ReplState ReplTheory Runtime Commands CommandsTheory.
From S2P Require Import Connection ConnectionTheory Regions RegionsTheory Replica ReplicaTheory Server ServerTheory System SystemTheory.
Import Resp Slot ReplState Commands Connection Regions Config System.

#[local] Open Scope nat_scope.

(** ** Lexicographic measures *)

Abbreviation measure := (nat * (nat * (nat * (nat * nat))))%type.

(** [m] is below [m'], or equal in the last component at least. *)
Definition shrinks (m m' : measure) : Prop :=
  let '(a, (b, (c, (d, e)))) := m in
  let '(a', (b', (c', (d', e')))) := m' in
  a < a' \/ a = a' /\ (b < b' \/ b = b' /\ (c < c' \/ c = c' /\ (d < d' \/ d = d' /\ e <= e'))).

Definition drops (m m' : measure) : Prop :=
  let '(a, (b, (c, (d, e)))) := m in
  let '(a', (b', (c', (d', e')))) := m' in
  a < a' \/ a = a' /\ (b < b' \/ b = b' /\ (c < c' \/ c = c' /\ (d < d' \/ d = d' /\ e < e'))).

Lemma drops_wf : well_founded drops.
Proof.
  eapply (wf_incl _ _ (slexprod _ _ lt (slexprod _ _ lt (slexprod _ _ lt (slexprod _ _ lt lt))))).
  - intros [a [b [c [d e]]]] [a' [b' [c' [d' e']]]] Hd. cbn in Hd.
    destruct Hd as [?|[-> [?|[-> [?|[-> [?|[-> ?]]]]]]]];
      [by left|by right; left|by right; right; left|by right; right; right; left|by right; right; right; right].
  - repeat apply wf_slexprod; apply lt_wf.
Qed.

Lemma drops_shrinks m m' : drops m m' -> shrinks m m'.
Proof. destruct m as [a [b [c [d e]]]], m' as [a' [b' [c' [d' e']]]]. cbn. lia. Qed.

Lemma drops_shrinks_l m1 m2 m3 : drops m1 m2 -> shrinks m2 m3 -> drops m1 m3.
Proof.
  destruct m1 as [a [b [c [d e]]]], m2 as [a2 [b2 [c2 [d2 e2]]]], m3 as [a3 [b3 [c3 [d3 e3]]]]. cbn. lia.
Qed.

Lemma shrinks_refl m : shrinks m m.
Proof. destruct m as [a [b [c [d e]]]]. cbn. lia. Qed.

Lemma shrinks_trans m1 m2 m3 : shrinks m1 m2 -> shrinks m2 m3 -> shrinks m1 m3.
Proof.
  destruct m1 as [a [b [c [d e]]]], m2 as [a2 [b2 [c2 [d2 e2]]]], m3 as [a3 [b3 [c3 [d3 e3]]]]. cbn. lia.
Qed.

(** ** Progress of an access *)

(** How many accesses a phase takes until the next frame, the loops over the
    shards apart. *)
Definition weight (p : phase) : nat :=
  match p with
  | Select | Over _ => 0
  | Scan => 1
  | Counting => 2
  | Register => 3
  | Run _ j =>
      match j with
      | Start (Del keys) => 5 + length keys
      | Start (Exists_ keys) => 5 + 2 * length keys
      | Start _ => 5
      | GetExpired _ | SetStored | DelPropagate _ | KeysLoop _ _ _ => 2
      | Setting _ _ _ _ => 3
      | DelLoop keys _ => 3 + length keys
      | ExistsLoop _ keys _ => 3 + 2 * length keys
      | ExistsExpired _ _ rest _ => 4 + 2 * length rest
      end
  end.

(** Where a command is in its loop over [total] shards; [top] is the head of
    the eviction loop. *)
Definition position (top total : nat) (p : phase) : nat :=
  match p with
  | Run _ (Setting _ _ _ SetTest) => top
  | Run _ (Setting _ _ _ (SetScan i _)) => total - i + 3
  | Run _ (Setting _ _ _ (SetEvict _ _)) => 2
  | Run _ (KeysLoop _ i _) => total - i
  | _ => 0
  end.

Section Turn.
Context `{RegionLaws} `{MpscLaws}.
Variable ord : Topology.node_order.
Variable wr : nat -> bool.
Variable clock : nat -> nat -> Z.
Variable lag : Z.
Variable requirepass : option bytes.
Variable tx : sender.
(** Whether there may be a memory limit. *)
Variable limited : bool.

(** The entries, where they bound the eviction loop. *)
Definition entries (st : store) : nat := if limited then size (contents st) else 0.

Definition top (total : nat) : nat := if limited then total + 4 else 1.

(** The command got closer to its end, or its loop did. *)
Definition closer (p p1 : phase) (st st1 : store) : Prop :=
  weight p1 < weight p
  \/ (weight p1 = weight p
      /\ (entries st1 < entries st
          \/ (entries st1 <= entries st
              /\ position (top (shard_total st)) (shard_total st) p1 < position (top (shard_total st)) (shard_total st) p))).

Lemma start_closer cmd raw raw_cmd n auth s :
  if_ret (fun r => match r with Busy j1 _ => weight (Run raw j1) < weight (Run raw (Start cmd)) | Replied _ _ _ => True end)
    (start ord cmd raw_cmd (clock n) auth s).
Proof.
  destruct cmd; cbn [start]; try (by destruct (run _ _ _ _ _ _) as [[[r a] s1]|x|]); cbn [if_ret weight]; try lia.
  - destruct (lookup_in _ _ _ _) as [[[r|] d]|x|]; cbn; [done|lia|done|done].
  - destruct (match px_ms with Some ms => _ | None => _ end); cbn; [lia|done|done].
Qed.

Lemma set_step_closer raw k v exp now c st c1 st1 :
  store_wf st -> set_call_ok (shard_total st) c -> (limited = false -> over_limit st lag = false) ->
  set_step k v exp now lag c st = Ret (c1, st1) ->
  closer (Run raw (Setting k v exp c))
    (Run raw (match c1 with Some c1 => Setting k v exp c1 | None => SetStored end)) st st1.
Proof.
  intros Hw Hc Hl Hs. unfold closer, entries, top. destruct c as [|i oldest|idx k0|]; cbn [set_step] in Hs.
  - injection Hs as <- <-. right. split; [by destruct (over_limit st lag)|]. right. split; [done|].
    destruct limited; [destruct (over_limit st lag); cbn; lia|]. rewrite (Hl eq_refl). cbn. lia.
  - right. destruct (Nat.ltb_spec i (shard_total st)) as [Hlt|].
    + destruct (scan_region st i oldest Hw Hlt) as (o & Ho & _). rewrite Ho in Hs. injection Hs as <- <-.
      split; [done|]. right. split; [done|]. cbn. lia.
    + injection Hs as <- <-. split; [by destruct oldest as [[[? ?] ?]|]|]. right. split; [done|].
      destruct oldest as [[[? ?] ?]|]; cbn; lia.
  - right. destruct (evict_region st idx k0 Hw Hc) as (removed & st' & He & _ & Hr). rewrite He in Hs. injection Hs as <- <-.
    split; [by destruct removed|]. destruct removed; [|subst st'; right; split; [done|cbn; lia]].
    destruct limited; [left; by apply map_subset_size|right; split; [done|cbn; lia]].
  - left. destruct (insert_in st k v exp now); [|done|done]. injection Hs as <- _. cbn. lia.
Qed.

Lemma job_step_closer raw n auth j s :
  shared_wf s -> job_ok (shard_total (db s)) j -> (limited = false -> over_limit (db s) lag = false) ->
  if_ret (fun r => match r with
                   | Busy j1 s1 => closer (Run raw j) (Run raw j1) (db s) (db s1)
                   | Replied _ _ _ => 1 < weight (Run raw j)
                   end)
    (job_step ord lag requirepass (Some raw) (clock n) auth j s).
Proof.
  intros Hs Hj Hl. assert (Hstart : forall c, 1 < weight (Run raw (Start c))) by (destruct c; cbn; lia).
  destruct j as [c|k|k v exp c| |[|k keys] count|count|i [|k keys] count|i k keys count|now i ks]; cbn [job_step]; try (by cbn; lia).
  - specialize (Hstart c). pose proof (start_closer c raw (Some raw) n auth s) as Hst.
    assert (Hok : if_ret (fun r => match r with Busy j1 s1 => closer (Run raw (Start c)) (Run raw j1) (db s) (db s1)
      | Replied _ _ _ => 1 < weight (Run raw (Start c)) end) (start ord c (Some raw) (clock n) auth s))
      by (destruct (start _ _ _ _ _ _) as [[]|x|]; cbn in *; [by left|done|done|done]).
    destruct requirepass, auth; try exact Hok. by destruct (execute _ _ _ _ _ _ _) as [[[r a] s1]|x|].
  - destruct (cleanup_in _ _ _); cbn; [lia|done|done].
  - destruct (set_step _ _ _ _ _ _ _) as [[c1 d]|x|] eqn:E; [|done|done]. cbn [mbind outcome_bind if_ret].
    exact (set_step_closer raw k v exp _ c (db s) c1 d (sw_store s Hs) Hj Hl E).
  - case_match; cbn; [left; cbn; lia|lia].
  - destruct (db_del (db s) k) as [[r d]|x|]; cbn; [left; cbn; lia|done|done].
  - destruct (lookup_in _ _ _ _) as [[r d]|x|]; [|done|done]. left. destruct r as [[]|]; cbn; lia.
  - destruct (cleanup_in _ _ _); [left; cbn; lia|done|done].
  - unfold keys_step. destruct (Nat.ltb_spec i (shard_total (db s))) as [Hlt|]; [|cbn; lia].
    destruct (keys_in _ _ _) as [k1|x|]; [|done|done]. right. split; [done|]. right. split; [done|]. cbn. lia.
Qed.

Lemma scan_closer c s :
  fits (buffer c) ->
  if_ret (fun '(c1, p1) => length (buffer c1) < length (buffer c) \/ (buffer c1 = buffer c /\ weight p1 = 0)) (scan wr c s).
Proof.
  intros Hf. destruct (decide (buffer c = [])) as [Hb|Hb]; [unfold scan; rewrite Hb; by right|].
  destruct (parse (buffer c)) as [[[[v|]|e] rest]|x|] eqn:Ep.
  - destruct (parse_fits_sound _ _ _ Hf Ep) as (fr0 & Hb0 & Hfr0). pose proof (frame_nonempty _ _ Hfr0) as Hne.
    destruct (scan_frame wr c s v rest Hf Ep) as (fr & Hfr & ->).
    pose proof (scan_value_ends wr 0 v fr (set_buffer rest c) s (frame_items_ok _ _ Hfr0)) as Hv.
    destruct (scan_value _ _ _ _ _) as [r|x|]; [|done|done]. destruct Hv as [_ Hm]. cbn [mbind outcome_bind if_ret].
    pose proof (mv_buffer _ _ (moved_counted r)) as Hc2. destruct (counted r) as [c1 p1]. left.
    pose proof (mv_buffer _ _ Hm) as Hc3. cbn in *. rewrite Hb0, length_app. lia.
  - unfold scan. rewrite Ep. destruct (buffer c) eqn:Eb; [done|]. right. by rewrite Eb.
  - unfold scan. rewrite Ep. destruct (buffer c) eqn:Eb; [done|]. cbn [mbind outcome_bind]. unfold write_all.
    destruct (wr _); [left; cbn; lia|right; by rewrite Eb].
  - unfold scan. rewrite Ep. by destruct (buffer c).
  - unfold scan. rewrite Ep. by destruct (buffer c).
Qed.

Lemma answered_buffer c reply a : buffer (fst (answered wr c reply a)) = buffer c.
Proof.
  unfold answered, counted, reply_then, write_all. destruct reply as [v|]; [|done]. by destruct (wr _).
Qed.

Lemma answered_weight c reply a : weight (snd (answered wr c reply a)) <= 1.
Proof.
  unfold answered, counted, reply_then, write_all. destruct reply as [v|]; [|cbn; lia]. destruct (wr _); cbn; lia.
Qed.

(** An access takes a frame, or brings the command closer to its end. *)
Lemma advance_closer c p s :
  fits (buffer c) -> shared_wf s -> phase_ok (shard_total (db s)) p -> (limited = false -> over_limit (db s) lag = false) ->
  busy p = true ->
  if_ret (fun '(c1, p1, s1) => length (buffer c1) < length (buffer c)
      \/ (buffer c1 = buffer c /\ closer p p1 (db s) (db s1)))
    (advance ord wr clock lag requirepass tx c p s).
Proof.
  intros Hf Hs Hp Hl Hb. destruct p as [| |raw j| | |ok]; cbn [advance]; try done.
  - pose proof (scan_closer c s Hf) as Hsc. destruct (scan wr c s) as [[c1 p1]|x|]; [|done|done].
    cbn in *. destruct Hsc as [?|[? Hz]]; [by left|right]. split; [done|]. left. rewrite Hz. cbn. lia.
  - pose proof (job_step_closer raw (served c) (is_authenticated c) j s Hs Hp Hl) as Hj.
    destruct (job_step _ _ _ _ _ _ _ _) as [[j1 s1|reply a s1]|x|]; cbn [mbind outcome_bind if_ret] in *; [by right| |done|done].
    pose proof (answered_buffer c reply a) as Hbuf. pose proof (answered_weight c reply a) as Hw. unfold answered in *.
    destruct (counted _) as [c1 p1]. cbn [fst snd] in *. right. split; [done|]. left. lia.
  - right. split; [done|]. left. cbn. lia.
  - right. split; [done|]. left. cbn. lia.
Qed.

End Turn.

(** ** The measure of the server *)

Section Gauge.
Context `{RegionLaws} `{MpscLaws} `{!MpscRx} `{!MpscRxLaws} `{BroadcastLaws} `{SemaphoreLaws}.
Variable ord : Topology.node_order.
Variable config : ServerConfig.
Hypothesis payload : (0 <= max_payload_size config < isize_max)%Z.
Variable limited : bool.

(** In [select!]. *)
Definition idle (i : nat) (y : Sys) : Prop := exists cl, clients y !! i = Some cl /\ at_ cl = Select.

Definition total_over (f : Client -> nat) (m : gmap nat Client) : nat := map_fold (fun _ cl acc => f cl + acc) 0 m.

Lemma total_delete f (m : gmap nat Client) i cl :
  m !! i = Some cl -> total_over f m = f cl + total_over f (delete i m).
Proof. intros Hi. apply (map_fold_delete_L (fun _ cl acc => f cl + acc) 0 i cl m); [|done]. intros; lia. Qed.

Lemma total_insert f (m : gmap nat Client) i cl cl1 :
  m !! i = Some cl -> total_over f (<[i := cl1]> m) + f cl = total_over f m + f cl1.
Proof.
  intros Hi. rewrite (total_delete f m i cl Hi), (total_delete f (<[i := cl1]> m) i cl1) by apply lookup_insert_eq.
  rewrite delete_insert_eq. lia.
Qed.

Definition gauge (total : nat) (y : Sys) : measure :=
  (size (clients y),
   (total_over (fun cl => length (buffer (conn cl))) (clients y),
    (total_over (fun cl => weight (at_ cl)) (clients y),
     (entries limited (db (shared y)),
      total_over (fun cl => position (top limited total) total (at_ cl)) (clients y))))).

(** Every step keeps the store in shape. *)
Lemma step_keeps y a y' :
  sys_ok config y -> sys_step ord config y a y' -> keeps (db (shared y)) (db (shared y')).
Proof.
  intros Hy Hst. pose proof (so_shared _ _ Hy) as Hs. pose proof (keeps_refl _ (sw_store _ Hs)) as Hrefl.
  destruct Hst as [i p y Hrun Hi Hp|y _ _|y _|y _|i cl wr data w c1 p1 y Hi Hat Hd Hr Hw|i cl wr e c1 p1 y Hi Hat He Hw
    |i cl wr clock lag c1 p1 s1 y Hi Hb Ht Ha|i cl wr clock lag x y Hi _ _ _ _|i cl ok y Hi _|i cl y _ Hi _|now y _|c c1 d y Hc Hpu|t s1 y Hts];
    try exact Hrefl.
  - unfold accept. by destruct (subscribe _), (new_channel _).
  - pose proof (so_clients _ _ Hy i cl Hi) as Hcl.
    pose proof (advance_ends ord wr clock lag (requirepass config) (chan cl) (conn cl) (at_ cl) (shared y)
      (client_fits _ payload _ _ _ _ _ Hcl (busy_not_over _ Hb)) Hs (cl_phase _ _ _ _ _ _ Hcl)) as He.
    rewrite Ha in He. apply He.
  - destruct (purge_step_ends (Z.to_nat (ttl_sample_size config)) c (db (shared y)) (sw_store _ Hs) (so_purge _ _ Hy c Hc))
      as (c2 & d2 & Hpu2 & Hk & _). rewrite Hpu2 in Hpu. by injection Hpu as _ <-.
  - apply (task_step_ok ord config _ _ _ _ Hts Hs (so_task _ _ Hy)).
Qed.

(** A client gone. *)
Lemma leave_drops total i cl y : clients y !! i = Some cl -> drops (gauge total (leave i cl y)) (gauge total y).
Proof.
  intros Hi. left. cbn. rewrite map_size_delete_Some by (by exists cl).
  assert (size (clients y) <> 0); [|lia]. rewrite map_size_non_empty_iff. intros Hz. by rewrite Hz, lookup_empty in Hi.
Qed.

(** An access of a connection. *)
Lemma access_drops total i cl wr clock lag c1 p1 s1 y :
  sys_ok config y -> shard_total (db (shared y)) = total -> (limited = false -> unbounded (db (shared y))) ->
  clients y !! i = Some cl -> busy (at_ cl) = true ->
  advance ord wr clock lag (requirepass config) (chan cl) (conn cl) (at_ cl) (shared y) = Ret (c1, p1, s1) ->
  drops (gauge total (put_client i c1 p1 cl (with_shared s1 y))) (gauge total y).
Proof.
  intros Hy <- Hu Hi Hb Ha. pose proof (so_clients _ _ Hy i cl Hi) as Hcl.
  pose proof (advance_closer ord wr clock lag (requirepass config) (chan cl) limited (conn cl) (at_ cl) (shared y)
    (client_fits _ payload _ _ _ _ _ Hcl (busy_not_over _ Hb)) (so_shared _ _ Hy) (cl_phase _ _ _ _ _ _ Hcl)
    (fun Hl => unbounded_limit _ lag (Hu Hl)) Hb) as Hc. rewrite Ha in Hc. cbn [if_ret] in Hc.
  unfold gauge. cbn [clients shared put_client with_shared db].
  set (cl1 := {| conn := c1; at_ := p1; chan := chan cl; stop_rx := stop_rx cl |}).
  pose proof (total_insert (fun cl => length (buffer (conn cl))) (clients y) i cl cl1 Hi) as Hbuf.
  pose proof (total_insert (fun cl => weight (at_ cl)) (clients y) i cl cl1 Hi) as Hw.
  set (pos := fun cl => position (top limited (shard_total (db (shared y)))) (shard_total (db (shared y))) (at_ cl)).
  pose proof (total_insert pos (clients y) i cl cl1 Hi) as Hpos.
  rewrite map_size_insert_Some by (by exists cl). unfold closer in Hc. unfold pos in *. cbn in *.
  destruct Hc as [Hlt|[Heq Hc]]; [lia|]. rewrite Heq in Hbuf. lia.
Qed.

(** The steps of the task of client [i]. *)
Definition own (i : nat) (a : act) : bool :=
  match a with
  | Forward j _ | Wake j _ | Access j _ | Leave j => bool_decide (j = i)
  | _ => false
  end.

(** Once no client is in [select!] and the accept loop has stopped, a step
    never raises the measure, and a step of a connection lowers it. *)
Lemma step_gauge total y a y' :
  sys_ok config y -> stopped y = true -> (forall i, ~ idle i y) -> shard_total (db (shared y)) = total ->
  (limited = false -> unbounded (db (shared y))) -> (limited = true -> a <> Replicate) ->
  sys_step ord config y a y' ->
  shrinks (gauge total y') (gauge total y) /\ forall i, own i a = true -> drops (gauge total y') (gauge total y).
Proof.
  intros Hy Hstop Hidle Ht Hu Hr Hst.
  assert (Hdrop : drops (gauge total y') (gauge total y) ->
    shrinks (gauge total y') (gauge total y) /\ forall i, own i a = true -> drops (gauge total y') (gauge total y)).
  { intros Hd. split; [by apply drops_shrinks|done]. }
  destruct Hst as [i p y Hrun Hi Hp|y Hrun _|y Hrun|y Hrun|i cl wr data w c1 p1 y Hi Hat Hd Hrv Hw|i cl wr e c1 p1 y Hi Hat He Hw
    |i cl wr clock lag c1 p1 s1 y Hi Hb Htk Ha|i cl wr clock lag x y Hi _ _ _ _|i cl ok y Hi _|i cl y _ Hi _|now y _|c c1 d y Hc Hpu|t s1 y Hts];
    try congruence.
  - destruct (Hidle i). by exists cl.
  - destruct (Hidle i). by exists cl.
  - apply Hdrop. by eapply access_drops.
  - apply Hdrop. by apply leave_drops.
  - apply Hdrop. by apply leave_drops.
  - apply Hdrop. by apply leave_drops.
  - split; [apply shrinks_refl|done].
  - split; [|done].
    destruct (purge_step_ends (Z.to_nat (ttl_sample_size config)) c (db (shared y)) (sw_store _ (so_shared _ _ Hy)) (so_purge _ _ Hy c Hc))
      as (c2 & d2 & Hpu2 & _ & Hsub & _). rewrite Hpu2 in Hpu. injection Hpu as _ <-.
    pose proof (map_subseteq_size _ _ Hsub). unfold gauge, entries. cbn. destruct limited; lia.
  - split; [|done]. destruct limited eqn:El; [by destruct (Hr eq_refl)|]. unfold gauge, entries. rewrite El. cbn. lia.
Qed.

End Gauge.

(** ** Fair runs *)

Section Shutdown.
Context `{RegionLaws} `{MpscLaws} `{!MpscRx} `{!MpscRxLaws} `{BroadcastLaws} `{SemaphoreLaws}.
Variable ord : Topology.node_order.
Variable config : ServerConfig.
Hypothesis payload : (0 <= max_payload_size config < isize_max)%Z.

(** [run n] is the state after [n] steps, [moves n] the step taken then, if
    any task moved. *)
Variable run : nat -> Sys.
Variable moves : nat -> option act.

Definition infinite_run : Prop :=
  forall n, match moves n with
            | Some a => sys_step ord config (run n) a (run (S n))
            | None => run (S n) = run n
            end.

Definition gone (i : nat) (y : Sys) : Prop := clients y !! i = None.

(** In [select!] with the shutdown signal pending. *)
Definition pending (i : nat) (y : Sys) : Prop :=
  exists cl, clients y !! i = Some cl /\ at_ cl = Select /\ ready Shutdown cl y = true.

(** Able to move on its own. *)
Definition eager (i : nat) (y : Sys) : Prop := exists cl, clients y !! i = Some cl /\ at_ cl <> Select.

(** A connection that can move on its own is scheduled, and the writes it
    waits for return. *)
Definition tasks_are_fair : Prop :=
  forall n i, eager i (run n) -> exists m a, n <= m /\ moves m = Some a /\ own i a = true.

(** A connection that is in [select!] again and again, with the shutdown
    signal pending, takes it at some point. *)
Definition select_is_fair : Prop :=
  forall n i, (forall m, n <= m -> exists m', m <= m' /\ (pending i (run m') \/ gone i (run m'))) ->
    exists m, n <= m /\ (moves m = Some (Wake i Shutdown) \/ gone i (run m)).

(** The replication task comes to rest. *)
Definition replication_rests : Prop := exists n, forall m, n <= m -> moves m <> Some Replicate.

Hypothesis is_run : infinite_run.
Hypothesis start_ok : sys_ok config (run 0).
Hypothesis told : stopped (run 0) = true.
Hypothesis fair : tasks_are_fair.
Hypothesis fair_select : select_is_fair.

Lemma step_stopped y a y' : sys_step ord config y a y' -> stopped y = true -> stopped y' = true.
Proof. destruct 1; try done. unfold accept. by destruct (subscribe _), (new_channel _). Qed.

Lemma run_ok n : sys_ok config (run n) /\ stopped (run n) = true.
Proof.
  induction n as [|n [Hok Hst]]; [done|]. specialize (is_run n). destruct (moves n) as [a|]; [|by rewrite is_run].
  split; [by eapply (sys_step_ok ord config payload)|by eapply step_stopped].
Qed.

Lemma run_keeps n : keeps (db (shared (run 0))) (db (shared (run n))).
Proof.
  induction n as [|n IH]; [apply keeps_refl, sw_store, (so_shared _ _ start_ok)|].
  pose proof (is_run n) as Hn. destruct (moves n) as [a|]; [|by rewrite Hn].
  eapply keeps_trans; [exact IH|]. eapply (step_keeps ord config payload); [apply run_ok|exact Hn].
Qed.

(** Other tasks do not touch a connection. *)
Lemma other_step i y a y' :
  sys_step ord config y a y' -> stopped y = true -> own i a = false -> clients y' !! i = clients y !! i.
Proof.
  destruct 1; cbn [own]; intros Hst Ho; try done; try congruence; apply bool_decide_eq_false in Ho; cbn;
    by rewrite ?lookup_insert_ne, ?lookup_delete_ne.
Qed.

(** Until the next step of its own a connection stays as it is. *)
Lemma next_own n i m a :
  n <= m -> moves m = Some a -> own i a = true ->
  exists m' a', n <= m' /\ moves m' = Some a' /\ own i a' = true /\ clients (run m') !! i = clients (run n) !! i.
Proof.
  intros Hle. remember (m - n) as d eqn:Ed. revert n Hle Ed. induction d as [|d IH]; intros n Hle Ed Hm Ho.
  - assert (n = m) as -> by lia. by exists m, a.
  - pose proof (is_run n) as Hn. destruct (run_ok n) as [_ Hst]. destruct (moves n) as [b|] eqn:Eb.
    + destruct (own i b) eqn:Eo; [by exists n, b|].
      destruct (IH (S n) ltac:(lia) ltac:(lia) Hm Ho) as (m' & a' & Hle' & Hm' & Ho' & Hsame).
      exists m', a'. split_and!; [lia|done|done|]. rewrite Hsame. by eapply other_step.
    + destruct (IH (S n) ltac:(lia) ltac:(lia) Hm Ho) as (m' & a' & Hle' & Hm' & Ho' & Hsame).
      exists m', a'. split_and!; [lia|done|done|]. by rewrite Hsame, Hn.
Qed.

(** A connection that is over leaves. *)
Lemma over_step i cl ok y a y' :
  clients y !! i = Some cl -> at_ cl = Over ok -> own i a = true -> sys_step ord config y a y' -> gone i y'.
Proof.
  intros Hi Hat Ho Hst. destruct Hst; cbn [own] in Ho; try done; apply bool_decide_eq_true in Ho; subst; simplify_eq;
    try congruence; try apply lookup_delete_eq.
  match goal with Hb : busy _ = true |- _ => by rewrite Hat in Hb end.
Qed.

Lemma over_leaves n i cl ok :
  clients (run n) !! i = Some cl -> at_ cl = Over ok -> exists m, n <= m /\ gone i (run m).
Proof.
  intros Hi Hat. destruct (fair n i) as (m & a & Hle & Hm & Ho); [exists cl; by rewrite Hat|].
  destruct (next_own n i m a Hle Hm Ho) as (m' & a' & Hle' & Hm' & Ho' & Hsame). rewrite Hi in Hsame.
  pose proof (is_run m') as Hst. rewrite Hm' in Hst. exists (S m'). split; [lia|]. by eapply over_step.
Qed.

(** It has been told to stop. *)
Lemma idle_pending n i : idle i (run n) -> pending i (run n).
Proof.
  intros (cl & Hi & Hat). destruct (run_ok n) as [Hok Hst]. exists cl. split_and!; [done|done|].
  exact (cl_told _ _ _ _ _ _ (so_clients _ _ Hok i cl Hi) Hst).
Qed.

(** A client that takes the signal goes. *)
Lemma woken_goes m i : moves m = Some (Wake i Shutdown) -> exists n, gone i (run n).
Proof.
  intros Hw. pose proof (is_run m) as Hst. rewrite Hw in Hst. inversion Hst; subst; try done.
  match goal with Hwake : wake _ _ Shutdown _ = _ |- _ => cbn in Hwake; injection Hwake as <- <- end.
  match goal with Hr : _ = run (S m) |- _ => rename Hr into Hnext end.
  destruct (over_leaves (S m) i {| conn := conn cl; at_ := Over true; chan := chan cl; stop_rx := stop_rx cl |} true) as (m2 & _ & Hg);
    [rewrite <- Hnext; cbn; by rewrite lookup_insert_eq|done|by exists m2].
Qed.

(** Nobody comes back. *)
Lemma stays_gone i n m : n <= m -> gone i (run n) -> gone i (run m).
Proof.
  induction 1 as [|m Hle IH]; [done|]. intros Hg. specialize (IH Hg). unfold gone in *.
  pose proof (is_run m) as Hm. destruct (run_ok m) as [_ Hst]. destruct (moves m) as [a|]; [|by rewrite Hm].
  destruct (own i a) eqn:Ho; [|by rewrite (other_step i _ a _ Hm Hst Ho)].
  destruct Hm; cbn [own] in Ho; try done; apply bool_decide_eq_true in Ho; subst; simplify_eq;
    by rewrite ?lookup_delete_eq.
Qed.

(** From some point on a client is not in [select!] any more: it has gone,
    or it is busy for good. *)
Lemma client_settles i : exists n, forall m, n <= m -> ~ idle i (run m).
Proof.
  destruct (classic (forall m, exists m', m <= m' /\ (pending i (run m') \/ gone i (run m')))) as [Hoften|Hnot].
  - destruct (fair_select 0 i) as (m & _ & Hm); [by intros m _|].
    assert (Hgone : exists n, gone i (run n)) by (destruct Hm as [Hw|Hg]; [by eapply woken_goes|by exists m]).
    destruct Hgone as [n Hn]. exists n. intros m' Hle (cl & Hi & _). pose proof (stays_gone i n m' Hle Hn) as Hg.
    unfold gone in Hg. congruence.
  - apply not_all_ex_not in Hnot as [n Hn]. exists n. intros m Hle Hid. apply Hn. exists m. auto using idle_pending.
Qed.

Lemma all_settle : exists n, forall m i, n <= m -> ~ idle i (run m).
Proof.
  assert (Hall : forall l : list nat, exists n, forall i, i ∈ l -> forall m, n <= m -> ~ idle i (run m)).
  { induction l as [|i l [n IH]]; [exists 0; by intros i ?%not_elem_of_nil|].
    destruct (client_settles i) as [k Hk]. exists (n + k). intros j [->|Hj]%elem_of_cons m Hm; [apply Hk; lia|apply IH; [done|lia]]. }
  destruct (Hall (elements (dom (clients (run 0))))) as [n Hn]. exists n. intros m i Hm.
  destruct (clients (run 0) !! i) as [cl|] eqn:E.
  - apply Hn; [|done]. apply elem_of_elements, elem_of_dom. by rewrite E.
  - intros (cl & Hi & _). pose proof (stays_gone i 0 m ltac:(lia) E) as Hg. unfold gone in Hg. congruence.
Qed.

(** ** The measure along a run *)

Variable limited : bool.
Hypothesis unlimited : limited = false -> unbounded (db (shared (run 0))).
Hypothesis rests : limited = true -> replication_rests.

Abbreviation level n := (gauge limited (shard_total (db (shared (run 0)))) (run n)).

Lemma run_gauge n a :
  (forall i, ~ idle i (run n)) -> (limited = true -> moves n <> Some Replicate) -> moves n = Some a ->
  shrinks (level (S n)) (level n) /\ forall i, own i a = true -> drops (level (S n)) (level n).
Proof.
  intros Hid Hr Hm. pose proof (is_run n) as Hst. rewrite Hm in Hst. destruct (run_ok n) as [Hok Hstop].
  destruct (run_keeps n) as (_ & Ht & Hu).
  apply (step_gauge ord config payload limited _ _ a); [done|done|done|done|auto| |done]. intros Hl ->. by apply Hr.
Qed.

(** From [n] on nobody is in [select!], and the replication task rests. *)
Definition settled (n : nat) : Prop :=
  forall m, n <= m -> (forall i, ~ idle i (run m)) /\ (limited = true -> moves m <> Some Replicate).

Lemma level_shrinks n m : settled n -> n <= m -> shrinks (level m) (level n).
Proof.
  intros Hs. induction 1 as [|m Hle IH]; [apply shrinks_refl|]. destruct (Hs m Hle) as [Hid Hr].
  eapply shrinks_trans; [|exact IH]. destruct (moves m) as [a|] eqn:Em.
  - rewrite <- Em in Hr. exact (proj1 (run_gauge m a Hid Hr Em)).
  - pose proof (is_run m) as Hm. rewrite Em in Hm. rewrite Hm. apply shrinks_refl.
Qed.

(** As long as a client is left the measure drops. *)
Lemma level_drops n : settled n -> clients (run n) <> ∅ -> exists m, n <= m /\ drops (level m) (level n).
Proof.
  intros Hs Hne. apply map_choose in Hne as (i & cl & Hi).
  assert (Hsel : at_ cl <> Select) by (intros Hat; apply (proj1 (Hs n (le_n _)) i); by exists cl).
  destruct (fair n i) as (m & a & Hle & Hm & Ho); [by exists cl|]. exists (S m). split; [lia|].
  destruct (Hs m Hle) as [Hid Hr]. eapply drops_shrinks_l; [|by apply (level_shrinks n m)].
  exact (proj2 (run_gauge m a Hid Hr Hm) i Ho).
Qed.

Lemma all_settled : exists n, settled n.
Proof.
  destruct all_settle as [n Hn]. destruct limited eqn:El.
  - destruct (rests eq_refl) as [k Hk]. exists (n + k). intros m Hm. split; [intros i; apply Hn; lia|].
    intros _. apply Hk. lia.
  - exists n. intros m Hm. split; [intros i; by apply Hn|]. by rewrite El.
Qed.

Lemma empties n : settled n -> exists m, n <= m /\ clients (run m) = ∅.
Proof.
  remember (level n) as l eqn:El. revert n El.
  induction l as [l IH] using (well_founded_induction drops_wf). intros n -> Hs.
  destruct (decide (clients (run n) = ∅)) as [He|Hne]; [by exists n|].
  destruct (level_drops n Hs Hne) as (m & Hle & Hd).
  destruct (IH _ Hd m eq_refl) as (m' & Hle' & He); [intros k Hk; apply Hs; lia|]. exists m'. split; [lia|done].
Qed.

Lemma all_gone : exists n, forall m, n <= m -> clients (run m) = ∅.
Proof.
  destruct all_settled as [n Hn]. destruct (empties n Hn) as (k & _ & He). exists k. intros m Hm.
  apply map_empty. intros i. apply (stays_gone i k m Hm). unfold gone. by rewrite He, lookup_empty.
Qed.

End Shutdown.

(** ** From any point of a run on *)

Section Later.
Context `{RegionLaws} `{MpscLaws} `{!MpscRx} `{!MpscRxLaws} `{BroadcastLaws} `{SemaphoreLaws}.
Variable ord : Topology.node_order.
Variable config : ServerConfig.
Variable run : nat -> Sys.
Variable moves : nat -> option act.
Variable k : nat.

Lemma later_run : infinite_run ord config run moves ->
  infinite_run ord config (fun n => run (k + n)) (fun n => moves (k + n)).
Proof. intros Hr n. rewrite Nat.add_succ_r. apply Hr. Qed.

Lemma later_ok : (0 <= max_payload_size config < isize_max)%Z -> infinite_run ord config run moves ->
  sys_ok config (run 0) -> sys_ok config (run k).
Proof.
  intros Hp Hr H0'. induction k as [|n IH]; [done|]. specialize (Hr n). destruct (moves n) as [a|]; [|by rewrite Hr].
  by eapply (sys_step_ok ord config Hp).
Qed.

Lemma later_fair : tasks_are_fair run moves -> tasks_are_fair (fun n => run (k + n)) (fun n => moves (k + n)).
Proof.
  intros Hf n i He. destruct (Hf (k + n) i He) as (m & a & Hle & Hm & Ho). exists (m - k), a.
  replace (k + (m - k)) with m by lia. split_and!; [lia|done|done].
Qed.

Lemma later_selects : select_is_fair run moves -> select_is_fair (fun n => run (k + n)) (fun n => moves (k + n)).
Proof.
  intros Hf n i Hoften. destruct (Hf (k + n) i) as (m & Hle & Hm).
  - intros m Hle. destruct (Hoften (m - k)) as (m' & Hle' & Hx); [lia|]. exists (k + m'). by split; [lia|].
  - exists (m - k). replace (k + (m - k)) with m by lia. by split; [lia|].
Qed.

Lemma later_rests : replication_rests moves -> replication_rests (fun n => moves (k + n)).
Proof. intros [n Hn]. exists n. intros m Hm. apply Hn. lia. Qed.

End Later.

(** C5: shutdown completes.  In every infinite run of the server in which the
    accept loop is told to stop at some point, in which a connection that can
    move on its own is scheduled and [select!] does not pass over the shutdown
    signal for ever, there is a point from which on no client is connected:
    without a memory limit always, and with one if the replication task comes
    to rest (its writes could keep a SET evicting for ever). *)
Theorem shutdown_completes `{RegionLaws} `{MpscLaws} `{!MpscRx} `{!MpscRxLaws} `{BroadcastLaws} `{SemaphoreLaws}
    ord config (run : nat -> Sys) moves k :
  (0 <= max_payload_size config < isize_max)%Z ->
  infinite_run ord config run moves -> sys_ok config (run 0) -> stopped (run k) = true ->
  tasks_are_fair run moves -> select_is_fair run moves ->
  unbounded (db (shared (run k))) \/ replication_rests moves ->
  exists n, forall m, n <= m -> clients (run m) = ∅.
Proof.
  intros Hp Hr Hok Hst Hf Hs Hlim.
  assert (Hlater : exists n, forall m, n <= m -> clients (run (k + m)) = ∅).
  { pose proof (later_ok ord config run moves k Hp Hr Hok) as Hok'. pose proof (later_run ord config run moves k Hr) as Hr'.
    pose proof (later_fair run moves k Hf) as Hf'. pose proof (later_selects run moves k Hs) as Hs'.
    destruct Hlim as [Hu|Hrest].
    - apply (all_gone ord config Hp (fun n => run (k + n)) (fun n => moves (k + n)) Hr') with (limited := false); rewrite ?Nat.add_0_r; done.
    - apply (all_gone ord config Hp (fun n => run (k + n)) (fun n => moves (k + n)) Hr') with (limited := true); rewrite ?Nat.add_0_r; try done.
      intros _. by apply later_rests. }
  destruct Hlater as [n Hn]. exists (k + n). intros m Hm. replace m with (k + (m - k)) by lia. apply Hn. lia.
Qed.
