(* ===== verification/Program.v ===== *)
(** * The program: [main] of src/main.rs

    The start as one computation: the environment file, the options, the
    configuration, the runtime, the server and its first state.  [parse_cli]
    is clap's reading of the command line in an environment, none when clap
    ends the program itself; what it yields satisfies [cli_ok], the types of
    the options and the bounds the start needs.  [build] tells whether tokio
    builds a runtime of that many threads.  Setting up the log changes nothing
    the program reads and is left out.  The theorem composes the start with
    the invariant of the running server. *)

From S2P Require Import Prelude RustStd Str Resp Slot Storage StorageTheory Store Calls Topology TopologyTheory.
From S2P Require Import ReplState ReplTheory Runtime Commands CommandsTheory Connection Regions Replica.
From S2P Require Import Server ServerTheory System SystemTheory.
Import Slot ReplState Commands Config Server System.

Module Program.

(** The number of worker threads asked of the runtime; [None] is its own
    choice. *)
Definition runtime_threads (config : ServerConfig) : option Z :=
  if 0 <? worker_threads config then Some (worker_threads config) else None.

(** How the start ends. *)
Inductive ending `{Platform} `{StoreRegions} `{MpscRx} `{Broadcast} `{Semaphore} : Type :=
| Exited                                                 (** clap has ended the program *)
| BuildFailed                                            (** [builder.build()?] *)
| Started (config : ServerConfig) (started : option Sys) (** none when the address cannot be bound *)
.

Section Main.
Context `{Platform} `{MpscRx} `{Broadcast} `{Semaphore}.
Variable iter : Storage.iter_order.

#[local] Instance the_store : Store := Db_store iter.
#[local] Instance the_regions : StoreRegions := Db_regions iter.

(** [dotenv] is the text of the file, if it can be read; [w] the channels at
    the start. *)
Definition main (dotenv : option bytes) (parse_cli : environment -> option Cli) (build : option Z -> bool)
    (bind_ok : bytes -> bool) (connected : bool) (w : channels) (env : environment) : outcome ending :=
  env1 ← load_dotenv dotenv env;
  match parse_cli env1 with
  | None => Ret Exited
  | Some cli =>
      config ← config_of_cli cli;
      if build (runtime_threads config) then
        server ← with_server_config config (initial_repl config);
        started ← boot config bind_ok connected (initial_shared iter server w);
        Ret (Started config started)
      else Ret BuildFailed
  end.

End Main.
End Program.
Import Program.

(** ** What the options may be *)

Section Start.
Context `{Platform} `{MpscLaws} `{!MpscRx} `{!MpscRxLaws} `{BroadcastLaws} `{SemaphoreLaws}.
Variable iter : Storage.iter_order.
Hypothesis iter_ok : Storage.IterOrder iter.
Variable ord : Topology.node_order.

#[local] Instance main_store : Store := Db_store iter.
#[local] Instance main_laws : StoreLaws := Db_laws iter iter_ok.
#[local] Instance main_regions : StoreRegions := Db_regions iter.
#[local] Instance main_region_laws : RegionLaws := Db_region_laws iter iter_ok.

(** The types of the options ([--replicaof] takes two words), and what keeps
    the start from overflowing or running out of memory. *)
Record cli_ok (cli : Cli) : Prop := {
  ci_payload : 0 <= cli_max_payload_size cli < isize_max;
  ci_connections : 0 <= cli_max_connections cli <= max_permits;
  ci_shards : cli_shard_count cli <= 2 ^ 63;
  ci_memory : capacity_ok sizeof_Shard (2 ^ Z.log2_up (Z.max (cli_shard_count cli) 1)) = true;
  ci_replicaof args : cli_replicaof cli = Some args -> length args = 2%nat;
  ci_port : default (cli_port cli) (cli_cluster_announce_port cli) + 10000 <= u16_max;
}.

Lemma replica_parsed_ok cli : cli_ok cli -> exists r, replica_parsed cli = Ret r
  /\ (cli_replicaof cli = None -> cli_replicaof_env cli = None -> r = None).
Proof.
  intros Hc. unfold replica_parsed.
  assert (Hcfg : forall args, replica_cfg cli = Some args -> (2 <= length args)%nat).
  { unfold replica_cfg. intros args. destruct (cli_replicaof cli) as [a|] eqn:E.
    - intros [= <-]. by rewrite (ci_replicaof cli Hc a E).
    - destruct (cli_replicaof_env cli) as [val|]; [|done]. cbn [mbind option_bind].
      destruct (Nat.leb_spec 2 (length (Str.split_whitespace val))); [|done]. by intros [= <-]. }
  destruct (replica_cfg cli) as [args|] eqn:E; [|by exists None].
  specialize (Hcfg args eq_refl). destruct args as [|h [|p args]]; cbn in Hcfg; try lia.
  cbn [index mbind outcome_bind]. eexists. split; [reflexivity|]. intros Hr He. unfold replica_cfg in E. by rewrite Hr, He in E.
Qed.

Lemma config_built cli : cli_ok cli -> exists config, config_of_cli cli = Ret config
  /\ max_payload_size config = cli_max_payload_size cli /\ max_connections config = cli_max_connections cli
  /\ shard_count config = cli_shard_count cli /\ requirepass config = filter_empty (cli_requirepass cli).
Proof.
  intros Hc. unfold config_of_cli. destruct (replica_parsed_ok cli Hc) as (r & -> & _). cbn [mbind outcome_bind].
  unfold add_u16. destruct (Z.leb_spec (default (cli_port cli) (cli_cluster_announce_port cli) + 10000) u16_max) as [_|Hp];
    [|pose proof (ci_port cli Hc); lia].
  cbn [mbind outcome_bind]. eexists. by split_and!.
Qed.

(** C11: the program runs safely from its first line.  If the variables of
    the environment file can be set and clap yields options within bounds
    ([cli_ok]: a payload limit below [isize::MAX], a number of connections
    the semaphore takes, shards that can be allocated, [--replicaof] with two
    words, an announced port of at most 55535): [main] does not panic; it ends
    in clap, in the building of the runtime or with an address that cannot be
    bound exactly when these fail, and otherwise reaches the accept loop, with
    a password required of the clients if and only if the options have a
    non-empty one; in every state the tasks can reach from there the invariant
    of the running server holds. *)
Theorem program_runs_safely dotenv parse_cli (build : option Z -> bool) bind_ok connected w env :
  (forall text, dotenv = Some text -> Forall settable (Str.lines text)) ->
  (forall env' cli, parse_cli env' = Some cli -> cli_ok cli) ->
  exists env', load_dotenv dotenv env = Ret env' /\
  match parse_cli env' with
  | None => main iter dotenv parse_cli build bind_ok connected w env = Ret Exited
  | Some cli => exists config, config_of_cli cli = Ret config
      /\ requirepass config = filter_empty (cli_requirepass cli)
      /\ if build (runtime_threads config) then
           exists started, main iter dotenv parse_cli build bind_ok connected w env = Ret (Started config started)
             /\ (started = None <-> bind_ok (listen_addr config) = false)
             /\ forall y0 y, started = Some y0 -> steps ord config y0 y -> sys_ok config y
         else main iter dotenv parse_cli build bind_ok connected w env = Ret BuildFailed
  end.
Proof.
  intros Hdot Hcli. unfold main.
  assert (Henv : exists env1, load_dotenv dotenv env = Ret env1).
  { destruct dotenv as [text|]; [|by exists env]. cbn. destruct (dotenv_lines_fill (Str.lines text) env) as (env1 & -> & _); [auto|by exists env1]. }
  destruct Henv as [env1 Henv]. rewrite Henv. cbn [mbind outcome_bind]. exists env1. split; [done|].
  destruct (parse_cli env1) as [cli|] eqn:Ec; [|done]. specialize (Hcli env1 cli Ec).
  destruct (config_built _ Hcli) as (config & -> & Hpay & Hconn & Hsh & Hpass). cbn [mbind outcome_bind].
  exists config. split; [done|]. split; [done|]. destruct (build _); [|done].
  destruct (server_starts iter iter_ok config (initial_repl config) w) as (srv & -> & Hok & _);
    [rewrite Hsh; apply Hcli|rewrite Hsh; apply Hcli|]. cbn [mbind outcome_bind].
  assert (Hmax : 0 <= max_connections config <= max_permits) by (rewrite Hconn; apply Hcli).
  assert (Hb : exists started, boot config bind_ok connected (initial_shared iter srv w) = Ret started
    /\ (started = None <-> bind_ok (listen_addr config) = false)).
  { unfold boot. destruct (sem_new_ok _ Hmax) as (p & -> & _). destruct (bind_ok _); by eexists. }
  destruct Hb as (started & Hb & Hnone). rewrite Hb. cbn [mbind outcome_bind].
  exists started. split_and!; [done|exact Hnone|].
  intros y0 y Hboot Hsteps. eapply (steps_ok ord config); [rewrite Hpay; apply Hcli|exact Hsteps|].
    eapply (boot_ok config); [exact Hmax|exact Hok|rewrite Hboot in Hb; exact Hb].
Qed.

End Start.
