(* ===== verification/SystemWitnesses.v ===== *)
(** * The theorems on the running server at concrete inputs

    A server with a replica and two clients that are about to run SET of one
    key; a server with a password and a client that has not given it; a
    server that has been told to stop.  The channels, the broadcast and the
    semaphore are the ones of [Runtime] and [ServerTheory]. *)

From S2P Require Import Prelude RustStd Str Resp RespTheory Slot Storage StorageTheory Store Calls.
From S2P Require Import Topology TopologyTheory ReplState ReplTheory Runtime Commands CommandsTheory.
From S2P Require Import Connection ConnectionTheory Regions RegionsTheory Replica ReplicaTheory Pipeline.
From S2P Require Import Server ServerTheory System SystemTheory Program SystemRaces SystemLiveness.
Import Resp Slot ReplState Commands Connection Regions Config System Program.

#[local] Existing Instance StorageTheory.witness_platform.
#[local] Existing Instance CommandsTheory.witness_store.
#[local] Existing Instance CommandsTheory.witness_laws.
#[local] Existing Instance Runtime.live_mpsc | 0.
#[local] Existing Instance Runtime.live_mpsc_laws | 0.
#[local] Existing Instance Runtime.live_rx.
#[local] Existing Instance Runtime.live_rx_laws.
#[local] Existing Instance Runtime.live_bus.
#[local] Existing Instance Runtime.live_bus_laws.
#[local] Existing Instance ServerTheory.counter.
#[local] Existing Instance ServerTheory.counter_laws.

#[local] Instance witness_regions : StoreRegions := Db_regions list_order.
#[local] Instance witness_region_laws : RegionLaws := Db_region_laws list_order list_order_ok.

(** ** The server *)

Lemma default_payload : 0 <= max_payload_size default_config < isize_max.
Proof. unfold isize_max, i64_max. cbn. lia. Qed.

Definition three_channels : gmap nat cell := {[0%nat := empty_cell; 1%nat := empty_cell; 2%nat := empty_cell]}.

Definition channel_0 : @sender live_mpsc := 0%nat.

(** A master outside a cluster with the channel 0 registered. *)
Definition lone_master (d : Storage.Db) : Shared :=
  {| db := d; repl := register_downstream channel_0 (new_master None); chans := (three_channels : channels);
     cluster := None |}.

Lemma lone_master_ok d : inv d -> shared_ok (lone_master d).
Proof. intros Hd. by constructor. Qed.

Definition demo_conn (downstream : bool) : Conn :=
  {| buffer := []; is_authenticated := true; is_downstream_replica := downstream; written := []; served := 0%nat |}.

Definition set_k (v : bytes) : Command := Set_ b!"k" v None.
Definition raw_of (c : Command) : bytes := serialize (wire_value c) [].

Definition setting (v : bytes) (n : nat) : Client :=
  {| conn := demo_conn false; at_ := Run (raw_of (set_k v)) (Start (set_k v)); chan := n : sender; stop_rx := n : receiver |}.

Definition stored (v : bytes) (n : nat) : Client :=
  {| conn := demo_conn false; at_ := Run (raw_of (set_k v)) SetStored; chan := n : sender; stop_rx := n : receiver |}.

Definition waiting (n : nat) : Client :=
  {| conn := demo_conn true; at_ := Select; chan := n : sender; stop_rx := n : receiver |}.

Definition busy_sys (d : Storage.Db) : Sys :=
  {| shared := lone_master d;
     clients := {[0%nat := waiting 0; 1%nat := setting b!"a" 1; 2%nat := setting b!"b" 2]};
     permits := 9997 : sem; stopped := false; shutdown := (3, 0)%nat : bus; repl_task := NoTask; purging := None |}.

(** The cases of a client of [busy_sys]. *)
Lemma busy_clients d i cl :
  clients (busy_sys d) !! i = Some cl ->
  (i = 0%nat /\ cl = waiting 0) \/ (i = 1%nat /\ cl = setting b!"a" 1) \/ (i = 2%nat /\ cl = setting b!"b" 2).
Proof.
  cbn [clients busy_sys]. rewrite !lookup_insert_Some, lookup_singleton_Some. naive_solver.
Qed.

Lemma busy_sys_ok d : inv d -> sys_ok default_config (busy_sys d).
Proof.
  intros Hd. constructor.
  - exact (shared_ok_wf _ (lone_master_ok d Hd)).
  - reflexivity.
  - cbn. lia.
  - intros i cl Hi. apply busy_clients in Hi as [[-> ->]|[[-> ->]|[-> ->]]];
      (constructor; cbn; [right; lia|try done; by split| |by split|done|done|right; apply sublist_nil_l]); done.
  - intros i j cl cl' Hi Hj Hch. apply busy_clients in Hi as [[-> ->]|[[-> ->]|[-> ->]]];
      apply busy_clients in Hj as [[-> ->]|[[-> ->]|[-> ->]]]; done.
  - exact I.
  - done.
Qed.

(** ** Witnesses *)

Lemma replication_race_witness :
  exists d y', Storage.with_config 4 0 = Ret d /\ steps by_map_order default_config (busy_sys d) y'
    /\ (forall t, seen (contents (db (shared y'))) t b!"k" = Some b!"b")
    /\ accepted (chans (shared y')) channel_0 = [raw_of (set_k b!"b"); raw_of (set_k b!"a")]
    /\ forall view, views_after [set_k b!"b"; set_k b!"a"] view b!"k" = Some b!"a".
Proof.
  destruct (four_shards 0) as (d & Hw & Hd & _).
  destruct (replication_race by_map_order default_config default_payload (busy_sys d) 1 2 (setting b!"a" 1) (setting b!"b" 2)
    b!"k" b!"a" b!"b" (raw_of (set_k b!"a")) (raw_of (set_k b!"b")) channel_0 (busy_sys_ok d Hd)
    ltac:(discriminate) eq_refl eq_refl eq_refl eq_refl eq_refl eq_refl eq_refl eq_refl eq_refl) as (y' & Hst & Hrest).
  exists d, y'. split; [exact Hw|]. split; [exact Hst|]. exact Hrest.
Defined.

(** Client 1 runs its SET. *)
Lemma busy_sys_sets d : inv d -> exists y', sys_run by_map_order default_config (busy_sys d) [raw_of (set_k b!"a")] [] y'
  /\ clients y' !! 0%nat = Some (waiting 0).
Proof.
  intros Hd. pose proof (busy_sys_ok d Hd) as Hy.
  destruct (access_set by_map_order default_config (busy_sys d) 1 (setting b!"a" 1) (raw_of (set_k b!"a")) b!"k" b!"a" Hy
    eq_refl eq_refl eq_refl) as (d1 & Hs1 & _).
  set (y1 := moved_on 1 _ _ _ _ _) in Hs1.
  destruct (access_propagate by_map_order default_config y1 1
    (stored b!"a" 1) (raw_of (set_k b!"a")) eq_refl eq_refl) as (c2 & p2 & Hs2).
  set (y2 := put_client 1 _ _ _ _) in Hs2. exists y2. split.
  - exact (sys_run_app by_map_order default_config _ _ _ _ _ _ _ Hs1 (sys_run_cons by_map_order default_config _ _ _ _ _ _ Hs2
      (sys_run_nil _ _ y2))).
  - reflexivity.
Qed.

Lemma replica_forwarding_witness :
  exists d y', Storage.with_config 4 0 = Ret d
    /\ sys_run by_map_order default_config (busy_sys d) [raw_of (set_k b!"a")] [] y'
    /\ accepted (chans (shared y')) channel_0 = [raw_of (set_k b!"a")]
    /\ delivered (chans (shared y')) channel_0 `prefix_of` [raw_of (set_k b!"a")].
Proof.
  destruct (four_shards 0) as (d & Hw & Hd & _). destruct (busy_sys_sets d Hd) as (y' & Hrun & Hcl).
  destruct (replica_forwarding by_map_order default_config default_payload (busy_sys d) [raw_of (set_k b!"a")] [] y' 0
    (waiting 0) (waiting 0) (busy_sys_ok d Hd) Hrun eq_refl Hcl eq_refl eq_refl (not_elem_of_nil _) eq_refl) as (Ha & Hp & _).
  exists d, y'. split; [exact Hw|]. split; [exact Hrun|]. split; [exact Ha|exact Hp].
Defined.

(** A freshly booted server. *)
Definition booted (d : Storage.Db) : Sys :=
  {| shared := lone_master d; clients := ∅; permits := 10000 : sem; stopped := false; shutdown := (0, 0)%nat : bus;
     repl_task := NoTask; purging := None |}.

Definition permits_left (n : Z) : @sem counter := n.

Definition bindable (addr : bytes) : bool := true.

Lemma system_invariant_witness :
  exists d y, Storage.with_config 4 0 = Ret d
    /\ boot default_config bindable true (lone_master d) = Ret (Some (booted d))
    /\ steps by_map_order default_config (booted d) y
    /\ shared_wf (shared y) /\ size (clients y) = 1%nat /\ Z.of_nat (size (clients y)) <= max_connections default_config.
Proof.
  destruct (four_shards 0) as (d & Hw & Hd & _).
  assert (Hb : boot default_config bindable true (lone_master d) = Ret (Some (booted d))) by reflexivity.
  set (y := accept default_config 0 (permits_left 9999) (booted d)).
  assert (Hsteps : steps by_map_order default_config (booted d) y).
  { apply rtc_once. exists (Accept 0). apply step_accept; reflexivity. }
  destruct (system_invariant by_map_order default_config default_payload ltac:(vm_compute; split; discriminate) bindable true (lone_master d)
    (booted d) y (lone_master_ok d Hd) Hb Hsteps) as (Hs & Hm & _).
  exists d, y. split; [exact Hw|]. split; [exact Hb|]. split; [exact Hsteps|]. split; [exact Hs|]. split; [reflexivity|exact Hm].
Defined.

(** A server with a password; its client has sent SET without giving it. *)
Definition guarded_config : ServerConfig := {|
  host := b!"0.0.0.0"; port := 6379; tcp_nodelay := true; max_connections := 10; max_payload_size := 1000;
  requirepass := Some b!"pw"; masterauth := None; worker_threads := 0; shard_count := 4; max_memory_bytes := 0;
  ttl_interval := 100; ttl_sample_size := 20; replicaof := None; cluster_enabled := false; cluster_node_id := None;
  cluster_announce_ip := b!"127.0.0.1"; cluster_announce_port := 6379; cluster_announce_bus_port := 16379;
  cluster_slots := None |}.

Lemma guarded_payload : 0 <= max_payload_size guarded_config < isize_max.
Proof. unfold isize_max, i64_max. cbn. lia. Qed.

Definition stranger (p : phase) (b : bytes) : Client :=
  {| conn := set_buffer b (new (Some b!"pw")); at_ := p; chan := channel_0; stop_rx := 0%nat : receiver |}.

Definition guarded (d : Storage.Db) (cl : Client) : Sys :=
  {| shared := lone_master d; clients := {[0%nat := cl]}; permits := 9 : sem; stopped := false;
     shutdown := (1, 0)%nat : bus; repl_task := NoTask; purging := None |}.

Lemma guarded_ok d : inv d -> sys_ok guarded_config (guarded d (stranger Select [])).
Proof.
  intros Hd. constructor; [exact (shared_ok_wf _ (lone_master_ok d Hd))|reflexivity|cbn; lia| | |exact I|done].
  - intros i cl Hi. cbn in Hi. apply lookup_singleton_Some in Hi as [<- <-].
    by constructor; cbn; [right; lia|done|done|by split|done|done|right; apply sublist_nil_l].
  - intros i j cl cl' Hi Hj _. cbn in Hi, Hj. apply lookup_singleton_Some in Hi as [<- _].
    by apply lookup_singleton_Some in Hj as [<- _].
Qed.

Lemma locked_put i c p cl y :
  locked guarded_config y -> is_authenticated c = false -> locked guarded_config (put_client i c p cl y).
Proof.
  intros Hl Hc j cl2. cbn [clients put_client]. rewrite lookup_insert_Some.
  intros [[_ <-]|[_ Hj]]; [exact Hc|exact (Hl j cl2 Hj)].
Qed.

(** The client's SET is read, started and refused. *)
Definition refusal : bytes := serialize (error b!"NOAUTH Authentication required.") [].

Lemma guarded_scan d : let raw := raw_of (set_k b!"a") in
  advance by_map_order all_written calm_clock 0 (Some b!"pw") channel_0 (set_buffer raw (new (Some b!"pw"))) Scan (lone_master d)
  = Ret (new (Some b!"pw"), Run raw (Start (set_k b!"a")), lone_master d).
Proof.
  intros raw. assert (Hp : parse raw = Ret (Ok (Some (wire_value (set_k b!"a"))), [])) by (vm_compute; reflexivity).
  assert (Hf : fits (raw ++ [])) by (vm_compute; reflexivity).
  cbn [advance]. destruct (scan_frame all_written (set_buffer raw (new (Some b!"pw"))) (lone_master d) _ _ Hf Hp) as (fr & Hfr & ->).
  cbn in Hfr. rewrite app_nil_r in Hfr. subst fr. reflexivity.
Qed.

(** Then a purge starts. *)
Lemma guarded_steps d :
  exists y', locked_run by_map_order guarded_config (guarded d (stranger Select [])) [7] y'
    /\ written ∘ conn <$> clients y' !! 0%nat = Some [refusal].
Proof.
  set (raw := raw_of (set_k b!"a")). set (y0 := guarded d (stranger Select [])).
  assert (Hl0 : locked guarded_config y0) by (intros i cl Hi; cbn in Hi; by apply lookup_singleton_Some in Hi as [_ <-]).
  set (y1 := put_client 0 (set_buffer raw (new (Some b!"pw"))) Scan (stranger Select []) y0).
  assert (Hl1 : locked guarded_config y1) by (by apply locked_put).
  set (y2 := put_client 0 (new (Some b!"pw")) (Run raw (Start (set_k b!"a"))) (stranger Scan raw) (with_shared (lone_master d) y1)).
  assert (Hl2 : locked guarded_config y2) by (by apply locked_put).
  set (y3 := put_client 0 (count_command (push_written refusal (set_auth false (new (Some b!"pw"))))) Scan
    (stranger (Run raw (Start (set_k b!"a"))) []) (with_shared (lone_master d) y2)).
  assert (Hl3 : locked guarded_config y3) by (by apply locked_put).
  exists (with_purge (Some (PurgeRead 7 0)) y3). split; [|reflexivity].
  apply (locked_cons by_map_order guarded_config y0 (Wake 0 (Read raw)) y1 [7]); [exact Hl0| |
    apply (locked_cons by_map_order guarded_config y1 (Access 0 Scan) y2 [7]); [exact Hl1| |
    apply (locked_cons by_map_order guarded_config y2 (Access 0 (Run raw (Start (set_k b!"a")))) y3 [7]); [exact Hl2| |
    apply (locked_cons by_map_order guarded_config y3 (PurgeStart 7) (with_purge (Some (PurgeRead 7 0)) y3) []); [exact Hl3|by apply step_purge_start|constructor]]]].
  - apply (step_wake by_map_order guarded_config 0 (stranger Select []) all_written); [|done|done|vm_compute; reflexivity].
    apply lookup_singleton_eq.
  - apply (step_access by_map_order guarded_config 0 (stranger Scan raw) all_written calm_clock 0); [reflexivity|done|apply calm_ticks|].
    apply guarded_scan.
  - apply (step_access by_map_order guarded_config 0 (stranger (Run raw (Start (set_k b!"a"))) []) all_written calm_clock 0);
      [reflexivity|done|apply calm_ticks|]. reflexivity.
Qed.

Lemma locked_server_keeps_data_witness :
  exists d y', Storage.with_config 4 0 = Ret d
    /\ locked_run by_map_order guarded_config (guarded d (stranger Select [])) [7] y'
    /\ written ∘ conn <$> clients y' !! 0%nat = Some [refusal]
    /\ cluster (shared y') = None
    /\ contents (db (shared y')) ⊆ contents (db (shared (guarded d (stranger Select [])))).
Proof.
  destruct (four_shards 0) as (d & Hw & Hd & _). destruct (guarded_steps d) as (y' & Hs & Hr).
  destruct (locked_server_keeps_data by_map_order guarded_config guarded_payload _ _ _ (guarded_ok d Hd) eq_refl eq_refl Hs)
    as (Hcl & Hc & _).
  exists d, y'. split; [exact Hw|]. split; [exact Hs|]. split; [exact Hr|]. split; [exact Hcl|exact Hc].
Defined.

(** A server with one client is told to stop; the client takes the signal and
    leaves, and nothing moves any more. *)
Definition stopping (d : Storage.Db) (told : bool) (cs : gmap nat Client) (n : Z) (w : gmap nat cell) : Sys :=
  {| shared := {| db := d; repl := repl (lone_master d); chans := (w : channels); cluster := None |};
     clients := cs; permits := permits_left n; stopped := told;
     shutdown := (1, if told then 1 else 0)%nat : bus; repl_task := NoTask; purging := None |}.

Definition closing (p : phase) : Client :=
  {| conn := demo_conn false; at_ := p; chan := channel_0; stop_rx := 0%nat : receiver |}.

Definition last_run (d : Storage.Db) (n : nat) : Sys :=
  match n with
  | 0%nat => stopping d false {[0%nat := closing Select]} 9999 three_channels
  | 1%nat => stopping d true {[0%nat := closing Select]} 9999 three_channels
  | 2%nat => stopping d true {[0%nat := closing (Over true)]} 9999 three_channels
  | _ => stopping d true ∅ 10000 (drop_rx channel_0 (three_channels : channels))
  end.

Definition last_moves (n : nat) : option act :=
  match n with
  | 0%nat => Some Stop
  | 1%nat => Some (Wake 0 Shutdown)
  | 2%nat => Some (Leave 0)
  | _ => None
  end.

Lemma last_run_is_run d : infinite_run by_map_order default_config (last_run d) last_moves.
Proof.
  intros [|[|[|n]]]; cbn [last_moves].
  - assert (last_run d 1 = stop (last_run d 0)) as -> by reflexivity. by apply step_stop.
  - assert (last_run d 2 = put_client 0 (demo_conn false) (Over true) (closing Select) (last_run d 1)) as -> by reflexivity.
    apply (step_wake by_map_order default_config 0 (closing Select) all_written); [apply lookup_singleton_eq|done|done|done].
  - assert (last_run d 3 = leave 0 (closing (Over true)) (last_run d 2)) as -> by reflexivity.
    apply (step_over by_map_order default_config 0 (closing (Over true)) true); [apply lookup_singleton_eq|done].
  - reflexivity.
Qed.

Lemma last_run_ok d : inv d -> sys_ok default_config (last_run d 0).
Proof.
  intros Hd. constructor; [exact (shared_ok_wf _ (lone_master_ok d Hd))|reflexivity|by vm_compute| | |exact I|done].
  - intros i cl Hi. cbn in Hi. apply lookup_singleton_Some in Hi as [<- <-].
    by constructor; cbn; [right; lia|done|done|by split|done|done|right; apply sublist_nil_l].
  - intros i j cl cl' Hi Hj _. cbn in Hi, Hj. apply lookup_singleton_Some in Hi as [<- _].
    by apply lookup_singleton_Some in Hj as [<- _].
Qed.

Lemma last_run_fair d : tasks_are_fair (last_run d) last_moves.
Proof.
  intros [|[|[|n]]] i (cl & Hi & Hat); cbn in Hi.
  - apply lookup_singleton_Some in Hi as [_ <-]. done.
  - apply lookup_singleton_Some in Hi as [_ <-]. done.
  - apply lookup_singleton_Some in Hi as [<- _]. exists 2%nat, (Leave 0). by split_and!.
  - by rewrite lookup_empty in Hi.
Qed.

Lemma last_run_selects d : select_is_fair (last_run d) last_moves.
Proof.
  intros n i _. exists (S (S (S n))). split; [lia|right]. unfold gone. cbn. apply lookup_empty.
Qed.

Lemma shutdown_completes_witness :
  exists d, Storage.with_config 4 0 = Ret d /\ size (clients (last_run d 0)) = 1%nat /\ stopped (last_run d 0) = false
    /\ exists n, forall m, (n <= m)%nat -> clients (last_run d m) = ∅.
Proof.
  destruct (four_shards 0) as (d & Hw & Hd & _ & Hm). exists d. split; [exact Hw|]. split; [reflexivity|]. split; [reflexivity|].
  refine (shutdown_completes by_map_order default_config (last_run d) last_moves 1 default_payload (last_run_is_run d)
    (last_run_ok d Hd) eq_refl (last_run_fair d) (last_run_selects d) (or_introl _)).
  cbn. rewrite Hm. lia.
Defined.

(** ** Pipelines *)

Definition pipeline : list (bytes * Command) :=
  (fun c => (raw_of c, c)) <$> [set_k b!"a"; Get b!"k"; Exists_ [b!"k"; b!"x"; b!"k"]; Del [b!"k"; b!"x"]; Get b!"k"; set_k b!"b"].

Lemma raw_of_reads c : cmd_ok c -> sendable c -> wf (wire_value c) = true -> reads_as (raw_of c) c.
Proof.
  intros Hc Hs Hwf. exists (wire_value c). split; [|by apply from_value_wire].
  pose proof (serialize_frame (wire_value c) Hwf) as Hf. unfold wire_value in *. by rewrite reread_bulks in Hf.
Qed.

Lemma pipeline_ok :
  Forall (fun rc : bytes * Command => reads_as (fst rc) (snd rc)) pipeline
  /\ Forall (fun rc : bytes * Command => cmd_ok (snd rc) /\ simple (snd rc) = true) pipeline.
Proof.
  assert (Hall : Forall (fun c => cmd_ok c /\ sendable c /\ wf (wire_value c) = true /\ simple c = true) pipeline.*2).
  { repeat (apply Forall_cons; split); try apply Forall_nil_2; (split_and!; [|done|vm_compute; reflexivity|reflexivity]);
      cbn; repeat constructor. }
  split; apply Forall_fmap; apply (Forall_impl _ _ _ Hall); cbn; intros c (Hc & Hs & Hwf & Hsim); [|done].
  by apply raw_of_reads.
Qed.

Lemma pipeline_pipelined d : pipelined all_written 1000 pipeline (new None) (lone_master d).
Proof.
  constructor; [done|done|apply pipeline_ok|unfold isize_max, i64_max; by vm_compute|done|done|done].
Qed.

(** What the map answers. *)
Definition pipeline_replies : list Value :=
  [ok; BulkString (Some b!"a"); Integer 2; Integer 1; BulkString None; ok].

Lemma kv_pipeline : kv_run pipeline.*2 ∅ = (pipeline_replies, {[b!"k" := b!"b"]}).
Proof.
  unfold pipeline, set_k, pipeline_replies. cbn [fmap list_fmap snd kv_run kv_step kv_reply foldr]. apply f_equal2.
  - repeat (apply f_equal2; [f_equal; try done; vm_compute; reflexivity|]). done.
  - apply map_eq. intros k. rewrite lookup_singleton. case_decide as Hk; [subst k; by rewrite lookup_insert_eq|].
    rewrite lookup_insert_ne, lookup_delete_ne by done. apply lookup_delete_None. right. by rewrite lookup_insert_ne.
Qed.

Lemma fresh_store d : Storage.with_config 4 0 = Ret d ->
  inv d /\ Storage.max_memory_bytes d <= 0 /\ undying (content d) /\ kv_of (content d) = ∅.
Proof.
  intros Hw. destruct (four_shards 0) as (d' & Hw' & Hd & Hc & Hm). assert (d' = d) as -> by congruence.
  rewrite Hc, Hm. split_and!; [done|done|done|by apply fmap_empty].
Qed.

Lemma server_is_a_map_witness :
  exists d s', Storage.with_config 4 0 = Ret d
    /\ on_event by_map_order all_written ticks None 1000 channel_0 (Read (concat pipeline.*1)) (new None) (lone_master d)
       = Ret (Wait, answered_all pipeline ((fun v => serialize v []) <$> pipeline_replies) (new None), s')
    /\ kv_of (contents (db s')) = {[b!"k" := b!"b"]}.
Proof.
  destruct (four_shards 0) as (d & Hw & _). destruct (fresh_store d Hw) as (Hd & Hu & Hm & Hk).
  destruct (server_is_a_map by_map_order all_written ticks None 1000 channel_0 pipeline (new None) (lone_master d)
    pipeline_replies {[b!"k" := b!"b"]} (pipeline_pipelined d) (lone_master_ok d Hd) Hu Hm (proj2 pipeline_ok) ticks_ok)
    as (s' & Hev & _ & _ & Hk').
  { change (kv_run pipeline.*2 (kv_of (content d)) = (pipeline_replies, {[b!"k" := b!"b"]})). rewrite Hk. exact kv_pipeline. }
  exists d, s'. split; [exact Hw|]. split; [exact Hev|exact Hk'].
Defined.

Definition follower (d : Storage.Db) : Shared :=
  {| db := d; repl := new_replica b!"127.0.0.1" 6379; chans := (∅ : gmap nat cell) : channels; cluster := None |}.

Lemma client_writes_reach_replica_witness :
  exists d sm' msgs, Storage.with_config 4 0 = Ret d
    /\ on_event by_map_order all_written noon None 1000 channel_0 (Read (concat pipeline.*1)) (new None) (lone_master d)
       = Ret (Wait, answered_all pipeline ((fun v => serialize v []) <$> pipeline_replies) (new None), sm')
    /\ accepted (chans sm') channel_0 = msgs
    /\ forall ds, nonempty ds ->
         concat ds = master_replies None (get_replid (repl (lone_master d))) [] ++ concat msgs -> fits (concat msgs) ->
         exists st sr', Replica.run_replica_loop by_map_order all_written noon 6380 None (received ds) (follower d)
             = Ret (Replica.More, Some st, sr')
           /\ Replica.total_bytes_processed st = total_len msgs
           /\ forall t k, 12 <= t -> seen (contents (db sr')) t k = ({[b!"k" := b!"b"]} : kv) !! k.
Proof.
  destruct (four_shards 0) as (d & Hw & _). destruct (fresh_store d Hw) as (Hd & Hu & Hm & Hk).
  destruct (client_writes_reach_replica by_map_order all_written noon None 1000 channel_0 pipeline (new None) (lone_master d)
    (follower d) pipeline_replies {[b!"k" := b!"b"]} 12 noon channel_0 6380 None [] (pipeline_pipelined d) (lone_master_ok d Hd)
    Hu Hm eq_refl (proj2 pipeline_ok) noon_ticks (fun _ _ => Z.le_refl 12)) as (sm' & msgs & H1' & H2' & H3').
  { change (kv_run pipeline.*2 (kv_of (content d)) = (pipeline_replies, {[b!"k" := b!"b"]})). rewrite Hk. exact kv_pipeline. }
  { reflexivity. }
  { reflexivity. }
  { exact default_replid_visible. }
  { discriminate. }
  { discriminate. }
  { constructor; [exact Hd|]. intros t Ht. discriminate Ht. }
  { exact Hu. }
  { exact noon_ticks. }
  { exact (fun _ _ => Z.le_refl 12). }
  { intros t k _. exact (undying_seen (content d) t k Hm). }
  exists d, sm', msgs. split; [exact Hw|]. split; [exact H1'|]. split; [exact H2'|exact H3'].
Defined.

(** ** GETACK *)

Definition getack : Command := ReplConf [b!"GETACK"; b!"*"].

Definition set_log : list (bytes * Command) := [(raw_of (set_k b!"a"), set_k b!"a")].

Definition acking : Replica.Stream :=
  {| Replica.s_buffer := concat set_log.*1 ++ raw_of getack; Replica.total_bytes_processed := 0; Replica.s_written := [];
     Replica.s_served := 0%nat |}.

Lemma set_log_ok : Forall loggable set_log.
Proof.
  apply Forall_singleton. split_and!; [|done|].
  - by split_and!.
  - by apply raw_of_reads; [by split| |vm_compute].
Qed.

Lemma getack_acknowledges_witness :
  exists d st' s', Storage.with_config 4 0 = Ret d
    /\ Replica.stream_buffer by_map_order all_written noon 100 acking (follower d) = Ret (Replica.More, st', s')
    /\ replica_bytes_processed (repl s') = 64
    /\ Replica.s_written st' = [raw_of (ReplConf [b!"ACK"; b!"64"])].
Proof.
  destruct (four_shards 0) as (d & Hw & _). destruct (fresh_store d Hw) as (Hd & Hu & _).
  destruct (getack_acknowledges by_map_order all_written noon 12 set_log (raw_of getack) [b!"GETACK"; b!"*"] 100 acking (follower d))
    as (st' & s' & Hrun & _ & Hoff & Hwr & _).
  { constructor; [exact Hd|]. intros t Ht. discriminate Ht. }
  { exact Hu. }
  { exact set_log_ok. }
  { exact noon_ticks. }
  { exact (fun _ _ => Z.le_refl 12). }
  { reflexivity. }
  { apply raw_of_reads; [repeat constructor|exact I|vm_compute; reflexivity]. }
  { reflexivity. }
  { vm_compute. reflexivity. }
  { vm_compute. lia. }
  { cbn. lia. }
  { reflexivity. }
  { vm_compute. discriminate. }
  exists d, st', s'. split; [exact Hw|]. split; [exact Hrun|]. split; [exact Hoff|exact Hwr].
Defined.

(** ** The program *)

(** The options' defaults; the password from the environment. *)
Definition demo_options (env : environment) : Cli := {|
  cli_host := b!"0.0.0.0"; cli_port := 6379; cli_tcp_nodelay := true; cli_max_connections := 10000;
  cli_max_payload_size := 512 * 1024 * 1024; cli_requirepass := var b!"RUSTICACHE_REQUIREPASS" env; cli_masterauth := None;
  cli_worker_threads := 0; cli_shard_count := 128; cli_max_memory_bytes := 0; cli_ttl_interval_ms := 100;
  cli_ttl_sample_size := 20; cli_replicaof := Some [b!"10.0.0.1"; b!"6379"]; cli_replicaof_env := None;
  cli_cluster_enabled := false; cli_cluster_node_id := None; cli_cluster_announce_ip := None;
  cli_cluster_announce_port := None; cli_cluster_announce_bus_port := None; cli_cluster_slots := None |}.

Definition demo_cli (env : environment) : option Cli := Some (demo_options env).

Definition built (threads : option Z) : bool := true.

Definition password_file : bytes := b!"# settings" ++ [LF] ++ b!"RUSTICACHE_REQUIREPASS=secret" ++ [LF].

Lemma password_loaded env : load_dotenv (Some password_file) ∅ = Ret env -> cli_requirepass (demo_options env) = Some b!"secret".
Proof.
  intros Hl. unfold load_dotenv in Hl.
  assert (Hs : Forall settable (Str.lines password_file)) by (apply settable_dec_ok; vm_compute; reflexivity).
  destruct (dotenv_lines_fill (Str.lines password_file) ∅ Hs) as (env' & Hl' & Hf).
  assert (env' = env) as -> by congruence. cbn [demo_options cli_requirepass].
  rewrite (filled_var _ _ _ _ Hf) by (intros v; by apply first_definition_valid). unfold var. by rewrite lookup_empty.
Qed.

Lemma program_runs_safely_witness :
  exists config started,
    main list_order (Some password_file) demo_cli built bindable true (∅ : @channels live_mpsc) ∅ = Ret (Started config started)
    /\ started <> None /\ requirepass config = Some b!"secret"
    /\ forall y0 y, started = Some y0 -> steps by_map_order config y0 y -> sys_ok config y.
Proof.
  destruct (program_runs_safely list_order list_order_ok by_map_order (Some password_file) demo_cli built bindable true
    (∅ : @channels live_mpsc) ∅) as (env' & Henv & config & _ & Hpass & started & Hmain & Hnone & Hsafe).
  { intros text [= <-]. apply settable_dec_ok. vm_compute. reflexivity. }
  { intros env' cli [= <-]. constructor; [vm_compute; split; (discriminate || reflexivity)|vm_compute; split; discriminate|vm_compute; discriminate|vm_compute; reflexivity
      |intros args [= <-]; reflexivity|vm_compute; discriminate]. }
  exists config, started. split; [exact Hmain|]. split; [intros Hs; apply Hnone in Hs; discriminate Hs|].
  split; [rewrite Hpass, (password_loaded env' Henv); reflexivity|exact Hsafe].
Defined.
